(* ===== verification/_CoqProject ===== *)
-Q . S2P
Prelude.v
Field.v
Types.v
Predicate.v
Poseidon.v
Merkle.v
Imt.v
ImtCircuit.v
Records.v
Fsrt.v
Blob.v
Ports.v
Organizer.v
Disputant.v
Registry.v
RegistryInv.v
RegistryRun.v
RegistryTrace.v
RegistryTotal.v
OrganizerOk.v
Disputes.v
Relayer.v
RelayerOk.v
Resolver.v
ResolverOk.v
Signer.v
SwapCrypto.v
SwapParty.v
SwapCoordinator.v
SwapOk.v
SwapRun.v
SwapSample.v
RailsHash.v
RailsTypes.v
RailsCard.v
RailsMultisig.v
RailsRoles.v
RailsRegistry.v
RailsOk.v
RailsCircuits.v
RailsRun.v
RailsSample.v
Weierstrass.v
Primality.v
MmfTypes.v
MmfCurve.v
MmfChain.v
MmfWallet.v
MmfOk.v
MmfAgent.v
MmfWalletOk.v
MmfHandOut.v
MmfAgentOk.v
MmfCaps.v
MmfDelivery.v
MmfChainOk.v
MmfAgentRun.v
MmfLedger.v
MmfSample.v
Sample.v
Witnesses.v
