(* ===== verification/Prelude.v ===== *)
(** * Petitions, fund notes, swaps and disbursements: a verification development

    A model of four Rust programs of the repository:

    - [src/pocs/civic-participation/resilient-civic-participation/src], with
      the indexed-Merkle-tree part of its Noir circuits.  It implements
      anonymous petitions: credential holders sign petitions for their class
      without revealing who they are, relayers batch the signatures, a
      registry admits the batches, anyone may dispute a batch, and a resolver
      proves the tally.
    - [src/pocs/private-mmf/shielded-notes/src]: shares of a money-market fund
      as private notes in a pool, with a transfer agent that attests the
      holders, reads every note through a register feed and can freeze, hold,
      release or seize one.
    - [src/pocs/private-trade-settlement/tee_swap/src/lib]: two parties lock
      notes on two chains for each other, and a coordinator in a trusted
      execution environment announces the keys to both locks at once, or to
      none.
    - [src/pocs/private-payment/resilient-disbursement-rails/src]: a funder
      pays a cohort of smartcard holders, whose cards sign vouchers that
      relays turn into proofs of claim to fresh addresses.

    ** Petitions: the parts and how they interact

    - An organizer builds a draft ([organizer/]) that the registry registers
      under the next slot, with an escrowed bounty.
    - A signer ([signer/]) holds a forward-secure ratchet ([fsrt.rs]), posts a
      commitment to the credential layer ([ports/ri.rs]) and signs: a
      nullifier and an identity tag derived from the slot's ratchet value,
      with a proof ([ports/proof.rs]).
    - A relayer ([relayer/]) checks submissions, sorts them, inserts them into
      replicas of the two indexed Merkle trees ([imt.rs]), publishes the
      records as a blob ([blob.rs], [ports/blob.rs]) and proves the batch.
    - The registry ([registry/]) re-executes the insertions on its own trees,
      keeps the batches by versioned hash, and moves each petition through its
      lifecycle by block number.
    - A disputant ([disputant/]) opens records of a blob and has the registry
      repudiate a batch and roll the petition back.
    - A resolver ([resolver/]) reads the active batches back, tallies them and
      has the registry record the outcome and pay the bounty; past a grace
      period anyone may give the petition up instead.

    ** Fund notes: the parts and how they interact

    - A note ([domain/note.rs]) commits to its token, units, owner value, salt
      and lock; an owner value ([domain/keys.rs]) is that of a spend key, held
      by a custody signer, and of a nullifier key, held by the wallet too.
    - A spend is prepared, signed and finished ([wallet.rs]): a plan
      ([domain/plan.rs]) fixes the nullifiers and outputs, the custody signer
      rebuilds it and signs it, and the witness ([domain/witness.rs]) takes
      Merkle paths ([domain/tree.rs]) and attestations from the view of the
      chain.  Each output is encrypted twice: to the recipient in a payload
      ([crypto/encryption.rs]) and to the agent's register key in the feed
      ([domain/feed.rs], over [domain/grumpkin.rs]).
    - The view ([chain.rs]) is rebuilt from the events of the pool, the token
      and the attestation registry, and marks the transfers out of the pool
      that no withdrawal explains.
    - A wallet ([wallet.rs]) scans the payloads, pays and withdraws.
    - The transfer agent ([agent.rs]) onboards investors, issues attestation
      batches within the investor caps, keeps the register of all notes from
      the feed under rotating keys, moves notes through the claim path, hands
      the day's subscriptions out, lists redemptions and reconciles the
      register with the pool.

    ** Swaps: the parts and how they interact

    - A party ([party.rs], [domain/]) locks a note to a stealth address of the
      other party, encrypts its salt to it ([crypto/salt.rs],
      [crypto/stealth.rs]), and publishes bindings of both with the lock
      ([crypto/poseidon.rs]); it sends the opening to the coordinator.
    - The coordinator ([coordinator.rs]) reads the lock from the chain
      ([ports/chain.rs]), files the first submission of a swap in the store
      ([ports/store.rs]) and its lock data beside it, and on the second one
      checks both locks against both openings by hashing alone and announces
      the ephemeral keys and encrypted salts.
    - From the announcement each party reconstructs and claims the other's
      note; after the timeout it may take its own back.

    ** Disbursements: the parts and how they interact

    - An operator registry ([registry/]) enrolls and revokes cards and builds
      the cohort tree of their keys.
    - A funder ([funder/]) signs a round header and the relay roster with a
      threshold of its owners' keys ([crypto/multisig.rs]) and computes a pool
      commitment for each card.
    - A companion device ([companion/]) checks both signatures and the age of
      the roster, has the card sign a voucher, and seals it to a relay
      ([crypto/aead.rs]).
    - The card ([adapters/software_smartcard.rs]) speaks APDUs
      ([smartcard/apdu.rs]), checks the request against the header, derives a
      stealth key for the round ([crypto/hmac.rs]) and signs
      ([crypto/ecdsa.rs]).
    - The channel ([adapters/direct_submission.rs]) queues envelopes per relay.
    - A relay ([relay/]) opens them with its rotating keys, looks the
      commitment and the cohort path up and produces two proofs.

    ** Files

    - [Prelude]: outcomes of Rust calls, the state monad of methods that take
      [&mut self], loops, checked machine integers, tactics.
    - [Field]: bytes, big-endian integers, the BN254 scalar field.
    - [Types], [Records]: [lib.rs], [error.rs], [types.rs].
    - [Predicate]: [predicate.rs].
    - [Poseidon]: [poseidon.rs]; the hash functions of other packages are the
      class [Crypto]; [Toy] is a concrete instance for evaluation.
    - [Merkle], [Imt]: binary trees and [imt.rs], [ports/imt.rs].
    - [ImtCircuit]: [circuits/lib/src/imt.nr], [merkle.nr], [cmp.nr] and the
      witness translation of [adapters/bb_prover.rs].
    - [Fsrt]: [fsrt.rs].
    - [Blob]: [blob.rs], the port [ports/blob.rs] as the class [BlobCarrier]
      with its laws [BlobLaws], and [adapters/in_memory_blob.rs], which
      discharges them.
    - [Ports]: [ports/ri.rs] and [ports/proof.rs] as classes with laws;
      [adapters/in_memory_ri.rs] and [adapters/mock_proof.rs] as instances.
    - [Organizer], [Disputant], [Registry], [Relayer], [Resolver], [Signer]:
      the roles, one definition per method; [Signer] also holds
      [adapters/direct_relay_submission.rs].
    - [RegistryInv], [RegistryRun], [RegistryTrace]: the invariant of the
      registry, what each call does, and the registry as a transition system
      over traces of calls at non-decreasing blocks.
    - [RegistryTotal], [OrganizerOk], [Disputes], [RelayerOk], [ResolverOk]:
      totality of the registry and its composition with the other roles.
    - [Weierstrass], [Primality]: the group of a short Weierstrass curve over
      any field, and the primality of the scalar field's modulus.
    - [MmfTypes]: [lib.rs], [types.rs], [poseidon.rs], [domain/note.rs],
      [domain/plan.rs], [domain/grumpkin.rs], [domain/feed.rs],
      [domain/keys.rs] and [crypto/encryption.rs] of the fund; the signatures
      and the seal of other packages are the class [Custody] with its laws
      [CustodyLaws], and the field inverse of another package is the class
      [FrInverse] with its law [FrInverseLaws].
    - [MmfCurve]: the points of [domain/grumpkin.rs] are a group and its
      double-and-add is repeated addition, so both ends of the feed share a key.
    - [MmfChain]: [domain/tree.rs], [domain/witness.rs], [chain.rs],
      [ports/prover.rs] and [adapters/mock_prover.rs]; the tree of another
      package is the class [RotorTree] with its laws [RotorLaws].
    - [MmfWallet]: [wallet.rs].  [MmfAgent]: [agent.rs].
    - [MmfOk], [MmfWalletOk], [MmfChainOk]: codecs, feed, payload and plans;
      payments; the rebuilt view and its tree.
    - [MmfHandOut], [MmfAgentOk], [MmfCaps], [MmfLedger]: the hand-out tree,
      the register, attestation batches, positions, redemptions and
      reconciliation.
    - [MmfDelivery]: wallets and agent composed.  [MmfAgentRun]: the agent as
      a transition system over any calls.
    - [MmfSample]: a concrete fund, and the theorems applied to it.
    - [SwapCrypto]: [crypto/], [domain/note.rs], [domain/stealth.rs] of the
      swap; the Grumpkin curve of another package is the class [Curve].
    - [SwapParty]: [party.rs], [domain/swap.rs] and the witness records.
    - [SwapCoordinator]: [coordinator.rs], [ports/chain.rs] as the class
      [ChainPort] with its laws [ChainLaws], [adapters/memory_store.rs] and
      [adapters/mock_chain.rs]; the coordinator's async method both run alone
      ([handle_submission]) and as the steps between its awaits ([task_step]).
    - [SwapOk], [SwapRun]: the meaning of the verification, and runs of the
      coordinator: an honest swap, submissions in sequence, and any
      interleaving of concurrent ones ([sys_step]).
    - [SwapSample]: a concrete swap, and the theorems applied to it.
    - [RailsHash]: SHA-256 and Keccak-256, with the class [HashLaws] that the
      crates compute them.
    - [RailsTypes]: [lib.rs], [error.rs], [types.rs], [poseidon.rs] of the
      disbursement rails.
    - [RailsCard]: the card, its APDUs, ECDSA and HMAC helpers; secp256k1 and
      HMAC of other packages are the class [Secp] with its laws [SecpLaws].
    - [RailsMultisig]: threshold signatures and their wire format.
    - [RailsRoles]: companion, funder, relay and channel, one definition per
      method; the seal, the JSON codec, the prover and the chain views are
      classes, the first two with laws.
    - [RailsRegistry]: the operator registry over the class [MerkleStore].
    - [RailsCircuits]: the Noir circuits [claim] and [withdraw] with the parts
      of [circuits/lib] they use, and the inputs [adapters/bb_prover.rs] gives
      them; ECDSA verification, a builtin there, is the class [NoirEcdsa] with
      its laws [NoirEcdsaLaws]; running [nargo] and [bb] are the fields of
      [BBProver].
    - [RailsOk], [RailsRun]: what the card and the funder guarantee; the
      companion, the relay's keys, a whole claim and the channel.
    - [RailsSample]: a concrete round, and the theorems applied to it.
    - [Sample], [Witnesses]: one concrete petition through all roles, and the
      theorems applied to it.

    ** What the theorems show

    - The registry ([RegistryTrace]): no record is counted twice and the
      stored roots and counts are those of the active batches; the escrow is
      paid out once and in full; the lifecycle only moves forward; the phases
      do not overlap; a dispute restores the state before the batch; no bounty
      is stuck.  [RegistryTotal]: no call panics, the lifecycle loop
      terminates, the bounty floor is exact.
    - Composition: an organizer's draft registers exactly when the remaining
      conditions hold; an honest relayer's batch is accepted and leaves it in
      step exactly when the carrier addressed it by the registry's hash
      ([relayer_batch_accepted]); an honest resolver's submission is accepted and records the tally;
      what a disputant builds repudiates its batch.
    - Signing: the outcomes of [sign] on every path, its submissions pass the
      relayer, and a signer cannot be batched twice for one petition.
    - The ratchet: every field of a reachable state is determined: journaled
      slots are zeroed, the current seed has moved past them, and the
      log-space frontier is that of the reference tree, whose lowest level
      keeps raw values of wiped slots ([ratchet_memory]).
    - The indexed Merkle tree: it refines a set of values, its sparse root is
      that of the full tree, and the circuit accepts its witnesses and, up to
      an explicit collision, only sound ones.
    - Predicates: the evaluator computes the expression a program spells, the
      wire format round-trips, and the taint analysis behind the class binding
      is sound.
    - Blobs: encoding round-trips and its field decomposition is injective.
    - Fund notes: a transfer that is built, submitted and mined is read, as the
      same note at the same leaf, by the agent from the feed and by the
      recipient from the payload ([transfer_delivered]), their shared point
      by the group law of the curve; an honest
      registration is accepted ([onboarding_accepted]); every scanned note has
      a Merkle path to the root, and is spent exactly when its nullifier is
      recorded ([scanned_notes_provable]); a payment takes the
      right notes, is refused, or panics on a sum past 64 bits, each exactly
      when it should or does ([pay_exact]).  In every state the agent reaches its keys, files and
      register are consistent ([agent_invariant]) and what it must keep is
      never rewritten ([agent_history]); a batch attests whoever is due within
      the caps, and only refuses for a cap ([attestation_batch_within_caps]);
      the hand-out loop terminates with a tree of transfers that leaves
      exactly the orders' notes ([plan_hand_out_exact]); reconciliation,
      redemptions and the matching of withdrawals are exact
      ([reconcile_exact], [redemptions_exact], [match_withdrawals_exact]).
    - Swaps: verification accepts exactly two agreeing sides, in either order
      of arrival ([verify_swap_exact]); no interleaving announces a swap
      without two submitted sides whose locks are on chain
      ([announcements_sound]); an honest swap completes and both sides can
      rebuild the note they were promised ([swap_completes]); in sequence,
      a waiting submission always has its lock data ([sequential_coherent]).
    - Disbursements: a threshold of distinct owners is exactly what
      verification accepts ([threshold_exact]) and its wire format has one
      encoding ([threshold_wire_exact]); a card signs only for the header it
      was shown, never panics and never loses its key ([card_binds_voucher],
      [card_robust]); the companion asks it only for endorsed headers
      ([companion_safe]), and driving it through APDUs is calling it
      ([companion_direct]); a sealed voucher can be opened for two rotation
      intervals ([relay_key_grace]); a claim goes through from the funder's
      header to the relay's two witnesses, which satisfy both circuits, so
      that a prover that proves satisfied circuits proves them
      ([claim_goes_through]; [bb_complete] shows that the Barretenberg adapter
      is one when its tools are); the
      registry's cards keep their identity ([operator_cards_invariant]); the
      channel is a queue per relay ([channel_fifo]).
    - Divergences the model makes visible: padding positions repudiate any
      batch ([padding_repudiates_any_batch]), a path taken after journaling
      does not lead to the enrolled root ([journaled_path_mismatch]), the
      insertion circuit accepts a member again
      ([member_reinsertion_accepted]), the class binding may name an unused
      tuple ([binding_operand_may_be_unused]), a failed [sign] may have
      advanced the ratchet ([sign_outcomes]), two concurrent submissions can
      lose a swap ([interleaving_loses_swap]) and so does a repeated one
      ([repeated_submission_drops_swap]); a funder with duplicate signers or a
      threshold past one byte is constructed but never accepted
      ([funder_header_accepted]); cohort positions stop being leaf indices
      after a revocation ([cohort_leaf_index]); the predicate decoder accepts
      trailing bytes that the on-chain registry refuses
      ([decode_accepts_encodings]); the caterpillar keeps raw values of wiped
      slots ([ratchet_memory]); a batch addressed by the EIP-4844 versioned
      hash is refused ([relayer_batch_accepted]); a swap minimum of zero turns
      the timeout check off ([swap_completes]); a wallet with two notes of
      [2^63] units panics on a larger payment ([pay_exact]).

    ** Conventions, bounds and fuel

    [Ok], [Err] and [Panic] are the outcomes of a call; integer sums that
    panic in a checked build are written with [checked_add] and [expect].  A
    hash map is a [gmap], a vector a list, [u8] is [byte] and wider integers
    are [Z] with their width written where the code checks it.  The block
    clock is an argument of each registry method.  The lifecycle loop has fuel
    7, of which five rounds are enough ([lifecycle_loop_terminates]); the
    binary search has the length of the slice as fuel, which halving never
    exhausts ([outcome_is_tally]); the sponge squeezes four elements a round
    and has one more round of fuel than elements requested; a swap task run
    alone ends within five steps.  Clock readings and random draws of the swap
    are arguments; its chains may record more at any time and are taken to
    keep the locks they show (the Ethereum client looks 500 blocks back, so
    this holds for it within that window). The text of formatted error
    messages is reduced to its fixed part.  Of the fund, the decoded logs of
    each query, the random draws and the shuffle of a batch are arguments; a
    [BTreeMap] whose order is read is a list kept sorted; [u64] and [u128]
    sums panic past their width, [U256] sums and products wrap; the hand-out
    loop has the number of orders as fuel, which it never exhausts
    ([plan_hand_out_exact]).  A feed secret is a pair of 128-bit
    halves, as its type has it ([secret_typed]).  Fixed arrays of the rails are lists, with the
    widths the types enforce as the predicates [header_typed], [pubkey_typed]
    and the like.  A recovery byte cannot carry the bit of a reduced [x], so
    the theorems on signing exclude the signatures that have it ([unreduced]).

    ** Not modelled

    The process calls of the prover drivers, the EIP-4844 carrier and the chain client
    (processes, files and network), the block clock, KZG evaluation points
    (BLS12-381 arithmetic of arkworks), erasure on [Drop], the remaining Noir
    circuits and the Solidity contracts.  Of the swap: the server, its TLS
    attestation, the Ethereum client, the prover driver, the commitment tree
    (a third-party lean incremental Merkle tree) and the binaries.  Of the
    fund: the RPC queries and transactions of [chain.rs] and [client.rs], the
    prover driver, the circuits and the contracts but for the event a transfer
    emits.  Of the rails: the transaction transport, the recovery of the
    residual over RPC, the files and processes of the prover driver and the
    contracts.  The
    other proofs of concept of the repository are independent programs that
    share no code with these four. *)

From Stdlib Require Import ZArith Lia Bool.
From Stdlib Require Export Strings.Byte.
From stdpp Require Import base tactics list gmap strings pretty numbers.

Open Scope Z_scope.

(** ** Outcomes of a Rust call

    [Ok] and [Err] are the two constructors of [Result]; [Panic] is an
    unwinding panic (a failed [assert!], an index out of range, an
    [expect] on [None], a checked overflow). *)
Inductive outcome (E A : Type) : Type :=
| Ok (a : A)
| Err (e : E)
| Panic.
Arguments Ok {E A} a.
Arguments Err {E A} e.
Arguments Panic {E A}.

#[export] Instance outcome_ret {E} : MRet (outcome E) := λ A a, Ok a.
#[export] Instance outcome_bind {E} : MBind (outcome E) := λ A B f m,
  match m with Ok a => f a | Err e => Err e | Panic => Panic end.
#[export] Instance outcome_fmap {E} : FMap (outcome E) := λ A B f m,
  match m with Ok a => Ok (f a) | Err e => Err e | Panic => Panic end.

(** Early return of an error when a check fails. *)
Definition ensure {E} (b : bool) (e : E) : outcome E unit :=
  if b then Ok tt else Err e.

(** [assert!]. *)
Definition assert_ {E} (b : bool) : outcome E unit :=
  if b then Ok tt else Panic.

(** [Option::ok_or]. *)
Definition ok_or {E A} (o : option A) (e : E) : outcome E A :=
  match o with Some a => Ok a | None => Err e end.

(** [Option::expect] and checked indexing. *)
Definition expect {E A} (o : option A) : outcome E A :=
  match o with Some a => Ok a | None => Panic end.

(** [Result::map_err] and the [From] conversions of the [?] operator. *)
Definition map_err {E E' A} (f : E → E') (m : outcome E A) : outcome E' A :=
  match m with Ok a => Ok a | Err e => Err (f e) | Panic => Panic end.

(** A [for] loop over a slice whose body threads a state and may return
    early. *)
Fixpoint for_each {E A S} (f : S → A → outcome E S) (s : S) (l : list A)
  : outcome E S :=
  match l with
  | [] => Ok s
  | a :: l' => f s a ≫= λ s', for_each f s' l'
  end.

(** The same with the position of [.iter().enumerate()]. *)
Fixpoint for_eachi_from {E A St} (i : nat) (f : nat → St → A → outcome E St)
  (s : St) (l : list A) : outcome E St :=
  match l with
  | [] => Ok s
  | a :: l' => f i s a ≫= λ s', for_eachi_from (S i) f s' l'
  end.
Definition for_eachi {E A St} := @for_eachi_from E A St 0%nat.

Definition is_ok {E A} (m : outcome E A) : bool :=
  match m with Ok _ => true | _ => false end.
Definition no_panic {E A} (m : outcome E A) : Prop := m ≠ Panic.

(** ** State passing with failure

    A method taking [&mut self]: the mutations made before an early return
    stay, so the state is threaded through [Err] as well. *)
Definition M (S E A : Type) : Type := S → outcome E A * S.

#[export] Instance M_ret {S E} : MRet (M S E) := λ A a s, (Ok a, s).
#[export] Instance M_bind {S E} : MBind (M S E) := λ A B f m s,
  match m s with
  | (Ok a, s') => f a s'
  | (Err e, s') => (Err e, s')
  | (Panic, s') => (Panic, s')
  end.
Definition mget {S E} : M S E S := λ s, (Ok s, s).
Definition mput {S E} (s : S) : M S E unit := λ _, (Ok tt, s).
Definition mlift {S E A} (m : outcome E A) : M S E A := λ s, (m, s).

(** A [for] loop whose body mutates the state and may return early. *)
Fixpoint mfor_each {S E A T} (f : T → A → M S E T) (t : T) (l : list A) : M S E T :=
  match l with
  | [] => mret t
  | a :: l' => f t a ≫= λ t', mfor_each f t' l'
  end.

(** ** Inverting a chain of guarded binds *)
Lemma bind_Ok {E A B} (m : outcome E A) (f : A → outcome E B) b :
  m ≫= f = Ok b ↔ ∃ a, m = Ok a ∧ f a = Ok b.
Proof. destruct m; cbn; naive_solver. Qed.

Lemma bind_Err {E A B} (m : outcome E A) (f : A → outcome E B) e :
  m ≫= f = Err e ↔ m = Err e ∨ ∃ a, m = Ok a ∧ f a = Err e.
Proof. destruct m; cbn; naive_solver. Qed.

Lemma bind_Panic {E A B} (m : outcome E A) (f : A → outcome E B) :
  m ≫= f = Panic ↔ m = Panic ∨ ∃ a, m = Ok a ∧ f a = Panic.
Proof. destruct m; cbn; naive_solver. Qed.

#[export] Instance Ok_inj {E A} : Inj (=) (=) (@Ok E A).
Proof. by intros a b [= ->]. Qed.

Lemma ensure_Ok {E} b (e : E) u : ensure b e = Ok u ↔ b = true.
Proof. destruct b, u; cbn; naive_solver. Qed.

Lemma ensure_bind {E A} b (e : E) (k : unit → outcome E A) :
  b = true → ensure b e ≫= k = k tt.
Proof. by intros ->. Qed.

Lemma assert_bind {E A} b (k : unit → outcome E A) :
  b = true → assert_ b ≫= k = k tt.
Proof. by intros ->. Qed.

Lemma Ok_bind {E A B} (a : A) (k : A → outcome E B) : Ok a ≫= k = k a.
Proof. done. Qed.

Lemma ok_or_bind {E A B} (o : option A) (e : E) (a : A) (k : A → outcome E B) :
  o = Some a → ok_or o e ≫= k = k a.
Proof. by intros ->. Qed.

Lemma expect_bind {E A B} (o : option A) (a : A) (k : A → outcome E B) :
  o = Some a → expect o ≫= k = k a.
Proof. by intros ->. Qed.

Lemma index_bind {E A B} (l : list A) i (a : A) (k : A → outcome E B) :
  l !! i = Some a → expect (l !! i) ≫= k = k a.
Proof. by intros ->. Qed.

Lemma ensure_Err {E} b (e e' : E) : ensure b e = Err e' ↔ b = false ∧ e = e'.
Proof. destruct b; cbn; naive_solver. Qed.

Lemma ensure_no_panic {E} b (e : E) : ensure b e ≠ Panic.
Proof. by destruct b. Qed.

Lemma assert_Ok {E} b u : @assert_ E b = Ok u ↔ b = true.
Proof. destruct b, u; cbn; naive_solver. Qed.

Lemma ok_or_Ok {E A} (o : option A) (e : E) a : ok_or o e = Ok a ↔ o = Some a.
Proof. destruct o; cbn; naive_solver. Qed.

Lemma expect_Ok {E A} (o : option A) a : @expect E A o = Ok a ↔ o = Some a.
Proof. destruct o; cbn; naive_solver. Qed.

Lemma map_err_Ok {E E' A} (f : E → E') (m : outcome E A) a :
  map_err f m = Ok a ↔ m = Ok a.
Proof. destruct m; cbn; naive_solver. Qed.

Lemma map_err_Panic {E E' A} (f : E → E') (m : outcome E A) :
  map_err f m = Panic ↔ m = Panic.
Proof. destruct m; cbn; naive_solver. Qed.

(** Unfolding one statement of a method. *)
Lemma M_bind_get {S E A} (f : S → M S E A) s : (mget ≫= f) s = f s s.
Proof. reflexivity. Qed.
Lemma M_bind_put {S E A} s' (f : unit → M S E A) s : (mput s' ≫= f) s = f tt s'.
Proof. reflexivity. Qed.
Lemma M_bind_lift {S E A B} (m : outcome E A) (f : A → M S E B) s :
  (mlift m ≫= f) s
  = match m with Ok a => f a s | Err e => (Err e, s) | Panic => (Panic, s) end.
Proof. by destruct m. Qed.
Lemma M_ret_eq {S E A} (a : A) (s : S) : (mret a : M S E A) s = (Ok a, s).
Proof. reflexivity. Qed.

Create Rewrite HintDb outcome.
#[export] Hint Rewrite @bind_Ok @ensure_Ok @assert_Ok @ok_or_Ok @expect_Ok
  @map_err_Ok : outcome.

(** Turns a hypothesis [c = Ok r] on a chain of binds, guards and error
    conversions into the facts each step establishes. *)
Ltac inv_ok H :=
  lazymatch type of H with
  | _ ≫= _ = Ok _ =>
      let a := fresh "a" in let Ha := fresh "Ha" in
      apply bind_Ok in H as (a & Ha & H); inv_ok Ha; inv_ok H
  | ensure _ _ = Ok _ => apply ensure_Ok in H
  | assert_ _ = Ok _ => apply assert_Ok in H
  | ok_or _ _ = Ok _ => apply ok_or_Ok in H
  | expect _ = Ok _ => apply expect_Ok in H
  | map_err _ _ = Ok _ => apply map_err_Ok in H; inv_ok H
  | Ok _ = Ok _ => injection H as H; try subst
  | Err _ = Ok _ => discriminate H
  | Panic = Ok _ => discriminate H
  | _ => idtac
  end.

(** Passes a guard of the goal whose test is an arithmetic fact. *)
Ltac solve_test :=
  lazymatch goal with
  | |- _ && _ = true => apply andb_true_iff; split; solve_test
  | |- (_ <=? _)%nat = true => apply Nat.leb_le; lia
  | |- (_ <? _)%nat = true => apply Nat.ltb_lt; lia
  | |- (_ <=? _) = true => apply Z.leb_le; lia
  | |- (_ <? _) = true => apply Z.ltb_lt; lia
  | |- (_ =? _) = true => apply Z.eqb_eq; lia
  | |- bool_decide _ = true => apply bool_decide_eq_true; done
  | |- _ => assumption
  end.
Ltac pass_guard := rewrite ensure_bind by solve_test.

(** Reflects boolean tests of the code into propositions. *)
Ltac reflect_bools :=
  repeat match goal with
  | H : _ && _ = true |- _ => apply andb_true_iff in H as [? ?]
  | H : _ || _ = false |- _ => apply orb_false_iff in H as [? ?]
  | H : negb _ = true |- _ => apply negb_true_iff in H
  | H : negb _ = false |- _ => apply negb_false_iff in H
  | H : (_ <? _) = true |- _ => apply Z.ltb_lt in H
  | H : (_ <? _) = false |- _ => apply Z.ltb_ge in H
  | H : (_ <=? _) = true |- _ => apply Z.leb_le in H
  | H : (_ <=? _) = false |- _ => apply Z.leb_gt in H
  | H : (_ =? _) = true |- _ => apply Z.eqb_eq in H
  | H : (_ =? _) = false |- _ => apply Z.eqb_neq in H
  | H : (_ <? _)%nat = true |- _ => apply Nat.ltb_lt in H
  | H : (_ <? _)%nat = false |- _ => apply Nat.ltb_ge in H
  | H : (_ <=? _)%nat = true |- _ => apply Nat.leb_le in H
  | H : (_ <=? _)%nat = false |- _ => apply Nat.leb_gt in H
  | H : (_ =? _)%nat = true |- _ => apply Nat.eqb_eq in H
  | H : (_ =? _)%nat = false |- _ => apply Nat.eqb_neq in H
  | H : bool_decide _ = true |- _ => apply bool_decide_eq_true in H
  | H : bool_decide _ = false |- _ => apply bool_decide_eq_false in H
  end.

(** ** Loops *)
Section loops.
Context {E A S : Type}.
Implicit Types (f : S → A → outcome E S) (l : list A).

Lemma for_each_app f s l1 l2 :
  for_each f s (l1 ++ l2) = for_each f s l1 ≫= λ s', for_each f s' l2.
Proof.
  revert s; induction l1 as [|a l1 IH]; intros s; cbn; [done|].
  destruct (f s a); cbn; [apply IH|done..].
Qed.

(** An invariant indexed by the prefix already processed. *)
Lemma for_each_inv f (I : list A → S → Prop) s s' l :
  I [] s →
  (∀ pre a post s1 s2, l = pre ++ a :: post → I pre s1 →
     f s1 a = Ok s2 → I (pre ++ [a]) s2) →
  for_each f s l = Ok s' → I l s'.
Proof.
  intros H0 Hstep.
  enough (∀ post pre s, l = pre ++ post → I pre s →
            for_each f s post = Ok s' → I l s') as Hgen.
  { intros H. by apply (Hgen l [] s). }
  intros post; induction post as [|a post IH]; intros pre s0 Hl HI H; cbn in H.
  - inv_ok H. by rewrite app_nil_r.
  - inv_ok H. eapply (IH (pre ++ [a])); [|by eapply Hstep|done].
    by rewrite Hl, <-app_assoc.
Qed.

Lemma for_each_no_panic f s l :
  (∀ s a, a ∈ l → f s a ≠ Panic) → for_each f s l ≠ Panic.
Proof.
  revert s; induction l as [|a l IH]; intros s Hf; cbn; [done|].
  intros [H|(s' & H & H')]%bind_Panic.
  - eapply Hf; [|done]. by left.
  - eapply IH; [|done]. intros; apply Hf. by right.
Qed.

Lemma for_each_total f s l :
  (∀ s a, a ∈ l → ∃ s', f s a = Ok s') → ∃ s', for_each f s l = Ok s'.
Proof.
  revert s; induction l as [|a l IH]; intros s Hf; cbn; [eauto|].
  destruct (Hf s a) as (s1 & ->); [by left|]. cbn.
  apply IH. intros. apply Hf. by right.
Qed.
End loops.

Lemma for_eachi_from_no_panic {E A St} (f : nat → St → A → outcome E St) i s l :
  (∀ i s a, a ∈ l → f i s a ≠ Panic) → for_eachi_from i f s l ≠ Panic.
Proof.
  revert i s; induction l as [|a l IH]; intros i s Hf; cbn; [done|].
  intros [H|(s' & H & H')]%bind_Panic.
  - eapply Hf; [|done]. by left.
  - eapply IH; [|done]. intros; apply Hf. by right.
Qed.

(** ** Machine integers

    [u8], [u16], [u32], [u64], [u128] values are [Z] within the width; the
    checked operations of the source return [None] past it. *)
Definition fits (bits : Z) (z : Z) : bool := (0 <=? z) && (z <? 2 ^ bits).
Definition checked_add (bits a b : Z) : option Z :=
  if a + b <? 2 ^ bits then Some (a + b) else None.
Definition checked_mul (bits a b : Z) : option Z :=
  if a * b <? 2 ^ bits then Some (a * b) else None.
Definition checked_sub (a b : Z) : option Z :=
  if b <=? a then Some (a - b) else None.

Lemma checked_add_Some bits a b c :
  checked_add bits a b = Some c ↔ c = a + b ∧ a + b < 2 ^ bits.
Proof. unfold checked_add. case_match; reflect_bools; naive_solver lia. Qed.

Lemma checked_mul_Some bits a b c :
  checked_mul bits a b = Some c ↔ c = a * b ∧ a * b < 2 ^ bits.
Proof. unfold checked_mul. case_match; reflect_bools; naive_solver lia. Qed.

Lemma checked_sub_Some a b c :
  checked_sub a b = Some c ↔ c = a - b ∧ b ≤ a.
Proof. unfold checked_sub. case_match; reflect_bools; naive_solver lia. Qed.

(** ** Slices and fixed arrays *)

(** [&v[a..b]] with the bounds check of slice indexing. *)
Definition slice {E A} (l : list A) (a b : nat) : outcome E (list A) :=
  if ((a <=? b) && (b <=? length l))%nat then Ok (take (b - a) (drop a l))
  else Panic.

(** [v[i]]. *)
Definition index {E A} (l : list A) (i : nat) : outcome E A := expect (l !! i).

(** [dst[off .. off + src.len()].copy_from_slice(src)] for a destination
    long enough to hold the source. *)
Definition splice {A} (dst : list A) (off : nat) (src : list A) : list A :=
  take off dst ++ src ++ drop (off + length src) dst.

Lemma length_splice {A} (dst src : list A) off :
  (off + length src ≤ length dst)%nat →
  length (splice dst off src) = length dst.
Proof. intros. unfold splice. rewrite !length_app, length_take, length_drop. lia. Qed.

Lemma splice_app {A} (a b c src : list A) off :
  length a = off → length b = length src → splice (a ++ b ++ c) off src = a ++ src ++ c.
Proof.
  intros Ha Hb. unfold splice. rewrite take_app_length' by done.
  rewrite (app_assoc a b c), drop_app_length' by (rewrite length_app; lia). done.
Qed.

(** [slice::chunks(n)]. *)
Fixpoint chunks_fuel {A} (fuel n : nat) (l : list A) : list (list A) :=
  match fuel, l with
  | O, _ | _, [] => []
  | S fuel', _ => take n l :: chunks_fuel fuel' n (drop n l)
  end.
Definition chunks {A} (n : nat) (l : list A) : list (list A) :=
  chunks_fuel (length l) n l.

(** [xs.windows(2).all(|w| w[0] < w[1])]. *)
Fixpoint strictly_increasing (l : list Z) : bool :=
  match l with
  | a :: (b :: _) as l' => (a <? b) && strictly_increasing l'
  | _ => true
  end.

Definition memZ (x : Z) (l : list Z) : bool := bool_decide (x ∈ l).

Lemma memZ_true x l : memZ x l = true ↔ x ∈ l.
Proof. apply bool_decide_eq_true. Qed.

Lemma strictly_increasing_lookup l i j a b :
  strictly_increasing l = true → (i < j)%nat →
  l !! i = Some a → l !! j = Some b → a < b.
Proof.
  revert i j a b; induction l as [|x [|y l] IH]; intros i j a b Hs Hij Hi Hj; [done|..].
  { destruct i, j; cbn in *; try lia; discriminate. }
  cbn in Hs. apply andb_true_iff in Hs as [Hxy%Z.ltb_lt Hs].
  destruct i as [|i], j as [|j]; try lia; cbn in *.
  - injection Hi as <-. destruct j as [|j]; [naive_solver|].
    specialize (IH 0%nat (S j) y b Hs ltac:(lia) eq_refl Hj). lia.
  - eapply (IH i j); eauto; lia.
Qed.
