(* ===== verification/Field.v ===== *)
(** * Bytes, big-endian integers and the BN254 scalar field

    [u8] is [Byte.byte]; a Rust array or vector of bytes is a list of them.
    The field [Fr] of [ark_bn254] is the type of canonical representatives
    below the group order, the form in which arkworks compares, orders and
    serialises its elements.  [fr_from_be_bytes] and [fr_to_be_bytes] are
    the conversions of [poseidon.rs]. *)

From Stdlib Require Import ZArith Lia Bool Eqdep_dec.
From stdpp Require Import base tactics list gmap numbers.
From S2P Require Import Prelude.

(** ** Bytes *)
#[export] Instance byte_eq_dec : EqDecision byte := Byte.byte_eq_dec.
#[export] Program Instance byte_countable : Countable byte :=
  inj_countable Byte.to_N Byte.of_N _.
Next Obligation. intros b. apply Byte.of_to_N. Qed.

Definition byte_Z (b : byte) : Z := Z.of_N (Byte.to_N b).

(** Truncation of an integer to its low eight bits, [z as u8]. *)
Definition byte_of_Z (z : Z) : byte :=
  default Byte.x00 (Byte.of_N (Z.to_N (z mod 256))).

Lemma byte_Z_range b : 0 ≤ byte_Z b < 256.
Proof.
  unfold byte_Z. pose proof (Byte.to_N_bounded b) as Hb. lia.
Qed.

Lemma byte_Z_of_Z z : byte_Z (byte_of_Z z) = z mod 256.
Proof.
  unfold byte_Z, byte_of_Z.
  pose proof (Z.mod_pos_bound z 256 ltac:(lia)) as Hz.
  destruct (Byte.of_N (Z.to_N (z mod 256))) as [b|] eqn:Hb; cbn.
  - apply Byte.to_of_N in Hb. rewrite Hb. lia.
  - apply Byte.of_N_None_iff in Hb. lia.
Qed.

Lemma byte_Z_inj b1 b2 : byte_Z b1 = byte_Z b2 → b1 = b2.
Proof.
  unfold byte_Z. intros H%N2Z.inj.
  pose proof (Byte.of_to_N b1). pose proof (Byte.of_to_N b2). congruence.
Qed.

Lemma byte_of_Z_byte b : byte_of_Z (byte_Z b) = b.
Proof.
  apply byte_Z_inj. rewrite byte_Z_of_Z. apply Z.mod_small, byte_Z_range.
Qed.

Lemma byte_Z_zero b : byte_Z b = 0 ↔ b = Byte.x00.
Proof. split; [|by intros ->]. intros H. by apply byte_Z_inj. Qed.

(** ** Big-endian byte strings *)
Fixpoint be_fold (acc : Z) (l : list byte) : Z :=
  match l with
  | [] => acc
  | b :: l' => be_fold (acc * 256 + byte_Z b) l'
  end.

(** [uN::from_be_bytes]. *)
Definition be_to_Z (l : list byte) : Z := be_fold 0 l.
Arguments be_to_Z : simpl never.

(** [uN::to_be_bytes] for an [n]-byte integer. *)
Fixpoint be_of_Z (n : nat) (z : Z) : list byte :=
  match n with
  | O => []
  | S n' => be_of_Z n' (z / 256) ++ [byte_of_Z z]
  end.

Definition zeros (n : nat) : list byte := replicate n Byte.x00.

(** [bytes.iter().all(|&b| b == 0)]. *)
Definition all_zero (l : list byte) : bool :=
  forallb (λ b, byte_Z b =? 0) l.

Lemma be_fold_app acc l1 l2 : be_fold acc (l1 ++ l2) = be_fold (be_fold acc l1) l2.
Proof. revert acc; induction l1; intros acc; cbn; auto. Qed.

Lemma be_fold_shift acc l :
  be_fold acc l = acc * 256 ^ Z.of_nat (length l) + be_to_Z l.
Proof.
  unfold be_to_Z. revert acc; induction l as [|b l IH]; intros acc; cbn [be_fold length].
  { change (256 ^ Z.of_nat 0) with 1. lia. }
  rewrite IH, (IH (0 * 256 + byte_Z b)), Nat2Z.inj_succ, Z.pow_succ_r by lia. ring.
Qed.

Lemma be_to_Z_app l1 l2 :
  be_to_Z (l1 ++ l2) = be_to_Z l1 * 256 ^ Z.of_nat (length l2) + be_to_Z l2.
Proof. unfold be_to_Z at 1. rewrite be_fold_app. apply be_fold_shift. Qed.

Lemma be_to_Z_cons b l :
  be_to_Z (b :: l) = byte_Z b * 256 ^ Z.of_nat (length l) + be_to_Z l.
Proof. unfold be_to_Z at 1. cbn. rewrite be_fold_shift. lia. Qed.

Lemma be_to_Z_range l : 0 ≤ be_to_Z l < 256 ^ Z.of_nat (length l).
Proof.
  induction l as [|b l IH]; [done|].
  rewrite be_to_Z_cons. cbn [length]. rewrite Nat2Z.inj_succ, Z.pow_succ_r by lia.
  pose proof (byte_Z_range b). nia.
Qed.

Lemma length_be_of_Z n z : length (be_of_Z n z) = n.
Proof. revert z; induction n; intros z; cbn; [done|]. rewrite length_app, IHn. cbn. lia. Qed.

Lemma be_to_of_Z n z : be_to_Z (be_of_Z n z) = z mod 256 ^ Z.of_nat n.
Proof.
  revert z; induction n as [|n IH]; intros z; cbn [be_of_Z].
  { by rewrite Z.mod_1_r. }
  rewrite be_to_Z_app, IH, be_to_Z_cons, byte_Z_of_Z. cbn [length].
  change (be_to_Z []) with 0. change (256 ^ Z.of_nat 1) with 256.
  change (256 ^ Z.of_nat 0) with 1.
  rewrite Nat2Z.inj_succ, Z.pow_succ_r, Z.rem_mul_r by lia. lia.
Qed.

Lemma be_to_of_Z_small n z :
  0 ≤ z < 256 ^ Z.of_nat n → be_to_Z (be_of_Z n z) = z.
Proof. intros. rewrite be_to_of_Z. by apply Z.mod_small. Qed.

Lemma be_to_Z_inj l1 l2 :
  length l1 = length l2 → be_to_Z l1 = be_to_Z l2 → l1 = l2.
Proof.
  revert l2; induction l1 as [|a l1 IH]; intros [|b l2]; cbn; try done.
  intros [= Hl]. rewrite !be_to_Z_cons, <-Hl. intros H.
  pose proof (be_to_Z_range l1) as R1. pose proof (be_to_Z_range l2) as R2.
  rewrite <-Hl in R2.
  assert (byte_Z a = byte_Z b) as Hab by nia.
  rewrite Hab in H. f_equal; [by apply byte_Z_inj|]. apply IH; [done|]. lia.
Qed.

Lemma be_of_to_Z l n : length l = n → be_of_Z n (be_to_Z l) = l.
Proof.
  intros <-. apply be_to_Z_inj; [apply length_be_of_Z|].
  rewrite be_to_of_Z. apply Z.mod_small, be_to_Z_range.
Qed.

Lemma be_to_Z_zeros n : be_to_Z (zeros n) = 0.
Proof.
  induction n as [|n IH]; [done|]. unfold zeros in *. cbn [replicate].
  by rewrite be_to_Z_cons, IH.
Qed.

Lemma length_zeros n : length (zeros n) = n.
Proof. apply length_replicate. Qed.

Lemma all_zero_true l : all_zero l = true ↔ l = zeros (length l).
Proof.
  unfold all_zero, zeros. induction l as [|b l IH]; cbn; [done|].
  rewrite andb_true_iff, IH, Z.eqb_eq, byte_Z_zero.
  split; [by intros [-> ->]; rewrite length_replicate|by intros [= -> ?]].
Qed.

Lemma all_zero_zeros n : all_zero (zeros n) = true.
Proof. apply all_zero_true. by rewrite length_zeros. Qed.

(** ** Array order

    [Ord] on [[u8; N]]: lexicographic, first difference from the left. *)
Fixpoint bytes_ltb (l1 l2 : list byte) : bool :=
  match l1, l2 with
  | [], [] => false
  | [], _ :: _ => true
  | _ :: _, [] => false
  | a :: l1', b :: l2' =>
      (byte_Z a <? byte_Z b) || ((byte_Z a =? byte_Z b) && bytes_ltb l1' l2')
  end.

Lemma bytes_ltb_be l1 l2 :
  length l1 = length l2 → bytes_ltb l1 l2 = (be_to_Z l1 <? be_to_Z l2).
Proof.
  revert l2; induction l1 as [|a l1 IH]; intros [|b l2]; cbn [bytes_ltb length]; try done.
  intros [= Hl]. rewrite IH, !be_to_Z_cons, <-Hl by done.
  pose proof (be_to_Z_range l1) as R1. pose proof (be_to_Z_range l2) as R2.
  rewrite <-Hl in R2.
  destruct (Z.ltb_spec (byte_Z a) (byte_Z b)); cbn [orb].
  { symmetry. apply Z.ltb_lt. nia. }
  destruct (Z.eqb_spec (byte_Z a) (byte_Z b)) as [->|]; cbn [andb].
  { apply eq_true_iff_eq. rewrite !Z.ltb_lt. lia. }
  symmetry. apply Z.ltb_ge. nia.
Qed.

(** ** The BN254 scalar field *)
Definition fr_modulus : Z :=
  21888242871839275222246405745257275088548364400416034343698204186575808495617.

Record Fr : Type := mk_fr {
  fr_val : Z;
  fr_canonical : (0 <=? fr_val) && (fr_val <? fr_modulus) = true;
}.

Lemma fr_eq (a b : Fr) : fr_val a = fr_val b → a = b.
Proof.
  destruct a as [a Ha], b as [b Hb]; cbn. intros <-. f_equal.
  apply UIP_dec, bool_dec.
Qed.

#[export] Instance fr_eq_dec : EqDecision Fr.
Proof.
  intros a b. destruct (decide (fr_val a = fr_val b)) as [H|H].
  - left. by apply fr_eq.
  - right. by intros ->.
Defined.

Lemma fr_range (a : Fr) : 0 ≤ fr_val a < fr_modulus.
Proof. destruct a as [a Ha]; cbn. reflect_bools. lia. Qed.

Lemma fr_mod_canonical z :
  (0 <=? z mod fr_modulus) && (z mod fr_modulus <? fr_modulus) = true.
Proof.
  pose proof (Z.mod_pos_bound z fr_modulus ltac:(done)).
  apply andb_true_iff. rewrite Z.leb_le, Z.ltb_lt. lia.
Qed.

(** [Fr::from(x)] and reduction of an arbitrary integer. *)
Definition fr_of_Z (z : Z) : Fr := mk_fr (z mod fr_modulus) (fr_mod_canonical z).

Definition fr_zero : Fr := fr_of_Z 0.
Definition fr_add (a b : Fr) : Fr := fr_of_Z (fr_val a + fr_val b).
Definition fr_mul (a b : Fr) : Fr := fr_of_Z (fr_val a * fr_val b).
(** [Field::pow] by square and multiply is exponentiation in the field. *)
Fixpoint fr_pow (a : Fr) (n : nat) : Fr :=
  match n with O => fr_of_Z 1 | S n' => fr_mul a (fr_pow a n') end.

(** [Ord] on [Fr] compares canonical representatives. *)
Definition fr_ltb (a b : Fr) : bool := fr_val a <? fr_val b.
Definition fr_eqb (a b : Fr) : bool := fr_val a =? fr_val b.

Lemma fr_eqb_eq a b : fr_eqb a b = true ↔ a = b.
Proof. unfold fr_eqb. rewrite Z.eqb_eq. split; [apply fr_eq|by intros ->]. Qed.

Lemma fr_eqb_neq a b : fr_eqb a b = false ↔ a ≠ b.
Proof. rewrite <-not_true_iff_false, fr_eqb_eq. done. Qed.

Lemma fr_val_of_Z z : 0 ≤ z < fr_modulus → fr_val (fr_of_Z z) = z.
Proof. apply Z.mod_small. Qed.

Lemma fr_of_val a : fr_of_Z (fr_val a) = a.
Proof. apply fr_eq, fr_val_of_Z, fr_range. Qed.

Lemma fr_of_Z_inj a b :
  0 ≤ a < fr_modulus → 0 ≤ b < fr_modulus → fr_of_Z a = fr_of_Z b → a = b.
Proof. intros Ha Hb H. rewrite <-(fr_val_of_Z a), <-(fr_val_of_Z b); congruence. Qed.

(** ** Conversions of poseidon.rs *)

(** [Fr::from_be_bytes_mod_order]. *)
Definition fr_from_be_bytes (bytes : list byte) : Fr := fr_of_Z (be_to_Z bytes).

(** [into_bigint().to_bytes_be()]: the 256-bit representative, left padded. *)
Definition fr_to_be_bytes (fr : Fr) : list byte :=
  let be := be_of_Z 32 (fr_val fr) in
  splice (zeros 32) (32 - length be) be.

Lemma fr_to_be_bytes_eq fr : fr_to_be_bytes fr = be_of_Z 32 (fr_val fr).
Proof.
  unfold fr_to_be_bytes, splice. rewrite length_be_of_Z. cbn [Nat.sub take app].
  rewrite drop_ge by (rewrite length_zeros; lia). apply app_nil_r.
Qed.

Lemma length_fr_to_be_bytes fr : length (fr_to_be_bytes fr) = 32%nat.
Proof. by rewrite fr_to_be_bytes_eq, length_be_of_Z. Qed.

Lemma fr_modulus_256 : fr_modulus < 256 ^ Z.of_nat 32.
Proof. done. Qed.

Lemma be_to_Z_fr_to_be_bytes fr : be_to_Z (fr_to_be_bytes fr) = fr_val fr.
Proof.
  rewrite fr_to_be_bytes_eq. apply be_to_of_Z_small.
  pose proof (fr_range fr). pose proof fr_modulus_256. lia.
Qed.

Lemma fr_from_to_be_bytes fr : fr_from_be_bytes (fr_to_be_bytes fr) = fr.
Proof. unfold fr_from_be_bytes. by rewrite be_to_Z_fr_to_be_bytes, fr_of_val. Qed.

#[export] Instance fr_to_be_bytes_inj : Inj (=) (=) fr_to_be_bytes.
Proof.
  intros a b H. rewrite <-(fr_from_to_be_bytes a), <-(fr_from_to_be_bytes b).
  by rewrite H.
Qed.

(** A 32-byte string below the modulus survives the trip through [Fr]. *)
Lemma fr_to_from_be_bytes bytes :
  length bytes = 32%nat → be_to_Z bytes < fr_modulus →
  fr_to_be_bytes (fr_from_be_bytes bytes) = bytes.
Proof.
  intros Hl Hb. rewrite fr_to_be_bytes_eq. unfold fr_from_be_bytes.
  rewrite fr_val_of_Z by (pose proof (be_to_Z_range bytes); lia).
  by apply be_of_to_Z.
Qed.

(** The byte order used for canonical leaf ordering is the field order. *)
Lemma fr_to_be_bytes_ltb a b :
  bytes_ltb (fr_to_be_bytes a) (fr_to_be_bytes b) = fr_ltb a b.
Proof.
  rewrite bytes_ltb_be by by rewrite !length_fr_to_be_bytes.
  by rewrite !be_to_Z_fr_to_be_bytes.
Qed.

Lemma fr_from_zeros n : fr_from_be_bytes (zeros n) = fr_zero.
Proof. unfold fr_from_be_bytes. by rewrite be_to_Z_zeros. Qed.

(** Strings of at most 31 significant bytes embed without reduction. *)
Lemma fr_from_be_bytes_inj31 l1 l2 :
  length l1 = 31%nat → length l2 = 31%nat →
  fr_from_be_bytes l1 = fr_from_be_bytes l2 → l1 = l2.
Proof.
  intros H1 H2 H. apply be_to_Z_inj; [congruence|].
  assert (256 ^ Z.of_nat 31 < fr_modulus) by done.
  pose proof (be_to_Z_range l1) as R1. pose proof (be_to_Z_range l2) as R2.
  rewrite H1 in R1. rewrite H2 in R2. eapply fr_of_Z_inj; [lia..|done].
Qed.
