(* ===== verification/Types.v ===== *)
(** * Shared domain types

    The constants of [lib.rs], the error enums of [error.rs] and the types of
    [types.rs].  Every record field carries the Rust field name behind a
    short prefix of the record's own, since Rocq projections share one name
    space.  [u8] fields are [byte]; wider unsigned integers are [Z]. *)

From Stdlib Require Import ZArith Lia Bool.
From stdpp Require Import base tactics list strings numbers.
From S2P Require Import Prelude Field.

(** ** Constants of lib.rs *)
Definition FSRT_DEPTH : nat := 24.
Definition FSRT_SLOT_COUNT : Z := Z.shiftl 1 (Z.of_nat FSRT_DEPTH).
Definition BATCH_SIZE_MAX : nat := 6.
Definition RECORDS_PER_BLOB : nat := 1000.
Definition ATTR_COUNT : nat := 4.
Definition PREDICATE_OP_MAX : nat := 20.
Definition PREDICATE_TUPLE_MAX : nat := 20.
Definition PREDICATE_BYTES_MAX : nat := 1024.
Definition RECORD_LEN : nat := 96.
Definition BLOCKS_PER_DAY : Z := 24 * 60 * 60 / 12.
Definition MAX_SIGNING_WINDOW_BLOCKS : Z := 11 * BLOCKS_PER_DAY + BLOCKS_PER_DAY / 2.
Definition COOLDOWN_BLOCKS : Z := 2 * 60 * 60 / 12.
Definition RESOLUTION_DEADLINE_BLOCKS : Z := 14 * BLOCKS_PER_DAY.
Definition MARK_UNRESOLVED_GRACE_BLOCKS : Z := 300.
Definition MIN_R_AGE_BLOCKS : Z := 30 * BLOCKS_PER_DAY.
Definition IMT_DEPTH : nat := 24.
Definition RESOLUTION_CLASS_MAX : nat := 16.
Definition MAX_CLASS_SET_LEN : nat := 16.

(** ** Errors of error.rs *)
Inductive ProofError : Type :=
| ProofGeneration (s : string)
| WitnessSerialization (s : string)
| ProofVerification (s : string).

Inductive MerkleError : Type :=
| OutOfRange (i n : nat)
| EmptyTree
| ProofFailure (s : string).

Inductive ImtError : Type :=
| DuplicateInsertion
| CapacityExhausted (d : nat)
| LowLeafInvariant (s : string)
| ImtMerkle (e : MerkleError).

Inductive BlobError : Type :=
| Capacity (n cap : nat)
| BlobMalformed (s : string)
| InvalidOpening (s : string)
| NotFound.

Inductive PredicateError : Type :=
| TooLarge
| TupleCountOutOfRange (n : nat)
| OpCountOutOfRange (n : nat)
| BadTypeTag (b : byte)
| BadComparator (b : byte)
| BadOpcode (b : byte)
| OperandOutOfRange (operand : byte) (tuple_count : Z)
| Malformed (s : string)
| StackUnderflow (i : nat)
| NonSingletonResult (n : nat)
| MissingClassBinding
| Int64OperandOutOfRange
| TypeMismatch (s : string).

(** ** Byte aliases *)
Abbreviation Address := (list byte) (only parsing).
Abbreviation Bytes32 := (list byte) (only parsing).
Abbreviation PetitionId := (list byte) (only parsing).
Abbreviation ClassTag := Z (only parsing).

Definition is_bytes32 (b : Bytes32) : bool := (length b =? 32)%nat.
Definition bytes_eqb (a b : list byte) : bool := bool_decide (a = b).

Lemma bytes_eqb_eq a b : bytes_eqb a b = true ↔ a = b.
Proof. apply bool_decide_eq_true. Qed.

(** ** U256Be *)
Module U256Be.
(** The 32 big-endian bytes of the wrapper. *)
Definition t := list byte.

Definition zero : t := zeros 32.
Definition from_u128 (v : Z) : t := splice (zeros 32) 16 (be_of_Z 16 v).
Definition from_u64 (v : Z) : t := splice (zeros 32) 24 (be_of_Z 8 v).
Definition is_zero (a : t) : bool := bytes_eqb a (zeros 32).

(** The ripple-carry loop of [checked_add], from the last byte up. *)
Fixpoint add_loop (l : list (byte * byte)) : list byte * Z :=
  match l with
  | [] => ([], 0)
  | (a, b) :: l' =>
      let '(out, carry) := add_loop l' in
      let s := byte_Z a + byte_Z b + carry in
      (byte_of_Z (Z.land s 0xff) :: out, Z.shiftr s 8)
  end.

Definition checked_add (a b : t) : option t :=
  let '(out, carry) := add_loop (zip a b) in
  if carry =? 0 then Some out else None.

Lemma add_loop_spec (a b : t) :
  length a = length b →
  let '(out, carry) := add_loop (zip a b) in
  length out = length a ∧ 0 ≤ carry ∧
  be_to_Z out + carry * 256 ^ Z.of_nat (length a) = be_to_Z a + be_to_Z b.
Proof.
  revert b; induction a as [|x a IH]; intros [|y b]; cbn [add_loop zip zip_with length];
    try done.
  intros [= Hl]. specialize (IH b Hl).
  destruct (add_loop (zip a b)) as [out carry]. destruct IH as (Hlen & Hc & Heq).
  cbn [length]. rewrite !be_to_Z_cons, byte_Z_of_Z, Hlen, <-Hl.
  change 0xff with (Z.ones 8). rewrite Z.land_ones, Z.shiftr_div_pow2 by lia.
  change (2 ^ 8) with 256. rewrite Z.mod_mod by lia.
  rewrite Nat2Z.inj_succ, Z.pow_succ_r by lia.
  set (s := byte_Z x + byte_Z y + carry) in *.
  pose proof (Z.div_mod s 256 ltac:(lia)). pose proof (byte_Z_range x).
  pose proof (byte_Z_range y). pose proof (Z.div_pos s 256).
  split; [lia|]. split; [lia|]. nia.
Qed.

(** [checked_add] is addition of the encoded integers, [None] exactly on
    overflow of 256 bits. *)
Lemma u256_checked_add_Some (a b c : t) :
  length a = 32%nat → length b = 32%nat →
  checked_add a b = Some c →
  length c = 32%nat ∧ be_to_Z c = be_to_Z a + be_to_Z b.
Proof.
  intros Ha Hb. unfold checked_add. pose proof (add_loop_spec a b) as H.
  destruct (add_loop (zip a b)) as [out carry].
  destruct H as (Hl & _ & Heq); [congruence|].
  case_match; [|done]. reflect_bools. intros [= <-]. split; [congruence|]. lia.
Qed.

Lemma u256_checked_add_None (a b : t) :
  length a = 32%nat → length b = 32%nat →
  checked_add a b = None ↔ 2 ^ 256 ≤ be_to_Z a + be_to_Z b.
Proof.
  intros Ha Hb. unfold checked_add. pose proof (add_loop_spec a b) as H.
  destruct (add_loop (zip a b)) as [out carry].
  destruct H as (Hl & Hc & Heq); [congruence|].
  pose proof (be_to_Z_range out) as R. rewrite Hl in R.
  rewrite Ha in R, Heq. change (256 ^ Z.of_nat 32) with (2 ^ 256) in *.
  case_match; reflect_bools; split; try done; intros; nia.
Qed.
End U256Be.

(** ** Enums *)
Inductive PetitionState : Type :=
| Registered
| SigningOpen
| SigningClosed
| Cooldown
| DisputeWindow
| Resolved
| Unresolved.
#[export] Instance PetitionState_eq_dec : EqDecision PetitionState.
Proof. solve_decision. Defined.

Inductive BatchState : Type := Active | Repudiated.
#[export] Instance BatchState_eq_dec : EqDecision BatchState.
Proof. solve_decision. Defined.

Inductive TypeTag : Type := Int64 | Hash | Bool.
#[export] Instance TypeTag_eq_dec : EqDecision TypeTag.
Proof. solve_decision. Defined.
Definition TypeTag_u8 (t : TypeTag) : byte :=
  match t with Int64 => x01 | Hash => x02 | Bool => x03 end.
Definition TypeTag_try_from (b : byte) : outcome byte TypeTag :=
  match b with
  | x01 => Ok Int64
  | x02 => Ok Hash
  | x03 => Ok Bool
  | other => Err other
  end.

Inductive Comparator : Type := Eq_ | Le_ | Ge_.
#[export] Instance Comparator_eq_dec : EqDecision Comparator.
Proof. solve_decision. Defined.
Definition Comparator_u8 (c : Comparator) : byte :=
  match c with Eq_ => x10 | Le_ => x11 | Ge_ => x12 end.
Definition Comparator_try_from (b : byte) : outcome byte Comparator :=
  match b with
  | x10 => Ok Eq_
  | x11 => Ok Le_
  | x12 => Ok Ge_
  | other => Err other
  end.

Inductive OpCode : Type := PushTuple | And | Or | Not | Nop.
#[export] Instance OpCode_eq_dec : EqDecision OpCode.
Proof. solve_decision. Defined.
Definition OpCode_u8 (o : OpCode) : byte :=
  match o with
  | PushTuple => x20 | And => x21 | Or => x22 | Not => x23 | Nop => xff
  end.
Definition OpCode_try_from (b : byte) : outcome byte OpCode :=
  match b with
  | x20 => Ok PushTuple
  | x21 => Ok And
  | x22 => Ok Or
  | x23 => Ok Not
  | xff => Ok Nop
  | other => Err other
  end.

Inductive ViolationType : Type :=
| ClassTagOutOfSet
| IntraBatchDuplicateIdentityTag
| LeafOrderingViolation.
#[export] Instance ViolationType_eq_dec : EqDecision ViolationType.
Proof. solve_decision. Defined.
Definition ViolationType_u8 (v : ViolationType) : byte :=
  match v with
  | ClassTagOutOfSet => x01
  | IntraBatchDuplicateIdentityTag => x02
  | LeafOrderingViolation => x03
  end.
Definition ViolationType_try_from (b : byte) : outcome byte ViolationType :=
  match b with
  | x01 => Ok ClassTagOutOfSet
  | x02 => Ok IntraBatchDuplicateIdentityTag
  | x03 => Ok LeafOrderingViolation
  | other => Err other
  end.

(** The wire bytes of every enum decode to themselves and nothing else. *)
Lemma TypeTag_try_from_Ok b t : TypeTag_try_from b = Ok t ↔ b = TypeTag_u8 t.
Proof. split; [destruct b; cbn; intros [= <-]; done|intros ->; by destruct t]. Qed.
Lemma Comparator_try_from_Ok b c : Comparator_try_from b = Ok c ↔ b = Comparator_u8 c.
Proof. split; [destruct b; cbn; intros [= <-]; done|intros ->; by destruct c]. Qed.
Lemma OpCode_try_from_Ok b o : OpCode_try_from b = Ok o ↔ b = OpCode_u8 o.
Proof. split; [destruct b; cbn; intros [= <-]; done|intros ->; by destruct o]. Qed.
Lemma TypeTag_try_from_no_panic b : TypeTag_try_from b ≠ Panic.
Proof. by destruct b. Qed.
Lemma Comparator_try_from_no_panic b : Comparator_try_from b ≠ Panic.
Proof. by destruct b. Qed.
Lemma OpCode_try_from_no_panic b : OpCode_try_from b ≠ Panic.
Proof. by destruct b. Qed.
