(* ===== verification/Predicate.v ===== *)
(** * Predicate grammar, wire encoding, evaluator and class binding

    Model of [predicate.rs].  A predicate is a table of comparison tuples and
    a postfix program over them.  [encode]/[decode] are the wire format,
    [evaluate] the postfix evaluator, and [evaluate_class_binding_taint] the
    three-valued analysis by which the registry insists that a predicate pins
    the class attribute. *)

From Stdlib Require Import ZArith Lia Bool.
From stdpp Require Import base tactics list sets strings pretty numbers.
From S2P Require Import Prelude Field Types.

(** ** Data *)
Record Tuple : Type := mk_tuple {
  claim_index : byte;
  operand : Bytes32;
  type_tag : TypeTag;
  comparator : Comparator;
}.

Record Op : Type := mk_op {
  code : OpCode;
  op_operand : byte;
}.

Record PredicateDef : Type := mk_def {
  tuples : list Tuple;
  ops : list Op;
}.

#[export] Instance Tuple_eq_dec : EqDecision Tuple.
Proof. solve_decision. Defined.
#[export] Instance Op_eq_dec : EqDecision Op.
Proof. solve_decision. Defined.
#[export] Instance PredicateDef_eq_dec : EqDecision PredicateDef.
Proof. solve_decision. Defined.

Definition byte_nat (b : byte) : nat := Z.to_nat (byte_Z b).

Definition op_count (d : PredicateDef) : nat := length (ops d).
Definition tuple_count (d : PredicateDef) : nat := length (tuples d).

(** ** Structural validation *)
Definition is_int64_in_range (bytes : Bytes32) : bool := all_zero (take 24 bytes).

Definition is_bool_operand (bytes : Bytes32) : bool :=
  all_zero (take 31 bytes) &&
  match bytes !! 31%nat with Some b => byte_Z b <=? 1 | None => false end.

Definition OpCode_debug (c : OpCode) : string :=
  match c with
  | PushTuple => "PushTuple" | And => "And" | Or => "Or" | Not => "Not"
  | Nop => "Nop"
  end.

Definition validate_op (tuple_len : nat) (op : Op) : outcome PredicateError unit :=
  if bool_decide (code op = PushTuple) then
    ensure (byte_nat (op_operand op) <? tuple_len)%nat
      (OperandOutOfRange (op_operand op) (Z.of_nat tuple_len mod 256))
  else
    ensure (byte_Z (op_operand op) =? 0)
      (Malformed ("non-PUSH op " +:+ OpCode_debug (code op) +:+
                  " has nonzero operand " +:+ pretty (byte_Z (op_operand op)))).

Definition validate_tuple (i : nat) (t : Tuple) : outcome PredicateError unit :=
  match type_tag t, comparator t with
  | Int64, _ => ensure (is_int64_in_range (operand t)) Int64OperandOutOfRange
  | Hash, Eq_ => Ok tt
  | Hash, _ => Err (TypeMismatch ("tuple " +:+ pretty i +:+ ": HASH supports `==` only"))
  | Bool, Eq_ =>
      ensure (is_bool_operand (operand t))
        (TypeMismatch ("tuple " +:+ pretty i +:+ ": BOOL operand must be 0 or 1"))
  | Bool, _ => Err (TypeMismatch ("tuple " +:+ pretty i +:+ ": BOOL supports `==` only"))
  end.

Definition validate (d : PredicateDef) : outcome PredicateError unit :=
  ensure ((1 <=? length (tuples d)) && (length (tuples d) <=? PREDICATE_TUPLE_MAX))%nat
    (TupleCountOutOfRange (length (tuples d)));;
  ensure ((1 <=? length (ops d)) && (length (ops d) <=? PREDICATE_OP_MAX))%nat
    (OpCountOutOfRange (length (ops d)));;
  for_each (λ _ op, validate_op (length (tuples d)) op) tt (ops d);;
  for_eachi (λ i _ t, validate_tuple i t) tt (tuples d).

(** ** Wire encoding *)
Definition serialized_len (d : PredicateDef) : nat :=
  1 + length (tuples d) * 35 + 1 + length (ops d) * 2.

Definition encode_tuple (t : Tuple) : list byte :=
  [claim_index t] ++ operand t ++ [TypeTag_u8 (type_tag t)]
    ++ [Comparator_u8 (comparator t)].

Definition encode_op (o : Op) : list byte := [OpCode_u8 (code o); op_operand o].

Definition encode_bytes (d : PredicateDef) : list byte :=
  [byte_of_Z (Z.of_nat (length (tuples d)))] ++ concat (map encode_tuple (tuples d))
    ++ [byte_of_Z (Z.of_nat (length (ops d)))] ++ concat (map encode_op (ops d)).

Definition encode (d : PredicateDef) : outcome PredicateError (list byte) :=
  validate d;;
  ensure (serialized_len d <=? PREDICATE_BYTES_MAX)%nat TooLarge;;
  Ok (encode_bytes d).

(** The two decoding loops thread the cursor [idx]; every read is the bounds
    checked indexing of the source. *)
Fixpoint decode_tuples (bytes : list byte) (n idx : nat) (acc : list Tuple)
  : outcome PredicateError (nat * list Tuple) :=
  match n with
  | O => Ok (idx, acc)
  | S n' =>
      ci ← index bytes idx;
      let idx := (idx + 1)%nat in
      opd ← slice bytes idx (idx + 32);
      let idx := (idx + 32)%nat in
      tb ← index bytes idx;
      tt_ ← map_err BadTypeTag (TypeTag_try_from tb);
      let idx := (idx + 1)%nat in
      cb ← index bytes idx;
      cmp ← map_err BadComparator (Comparator_try_from cb);
      let idx := (idx + 1)%nat in
      decode_tuples bytes n' idx (acc ++ [mk_tuple ci opd tt_ cmp])
  end.

Fixpoint decode_ops (bytes : list byte) (n idx : nat) (acc : list Op)
  : outcome PredicateError (nat * list Op) :=
  match n with
  | O => Ok (idx, acc)
  | S n' =>
      cb ← index bytes idx;
      c ← map_err BadOpcode (OpCode_try_from cb);
      let idx := (idx + 1)%nat in
      o ← index bytes idx;
      let idx := (idx + 1)%nat in
      decode_ops bytes n' idx (acc ++ [mk_op c o])
  end.

Definition decode (bytes : list byte) : outcome PredicateError PredicateDef :=
  ensure (length bytes <=? PREDICATE_BYTES_MAX)%nat TooLarge;;
  ensure (2 <=? length bytes)%nat (Malformed "buffer too short");;
  b0 ← index bytes 0;
  let tuple_count := byte_nat b0 in
  ensure (tuple_count <=? PREDICATE_TUPLE_MAX)%nat (TupleCountOutOfRange tuple_count);;
  let expected_tuple_bytes := (tuple_count * 35)%nat in
  ensure (1 + expected_tuple_bytes + 1 <=? length bytes)%nat
    (Malformed "truncated tuples");;
  '(idx, ts) ← decode_tuples bytes tuple_count 1 [];
  bn ← index bytes idx;
  let op_count := byte_nat bn in
  let idx := (idx + 1)%nat in
  let expected_op_bytes := (op_count * 2)%nat in
  ensure (idx + expected_op_bytes <=? length bytes)%nat (Malformed "truncated ops");;
  '(idx, os) ← decode_ops bytes op_count idx [];
  let def := mk_def ts os in
  validate def;;
  Ok def.

(** ** Evaluation *)
Definition fr_to_u64_low (fr : Fr) : Z := be_to_Z (drop 24 (fr_to_be_bytes fr)).

Definition TypeTag_debug (t : TypeTag) : string :=
  match t with Int64 => "Int64" | Hash => "Hash" | Bool => "Bool" end.
Definition Comparator_debug (c : Comparator) : string :=
  match c with Eq_ => "Eq" | Le_ => "Le" | Ge_ => "Ge" end.

Definition eval_tuple (t : Tuple) (attr_vector : list Fr) : outcome PredicateError bool :=
  match attr_vector !! byte_nat (claim_index t) with
  | None =>
      Err (Malformed ("claim_index " +:+ pretty (byte_Z (claim_index t)) +:+
             " out of range (attr_count " +:+ pretty (length attr_vector) +:+ ")"))
  | Some attr_fr =>
      let operand_fr := fr_from_be_bytes (operand t) in
      match type_tag t, comparator t with
      | Bool, Eq_ | Hash, Eq_ => Ok (fr_eqb attr_fr operand_fr)
      | Int64, Eq_ => Ok (fr_eqb attr_fr operand_fr)
      | Int64, Le_ =>
          Ok (fr_to_u64_low attr_fr <=? be_to_Z (drop 24 (operand t)))
      | Int64, Ge_ =>
          Ok (be_to_Z (drop 24 (operand t)) <=? fr_to_u64_low attr_fr)
      | _, _ =>
          Err (TypeMismatch ("tuple type " +:+ TypeTag_debug (type_tag t) +:+
                 " comparator " +:+ Comparator_debug (comparator t) +:+ " not allowed"))
      end
  end.

(** [Vec::pop] on a stack whose top is the head of the list. *)
Definition pop {A} (i : nat) (stack : list A) : outcome PredicateError (A * list A) :=
  match stack with
  | [] => Err (StackUnderflow i)
  | x :: stack' => Ok (x, stack')
  end.

Definition eval_step (ts : list Tuple) (attrs : list Fr) (i : nat)
  (stack : list bool) (op : Op) : outcome PredicateError (list bool) :=
  match code op with
  | PushTuple =>
      t ← index ts (byte_nat (op_operand op));
      v ← eval_tuple t attrs;
      Ok (v :: stack)
  | And =>
      '(b, stack) ← pop i stack;
      '(a, stack) ← pop i stack;
      Ok ((a && b) :: stack)
  | Or =>
      '(b, stack) ← pop i stack;
      '(a, stack) ← pop i stack;
      Ok ((a || b) :: stack)
  | Not =>
      '(a, stack) ← pop i stack;
      Ok (negb a :: stack)
  | Nop => Ok stack
  end.

Definition singleton_result {A} (stack : list A) : outcome PredicateError A :=
  match stack with
  | [x] => Ok x
  | _ => Err (NonSingletonResult (length stack))
  end.

Definition evaluate (d : PredicateDef) (attr_vector : list Fr)
  : outcome PredicateError bool :=
  validate d;;
  stack ← for_eachi (eval_step (tuples d) attr_vector) [] (ops d);
  singleton_result stack.

(** ** Class binding *)
Inductive Tag : Type := Bound | Free | Tainted.
#[export] Instance Tag_eq_dec : EqDecision Tag.
Proof. solve_decision. Defined.

Definition tag_and (a b : Tag) : Tag :=
  match a, b with
  | Bound, _ | _, Bound => Bound
  | Tainted, _ | _, Tainted => Tainted
  | _, _ => Free
  end.

Definition tag_or (a b : Tag) : Tag :=
  if bool_decide (a = Bound) && bool_decide (b = Bound) then Bound
  else if bool_decide (a = Bound) || bool_decide (b = Bound)
          || bool_decide (a = Tainted) || bool_decide (b = Tainted)
  then Tainted
  else Free.

Definition tag_not (a : Tag) : Tag :=
  match a with Bound => Tainted | other => other end.

Definition taint_step (binding : list nat) (i : nat) (stack : list Tag) (op : Op)
  : outcome PredicateError (list Tag) :=
  match code op with
  | PushTuple =>
      if bool_decide (byte_nat (op_operand op) ∈ binding)
      then Ok (Bound :: stack) else Ok (Free :: stack)
  | And =>
      '(b, stack) ← pop i stack;
      '(a, stack) ← pop i stack;
      Ok (tag_and a b :: stack)
  | Or =>
      '(b, stack) ← pop i stack;
      '(a, stack) ← pop i stack;
      Ok (tag_or a b :: stack)
  | Not =>
      '(a, stack) ← pop i stack;
      Ok (tag_not a :: stack)
  | Nop => Ok stack
  end.

Definition evaluate_class_binding_taint (os : list Op) (binding_tuple_indices : list nat)
  : outcome PredicateError Tag :=
  stack ← for_eachi (taint_step binding_tuple_indices) [] os;
  singleton_result stack.

(** [class_tag_be]: a class tag as a 32-byte operand. *)
Definition class_tag_be (class_tag : ClassTag) : Bytes32 :=
  splice (zeros 32) 30 (be_of_Z 2 class_tag).

(** Positions whose element satisfies a test, [enumerate().filter_map()]. *)
Fixpoint positions_from {A} (i : nat) (f : A → bool) (l : list A) : list nat :=
  match l with
  | [] => []
  | a :: l' => if f a then i :: positions_from (S i) f l' else positions_from (S i) f l'
  end.
Definition positions {A} := @positions_from A 0%nat.

Definition strict_binding (class_index : byte) (class_tag : ClassTag) (t : Tuple) : bool :=
  bool_decide (claim_index t = class_index) && bool_decide (comparator t = Eq_)
  && bytes_eqb (operand t) (class_tag_be class_tag).

Definition validate_class_binding (d : PredicateDef) (class_index : byte)
  (class_tag : ClassTag) : outcome PredicateError unit :=
  let binding_tuple_indices := positions (strict_binding class_index class_tag) (tuples d) in
  match binding_tuple_indices with
  | [] => Err MissingClassBinding
  | _ =>
      tag ← evaluate_class_binding_taint (ops d) binding_tuple_indices;
      match tag with Bound => Ok tt | _ => Err MissingClassBinding end
  end.

Definition loose_binding (class_index : byte) (t : Tuple) : bool :=
  bool_decide (claim_index t = class_index) && bool_decide (comparator t = Eq_)
  && all_zero (take 30 (operand t)).

Definition binding_operand (t : Tuple) : ClassTag := be_to_Z (drop 30 (operand t)).

Definition find_class_binding_operand (d : PredicateDef) (class_index : byte)
  : outcome PredicateError ClassTag :=
  let binding_tuple_indices := positions (loose_binding class_index) (tuples d) in
  let binding_operands :=
    map binding_operand (List.filter (loose_binding class_index) (tuples d)) in
  match binding_tuple_indices with
  | [] => Err MissingClassBinding
  | _ =>
      tag ← evaluate_class_binding_taint (ops d) binding_tuple_indices;
      match tag with
      | Bound => index binding_operands 0
      | _ => Err MissingClassBinding
      end
  end.

(** ** Canonical scalars *)
Definition SEGMENTS : nat := 34.
Definition FIRST_CONTENT_BYTES : nat := 29.
Definition LATER_CONTENT_BYTES : nat := 31.

Definition scalar_segment (encoded : list byte) (st : nat * list Fr) (seg : nat)
  : outcome PredicateError (nat * list Fr) :=
  let '(cursor, scalars) := st in
  let len := Z.of_nat (length encoded) in
  let '(buf, content_off, content_max) :=
    if (seg =? 0)%nat then
      (splice (splice (zeros 32) 1 [byte_of_Z (Z.land (Z.shiftr len 8) 0xff)])
         2 [byte_of_Z (Z.land len 0xff)], 3%nat, FIRST_CONTENT_BYTES)
    else (zeros 32, 1%nat, LATER_CONTENT_BYTES) in
  let n := (content_max `min` (length encoded - cursor))%nat in
  content ← slice encoded cursor (cursor + n);
  let buf := splice buf content_off content in
  Ok ((cursor + n)%nat, scalars ++ [fr_from_be_bytes buf]).

Definition canonical_scalars (encoded : list byte) : outcome PredicateError (list Fr) :=
  ensure (length encoded <=? PREDICATE_BYTES_MAX)%nat TooLarge;;
  '(_, scalars) ← for_each (scalar_segment encoded) (0%nat, []) (seq 0 SEGMENTS);
  Ok scalars.

(** ** Reading a byte buffer through a cursor *)
Lemma index_drop {E A} (l : list A) i x :
  @index E A l i = Ok x ↔ drop i l = x :: drop (i + 1) l.
Proof.
  unfold index. rewrite expect_Ok. split.
  - intros H. rewrite (drop_S _ _ _ H). by rewrite Nat.add_1_r.
  - intros H. rewrite <-(Nat.add_0_r i), <-lookup_drop, H. done.
Qed.

Lemma slice_drop {E A} (l : list A) i n x :
  (0 < n)%nat →
  @slice E A l i (i + n) = Ok x ↔ length x = n ∧ drop i l = x ++ drop (i + n) l.
Proof.
  intros Hn. unfold slice. replace (i + n - i)%nat with n by lia. split.
  - case_match; intros [= <-]. reflect_bools. split.
    + rewrite length_take, length_drop. lia.
    + by rewrite <-drop_drop, take_drop.
  - intros [Hx Hd]. assert (length (drop i l) = n + length (drop (i + n) l))%nat as Hl.
    { by rewrite Hd, length_app, Hx. }
    rewrite !length_drop in Hl.
    rewrite (proj2 (andb_true_iff _ _)) by (rewrite !Nat.leb_le; lia).
    rewrite Hd, take_app_length' by done. done.
Qed.

(** The same read forwards: what the cursor sees determines the read. *)
Lemma index_here {E A} (l : list A) i x r :
  drop i l = x :: r → @index E A l i = Ok x ∧ drop (i + 1) l = r.
Proof.
  intros H. assert (drop (i + 1) l = r) as Hr by by rewrite <-drop_drop, H.
  split; [|done]. apply index_drop. by rewrite H, Hr.
Qed.

Lemma slice_here {E A} (l : list A) i n x r :
  (0 < n)%nat → length x = n → drop i l = x ++ r →
  @slice E A l i (i + n) = Ok x ∧ drop (i + n) l = r.
Proof.
  intros Hn Hx H. assert (drop (i + n) l = r) as Hr.
  { by rewrite <-drop_drop, H, drop_app_length'. }
  split; [|done]. apply slice_drop; [done|]. by rewrite H, Hr.
Qed.

Definition tuple_wf (t : Tuple) : Prop := length (operand t) = 32%nat.
Definition def_wf (d : PredicateDef) : Prop := Forall tuple_wf (tuples d).

Lemma length_encode_tuple t : tuple_wf t → length (encode_tuple t) = 35%nat.
Proof. unfold tuple_wf, encode_tuple. intros H. rewrite !length_app, H. done. Qed.

Lemma decode_tuples_spec bytes n idx acc idx' out :
  decode_tuples bytes n idx acc = Ok (idx', out) ↔
  ∃ ts, length ts = n ∧ Forall tuple_wf ts ∧ out = acc ++ ts ∧
    idx' = (idx + 35 * n)%nat ∧
    drop idx bytes = concat (map encode_tuple ts) ++ drop idx' bytes.
Proof.
  revert idx acc; induction n as [|n IH]; intros idx acc; cbn [decode_tuples].
  { split.
    - intros [= <- <-]. exists []. rewrite app_nil_r. repeat split; [constructor|lia].
    - intros ([|t ts] & Hn & _ & -> & -> & _); [|done]. rewrite app_nil_r. do 2 f_equal. lia. }
  split.
  - intros H. inv_ok H.
    apply index_drop in Ha, Ha1, Ha3. apply slice_drop in Ha0 as [Hl Ha0]; [|lia].
    apply TypeTag_try_from_Ok in Ha2 as ->. apply Comparator_try_from_Ok in Ha4 as ->.
    apply IH in H as (ts & Hn & Hwf & -> & -> & Hd).
    eexists (mk_tuple _ _ _ _ :: ts). split; [cbn; by rewrite Hn|].
    split; [by constructor|]. split; [by rewrite <-app_assoc|]. split; [lia|].
    rewrite Ha, Ha0, Ha1, Ha3, Hd. cbn. rewrite <-!app_assoc. cbn.
    do 5 f_equal; lia.
  - intros ([|[ci opd tag cmp] ts] & Hn & Hwf & -> & -> & Hd); [done|].
    apply Forall_cons_1 in Hwf as [Ht Hwf]. unfold tuple_wf in Ht.
    cbn in Hn, Ht, Hd. rewrite <-!app_assoc in Hd. cbn in Hd.
    apply (index_here (E:=PredicateError)) in Hd as [-> Hd]. cbn.
    apply (slice_here (E:=PredicateError) _ _ 32) in Hd as [-> Hd]; [|lia|done]. cbn.
    apply (index_here (E:=PredicateError)) in Hd as [-> Hd]. cbn.
    rewrite (proj2 (TypeTag_try_from_Ok _ _) eq_refl). cbn.
    apply (index_here (E:=PredicateError)) in Hd as [-> Hd]. cbn.
    rewrite (proj2 (Comparator_try_from_Ok _ _) eq_refl). cbn.
    apply IH. exists ts. split; [lia|]. split; [done|].
    split; [by rewrite <-app_assoc|]. split; [lia|]. rewrite Hd. do 2 f_equal; lia.
Qed.

Lemma decode_ops_spec bytes n idx acc idx' out :
  decode_ops bytes n idx acc = Ok (idx', out) ↔
  ∃ os, length os = n ∧ out = acc ++ os ∧ idx' = (idx + 2 * n)%nat ∧
    drop idx bytes = concat (map encode_op os) ++ drop idx' bytes.
Proof.
  revert idx acc; induction n as [|n IH]; intros idx acc; cbn [decode_ops].
  { split.
    - intros [= <- <-]. exists []. rewrite app_nil_r. repeat split. lia.
    - intros ([|t ts] & Hn & -> & -> & _); [|done]. rewrite app_nil_r. do 2 f_equal. lia. }
  split.
  - intros H. inv_ok H. apply index_drop in Ha, Ha1.
    apply OpCode_try_from_Ok in Ha0 as ->.
    apply IH in H as (os & Hn & -> & -> & Hd).
    eexists (mk_op _ _ :: os). split; [cbn; by rewrite Hn|].
    split; [by rewrite <-app_assoc|]. split; [lia|].
    rewrite Ha, Ha1, Hd. cbn. do 4 f_equal; lia.
  - intros ([|[c o] os] & Hn & -> & -> & Hd); [done|]. cbn in Hn, Hd.
    apply (index_here (E:=PredicateError)) in Hd as [-> Hd]. cbn.
    rewrite (proj2 (OpCode_try_from_Ok _ _) eq_refl). cbn.
    apply (index_here (E:=PredicateError)) in Hd as [-> Hd]. cbn.
    apply IH. exists os. split; [lia|]. split; [by rewrite <-app_assoc|].
    split; [lia|]. rewrite Hd. do 2 f_equal; lia.
Qed.

Lemma validate_counts d u :
  validate d = Ok u →
  (1 ≤ length (tuples d) ≤ 20)%nat ∧ (1 ≤ length (ops d) ≤ 20)%nat.
Proof.
  unfold validate. intros H. inv_ok H. reflect_bools.
  unfold PREDICATE_TUPLE_MAX, PREDICATE_OP_MAX in *. lia.
Qed.

Lemma byte_nat_of_len n : (n < 256)%nat → byte_nat (byte_of_Z (Z.of_nat n)) = n.
Proof. intros. unfold byte_nat. rewrite byte_Z_of_Z, Z.mod_small by lia. lia. Qed.

Lemma byte_of_byte_nat b : byte_of_Z (Z.of_nat (byte_nat b)) = b.
Proof.
  unfold byte_nat. rewrite Z2Nat.id by apply byte_Z_range. apply byte_of_Z_byte.
Qed.

Lemma length_concat_encode_tuples ts :
  Forall tuple_wf ts → length (concat (map encode_tuple ts)) = (35 * length ts)%nat.
Proof.
  induction 1 as [|t ts Ht _ IH]; [done|]. cbn [map concat].
  rewrite length_app, IH, length_encode_tuple by done. cbn. lia.
Qed.

Lemma length_concat_encode_ops os :
  length (concat (map encode_op os)) = (2 * length os)%nat.
Proof. induction os as [|o os IH]; [done|]. cbn [map concat]. rewrite length_app, IH. cbn. lia. Qed.

Lemma length_encode_bytes d :
  def_wf d → length (encode_bytes d) = serialized_len d.
Proof.
  intros H. unfold encode_bytes, serialized_len. rewrite !length_app.
  rewrite length_concat_encode_tuples, length_concat_encode_ops by done. cbn. lia.
Qed.

Lemma encode_Ok d e :
  encode d = Ok e ↔ validate d = Ok tt ∧ e = encode_bytes d.
Proof.
  unfold encode. split.
  - intros H. inv_ok H. by destruct a.
  - intros [Hv ->]. rewrite Hv. cbn. apply validate_counts in Hv.
    unfold serialized_len, PREDICATE_BYTES_MAX. pass_guard. reflexivity.
Qed.

(** What [decode] accepts: an encoding, then anything. *)
Lemma decode_sound bytes d :
  decode bytes = Ok d →
  def_wf d ∧ (length bytes ≤ PREDICATE_BYTES_MAX)%nat ∧
  ∃ e rest, encode d = Ok e ∧ bytes = e ++ rest.
Proof.
  unfold decode, def_wf.
  intros H. inv_ok H. destruct a4 as [idx ts]. inv_ok H. destruct a6 as [idx' os].
  inv_ok H. reflect_bools.
  apply decode_tuples_spec in Ha4 as (ts' & Hn & Hwf & -> & -> & Hd).
  apply decode_ops_spec in Ha7 as (os' & Hn' & -> & -> & Hd'). cbn [app] in *.
  apply index_drop in Ha1, Ha5. split; [done|]. split; [done|].
  exists (encode_bytes (mk_def ts' os')), (drop (1 + 35 * byte_nat a1 + 1 + 2 * byte_nat a4) bytes).
  split; [apply encode_Ok; by destruct a6|].
  unfold encode_bytes. cbn [tuples ops app].
  rewrite Hn, Hn', !byte_of_byte_nat, <-!app_assoc. cbn [app].
  rewrite drop_0 in Ha1. transitivity (a1 :: drop 1 bytes); [done|].
  by rewrite Hd, Ha5, Hd'.
Qed.

Lemma decode_complete d e rest :
  def_wf d → (length (e ++ rest) ≤ PREDICATE_BYTES_MAX)%nat → encode d = Ok e →
  decode (e ++ rest) = Ok d.
Proof.
  unfold decode.
  intros Hwf Hlen [Hv ->]%encode_Ok.
  pose proof (validate_counts _ _ Hv) as [Ht Ho].
  set (bytes := encode_bytes d ++ rest) in *.
  assert (drop 0 bytes = byte_of_Z (Z.of_nat (length (tuples d))) ::
    concat (map encode_tuple (tuples d)) ++ byte_of_Z (Z.of_nat (length (ops d))) ::
    concat (map encode_op (ops d)) ++ rest) as Hd.
  { rewrite drop_0. unfold bytes, encode_bytes. by repeat (rewrite <-app_assoc; cbn [app]). }
  assert (length bytes = serialized_len d + length rest)%nat as Hlen'.
  { unfold bytes. by rewrite length_app, length_encode_bytes. }
  unfold serialized_len in Hlen'.
  do 2 pass_guard.
  apply (index_here (E:=PredicateError)) in Hd as [-> Hd]. cbn [mbind outcome_bind].
  rewrite byte_nat_of_len by lia.
  unfold PREDICATE_TUPLE_MAX. do 2 pass_guard.
  assert (drop (1 + 35 * length (tuples d)) bytes = byte_of_Z (Z.of_nat (length (ops d)))
    :: concat (map encode_op (ops d)) ++ rest) as Hd2.
  { rewrite <-drop_drop. cbn [Nat.add] in Hd. rewrite Hd.
    by rewrite drop_app_length' by by rewrite length_concat_encode_tuples. }
  rewrite (proj2 (decode_tuples_spec bytes (length (tuples d)) 1 [] _ (tuples d)))
    by (exists (tuples d); rewrite Hd2; repeat split; done). cbn [mbind outcome_bind].
  apply (index_here (E:=PredicateError)) in Hd2 as [Hi Hd2]. rewrite Hi. cbn [mbind outcome_bind].
  rewrite byte_nat_of_len by lia.
  pass_guard.
  rewrite (proj2 (decode_ops_spec bytes (length (ops d)) _ []
    (1 + 35 * length (tuples d) + 1 + 2 * length (ops d)) (ops d))).
  2: { exists (ops d). split; [done|]. split; [done|]. split; [reflexivity|].
       rewrite Hd2. f_equal.
       rewrite <-drop_drop, Hd2. by rewrite drop_app_length' by by rewrite length_concat_encode_ops. }
  cbn. destruct d; cbn in *. rewrite Hv. done.
Qed.

(** ** Panic freedom *)
Lemma index_no_panic {E A} (l : list A) i : (i < length l)%nat → @index E A l i ≠ Panic.
Proof. intros [x Hx]%lookup_lt_is_Some. unfold index. by rewrite Hx. Qed.

Lemma slice_no_panic {E A} (l : list A) a b :
  (a ≤ b ≤ length l)%nat → @slice E A l a b ≠ Panic.
Proof.
  intros [Ha Hb]. unfold slice.
  by rewrite (proj2 (Nat.leb_le _ _) Ha), (proj2 (Nat.leb_le _ _) Hb).
Qed.

(** Walks a chain of binds assumed to panic and refutes each step. *)
Ltac no_panic :=
  repeat match goal with
  | |- _ ≠ Panic => intro
  | H : _ ≫= _ = Panic |- _ => apply bind_Panic in H as [H|(? & ? & H)]
  | H : ensure _ _ = Panic |- _ => by apply ensure_no_panic in H
  | H : map_err _ _ = Panic |- _ => apply map_err_Panic in H
  | H : TypeTag_try_from _ = Panic |- _ => by apply TypeTag_try_from_no_panic in H
  | H : Comparator_try_from _ = Panic |- _ => by apply Comparator_try_from_no_panic in H
  | H : OpCode_try_from _ = Panic |- _ => by apply OpCode_try_from_no_panic in H
  | H : ensure _ _ = Ok _ |- _ => apply ensure_Ok in H
  | H : index _ _ = Panic |- _ => apply index_no_panic in H; [done|reflect_bools; lia]
  | H : slice _ _ _ = Panic |- _ => apply slice_no_panic in H; [done|reflect_bools; lia]
  | H : Ok _ = Panic |- _ => discriminate H
  | H : Err _ = Panic |- _ => discriminate H
  end.

Lemma decode_tuples_no_panic bytes n idx acc :
  (idx + 35 * n ≤ length bytes)%nat → decode_tuples bytes n idx acc ≠ Panic.
Proof.
  revert idx acc; induction n as [|n IH]; intros idx acc Hl; cbn [decode_tuples]; no_panic.
  eapply IH; [|done]. lia.
Qed.

Lemma decode_ops_no_panic bytes n idx acc :
  (idx + 2 * n ≤ length bytes)%nat → decode_ops bytes n idx acc ≠ Panic.
Proof.
  revert idx acc; induction n as [|n IH]; intros idx acc Hl; cbn [decode_ops]; no_panic.
  eapply IH; [|done]. lia.
Qed.

Lemma validate_no_panic d : validate d ≠ Panic.
Proof.
  unfold validate, for_eachi. no_panic.
  - revert H. apply for_each_no_panic. intros _ op _. unfold validate_op.
    case_bool_decide; no_panic.
  - revert H. apply for_eachi_from_no_panic. intros i _ t _. unfold validate_tuple.
    destruct (type_tag t), (comparator t); no_panic.
Qed.

(** ** The postfix machine, generically

    Both the evaluator and the taint analysis run the same postfix program,
    over booleans and over tags.  [Nop]s carry no token. *)
Inductive token : Type := TPush (i : byte) | TAnd | TOr | TNot.
Inductive pexpr : Type :=
| PLeaf (i : byte)
| PAnd (a b : pexpr)
| POr (a b : pexpr)
| PNot (a : pexpr).

Definition op_token (o : Op) : option token :=
  match code o with
  | PushTuple => Some (TPush (op_operand o))
  | And => Some TAnd
  | Or => Some TOr
  | Not => Some TNot
  | Nop => None
  end.
Definition tokens (os : list Op) : list token := omap op_token os.

(** Reverse Polish form of an expression. *)
Fixpoint postfix (e : pexpr) : list token :=
  match e with
  | PLeaf i => [TPush i]
  | PAnd a b => postfix a ++ postfix b ++ [TAnd]
  | POr a b => postfix a ++ postfix b ++ [TOr]
  | PNot a => postfix a ++ [TNot]
  end.

Section machine.
Context {A : Type} (leaf : byte → option A) (f_and f_or : A → A → A) (f_not : A → A).

Definition tok_step (stack : list A) (t : token) : option (list A) :=
  match t, stack with
  | TPush i, _ => v ← leaf i; Some (v :: stack)
  | TAnd, b :: a :: stack' => Some (f_and a b :: stack')
  | TOr, b :: a :: stack' => Some (f_or a b :: stack')
  | TNot, a :: stack' => Some (f_not a :: stack')
  | _, _ => None
  end.

Fixpoint tok_run (stack : list A) (ts : list token) : option (list A) :=
  match ts with
  | [] => Some stack
  | t :: ts' => tok_step stack t ≫= λ s, tok_run s ts'
  end.

Fixpoint denote (e : pexpr) : option A :=
  match e with
  | PLeaf i => leaf i
  | PAnd a b => x ← denote a; y ← denote b; Some (f_and x y)
  | POr a b => x ← denote a; y ← denote b; Some (f_or x y)
  | PNot a => x ← denote a; Some (f_not x)
  end.

Lemma tok_run_app s ts1 ts2 :
  tok_run s (ts1 ++ ts2) = tok_run s ts1 ≫= λ s', tok_run s' ts2.
Proof.
  revert s; induction ts1 as [|t ts1 IH]; intros s; cbn; [done|].
  destruct (tok_step s t); cbn; auto.
Qed.

Lemma tok_run_postfix e s : tok_run s (postfix e) = v ← denote e; Some (v :: s).
Proof.
  revert s; induction e as [i|a IHa b IHb|a IHa b IHb|a IHa]; intros s; cbn.
  - by destruct (leaf i).
  - rewrite tok_run_app, IHa. destruct (denote a); cbn; [|done].
    rewrite tok_run_app, IHb. by destruct (denote b).
  - rewrite tok_run_app, IHa. destruct (denote a); cbn; [|done].
    rewrite tok_run_app, IHb. by destruct (denote b).
  - rewrite tok_run_app, IHa. by destruct (denote a).
Qed.

(** Every stack a program leaves behind is the value of the expressions it
    spells. *)
Lemma tok_run_parse ts s :
  tok_run [] ts = Some s →
  ∃ es, ts = concat (map postfix (rev es)) ∧ Forall2 (λ e v, denote e = Some v) es s.
Proof.
  revert s; induction ts as [|t ts IH] using rev_ind; intros s.
  { intros [= <-]. by exists []. }
  rewrite tok_run_app. destruct (tok_run [] ts) as [s0|] eqn:E; cbn; [|done].
  destruct (IH _ eq_refl) as (es & -> & HF).
  destruct t; cbn.
  - destruct (leaf i) as [v|] eqn:Hv; cbn; [|done]. intros [= <-].
    exists (PLeaf i :: es). split; [|by constructor].
    cbn. by rewrite map_app, concat_app.
  - destruct HF as [|eb b ? ? Hb [|ea a es' ? Ha HF]]; try done. intros [= <-].
    exists (PAnd ea eb :: es'). split.
    + cbn. rewrite !map_app, !concat_app. cbn. by rewrite !app_nil_r, <-!app_assoc.
    + constructor; [|done]. cbn. by rewrite Ha, Hb.
  - destruct HF as [|eb b ? ? Hb [|ea a es' ? Ha HF]]; try done. intros [= <-].
    exists (POr ea eb :: es'). split.
    + cbn. rewrite !map_app, !concat_app. cbn. by rewrite !app_nil_r, <-!app_assoc.
    + constructor; [|done]. cbn. by rewrite Ha, Hb.
  - destruct HF as [|ea a es' ? Ha HF]; try done. intros [= <-].
    exists (PNot ea :: es'). split.
    + cbn. rewrite !map_app, !concat_app. cbn. by rewrite !app_nil_r, <-!app_assoc.
    + constructor; [|done]. cbn. by rewrite Ha.
Qed.

Lemma tok_run_singleton ts v :
  tok_run [] ts = Some [v] ↔ ∃ e, ts = postfix e ∧ denote e = Some v.
Proof.
  split.
  - intros (es & -> & HF)%tok_run_parse.
    apply Forall2_cons_inv_r in HF as (e & es' & He & HF & ->).
    apply Forall2_nil_inv_r in HF as ->. exists e. split; [|done].
    cbn. by rewrite app_nil_r.
  - intros (e & -> & He). by rewrite tok_run_postfix, He.
Qed.
End machine.

(** Reverse Polish notation is unambiguous: run it in the free algebra. *)
Lemma postfix_inj e1 e2 : postfix e1 = postfix e2 → e1 = e2.
Proof.
  assert (∀ e, denote (Some ∘ PLeaf) PAnd POr PNot e = Some e) as Hid.
  { induction e; cbn; rewrite ?IHe, ?IHe1, ?IHe2; done. }
  intros H. pose proof (tok_run_postfix (Some ∘ PLeaf) PAnd POr PNot e1 []) as H1.
  rewrite H, tok_run_postfix, !Hid in H1. cbn in H1. congruence.
Qed.

(** The evaluator and the analysis as instances of the machine. *)
Definition tuple_value (ts : list Tuple) (attrs : list Fr) (i : byte) : option bool :=
  t ← ts !! byte_nat i;
  match eval_tuple t attrs with Ok v => Some v | _ => None end.

(** Reference meaning of a predicate expression over the tuple table. *)
Definition holds (ts : list Tuple) (attrs : list Fr) : pexpr → option bool :=
  denote (tuple_value ts attrs) andb orb negb.

Definition taint_leaf (binding : list nat) (i : byte) : option Tag :=
  Some (if bool_decide (byte_nat i ∈ binding) then Bound else Free).
Definition taint_of (binding : list nat) : pexpr → option Tag :=
  denote (taint_leaf binding) tag_and tag_or tag_not.

Lemma eval_step_token ts attrs i s op s' :
  eval_step ts attrs i s op = Ok s' ↔
  match op_token op with
  | Some t => tok_step (tuple_value ts attrs) andb orb negb s t = Some s'
  | None => s' = s
  end.
Proof.
  unfold eval_step, op_token, tuple_value, index.
  destruct (code op); cbn; try (destruct s as [|b [|a s]]; cbn; naive_solver).
  destruct (ts !! byte_nat (op_operand op)) as [t|]; cbn; [|naive_solver].
  destruct (eval_tuple t attrs); cbn; naive_solver.
Qed.

Lemma taint_step_token binding i s op s' :
  taint_step binding i s op = Ok s' ↔
  match op_token op with
  | Some t => tok_step (taint_leaf binding) tag_and tag_or tag_not s t = Some s'
  | None => s' = s
  end.
Proof.
  unfold taint_step, op_token, taint_leaf.
  destruct (code op); cbn; try (destruct s as [|b [|a s]]; cbn; naive_solver).
  case_bool_decide; naive_solver.
Qed.

Section run.
Context {A : Type} (step : nat → list A → Op → outcome PredicateError (list A))
  (tstep : list A → token → option (list A)).
Hypothesis step_token : ∀ i s op s', step i s op = Ok s' ↔
  match op_token op with Some t => tstep s t = Some s' | None => s' = s end.

Fixpoint tok_fold (s : list A) (ts : list token) : option (list A) :=
  match ts with [] => Some s | t :: ts' => tstep s t ≫= λ s, tok_fold s ts' end.

Lemma for_eachi_tokens i os s s' :
  for_eachi_from i step s os = Ok s' ↔ tok_fold s (tokens os) = Some s'.
Proof.
  revert i s; induction os as [|o os IH]; intros i s; cbn; [naive_solver|].
  rewrite bind_Ok. setoid_rewrite step_token. setoid_rewrite IH.
  destruct (op_token o) as [t|]; cbn; [|naive_solver].
  destruct (tstep s t) as [s1|]; cbn; naive_solver.
Qed.
End run.

Lemma singleton_result_Ok {A} (s : list A) v : singleton_result s = Ok v ↔ s = [v].
Proof. destruct s as [|x [|y s]]; cbn; naive_solver. Qed.

(** A predicate evaluates to [b] exactly when its program spells, up to
    [Nop]s, an expression whose meaning is [b]. *)
Lemma evaluate_Ok_iff d attrs b :
  evaluate d attrs = Ok b ↔
  validate d = Ok tt ∧
  ∃ e, tokens (ops d) = postfix e ∧ holds (tuples d) attrs e = Some b.
Proof.
  unfold evaluate, for_eachi. rewrite bind_Ok.
  setoid_rewrite bind_Ok. setoid_rewrite singleton_result_Ok.
  setoid_rewrite (for_eachi_tokens _ _ (eval_step_token (tuples d) attrs)).
  pose proof (tok_run_singleton (tuple_value (tuples d) attrs) andb orb negb
    (tokens (ops d)) b) as Hrun. fold (holds (tuples d) attrs) in Hrun.
  rewrite <-Hrun. split.
  - intros ([] & ? & s & ? & ->). done.
  - intros [? ?]. eauto.
Qed.

Lemma taint_Ok_iff os binding tag :
  evaluate_class_binding_taint os binding = Ok tag ↔
  ∃ e, tokens os = postfix e ∧ taint_of binding e = Some tag.
Proof.
  unfold evaluate_class_binding_taint, for_eachi. rewrite bind_Ok.
  setoid_rewrite singleton_result_Ok.
  setoid_rewrite (for_eachi_tokens _ _ (taint_step_token binding)).
  pose proof (tok_run_singleton (taint_leaf binding) tag_and tag_or tag_not
    (tokens os) tag) as Hrun. fold (taint_of binding) in Hrun.
  rewrite <-Hrun. split; [intros (s & ? & ->); done|eauto].
Qed.

(** Soundness of the analysis on expressions: a [Bound] expression can only
    be true when one of the binding comparisons is. *)
Lemma taint_sound ts attrs binding e :
  taint_of binding e = Some Bound → holds ts attrs e = Some true →
  ∃ i, byte_nat i ∈ binding ∧ TPush i ∈ postfix e ∧ tuple_value ts attrs i = Some true.
Proof.
  unfold taint_of, holds.
  induction e as [i|a IHa b IHb|a IHa b IHb|a IHa]; cbn; intros Ht Hh.
  - unfold taint_leaf in Ht. case_bool_decide; [|done].
    exists i. split; [done|]. split; [by left|done].
  - apply bind_Some in Ht as (ta & Ha & (tb & Hb & [= Ht])%bind_Some).
    apply bind_Some in Hh as (x & Hx & (y & Hy & [= [-> ->]%andb_true_iff])%bind_Some).
    setoid_rewrite elem_of_app. setoid_rewrite elem_of_app.
    destruct (decide (ta = Bound)) as [->|]; [naive_solver|].
    destruct (decide (tb = Bound)) as [->|]; [naive_solver|]. by destruct ta, tb.
  - apply bind_Some in Ht as (ta & Ha & (tb & Hb & [= Ht])%bind_Some).
    apply bind_Some in Hh as (x & Hx & (y & Hy & [= Hxy])%bind_Some).
    setoid_rewrite elem_of_app. setoid_rewrite elem_of_app.
    assert (ta = Bound ∧ tb = Bound) as [-> ->] by by destruct ta, tb.
    apply orb_true_iff in Hxy as [-> | ->]; naive_solver.
  - apply bind_Some in Ht as (ta & Ha & [= Ht]). by destruct ta.
Qed.

(** ** Class binding *)
Lemma elem_of_positions_from {A} (f : A → bool) l k i :
  i ∈ positions_from k f l ↔ ∃ j a, i = (k + j)%nat ∧ l !! j = Some a ∧ f a = true.
Proof.
  revert k; induction l as [|x l IH]; intros k; cbn.
  { rewrite elem_of_nil. naive_solver. }
  split.
  - intros Hi. assert (i = k ∧ f x = true ∨ i ∈ positions_from (S k) f l) as [[-> ?]|Hi'].
    { destruct (f x); [apply elem_of_cons in Hi as [->|]|]; eauto. }
    + exists 0%nat, x. repeat split; [lia|done].
    + apply IH in Hi' as (j & a & -> & ? & ?). exists (S j), a. repeat split; [lia|done..].
  - intros (j & a & -> & Hj & Ha). destruct j as [|j].
    + injection Hj as ->. rewrite Ha, Nat.add_0_r. left.
    + assert (k + S j ∈ positions_from (S k) f l)%nat as ?.
      { apply IH. exists j, a. repeat split; [lia|done..]. }
      destruct (f x); [by right|done].
Qed.

Lemma elem_of_positions {A} (f : A → bool) l i :
  i ∈ positions f l ↔ ∃ a, l !! i = Some a ∧ f a = true.
Proof.
  unfold positions. rewrite elem_of_positions_from. split.
  - intros (j & a & -> & ? & ?). eauto.
  - intros (a & ? & ?). by exists i, a.
Qed.

(** A comparison for equality that evaluates to true pins the attribute. *)
Lemma eval_tuple_eq_true t attrs :
  comparator t = Eq_ → eval_tuple t attrs = Ok true →
  attrs !! byte_nat (claim_index t) = Some (fr_from_be_bytes (operand t)).
Proof.
  unfold eval_tuple. intros -> H. case_match; [|done].
  by destruct (type_tag t); injection H as ->%fr_eqb_eq.
Qed.

(** The generic content of both class-binding checks. *)
Lemma bound_pins_attribute d attrs (f : Tuple → bool) :
  evaluate_class_binding_taint (ops d) (positions f (tuples d)) = Ok Bound →
  evaluate d attrs = Ok true →
  ∃ i t, tuples d !! byte_nat i = Some t ∧ f t = true ∧
    TPush i ∈ tokens (ops d) ∧ eval_tuple t attrs = Ok true.
Proof.
  intros (e & He & Ht)%taint_Ok_iff (_ & e' & He' & Hh)%evaluate_Ok_iff.
  assert (e' = e) as -> by (apply postfix_inj; congruence).
  destruct (taint_sound _ _ _ _ Ht Hh) as (i & Hi & Hpush & Hv).
  apply elem_of_positions in Hi as (t & Hlk & Hf).
  exists i, t. rewrite He. repeat split; try done.
  unfold tuple_value in Hv. rewrite Hlk in Hv. cbn in Hv.
  destruct (eval_tuple t attrs); naive_solver.
Qed.

Lemma find_class_binding_Bound d ci tag :
  find_class_binding_operand d ci = Ok tag →
  evaluate_class_binding_taint (ops d) (positions (loose_binding ci) (tuples d)) = Ok Bound.
Proof.
  unfold find_class_binding_operand. case_match eqn:E; [done|].
  intros H. inv_ok H. by destruct a.
Qed.

Lemma binding_operand_spec ci t :
  tuple_wf t → loose_binding ci t = true →
  claim_index t = ci ∧ comparator t = Eq_ ∧
  be_to_Z (operand t) = binding_operand t ∧ 0 ≤ binding_operand t < 2 ^ 16.
Proof.
  unfold tuple_wf, loose_binding, binding_operand. intros Hw Hb. reflect_bools.
  repeat split; try done.
  - rewrite <-(take_drop 30 (operand t)) at 1. rewrite be_to_Z_app.
    apply all_zero_true in H0. rewrite H0, be_to_Z_zeros. lia.
  - apply be_to_Z_range.
  - pose proof (be_to_Z_range (drop 30 (operand t))) as R.
    rewrite length_drop, Hw in R. apply R.
Qed.

Lemma be_class_tag_be ct : 0 ≤ ct < 2 ^ 16 → be_to_Z (class_tag_be ct) = ct.
Proof.
  intros Hct. unfold class_tag_be, splice. rewrite length_be_of_Z.
  change (take 30 (zeros 32)) with (zeros 30). change (drop (30 + 2) (zeros 32)) with (zeros 0).
  rewrite app_nil_r, be_to_Z_app, be_to_Z_zeros, be_to_of_Z_small by done. lia.
Qed.

(** A unit-state loop that succeeds has run its body on every element. *)
Lemma for_each_unit {E A} (f : A → outcome E unit) l u a :
  for_each (λ _ x, f x) u l = Ok tt → a ∈ l → f a = Ok tt.
Proof.
  intros H Ha. revert u H. induction Ha as [a l|a b l _ IH]; cbn; intros u H.
  - apply bind_Ok in H as ([] & H & _). done.
  - apply bind_Ok in H as ([] & _ & H). eauto.
Qed.

Lemma for_eachi_unit {E A} (f : nat → A → outcome E unit) n l u a :
  for_eachi_from n (λ i _ x, f i x) u l = Ok tt → a ∈ l → ∃ i, f i a = Ok tt.
Proof.
  intros H Ha. revert n u H. induction Ha as [a l|a b l _ IH]; cbn; intros n u H.
  - apply bind_Ok in H as ([] & H & _). eauto.
  - apply bind_Ok in H as ([] & _ & H). eauto.
Qed.

Lemma validate_op_of d op :
  validate d = Ok tt → op ∈ ops d → validate_op (length (tuples d)) op = Ok tt.
Proof.
  unfold validate. intros H. inv_ok H. destruct a1. by eapply for_each_unit.
Qed.

Lemma validate_tuple_of d t :
  validate d = Ok tt → t ∈ tuples d → ∃ i, validate_tuple i t = Ok tt.
Proof. unfold validate. intros H. inv_ok H. by eapply for_eachi_unit. Qed.

Lemma eval_tuple_total i t attrs :
  validate_tuple i t = Ok tt → (byte_nat (claim_index t) < length attrs)%nat →
  ∃ b, eval_tuple t attrs = Ok b.
Proof.
  unfold validate_tuple, eval_tuple. intros Hv [a Ha]%lookup_lt_is_Some. rewrite Ha.
  destruct (type_tag t), (comparator t); eauto; done.
Qed.

Lemma holds_total ts attrs e :
  (∀ i, TPush i ∈ postfix e → is_Some (tuple_value ts attrs i)) →
  is_Some (holds ts attrs e).
Proof.
  unfold holds. induction e as [i|a IHa b IHb|a IHa b IHb|a IHa]; cbn; intros Hl.
  - apply Hl. by left.
  - destruct IHa as [x ->]; [intros i ?; apply Hl; set_solver|].
    destruct IHb as [y ->]; [intros i ?; apply Hl; set_solver|]. cbn. eauto.
  - destruct IHa as [x ->]; [intros i ?; apply Hl; set_solver|].
    destruct IHb as [y ->]; [intros i ?; apply Hl; set_solver|]. cbn. eauto.
  - destruct IHa as [x ->]; [intros i ?; apply Hl; set_solver|]. cbn. eauto.
Qed.

Lemma elem_of_tokens_push os i :
  TPush i ∈ tokens os → ∃ op, op ∈ os ∧ code op = PushTuple ∧ op_operand op = i.
Proof.
  unfold tokens. rewrite list_elem_of_omap. intros (op & Hop & Ht).
  exists op. unfold op_token in Ht. destruct (code op); naive_solver.
Qed.

(** ** Canonical scalars *)

(** Content bytes consumed by the first [k] segments. *)
Definition seg_start (k : nat) : nat :=
  match k with O => 0 | S k' => 29 + 31 * k' end.

(** The 31 low bytes of segment [k]. *)
Definition seg_bytes (enc : list byte) (k : nat) : list byte :=
  let content := take (seg_start (S k) - seg_start k) (drop (seg_start k) enc) in
  match k with
  | O => be_of_Z 2 (Z.of_nat (length enc)) ++ content ++ zeros (29 - length content)
  | S _ => content ++ zeros (31 - length content)
  end.

Lemma length_seg_bytes enc k : length (seg_bytes enc k) = 31%nat.
Proof.
  unfold seg_bytes. destruct k as [|k].
  - rewrite !length_app, length_be_of_Z, length_zeros, length_take, length_drop.
    cbn [seg_start]. lia.
  - rewrite length_app, length_zeros, length_take, length_drop. cbn [seg_start]. lia.
Qed.

Lemma splice_zeros_1 c :
  (length c ≤ 31)%nat →
  splice (zeros 32) 1 c = x00 :: c ++ zeros (31 - length c).
Proof.
  intros Hc. unfold splice. change (take 1 (zeros 32)) with [x00]. cbn [app]. do 2 f_equal.
  unfold zeros. rewrite drop_replicate. done.
Qed.

Lemma len_byte_hi n :
  (n ≤ 1024)%nat →
  byte_of_Z (Z.land (Z.shiftr (Z.of_nat n) 8) 0xff) = byte_of_Z (Z.of_nat n / 256).
Proof.
  intros Hn. change 0xff with (Z.ones 8). rewrite Z.land_ones, Z.shiftr_div_pow2 by lia.
  change (2 ^ 8) with 256. f_equal. apply Z.mod_small. split; [by apply Z.div_pos; lia|].
  apply Z.div_lt_upper_bound; lia.
Qed.

Lemma len_byte_lo z : byte_of_Z (Z.land z 0xff) = byte_of_Z z.
Proof.
  apply byte_Z_inj. rewrite !byte_Z_of_Z. change 0xff with (Z.ones 8).
  rewrite Z.land_ones by lia. change (2 ^ 8) with 256. by rewrite Z.mod_mod.
Qed.

Lemma splice_head_segment n c :
  (n ≤ 1024)%nat → (length c ≤ 29)%nat →
  splice (splice (splice (zeros 32) 1 [byte_of_Z (Z.land (Z.shiftr (Z.of_nat n) 8) 0xff)])
            2 [byte_of_Z (Z.land (Z.of_nat n) 0xff)]) 3 c
  = x00 :: be_of_Z 2 (Z.of_nat n) ++ c ++ zeros (29 - length c).
Proof.
  intros Hn Hc. rewrite len_byte_hi, len_byte_lo by done.
  set (hi := byte_of_Z (Z.of_nat n / 256)). set (lo := byte_of_Z (Z.of_nat n)).
  change (splice (splice (zeros 32) 1 [hi]) 2 [lo]) with (x00 :: hi :: lo :: zeros 29).
  change (splice (x00 :: hi :: lo :: zeros 29) 3 c)
    with (x00 :: hi :: lo :: c ++ drop (length c) (zeros 29)).
  unfold zeros. by rewrite drop_replicate.
Qed.

Lemma scalar_segment_spec enc k acc :
  (length enc ≤ 1024)%nat →
  scalar_segment enc ((seg_start k `min` length enc)%nat, acc) k =
  Ok ((seg_start (S k) `min` length enc)%nat,
      acc ++ [fr_from_be_bytes (x00 :: seg_bytes enc k)]).
Proof.
  intros Hl. unfold scalar_segment.
  set (w := if (k =? 0)%nat then 29%nat else 31%nat).
  assert (seg_start (S k) = seg_start k + w)%nat as Hw.
  { unfold w. destruct k; cbn [Nat.eqb seg_start]; lia. }
  set (cur := (seg_start k `min` length enc)%nat).
  set (n := (w `min` (length enc - cur))%nat).
  assert (@slice PredicateError _ enc cur (cur + n) =
    Ok (take w (drop (seg_start k) enc))) as Hs.
  { unfold slice. rewrite (proj2 (andb_true_iff _ _)) by (rewrite !Nat.leb_le; lia).
    f_equal. replace (cur + n - cur)%nat with n by lia.
    destruct (decide (seg_start k ≤ length enc)%nat).
    - replace cur with (seg_start k) by lia.
      destruct (decide (w ≤ length enc - seg_start k)%nat);
        [by replace n with w by lia|].
      rewrite !take_ge; [done|rewrite length_drop; lia..].
    - replace n with 0%nat by lia. rewrite (drop_ge _ (seg_start k)) by lia.
      by rewrite take_nil. }
  assert (length (take w (drop (seg_start k) enc)) ≤ w)%nat as Hc.
  { rewrite length_take. lia. }
  unfold seg_bytes. rewrite Hw. replace (seg_start k + w - seg_start k)%nat with w by lia.
  destruct k as [|k]; cbn [Nat.eqb] in *; unfold FIRST_CONTENT_BYTES, LATER_CONTENT_BYTES;
    fold w; fold n; rewrite Hs; cbn [mbind outcome_bind].
  - rewrite splice_head_segment by done. do 2 f_equal. lia.
  - rewrite splice_zeros_1 by done. do 2 f_equal. lia.
Qed.

Lemma canonical_scalars_spec enc :
  (length enc ≤ 1024)%nat →
  canonical_scalars enc = Ok (map (λ k, fr_from_be_bytes (x00 :: seg_bytes enc k)) (seq 0 SEGMENTS)).
Proof.
  intros Hl. unfold canonical_scalars, PREDICATE_BYTES_MAX. pass_guard.
  enough (∀ m k acc,
    for_each (scalar_segment enc) ((seg_start k `min` length enc)%nat, acc) (seq k m)
    = Ok ((seg_start (k + m) `min` length enc)%nat,
          acc ++ map (λ k, fr_from_be_bytes (x00 :: seg_bytes enc k)) (seq k m))) as Hgen.
  { specialize (Hgen SEGMENTS 0%nat []). cbn [seg_start Nat.min] in Hgen.
    rewrite Hgen. done. }
  induction m as [|m IH]; intros k acc; cbn [seq map for_each].
  { rewrite app_nil_r, Nat.add_0_r. done. }
  rewrite scalar_segment_spec by done. cbn [mbind outcome_bind].
  rewrite IH, <-app_assoc. do 2 f_equal. do 2 f_equal. lia.
Qed.

(** The contents of all segments, concatenated, are the encoding itself,
    zero padded: nothing is dropped, since the capacity 1052 exceeds the cap. *)
Lemma seg_bytes_content enc k :
  (k < SEGMENTS)%nat →
  take (seg_start (S k) - seg_start k)
    (if (k =? 0)%nat then drop 2 (seg_bytes enc k) else seg_bytes enc k)
  = take (seg_start (S k) - seg_start k) (drop (seg_start k) (enc ++ zeros (seg_start SEGMENTS))).
Proof.
  intros Hk. assert (seg_start (S k) ≤ seg_start SEGMENTS)%nat as Hle
    by (unfold SEGMENTS in *; cbn [seg_start]; lia).
  set (w := (seg_start (S k) - seg_start k)%nat).
  assert ((if (k =? 0)%nat then drop 2 (seg_bytes enc k) else seg_bytes enc k) =
    take w (drop (seg_start k) enc) ++ zeros (w - length (take w (drop (seg_start k) enc)))) as ->.
  { unfold seg_bytes, w. destruct k as [|k]; [by rewrite drop_app_length' by by rewrite length_be_of_Z|].
    cbn [Nat.eqb]. do 2 f_equal. cbn [seg_start]. lia. }
  apply list_eq. intros i. rewrite !lookup_take.
  destruct (decide (i < w)%nat); [|done].
  rewrite lookup_drop, lookup_app. rewrite lookup_take by done. rewrite lookup_drop.
  destruct (decide (i < w)%nat) as [_|]; [|done].
  rewrite (lookup_app enc). destruct (enc !! (seg_start k + i)%nat) eqn:E; [done|].
  apply lookup_ge_None in E. rewrite length_take, length_drop. unfold zeros.
  assert (seg_start k ≤ seg_start (S k))%nat by (destruct k; cbn [seg_start]; lia).
  rewrite !lookup_replicate_2 by lia. done.
Qed.

Lemma take_windows {A} (l1 l2 : list A) K :
  (∀ k, (k < K)%nat → take (seg_start (S k) - seg_start k) (drop (seg_start k) l1)
                    = take (seg_start (S k) - seg_start k) (drop (seg_start k) l2)) →
  take (seg_start K) l1 = take (seg_start K) l2.
Proof.
  induction K as [|K IH]; intros Hw; [done|].
  assert (seg_start (S K) = seg_start K + (seg_start (S K) - seg_start K))%nat as ->.
  { destruct K; cbn [seg_start]; lia. }
  rewrite <-!take_take_drop, IH, Hw by (intros; apply Hw; lia) || lia. done.
Qed.

Lemma seg_bytes_inj a b k :
  fr_from_be_bytes (x00 :: seg_bytes a k) = fr_from_be_bytes (x00 :: seg_bytes b k) →
  seg_bytes a k = seg_bytes b k.
Proof.
  unfold fr_from_be_bytes. rewrite !be_to_Z_cons. change (byte_Z x00) with 0.
  rewrite !Z.mul_0_l, !Z.add_0_l. apply fr_from_be_bytes_inj31; apply length_seg_bytes.
Qed.

(** ** Properties *)

(** C40: a buffer decodes to a predicate exactly when it is at most 1024 bytes
    and starts with that predicate's own encoding: decoding inverts encoding,
    every accepted predicate re-encodes to the prefix read, and bytes after
    the last operation are ignored.  The last part departs from the
    specification ([SPEC.md], the serialised predicate) and from the on-chain
    registry ([PetitionRegistry.sol]), which fix the length and refuse longer
    buffers; it is what [decode] does, and is reported as a finding. *)
Theorem decode_accepts_encodings bytes d :
  decode bytes = Ok d ↔
  def_wf d ∧ (length bytes ≤ PREDICATE_BYTES_MAX)%nat ∧
  ∃ e rest, encode d = Ok e ∧ bytes = e ++ rest.
Proof.
  split.
  - apply decode_sound.
  - intros (? & ? & e & rest & ? & ->). by eapply decode_complete.
Qed.

(** On no input does the decoder index out of bounds or panic. *)
Lemma decode_panic_free bytes : no_panic (decode bytes).
Proof.
  unfold no_panic, decode. no_panic; reflect_bools.
  - by eapply decode_tuples_no_panic in H; [|lia].
  - match goal with Hd : decode_tuples _ _ _ _ = Ok ?p |- _ => destruct p as [idx ts];
      apply decode_tuples_spec in Hd as (? & _ & _ & _ & -> & _) end.
    no_panic; reflect_bools.
    + by eapply decode_ops_no_panic in H; [|lia].
    + match goal with Hd : decode_ops _ _ _ _ = Ok ?p |- _ => destruct p end.
      no_panic. by eapply validate_no_panic.
Qed.

(** C39: evaluation succeeds with [b] exactly when the predicate is
    structurally valid and its program, without [Nop]s, is the reverse Polish
    form of one single expression whose Boolean meaning over the tuple table
    is [b]. *)
Theorem evaluate_is_expression d attrs b :
  evaluate d attrs = Ok b ↔
  validate d = Ok tt ∧
  ∃ e, tokens (ops d) = postfix e ∧ (∀ e', tokens (ops d) = postfix e' → e' = e) ∧
       holds (tuples d) attrs e = Some b.
Proof.
  rewrite evaluate_Ok_iff. split.
  - intros (Hv & e & He & Hb). split; [done|]. exists e. split; [done|]. split; [|done].
    intros e' He'. apply postfix_inj. congruence.
  - intros (Hv & e & He & _ & Hb). eauto.
Qed.

(** C38: a predicate that passes the registry's class-binding lookup for
    [class_index] and evaluates to true on an attribute vector forces that
    attribute to be one of the 16-bit class tags that its own binding tuples,
    pushed by its program, name. *)
Theorem class_binding_sound d ci tag attrs :
  def_wf d →
  find_class_binding_operand d ci = Ok tag →
  evaluate d attrs = Ok true →
  ∃ i t, tuples d !! byte_nat i = Some t ∧ TPush i ∈ tokens (ops d) ∧
    loose_binding ci t = true ∧ 0 ≤ binding_operand t < 2 ^ 16 ∧
    attrs !! byte_nat ci = Some (fr_of_Z (binding_operand t)).
Proof.
  intros Hwf Hf%find_class_binding_Bound Hev.
  destruct (bound_pins_attribute _ _ _ Hf Hev) as (i & t & Hlk & Hb & Hpush & Ht).
  assert (tuple_wf t) as Hw by (eapply Forall_lookup_1; eauto).
  destruct (binding_operand_spec _ _ Hw Hb) as (<- & Hc & Hop & Hr).
  exists i, t. apply eval_tuple_eq_true in Ht; [|done].
  unfold fr_from_be_bytes in Ht. rewrite Hop in Ht. done.
Qed.

(** The strict check pins the attribute to the one class tag it is given. *)
Lemma strict_class_binding_sound d ci ct attrs :
  0 ≤ ct < 2 ^ 16 →
  validate_class_binding d ci ct = Ok tt →
  evaluate d attrs = Ok true →
  attrs !! byte_nat ci = Some (fr_of_Z ct).
Proof.
  intros Hct Hv Hev. unfold validate_class_binding in Hv.
  case_match eqn:E; [done|]. rewrite <-E in Hv. inv_ok Hv. destruct a; try done.
  destruct (bound_pins_attribute _ _ _ Ha Hev) as (i & t & Hlk & Hb & Hpush & Ht).
  unfold strict_binding in Hb. reflect_bools.
  match goal with H : bytes_eqb _ _ = true |- _ => apply bytes_eqb_eq in H as Ho end.
  apply eval_tuple_eq_true in Ht; [|done].
  unfold fr_from_be_bytes in Ht. rewrite Ho, be_class_tag_be in Ht by done. congruence.
Qed.

(** Once the class-binding lookup accepts a valid predicate, evaluation
    returns a Boolean on every attribute vector that has the attributes its
    tuples mention: no underflow, no leftover stack, no type error. *)
Lemma bound_predicates_evaluate d ci tag attrs :
  validate d = Ok tt →
  find_class_binding_operand d ci = Ok tag →
  Forall (λ t, byte_nat (claim_index t) < length attrs)%nat (tuples d) →
  ∃ b, evaluate d attrs = Ok b.
Proof.
  intros Hv (e & He & _)%find_class_binding_Bound%taint_Ok_iff Hattrs.
  destruct (holds_total (tuples d) attrs e) as [b Hb].
  - intros i Hi. rewrite <-He in Hi.
    apply elem_of_tokens_push in Hi as (op & Hop & Hcode & <-).
    pose proof (validate_op_of _ _ Hv Hop) as Hvo. unfold validate_op in Hvo.
    rewrite bool_decide_true in Hvo by done. inv_ok Hvo. reflect_bools.
    apply lookup_lt_is_Some in Hvo as [t Ht]. unfold tuple_value. rewrite Ht. cbn.
    destruct (validate_tuple_of _ t Hv) as [k Hk]; [by eapply list_elem_of_lookup_2|].
    destruct (eval_tuple_total _ _ attrs Hk) as [b ->]; [|eauto].
    exact (Forall_lookup_1 _ _ _ _ Hattrs Ht).
  - exists b. apply evaluate_Ok_iff. eauto.
Qed.

(** The canonical scalar decomposition is defined on every encoding within
    the size cap and loses nothing: distinct encodings have distinct scalars. *)
Lemma canonical_scalars_injective e1 e2 s :
  canonical_scalars e1 = Ok s → canonical_scalars e2 = Ok s → e1 = e2.
Proof.
  assert (∀ e s, canonical_scalars e = Ok s → length e ≤ 1024)%nat as Hcap.
  { intros e s' H. unfold canonical_scalars in H. inv_ok H. by reflect_bools. }
  intros H1 H2. pose proof (Hcap _ _ H1) as L1. pose proof (Hcap _ _ H2) as L2.
  rewrite canonical_scalars_spec in H1, H2 by done. rewrite <-H1 in H2.
  apply (inj Ok) in H2 as H.
  assert (∀ k, k < SEGMENTS → seg_bytes e2 k = seg_bytes e1 k)%nat as Hseg.
  { intros k Hk. apply seg_bytes_inj.
    apply (f_equal (λ l, l !! k)) in H. rewrite !list_lookup_fmap in H.
    rewrite lookup_seq_lt in H by done. by apply (inj Some) in H. }
  assert (length e2 = length e1) as Hlen.
  { specialize (Hseg 0%nat ltac:(unfold SEGMENTS; lia)). unfold seg_bytes in Hseg.
    apply (f_equal (take 2)) in Hseg.
    rewrite !take_app_length' in Hseg by by rewrite length_be_of_Z.
    apply (f_equal be_to_Z) in Hseg.
    rewrite !be_to_of_Z_small in Hseg by (change (256 ^ Z.of_nat 2) with 65536; lia). lia. }
  pose proof (take_windows (e2 ++ zeros (seg_start SEGMENTS))
    (e1 ++ zeros (seg_start SEGMENTS)) SEGMENTS) as Hw.
  apply (f_equal (take (length e1))) in Hw.
  - rewrite !take_take, (Nat.min_l (length e1)) in Hw
      by (change (seg_start SEGMENTS) with 1052%nat; lia).
    rewrite <-Hlen, take_app_length in Hw at 1. by rewrite take_app_length in Hw.
  - intros k Hk. rewrite <-!seg_bytes_content, Hseg by done. done.
Qed.

(** ** Concrete predicates *)
Definition eq_tuple (ci : byte) (ct : ClassTag) : Tuple :=
  mk_tuple ci (class_tag_be ct) Int64 Eq_.
Definition push (i : byte) : Op := mk_op PushTuple i.
Definition op0 (c : OpCode) : Op := mk_op c x00.

(** [attr[2] == 840], the smallest predicate the registry accepts. *)
Definition sample_def : PredicateDef := mk_def [eq_tuple x02 840] [push x00].
Definition sample_attrs : list Fr := map fr_of_Z [7; 1; 840; 30].

(** [attr[2] == 840] is in the table but the program pushes only
    [attr[2] == 826]. *)
Definition stray_def : PredicateDef :=
  mk_def [eq_tuple x02 840; eq_tuple x02 826] [push x01].

(** The class-binding lookup answers with the operand of the first
    matching tuple even when the program never pushes it: [stray_def] is
    reported as bound to class 840, while it holds only for class 826. *)
Lemma binding_operand_may_be_unused :
  validate stray_def = Ok tt ∧
  find_class_binding_operand stray_def x02 = Ok 840 ∧
  ∀ attrs, evaluate stray_def attrs = Ok true → attrs !! 2%nat = Some (fr_of_Z 826).
Proof.
  split; [reflexivity|]. split; [reflexivity|]. intros attrs H.
  apply evaluate_Ok_iff in H as (_ & e & He & Hh).
  assert (e = PLeaf x01) as -> by by apply postfix_inj.
  unfold holds, tuple_value in Hh. cbn -[eval_tuple eq_tuple] in Hh.
  change (byte_nat x01) with 1%nat in Hh. cbn -[eval_tuple eq_tuple] in Hh.
  destruct (eval_tuple (eq_tuple x02 826) attrs) as [[]| |] eqn:E; try done.
  by apply eval_tuple_eq_true in E.
Qed.

Lemma class_binding_sound_witness :
  def_wf sample_def ∧ find_class_binding_operand sample_def x02 = Ok 840 ∧
  evaluate sample_def sample_attrs = Ok true ∧
  ∃ i t, tuples sample_def !! byte_nat i = Some t ∧ TPush i ∈ tokens (ops sample_def) ∧
    loose_binding x02 t = true ∧ 0 ≤ binding_operand t < 2 ^ 16 ∧
    sample_attrs !! byte_nat x02 = Some (fr_of_Z (binding_operand t)).
Proof.
  assert (def_wf sample_def) as Hwf by (repeat constructor).
  split; [done|]. split; [reflexivity|]. split; [vm_compute; reflexivity|].
  apply (class_binding_sound sample_def x02 840 sample_attrs Hwf);
    vm_compute; reflexivity.
Defined.

