(* ===== verification/Poseidon.v ===== *)
(** * Hashing

    Model of [poseidon.rs].  The permutation, the sponge and the domain
    separated hashes are translated; what the crate takes from other packages
    is a parameter, the class [Crypto]: the circom Poseidon instances of
    [light_poseidon], its BN254 [t = 5] round constants, SHA-256 and
    Keccak-256.  [CryptoLaws] states what is documented of them: the digests
    are 32 bytes long and the constants have the advertised shape. *)

From Stdlib Require Import ZArith Lia Bool.
From stdpp Require Import base tactics list strings numbers.
From S2P Require Import Prelude Field Types.

(** [light_poseidon::PoseidonParameters]. *)
Record PoseidonParameters : Type := mk_params {
  full_rounds : nat;
  partial_rounds : nat;
  alpha : nat;
  ark : list Fr;
  mds : list (list Fr);
}.

Class Crypto : Type := {
  (** [Poseidon::new_circom(inputs.len()).hash(inputs)]. *)
  poseidon_circom : list Fr → Fr;
  bn254_t5_params : PoseidonParameters;
  sha256 : list byte → list byte;
  keccak256 : list byte → list byte;
}.

Class CryptoLaws (C : Crypto) : Prop := {
  length_sha256 : ∀ m, length (sha256 m) = 32%nat;
  length_keccak256 : ∀ m, length (keccak256 m) = 32%nat;
  t5_ark : length (ark bn254_t5_params) =
    (5 * (full_rounds bn254_t5_params + partial_rounds bn254_t5_params))%nat;
  t5_mds : length (mds bn254_t5_params) = 5%nat ∧
    Forall (λ r, length r = 5%nat) (mds bn254_t5_params);
}.

Definition ascii_bytes (s : string) : list byte := String.list_byte_of_string s.

Section poseidon.
Context `{C : Crypto}.

Definition poseidon2 (a b : Fr) : Fr := poseidon_circom [a; b].
Definition poseidon3 (a b c : Fr) : Fr := poseidon_circom [a; b; c].
Definition poseidon4 (a b c d : Fr) : Fr := poseidon_circom [a; b; c; d].
Definition poseidon5 (inputs : list Fr) : Fr := poseidon_circom inputs.

(** The variable-width hash asserts its width. *)
Definition poseidon_n {E} (inputs : list Fr) : outcome E Fr :=
  assert_ ((2 <=? length inputs) && (length inputs <=? 12))%nat;;
  Ok (poseidon_circom inputs).

(** ** The [t = 5] permutation *)

(** Reads of the constant tables; in range under [t5_ark] and [t5_mds]. *)
Definition fr_at (l : list Fr) (i : nat) : Fr := default fr_zero (l !! i).
Definition row_at (m : list (list Fr)) (i : nat) : list Fr := default [] (m !! i).

Definition add_round_key (round : nat) (state : list Fr) : list Fr :=
  imap (λ i s, fr_add s (fr_at (ark bn254_t5_params) (round * 5 + i))) state.

Definition apply_mds_t5 (state : list Fr) : list Fr :=
  map (λ i, foldl (λ acc j, fr_add acc
                     (fr_mul (fr_at state j) (fr_at (row_at (mds bn254_t5_params) i) j)))
              fr_zero (seq 0 5)) (seq 0 5).

Definition pow_alpha (s : Fr) : Fr := fr_pow s (alpha bn254_t5_params).

Definition full_round (state : list Fr) (round : nat) : list Fr :=
  apply_mds_t5 (map pow_alpha (add_round_key round state)).

Definition partial_round (state : list Fr) (round : nat) : list Fr :=
  apply_mds_t5 (match add_round_key round state with
                | s0 :: rest => pow_alpha s0 :: rest
                | [] => []
                end).

Definition permute_t5 (state : list Fr) : list Fr :=
  let half := (full_rounds bn254_t5_params / 2)%nat in
  let partial := partial_rounds bn254_t5_params in
  let total := (full_rounds bn254_t5_params + partial)%nat in
  let state := foldl full_round state (seq 0 half) in
  let state := foldl partial_round state (seq half partial) in
  foldl full_round state (seq (half + partial) (total - (half + partial))).

(** ** The sponge: rate 4, capacity 1 *)
Definition with_domain (domain : Fr) : list Fr :=
  [domain; fr_zero; fr_zero; fr_zero; fr_zero].

(** The 0x80 marker, then zeros up to a multiple of the rate. *)
Definition pad (message : list Fr) : list Fr :=
  let p := message ++ [fr_of_Z 0x80] in
  p ++ replicate ((4 - length p mod 4) mod 4) fr_zero.

Definition absorb_chunk (state : list Fr) (chunk : list Fr) : list Fr :=
  permute_t5 (imap (λ i s, match i with
                           | O => s
                           | S j => match chunk !! j with
                                    | Some x => fr_add s x
                                    | None => s
                                    end
                           end) state).

Definition absorb (state : list Fr) (message : list Fr) : list Fr :=
  foldl absorb_chunk state (chunks 4 (pad message)).

(** Squeezing emits the rate lanes and permutes only when more are due. *)
Fixpoint squeeze_fuel (fuel : nat) (state : list Fr) (n : nat) : list Fr * list Fr :=
  match fuel with
  | O => ([], state)
  | S fuel' =>
      if (n <=? 4)%nat then (take n (drop 1 state), state)
      else
        let '(out, state') := squeeze_fuel fuel' (permute_t5 state) (n - 4) in
        (take 4 (drop 1 state) ++ out, state')
  end.
Definition squeeze (state : list Fr) (n : nat) : list Fr := (squeeze_fuel (S n) state n).1.

(** ** Domain tags *)
Definition domain_nullifier : Fr := fr_of_Z 1.
Definition domain_identity_tag : Fr := fr_of_Z 2.
Definition domain_leaf : Fr := fr_of_Z 3.
Definition domain_fsrt_prg : Fr := fr_of_Z 4.
Definition domain_predicate : Fr := fr_of_Z 5.
Definition domain_attr : Fr := fr_of_Z 6.
Definition domain_batch_snark : Fr := fr_of_Z 7.
Definition domain_petition : Fr := fr_of_Z 8.
Definition domain_resolution_snark : Fr := fr_of_Z 9.

(** ** Domain separated hashes *)

(** Six inputs, within the range [poseidon_n] asserts. *)
Definition hash_nullifier (v_slot petition_id class_index class_tag identity_secret : Fr)
  : Fr :=
  poseidon_circom
    [domain_nullifier; v_slot; petition_id; class_index; class_tag; identity_secret].

Definition hash_identity_tag (v_slot petition_id : Fr) : Fr :=
  poseidon3 domain_identity_tag v_slot petition_id.

Definition hash_leaf (nullifier class_tag : Fr) : Fr :=
  poseidon3 domain_leaf nullifier class_tag.

Definition hash_merkle_node (left right : Fr) : Fr := poseidon2 left right.

Definition hash_attr {E} (attr_vector : list Fr) (chain_root : Fr) (attr_version : Z)
  (identity_secret : Fr) : outcome E Fr :=
  assert_ (length attr_vector =? 4)%nat;;
  let h1 := poseidon5 (domain_attr :: attr_vector) in
  Ok (poseidon4 h1 chain_root (fr_of_Z attr_version) identity_secret).

Definition hash_predicate (canonical_predicate_def : list Fr) (petition_id salt : Fr)
  : Fr :=
  let acc := foldl poseidon2 domain_predicate canonical_predicate_def in
  poseidon2 (poseidon2 acc petition_id) salt.

(** One ratchet step: the value of the slot and the next seed. *)
Definition fsrt_prg_step (s_i : Fr) : Fr * Fr :=
  let out := squeeze (absorb (with_domain domain_fsrt_prg) [s_i]) 2 in
  (fr_at out 0, fr_at out 1).

(** The Keccak input of a petition identifier, field after field. *)
Definition petition_preimage (chain_id : Z) (registry_address organizer : Address)
  (s_at_registration : Z) (predicate_hash_pre_id : Bytes32) (close_at_block : Z)
  : list byte :=
  keccak256 (ascii_bytes "RCP/petition_id/v1") ++ be_of_Z 8 chain_id ++ registry_address
    ++ organizer ++ be_of_Z 4 s_at_registration ++ predicate_hash_pre_id
    ++ be_of_Z 8 close_at_block.

Definition derive_petition_id (chain_id : Z) (registry_address organizer : Address)
  (s_at_registration : Z) (predicate_hash_pre_id : Bytes32) (close_at_block : Z)
  : PetitionId :=
  splice (keccak256 (petition_preimage chain_id registry_address organizer
                       s_at_registration predicate_hash_pre_id close_at_block))
    0 [x00].

(** ** Shape lemmas *)
Lemma hash_nullifier_poseidon_n {E} v p ci ct s :
  @poseidon_n E [domain_nullifier; v; p; ci; ct; s] = Ok (hash_nullifier v p ci ct s).
Proof. reflexivity. Qed.

Lemma length_apply_mds state : length (apply_mds_t5 state) = 5%nat.
Proof. done. Qed.

Lemma length_permute state : length state = 5%nat → length (permute_t5 state) = 5%nat.
Proof.
  assert (∀ (f : list Fr → nat → list Fr) l s,
    (∀ s k, length (f s k) = 5%nat) → length s = 5%nat → length (foldl f s l) = 5%nat) as Hf.
  { intros f l; induction l as [|k l IH]; intros s Hfl Hs; cbn; auto. }
  intros Hs. unfold permute_t5. repeat (apply Hf; [done|]). done.
Qed.

Lemma fsrt_prg_step_eq s :
  fsrt_prg_step s =
  let st := permute_t5 [domain_fsrt_prg; fr_add fr_zero s; fr_add fr_zero (fr_of_Z 0x80);
                        fr_add fr_zero fr_zero; fr_add fr_zero fr_zero] in
  (fr_at st 1, fr_at st 2).
Proof.
  unfold fsrt_prg_step, absorb, pad. cbn [length app Nat.modulo].
  change (chunks 4 _) with [[s; fr_of_Z 128; fr_zero; fr_zero]]. cbn [foldl].
  unfold absorb_chunk, with_domain. cbn [imap lookup list_lookup].
  set (st := permute_t5 _). unfold squeeze. cbn.
  assert (length st = 5%nat) as Hl by by apply length_permute.
  by destruct st as [|a [|b [|c st]]].
Qed.

Lemma length_squeeze_fuel fuel state n :
  length state = 5%nat → (n < fuel)%nat → length (squeeze_fuel fuel state n).1 = n.
Proof.
  revert state n; induction fuel as [|fuel IH]; intros state n Hs Hn; [lia|].
  cbn [squeeze_fuel]. case_match eqn:E; reflect_bools.
  - cbn. rewrite length_take, length_drop. lia.
  - specialize (IH (permute_t5 state) (n - 4)%nat).
    destruct (squeeze_fuel fuel (permute_t5 state) (n - 4)) as [out st]. cbn in *.
    rewrite length_app, length_take, length_drop, IH by (try apply length_permute; lia). lia.
Qed.

(** Fuel [n + 1] is enough: a squeeze of [n] returns [n] scalars. *)
Lemma length_squeeze state n : length state = 5%nat → length (squeeze state n) = n.
Proof. intros. unfold squeeze. apply length_squeeze_fuel; [done|lia]. Qed.

Context {L : CryptoLaws C}.

Lemma length_derive_petition_id c r o s h b :
  length (derive_petition_id c r o s h b) = 32%nat.
Proof. unfold derive_petition_id. rewrite length_splice; rewrite length_keccak256; cbn; lia. Qed.

(** The masked identifier is below the field modulus, so it survives the trip
    through [Fr] that the public inputs make. *)
Lemma petition_id_canonical c r o s h b :
  let id := derive_petition_id c r o s h b in
  fr_to_be_bytes (fr_from_be_bytes id) = id.
Proof.
  cbn zeta. pose proof (length_derive_petition_id c r o s h b) as Hl.
  apply fr_to_from_be_bytes; [done|]. unfold derive_petition_id in *.
  set (k := keccak256 _) in *. change (splice k 0 [x00]) with (x00 :: drop 1 k) in *.
  cbn [length] in Hl. injection Hl as Hl.
  rewrite be_to_Z_cons. change (byte_Z x00) with 0.
  pose proof (be_to_Z_range (drop 1 k)) as R. rewrite Hl in R.
  assert (256 ^ Z.of_nat 31 < fr_modulus) by done. lia.
Qed.

(** Fixed-width fields: the Keccak preimage determines the registration. *)
Lemma petition_preimage_inj c1 r1 o1 s1 h1 b1 c2 r2 o2 s2 h2 b2 :
  length r1 = length r2 → length o1 = length o2 → length h1 = length h2 →
  fits 64 c1 = true → fits 64 c2 = true → fits 32 s1 = true → fits 32 s2 = true →
  fits 64 b1 = true → fits 64 b2 = true →
  petition_preimage c1 r1 o1 s1 h1 b1 = petition_preimage c2 r2 o2 s2 h2 b2 →
  c1 = c2 ∧ r1 = r2 ∧ o1 = o2 ∧ s1 = s2 ∧ h1 = h2 ∧ b1 = b2.
Proof.
  unfold petition_preimage, fits. intros Hr Ho Hh. intros. reflect_bools.
  match goal with H : _ ++ _ = _ ++ _ |- _ => rename H into Heq end.
  apply app_inv_head in Heq.
  apply app_inj_1 in Heq as [Hc Heq]; [|by rewrite !length_be_of_Z].
  apply app_inj_1 in Heq as [-> Heq]; [|done].
  apply app_inj_1 in Heq as [-> Heq]; [|done].
  apply app_inj_1 in Heq as [Hs Heq]; [|by rewrite !length_be_of_Z].
  apply app_inj_1 in Heq as [-> Hb]; [|done].
  apply (f_equal be_to_Z) in Hc, Hs, Hb.
  rewrite !be_to_of_Z_small in Hc by (split; [done|]; by change (256 ^ Z.of_nat 8) with (2 ^ 64)).
  rewrite !be_to_of_Z_small in Hs by (split; [done|]; by change (256 ^ Z.of_nat 4) with (2 ^ 32)).
  rewrite !be_to_of_Z_small in Hb by (split; [done|]; by change (256 ^ Z.of_nat 8) with (2 ^ 64)).
  done.
Qed.
End poseidon.

(** ** A concrete instance

    Small arithmetic stand-ins for the hash functions, on which the theorems
    of the development are evaluated. *)
Module Toy.
Definition toy_poseidon (inputs : list Fr) : Fr :=
  foldl (λ acc x, fr_of_Z (fr_val acc * 5 + fr_val x + 3))
    (fr_of_Z (Z.of_nat (length inputs))) inputs.

(** A checksum of the first 640 bytes. *)
Definition toy_digest (salt : Z) (m : list byte) : list byte :=
  be_of_Z 32 (foldl (λ acc b, Z.land (acc * 257 + byte_Z b + 1) (2 ^ 61 - 1)) salt
                (take 640 m)).

Definition toy_params : PoseidonParameters :=
  mk_params 2 0 1 (map (λ k, fr_of_Z (Z.of_nat k * 7 + 3)) (seq 0 10))
    (map (λ i, map (λ j, fr_of_Z (Z.of_nat (i * i + j + 1))) (seq 0 5)) (seq 0 5)).

#[export] Instance toy_crypto : Crypto := {|
  poseidon_circom := toy_poseidon;
  bn254_t5_params := toy_params;
  sha256 := toy_digest 1;
  keccak256 := toy_digest 2;
|}.

#[export] Instance toy_laws : CryptoLaws toy_crypto.
Proof.
  constructor; [intros; apply length_be_of_Z|intros; apply length_be_of_Z|done|].
  split; [done|]. apply Forall_fmap, list.Forall_forall. done.
Qed.
End Toy.
