(* ===== verification/Merkle.v ===== *)
(** * Binary Merkle trees

    The reference tree [mroot] over a leaf function, and the path
    computation [binary_merkle_root] of [circuits/lib/src/merkle.nr] that
    every path of the crate is checked with.  A path read off a tree computes
    its root, replacing the leaf under a path computes the root of the updated
    tree, and two openings of one root agree or exhibit, executably, a
    collision of the node hash. *)

From Stdlib Require Import ZArith Lia Bool.
From stdpp Require Import base tactics list numbers.
From S2P Require Import Prelude Field.

(** ** Index arithmetic *)

(** The bits of [u32_to_bits_24] and of the [indices] vectors, low bit first. *)
Fixpoint index_bits (d : nat) (i : Z) : list bool :=
  match d with
  | O => []
  | S d' => Z.odd i :: index_bits d' (i / 2)
  end.

Lemma length_index_bits d i : length (index_bits d i) = d.
Proof. revert i; induction d; intros; cbn; auto. Qed.

Lemma sibling_index i : 0 ≤ i → Z.lxor i 1 = if Z.odd i then i - 1 else i + 1.
Proof.
  intros Hi. rewrite (Z.div2_odd i) at 1. set (q := Z.div2 i).
  assert (0 ≤ q) by (unfold q; rewrite Z.div2_nonneg; lia).
  assert (i = 2 * q + Z.b2z (Z.odd i)) as Heq by apply Z.div2_odd.
  destruct (Z.odd i) eqn:Ho; cbn [Z.b2z] in *.
  - transitivity (2 * q); [|lia]. destruct q; [done| |lia]. done.
  - transitivity (2 * q + 1); [|lia]. rewrite Z.add_0_r. destruct q; [done| |lia]. done.
Qed.

Lemma odd_div2 i : 0 ≤ i → i = 2 * (i / 2) + (if Z.odd i then 1 else 0).
Proof.
  intros Hi. rewrite (Z.div2_odd i) at 1. rewrite Z.div2_div. by destruct (Z.odd i).
Qed.

Lemma div_pow_succ i (l : nat) : i / 2 ^ Z.of_nat (S l) = i / 2 / 2 ^ Z.of_nat l.
Proof. rewrite Nat2Z.inj_succ, Z.pow_succ_r, Z.div_div by lia. done. Qed.

Lemma div_pow_succ' i (l : nat) : i / 2 ^ Z.of_nat (S l) = i / 2 ^ Z.of_nat l / 2.
Proof.
  rewrite Nat2Z.inj_succ, Z.pow_succ_r, (Z.mul_comm 2), <-Z.div_div by lia. done.
Qed.

Lemma index_bits_inj d i j :
  0 ≤ i < 2 ^ Z.of_nat d → 0 ≤ j < 2 ^ Z.of_nat d →
  index_bits d i = index_bits d j → i = j.
Proof.
  revert i j; induction d as [|d IH]; intros i j Hi Hj; [cbn in *; lia|].
  rewrite Nat2Z.inj_succ, Z.pow_succ_r in Hi, Hj by lia. cbn. intros [= Ho Hb].
  rewrite (odd_div2 i), (odd_div2 j), Ho by lia. f_equal. f_equal.
  apply IH; [..|done]; split;
    [apply Z.div_pos; lia|apply Z.div_lt_upper_bound; lia
    |apply Z.div_pos; lia|apply Z.div_lt_upper_bound; lia].
Qed.

(** ** Pointwise update of a leaf function *)
Definition fupd {A} (f : Z → A) (i : Z) (x : A) : Z → A :=
  λ j, if decide (j = i) then x else f j.

Lemma fupd_eq {A} (f : Z → A) i x : fupd f i x i = x.
Proof. unfold fupd. by rewrite decide_True. Qed.
Lemma fupd_ne {A} (f : Z → A) i j x : j ≠ i → fupd f i x j = f j.
Proof. intros. unfold fupd. by rewrite decide_False. Qed.

Section merkle.
Context (H : Fr → Fr → Fr).

(** The node of level [d] above the leaves, at position [i]. *)
Fixpoint mroot (d : nat) (f : Z → Fr) (i : Z) : Fr :=
  match d with
  | O => f i
  | S d' => H (mroot d' f (2 * i)) (mroot d' f (2 * i + 1))
  end.

(** [binary_merkle_root] at full depth: bit [true] puts the sibling left. *)
Fixpoint binary_merkle_root (node : Fr) (indices : list bool) (siblings : list Fr) : Fr :=
  match indices, siblings with
  | b :: indices', s :: siblings' =>
      binary_merkle_root (if b then H s node else H node s) indices' siblings'
  | _, _ => node
  end.

(** The siblings met on the way up from position [i] of [level]. *)
Fixpoint path_siblings (d : nat) (node : nat → Z → Fr) (level : nat) (i : Z) : list Fr :=
  match d with
  | O => []
  | S d' => node level (Z.lxor i 1) :: path_siblings d' node (S level) (i / 2)
  end.

Lemma length_path_siblings d node level i : length (path_siblings d node level i) = d.
Proof. revert level i; induction d; intros; cbn; auto. Qed.

Lemma mroot_ext d f g i :
  0 ≤ i → (∀ k, 0 ≤ k → k / 2 ^ Z.of_nat d = i → f k = g k) → mroot d f i = mroot d g i.
Proof.
  revert i; induction d as [|d IH]; intros i Hi Hfg; cbn [mroot].
  { apply Hfg; [done|]. by rewrite Z.div_1_r. }
  rewrite (IH (2 * i)), (IH (2 * i + 1)); [done|lia| |lia|];
    intros k Hk Hkd; apply Hfg; try done; rewrite div_pow_succ', Hkd.
  - symmetry. apply (Z.div_unique _ _ _ 1); lia.
  - symmetry. apply (Z.div_unique _ _ _ 0); lia.
Qed.

Lemma path_siblings_ext d n1 n2 level i :
  0 ≤ i → (∀ l, (level ≤ l < level + d)%nat →
     let j := Z.lxor (i / 2 ^ Z.of_nat (l - level)) 1 in n1 l j = n2 l j) →
  path_siblings d n1 level i = path_siblings d n2 level i.
Proof.
  revert level i; induction d as [|d IH]; intros level i Hi Hn; cbn [path_siblings]; [done|].
  f_equal.
  - specialize (Hn level ltac:(lia)). cbn zeta in Hn. rewrite Nat.sub_diag, Z.div_1_r in Hn. done.
  - apply IH; [by apply Z.div_pos|]. intros l Hl. cbn zeta.
    specialize (Hn l ltac:(lia)). cbn zeta in Hn.
    replace (l - level)%nat with (S (l - S level)) in Hn by lia.
    by rewrite div_pow_succ in Hn.
Qed.

(** Along the path, a node function that satisfies the tree equations is
    recomputed from the bottom. *)
Lemma path_computes_node d node level i :
  0 ≤ i →
  (∀ l j, (level ≤ l < level + d)%nat → 0 ≤ j →
     node (S l) j = H (node l (2 * j)) (node l (2 * j + 1))) →
  binary_merkle_root (node level i) (index_bits d i) (path_siblings d node level i)
  = node (level + d)%nat (i / 2 ^ Z.of_nat d).
Proof.
  revert level i; induction d as [|d IH]; intros level i Hi Heq;
    cbn [index_bits path_siblings binary_merkle_root].
  { by rewrite Nat.add_0_r, Z.div_1_r. }
  assert ((if Z.odd i then H (node level (Z.lxor i 1)) (node level i)
           else H (node level i) (node level (Z.lxor i 1))) = node (S level) (i / 2)) as ->.
  { rewrite (Heq level (i / 2)) by (try apply Z.div_pos; lia).
    rewrite sibling_index by done. pose proof (odd_div2 i Hi) as E.
    destruct (Z.odd i); do 2 f_equal; lia. }
  rewrite IH; [|by apply Z.div_pos|intros; apply Heq; lia].
  rewrite div_pow_succ. f_equal. lia.
Qed.

Lemma path_computes_root d f i :
  0 ≤ i →
  binary_merkle_root (f i) (index_bits d i) (path_siblings d (λ l, mroot l f) 0 i)
  = mroot d f (i / 2 ^ Z.of_nat d).
Proof. intros Hi. by apply (path_computes_node d (λ l, mroot l f) 0). Qed.

(** The siblings of a position do not depend on the leaf at it. *)
Lemma path_siblings_fupd d f i x :
  0 ≤ i →
  path_siblings d (λ l, mroot l (fupd f i x)) 0 i = path_siblings d (λ l, mroot l f) 0 i.
Proof.
  intros Hi. apply path_siblings_ext; [done|]. intros l Hl. cbn zeta.
  rewrite Nat.sub_0_r.
  assert (0 ≤ i / 2 ^ Z.of_nat l) as Hd by (apply Z.div_pos; lia).
  rewrite sibling_index by done.
  pose proof (odd_div2 _ Hd). pose proof (Z.div_pos (i / 2 ^ Z.of_nat l) 2 Hd).
  apply mroot_ext; [destruct (Z.odd _); lia|].
  intros k Hk Hkl. apply fupd_ne. intros ->. destruct (Z.odd _); lia.
Qed.

Lemma path_computes_update d f i x :
  0 ≤ i →
  binary_merkle_root x (index_bits d i) (path_siblings d (λ l, mroot l f) 0 i)
  = mroot d (fupd f i x) (i / 2 ^ Z.of_nat d).
Proof.
  intros Hi. rewrite <-(path_siblings_fupd d f i x Hi).
  rewrite <-(fupd_eq f i x) at 1. by apply path_computes_root.
Qed.

(** ** Openings bind up to collisions *)
Definition collision (p q : Fr * Fr) : Prop :=
  p ≠ q ∧ H p.1 p.2 = H q.1 q.2.

(** The first level at which two openings hash different pairs to one node. *)
Fixpoint path_collision (n n' : Fr) (indices : list bool) (s s' : list Fr)
  : option ((Fr * Fr) * (Fr * Fr)) :=
  match indices, s, s' with
  | b :: indices', x :: t, x' :: t' =>
      let p := if b then (x, n) else (n, x) in
      let p' := if b then (x', n') else (n', x') in
      if decide (p ≠ p' ∧ H p.1 p.2 = H p'.1 p'.2) then Some (p, p')
      else path_collision (H p.1 p.2) (H p'.1 p'.2) indices' t t'
  | _, _, _ => None
  end.

Lemma path_collision_sound n n' indices s s' p p' :
  path_collision n n' indices s s' = Some (p, p') → collision p p'.
Proof.
  revert n n' s s'; induction indices as [|b indices IH]; intros n n' [|x t] [|x' t'];
    cbn [path_collision]; try done.
  case_decide as Hd; [|apply IH]. intros [= <- <-]. exact Hd.
Qed.

(** Two openings of one root at one position are equal, siblings included,
    unless [path_collision] finds a collision. *)
Lemma opening_binding n n' indices s s' :
  length s = length indices → length s' = length indices →
  binary_merkle_root n indices s = binary_merkle_root n' indices s' →
  path_collision n n' indices s s' = None → n = n' ∧ s = s'.
Proof.
  revert n n' s s'; induction indices as [|b indices IH]; intros n n' [|x t] [|x' t'];
    cbn [length binary_merkle_root path_collision]; try done.
  intros [= Hl] [= Hl'] Hr. case_decide as Hd; [done|]. intros Hn.
  destruct b; cbn [fst snd] in *.
  - apply IH in Hr as [Hh ->]; try done. destruct (decide ((x, n) = (x', n'))); naive_solver.
  - apply IH in Hr as [Hh ->]; try done. destruct (decide ((n, x) = (n', x'))); naive_solver.
Qed.
End merkle.
