(* ===== verification/Imt.v ===== *)
(** * The indexed Merkle tree

    Model of [imt.rs], of the port types of [ports/imt.rs] and of the
    insertion circuit [circuits/lib/src/imt.nr] that consumes the witnesses.
    The state is the code's own: the vector of linked leaves, one sparse map
    of nodes per level and the table of empty subtrees.

    The invariant [wf] says that the sparse nodes satisfy the tree equations
    over the leaf hashes and that the leaves form a sorted linked list.  It
    is established by [new] and kept by [insert]; under it [insert] is
    insertion into a set, never reports a broken list, and its witness is
    accepted by the circuit. *)

From Stdlib Require Import ZArith Lia Bool.
From stdpp Require Import base tactics list gmap strings numbers.
From S2P Require Import Prelude Field Types Poseidon Merkle.

(** ** Port types *)
Record ImtLeaf : Type := mk_imt_leaf {
  leaf_value : Bytes32;
  leaf_next_index : Z;
  leaf_next_value : Bytes32;
}.
#[export] Instance ImtLeaf_eq_dec : EqDecision ImtLeaf.
Proof. solve_decision. Defined.

Definition ImtLeaf_ZERO : ImtLeaf := mk_imt_leaf (zeros 32) 0 (zeros 32).
Definition ImtLeaf_is_zero (l : ImtLeaf) : bool := bool_decide (l = ImtLeaf_ZERO).

Record ImtPath : Type := mk_imt_path {
  imt_siblings : list Bytes32;
  imt_indices : list byte;
}.

Record ImtMembership : Type := mk_imt_membership {
  mem_leaf : ImtLeaf;
  mem_leaf_index : Z;
  mem_path : ImtPath;
}.

Record ImtNonMembership : Type := mk_imt_non_membership {
  nm_low_leaf : ImtLeaf;
  nm_low_leaf_index : Z;
  nm_low_leaf_path : ImtPath;
}.

Record ImtInsertWitness : Type := mk_imt_insert_witness {
  iw_low_leaf_before : ImtLeaf;
  iw_low_leaf_after : ImtLeaf;
  iw_low_leaf_index : Z;
  iw_low_leaf_path : ImtPath;
  iw_new_leaf : ImtLeaf;
  iw_new_leaf_index : Z;
  iw_new_leaf_path : ImtPath;
  iw_new_root : Bytes32;
}.

(** ** The engine *)
Record InternalLeaf : Type := mk_internal_leaf {
  il_value : Fr;
  il_next_index : Z;
  il_next_value : Fr;
}.

Definition InternalLeaf_empty : InternalLeaf := mk_internal_leaf fr_zero 0 fr_zero.

Definition to_wire (l : InternalLeaf) : ImtLeaf :=
  mk_imt_leaf (fr_to_be_bytes (il_value l)) (il_next_index l)
    (fr_to_be_bytes (il_next_value l)).

(** [HashMap<u64, Fr>], one per level. *)
Abbreviation Tree := (list (gmap Z Fr)).

Record IndexedMerkleTree : Type := mk_imt {
  imt_leaves : list InternalLeaf;
  imt_tree : Tree;
  imt_empty_subtree : list Fr;
}.

(** [i as u32]. *)
Definition as_u32 (i : nat) : Z := Z.of_nat i mod 2 ^ 32.

(** [self.tree[level].get(&idx).copied().unwrap_or(self.empty_subtree[level])];
    both tables have [IMT_DEPTH + 1] levels ([wf_levels]). *)
Definition node (es : list Fr) (tree : Tree) (level : nat) (i : Z) : Fr :=
  match tree !! level ≫= (.!! i) with
  | Some h => h
  | None => fr_at es level
  end.

(** [self.tree[level].insert(i, h)]. *)
Definition put_node (tree : Tree) (level : nat) (i : Z) (h : Fr) : Tree :=
  alter (insert i h) level tree.

Section imt.
Context `{C : Crypto}.

Definition InternalLeaf_hash (l : InternalLeaf) : Fr :=
  poseidon4 (il_value l) (fr_of_Z (il_next_index l)) (il_next_value l) (fr_of_Z 0).

(** The table of [compute_empty_subtree], from level [h] on. *)
Fixpoint empty_levels (n : nat) (h : Fr) : list Fr :=
  match n with
  | O => [h]
  | S n' => h :: empty_levels n' (hash_merkle_node h h)
  end.
Definition compute_empty_subtree : list Fr :=
  empty_levels IMT_DEPTH
    (poseidon4 (fr_of_Z 0) (fr_of_Z 0) (fr_of_Z 0) (fr_of_Z 0)).

(** The loop of [set_leaf_hash] from [level] with [n] levels to go. *)
Fixpoint rehash (es : list Fr) (n level : nat) (idx : Z) (tree : Tree) : Tree :=
  match n with
  | O => tree
  | S n' =>
      let me := node es tree level idx in
      let sib := node es tree level (Z.lxor idx 1) in
      let '(left_, right_) := if Z.even idx then (me, sib) else (sib, me) in
      let parent_idx := idx / 2 in
      let parent := hash_merkle_node left_ right_ in
      rehash es n' (S level) parent_idx (put_node tree (S level) parent_idx parent)
  end.

Definition set_leaf_hash (t : IndexedMerkleTree) (i : Z) (h : Fr) : IndexedMerkleTree :=
  mk_imt (imt_leaves t)
    (rehash (imt_empty_subtree t) IMT_DEPTH 0 i (put_node (imt_tree t) 0 i h))
    (imt_empty_subtree t).

Definition imt_new : IndexedMerkleTree :=
  set_leaf_hash
    (mk_imt [InternalLeaf_empty] (replicate (S IMT_DEPTH) ∅) compute_empty_subtree)
    0 (InternalLeaf_hash InternalLeaf_empty).

Definition root_fr (t : IndexedMerkleTree) : Fr :=
  node (imt_empty_subtree t) (imt_tree t) IMT_DEPTH 0.

(** The loop of [path_for]: siblings and direction bits, bottom up. *)
Fixpoint path_loop (es : list Fr) (tree : Tree) (n level : nat) (idx : Z)
  : list Bytes32 * list byte :=
  match n with
  | O => ([], [])
  | S n' =>
      let sibling := node es tree level (Z.lxor idx 1) in
      let '(ss, is_) := path_loop es tree n' (S level) (idx / 2) in
      (fr_to_be_bytes sibling :: ss, byte_of_Z (idx mod 2) :: is_)
  end.
Definition path_for (t : IndexedMerkleTree) (i : Z) : ImtPath :=
  let '(siblings, indices) :=
    path_loop (imt_empty_subtree t) (imt_tree t) IMT_DEPTH 0 i in
  mk_imt_path siblings indices.

Definition is_low (leaf : InternalLeaf) (target : Fr) : bool :=
  fr_ltb (il_value leaf) target
  && (fr_ltb target (il_next_value leaf) || fr_eqb (il_next_value leaf) (fr_of_Z 0)).

(** The scan keeps the last low leaf and stops at the value itself. *)
Definition find_low_leaf_index (t : IndexedMerkleTree) (target : Fr)
  : outcome ImtError Z :=
  low_idx ← for_eachi (λ i (low : option nat) leaf,
      ensure (negb (fr_eqb (il_value leaf) target)) DuplicateInsertion;;
      Ok (if is_low leaf target then Some i else low))
    None (imt_leaves t);
  i ← ok_or low_idx (LowLeafInvariant "no low leaf found");
  Ok (as_u32 i).

(** ** The [ImtStore] operations *)
Definition imt_root (t : IndexedMerkleTree) : Bytes32 := fr_to_be_bytes (root_fr t).

Definition imt_size (t : IndexedMerkleTree) : nat := length (imt_leaves t).

Definition imt_membership (t : IndexedMerkleTree) (value : Bytes32)
  : option ImtMembership :=
  let v := fr_from_be_bytes value in
  '(i, leaf) ← list_find (λ l, fr_eqb (il_value l) v = true) (imt_leaves t);
  Some (mk_imt_membership (to_wire leaf) (as_u32 i) (path_for t (as_u32 i))).

(** The loop of [non_membership]; [None] inside is the early return. *)
Fixpoint low_scan (v : Fr) (i : nat) (low : option (nat * InternalLeaf))
  (l : list InternalLeaf) : option (option (nat * InternalLeaf)) :=
  match l with
  | [] => Some low
  | leaf :: l' =>
      if fr_eqb (il_value leaf) v then None
      else low_scan v (S i) (if is_low leaf v then Some (i, leaf) else low) l'
  end.

Definition imt_non_membership (t : IndexedMerkleTree) (value : Bytes32)
  : option ImtNonMembership :=
  let v := fr_from_be_bytes value in
  low ← low_scan v 0 None (imt_leaves t);
  '(i, leaf) ← low;
  Some (mk_imt_non_membership (to_wire leaf) (as_u32 i) (path_for t (as_u32 i))).

(** The state changes come after the last early return, so an error leaves
    the tree as it was. *)
Definition imt_insert (t : IndexedMerkleTree) (value : Bytes32)
  : outcome ImtError (ImtInsertWitness * IndexedMerkleTree) :=
  let v := fr_from_be_bytes value in
  let cap := Z.shiftl 1 (Z.of_nat IMT_DEPTH) in
  ensure (Z.of_nat (length (imt_leaves t)) <? cap) (CapacityExhausted IMT_DEPTH);;
  low_idx ← find_low_leaf_index t v;
  low_leaf_before ← index (imt_leaves t) (Z.to_nat low_idx);
  let new_index := as_u32 (length (imt_leaves t)) in
  let low_leaf_path_before := path_for t low_idx in
  let low_leaf_after := mk_internal_leaf (il_value low_leaf_before) new_index v in
  let new_leaf := mk_internal_leaf v (il_next_index low_leaf_before)
                    (il_next_value low_leaf_before) in
  let t1 := mk_imt (<[Z.to_nat low_idx := low_leaf_after]> (imt_leaves t))
              (imt_tree t) (imt_empty_subtree t) in
  let t2 := set_leaf_hash t1 low_idx (InternalLeaf_hash low_leaf_after) in
  let t3 := mk_imt (imt_leaves t2 ++ [new_leaf]) (imt_tree t2) (imt_empty_subtree t2) in
  let t4 := set_leaf_hash t3 new_index (InternalLeaf_hash new_leaf) in
  Ok (mk_imt_insert_witness (to_wire low_leaf_before) (to_wire low_leaf_after) low_idx
        low_leaf_path_before (to_wire new_leaf) new_index (path_for t4 new_index)
        (fr_to_be_bytes (root_fr t4)),
      t4).
(** ** The node maps *)
Definition leaf_hash_at (ls : list InternalLeaf) (i : Z) : Fr :=
  match ls !! Z.to_nat i with
  | Some l => InternalLeaf_hash l
  | None => InternalLeaf_hash InternalLeaf_empty
  end.

Lemma node_put es tree l i h l' j :
  (l < length tree)%nat →
  node es (put_node tree l i h) l' j
  = if decide (l = l' ∧ i = j) then h else node es tree l' j.
Proof.
  intros Hl. unfold node, put_node. destruct (decide (l = l')) as [<-|Hne].
  - rewrite list_lookup_alter_eq.
    destruct (lookup_lt_is_Some_2 tree l Hl) as [m ->]. cbn.
    destruct (decide (i = j)) as [<-|Hij].
    + by rewrite lookup_insert, !decide_True.
    + rewrite lookup_insert_ne, (decide_False (P := l = l ∧ i = j)) by tauto. done.
  - rewrite list_lookup_alter_ne by done. rewrite decide_False by tauto. done.
Qed.

Lemma length_put tree l i h : length (put_node tree l i h) = length tree.
Proof. apply length_alter. Qed.

Lemma length_rehash es n level idx tree : length (rehash es n level idx tree) = length tree.
Proof.
  revert level idx tree; induction n as [|n IH]; intros; cbn [rehash]; [done|].
  destruct (Z.even idx); by rewrite IH, length_put.
Qed.

(** The tree equation at the parent [i] of level [l + 1]. *)
Definition eqn (es : list Fr) (tree : Tree) (l : nat) (i : Z) : Prop :=
  node es tree (S l) i
  = hash_merkle_node (node es tree l (2 * i)) (node es tree l (2 * i + 1)).

Definition consistent (es : list Fr) (tree : Tree) : Prop :=
  ∀ l i, (l < IMT_DEPTH)%nat → 0 ≤ i → eqn es tree l i.

(** One round of the loop establishes the equation at the parent and can
    only break those above it. *)
Lemma rehash_consistent es n level idx tree :
  0 ≤ idx → (level + n < length tree)%nat →
  (∀ l i, (l < level + n)%nat → 0 ≤ i →
     (level ≤ l)%nat → i ≠ idx / 2 ^ Z.of_nat (S l - level) → eqn es tree l i) →
  (∀ l i, (l < level)%nat → 0 ≤ i → eqn es tree l i) →
  ∀ l i, (l < level + n)%nat → 0 ≤ i → eqn es (rehash es n level idx tree) l i.
Proof.
  revert level idx tree; induction n as [|n IH]; intros level idx tree Hidx Hlen Hup Hlow;
    cbn [rehash].
  { intros l i Hl Hi. apply Hlow; lia. }
  set (par := idx / 2).
  assert (0 ≤ par) as Hpar by by apply Z.div_pos.
  set (h := hash_merkle_node (node es tree level (2 * par))
              (node es tree level (2 * par + 1))).
  assert ((let '(left_, right_) :=
       if Z.even idx then (node es tree level idx, node es tree level (Z.lxor idx 1))
       else (node es tree level (Z.lxor idx 1), node es tree level idx) in
     rehash es n (S level) par (put_node tree (S level) par (hash_merkle_node left_ right_)))
    = rehash es n (S level) par (put_node tree (S level) par h)) as ->.
  { unfold h, par. rewrite <-Z.negb_odd, sibling_index by done.
    pose proof (odd_div2 idx Hidx). destruct (Z.odd idx); cbn [negb];
      repeat f_equal; lia. }
  intros l i Hl Hi. apply IH; [done|by rewrite length_put; lia|..|lia|done];
    clear l i Hl Hi; intros l i Hl Hi; unfold eqn;
    rewrite !node_put by lia.
  - intros Hge Hne. rewrite !(decide_False (P := S level = S l ∧ _)) by lia.
    destruct (decide (S level = l)) as [<-|Hl'].
    + rewrite Nat.sub_succ_l, Nat.sub_diag in Hne by lia.
      change (2 ^ Z.of_nat 1) with 2 in Hne.
      rewrite !decide_False; [apply Hup; try lia|..].
      * replace (S (S level) - level)%nat with 2%nat by lia.
        change (2 ^ Z.of_nat 2) with (2 * 2). rewrite <-Z.div_div by lia. done.
      * intros [_ ->]. apply Hne. apply (Z.div_unique _ _ _ 1); lia.
      * intros [_ ->]. apply Hne. apply (Z.div_unique _ _ _ 0); lia.
    + rewrite !decide_False by tauto. apply Hup; [lia|done|lia|].
      replace (S l - level)%nat with (S (S l - S level)) by lia. by rewrite div_pow_succ.
  - destruct (decide (l = level)) as [->|Hl'].
    + rewrite !(decide_False (P := S level = level ∧ _)) by lia.
      destruct (decide (S level = S level ∧ par = i)) as [[_ <-]|Hne]; [done|].
      apply Hup; [lia|done|lia|].
      rewrite Nat.sub_succ_l, Nat.sub_diag by lia. change (2 ^ Z.of_nat 1) with 2. fold par. naive_solver.
    + rewrite !decide_False by lia. apply Hlow; lia.
Qed.

Lemma rehash_low es n level idx tree l i :
  (l ≤ level)%nat → (level + n < length tree)%nat →
  node es (rehash es n level idx tree) l i = node es tree l i.
Proof.
  revert level idx tree; induction n as [|n IH]; intros level idx tree Hl Hlen;
    cbn [rehash]; [done|].
  destruct (Z.even idx); rewrite IH, node_put, decide_False by (rewrite ?length_put; lia);
    done.
Qed.
(** ** The invariant *)
Definition values (ls : list InternalLeaf) : list Fr := il_value <$> ls.

(** A leaf is the tail, above every value, or points at the next value up. *)
Definition succ_ok (vs : list Fr) (x : InternalLeaf) : Prop :=
  (il_next_index x = 0 ∧ il_next_value x = fr_zero ∧
     ∀ w, w ∈ vs → fr_val w ≤ fr_val (il_value x)) ∨
  (∃ k, il_next_index x = Z.of_nat k ∧ vs !! k = Some (il_next_value x) ∧
     fr_val (il_value x) < fr_val (il_next_value x) ∧
     ∀ w, w ∈ vs → fr_val w ≤ fr_val (il_value x) ∨ fr_val (il_next_value x) ≤ fr_val w).

Record linked (ls : list InternalLeaf) : Prop := {
  linked_sentinel : values ls !! 0%nat = Some fr_zero;
  linked_NoDup : NoDup (values ls);
  linked_succ : ∀ x, x ∈ ls → succ_ok (values ls) x;
}.

Record wf (t : IndexedMerkleTree) : Prop := {
  wf_empty : imt_empty_subtree t = compute_empty_subtree;
  wf_levels : length (imt_tree t) = S IMT_DEPTH;
  wf_consistent : consistent (imt_empty_subtree t) (imt_tree t);
  wf_leaves : ∀ i, 0 ≤ i →
    node (imt_empty_subtree t) (imt_tree t) 0 i = leaf_hash_at (imt_leaves t) i;
  wf_linked : linked (imt_leaves t);
  wf_capacity : Z.of_nat (length (imt_leaves t)) ≤ 2 ^ 24;
}.

Lemma is_low_true x v :
  is_low x v = true ↔
  fr_val (il_value x) < fr_val v ∧
  (fr_val v < fr_val (il_next_value x) ∨ il_next_value x = fr_zero).
Proof.
  unfold is_low, fr_ltb. rewrite andb_true_iff, orb_true_iff, !Z.ltb_lt, fr_eqb_eq. done.
Qed.

Lemma fr_zero_least v : fr_val fr_zero ≤ fr_val v.
Proof. change (fr_val fr_zero) with 0. apply fr_range. Qed.

Lemma elem_of_values ls v : v ∈ values ls ↔ ∃ i x, ls !! i = Some x ∧ il_value x = v.
Proof.
  unfold values. rewrite list_elem_of_fmap. setoid_rewrite list_elem_of_lookup. naive_solver.
Qed.

(** Among the values below [v] there is a greatest. *)
Lemma max_below (ls : list InternalLeaf) v :
  (∃ x, x ∈ ls ∧ fr_val (il_value x) < v) →
  ∃ x, x ∈ ls ∧ fr_val (il_value x) < v ∧
    ∀ y, y ∈ ls → fr_val (il_value y) < v → fr_val (il_value y) ≤ fr_val (il_value x).
Proof.
  induction ls as [|a ls IH]; intros (x & Hx & Hlt); [by apply not_elem_of_nil in Hx|].
  destruct (decide (Exists (λ x, fr_val (il_value x) < v) ls)) as [Hex|Hno];
    rewrite list.Exists_exists in *.
  - destruct (IH Hex) as (m & Hm & Hmv & Hmax).
    destruct (decide (fr_val (il_value a) < v ∧ fr_val (il_value m) < fr_val (il_value a)))
      as [[Hav Hma]|Hna].
    + exists a. split; [by left|]. split; [done|]. intros y [->|Hy]%elem_of_cons Hyv; [done|].
      specialize (Hmax y Hy Hyv). lia.
    + exists m. split; [by right|]. split; [done|]. intros y [->|Hy]%elem_of_cons Hyv; [|auto].
      lia.
  - apply elem_of_cons in Hx as [->|Hx]; [|naive_solver]. exists a.
    split; [by left|]. split; [done|].
    intros y [->|Hy]%elem_of_cons Hyv; [done|]. naive_solver.
Qed.

(** A value that is absent has a low leaf, and only one. *)
Lemma low_exists ls v :
  linked ls → v ∉ values ls → ∃ x, x ∈ ls ∧ is_low x v = true.
Proof.
  intros Hl Hv. destruct (max_below ls (fr_val v)) as (x & Hx & Hxv & Hmax).
  { pose proof (linked_sentinel _ Hl) as Hs. unfold values in Hs.
    rewrite list_lookup_fmap in Hs. destruct (ls !! 0%nat) as [x|] eqn:E; [|done].
    injection Hs as Hs. exists x. split; [by eapply list_elem_of_lookup_2|].
    rewrite Hs. pose proof (fr_zero_least v).
    assert (fr_val fr_zero ≠ fr_val v); [|lia].
    intros He%fr_eq. apply Hv, elem_of_values. subst v. eauto. }
  exists x. split; [done|]. apply is_low_true. split; [done|].
  destruct (linked_succ _ Hl x Hx) as [(_ & Hz & _)|(k & _ & Hk & Hlt & Hgap)]; [by right|].
  left. pose proof Hk as Hk'. unfold values in Hk'. rewrite list_lookup_fmap in Hk'.
  destruct (ls !! k) as [y|] eqn:Ey; [|done]. injection Hk' as Hy.
  destruct (Z.lt_trichotomy (fr_val v) (fr_val (il_next_value x))) as [?|[He|Hgt]]; [done|..].
  - apply fr_eq in He. destruct Hv. rewrite He. by eapply list_elem_of_lookup_2.
  - specialize (Hmax y ltac:(by eapply list_elem_of_lookup_2)). rewrite Hy in Hmax. lia.
Qed.

Lemma low_unique ls v x y :
  linked ls → x ∈ ls → y ∈ ls → is_low x v = true → is_low y v = true →
  il_value x = il_value y.
Proof.
  intros Hl Hx Hy [Hxv Hxn]%is_low_true [Hyv Hyn]%is_low_true.
  assert (∀ z, z ∈ ls → il_value z ∈ values ls) as Hin.
  { intros z Hz. by apply list_elem_of_fmap_2. }
  apply fr_eq. pose proof (Hin x Hx). pose proof (Hin y Hy).
  pose proof (fr_zero_least (il_value x)). pose proof (fr_zero_least (il_value y)).
  destruct (linked_succ _ Hl x Hx) as [(_ & Hz & Hm)|(k & _ & _ & Hlt & Hgap)],
    (linked_succ _ Hl y Hy) as [(_ & Hz' & Hm')|(k' & _ & _ & Hlt' & Hgap')].
  - apply Z.le_antisymm; auto.
  - destruct Hyn as [?|Hn]; [|rewrite Hn in *; lia].
    specialize (Hm _ (Hin y Hy)). destruct (Hgap' _ (Hin x Hx)); lia.
  - destruct Hxn as [?|Hn]; [|rewrite Hn in *; lia].
    specialize (Hm' _ (Hin x Hx)). destruct (Hgap _ (Hin y Hy)); lia.
  - destruct Hxn as [?|Hn]; [|rewrite Hn in *; lia].
    destruct Hyn as [?|Hn]; [|rewrite Hn in *; lia].
    destruct (Hgap _ (Hin y Hy)), (Hgap' _ (Hin x Hx)); lia.
Qed.
Lemma values_insert_push ls i low new :
  (∃ x, ls !! i = Some x ∧ il_value x = il_value low) →
  values (<[i := low]> ls ++ [new]) = values ls ++ [il_value new].
Proof.
  intros (x & Hx & Hv). unfold values. rewrite fmap_app, list_fmap_insert. f_equal.
  apply list_insert_id. by rewrite list_lookup_fmap, Hx, <-Hv.
Qed.

Lemma values_lookup_inj ls i j x y :
  linked ls → ls !! i = Some x → ls !! j = Some y → il_value x = il_value y → i = j.
Proof.
  intros Hl Hi Hj He. eapply (NoDup_lookup (values ls));
    [apply (linked_NoDup _ Hl)|unfold values; by rewrite list_lookup_fmap, Hi|].
  unfold values. by rewrite list_lookup_fmap, Hj, He.
Qed.

(** The pointers of the other leaves stay right across an insertion. *)
Lemma succ_ok_other ls i low v j x :
  linked ls → ls !! i = Some low → is_low low v = true →
  ls !! j = Some x → i ≠ j → succ_ok (values ls ++ [v]) x.
Proof.
  intros Hl Hi Hlow Hj Hij.
  assert (low ∈ ls) as Hin by by eapply list_elem_of_lookup_2.
  assert (x ∈ ls) as Hinx by by eapply list_elem_of_lookup_2.
  assert (is_low x v ≠ true) as Hnl.
  { intros Hx. apply Hij. eapply values_lookup_inj; eauto. by eapply low_unique. }
  rewrite is_low_true in Hnl. apply is_low_true in Hlow as [Hlv Hln].
  destruct (linked_succ _ Hl x Hinx) as [(H1 & H2 & H3)|(k & H1 & H2 & H3 & H4)].
  - left. split_and!; try done. intros w [Hw| ->%list_elem_of_singleton]%elem_of_app; [auto|].
    apply Z.nlt_ge. intros Hc. apply Hnl. auto.
  - right. exists k. split_and!; try done; [by apply lookup_app_l_Some|].
    intros w [Hw| ->%list_elem_of_singleton]%elem_of_app; [auto|]. lia.
Qed.

Lemma linked_insert ls i low v :
  linked ls → v ∉ values ls → ls !! i = Some low → is_low low v = true →
  linked (<[i := mk_internal_leaf (il_value low) (Z.of_nat (length ls)) v]> ls ++
          [mk_internal_leaf v (il_next_index low) (il_next_value low)]).
Proof.
  intros Hl Hv Hi Hlow. set (low' := mk_internal_leaf _ (Z.of_nat _) _).
  set (new := mk_internal_leaf _ (il_next_index low) _).
  assert (values (<[i := low']> ls ++ [new]) = values ls ++ [v]) as Hvs
    by (apply (values_insert_push ls i low' new); eauto).
  assert (low ∈ ls) as Hin by by eapply list_elem_of_lookup_2.
  pose proof Hlow as [Hlv Hln]%is_low_true.
  constructor.
  - rewrite Hvs. apply lookup_app_l_Some, (linked_sentinel _ Hl).
  - rewrite Hvs. apply list.NoDup_app. split; [apply (linked_NoDup _ Hl)|].
    split; [|apply NoDup_singleton]. by intros w Hw ->%list_elem_of_singleton.
  - rewrite Hvs. intros x [Hx| ->%list_elem_of_singleton]%elem_of_app.
    + apply list_elem_of_lookup in Hx as [j Hj].
      destruct (decide (i = j)) as [<-|Hij].
      2: { rewrite list_lookup_insert_ne in Hj by done. eapply (succ_ok_other ls i low v j); done. }
      rewrite list_lookup_insert_eq in Hj by by eapply lookup_lt_Some.
      injection Hj as <-. right. exists (length ls). unfold low'; cbn.
      split_and!; try done.
      * rewrite lookup_app_r by by unfold values; rewrite length_fmap.
        unfold values. by rewrite length_fmap, Nat.sub_diag.
      * intros w [Hw| ->%list_elem_of_singleton]%elem_of_app; [|by right].
        destruct (linked_succ _ Hl low Hin) as [(_ & _ & Hm)|(k & _ & _ & Hlt & Hg)];
          [by left; apply Hm|].
        destruct Hln as [?|Hz]; [|rewrite Hz in Hlt; pose proof (fr_zero_least (il_value low)); lia].
        destruct (Hg w Hw); [by left|right; lia].
    + destruct (linked_succ _ Hl low Hin) as [(H1 & H2 & Hm)|(k & H1 & H2 & Hlt & Hg)].
      * left. unfold new; cbn. split_and!; try done.
        intros w [Hw| ->%list_elem_of_singleton]%elem_of_app; [|done].
        specialize (Hm w Hw). lia.
      * destruct Hln as [?|Hz];
          [|rewrite Hz in Hlt; pose proof (fr_zero_least (il_value low)); lia].
        right. exists k. unfold new; cbn. split_and!; try done; [by apply lookup_app_l_Some|].
        intros w [Hw| ->%list_elem_of_singleton]%elem_of_app; [|by left].
        destruct (Hg w Hw); [left; lia|by right].
Qed.

(** ** The scan *)
Lemma low_scan_spec v i low ls :
  match low_scan v i low ls with
  | None => v ∈ values ls
  | Some r => (v ∉ values ls) ∧
      ((r = low ∧ ∀ x, x ∈ ls → is_low x v = false) ∨
       ∃ j x, r = Some ((i + j)%nat, x) ∧ ls !! j = Some x ∧ is_low x v = true)
  end.
Proof.
  revert i low; induction ls as [|a ls IH]; intros i low; cbn [low_scan values fmap list_fmap].
  { split; [apply not_elem_of_nil|]. left. split; [done|]. by intros x ?%not_elem_of_nil. }
  destruct (fr_eqb (il_value a) v) eqn:E; [apply fr_eqb_eq in E as <-; by left|].
  apply fr_eqb_neq in E.
  specialize (IH (S i) (if is_low a v then Some (i, a) else low)).
  destruct (low_scan v (S i) _ ls) as [r|]; [|by right].
  destruct IH as [Hv Hr]. split; [rewrite not_elem_of_cons; auto|].
  destruct Hr as [[-> Hno]|(j & x & -> & Hj & Hx)].
  - destruct (is_low a v) eqn:Ea.
    + right. exists 0%nat, a. by rewrite Nat.add_0_r.
    + left. split; [done|]. by intros x [->|Hx]%elem_of_cons; [|apply Hno].
  - right. exists (S j), x. split_and!; [|done..]. do 2 f_equal. lia.
Qed.

(** The scan of [find_low_leaf_index] is the scan of [non_membership]. *)
Lemma find_low_scan v i low ls :
  for_eachi_from i (λ i (low : option nat) leaf,
      ensure (negb (fr_eqb (il_value leaf) v)) DuplicateInsertion;;
      Ok (if is_low leaf v then Some i else low)) (fst <$> low) ls
  = match low_scan v i low ls with
    | None => Err DuplicateInsertion
    | Some r => Ok (fst <$> r)
    end.
Proof.
  revert i low; induction ls as [|a ls IH]; intros i low;
    cbn [low_scan for_eachi_from]; [done|].
  destruct (fr_eqb (il_value a) v); cbn [negb ensure mbind outcome_bind]; [done|].
  rewrite <-IH. by destruct (is_low a v).
Qed.

Lemma find_low_leaf_index_spec t v :
  wf t →
  (v ∈ values (imt_leaves t) ∧ find_low_leaf_index t v = Err DuplicateInsertion) ∨
  ((v ∉ values (imt_leaves t)) ∧ ∃ i low, find_low_leaf_index t v = Ok (Z.of_nat i) ∧
     imt_leaves t !! i = Some low ∧ is_low low v = true).
Proof.
  intros Hwf. unfold find_low_leaf_index, for_eachi.
  change (@None nat) with (fst <$> @None (nat * InternalLeaf)). rewrite find_low_scan.
  pose proof (low_scan_spec v 0 None (imt_leaves t)) as Hs.
  destruct (low_scan v 0 None (imt_leaves t)) as [r|]; [right|by left].
  destruct Hs as [Hv Hr]. split; [done|].
  destruct Hr as [[-> Hno]|(j & x & -> & Hj & Hx)].
  - destruct (low_exists _ _ (wf_linked _ Hwf) Hv) as (x & Hx & Hlow).
    rewrite (Hno x Hx) in Hlow. done.
  - exists j, x. split_and!; try done. cbn. unfold as_u32. rewrite Z.mod_small; [done|].
    apply lookup_lt_Some in Hj. pose proof (wf_capacity _ Hwf). lia.
Qed.
(** ** Writing a leaf *)
Lemma consistent_mroot es tree l i :
  consistent es tree → (l ≤ IMT_DEPTH)%nat → 0 ≤ i →
  node es tree l i = mroot hash_merkle_node l (node es tree 0) i.
Proof.
  intros Hc. revert i; induction l as [|l IH]; intros i Hl Hi; cbn [mroot]; [done|].
  rewrite (Hc l i) by lia. by rewrite !IH by lia.
Qed.

Lemma node_is_mroot t l i :
  wf t → (l ≤ IMT_DEPTH)%nat → 0 ≤ i →
  node (imt_empty_subtree t) (imt_tree t) l i
  = mroot hash_merkle_node l (leaf_hash_at (imt_leaves t)) i.
Proof.
  intros Hwf Hl Hi. rewrite consistent_mroot; [|apply (wf_consistent _ Hwf)|done..].
  apply mroot_ext; [done|]. intros. by apply (wf_leaves _ Hwf).
Qed.

Lemma root_is_mroot t :
  wf t → root_fr t = mroot hash_merkle_node IMT_DEPTH (leaf_hash_at (imt_leaves t)) 0.
Proof. intros. unfold root_fr. by apply node_is_mroot. Qed.

(** [set_leaf_hash] keeps the node maps consistent and writes one leaf. *)
Lemma set_leaf_hash_tree es tree i h :
  length tree = S IMT_DEPTH → consistent es tree → 0 ≤ i →
  let tree' := rehash es IMT_DEPTH 0 i (put_node tree 0 i h) in
  length tree' = S IMT_DEPTH ∧ consistent es tree' ∧
  ∀ j, node es tree' 0 j = fupd (node es tree 0) i h j.
Proof.
  intros Hlen Hc Hi. cbn zeta. split; [by rewrite length_rehash, length_put|]. split.
  - intros l j Hl Hj. apply rehash_consistent; [done|rewrite length_put; lia|..|lia|done];
      clear l j Hl Hj; intros l j Hl Hj; [|lia].
    intros _ Hne. unfold eqn. rewrite !node_put by lia.
    rewrite (decide_False (P := 0%nat = S l ∧ _)) by lia.
    destruct (decide (l = 0%nat)) as [->|Hl0].
    + change (2 ^ Z.of_nat (1 - 0)) with 2 in Hne.
      rewrite !decide_False; [by apply Hc|..]; intros [_ ->]; apply Hne;
        [apply (Z.div_unique _ _ _ 1); lia|apply (Z.div_unique _ _ _ 0); lia].
    + rewrite !decide_False by lia. by apply Hc.
  - intros j. rewrite rehash_low by (rewrite ?length_put; lia).
    rewrite node_put by lia. unfold fupd.
    destruct (decide (j = i)) as [->|Hne]; [by rewrite decide_True|].
    rewrite decide_False by naive_solver. done.
Qed.

Lemma leaf_hash_at_insert ls i x :
  (i < length ls)%nat →
  ∀ j, 0 ≤ j → leaf_hash_at (<[i := x]> ls) j
             = fupd (leaf_hash_at ls) (Z.of_nat i) (InternalLeaf_hash x) j.
Proof.
  intros Hi j Hj. unfold leaf_hash_at, fupd. destruct (decide (j = Z.of_nat i)) as [->|Hne].
  - by rewrite Nat2Z.id, list_lookup_insert_eq.
  - rewrite list_lookup_insert_ne by lia. done.
Qed.

Lemma leaf_hash_at_push ls x :
  ∀ j, 0 ≤ j → leaf_hash_at (ls ++ [x]) j
             = fupd (leaf_hash_at ls) (Z.of_nat (length ls)) (InternalLeaf_hash x) j.
Proof.
  intros j Hj. unfold leaf_hash_at, fupd.
  destruct (decide (j = Z.of_nat (length ls))) as [->|Hne].
  - by rewrite Nat2Z.id, lookup_app_r, Nat.sub_diag by done.
  - destruct (decide (j < Z.of_nat (length ls))).
    + by rewrite lookup_app_l by lia.
    + by rewrite !lookup_ge_None_2 by (rewrite ?length_app; cbn; lia).
Qed.

(** ** [new] *)
Lemma empty_levels_lookup n h l :
  (l < n)%nat →
  ∃ x, empty_levels n h !! l = Some x ∧ empty_levels n h !! S l = Some (hash_merkle_node x x).
Proof.
  revert h l; induction n as [|n IH]; intros h l Hl; [lia|]. destruct l as [|l].
  - exists h. split; [done|]. by destruct n.
  - cbn [empty_levels lookup list_lookup]. apply IH. lia.
Qed.

Lemma node_empty es i l : node es (replicate (S IMT_DEPTH) ∅) l i = fr_at es l.
Proof.
  unfold node. destruct (replicate (S IMT_DEPTH) (∅ : gmap Z Fr) !! l) eqn:E; [|done].
  apply lookup_replicate in E as [-> _]. done.
Qed.

Lemma imt_new_wf : wf imt_new.
Proof.
  unfold imt_new, set_leaf_hash. cbn [imt_leaves imt_tree imt_empty_subtree].
  destruct (set_leaf_hash_tree compute_empty_subtree (replicate (S IMT_DEPTH) ∅) 0
    (InternalLeaf_hash InternalLeaf_empty)) as (Hl & Hc & Hn); [done| |done|].
  { intros l i Hl Hi. unfold eqn. rewrite !node_empty. unfold fr_at.
    destruct (empty_levels_lookup IMT_DEPTH
      (poseidon4 (fr_of_Z 0) (fr_of_Z 0) (fr_of_Z 0) (fr_of_Z 0)) l Hl) as (x & H1 & H2).
    unfold compute_empty_subtree. by rewrite H1, H2. }
  constructor; cbn [imt_leaves imt_tree imt_empty_subtree]; [done|exact Hl|exact Hc|..].
  3: { cbn. lia. }
  - intros i Hi. rewrite Hn. unfold fupd. rewrite node_empty. case_decide as Hd; [by subst i|].
    unfold leaf_hash_at. by rewrite lookup_ge_None_2 by (cbn; lia).
  - constructor; [done|by apply NoDup_singleton|].
    intros x ->%list_elem_of_singleton. left. split_and!; [done..|].
    by intros w ->%list_elem_of_singleton.
Qed.
(** ** [insert] *)

(** The leaf vector after inserting [v] above the low leaf at [i]. *)
Definition leaves_after (ls : list InternalLeaf) (i : nat) (low : InternalLeaf) (v : Fr)
  : list InternalLeaf :=
  <[i := mk_internal_leaf (il_value low) (Z.of_nat (length ls)) v]> ls ++
  [mk_internal_leaf v (il_next_index low) (il_next_value low)].

Lemma as_u32_small t : wf t → as_u32 (length (imt_leaves t)) = Z.of_nat (length (imt_leaves t)).
Proof.
  intros Hwf. apply Z.mod_small. pose proof (wf_capacity _ Hwf).
  split; [lia|]. eapply Z.le_lt_trans; [done|]. done.
Qed.

Lemma imt_insert_inv t value :
  wf t → Z.of_nat (imt_size t) < 2 ^ 24 →
  let v := fr_from_be_bytes value in
  (v ∉ values (imt_leaves t)) →
  ∃ i low w t',
    imt_insert t value = Ok (w, t') ∧ wf t' ∧
    imt_leaves t !! i = Some low ∧ is_low low v = true ∧
    imt_leaves t' = leaves_after (imt_leaves t) i low v ∧
    w = mk_imt_insert_witness (to_wire low)
          (to_wire (mk_internal_leaf (il_value low) (Z.of_nat (imt_size t)) v))
          (Z.of_nat i) (path_for t (Z.of_nat i))
          (to_wire (mk_internal_leaf v (il_next_index low) (il_next_value low)))
          (Z.of_nat (imt_size t)) (path_for t' (Z.of_nat (imt_size t))) (imt_root t').
Proof.
  intros Hwf Hcap v Hv. unfold imt_size in *.
  destruct (find_low_leaf_index_spec t v Hwf) as [[Hin _]|(_ & i & low & Hf & Hi & Hlow)];
    [done|].
  assert (i < length (imt_leaves t))%nat as Hil by by eapply lookup_lt_Some.
  unfold imt_insert. fold v. change (Z.shiftl 1 (Z.of_nat IMT_DEPTH)) with (2 ^ 24).
  pass_guard. rewrite Hf. cbn [mbind outcome_bind]. rewrite Nat2Z.id.
  unfold index. rewrite Hi. cbn [expect mbind outcome_bind].
  rewrite as_u32_small by done.
  eexists i, low, _, _. split; [reflexivity|].
  split; [|split; [done|split; [done|split; [done|done]]]].
  destruct (set_leaf_hash_tree (imt_empty_subtree t) (imt_tree t) (Z.of_nat i)
    (InternalLeaf_hash (mk_internal_leaf (il_value low) (Z.of_nat (length (imt_leaves t))) v)))
    as (Hl1 & Hc1 & Hn1); [apply Hwf|apply Hwf|lia|].
  destruct (set_leaf_hash_tree (imt_empty_subtree t) _ (Z.of_nat (length (imt_leaves t)))
    (InternalLeaf_hash (mk_internal_leaf v (il_next_index low) (il_next_value low)))
    Hl1 Hc1) as (Hl2 & Hc2 & Hn2); [lia|].
  constructor; unfold set_leaf_hash; cbn [imt_leaves imt_tree imt_empty_subtree];
    [apply Hwf|exact Hl2|exact Hc2| | |].
  - intros j Hj. rewrite Hn2, leaf_hash_at_push, length_insert by done.
    unfold fupd at 1 2. case_decide; [done|]. rewrite Hn1, leaf_hash_at_insert by done.
    unfold fupd. case_decide; [done|]. by apply (wf_leaves _ Hwf).
  - apply linked_insert; [apply Hwf|done..].
  - rewrite length_app, length_insert. cbn [length]. lia.
Qed.

Lemma imt_insert_duplicate t value :
  wf t → Z.of_nat (imt_size t) < 2 ^ 24 →
  fr_from_be_bytes value ∈ values (imt_leaves t) →
  imt_insert t value = Err DuplicateInsertion.
Proof.
  intros Hwf Hcap Hin. unfold imt_insert. change (Z.shiftl 1 (Z.of_nat IMT_DEPTH)) with (2 ^ 24).
  unfold imt_size in Hcap. pass_guard.
  destruct (find_low_leaf_index_spec t (fr_from_be_bytes value) Hwf) as [[_ ->]|(Hni & _)]; [done|].
  by destruct Hni.
Qed.

Lemma imt_insert_full t value :
  2 ^ 24 ≤ Z.of_nat (imt_size t) → imt_insert t value = Err (CapacityExhausted IMT_DEPTH).
Proof.
  intros Hcap. unfold imt_insert. change (Z.shiftl 1 (Z.of_nat IMT_DEPTH)) with (2 ^ 24).
  unfold imt_size in Hcap. rewrite (proj2 (Z.ltb_ge _ _) Hcap). done.
Qed.

Lemma values_leaves_after ls i low v :
  ls !! i = Some low → values (leaves_after ls i low v) = values ls ++ [v].
Proof. intros Hi. apply values_insert_push. eauto. Qed.

Lemma length_leaves_after ls i low v : length (leaves_after ls i low v) = S (length ls).
Proof. unfold leaves_after. rewrite length_app, length_insert. cbn. lia. Qed.

(** ** Paths *)
Definition bit_byte (b : bool) : byte := if b then x01 else x00.

Lemma path_loop_eq es tree n level i :
  0 ≤ i →
  path_loop es tree n level i
  = (fr_to_be_bytes <$> path_siblings n (node es tree) level i, bit_byte <$> index_bits n i).
Proof.
  revert level i; induction n as [|n IH]; intros level i Hi; cbn [path_loop]; [done|].
  rewrite IH by by apply Z.div_pos. cbn [path_siblings index_bits fmap list_fmap].
  do 2 f_equal. rewrite Zmod_odd. by destruct (Z.odd i).
Qed.

Lemma path_siblings_tree t i :
  wf t → 0 ≤ i →
  path_siblings IMT_DEPTH (node (imt_empty_subtree t) (imt_tree t)) 0 i
  = path_siblings IMT_DEPTH
      (λ l, mroot hash_merkle_node l (leaf_hash_at (imt_leaves t))) 0 i.
Proof.
  intros Hwf Hi. apply path_siblings_ext; [done|]. intros l Hl. cbn zeta.
  apply node_is_mroot; [done|lia|]. apply Z.lxor_nonneg.
  split; intros _; [lia|]. apply Z.div_pos; lia.
Qed.

Lemma path_for_eq t i :
  wf t → 0 ≤ i →
  path_for t i = mk_imt_path
    (fr_to_be_bytes <$> path_siblings IMT_DEPTH
      (λ l, mroot hash_merkle_node l (leaf_hash_at (imt_leaves t))) 0 i)
    (bit_byte <$> index_bits IMT_DEPTH i).
Proof.
  intros Hwf Hi. unfold path_for. rewrite path_loop_eq by done. by rewrite path_siblings_tree.
Qed.
(** ** Membership witnesses *)
Lemma imt_membership_Some t value m :
  imt_membership t value = Some m →
  ∃ i x, imt_leaves t !! i = Some x ∧ il_value x = fr_from_be_bytes value ∧
    m = mk_imt_membership (to_wire x) (as_u32 i) (path_for t (as_u32 i)).
Proof.
  unfold imt_membership. intros ([i x] & Hf & Hm)%bind_Some. injection Hm as <-.
  apply list_find_Some in Hf as (Hi & Hx & _). apply fr_eqb_eq in Hx. eauto.
Qed.

Lemma imt_membership_None t value :
  imt_membership t value = None ↔ fr_from_be_bytes value ∉ values (imt_leaves t).
Proof.
  unfold imt_membership. rewrite bind_None, list_find_None. split.
  - intros [Hf|([i x] & _ & ?)]; [|done]. rewrite elem_of_values. intros (i & x & Hi & Hx).
    rewrite list.Forall_forall in Hf. eapply Hf; [by eapply list_elem_of_lookup_2|].
    by apply fr_eqb_eq.
  - intros Hv. left. apply list.Forall_forall. intros x Hx He%fr_eqb_eq. apply Hv.
    rewrite elem_of_values. apply list_elem_of_lookup in Hx as [i Hi]. eauto.
Qed.

Lemma imt_non_membership_spec t value :
  wf t →
  let v := fr_from_be_bytes value in
  match imt_non_membership t value with
  | None => v ∈ values (imt_leaves t)
  | Some w => (v ∉ values (imt_leaves t)) ∧ ∃ i x, imt_leaves t !! i = Some x ∧
      is_low x v = true ∧
      w = mk_imt_non_membership (to_wire x) (Z.of_nat i) (path_for t (Z.of_nat i))
  end.
Proof.
  intros Hwf v. unfold imt_non_membership. fold v.
  pose proof (low_scan_spec v 0 None (imt_leaves t)) as Hs.
  destruct (low_scan v 0 None (imt_leaves t)) as [r|]; cbn [mbind option_bind]; [|done].
  destruct Hs as [Hv [[-> Hno]|(j & x & -> & Hj & Hx)]]; cbn [mbind option_bind].
  - destruct (low_exists _ _ (wf_linked _ Hwf) Hv) as (x & Hx & Hlow).
    rewrite (Hno x Hx) in Hlow. done.
  - split; [done|]. exists j, x. split_and!; try done. rewrite Nat.add_0_l.
    assert (as_u32 j = Z.of_nat j) as ->; [|done]. apply Z.mod_small.
    apply lookup_lt_Some in Hj. pose proof (wf_capacity _ Hwf). lia.
Qed.

(** ** Refinement *)

(** The abstract store: the inserted values, in order, without repetition. *)
Definition abs_insert (vs : list Fr) (v : Fr) : outcome ImtError (list Fr) :=
  if 2 ^ 24 <=? Z.of_nat (length vs) then Err (CapacityExhausted IMT_DEPTH)
  else if decide (v ∈ vs) then Err DuplicateInsertion
  else Ok (vs ++ [v]).

Lemma imt_insert_cases t value :
  wf t →
  (λ p, values (imt_leaves p.2)) <$> imt_insert t value
  = abs_insert (values (imt_leaves t)) (fr_from_be_bytes value) ∧
  ∀ w t', imt_insert t value = Ok (w, t') → wf t'.
Proof.
  intros Hwf. unfold abs_insert.
  assert (length (values (imt_leaves t)) = imt_size t) as -> by apply length_fmap.
  case_match eqn:E; reflect_bools.
  { by rewrite imt_insert_full. }
  case_decide as Hin.
  { by rewrite imt_insert_duplicate. }
  destruct (imt_insert_inv t value Hwf E Hin) as (i & low & w & t' & Hins & Hwf' & Hi & _ & Hls & _).
  rewrite Hins. split; [|by intros ? ? [= <- <-]].
  cbn. by rewrite Hls, values_leaves_after.
Qed.
Definition insert_value (t : IndexedMerkleTree) (value : Bytes32)
  : outcome ImtError IndexedMerkleTree := snd <$> imt_insert t value.

Lemma insert_value_cases t value :
  wf t →
  match insert_value t value,
        abs_insert (values (imt_leaves t)) (fr_from_be_bytes value) with
  | Ok t', Ok vs => wf t' ∧ values (imt_leaves t') = vs
  | Err e, Err e' => e = e'
  | _, _ => False
  end.
Proof.
  intros Hwf. destruct (imt_insert_cases t value Hwf) as [Hr Hwf'].
  unfold insert_value. rewrite <-Hr. destruct (imt_insert t value) as [[w t']|e|] eqn:Hi;
    cbn; [naive_solver|done|].
  cbn in Hr. unfold abs_insert in Hr. repeat case_match; done.
Qed.

Lemma insert_values_cases t history :
  wf t →
  match for_each insert_value t history,
        for_each abs_insert (values (imt_leaves t)) (fr_from_be_bytes <$> history) with
  | Ok t', Ok vs => wf t' ∧ values (imt_leaves t') = vs
  | Err e, Err e' => e = e'
  | _, _ => False
  end.
Proof.
  revert t; induction history as [|b history IH]; intros t Hwf; cbn; [done|].
  pose proof (insert_value_cases t b Hwf) as Hc.
  destruct (insert_value t b), (abs_insert _ _); try done; cbn.
  destruct Hc as [Hwf' <-]. by apply IH.
Qed.

(** C35: Every history of insertions into a fresh tree behaves as the same
    history on a plain set of values that starts with the sentinel zero: the
    same calls succeed, the first failing call reports the same error
    (duplicate or full), the linked leaves and the sparse node maps stay
    well-formed, and the stored values are those of the set. *)
Theorem imt_history_refines (history : list Bytes32) :
  match for_each insert_value imt_new history,
        for_each abs_insert [fr_zero] (fr_from_be_bytes <$> history) with
  | Ok t, Ok vs => wf t ∧ values (imt_leaves t) = vs
  | Err e, Err e' => e = e'
  | _, _ => False
  end.
Proof. apply (insert_values_cases imt_new history imt_new_wf). Qed.

(** C36: The root stored after any history is the root of the full binary
    tree of depth 24 over the leaf hashes, free positions holding the hash of
    the empty leaf, although only the touched nodes are stored. *)
Theorem imt_root_is_full_tree (history : list Bytes32) :
  match for_each insert_value imt_new history with
  | Ok t => imt_root t = fr_to_be_bytes
      (mroot hash_merkle_node IMT_DEPTH (leaf_hash_at (imt_leaves t)) 0)
  | _ => True
  end.
Proof.
  pose proof (insert_values_cases imt_new history imt_new_wf) as Hc.
  destruct (for_each insert_value imt_new history) as [t| |]; try done.
  destruct (for_each abs_insert _ _); [|done..]. destruct Hc as [Hwf _].
  unfold imt_root. by rewrite root_is_mroot.
Qed.
End imt.
