(* ===== verification/ImtCircuit.v ===== *)
(** * The insertion circuit

    Model of [circuits/lib/src/imt.nr], [merkle.nr] and [cmp.nr]: the
    constraints the batch proof puts on every insertion, as executable
    Boolean functions over the witness, and the translation of the Rust
    witnesses into circuit inputs ([adapters/bb_prover.rs]). *)

From Stdlib Require Import ZArith Lia Bool.
From stdpp Require Import base tactics list gmap strings numbers.
From S2P Require Import Prelude Field Types Poseidon Merkle Imt.

(** ** Field comparison *)

(** [lt_field]: the byte loop, most significant byte first. *)
Fixpoint lt_loop (decided result : bool) (l : list (byte * byte)) : bool :=
  match l with
  | [] => result
  | (ai, bi) :: l' =>
      if negb decided then
        if byte_Z ai <? byte_Z bi then lt_loop true true l'
        else if byte_Z bi <? byte_Z ai then lt_loop true false l'
        else lt_loop decided result l'
      else lt_loop decided result l'
  end.
Definition lt_field (a b : Fr) : bool :=
  lt_loop false false (zip (fr_to_be_bytes a) (fr_to_be_bytes b)).

(** [bytes[31]] of the little-endian form is the first big-endian byte. *)
Definition assert_canonical (f : Fr) : bool :=
  match fr_to_be_bytes f with
  | b :: _ => byte_Z b <=? 0x30
  | [] => false
  end.

(** ** Merkle helpers *)
Definition u32_to_bits_24 (x : Z) : option (list bool) :=
  if x <? 16777216 then Some (index_bits 24 x) else None.

Definition bits_eq (a : list bool) (b : option (list bool)) : bool :=
  bool_decide (Some a = b).

(** ** Witnesses *)
Record ImtLowLeafWitness : Type := mk_low_witness {
  lw_leaf_index : Z;
  lw_value : Fr;
  lw_next_index : Fr;
  lw_next_value : Fr;
  lw_path_indices : list bool;
  lw_path_elements : list Fr;
}.

Record CircuitInsert : Type := mk_circuit_insert {
  ci_low : ImtLowLeafWitness;
  ci_new_low_next_index : Fr;
  ci_new_leaf_path_indices : list bool;
  ci_new_leaf_path_elements : list Fr;
}.

(** The arrays of the circuit have 24 entries. *)
Definition well_sized (w : CircuitInsert) : bool :=
  (length (lw_path_indices (ci_low w)) =? 24)%nat
  && (length (lw_path_elements (ci_low w)) =? 24)%nat
  && (length (ci_new_leaf_path_indices w) =? 24)%nat
  && (length (ci_new_leaf_path_elements w) =? 24)%nat.

(** [pad_bool_to], [imt_path_elements]: at most 24 entries, zero padded. *)
Definition pad_to {A} (n : nat) (d : A) (l : list A) : outcome ProofError (list A) :=
  ensure (length l <=? n)%nat (WitnessSerialization "input length exceeds cap");;
  Ok (l ++ replicate (n - length l) d).

Definition imt_path_indices_bool (p : ImtPath) : outcome ProofError (list bool) :=
  pad_to 24 false (map (λ b, negb (byte_Z b =? 0)) (imt_indices p)).

Definition imt_path_elements (p : ImtPath) : outcome ProofError (list Fr) :=
  pad_to 24 fr_zero (map fr_from_be_bytes (imt_siblings p)).

(** The per-position part of [generate_batch_proof]. *)
Definition circuit_insert (w : ImtInsertWitness) : outcome ProofError CircuitInsert :=
  low_indices ← imt_path_indices_bool (iw_low_leaf_path w);
  low_elements ← imt_path_elements (iw_low_leaf_path w);
  new_indices ← imt_path_indices_bool (iw_new_leaf_path w);
  new_elements ← imt_path_elements (iw_new_leaf_path w);
  Ok (mk_circuit_insert
        (mk_low_witness (iw_low_leaf_index w)
           (fr_from_be_bytes (leaf_value (iw_low_leaf_before w)))
           (fr_of_Z (leaf_next_index (iw_low_leaf_before w)))
           (fr_from_be_bytes (leaf_next_value (iw_low_leaf_before w)))
           low_indices low_elements)
        (fr_of_Z (iw_new_leaf_index w)) new_indices new_elements).

Section circuit.
Context `{C : Crypto}.

Definition hash_imt_leaf (value next_index next_value : Fr) : Fr :=
  poseidon4 value next_index next_value (fr_of_Z 0).
Definition imt_empty_leaf_hash : Fr := hash_imt_leaf (fr_of_Z 0) (fr_of_Z 0) (fr_of_Z 0).

Definition compute_root_depth_24 (leaf : Fr) (path_indices : list bool)
  (path_elements : list Fr) : Fr :=
  binary_merkle_root hash_merkle_node leaf path_indices path_elements.

(** Each circuit function is the conjunction of its assertions. *)
Definition verify_non_membership (value root : Fr) (low : ImtLowLeafWitness) : bool :=
  assert_canonical (lw_value low) && assert_canonical (lw_next_value low)
  && assert_canonical value
  && lt_field (lw_value low) value
  && (if negb (fr_eqb (lw_next_index low) (fr_of_Z 0))
      then lt_field value (lw_next_value low) else true)
  && fr_eqb
       (compute_root_depth_24
          (hash_imt_leaf (lw_value low) (lw_next_index low) (lw_next_value low))
          (lw_path_indices low) (lw_path_elements low))
       root.

Definition verify_insert (value prior_root new_root : Fr) (prior_leaf_count : Z)
  (insert : CircuitInsert) : bool :=
  let low := ci_low insert in
  let new_absolute := prior_leaf_count + 1 in
  let updated_low_hash :=
    hash_imt_leaf (lw_value low) (ci_new_low_next_index insert) value in
  let intermediate_root :=
    compute_root_depth_24 updated_low_hash (lw_path_indices low) (lw_path_elements low) in
  let intermediate_via_new :=
    compute_root_depth_24 imt_empty_leaf_hash (ci_new_leaf_path_indices insert)
      (ci_new_leaf_path_elements insert) in
  let new_leaf_hash := hash_imt_leaf value (lw_next_index low) (lw_next_value low) in
  let recomputed_root :=
    compute_root_depth_24 new_leaf_hash (ci_new_leaf_path_indices insert)
      (ci_new_leaf_path_elements insert) in
  (prior_leaf_count <? 16777215)
  && verify_non_membership value prior_root low
  && bits_eq (lw_path_indices low) (u32_to_bits_24 (lw_leaf_index low))
  && negb (lw_leaf_index low =? new_absolute)
  && fr_eqb (ci_new_low_next_index insert) (fr_of_Z new_absolute)
  && bits_eq (ci_new_leaf_path_indices insert) (u32_to_bits_24 new_absolute)
  && fr_eqb intermediate_via_new intermediate_root
  && fr_eqb recomputed_root new_root.
End circuit.

(** ** Lemmas on the comparison *)
Lemma lt_loop_decided r l : lt_loop true r l = r.
Proof. induction l as [|[a b] l IH]; cbn; auto. Qed.

Lemma lt_loop_bytes l1 l2 :
  length l1 = length l2 → lt_loop false false (zip l1 l2) = bytes_ltb l1 l2.
Proof.
  revert l2; induction l1 as [|a l1 IH]; intros [|b l2]; cbn; try done.
  intros [= Hl]. rewrite !lt_loop_decided, IH by done.
  destruct (Z.ltb_spec (byte_Z a) (byte_Z b)); [done|].
  destruct (Z.ltb_spec (byte_Z b) (byte_Z a)), (Z.eqb_spec (byte_Z a) (byte_Z b));
    cbn; (lia || done).
Qed.

Lemma lt_field_ltb a b : lt_field a b = fr_ltb a b.
Proof.
  unfold lt_field. rewrite lt_loop_bytes by by rewrite !length_fr_to_be_bytes.
  apply fr_to_be_bytes_ltb.
Qed.

(** Every scalar passes the high-byte check. *)
Lemma assert_canonical_true f : assert_canonical f = true.
Proof.
  unfold assert_canonical. pose proof (length_fr_to_be_bytes f) as Hl.
  pose proof (be_to_Z_fr_to_be_bytes f) as Hv. pose proof (fr_range f) as Hr.
  destruct (fr_to_be_bytes f) as [|b l]; [done|]. apply Z.leb_le.
  rewrite be_to_Z_cons in Hv. injection Hl as Hl. rewrite Hl in Hv.
  pose proof (be_to_Z_range l) as Hb. rewrite Hl in Hb.
  assert (fr_modulus < 0x31 * 256 ^ Z.of_nat 31) by done.
  assert (0 < 256 ^ Z.of_nat 31) by done. nia.
Qed.

Section circuit_facts.
Context `{C : Crypto}.

Lemma verify_non_membership_true v root low :
  verify_non_membership v root low = true ↔
  fr_val (lw_value low) < fr_val v ∧
  (lw_next_index low = fr_zero ∨ fr_val v < fr_val (lw_next_value low)) ∧
  compute_root_depth_24
    (hash_imt_leaf (lw_value low) (lw_next_index low) (lw_next_value low))
    (lw_path_indices low) (lw_path_elements low) = root.
Proof.
  unfold verify_non_membership. rewrite !assert_canonical_true, !lt_field_ltb. cbn [andb].
  rewrite !andb_true_iff, fr_eqb_eq. unfold fr_ltb. rewrite Z.ltb_lt.
  change (fr_of_Z 0) with fr_zero.
  destruct (fr_eqb (lw_next_index low) fr_zero) eqn:E; cbn [negb].
  - apply fr_eqb_eq in E. naive_solver.
  - apply fr_eqb_neq in E. rewrite Z.ltb_lt. naive_solver.
Qed.

Lemma bits_eq_true a x :
  bits_eq a (u32_to_bits_24 x) = true ↔ x < 16777216 ∧ a = index_bits 24 x.
Proof.
  unfold bits_eq, u32_to_bits_24. rewrite bool_decide_eq_true.
  generalize (index_bits 24 x). intros b.
  destruct (Z.ltb_spec x 16777216); split; try done.
  - by intros [= ->].
  - by intros [_ ->].
  - intros [? _]. lia.
Qed.

Lemma verify_insert_true v prior new count w :
  verify_insert v prior new count w = true ↔
  count < 16777215 ∧ verify_non_membership v prior (ci_low w) = true ∧
  (lw_leaf_index (ci_low w) < 16777216 ∧
     lw_path_indices (ci_low w) = index_bits 24 (lw_leaf_index (ci_low w))) ∧
  lw_leaf_index (ci_low w) ≠ count + 1 ∧
  ci_new_low_next_index w = fr_of_Z (count + 1) ∧
  (count + 1 < 16777216 ∧ ci_new_leaf_path_indices w = index_bits 24 (count + 1)) ∧
  compute_root_depth_24 imt_empty_leaf_hash (ci_new_leaf_path_indices w)
    (ci_new_leaf_path_elements w)
  = compute_root_depth_24
      (hash_imt_leaf (lw_value (ci_low w)) (ci_new_low_next_index w) v)
      (lw_path_indices (ci_low w)) (lw_path_elements (ci_low w)) ∧
  compute_root_depth_24
    (hash_imt_leaf v (lw_next_index (ci_low w)) (lw_next_value (ci_low w)))
    (ci_new_leaf_path_indices w) (ci_new_leaf_path_elements w) = new.
Proof.
  unfold verify_insert. rewrite !andb_true_iff, Z.ltb_lt, !bits_eq_true, !fr_eqb_eq,
    negb_true_iff, Z.eqb_neq. tauto.
Qed.

(** Positions of a depth-24 tree have the root above them. *)
Lemma div_depth i : 0 ≤ i < 16777216 → i / 2 ^ Z.of_nat 24 = 0.
Proof. intros. by apply Z.div_small. Qed.

Definition tree_siblings (t : IndexedMerkleTree) (i : Z) : list Fr :=
  path_siblings 24 (λ l, mroot hash_merkle_node l (leaf_hash_at (imt_leaves t))) 0 i.

(** Opening position [i] of a tree, and writing at it. *)
Lemma tree_opening t i :
  wf t → 0 ≤ i < 16777216 →
  compute_root_depth_24 (leaf_hash_at (imt_leaves t) i) (index_bits 24 i) (tree_siblings t i)
  = root_fr t.
Proof.
  intros Hwf Hi. unfold compute_root_depth_24, tree_siblings.
  rewrite path_computes_root, div_depth by lia. by rewrite root_is_mroot.
Qed.

(** The siblings of the inserted position do not see the new leaf: they are
    those of the tree with only the low leaf rewritten. *)
Lemma insert_roots ls i low v :
  (i < length ls)%nat → Z.of_nat (length ls) < 16777216 →
  let low' := mk_internal_leaf (il_value low) (Z.of_nat (length ls)) v in
  let new := mk_internal_leaf v (il_next_index low) (il_next_value low) in
  let mid := fupd (leaf_hash_at ls) (Z.of_nat i) (InternalLeaf_hash low') in
  let sibs := path_siblings 24 (λ l, mroot hash_merkle_node l mid) 0 (Z.of_nat (length ls)) in
  let bits := index_bits 24 (Z.of_nat (length ls)) in
  path_siblings 24 (λ l, mroot hash_merkle_node l
      (leaf_hash_at (leaves_after ls i low v))) 0 (Z.of_nat (length ls)) = sibs ∧
  compute_root_depth_24 imt_empty_leaf_hash bits sibs = mroot hash_merkle_node 24 mid 0 ∧
  compute_root_depth_24 (InternalLeaf_hash new) bits sibs
  = mroot hash_merkle_node 24 (leaf_hash_at (leaves_after ls i low v)) 0.
Proof.
  intros Hi Hn low' new mid sibs bits.
  assert (∀ j, 0 ≤ j → leaf_hash_at (leaves_after ls i low v) j
    = fupd mid (Z.of_nat (length ls)) (InternalLeaf_hash new) j) as Hafter.
  { intros j Hj. unfold leaves_after. rewrite leaf_hash_at_push, length_insert by done.
    unfold fupd at 1 2. case_decide; [done|]. by apply leaf_hash_at_insert. }
  assert (mid (Z.of_nat (length ls)) = imt_empty_leaf_hash) as Hmid.
  { unfold mid. rewrite fupd_ne by lia. unfold leaf_hash_at.
    by rewrite lookup_ge_None_2 by lia. }
  split_and!.
  - transitivity (path_siblings 24 (λ l, mroot hash_merkle_node l
      (fupd mid (Z.of_nat (length ls)) (InternalLeaf_hash new))) 0 (Z.of_nat (length ls)));
      [|apply path_siblings_fupd; lia].
    apply path_siblings_ext; [lia|]. intros l Hl. cbn zeta.
    apply mroot_ext; [|intros; by apply Hafter].
    apply Z.lxor_nonneg. split; intros _; [lia|]. apply Z.div_pos; lia.
  - rewrite <-Hmid. unfold compute_root_depth_24, bits, sibs.
    rewrite path_computes_root, div_depth by lia. done.
  - unfold compute_root_depth_24, bits, sibs. rewrite path_computes_update, div_depth by lia.
    apply mroot_ext; [done|]. intros; symmetry; by apply Hafter.
Qed.

Lemma pad_full {A} (d : A) l : length l = 24%nat → pad_to 24 d l = Ok l.
Proof.
  intros Hl. unfold pad_to. rewrite Hl. cbn [Nat.leb ensure mbind outcome_bind Nat.sub replicate].
  by rewrite app_nil_r.
Qed.

Lemma circuit_path t i :
  wf t → 0 ≤ i →
  imt_path_indices_bool (path_for t i) = Ok (index_bits 24 i) ∧
  imt_path_elements (path_for t i) = Ok (tree_siblings t i).
Proof.
  intros Hwf Hi. rewrite path_for_eq by done.
  unfold imt_path_indices_bool, imt_path_elements. cbn [imt_indices imt_siblings].
  split.
  - rewrite pad_full by by rewrite length_map, length_fmap, length_index_bits.
    f_equal. rewrite map_map. transitivity (map id (index_bits 24 i)); [|apply map_id].
    apply map_ext. by intros [].
  - rewrite pad_full by by rewrite length_map, length_fmap, length_path_siblings.
    f_equal. rewrite map_map. transitivity (map id (tree_siblings t i));
      [|apply map_id]. apply map_ext. intros. apply fr_from_to_be_bytes.
Qed.
End circuit_facts.

(** ** Collisions, found executably *)
Inductive Collision : Type :=
| NodeCollision (p q : Fr * Fr)
| LeafCollision (a b : Fr * Fr * Fr).

Section soundness.
Context `{C : Crypto}.

Definition hash_imt_triple (a : Fr * Fr * Fr) : Fr := hash_imt_leaf a.1.1 a.1.2 a.2.

Definition valid_collision (c : Collision) : Prop :=
  match c with
  | NodeCollision p q => collision hash_merkle_node p q
  | LeafCollision a b => a ≠ b ∧ hash_imt_triple a = hash_imt_triple b
  end.

Definition leaf_triple (x : InternalLeaf) : Fr * Fr * Fr :=
  (il_value x, fr_of_Z (il_next_index x), il_next_value x).
Definition low_triple (l : ImtLowLeafWitness) : Fr * Fr * Fr :=
  (lw_value l, lw_next_index l, lw_next_value l).

(** The siblings of the free position once the low leaf is rewritten. *)
Definition mid_siblings (ls : list InternalLeaf) (i : Z) (low' : InternalLeaf) : list Fr :=
  path_siblings 24 (λ l, mroot hash_merkle_node l
    (fupd (leaf_hash_at ls) i (InternalLeaf_hash low'))) 0 (Z.of_nat (length ls)).

(** The siblings read off the stored nodes. *)
Definition sparse_siblings (t : IndexedMerkleTree) (i : Z) : list Fr :=
  path_siblings 24 (node (imt_empty_subtree t) (imt_tree t)) 0 i.

Lemma sparse_siblings_tree t i : wf t → 0 ≤ i → sparse_siblings t i = tree_siblings t i.
Proof. apply path_siblings_tree. Qed.

Lemma sparse_siblings_mid t i x :
  wf t → 0 ≤ i →
  sparse_siblings (set_leaf_hash t i (InternalLeaf_hash x)) (Z.of_nat (length (imt_leaves t)))
  = mid_siblings (imt_leaves t) i x.
Proof.
  intros Hwf Hi. unfold sparse_siblings, mid_siblings, set_leaf_hash.
  cbn [imt_empty_subtree imt_tree].
  destruct (set_leaf_hash_tree (imt_empty_subtree t) (imt_tree t) i (InternalLeaf_hash x))
    as (_ & Hc & Hn); [apply (wf_levels _ Hwf)|apply (wf_consistent _ Hwf)|done|].
  apply path_siblings_ext; [lia|]. intros l Hl. cbn zeta.
  assert (0 ≤ Z.lxor (Z.of_nat (length (imt_leaves t)) / 2 ^ Z.of_nat (l - 0)) 1) as Hp.
  { apply Z.lxor_nonneg. split; intros _; [lia|]. apply Z.div_pos; lia. }
  rewrite consistent_mroot by (done || (unfold IMT_DEPTH; lia)).
  apply mroot_ext; [done|]. intros k Hk _. rewrite Hn. unfold fupd. case_decide; [done|].
  by apply (wf_leaves _ Hwf).
Qed.

(** What a witness that differs from the tree's own must contain: a
    collision on the low leaf's path, on its hash, or on the new path. *)
Definition insert_collision (t : IndexedMerkleTree) (v : Fr) (w : CircuitInsert)
  : option Collision :=
  let low := ci_low w in
  let i := lw_leaf_index low in
  let ls := imt_leaves t in
  match path_collision hash_merkle_node (hash_imt_triple (low_triple low))
          (leaf_hash_at ls i) (lw_path_indices low) (lw_path_elements low)
          (sparse_siblings t i) with
  | Some (p, q) => Some (NodeCollision p q)
  | None =>
      x ← ls !! Z.to_nat i;
      if decide (low_triple low = leaf_triple x) then
        '(p, q) ← path_collision hash_merkle_node imt_empty_leaf_hash imt_empty_leaf_hash
          (ci_new_leaf_path_indices w) (ci_new_leaf_path_elements w)
          (sparse_siblings (set_leaf_hash t i (InternalLeaf_hash
             (mk_internal_leaf (il_value x) (Z.of_nat (length ls)) v)))
             (Z.of_nat (length ls)));
        Some (NodeCollision p q)
      else Some (LeafCollision (low_triple low) (leaf_triple x))
  end.

Lemma low_next_zero ls x :
  linked ls → Z.of_nat (length ls) ≤ 2 ^ 24 → x ∈ ls →
  fr_of_Z (il_next_index x) = fr_zero → il_next_value x = fr_zero.
Proof.
  intros Hl Hn Hx Hz. destruct (linked_succ _ Hl x Hx) as [(_ & ? & _)|(k & Hk & Hlk & Hlt & _)];
    [done|]. exfalso.
  assert (k < length ls)%nat as Hkl.
  { apply lookup_lt_Some in Hlk. unfold values in Hlk. by rewrite length_fmap in Hlk. }
  assert (k = 0%nat) as ->.
  { rewrite Hk in Hz. apply fr_of_Z_inj in Hz; [lia| |split; [lia|done]].
    split; [lia|]. assert (2 ^ 24 < fr_modulus) by done. lia. }
  rewrite (linked_sentinel _ Hl) in Hlk. injection Hlk as Hlk. rewrite <-Hlk in Hlt.
  pose proof (fr_zero_least (il_value x)). lia.
Qed.

Lemma low_excludes ls x v :
  linked ls → x ∈ ls → is_low x v = true → v ∉ values ls.
Proof.
  intros Hl Hx [Hlt Hn]%is_low_true Hv.
  destruct (linked_succ _ Hl x Hx) as [(_ & _ & Hm)|(k & _ & _ & Hxn & Hg)].
  - specialize (Hm v Hv). lia.
  - destruct Hn as [Hn|Hn]; [destruct (Hg v Hv); lia|].
    rewrite Hn in Hxn. pose proof (fr_zero_least (il_value x)). lia.
Qed.

(** A low witness equal to a leaf of the tree brackets the value there. *)
Lemma low_triple_is_low t i x low v :
  wf t → imt_leaves t !! i = Some x → low_triple low = leaf_triple x →
  fr_val (lw_value low) < fr_val v →
  (lw_next_index low = fr_zero ∨ fr_val v < fr_val (lw_next_value low)) →
  is_low x v = true.
Proof.
  intros Hwf Hi [= Hv Hni Hnv] Hlt Hn. apply is_low_true.
  split; [by rewrite <-Hv|]. destruct Hn as [Hz|Hn]; [|left; by rewrite <-Hnv].
  right. eapply low_next_zero; [apply (wf_linked _ Hwf)|apply (wf_capacity _ Hwf)| |].
  - by eapply list_elem_of_lookup_2.
  - by rewrite <-Hni.
Qed.

(** The tree's insertion uses that same low leaf. *)
Lemma insert_at_low t i x v :
  wf t → Z.of_nat (imt_size t) < 2 ^ 24 →
  imt_leaves t !! i = Some x → is_low x v = true →
  ∃ w t', imt_insert t (fr_to_be_bytes v) = Ok (w, t') ∧
    root_fr t' = mroot hash_merkle_node 24 (leaf_hash_at (leaves_after (imt_leaves t) i x v)) 0.
Proof.
  intros Hwf Hcap Hi Hlow. pose proof (wf_linked _ Hwf) as Hl.
  assert (x ∈ imt_leaves t) as Hx by by eapply list_elem_of_lookup_2.
  destruct (imt_insert_inv t (fr_to_be_bytes v) Hwf Hcap)
    as (j & y & w & t' & Hins & Hwf' & Hj & Hy & Hls & _);
    rewrite ?fr_from_to_be_bytes in *; [by eapply low_excludes|].
  exists w, t'. split; [done|]. rewrite (root_is_mroot _ Hwf'), Hls.
  assert (i = j) as <-.
  { eapply values_lookup_inj; [done..|]. eapply low_unique; [done|done| |done|done].
    by eapply list_elem_of_lookup_2. }
  by replace y with x by congruence.
Qed.

Lemma hash_imt_triple_leaf x : hash_imt_triple (leaf_triple x) = InternalLeaf_hash x.
Proof. done. Qed.

(** [verify_membership] of the circuit library. *)
Definition verify_membership (value next_index next_value root : Fr)
  (path_indices : list bool) (path_elements : list Fr) : bool :=
  fr_eqb (compute_root_depth_24 (hash_imt_leaf value next_index next_value)
            path_indices path_elements) root.

Lemma leaf_hash_at_lookup ls i x :
  ls !! i = Some x → leaf_hash_at ls (Z.of_nat i) = InternalLeaf_hash x.
Proof. intros Hi. unfold leaf_hash_at. by rewrite Nat2Z.id, Hi. Qed.

(** A leaf without a next value has no next index either. *)
Lemma tail_next_index ls i x :
  linked ls → ls !! i = Some x → il_next_value x = fr_zero →
  fr_of_Z (il_next_index x) = fr_zero.
Proof.
  intros Hl Hi Hz.
  destruct (linked_succ _ Hl x ltac:(by eapply list_elem_of_lookup_2))
    as [(-> & _)|(k & _ & _ & Hlt & _)]; [done|].
  rewrite Hz in Hlt. pose proof (fr_zero_least (il_value x)). lia.
Qed.

Lemma position_bound t i x :
  wf t → imt_leaves t !! i = Some x → 0 ≤ Z.of_nat i < 16777216.
Proof.
  intros Hwf Hi%lookup_lt_Some. pose proof (wf_capacity _ Hwf).
  change (2 ^ 24) with 16777216 in *. lia.
Qed.

(** The witness returned by a successful insertion, translated the way
    the prover does, satisfies every assertion of the insertion circuit
    between the root before and the root after. *)
Lemma insert_witness_verifies t value w t' :
  wf t → imt_insert t value = Ok (w, t') →
  ∃ cw, circuit_insert w = Ok cw ∧
    verify_insert (fr_from_be_bytes value) (root_fr t) (root_fr t')
      (Z.of_nat (imt_size t) - 1) cw = true.
Proof.
  intros Hwf Hins. set (v := fr_from_be_bytes value).
  destruct (decide (2 ^ 24 ≤ Z.of_nat (imt_size t))) as [?|Hcap%Z.nle_gt];
    [by rewrite imt_insert_full in Hins|].
  destruct (decide (v ∈ values (imt_leaves t))) as [?|Hv];
    [by rewrite imt_insert_duplicate in Hins|].
  destruct (imt_insert_inv t value Hwf Hcap Hv)
    as (i & low & w' & t'' & Hins' & Hwf' & Hi & Hlow & Hls & Hw).
  rewrite Hins in Hins'. injection Hins' as <- <-. fold v in Hlow, Hls, Hw. subst w.
  destruct (circuit_path t (Z.of_nat i) Hwf ltac:(lia)) as [Hp1 Hp2].
  destruct (circuit_path t' (Z.of_nat (imt_size t)) Hwf' ltac:(lia)) as [Hp3 Hp4].
  unfold circuit_insert. cbn [iw_low_leaf_path iw_new_leaf_path iw_low_leaf_index
    iw_low_leaf_before iw_new_leaf_index].
  rewrite Hp1, Hp2, Hp3, Hp4. cbn [mbind outcome_bind].
  eexists. split; [reflexivity|].
  unfold to_wire. cbn [leaf_value leaf_next_index leaf_next_value].
  rewrite !fr_from_to_be_bytes.
  pose proof (position_bound _ _ _ Hwf Hi) as Hib.
  assert (i < length (imt_leaves t))%nat as Hil by by eapply lookup_lt_Some.
  change (2 ^ 24) with 16777216 in Hcap. unfold imt_size in *.
  destruct (insert_roots (imt_leaves t) i low v Hil Hcap) as (Hs & Hmid & Hnew).
  apply verify_insert_true.
  cbn [ci_low ci_new_low_next_index ci_new_leaf_path_indices ci_new_leaf_path_elements
    lw_leaf_index lw_value lw_next_index lw_next_value lw_path_indices lw_path_elements].
  rewrite !Z.sub_add. unfold tree_siblings at 2 4. rewrite Hls, Hs.
  split_and!; [lia| |lia|reflexivity|lia|reflexivity|lia|reflexivity| |].
  - apply verify_non_membership_true.
    cbn [lw_value lw_next_index lw_next_value lw_path_indices lw_path_elements].
    apply is_low_true in Hlow as [Hlt Hn]. split; [done|]. split.
    + destruct Hn as [?|Hz]; [by right|left].
      by eapply tail_next_index; [apply (wf_linked _ Hwf)| |].
    + change (hash_imt_leaf _ _ _) with (InternalLeaf_hash low).
      rewrite <-(leaf_hash_at_lookup _ _ _ Hi). by apply tree_opening.
  - rewrite Hmid. change (hash_imt_leaf (il_value low) (fr_of_Z (Z.of_nat (length (imt_leaves t)))) v)
      with (InternalLeaf_hash (mk_internal_leaf (il_value low)
              (Z.of_nat (length (imt_leaves t))) v)).
    unfold compute_root_depth_24, tree_siblings.
    by rewrite path_computes_update, div_depth by lia.
  - rewrite (root_is_mroot _ Hwf'), Hls. exact Hnew.
Qed.

Lemma length_tree_siblings t i : length (tree_siblings t i) = 24%nat.
Proof. apply length_path_siblings. Qed.
Lemma length_mid_siblings ls i x : length (mid_siblings ls i x) = 24%nat.
Proof. apply length_path_siblings. Qed.

Lemma opening_binding_24 n n' i s s' :
  length s = 24%nat → length s' = 24%nat →
  compute_root_depth_24 n (index_bits 24 i) s = compute_root_depth_24 n' (index_bits 24 i) s' →
  path_collision hash_merkle_node n n' (index_bits 24 i) s s' = None → n = n' ∧ s = s'.
Proof.
  unfold compute_root_depth_24. intros Hs Hs'.
  apply opening_binding; by rewrite length_index_bits.
Qed.

(** An opening of the root at an occupied position is the tree's own. *)
Lemma low_opening_binds t i x h els :
  wf t → imt_leaves t !! i = Some x → length els = 24%nat →
  let bits := index_bits 24 (Z.of_nat i) in
  compute_root_depth_24 h bits els = root_fr t →
  path_collision hash_merkle_node h (leaf_hash_at (imt_leaves t) (Z.of_nat i)) bits els
    (tree_siblings t (Z.of_nat i)) = None →
  h = InternalLeaf_hash x ∧ els = tree_siblings t (Z.of_nat i).
Proof.
  intros Hwf Hx Hl bits Hopen Hc. rewrite <-(leaf_hash_at_lookup _ _ _ Hx).
  apply (opening_binding_24 _ _ (Z.of_nat i)); [done|apply length_tree_siblings| |exact Hc].
  unfold bits in Hopen. rewrite Hopen. symmetry.
  apply tree_opening; [done|by eapply position_bound].
Qed.

(** The new path is the path of the free position in the tree with the low
    leaf rewritten. *)
Lemma new_path_binds t i x v els :
  wf t → imt_leaves t !! i = Some x → Z.of_nat (length (imt_leaves t)) < 16777216 →
  length els = 24%nat →
  let low' := mk_internal_leaf (il_value x) (Z.of_nat (length (imt_leaves t))) v in
  let bits := index_bits 24 (Z.of_nat (length (imt_leaves t))) in
  let sibs := mid_siblings (imt_leaves t) (Z.of_nat i) low' in
  compute_root_depth_24 imt_empty_leaf_hash bits els
  = compute_root_depth_24 (InternalLeaf_hash low') (index_bits 24 (Z.of_nat i))
      (tree_siblings t (Z.of_nat i)) →
  path_collision hash_merkle_node imt_empty_leaf_hash imt_empty_leaf_hash bits els sibs = None →
  els = sibs.
Proof.
  intros Hwf Hx Hn Hl low' bits sibs Hmid Hc.
  destruct (insert_roots (imt_leaves t) i x v) as (_ & Hm & _);
    [by eapply lookup_lt_Some|done|].
  eapply opening_binding_24; [done|apply length_mid_siblings| |exact Hc].
  unfold bits, sibs, mid_siblings, low' in *. rewrite Hmid, Hm.
  unfold compute_root_depth_24, tree_siblings.
  rewrite path_computes_update by lia.
  by rewrite div_depth by by eapply position_bound.
Qed.

(** C37: Against the root of a well-formed tree, any witness that satisfies the
    insertion circuit and names an occupied position as its low leaf proves
    that the value was absent, and its new root is the root of the tree after
    inserting the value; otherwise the witness contains a collision of the
    node or leaf hash, which [insert_collision] computes from it. *)
Theorem verify_insert_sound t v new_root w :
  wf t → well_sized w = true → 0 ≤ lw_leaf_index (ci_low w) < Z.of_nat (imt_size t) →
  verify_insert v (root_fr t) new_root (Z.of_nat (imt_size t) - 1) w = true →
  ((v ∉ values (imt_leaves t)) ∧ ∃ iw t', imt_insert t (fr_to_be_bytes v) = Ok (iw, t') ∧
     root_fr t' = new_root) ∨
  ∃ c, insert_collision t v w = Some c ∧ valid_collision c.
Proof.
  intros Hwf Hsz Hi Hver. unfold well_sized in Hsz. reflect_bools.
  apply verify_insert_true in Hver as (Hc & Hnm & [_ Hb1] & _ & Hnext & [_ Hb2] & Hmid & Hnew).
  apply verify_non_membership_true in Hnm as (Hlt & Hn & Hopen).
  rewrite Z.sub_add in *. set (low := ci_low w) in *. set (i := lw_leaf_index low) in *.
  destruct (lookup_lt_is_Some_2 (imt_leaves t) (Z.to_nat i)) as [x Hx];
    [unfold imt_size in Hi; lia|].
  unfold insert_collision. fold low i. rewrite Hx. cbn [mbind option_bind].
  rewrite sparse_siblings_tree, sparse_siblings_mid by (done || lia).
  assert (i = Z.of_nat (Z.to_nat i)) as Hiz by lia. revert Hiz Hx.
  generalize (Z.to_nat i). intros k Hk Hx. rewrite Hk in *. clear Hk.
  destruct (path_collision _ (hash_imt_triple (low_triple low)) _ _ _ _) as [[p q]|] eqn:Ec.
  { right. eexists. split; [reflexivity|]. by eapply path_collision_sound. }
  rewrite Hb1 in *. destruct (low_opening_binds t k x _ (lw_path_elements low) Hwf Hx ltac:(assumption) Hopen Ec) as [Hh Hs].
  case_decide as Heq.
  2: { right. eexists. split; [reflexivity|]. split; [done|].
       rewrite hash_imt_triple_leaf. exact Hh. }
  pose proof (low_triple_is_low t _ x low v Hwf Hx Heq Hlt Hn) as Hlow.
  injection Heq as Hv Hni Hnv. rewrite Hb2, Hnext, Hv, Hs in *.
  destruct (path_collision _ imt_empty_leaf_hash _ _ _ _) as [[p q]|] eqn:Ec2;
    cbn [mbind option_bind].
  { right. eexists. split; [reflexivity|]. by eapply path_collision_sound. }
  left. split; [eapply low_excludes; [apply (wf_linked _ Hwf)| |exact Hlow];
    by eapply list_elem_of_lookup_2|].
  destruct (insert_at_low t _ x v Hwf ltac:(lia) Hx Hlow) as (iw & t' & Hins & Hroot).
  exists iw, t'. split; [done|]. unfold imt_size in *.
  destruct (insert_roots (imt_leaves t) k x v) as (_ & _ & Hn');
    [by eapply lookup_lt_Some|lia|].
  rewrite Hroot, <-Hn', <-Hnew, Hni, Hnv.
  change (hash_imt_leaf (il_value x) (fr_of_Z (Z.of_nat (length (imt_leaves t)))) v)
    with (InternalLeaf_hash (mk_internal_leaf (il_value x)
            (Z.of_nat (length (imt_leaves t))) v)) in Hmid.
  change (hash_imt_leaf v _ _)
    with (InternalLeaf_hash (mk_internal_leaf v (il_next_index x) (il_next_value x))).
  f_equal. symmetry. eapply new_path_binds; [exact Hwf|exact Hx|lia|assumption|exact Hmid|].
  exact Ec2.
Qed.

(** ** Free positions as low leaves

    A free position holds the hash of the leaf [(0, 0, 0)], which is also the
    hash of a tail leaf of value zero. *)
Definition free_low (t : IndexedMerkleTree) (j : Z) : ImtLowLeafWitness :=
  mk_low_witness j fr_zero fr_zero fr_zero (index_bits 24 j) (tree_siblings t j).

Definition free_insert (t : IndexedMerkleTree) (v : Fr) (j : Z) : CircuitInsert :=
  let n := Z.of_nat (imt_size t) in
  mk_circuit_insert (free_low t j) (fr_of_Z n) (index_bits 24 n)
    (mid_siblings (imt_leaves t) j (mk_internal_leaf fr_zero n v)).

Lemma leaf_hash_at_free t j :
  Z.of_nat (imt_size t) ≤ j → leaf_hash_at (imt_leaves t) j = imt_empty_leaf_hash.
Proof.
  intros Hj. unfold leaf_hash_at. unfold imt_size in Hj. by rewrite lookup_ge_None_2 by lia.
Qed.

Lemma free_low_verifies t v j :
  wf t → v ≠ fr_zero → Z.of_nat (imt_size t) ≤ j < 16777216 →
  verify_non_membership v (root_fr t) (free_low t j) = true.
Proof.
  intros Hwf Hv Hj. apply verify_non_membership_true. cbn [free_low lw_value lw_next_index
    lw_next_value lw_path_indices lw_path_elements].
  split; [|split; [by left|]].
  - pose proof (fr_zero_least v). assert (fr_val fr_zero ≠ fr_val v); [|lia].
    by intros He%fr_eq.
  - change (hash_imt_leaf fr_zero fr_zero fr_zero) with imt_empty_leaf_hash.
    rewrite <-(leaf_hash_at_free t j) by lia. apply tree_opening; [done|lia].
Qed.

(** The circuit does not enforce set semantics: the hash of a free position
    is the hash of the leaf (0, 0, 0), so a free position passes as a tail
    low leaf for any nonzero value.  A value already in the tree, which the
    Rust tree refuses as a duplicate, can be inserted again by a witness that
    satisfies every assertion of [verify_insert]. *)
Lemma member_reinsertion_accepted t v :
  wf t → v ∈ values (imt_leaves t) → v ≠ fr_zero →
  Z.of_nat (imt_size t) + 1 < 16777216 →
  imt_insert t (fr_to_be_bytes v) = Err DuplicateInsertion ∧
  ∃ new_root w, well_sized w = true ∧
    verify_insert v (root_fr t) new_root (Z.of_nat (imt_size t) - 1) w = true.
Proof.
  intros Hwf Hin Hv Hcap. split.
  { apply imt_insert_duplicate; [done|change (2 ^ 24) with 16777216; lia|].
    by rewrite fr_from_to_be_bytes. }
  set (n := Z.of_nat (imt_size t)) in *.
  eexists _, (free_insert t v (n + 1)). split.
  { unfold well_sized. cbn [free_insert free_low ci_low ci_new_leaf_path_indices
      ci_new_leaf_path_elements lw_path_indices lw_path_elements].
    by rewrite !length_index_bits, length_tree_siblings, length_mid_siblings. }
  apply verify_insert_true.
  change (ci_low (free_insert t v (n + 1))) with (free_low t (n + 1)).
  cbn [free_insert ci_new_low_next_index ci_new_leaf_path_indices ci_new_leaf_path_elements].
  fold n. rewrite !Z.sub_add. cbn [free_low lw_leaf_index lw_path_indices lw_path_elements].
  assert (0 ≤ n) by lia.
  split_and!; [lia| |lia|reflexivity|lia|reflexivity|lia|reflexivity| |reflexivity].
  - apply free_low_verifies; [done..|lia].
  - set (low' := mk_internal_leaf fr_zero n v).
    change (hash_imt_leaf fr_zero (fr_of_Z n) v) with (InternalLeaf_hash low').
    unfold compute_root_depth_24, tree_siblings.
    rewrite path_computes_update, div_depth by lia.
    rewrite <-(leaf_hash_at_free t n) by lia. unfold mid_siblings.
    change (Z.of_nat (length (imt_leaves t))) with n.
    set (f := fupd (leaf_hash_at (imt_leaves t)) (n + 1) (InternalLeaf_hash low')).
    assert (leaf_hash_at (imt_leaves t) n = f n) as -> by (unfold f; rewrite fupd_ne; [done|lia]).
    by rewrite path_computes_root, div_depth by lia.
Qed.

(** [membership] answers exactly for the stored values, and its witness
    (leaf, position and path) satisfies the circuit's membership check
    against the tree's root. *)
Lemma membership_witness_verifies t value :
  wf t →
  match imt_membership t value with
  | None => fr_from_be_bytes value ∉ values (imt_leaves t)
  | Some m =>
      fr_from_be_bytes value ∈ values (imt_leaves t) ∧
      fr_from_be_bytes (leaf_value (mem_leaf m)) = fr_from_be_bytes value ∧
      ∃ bits els, imt_path_indices_bool (mem_path m) = Ok bits ∧
        imt_path_elements (mem_path m) = Ok els ∧
        bits = index_bits 24 (mem_leaf_index m) ∧
        verify_membership (fr_from_be_bytes value)
          (fr_of_Z (leaf_next_index (mem_leaf m)))
          (fr_from_be_bytes (leaf_next_value (mem_leaf m))) (root_fr t) bits els = true
  end.
Proof.
  intros Hwf. destruct (imt_membership t value) as [m|] eqn:Hm;
    [|by apply imt_membership_None].
  apply imt_membership_Some in Hm as (i & x & Hi & Hx & ->).
  pose proof (position_bound _ _ _ Hwf Hi) as Hb.
  assert (as_u32 i = Z.of_nat i) as -> by (apply Z.mod_small; lia).
  unfold to_wire. cbn [mem_leaf mem_path mem_leaf_index leaf_value leaf_next_index leaf_next_value].
  rewrite !fr_from_to_be_bytes. split; [apply elem_of_values; eauto|]. split; [done|].
  destruct (circuit_path t (Z.of_nat i) Hwf ltac:(lia)) as [-> ->].
  eexists _, _. split_and!; [reflexivity..|].
  unfold verify_membership. apply fr_eqb_eq. rewrite <-Hx.
  change (hash_imt_leaf _ _ _) with (InternalLeaf_hash x).
  rewrite <-(leaf_hash_at_lookup _ _ _ Hi). by apply tree_opening.
Qed.

(** [non_membership] answers exactly for absent values, and its low leaf
    satisfies the circuit's non-membership check against the tree's root. *)
Lemma non_membership_witness_verifies t value :
  wf t →
  match imt_non_membership t value with
  | None => fr_from_be_bytes value ∈ values (imt_leaves t)
  | Some w => (fr_from_be_bytes value ∉ values (imt_leaves t)) ∧
      ∃ bits els, imt_path_indices_bool (nm_low_leaf_path w) = Ok bits ∧
        imt_path_elements (nm_low_leaf_path w) = Ok els ∧
        verify_non_membership (fr_from_be_bytes value) (root_fr t)
          (mk_low_witness (nm_low_leaf_index w)
             (fr_from_be_bytes (leaf_value (nm_low_leaf w)))
             (fr_of_Z (leaf_next_index (nm_low_leaf w)))
             (fr_from_be_bytes (leaf_next_value (nm_low_leaf w))) bits els) = true
  end.
Proof.
  intros Hwf. pose proof (imt_non_membership_spec t value Hwf) as Hs. cbn zeta in Hs.
  destruct (imt_non_membership t value) as [w|]; [|done].
  destruct Hs as (Hv & i & x & Hi & Hlow & ->). split; [done|].
  pose proof (position_bound _ _ _ Hwf Hi) as Hb.
  unfold to_wire. cbn [nm_low_leaf nm_low_leaf_path nm_low_leaf_index leaf_value
    leaf_next_index leaf_next_value]. rewrite !fr_from_to_be_bytes.
  destruct (circuit_path t (Z.of_nat i) Hwf ltac:(lia)) as [-> ->].
  eexists _, _. split_and!; [reflexivity..|]. apply verify_non_membership_true.
  cbn [lw_value lw_next_index lw_next_value lw_path_indices lw_path_elements].
  apply is_low_true in Hlow as [Hlt Hn]. split; [done|]. split.
  - destruct Hn as [?|Hz]; [by right|left].
    by eapply tail_next_index; [apply (wf_linked _ Hwf)| |].
  - change (hash_imt_leaf _ _ _) with (InternalLeaf_hash x).
    rewrite <-(leaf_hash_at_lookup _ _ _ Hi). by apply tree_opening.
Qed.
End soundness.

(** ** Evaluation on a concrete tree *)
Module ImtSample.
Import Toy.

Definition word (z : Z) : Bytes32 := be_of_Z 32 z.

(** The values 5, 3 and 9, in that order. *)
Definition sample_tree : IndexedMerkleTree :=
  match for_each insert_value imt_new [word 5; word 3; word 9] with
  | Ok t => t
  | _ => imt_new
  end.

Lemma sample_tree_wf : wf sample_tree.
Proof.
  pose proof (insert_values_cases imt_new [word 5; word 3; word 9] imt_new_wf) as H.
  unfold sample_tree. destruct (for_each insert_value imt_new _); try apply imt_new_wf.
  destruct (for_each abs_insert _ _); [|done..]. apply H.
Qed.

Definition isSome {A} (o : option A) : bool := match o with Some _ => true | None => false end.

Definition sample_witness : CircuitInsert :=
  match w ← map_err (λ _, EmptyTree) (imt_insert sample_tree (word 7));
        map_err (λ _, EmptyTree) (circuit_insert w.1) with
  | Ok cw => cw
  | _ => free_insert sample_tree (fr_of_Z 7) 6
  end.
Definition sample_next_root : Fr :=
  match insert_value sample_tree (word 7) with Ok t => root_fr t | _ => fr_zero end.

Lemma verify_insert_sound_witness :
  insert_collision sample_tree (fr_of_Z 7) sample_witness = None ∧
  fr_of_Z 7 ∉ values (imt_leaves sample_tree).
Proof.
  assert (insert_collision sample_tree (fr_of_Z 7) sample_witness = None) as Hn
    by (vm_compute; reflexivity).
  split; [exact Hn|].
  destruct (verify_insert_sound sample_tree (fr_of_Z 7) sample_next_root sample_witness
    sample_tree_wf) as [[H _]|(c & Hc & _)].
  - vm_compute; reflexivity.
  - vm_compute; split; [discriminate|reflexivity].
  - vm_compute; reflexivity.
  - exact H.
  - rewrite Hn in Hc. discriminate.
Defined.

End ImtSample.
