(* ===== verification/Records.v ===== *)
(** * Records shared by the roles

    The records of [types.rs] that the registry and the off-chain roles
    exchange: petitions, batches, global state, proof inputs, submissions and
    disputes.  Field names carry a prefix per record; widths are those of the
    Rust fields ([u8] is [byte], wider integers are [Z]). *)

From Stdlib Require Import ZArith Lia Bool.
From stdpp Require Import base tactics list strings numbers.
From S2P Require Import Prelude Field Types Predicate.

Record PetitionRecord : Type := mk_petition {
  pr_petition_id : PetitionId;
  pr_slot : Z;
  pr_r_root : Bytes32;
  pr_predicate_def : list byte;
  pr_predicate_hash : Bytes32;
  pr_salt : Bytes32;
  pr_class_set : list ClassTag;
  pr_class_thresholds : list Z;
  pr_class_index : byte;
  pr_close_at_block : Z;
  pr_bounty : U256Be.t;
  pr_alpha_at_registration : Z;
  pr_organizer : Address;
  pr_running_root : Bytes32;
  pr_identity_tag_set_root : Bytes32;
  pr_leaf_count : Z;
  pr_resolution_proof : list byte;
  pr_b : bool;
  pr_b_per_class : list bool;
  pr_state : PetitionState;
  pr_registration_block : Z;
}.

Record BatchRecord : Type := mk_batch {
  br_petition_id : PetitionId;
  br_batch_index : Z;
  br_batch_versioned_hash : Bytes32;
  br_new_running_root : Bytes32;
  br_new_identity_tag_set_root : Bytes32;
  br_prior_running_root : Bytes32;
  br_prior_identity_tag_set_root : Bytes32;
  br_prior_leaf_count : Z;
  br_new_leaf_count : Z;
  br_relayer : Address;
  br_submitted_at_block : Z;
  br_state : BatchState;
}.

Record GlobalState : Type := mk_global {
  gs_s : Z;
  gs_alpha : Z;
  gs_alpha_min : Z;
  gs_alpha_max : Z;
  gs_srs_hash : Bytes32;
  gs_chain_id : Z;
  gs_n : byte;
}.

Record RecordEntry : Type := mk_record {
  re_nullifier : Bytes32;
  re_identity_tag : Bytes32;
  re_class_tag : ClassTag;
}.
#[export] Instance RecordEntry_eq_dec : EqDecision RecordEntry.
Proof. solve_decision. Defined.

Record SignerPublicInputs : Type := mk_signer_public {
  sp_r_root : Fr;
  sp_petition_id : Fr;
  sp_predicate_hash : Fr;
  sp_class_index : Fr;
  sp_class_tag : Fr;
  sp_slot : Fr;
  sp_nullifier : Fr;
  sp_identity_tag : Fr;
}.

Record SignerPrivateInputs : Type := mk_signer_private {
  sw_identity_secret : Fr;
  sw_attr_vector : list Fr;
  sw_attr_version : Z;
  sw_chain_root : Fr;
  sw_ri_path_siblings : list Fr;
  sw_ri_path_indices : list byte;
  sw_s_slot : Fr;
  sw_chain_path_siblings : list Fr;
  sw_chain_path_indices : list byte;
  sw_salt : Fr;
  sw_predicate_def : PredicateDef;
}.

Record SignerSubmission : Type := mk_submission {
  sub_petition_id : PetitionId;
  sub_r_root : Bytes32;
  sub_predicate_hash : Bytes32;
  sub_class_index : byte;
  sub_slot : Z;
  sub_nullifier : Bytes32;
  sub_identity_tag : Bytes32;
  sub_class_tag : ClassTag;
  sub_proof_bytes : list byte;
}.

Record BatchPublicInputs : Type := mk_batch_public {
  bp_petition_id : Fr;
  bp_r_root : Fr;
  bp_predicate_hash : Fr;
  bp_class_index : Fr;
  bp_slot : Fr;
  bp_batch_size : Fr;
  bp_prior_running_root : Fr;
  bp_new_running_root : Fr;
  bp_prior_identity_tag_set_root : Fr;
  bp_new_identity_tag_set_root : Fr;
  bp_prior_leaf_count : Fr;
  bp_new_leaf_count : Fr;
  bp_batch_versioned_hash : Fr;
  bp_bls_fields : list Fr;
  bp_signer_vk_hash : Fr;
}.

Record ResolutionPublicInputs : Type := mk_resolution_public {
  rp_predicate_hash : Fr;
  rp_r_root : Fr;
  rp_running_root : Fr;
  rp_leaf_count : Fr;
  rp_class_set : list Fr;
  rp_class_thresholds : list Fr;
  rp_b : Fr;
  rp_b_per_class : list Fr;
  rp_class_index : Fr;
}.

Record ImtMembershipFr : Type := mk_membership_fr {
  mf_leaf_hash : Fr;
  mf_leaf_index : Z;
  mf_next_index : Z;
  mf_next_value : Fr;
  mf_siblings : list Fr;
  mf_indices : list byte;
}.

Record ResolutionPrivateInputs : Type := mk_resolution_private {
  rw_leaves : list Fr;
  rw_imt_membership_paths : list ImtMembershipFr;
  rw_witness_pairs : list (Fr * Fr);
}.

Record BatchSubmission : Type := mk_batch_submission {
  bs_public_inputs : BatchPublicInputs;
  bs_records : list RecordEntry;
  bs_proof_bytes : list byte;
}.

Record ResolutionSubmission : Type := mk_resolution_submission {
  rs_public_inputs : ResolutionPublicInputs;
  rs_proof_bytes : list byte;
}.

Record KzgOpening : Type := mk_opening {
  ko_field_element_index : Z;
  ko_claimed_value : Bytes32;
  ko_proof_bytes : list byte;
}.

Record Dispute : Type := mk_dispute {
  di_petition_id : PetitionId;
  di_batch_index : Z;
  di_violation_type : ViolationType;
  di_position_i : Z;
  di_position_j : option Z;
  di_openings : list KzgOpening;
}.

Record SignerStateBytes : Type := mk_signer_state_bytes {
  ss_s_curr : Bytes32;
  ss_t : Z;
  ss_caterpillar : list Bytes32;
  ss_chain_root : Bytes32;
  ss_attr_version : Z;
}.

Record SignerCredentials : Type := mk_credentials {
  sc_identity_secret : Bytes32;
  sc_attr_vector : list Bytes32;
  sc_ri_leaf_index : Z;
}.
