(* ===== verification/Fsrt.v ===== *)
(** * The forward-secure ratchet

    Model of [fsrt.rs]: the seed chain, its sparse Merkle root and paths, the
    caterpillar frontier and the signer's chain state with its journal.

    The sparse constructions are shown equal to the reference tree [mroot]
    over the chain values, zeros after them; the caterpillar is a binary
    counter whose set digits hold the completed subtrees. *)

From Stdlib Require Import ZArith Lia Bool.
From stdpp Require Import base tactics list strings numbers.
From S2P Require Import Prelude Field Types Records Poseidon Merkle.

Record ExpandedChain : Type := mk_expanded {
  v_values : list Fr;
  s_seeds : list Fr;
}.

Section fsrt.
Context `{C : Crypto}.

(** The [for] loop of [expand_chain] with [n] rounds to go. *)
Fixpoint expand (n : nat) (s_i : Fr) : list Fr * list Fr :=
  match n with
  | O => ([], [])
  | S n' =>
      let '(v_i, s_next) := fsrt_prg_step s_i in
      let '(vs, ss) := expand n' s_next in
      (v_i :: vs, s_i :: ss)
  end.

Definition expand_chain (s_0 : Fr) (n_override : option Z) : ExpandedChain :=
  let n := Z.to_nat (default FSRT_SLOT_COUNT n_override) in
  let '(vs, ss) := expand n s_0 in
  mk_expanded vs ss.

(** [compute_empty_subtree]: level 0 is the zero leaf. *)
Fixpoint empty_from (n : nat) (h : Fr) : list Fr :=
  match n with
  | O => [h]
  | S n' => h :: empty_from n' (hash_merkle_node h h)
  end.
Definition fsrt_empty_subtree : list Fr := empty_from FSRT_DEPTH (fr_of_Z 0).
Arguments fsrt_empty_subtree : simpl never.

(** [layer.chunks(2)] on an even layer, hashed pair by pair. *)
Fixpoint pair_up (layer : list Fr) : list Fr :=
  match layer with
  | a :: b :: layer' => hash_merkle_node a b :: pair_up layer'
  | _ => []
  end.

Definition pad_layer (empty : list Fr) (level : nat) (layer : list Fr) : list Fr :=
  if negb (Nat.even (length layer)) then layer ++ [fr_at empty level] else layer.

(** The [while] loop with [n = FSRT_DEPTH - level] rounds to go. *)
Fixpoint root_loop {E} (empty : list Fr) (n level : nat) (layer : list Fr)
  : outcome E Fr :=
  match n with
  | O => index layer 0
  | S n' =>
      if (length layer =? 1)%nat then
        first ← index layer 0;
        Ok (foldl hash_merkle_node first (take n (drop level empty)))
      else root_loop empty n' (S level) (pair_up (pad_layer empty level layer))
  end.

Definition compute_chain_root {E} (vs : list Fr) : outcome E Fr :=
  let empty := fsrt_empty_subtree in
  match vs with
  | [] => index empty FSRT_DEPTH
  | _ => root_loop empty FSRT_DEPTH 0 vs
  end.

(** The [for] loop of [compute_path] with [n = FSRT_DEPTH - level] to go. *)
Fixpoint chain_path_loop (empty : list Fr) (n level : nat) (layer : list Fr) (idx : Z)
  : list Fr * list byte :=
  match n with
  | O => ([], [])
  | S n' =>
      if (length layer <=? 1)%nat then
        let rest := take n (drop level empty) in
        (rest, map (λ _, x00) rest)
      else
        let layer := pad_layer empty level layer in
        let sib_idx := Z.lxor idx 1 in
        let sib := if sib_idx <? Z.of_nat (length layer)
                   then fr_at layer (Z.to_nat sib_idx) else fr_at empty level in
        let '(ss, is_) := chain_path_loop empty n' (S level) (pair_up layer) (idx / 2) in
        (sib :: ss, byte_of_Z (idx mod 2) :: is_)
  end.

Definition compute_path (vs : list Fr) (index : Z) : list Fr * list byte :=
  chain_path_loop fsrt_empty_subtree FSRT_DEPTH 0 vs index.
End fsrt.

(** ** The caterpillar *)
Record Caterpillar : Type := mk_caterpillar {
  ct_frontier : list Fr;
  ct_active : list (option Fr);
  ct_t : Z;
  ct_empty_subtree : list Fr;
}.

Section caterpillar.
Context `{C : Crypto}.

Definition caterpillar_empty : Caterpillar :=
  mk_caterpillar (replicate FSRT_DEPTH (fr_of_Z 0)) (replicate FSRT_DEPTH None) 0
    fsrt_empty_subtree.

Definition caterpillar_slot (c : Caterpillar) : Z := ct_t c.

Definition active_at (c : Caterpillar) (level : nat) : Fr :=
  match ct_active c !! level with
  | Some (Some h) => h
  | _ => fr_at (ct_empty_subtree c) level
  end.

(** The carry loop of [advance] with [n] levels to go. *)
Fixpoint carry_loop (n level : nat) (idx : Z) (carry : Fr) (c : Caterpillar)
  : Caterpillar :=
  match n with
  | O => c
  | S n' =>
      if Z.even idx then
        mk_caterpillar (ct_frontier c) (<[level := Some carry]> (ct_active c)) (ct_t c)
          (ct_empty_subtree c)
      else
        let left_ := active_at c level in
        carry_loop n' (S level) (idx / 2) (hash_merkle_node left_ carry)
          (mk_caterpillar (<[level := left_]> (ct_frontier c))
             (<[level := None]> (ct_active c)) (ct_t c) (ct_empty_subtree c))
  end.

Definition caterpillar_advance {E} (c : Caterpillar) (slot : Z) (v_slot : Fr)
  : outcome E Caterpillar :=
  assert_ (slot =? ct_t c);;
  let c' := carry_loop FSRT_DEPTH 0 (ct_t c) v_slot c in
  t' ← expect (checked_add 32 (ct_t c') 1);
  Ok (mk_caterpillar (ct_frontier c') (ct_active c') t' (ct_empty_subtree c')).

Fixpoint frontier_path (n level : nat) (idx : Z) (c : Caterpillar)
  : list Fr * list byte :=
  match n with
  | O => ([], [])
  | S n' =>
      let sib := if Z.even idx then fr_at (ct_empty_subtree c) level
                 else active_at c level in
      let '(ss, is_) := frontier_path n' (S level) (idx / 2) c in
      (sib :: ss, byte_of_Z (idx mod 2) :: is_)
  end.

Definition path_for_current_slot (c : Caterpillar) : list Fr * list byte :=
  frontier_path FSRT_DEPTH 0 (ct_t c) c.

Definition caterpillar_to_bytes (c : Caterpillar) : list Bytes32 :=
  map (λ i, fr_to_be_bytes (active_at c i)) (seq 0 FSRT_DEPTH).
End caterpillar.

(** ** The signer's chain state *)
Record SignerChainState : Type := mk_chain_state {
  cs_s_curr : Fr;
  cs_t : Z;
  cs_caterpillar : Caterpillar;
  cs_chain_root : Fr;
  cs_attr_version : Z;
  cs_v_values : list Fr;
  cs_s_seeds : list Fr;
}.

Section chain_state.
Context `{C : Crypto}.

Definition enroll {E} (s_0 : Fr) (chain_len attr_version : Z)
  : outcome E SignerChainState :=
  let expanded := expand_chain s_0 (Some chain_len) in
  chain_root ← compute_chain_root (v_values expanded);
  Ok (mk_chain_state s_0 0 caterpillar_empty chain_root attr_version
        (v_values expanded) (s_seeds expanded)).

Definition set_head (s : SignerChainState) (t : Z) (c : Caterpillar) : SignerChainState :=
  mk_chain_state (cs_s_curr s) t c (cs_chain_root s) (cs_attr_version s)
    (cs_v_values s) (cs_s_seeds s).

(** [while self.t < target_slot]; [target_slot - t] rounds are enough. *)
Fixpoint advance_loop {E} (fuel : nat) (target_slot : Z) (s : SignerChainState)
  : outcome E SignerChainState :=
  if cs_t s <? target_slot then
    match fuel with
    | O => Ok s
    | S fuel' =>
        v ← index (cs_v_values s) (Z.to_nat (cs_t s));
        c ← caterpillar_advance (cs_caterpillar s) (cs_t s) v;
        advance_loop fuel' target_slot (set_head s (cs_t s + 1) c)
    end
  else Ok s.

Definition chain_len (s : SignerChainState) : Z :=
  Z.of_nat (length (cs_v_values s)) mod 2 ^ 32.

Definition advance_to {E} (s : SignerChainState) (target_slot : Z)
  : outcome E SignerChainState :=
  assert_ (target_slot <? chain_len s);;
  assert_ (cs_t s <=? target_slot);;
  advance_loop (Z.to_nat (target_slot - cs_t s)) target_slot s.

Definition v_at_current_slot {E} (s : SignerChainState) : outcome E Fr :=
  index (cs_v_values s) (Z.to_nat (cs_t s)).

Definition s_at (s : SignerChainState) (slot : Z) : Fr :=
  default (fr_of_Z 0) (cs_s_seeds s !! Z.to_nat slot).

Definition merkle_path_for_current_slot (s : SignerChainState) : list Fr * list byte :=
  compute_path (cs_v_values s) (cs_t s).

(** The journal file: the fields one after the other. *)
Definition journal_bytes (b : SignerStateBytes) : list byte :=
  ss_s_curr b ++ be_of_Z 4 (ss_t b) ++ concat (ss_caterpillar b) ++ ss_chain_root b
    ++ be_of_Z 4 (ss_attr_version b).

Definition wipe (upto : nat) (l : list Fr) : list Fr :=
  replicate (upto `min` length l) (fr_of_Z 0) ++ drop upto l.

(** [persist] stands for the file-system calls (temporary file, rename and
    both syncs); the state changes only when they all succeed. *)
Definition journal_finalized_signing {Io} (persist : list byte → outcome Io unit)
  (s : SignerChainState) (slot : Z)
  : outcome Io (SignerStateBytes * SignerChainState) :=
  assert_ (slot =? cs_t s);;
  s_slot ← index (cs_s_seeds s) (Z.to_nat slot);
  let s_next := (fsrt_prg_step s_slot).2 in
  v_slot ← index (cs_v_values s) (Z.to_nat slot);
  next_caterpillar ← caterpillar_advance (cs_caterpillar s) slot v_slot;
  let next_t := slot + 1 in
  let next_state := mk_signer_state_bytes (fr_to_be_bytes s_next) next_t
    (caterpillar_to_bytes next_caterpillar) (fr_to_be_bytes (cs_chain_root s))
    (cs_attr_version s) in
  persist (journal_bytes next_state);;
  Ok (next_state,
      mk_chain_state s_next next_t next_caterpillar (cs_chain_root s) (cs_attr_version s)
        (wipe (S (Z.to_nat slot)) (cs_v_values s))
        (wipe (S (Z.to_nat slot)) (cs_s_seeds s))).

Definition to_bytes (s : SignerChainState) : SignerStateBytes :=
  mk_signer_state_bytes (fr_to_be_bytes (cs_s_curr s)) (cs_t s)
    (caterpillar_to_bytes (cs_caterpillar s)) (fr_to_be_bytes (cs_chain_root s))
    (cs_attr_version s).

Definition chain_root_from_bytes (state : SignerStateBytes) : Fr :=
  fr_from_be_bytes (ss_chain_root state).
End chain_state.

(** ** The sparse construction is the full tree *)
Section chain_tree.
Context `{C : Crypto}.

(** Chain values by position, zeros after them. *)
Definition chain_leaf (vs : list Fr) (i : Z) : Fr := default fr_zero (vs !! Z.to_nat i).

Definition chain_node (vs : list Fr) (level : nat) (i : Z) : Fr :=
  mroot hash_merkle_node level (chain_leaf vs) i.

(** A layer holds the nodes of its level; past its end they are empty. *)
Definition layer_ok (vs : list Fr) (level : nat) (layer : list Fr) : Prop :=
  ∀ i : nat, chain_node vs level (Z.of_nat i)
    = default (fr_at fsrt_empty_subtree level) (layer !! i).

Lemma fsrt_empty_step level :
  (level < FSRT_DEPTH)%nat →
  fr_at fsrt_empty_subtree (S level)
  = hash_merkle_node (fr_at fsrt_empty_subtree level) (fr_at fsrt_empty_subtree level).
Proof.
  unfold fsrt_empty_subtree, fr_at. generalize FSRT_DEPTH (fr_of_Z 0). intros n.
  revert level; induction n as [|n IH]; intros level h Hl; [lia|].
  destruct level as [|level]; [by destruct n|].
  cbn [empty_from lookup list_lookup]. apply IH. lia.
Qed.

Lemma length_fsrt_empty : length fsrt_empty_subtree = S FSRT_DEPTH.
Proof. reflexivity. Qed.

Lemma fsrt_empty_zero : fr_at fsrt_empty_subtree 0 = fr_zero.
Proof. reflexivity. Qed.

#[local] Opaque fsrt_empty_subtree.

Lemma fsrt_empty_lookup level :
  (level ≤ FSRT_DEPTH)%nat → fsrt_empty_subtree !! level = Some (fr_at fsrt_empty_subtree level).
Proof.
  intros Hl. unfold fr_at. destruct (fsrt_empty_subtree !! level) eqn:E; [done|].
  apply lookup_ge_None in E. rewrite length_fsrt_empty in E. lia.
Qed.

Lemma pad_layer_ok vs level layer :
  layer_ok vs level layer → layer_ok vs level (pad_layer fsrt_empty_subtree level layer).
Proof.
  intros Hl. unfold pad_layer. case_match; [|done]. intros i. rewrite Hl.
  destruct (decide (i < length layer)%nat); [by rewrite lookup_app_l|].
  rewrite (lookup_ge_None_2 layer), lookup_app_r by lia.
  generalize (fr_at fsrt_empty_subtree level). intros e. by destruct (i - length layer)%nat.
Qed.

Lemma pad_layer_single empty level h : pad_layer empty level [h] = [h; fr_at empty level].
Proof. reflexivity. Qed.

Lemma pad_layer_even empty level layer :
  Nat.even (length (pad_layer empty level layer)) = true.
Proof.
  unfold pad_layer. destruct (Nat.even (length layer)) eqn:E; cbn [negb]; [done|].
  rewrite length_app, Nat.add_1_r, Nat.even_succ, <-Nat.negb_even, E. done.
Qed.

Lemma pair_up_lookup layer i :
  Nat.even (length layer) = true →
  pair_up layer !! i
  = a ← layer !! (2 * i)%nat; b ← layer !! (2 * i + 1)%nat; Some (hash_merkle_node a b).
Proof.
  remember (length layer) as n eqn:Hn. revert layer i Hn.
  induction n as [n IH] using lt_wf_ind. intros [|a [|b layer]] i Hn He; cbn [pair_up].
  - done.
  - by rewrite Hn in He.
  - destruct i as [|i]; [done|].
    replace (2 * S i)%nat with (S (S (2 * i))) by lia. cbn [lookup list_lookup Nat.add].
    rewrite Hn in He. cbn in Hn, He. eapply (IH (length layer)); [lia|done|done].
Qed.

Lemma length_pair_up layer : length (pair_up layer) = (length layer / 2)%nat.
Proof.
  remember (length layer) as n eqn:Hn. revert layer Hn.
  induction n as [n IH] using lt_wf_ind. intros [|a [|b layer]] Hn; subst n; [done..|].
  cbn [pair_up length]. rewrite (IH (length layer)) by (cbn; lia).
  replace (S (S (length layer))) with (length layer + 1 * 2)%nat by lia.
  rewrite Nat.div_add by lia. lia.
Qed.

Lemma pair_up_ok vs level layer :
  (level < FSRT_DEPTH)%nat → Nat.even (length layer) = true →
  layer_ok vs level layer → layer_ok vs (S level) (pair_up layer).
Proof.
  intros Hlev He Hl i. unfold chain_node. cbn [mroot].
  replace (2 * Z.of_nat i) with (Z.of_nat (2 * i)) by lia.
  replace (Z.of_nat (2 * i) + 1) with (Z.of_nat (2 * i + 1)) by lia.
  pose proof (Hl (2 * i)%nat) as H1. pose proof (Hl (2 * i + 1)%nat) as H2.
  unfold chain_node in H1, H2. rewrite H1, H2, pair_up_lookup by done.
  apply Nat.even_spec in He as [k Hk].
  destruct (decide (i < k)%nat).
  - destruct (lookup_lt_is_Some_2 layer (2 * i)) as [a ->]; [lia|].
    destruct (lookup_lt_is_Some_2 layer (2 * i + 1)) as [b ->]; [lia|]. done.
  - rewrite !lookup_ge_None_2 by lia. symmetry. by apply fsrt_empty_step.
Qed.

Lemma foldl_take_cons {A B} (f : A → B → A) h n e l :
  foldl f h (take (S n) (e :: l)) = foldl f (f h e) (take n l).
Proof. reflexivity. Qed.

Lemma layer_ok_single vs level h :
  (level < FSRT_DEPTH)%nat → layer_ok vs level [h] →
  layer_ok vs (S level) [hash_merkle_node h (fr_at fsrt_empty_subtree level)].
Proof.
  intros Hlev Hl. generalize (pair_up_ok vs level (pad_layer fsrt_empty_subtree level [h])
    Hlev (pad_layer_even _ _ _) (pad_layer_ok _ _ _ Hl)).
  rewrite pad_layer_single. cbn [pair_up]. intros Hp. exact Hp.
Qed.

(** A one-element layer is folded with the empty subtrees to its right. *)
Lemma fold_empty_ok vs n level h :
  (level + n = FSRT_DEPTH)%nat → layer_ok vs level [h] →
  foldl hash_merkle_node h (take n (drop level fsrt_empty_subtree))
  = chain_node vs FSRT_DEPTH 0.
Proof.
  revert level h; induction n as [|n IH]; intros level h Hn Hl.
  { rewrite Nat.add_0_r in Hn. subst level. specialize (Hl 0%nat). revert Hl.
    generalize (fr_at fsrt_empty_subtree FSRT_DEPTH). intros e Hl. symmetry. exact Hl. }
  assert (fsrt_empty_subtree !! level = Some (fr_at fsrt_empty_subtree level)) as He
    by (apply fsrt_empty_lookup; lia).
  rewrite (drop_S _ _ _ He), foldl_take_cons. apply IH; [lia|].
  apply layer_ok_single; [lia|exact Hl].
Qed.

Lemma pair_up_nonempty empty level layer :
  layer ≠ [] → pair_up (pad_layer empty level layer) ≠ [].
Proof.
  intros Hne. destruct layer as [|a [|b layer]]; [done|done|].
  unfold pad_layer. by case_match.
Qed.

Lemma root_loop_ok {E} vs n level layer :
  (level + n = FSRT_DEPTH)%nat → layer_ok vs level layer → layer ≠ [] →
  @root_loop _ E fsrt_empty_subtree n level layer = Ok (chain_node vs FSRT_DEPTH 0).
Proof.
  revert level layer; induction n as [|n IH]; intros level layer Hn Hl Hne; cbn [root_loop].
  - rewrite Nat.add_0_r in Hn. subst level. destruct layer as [|a layer]; [done|].
    unfold index. cbn [lookup list_lookup expect]. f_equal. symmetry. apply (Hl 0%nat).
  - case_match eqn:E1; reflect_bools.
    + destruct layer as [|a [|b layer]]; [done| |done]. unfold index.
      cbn [lookup list_lookup expect mbind outcome_bind]. f_equal. by apply fold_empty_ok.
    + apply IH; [lia| |by apply pair_up_nonempty].
      apply pair_up_ok; [lia|apply pad_layer_even|by apply pad_layer_ok].
Qed.

Lemma layer_ok_base vs : layer_ok vs 0 vs.
Proof.
  intros i. unfold chain_node, chain_leaf. cbn [mroot]. by rewrite Nat2Z.id, fsrt_empty_zero.
Qed.

Lemma chain_root_eq {E} vs :
  @compute_chain_root _ E vs = Ok (chain_node vs FSRT_DEPTH 0).
Proof.
  unfold compute_chain_root. destruct vs as [|v vs].
  - unfold index.
    assert (chain_node [] FSRT_DEPTH 0 = fr_at fsrt_empty_subtree FSRT_DEPTH) as ->.
    { assert (∀ level, (level ≤ FSRT_DEPTH)%nat → ∀ i, chain_node [] level i
        = fr_at fsrt_empty_subtree level) as Hn; [|by apply Hn].
      intros level. induction level as [|level IH]; intros Hl i; [by rewrite fsrt_empty_zero|].
      unfold chain_node in *. cbn [mroot]. rewrite !IH, fsrt_empty_step by lia. done. }
    by rewrite fsrt_empty_lookup.
  - apply root_loop_ok; [done|apply layer_ok_base|done].
Qed.

(** ** Paths *)
Definition bits_bytes (d : nat) (i : Z) : list byte :=
  map (λ b : bool, if b then x01 else x00) (index_bits d i).

Lemma single_path vs n level h :
  (level + n = FSRT_DEPTH)%nat → layer_ok vs level [h] →
  take n (drop level fsrt_empty_subtree) = path_siblings n (chain_node vs) level 0.
Proof.
  revert level h; induction n as [|n IH]; intros level h Hn Hl; [done|].
  assert (fsrt_empty_subtree !! level = Some (fr_at fsrt_empty_subtree level)) as He
    by (apply fsrt_empty_lookup; lia).
  rewrite (drop_S _ _ _ He). cbn [take path_siblings]. f_equal.
  - symmetry. etrans; [apply (Hl 1%nat)|]. generalize (fr_at fsrt_empty_subtree level).
    reflexivity.
  - change (0 / 2) with 0. eapply IH; [lia|]. apply layer_ok_single; [lia|exact Hl].
Qed.

Lemma index_bits_zero n : bits_bytes n 0 = replicate n x00.
Proof. unfold bits_bytes. induction n as [|n IH]; [done|]. cbn. by f_equal. Qed.

Lemma bits_bytes_S n i :
  bits_bytes (S n) i = byte_of_Z (i mod 2) :: bits_bytes n (i / 2).
Proof.
  unfold bits_bytes. cbn [index_bits map]. f_equal. rewrite Zmod_odd. by destruct (Z.odd i).
Qed.

Lemma map_const {A B} (y : B) (l : list A) : map (λ _, y) l = replicate (length l) y.
Proof. induction l; cbn; congruence. Qed.

(** Reading the sibling out of the padded layer. *)
Lemma layer_sibling vs level layer idx :
  layer_ok vs level layer → 0 ≤ idx →
  (if Z.lxor idx 1 <? Z.of_nat (length layer)
   then fr_at layer (Z.to_nat (Z.lxor idx 1)) else fr_at fsrt_empty_subtree level)
  = chain_node vs level (Z.lxor idx 1).
Proof.
  intros Hl Hi. assert (0 ≤ Z.lxor idx 1) as Hx by (apply Z.lxor_nonneg; lia).
  rewrite <-(Z2Nat.id (Z.lxor idx 1)) at 3 by done. rewrite (Hl (Z.to_nat _)).
  generalize (fr_at fsrt_empty_subtree level). intros e. case_match; reflect_bools.
  - unfold fr_at. destruct (lookup_lt_is_Some_2 layer (Z.to_nat (Z.lxor idx 1)))
      as [x ->]; [lia|]. done.
  - by rewrite lookup_ge_None_2 by lia.
Qed.

Lemma length_pad_layer empty level layer :
  (length layer ≤ length (pad_layer empty level layer))%nat.
Proof. unfold pad_layer. case_match; [|done]. rewrite length_app. lia. Qed.

Lemma path_loop_ok vs n level layer idx :
  (level + n = FSRT_DEPTH)%nat → layer_ok vs level layer →
  0 ≤ idx < Z.of_nat (length layer) →
  chain_path_loop fsrt_empty_subtree n level layer idx
  = (path_siblings n (chain_node vs) level idx, bits_bytes n idx).
Proof.
  revert level layer idx; induction n as [|n IH]; intros level layer idx Hn Hl Hi;
    cbn [chain_path_loop]; [done|].
  case_match eqn:E1; reflect_bools.
  - destruct layer as [|h [|h' layer]]; cbn [length] in *; [lia| |lia].
    assert (idx = 0) as -> by lia. rewrite (single_path vs (S n) level h) by done.
    by rewrite index_bits_zero, map_const, length_path_siblings.
  - pose proof (pad_layer_ok _ _ _ Hl) as Hl'.
    pose proof (pad_layer_even fsrt_empty_subtree level layer) as He.
    pose proof (length_pad_layer fsrt_empty_subtree level layer) as Hlen.
    rewrite (layer_sibling vs) by (done || lia).
    rewrite (IH (S level)); [by rewrite bits_bytes_S|lia|apply pair_up_ok; [lia|done..]|].
    rewrite length_pair_up. apply Nat.even_spec in He as [k Hk]. rewrite Hk in *.
    rewrite Nat.mul_comm, Nat.div_mul by lia. split; [apply Z.div_pos; lia|].
    apply Z.div_lt_upper_bound; lia.
Qed.

Lemma compute_path_eq vs i :
  0 ≤ i < Z.of_nat (length vs) →
  compute_path vs i
  = (path_siblings FSRT_DEPTH (chain_node vs) 0 i, bits_bytes FSRT_DEPTH i).
Proof. intros Hi. by apply path_loop_ok; [|apply layer_ok_base|]. Qed.

(** ** The caterpillar is a binary counter *)

(** The completed subtrees to the left of slot [t], one per set digit. *)
Definition digits_ok (vs : list Fr) (t : Z) (c : Caterpillar) : Prop :=
  length (ct_active c) = FSRT_DEPTH ∧ ct_empty_subtree c = fsrt_empty_subtree ∧
  ∀ l, (l < FSRT_DEPTH)%nat → ct_active c !! l = Some
    (if Z.odd (t / 2 ^ Z.of_nat l) then Some (chain_node vs l (t / 2 ^ Z.of_nat l - 1))
     else None).

Lemma odd_succ_carry i l :
  0 ≤ i → Z.odd i = true →
  (i + 1) / 2 ^ Z.of_nat (S l) = (i / 2 + 1) / 2 ^ Z.of_nat l.
Proof.
  intros Hi Ho. rewrite div_pow_succ. f_equal. pose proof (odd_div2 i Hi) as E.
  rewrite Ho in E. rewrite E at 1. replace (2 * (i / 2) + 1 + 1) with ((i / 2 + 1) * 2) by lia.
  apply Z.div_mul. lia.
Qed.

Lemma even_succ_high i l :
  0 ≤ i → Z.even i = true → (i + 1) / 2 ^ Z.of_nat (S l) = i / 2 ^ Z.of_nat (S l).
Proof.
  intros Hi He. rewrite !div_pow_succ. f_equal. pose proof (odd_div2 i Hi) as E.
  rewrite <-Z.negb_even, He in E. cbn in E. rewrite E at 1. symmetry.
  apply (Z.div_unique _ _ _ 1); lia.
Qed.

(** The carry loop from [level]: [idx] counts the completed subtrees of that
    level and [carry] is the next one. *)
Lemma carry_loop_ok vs n level idx carry c :
  (level + n = FSRT_DEPTH)%nat → 0 ≤ idx < 2 ^ Z.of_nat n →
  length (ct_active c) = FSRT_DEPTH → ct_empty_subtree c = fsrt_empty_subtree →
  carry = chain_node vs level idx →
  (∀ l, (level ≤ l < FSRT_DEPTH)%nat → let q := idx / 2 ^ Z.of_nat (l - level) in
     ct_active c !! l = Some (if Z.odd q then Some (chain_node vs l (q - 1)) else None)) →
  let c' := carry_loop n level idx carry c in
  length (ct_active c') = FSRT_DEPTH ∧ ct_empty_subtree c' = fsrt_empty_subtree ∧
  ct_t c' = ct_t c ∧
  (∀ l, (l < level)%nat → ct_active c' !! l = ct_active c !! l) ∧
  (∀ l, (level ≤ l < FSRT_DEPTH)%nat → let q := (idx + 1) / 2 ^ Z.of_nat (l - level) in
     ct_active c' !! l = Some (if Z.odd q then Some (chain_node vs l (q - 1)) else None)).
Proof.
  revert level idx carry c; induction n as [|n IH];
    intros level idx carry c Hn Hidx Hlen Hemp Hcar Hact; cbn [carry_loop].
  { split_and!; try done. intros; lia. }
  destruct (Z.even idx) eqn:He.
  - cbn [ct_active ct_empty_subtree ct_t]. split_and!; try done; [by rewrite length_insert|..].
    + intros l Hl. rewrite list_lookup_insert_ne by lia. done.
    + intros l Hl. cbn zeta. destruct (decide (l = level)) as [->|Hne].
      * rewrite list_lookup_insert_eq by lia. rewrite Nat.sub_diag, Z.div_1_r.
        rewrite Z.add_1_r, Z.odd_succ, He, <-Z.add_1_r, Z.add_simpl_r. by rewrite Hcar.
      * rewrite list_lookup_insert_ne by lia.
        specialize (Hact l ltac:(lia)). cbn zeta in Hact.
        replace (l - level)%nat with (S (l - S level)) in * by lia.
        by rewrite even_succ_high by (done || lia).
  - assert (Z.odd idx = true) as Ho by by rewrite <-Z.negb_even, He.
    assert (active_at c level = chain_node vs level (idx - 1)) as Hleft.
    { unfold active_at. rewrite (Hact level ltac:(lia)).
      by rewrite Nat.sub_diag, Z.div_1_r, Ho. }
    set (c1 := mk_caterpillar _ _ _ _).
    destruct (IH (S level) (idx / 2) (hash_merkle_node (active_at c level) carry) c1)
      as (H1 & H2 & H3 & H4 & H5); clear IH; try done; try lia.
    + rewrite Nat2Z.inj_succ, Z.pow_succ_r in Hidx by lia.
      split; [apply Z.div_pos; lia|apply Z.div_lt_upper_bound; lia].
    + cbn. by rewrite length_insert.
    + rewrite Hleft, Hcar. unfold chain_node. cbn [mroot].
      pose proof (odd_div2 idx ltac:(lia)) as E. rewrite Ho in E. f_equal; f_equal; lia.
    + intros l Hl. cbn [ct_active c1]. rewrite list_lookup_insert_ne by lia.
      specialize (Hact l ltac:(lia)). cbn zeta in *.
      replace (l - level)%nat with (S (l - S level)) in Hact by lia.
      by rewrite div_pow_succ in Hact.
    + split_and!; try done.
      * intros l Hl. rewrite H4 by lia. cbn [ct_active c1].
        by rewrite list_lookup_insert_ne by lia.
      * intros l Hl. cbn zeta. destruct (decide (l = level)) as [->|Hne].
        -- rewrite H4 by lia. cbn [ct_active c1]. rewrite list_lookup_insert_eq by lia.
           rewrite Nat.sub_diag, Z.div_1_r, Z.add_1_r, Z.odd_succ, He. done.
        -- specialize (H5 l ltac:(lia)). cbn zeta in H5. rewrite H5.
           replace (l - level)%nat with (S (l - S level)) by lia.
           by rewrite odd_succ_carry by (done || lia).
Qed.

(** The last completed left child of a level with [q] completed parents. *)
Definition last_left (vs : list Fr) (l : nat) (q : Z) : Fr :=
  if q =? 0 then fr_zero else chain_node vs l (2 * (q - 1)).

Definition frontier_ok (vs : list Fr) (t : Z) (c : Caterpillar) : Prop :=
  length (ct_frontier c) = FSRT_DEPTH ∧
  ∀ l, (l < FSRT_DEPTH)%nat → ct_frontier c !! l = Some (last_left vs l (t / 2 ^ Z.of_nat (S l))).

(** The carry loop writes the left child it consumes into the frontier. *)
Lemma carry_loop_frontier vs n level idx carry c :
  (level + n = FSRT_DEPTH)%nat → 0 ≤ idx → length (ct_frontier c) = FSRT_DEPTH →
  (∀ l, (level ≤ l < FSRT_DEPTH)%nat → let q := idx / 2 ^ Z.of_nat (l - level) in
     ct_active c !! l = Some (if Z.odd q then Some (chain_node vs l (q - 1)) else None)) →
  (∀ l, (level ≤ l < FSRT_DEPTH)%nat →
     ct_frontier c !! l = Some (last_left vs l (idx / 2 ^ Z.of_nat (S (l - level))))) →
  let c' := carry_loop n level idx carry c in
  length (ct_frontier c') = FSRT_DEPTH ∧
  (∀ l, (l < level)%nat → ct_frontier c' !! l = ct_frontier c !! l) ∧
  (∀ l, (level ≤ l < FSRT_DEPTH)%nat →
     ct_frontier c' !! l = Some (last_left vs l ((idx + 1) / 2 ^ Z.of_nat (S (l - level))))).
Proof.
  revert level idx carry c; induction n as [|n IH];
    intros level idx carry c Hn Hidx Hlen Hact Hfr; cbn [carry_loop].
  { split_and!; try done. intros; lia. }
  destruct (Z.even idx) eqn:He.
  { cbn [ct_frontier]. split_and!; try done. intros l Hl. rewrite even_succ_high by done. by apply Hfr. }
  assert (Z.odd idx = true) as Ho by by rewrite <-Z.negb_even, He.
  pose proof (odd_div2 idx Hidx) as E. rewrite Ho in E.
  assert (active_at c level = chain_node vs level (idx - 1)) as Hleft.
  { unfold active_at. rewrite (Hact level ltac:(lia)). by rewrite Nat.sub_diag, Z.div_1_r, Ho. }
  set (c1 := mk_caterpillar _ _ _ _).
  destruct (IH (S level) (idx / 2) (hash_merkle_node (active_at c level) carry) c1)
    as (H1 & H2 & H3); clear IH; try done; try lia.
  - cbn. by rewrite length_insert.
  - intros l Hl. cbn [ct_active c1]. rewrite list_lookup_insert_ne by lia.
    specialize (Hact l ltac:(lia)). cbn zeta in *.
    replace (l - level)%nat with (S (l - S level)) in Hact by lia. by rewrite div_pow_succ in Hact.
  - intros l Hl. cbn [ct_frontier c1]. rewrite list_lookup_insert_ne by lia.
    rewrite (Hfr l) by lia. replace (l - level)%nat with (S (l - S level)) by lia.
    by rewrite div_pow_succ.
  - split_and!; [done| |].
    + intros l Hl. rewrite H2 by lia. cbn [ct_frontier c1]. by rewrite list_lookup_insert_ne by lia.
    + intros l Hl. destruct (decide (l = level)) as [->|Hne].
      * rewrite H2 by lia. cbn [ct_frontier c1]. rewrite list_lookup_insert_eq by lia.
        rewrite Nat.sub_diag, odd_succ_carry, Hleft by done. rewrite Z.div_1_r. unfold last_left.
        rewrite (proj2 (Z.eqb_neq (idx / 2 + 1) 0)) by lia. do 2 f_equal. lia.
      * rewrite H3 by lia. replace (l - level)%nat with (S (l - S level)) by lia.
        by rewrite (odd_succ_carry _ (S _)) by done.
Qed.

Lemma frontier_ok_empty vs : frontier_ok vs 0 caterpillar_empty.
Proof.
  split; [by apply length_replicate|]. intros l Hl. rewrite Zdiv_0_l.
  apply lookup_replicate_2. done.
Qed.

Lemma digits_ok_empty vs : digits_ok vs 0 caterpillar_empty.
Proof.
  split_and!; [by apply length_replicate|done|]. intros l Hl. rewrite Zdiv_0_l.
  apply lookup_replicate_2. done.
Qed.

Lemma caterpillar_advance_ok {E} vs c v :
  0 ≤ ct_t c < 2 ^ Z.of_nat FSRT_DEPTH → digits_ok vs (ct_t c) c → frontier_ok vs (ct_t c) c →
  vs !! Z.to_nat (ct_t c) = Some v →
  ∃ c', @caterpillar_advance _ E c (ct_t c) v = Ok c' ∧ ct_t c' = ct_t c + 1 ∧
    digits_ok vs (ct_t c + 1) c' ∧ frontier_ok vs (ct_t c + 1) c'.
Proof.
  intros Ht (Hlen & Hemp & Hact) (Hflen & Hfr) Hv. unfold caterpillar_advance.
  rewrite assert_bind by apply Z.eqb_refl.
  pose proof (carry_loop_ok vs FSRT_DEPTH 0 (ct_t c) v c eq_refl Ht Hlen Hemp) as Hc.
  pose proof (carry_loop_frontier vs FSRT_DEPTH 0 (ct_t c) v c eq_refl ltac:(lia) Hflen) as Hf.
  cbn zeta in *. revert Hc Hf. generalize (carry_loop FSRT_DEPTH 0 (ct_t c) v c). intros c' Hc Hf.
  destruct Hf as (F1 & _ & F2).
  { intros l Hl. rewrite Nat.sub_0_r. apply Hact. lia. }
  { intros l Hl. rewrite Nat.sub_0_r. apply Hfr. lia. }
  destruct Hc as (H1 & H2 & H3 & _ & H5).
  { unfold chain_node, chain_leaf. cbn [mroot]. by rewrite Hv. }
  { intros l Hl. rewrite Nat.sub_0_r. apply Hact. lia. }
  rewrite H3. rewrite (expect_bind _ (ct_t c + 1)).
  2: { apply checked_add_Some. split; [done|].
       assert (2 ^ Z.of_nat FSRT_DEPTH = 16777216) as Hp by reflexivity. lia. }
  eexists. split; [reflexivity|]. split; [reflexivity|]. split.
  - split_and!; cbn [ct_active ct_empty_subtree]; [exact H1|exact H2|].
    intros l Hl. specialize (H5 l ltac:(lia)). rewrite Nat.sub_0_r in H5. exact H5.
  - split; cbn [ct_frontier]; [exact F1|].
    intros l Hl. specialize (F2 l ltac:(lia)). rewrite Nat.sub_0_r in F2. exact F2.
Qed.

(** Past the last value of a prefix the nodes are empty. *)
Lemma prefix_right_empty vs t l :
  (t < length vs)%nat → (l ≤ FSRT_DEPTH)%nat →
  chain_node (take (S t) vs) l (Z.of_nat t / 2 ^ Z.of_nat l + 1)
  = fr_at fsrt_empty_subtree l.
Proof.
  intros Ht. assert (∀ l, (l ≤ FSRT_DEPTH)%nat → ∀ i, Z.of_nat t < i * 2 ^ Z.of_nat l →
    0 ≤ i → chain_node (take (S t) vs) l i = fr_at fsrt_empty_subtree l) as Hgen.
  { clear l. intros l. induction l as [|l IH]; intros Hl i Hi Hi0.
    - unfold chain_node, chain_leaf. cbn [mroot]. rewrite fsrt_empty_zero.
      rewrite Z.mul_1_r in Hi. rewrite lookup_take_ge by lia. done.
    - rewrite Nat2Z.inj_succ, Z.pow_succ_r in Hi by lia.
      unfold chain_node in *. cbn [mroot]. rewrite !IH, fsrt_empty_step by nia. done. }
  intros Hl. apply Hgen; [done| |pose proof (Z.div_pos (Z.of_nat t) (2 ^ Z.of_nat l)); lia].
  pose proof (Z.mod_pos_bound (Z.of_nat t) (2 ^ Z.of_nat l) ltac:(lia)).
  pose proof (Z.div_mod (Z.of_nat t) (2 ^ Z.of_nat l) ltac:(lia)). nia.
Qed.

(** Completed subtrees do not see the values after the prefix. *)
Lemma prefix_left vs t l i :
  0 ≤ i → (i + 1) * 2 ^ Z.of_nat l ≤ Z.of_nat t + 1 →
  chain_node (take (S t) vs) l i = chain_node vs l i.
Proof.
  intros Hi0 Hi. apply mroot_ext; [done|]. intros k Hk Hkl. unfold chain_leaf.
  assert (k < Z.of_nat t + 1).
  { pose proof (Z.mod_pos_bound k (2 ^ Z.of_nat l) ltac:(lia)).
    pose proof (Z.div_mod k (2 ^ Z.of_nat l) ltac:(lia)). nia. }
  rewrite lookup_take_lt by lia. done.
Qed.

Lemma frontier_path_ok vs (t : nat) n level idx c :
  (t < length vs)%nat → digits_ok vs (Z.of_nat t) c →
  (level + n = FSRT_DEPTH)%nat → idx = Z.of_nat t / 2 ^ Z.of_nat level →
  frontier_path n level idx c
  = (path_siblings n (chain_node (take (S t) vs)) level idx, bits_bytes n idx).
Proof.
  intros Ht (Hlen & Hemp & Hact). revert level idx.
  induction n as [|n IH]; intros level idx Hn Hidx; cbn [frontier_path]; [done|].
  assert (0 ≤ idx) as Hi0 by (subst; apply Z.div_pos; lia).
  rewrite (IH (S level)) by (lia || (subst; by rewrite div_pow_succ')).
  rewrite bits_bytes_S. cbn [path_siblings]. f_equal. f_equal.
  rewrite sibling_index, <-Z.negb_odd by done.
  destruct (Z.odd idx) eqn:Ho; cbn [negb].
  - unfold active_at. rewrite (Hact level ltac:(lia)), <-Hidx, Ho.
    pose proof (odd_div2 idx Hi0) as E. rewrite Ho in E.
    pose proof (Z.div_pos idx 2 Hi0 ltac:(lia)).
    symmetry. apply prefix_left; [lia|]. rewrite Z.sub_add.
    pose proof (Z.mul_div_le (Z.of_nat t) (2 ^ Z.of_nat level) ltac:(lia)). lia.
  - rewrite Hemp, Hidx. symmetry. apply prefix_right_empty; [done|lia].
Qed.

(** ** The seed chain *)
Fixpoint seed_at (s : Fr) (i : nat) : Fr :=
  match i with O => s | S i' => seed_at (fsrt_prg_step s).2 i' end.

Lemma seed_at_S s i : seed_at s (S i) = (fsrt_prg_step (seed_at s i)).2.
Proof. revert s; induction i as [|i IH]; intros s; [done|]. exact (IH (fsrt_prg_step s).2). Qed.

Lemma expand_S n s :
  expand (S n) s = ((fsrt_prg_step s).1 :: (expand n (fsrt_prg_step s).2).1,
                    s :: (expand n (fsrt_prg_step s).2).2).
Proof.
  cbn [expand]. destruct (fsrt_prg_step s) as [v s']. cbn [fst snd].
  by destruct (expand n s').
Qed.

Lemma expand_drop n s k :
  (k ≤ n)%nat →
  drop k (expand n s).1 = (expand (n - k) (seed_at s k)).1 ∧
  drop k (expand n s).2 = (expand (n - k) (seed_at s k)).2.
Proof.
  revert n s; induction k as [|k IH]; intros n s Hk; [by rewrite Nat.sub_0_r|].
  destruct n as [|n]; [lia|]. rewrite expand_S. cbn [fst snd drop Nat.sub].
  apply (IH n (fsrt_prg_step s).2). lia.
Qed.

Lemma length_expand n s : length (expand n s).1 = n ∧ length (expand n s).2 = n.
Proof.
  revert s; induction n as [|n IH]; intros s; [done|]. rewrite expand_S. cbn [fst snd length].
  destruct (IH (fsrt_prg_step s).2) as [-> ->]. done.
Qed.

Lemma expand_lookup n s k :
  (k < n)%nat →
  (expand n s).1 !! k = Some (fsrt_prg_step (seed_at s k)).1 ∧
  (expand n s).2 !! k = Some (seed_at s k).
Proof.
  revert n s; induction k as [|k IH]; intros [|n] s Hk; try lia; rewrite expand_S;
    cbn [fst snd lookup list_lookup]; [done|]. apply IH. lia.
Qed.
End chain_tree.

(** ** The lifetime of a signer's chain *)
Section lifetime.
Context `{C : Crypto}.

#[local] Opaque fsrt_empty_subtree carry_loop.

(** [k] slots have been journaled and wiped; the chain was enrolled with [n]. *)
Record chain_inv (s0 : Fr) (n k : nat) (s : SignerChainState) : Prop := {
  ci_len : (Z.of_nat n ≤ 2 ^ 24);
  ci_values : cs_v_values s = wipe k (expand n s0).1;
  ci_seeds : cs_s_seeds s = wipe k (expand n s0).2;
  ci_root : cs_chain_root s = chain_node (expand n s0).1 FSRT_DEPTH 0;
  ci_sync : ct_t (cs_caterpillar s) = cs_t s;
  ci_range : Z.of_nat k ≤ cs_t s ≤ Z.of_nat n;
  ci_digits : digits_ok (expand n s0).1 (cs_t s) (cs_caterpillar s);
  ci_frontier : frontier_ok (expand n s0).1 (cs_t s) (cs_caterpillar s);
  ci_curr : cs_s_curr s = seed_at s0 k;
}.

Lemma length_wipe k l : length (wipe k l) = length l.
Proof. unfold wipe. rewrite length_app, length_replicate, length_drop. lia. Qed.

Lemma wipe_lookup_ge k l i : (k ≤ i)%nat → wipe k l !! i = l !! i.
Proof.
  intros Hi. unfold wipe. destruct (decide (k ≤ length l)%nat).
  - rewrite Nat.min_l by done.
    rewrite lookup_app_r by (rewrite length_replicate; lia).
    rewrite length_replicate, lookup_drop. f_equal. lia.
  - rewrite drop_ge, app_nil_r by lia.
    rewrite !lookup_ge_None_2 by (rewrite ?length_replicate; lia). done.
Qed.

Lemma wipe_lookup_lt k l i x : (i < k)%nat → wipe k l !! i = Some x → x = fr_of_Z 0.
Proof.
  intros Hi. unfold wipe. intros [H|[? H]]%lookup_app_Some.
  - by apply lookup_replicate in H as [-> _].
  - rewrite length_replicate in *. rewrite lookup_drop in H. apply lookup_lt_Some in H. lia.
Qed.

Lemma wipe_wipe k k' l : (k ≤ k')%nat → wipe k' (wipe k l) = wipe k' l.
Proof.
  intros Hk. unfold wipe at 1 3. rewrite length_wipe. f_equal.
  apply list_eq. intros i. rewrite !lookup_drop. apply wipe_lookup_ge. lia.
Qed.

Lemma wipe_0 l : wipe 0 l = l.
Proof. done. Qed.

Lemma enroll_ok {E} s0 (n : nat) ver :
  Z.of_nat n ≤ 2 ^ 24 →
  ∃ s, @enroll _ E s0 (Z.of_nat n) ver = Ok s ∧ chain_inv s0 n 0 s.
Proof.
  intros Hn. unfold enroll, expand_chain. cbn [default from_option]. 
  change (id (Z.of_nat n)) with (Z.of_nat n). rewrite Nat2Z.id.
  destruct (expand n s0) as [vs ss] eqn:Ee. cbn [v_values s_seeds].
  rewrite chain_root_eq. eexists. split; [reflexivity|].
  constructor; cbn [cs_v_values cs_s_seeds cs_chain_root cs_caterpillar cs_t]; rewrite ?Ee;
    cbn [fst snd]; [exact Hn|reflexivity|reflexivity|reflexivity|reflexivity|lia| | |reflexivity].
  - apply digits_ok_empty.
  - apply frontier_ok_empty.
Qed.

(** The value of a slot that is not wiped, through the wiped vector. *)
Lemma inv_value s0 n k s i :
  chain_inv s0 n k s → (k ≤ i < n)%nat →
  cs_v_values s !! i = Some (fsrt_prg_step (seed_at s0 i)).1 ∧
  cs_s_seeds s !! i = Some (seed_at s0 i) ∧
  (expand n s0).1 !! i = Some (fsrt_prg_step (seed_at s0 i)).1.
Proof.
  intros Hi Hk. rewrite (ci_values _ _ _ _ Hi), (ci_seeds _ _ _ _ Hi), !wipe_lookup_ge by lia.
  destruct (expand_lookup n s0 i ltac:(lia)) as [-> ->]. done.
Qed.

Lemma inv_step_caterpillar {E} s0 n k s v :
  chain_inv s0 n k s → cs_t s < Z.of_nat n →
  cs_v_values s !! Z.to_nat (cs_t s) = Some v →
  ∃ c, @caterpillar_advance _ E (cs_caterpillar s) (cs_t s) v = Ok c ∧
    ct_t c = cs_t s + 1 ∧ digits_ok (expand n s0).1 (cs_t s + 1) c ∧
    frontier_ok (expand n s0).1 (cs_t s + 1) c.
Proof.
  intros Hi Ht Hv. pose proof (ci_range _ _ _ _ Hi) as Hr. pose proof (ci_len _ _ _ _ Hi).
  destruct (inv_value s0 n k s (Z.to_nat (cs_t s)) Hi ltac:(lia)) as (Hv1 & _ & Hv2).
  rewrite <-(ci_sync _ _ _ _ Hi). apply caterpillar_advance_ok.
  - rewrite (ci_sync _ _ _ _ Hi).
    assert (2 ^ Z.of_nat FSRT_DEPTH = 2 ^ 24) as -> by reflexivity. lia.
  - rewrite (ci_sync _ _ _ _ Hi). apply Hi.
  - rewrite (ci_sync _ _ _ _ Hi). apply Hi.
  - rewrite (ci_sync _ _ _ _ Hi). congruence.
Qed.

Lemma advance_loop_ok {E} s0 n k s fuel target :
  chain_inv s0 n k s → cs_t s ≤ target < Z.of_nat n →
  fuel = Z.to_nat (target - cs_t s) →
  ∃ s', @advance_loop _ E fuel target s = Ok s' ∧ chain_inv s0 n k s' ∧ cs_t s' = target.
Proof.
  revert s; induction fuel as [|fuel IH]; intros s Hi Ht Hf; cbn [advance_loop].
  { assert (cs_t s = target) as Heq by lia. exists s.
    rewrite (proj2 (Z.ltb_ge _ _)) by lia. done. }
  rewrite (proj2 (Z.ltb_lt _ _)) by lia. pose proof (ci_range _ _ _ _ Hi) as Hr.
  destruct (inv_value s0 n k s (Z.to_nat (cs_t s)) Hi ltac:(lia)) as (Hv & _ & _).
  unfold index. rewrite (index_bind _ _ _ _ Hv).
  destruct (@inv_step_caterpillar E s0 n k s _ Hi ltac:(lia) Hv) as (c & Hc & Hct & Hd & Hf').
  rewrite Hc. cbn [mbind outcome_bind]. apply IH; [|cbn [set_head cs_t]; lia..].
  constructor; cbn [set_head cs_v_values cs_s_seeds cs_chain_root cs_caterpillar cs_t cs_s_curr];
    try apply Hi; [done|lia|done|done].
Qed.

Lemma advance_to_ok {E} s0 n k s target :
  chain_inv s0 n k s → cs_t s ≤ target < Z.of_nat n →
  ∃ s', @advance_to _ E s target = Ok s' ∧ chain_inv s0 n k s' ∧ cs_t s' = target.
Proof.
  intros Hi Ht. unfold advance_to, chain_len.
  assert (length (cs_v_values s) = n) as ->.
  { rewrite (ci_values _ _ _ _ Hi), length_wipe. apply length_expand. }
  pose proof (ci_len _ _ _ _ Hi). rewrite Z.mod_small by lia.
  rewrite !assert_bind by (try apply Z.ltb_lt; try apply Z.leb_le; lia).
  by apply (advance_loop_ok s0 n k).
Qed.

(** A journal write that lands moves the chain past its slot. *)
Lemma journal_ok {Io} (persist : list byte → outcome Io unit) s0 n k s :
  chain_inv s0 n k s → cs_t s < Z.of_nat n → (∀ bytes, persist bytes = Ok tt) →
  ∃ b s', journal_finalized_signing persist s (cs_t s) = Ok (b, s') ∧
    chain_inv s0 n (S (Z.to_nat (cs_t s))) s' ∧ cs_t s' = cs_t s + 1 ∧
    cs_s_curr s' = seed_at s0 (S (Z.to_nat (cs_t s))) ∧ b = to_bytes s'.
Proof.
  intros Hi Ht Hp. pose proof (ci_range _ _ _ _ Hi) as Hr. unfold journal_finalized_signing.
  destruct (inv_value s0 n k s (Z.to_nat (cs_t s)) Hi ltac:(lia)) as (Hv & Hs & _).
  destruct (@inv_step_caterpillar Io s0 n k s _ Hi Ht Hv) as (c & Hc & Hct & Hd & Hf).
  rewrite assert_bind by apply Z.eqb_refl. unfold index.
  rewrite (index_bind _ _ _ _ Hs), (index_bind _ _ _ _ Hv), Hc.
  cbn [mbind outcome_bind]. rewrite Hp. eexists _, _. split; [reflexivity|].
  split; [|split; [done|split; [|done]]].
  - constructor; cbn [cs_v_values cs_s_seeds cs_chain_root cs_caterpillar cs_t cs_s_curr].
    + apply Hi.
    + rewrite (ci_values _ _ _ _ Hi). apply wipe_wipe. lia.
    + rewrite (ci_seeds _ _ _ _ Hi). apply wipe_wipe. lia.
    + apply Hi.
    + done.
    + lia.
    + done.
    + done.
    + symmetry. apply seed_at_S.
  - cbn [cs_s_curr]. symmetry. apply seed_at_S.
Qed.

(** The states a signer can be in: enrolled, advanced, journaled. *)
Inductive lifetime {Io} (persist : list byte → outcome Io unit) (s0 : Fr) (n : nat)
  : nat → SignerChainState → Prop :=
| lifetime_enroll ver s :
    @enroll _ Io s0 (Z.of_nat n) ver = Ok s → lifetime persist s0 n 0 s
| lifetime_advance k s target s' :
    lifetime persist s0 n k s → @advance_to _ Io s target = Ok s' →
    lifetime persist s0 n k s'
| lifetime_journal k s slot b s' :
    lifetime persist s0 n k s → journal_finalized_signing persist s slot = Ok (b, s') →
    lifetime persist s0 n (S (Z.to_nat slot)) s'.

Lemma advance_to_inv {Io} s0 n k s target s' :
  chain_inv s0 n k s → @advance_to _ Io s target = Ok s' → 
  chain_inv s0 n k s' ∧ cs_t s' = target ∧ cs_t s ≤ target.
Proof.
  intros Hi Hadv. unfold advance_to in Hadv. pose proof Hadv as Hadv'. inv_ok Hadv'.
  reflect_bools. rewrite (proj2 (Z.ltb_lt _ _)), (proj2 (Z.leb_le _ _)) in Hadv by done.
  assert (cs_t s ≤ target < Z.of_nat n) as Ht.
  { unfold chain_len in *. rewrite (ci_values _ _ _ _ Hi), length_wipe in *.
    destruct (length_expand n s0) as [Hl _]. rewrite Hl in *.
    pose proof (ci_len _ _ _ _ Hi). rewrite Z.mod_small in * by lia. lia. }
  destruct (@advance_to_ok Io s0 n k s target Hi Ht) as (s1 & H1 & H2 & H3).
  unfold advance_to in H1.
  rewrite (proj2 (Z.ltb_lt _ _)), (proj2 (Z.leb_le _ _)) in H1 by done.
  rewrite H1 in Hadv. apply (inj Ok) in Hadv as <-. split_and!; [done|done|lia].
Qed.

(** A journal call that succeeds does so whatever the file system is. *)
Lemma journal_persisted {Io} (persist : list byte → outcome Io unit) s slot r :
  journal_finalized_signing persist s slot = Ok r →
  journal_finalized_signing (λ _, Ok tt : outcome Io unit) s slot = Ok r ∧ slot = cs_t s ∧
  (Z.to_nat slot < length (cs_s_seeds s))%nat.
Proof.
  unfold journal_finalized_signing, index. intros H. inv_ok H. reflect_bools.
  rewrite assert_bind by by apply Z.eqb_eq.
  erewrite !index_bind by eassumption.
  rewrite Ha2. split; [done|]. split; [done|]. by eapply lookup_lt_Some.
Qed.

Lemma lifetime_inv {Io} (persist : list byte → outcome Io unit) s0 n k s :
  Z.of_nat n ≤ 2 ^ 24 → lifetime persist s0 n k s → chain_inv s0 n k s.
Proof.
  intros Hn Hl. induction Hl as [ver s He|k s target s' _ IH Ha|k s slot b s' _ IH Hj].
  - destruct (@enroll_ok Io s0 n ver Hn) as (s1 & He' & Hi). rewrite He in He'.
    apply (inj Ok) in He' as ->. exact Hi.
  - by eapply advance_to_inv.
  - apply journal_persisted in Hj as (Hj & -> & Hlt).
    rewrite (ci_seeds _ _ _ _ IH), length_wipe in Hlt.
    destruct (length_expand n s0) as [_ Hl2]. rewrite Hl2 in Hlt.
    pose proof (ci_range _ _ _ _ IH).
    destruct (@journal_ok Io (λ _, Ok tt) s0 n k s IH ltac:(lia) ltac:(done))
      as (b' & s1 & Hj' & Hi & _).
    rewrite Hj in Hj'. apply (inj Ok) in Hj'. injection Hj' as <- <-. exact Hi.
Qed.

(** The caterpillar after [t] slots of the values [vs]: per level, the completed
    subtree that waits for its right sibling, and the last completed left child. *)
Definition caterpillar_of (vs : list Fr) (t : Z) : Caterpillar :=
  mk_caterpillar (map (λ l, last_left vs l (t / 2 ^ Z.of_nat (S l))) (seq 0 FSRT_DEPTH))
    (map (λ l, let q := t / 2 ^ Z.of_nat l in
               if Z.odd q then Some (chain_node vs l (q - 1)) else None) (seq 0 FSRT_DEPTH))
    t fsrt_empty_subtree.

Lemma list_eq_map_seq {A} (l : list A) (f : nat → A) n :
  length l = n → (∀ i, (i < n)%nat → l !! i = Some (f i)) → l = map f (seq 0 n).
Proof.
  intros Hl Hf. change (l = f <$> seq 0 n). apply list_eq. intros i. rewrite list_lookup_fmap.
  destruct (decide (i < n)%nat).
  - rewrite lookup_seq_lt by done. by rewrite Hf.
  - rewrite !lookup_ge_None_2 by (rewrite ?length_seq; lia). done.
Qed.

Lemma caterpillar_exact vs t c :
  digits_ok vs t c → frontier_ok vs t c → ct_t c = t → c = caterpillar_of vs t.
Proof.
  intros (Hl & He & Ha) (Hlf & Hf) Ht. destruct c as [fr ac t' em]. cbn in *. subst t' em.
  unfold caterpillar_of. f_equal; by apply list_eq_map_seq.
Qed.

(** C33: What the ratchet keeps in memory.  In every state a signer can reach,
    with [k] slots journaled and the head at [t], every field of the state is
    determined: the current seed is the [k]-th of the chain; the seeds and
    values of the journaled slots are zeros and the rest is recomputed from the
    current seed alone; the chain root is that of the original values; and the
    caterpillar holds, level by level, the completed subtrees left of [t].  At
    its lowest level that is a raw chain value: that of slot [t - 1] when [t] is
    odd (also in the journaled bytes) and, once [t] is 2 or more, that of the
    last even slot whose sibling is complete, in the frontier.  These survive
    the wipe of their slots; nothing else of a wiped slot is kept, except under
    the node hash. *)
Theorem ratchet_memory {Io} (persist : list byte → outcome Io unit) s0 n k s :
  Z.of_nat n ≤ 2 ^ 24 → lifetime persist s0 n k s →
  let t := cs_t s in
  let value i := (fsrt_prg_step (seed_at s0 i)).1 in
  cs_s_curr s = seed_at s0 k ∧
  cs_s_seeds s = replicate k fr_zero ++ (expand (n - k) (cs_s_curr s)).2 ∧
  cs_v_values s = replicate k fr_zero ++ (expand (n - k) (cs_s_curr s)).1 ∧
  Z.of_nat k ≤ t ≤ Z.of_nat n ∧ @compute_chain_root _ Io (expand n s0).1 = Ok (cs_chain_root s) ∧
  cs_caterpillar s = caterpillar_of (expand n s0).1 t ∧
  (Z.odd t = true →
     ct_active (cs_caterpillar s) !! 0%nat = Some (Some (value (Z.to_nat (t - 1)))) ∧
     ss_caterpillar (to_bytes s) !! 0%nat = Some (fr_to_be_bytes (value (Z.to_nat (t - 1))))) ∧
  (2 ≤ t → ct_frontier (cs_caterpillar s) !! 0%nat = Some (value (Z.to_nat (2 * (t / 2 - 1))))).
Proof.
  intros Hn Hl t value. pose proof (lifetime_inv persist s0 n k s Hn Hl) as Hi.
  pose proof (ci_range _ _ _ _ Hi) as Hr. fold t in Hr.
  destruct (expand_drop n s0 k ltac:(lia)) as [Hd1 Hd2].
  destruct (length_expand n s0) as [Hl1 Hl2].
  assert (∀ i, 0 ≤ i < Z.of_nat n → chain_node (expand n s0).1 0 i = value (Z.to_nat i)) as Hv.
  { intros i Hin. unfold chain_node, chain_leaf. cbn [mroot].
    by rewrite (proj1 (expand_lookup n s0 (Z.to_nat i) ltac:(lia))). }
  pose proof (ci_digits _ _ _ _ Hi) as (_ & _ & Ha). pose proof (ci_frontier _ _ _ _ Hi) as (_ & Hf).
  assert (Z.odd t = true → ct_active (cs_caterpillar s) !! 0%nat
    = Some (Some (value (Z.to_nat (t - 1))))) as Hact.
  { intros Ho. rewrite (Ha 0%nat) by (by apply Nat.ltb_lt). fold t. rewrite Z.div_1_r, Ho, Hv; [done|].
    destruct (Z.eq_dec t 0) as [E|]; [by rewrite E in Ho|lia]. }
  rewrite (ci_curr _ _ _ _ Hi), (ci_seeds _ _ _ _ Hi), (ci_values _ _ _ _ Hi), (ci_root _ _ _ _ Hi),
    chain_root_eq. unfold wipe. rewrite Hl1, Hl2, Hd1, Hd2, Nat.min_l by lia.
  split_and!; [done|done|done|lia|lia|done| | |].
  - apply caterpillar_exact; [apply Hi|apply Hi|apply (ci_sync _ _ _ _ Hi)].
  - intros Ho. split; [by apply Hact|]. cbn [to_bytes ss_caterpillar]. unfold caterpillar_to_bytes.
    change (map ?f ?l) with (f <$> l). rewrite list_lookup_fmap, lookup_seq_lt by (by apply Nat.ltb_lt).
    cbn [fmap option_fmap option_map Nat.add]. unfold active_at. by rewrite (Hact Ho).
  - intros Ht. rewrite (Hf 0%nat) by (by apply Nat.ltb_lt). fold t. unfold last_left.
    change (2 ^ Z.of_nat 1) with 2. pose proof (Z.div_le_lower_bound t 2 1 ltac:(lia) ltac:(lia)).
    pose proof (Z.mul_div_le t 2 ltac:(lia)).
    rewrite (proj2 (Z.eqb_neq (t / 2) 0)), Hv by lia. done.
Qed.

(** A journaled slot can never be used again: in every later state both
    journaling it and advancing the head to it panic. *)
Lemma journaled_slots_unusable {Io} (persist : list byte → outcome Io unit) s0 n k s slot :
  Z.of_nat n ≤ 2 ^ 24 → lifetime persist s0 n k s → 0 ≤ slot < Z.of_nat k →
  journal_finalized_signing persist s slot = Panic ∧ @advance_to _ Io s slot = Panic.
Proof.
  intros Hn Hl Hs. pose proof (lifetime_inv persist s0 n k s Hn Hl) as Hi.
  pose proof (ci_range _ _ _ _ Hi) as Hr.
  unfold journal_finalized_signing, advance_to.
  rewrite (proj2 (Z.eqb_neq slot (cs_t s))), (proj2 (Z.leb_gt (cs_t s) slot)) by lia.
  split; [reflexivity|]. by destruct (slot <? chain_len s).
Qed.

Definition path_bits (indices : list byte) : list bool :=
  map (λ b, negb (byte_Z b =? 0)) indices.

Lemma path_bits_bytes d i : path_bits (bits_bytes d i) = index_bits d i.
Proof.
  unfold path_bits, bits_bytes. rewrite map_map.
  transitivity (map id (index_bits d i)); [|apply map_id]. apply map_ext. by intros [].
Qed.

Lemma computed_path_root vs i v :
  0 ≤ i < Z.of_nat (length vs) → Z.of_nat (length vs) ≤ 2 ^ 24 →
  vs !! Z.to_nat i = Some v →
  let p := compute_path vs i in
  binary_merkle_root hash_merkle_node v (path_bits p.2) p.1 = chain_node vs FSRT_DEPTH 0.
Proof.
  intros Hi Hn Hv. cbn zeta. rewrite compute_path_eq by done. cbn [fst snd].
  rewrite path_bits_bytes. assert (v = chain_leaf vs i) as ->.
  { unfold chain_leaf. by rewrite Hv. }
  unfold chain_node. rewrite path_computes_root by lia. f_equal.
  assert (2 ^ Z.of_nat FSRT_DEPTH = 2 ^ 24) as -> by reflexivity.
  apply Z.div_small. lia.
Qed.

(** The signing path at the current slot: the slot's value is the
    ratchet output of the slot's seed, and the path the state returns computes
    the root of the values still in memory.  That is the enrolled chain root as
    long as nothing has been wiped. *)
Lemma current_path_root {Io} (persist : list byte → outcome Io unit) s0 n k s :
  Z.of_nat n ≤ 2 ^ 24 → lifetime persist s0 n k s → cs_t s < Z.of_nat n →
  let p := merkle_path_for_current_slot s in
  ∃ v, @v_at_current_slot Io s = Ok v ∧ v = (fsrt_prg_step (s_at s (cs_t s))).1 ∧
    @compute_chain_root _ Io (wipe k (expand n s0).1)
    = Ok (binary_merkle_root hash_merkle_node v (path_bits p.2) p.1) ∧
    (k = 0%nat →
     binary_merkle_root hash_merkle_node v (path_bits p.2) p.1 = cs_chain_root s).
Proof.
  intros Hn Hl Ht. pose proof (lifetime_inv persist s0 n k s Hn Hl) as Hi. cbn zeta.
  pose proof (ci_range _ _ _ _ Hi) as Hr.
  destruct (inv_value s0 n k s (Z.to_nat (cs_t s)) Hi ltac:(lia)) as (Hv & Hs & _).
  assert (length (cs_v_values s) = n) as Hlen.
  { rewrite (ci_values _ _ _ _ Hi), length_wipe. apply length_expand. }
  pose proof (computed_path_root (cs_v_values s) (cs_t s) _ ltac:(lia) ltac:(lia) Hv) as Hp.
  cbn zeta in Hp. exists (fsrt_prg_step (seed_at s0 (Z.to_nat (cs_t s)))).1.
  unfold merkle_path_for_current_slot. rewrite Hp. split_and!.
  - unfold v_at_current_slot, index. by rewrite Hv.
  - unfold s_at. by rewrite Hs.
  - by rewrite <-(ci_values _ _ _ _ Hi), chain_root_eq.
  - intros ->. by rewrite (ci_values _ _ _ _ Hi), (ci_root _ _ _ _ Hi), wipe_0.
Qed.

(** The caterpillar's log-space path is exact for the chain cut after the
    current slot: with the slot's value it computes the root of the values up
    to and including it, at every point of the signer's life. *)
Lemma caterpillar_prefix_root {Io} (persist : list byte → outcome Io unit) s0 n k s :
  Z.of_nat n ≤ 2 ^ 24 → lifetime persist s0 n k s → cs_t s < Z.of_nat n →
  let p := path_for_current_slot (cs_caterpillar s) in
  ∃ v, @v_at_current_slot Io s = Ok v ∧
    @compute_chain_root _ Io (take (S (Z.to_nat (cs_t s))) (expand n s0).1)
    = Ok (binary_merkle_root hash_merkle_node v (path_bits p.2) p.1).
Proof.
  intros Hn Hl Ht. pose proof (lifetime_inv persist s0 n k s Hn Hl) as Hi. cbn zeta.
  pose proof (ci_range _ _ _ _ Hi) as Hr. pose proof (ci_digits _ _ _ _ Hi) as Hd.
  destruct (inv_value s0 n k s (Z.to_nat (cs_t s)) Hi ltac:(lia)) as (Hv & _ & Hvs).
  exists (fsrt_prg_step (seed_at s0 (Z.to_nat (cs_t s)))).1.
  split; [unfold v_at_current_slot, index; by rewrite Hv|].
  destruct (length_expand n s0) as [Hl1 _].
  rewrite chain_root_eq. f_equal. unfold path_for_current_slot.
  rewrite (ci_sync _ _ _ _ Hi). set (t := Z.to_nat (cs_t s)) in *.
  assert (cs_t s = Z.of_nat t) as Et by lia. rewrite Et in *.
  rewrite (frontier_path_ok (expand n s0).1 t) by
    (rewrite ?Hl1, ?Z.div_1_r; (lia || done)).
  cbn [fst snd]. rewrite path_bits_bytes. set (pre := take _ _).
  assert ((fsrt_prg_step (seed_at s0 t)).1 = chain_leaf pre (Z.of_nat t)) as ->.
  { unfold chain_leaf, pre. rewrite Nat2Z.id, lookup_take_lt by lia. by rewrite Hvs. }
  unfold chain_node. rewrite path_computes_root by lia. f_equal. symmetry.
  assert (2 ^ Z.of_nat FSRT_DEPTH = 2 ^ 24) as -> by reflexivity.
  apply Z.div_small. lia.
Qed.
End lifetime.

(** ** Evaluation on a concrete chain *)
Module FsrtSample.
Import Toy.

Definition disk_ok : list byte → outcome unit unit := λ _, Ok tt.

(** Four slots from seed 7: advance to slot 1, sign and journal it. *)
Definition signed_once : outcome unit SignerChainState :=
  s ← enroll (fr_of_Z 7) 4 0;
  s ← advance_to s 1;
  r ← journal_finalized_signing disk_ok s 1;
  Ok r.2.

Lemma signed_once_lifetime s : signed_once = Ok s → lifetime disk_ok (fr_of_Z 7) 4 2 s.
Proof.
  unfold signed_once. intros H. inv_ok H. destruct a1 as [b s']. cbn [snd].
  apply (lifetime_journal disk_ok _ 4 0 a0 1 b); [|done].
  apply (lifetime_advance disk_ok _ 4 0 a 1); [|done].
  by apply (lifetime_enroll disk_ok _ 4 0).
Qed.

Lemma signed_once_ok : ∃ s, signed_once = Ok s ∧ cs_t s < 4.
Proof.
  assert (match signed_once with Ok s => cs_t s <? 4 | _ => false end = true) as H
    by (vm_compute; reflexivity).
  destruct signed_once as [s| |]; [|discriminate..]. exists s. split; [done|].
  by apply Z.ltb_lt.
Qed.

(** After the first journaled signature the state no longer yields a path
    to the enrolled root: journaling wipes the earlier values and the path is
    recomputed from the wiped vector, so the next slot's value and path
    compute a different root. *)
Lemma journaled_path_mismatch :
  ∃ s v, signed_once = Ok s ∧ @v_at_current_slot unit s = Ok v ∧
    let p := merkle_path_for_current_slot s in
    binary_merkle_root hash_merkle_node v (path_bits p.2) p.1 ≠ cs_chain_root s.
Proof.
  assert (match signed_once with
          | Ok s => match @v_at_current_slot unit s with
                    | Ok v => let p := merkle_path_for_current_slot s in
                        negb (fr_eqb (binary_merkle_root hash_merkle_node v (path_bits p.2) p.1)
                                (cs_chain_root s))
                    | _ => false
                    end
          | _ => false end = true) as H by (vm_compute; reflexivity).
  destruct signed_once as [s| |]; [|discriminate..].
  destruct (v_at_current_slot s) as [v| |] eqn:Hv; [|discriminate..].
  exists s, v. split_and!; [done|done|]. apply fr_eqb_neq. by apply negb_true_iff.
Qed.

Lemma ratchet_memory_witness :
  ∃ s, signed_once = Ok s ∧ cs_s_curr s = seed_at (fr_of_Z 7) 2 ∧
    cs_s_seeds s = replicate 2 fr_zero ++ (expand 2 (cs_s_curr s)).2 ∧
    cs_caterpillar s = caterpillar_of (expand 4 (fr_of_Z 7)).1 (cs_t s).
Proof.
  destruct signed_once_ok as (s & Hs & _). exists s. split; [exact Hs|].
  destruct (ratchet_memory disk_ok (fr_of_Z 7) 4 2 s) as (H1 & H2 & _ & _ & _ & H3 & _);
    [vm_compute; discriminate|exact (signed_once_lifetime s Hs)|].
  split; [exact H1|]. split; [exact H2|exact H3].
Defined.

End FsrtSample.
