(* ===== verification/Blob.v ===== *)
(** * Blob payloads

    Model of [blob.rs] and of the in-memory carrier
    [adapters/in_memory_blob.rs].  A record is 96 bytes laid out over four
    field elements of 31 content bytes, a blob 1000 records.  The class
    [BlobCarrier] is the port of [ports/blob.rs]; [BlobLaws] states what the
    roles may rely on, and the in-memory carrier discharges it. *)

From Stdlib Require Import ZArith Lia Bool.
From stdpp Require Import base tactics list gmap strings pretty numbers.
From S2P Require Import Prelude Field Types Records Poseidon.

Definition FE_PER_RECORD : nat := 4.
Definition CONTENT_PER_FE : nat := 31.
Definition KZG_OPENING_COUNT : nat := BATCH_SIZE_MAX * FE_PER_RECORD.
Definition BLOB_FIELD_ELEMENTS : Z := 4096.

Definition fe_index (i j : nat) : Z := Z.of_nat (FE_PER_RECORD * i + j) mod 2 ^ 32.

(** ** Records *)
Definition encode_record (r : RecordEntry) : list byte :=
  splice (splice (splice (zeros RECORD_LEN) 0 (re_nullifier r)) 32 (re_identity_tag r))
    64 (be_of_Z 2 (re_class_tag r)).

Definition decode_record (bytes : list byte) : RecordEntry :=
  mk_record (take 32 bytes) (take 32 (drop 32 bytes)) (be_to_Z (take 2 (drop 64 bytes))).

(** Bytes [31 j .. min (31 (j + 1)) 96) of a record. *)
Definition fe_range (j : nat) : nat * nat :=
  ((j * CONTENT_PER_FE)%nat, ((j + 1) * CONTENT_PER_FE) `min` RECORD_LEN)%nat.

Definition chunk (bytes : list byte) (j : nat) : list byte :=
  let '(start, end_) := fe_range j in take (end_ - start) (drop start bytes).

(** [fe[1..1 + take].copy_from_slice(&record_bytes[start..end])]. *)
Definition record_fe (bytes : list byte) (j : nat) : list byte :=
  splice (zeros 32) 1 (chunk bytes j).

Definition record_fes (bytes : list byte) : list (list byte) :=
  map (record_fe bytes) (seq 0 FE_PER_RECORD).

(** ** Blobs *)
Definition blob_record (records : list RecordEntry) (i : nat) : list byte :=
  match records !! i with Some r => encode_record r | None => zeros RECORD_LEN end.

Definition encode_blob (records : list RecordEntry) : outcome BlobError (list (list byte)) :=
  ensure (length records <=? RECORDS_PER_BLOB)%nat
    (Capacity (length records) RECORDS_PER_BLOB);;
  Ok (concat (map (λ i, record_fes (blob_record records i)) (seq 0 RECORDS_PER_BLOB))).

(** [record_bytes[start..end].copy_from_slice(&fe[1..1 + take])], over [j]. *)
Definition gather_record (fes : list (list byte)) (i : nat) : list byte :=
  foldl (λ acc j,
      let '(start, end_) := fe_range j in
      let fe := default [] (fes !! (FE_PER_RECORD * i + j)%nat) in
      splice acc start (take (end_ - start) (drop 1 fe)))
    (zeros RECORD_LEN) (seq 0 FE_PER_RECORD).

(** The loop over [i] stops at the first record whose content is zero. *)
Fixpoint decode_loop (n i : nat) (fes : list (list byte)) : list RecordEntry :=
  match n with
  | O => []
  | S n' =>
      let record_bytes := gather_record fes i in
      if all_zero (take 66 record_bytes) then []
      else decode_record record_bytes :: decode_loop n' (S i) fes
  end.

Definition decode_blob (fes : list (list byte)) : outcome BlobError (list RecordEntry) :=
  ensure (length fes =? RECORDS_PER_BLOB * FE_PER_RECORD)%nat
    (BlobMalformed ("blob has " +:+ pretty (N.of_nat (length fes)) +:+
                    " field elements, expected 4000"));;
  Ok (decode_loop RECORDS_PER_BLOB 0 fes).

Definition compute_batch_versioned_hash `{Crypto} (fes : list (list byte)) : Bytes32 :=
  splice (sha256 (concat fes)) 0 [x00].

Definition record_to_bls_fields (record : RecordEntry) : list Fr :=
  map (λ j, fr_from_be_bytes (record_fe (encode_record record) j)) (seq 0 FE_PER_RECORD).

(** ** Evaluation points *)

(** [u32::reverse_bits]. *)
Fixpoint reverse_bits (n : nat) (k : Z) : Z :=
  match n with
  | O => 0
  | S n' => Z.b2z (Z.odd k) * 2 ^ Z.of_nat n' + reverse_bits n' (k / 2)
  end.
Definition bit_reverse (k : Z) (log_n : Z) : Z := Z.shiftr (reverse_bits 32 k) (32 - log_n).

(** ** Round trip *)

(** Well-formed records: 32-byte fields and a 16-bit class tag. *)
Definition record_ok (r : RecordEntry) : Prop :=
  length (re_nullifier r) = 32%nat ∧ length (re_identity_tag r) = 32%nat ∧
  0 ≤ re_class_tag r < 65536.

Definition record_zero (r : RecordEntry) : bool :=
  all_zero (re_nullifier r) && all_zero (re_identity_tag r) && (re_class_tag r =? 0).

Lemma encode_record_eq r :
  length (re_nullifier r) = 32%nat → length (re_identity_tag r) = 32%nat →
  encode_record r
  = re_nullifier r ++ re_identity_tag r ++ be_of_Z 2 (re_class_tag r) ++ zeros 30.
Proof.
  intros H1 H2. unfold encode_record. pose proof (length_be_of_Z 2 (re_class_tag r)) as H3.
  change (zeros RECORD_LEN) with ([] ++ zeros 32 ++ zeros 32 ++ zeros 2 ++ zeros 30).
  rewrite splice_app, app_nil_l by by rewrite ?H1.
  rewrite splice_app by by rewrite ?H2. rewrite app_assoc.
  rewrite splice_app by (rewrite ?length_app, ?H3; (lia || done)). by rewrite <-app_assoc.
Qed.

Lemma length_encode_record r : record_ok r → length (encode_record r) = 96%nat.
Proof.
  intros (H1 & H2 & _). rewrite encode_record_eq by done.
  rewrite !length_app, length_be_of_Z, length_zeros. lia.
Qed.

Lemma decode_encode_record r : record_ok r → decode_record (encode_record r) = r.
Proof.
  intros (H1 & H2 & H3). rewrite encode_record_eq by done. unfold decode_record.
  rewrite take_app_length' by done. rewrite drop_app_length' by done.
  rewrite take_app_length' by done.
  rewrite (app_assoc (re_nullifier r)).
  rewrite drop_app_length' by (rewrite length_app; lia).
  rewrite take_app_length' by by rewrite length_be_of_Z.
  rewrite be_to_of_Z_small by (change (256 ^ Z.of_nat 2) with 65536; lia).
  by destruct r.
Qed.

(** ** Field elements of a record *)
Lemma fe_range_bound j :
  (j < 4)%nat → ((fe_range j).1 ≤ (fe_range j).2 ≤ 96)%nat ∧
                ((fe_range j).2 - (fe_range j).1 ≤ 31)%nat.
Proof. intros Hj. destruct j as [|[|[|[|j]]]]; cbn; lia. Qed.

Lemma length_chunk bytes j :
  length bytes = 96%nat → (j < 4)%nat →
  length (chunk bytes j) = ((fe_range j).2 - (fe_range j).1)%nat.
Proof.
  intros Hl Hj. pose proof (fe_range_bound j Hj). unfold chunk.
  destruct (fe_range j) as [a b]. cbn [fst snd] in *. rewrite length_take, length_drop. lia.
Qed.

Lemma record_fe_eq bytes j :
  length bytes = 96%nat → (j < 4)%nat →
  record_fe bytes j = [x00] ++ chunk bytes j ++ zeros (31 - length (chunk bytes j)).
Proof.
  intros Hl Hj. pose proof (length_chunk bytes j Hl Hj) as Hc.
  pose proof (fe_range_bound j Hj) as [_ Hb]. rewrite <-Hc in Hb.
  unfold record_fe. revert Hb. generalize (chunk bytes j). intros c Hb.
  transitivity (splice ([x00] ++ zeros (length c) ++ zeros (31 - length c)) 1 c).
  - f_equal. unfold zeros. change [x00] with (replicate 1 x00). rewrite <-!replicate_add.
    f_equal. lia.
  - apply splice_app; [done|]. apply length_zeros.
Qed.

Lemma fe_chunk bytes j :
  length bytes = 96%nat → (j < 4)%nat →
  take ((fe_range j).2 - (fe_range j).1) (drop 1 (record_fe bytes j)) = chunk bytes j.
Proof.
  intros Hl Hj. rewrite record_fe_eq by done. cbn [app drop].
  rewrite <-(length_chunk bytes j) by done. by apply take_app_length'.
Qed.

Lemma chunks_concat bytes :
  length bytes = 96%nat →
  bytes = chunk bytes 0 ++ chunk bytes 1 ++ chunk bytes 2 ++ chunk bytes 3.
Proof.
  intros Hl. unfold chunk.
  change (fe_range 0) with (0, 31)%nat. change (fe_range 1) with (31, 62)%nat.
  change (fe_range 2) with (62, 93)%nat. change (fe_range 3) with (93, 96)%nat.
  cbn [Nat.sub]. rewrite drop_0.
  rewrite (take_ge (drop 93 bytes)) by (rewrite length_drop; lia).
  rewrite <-(take_drop 31 bytes) at 1. f_equal.
  rewrite <-(take_drop 31 (drop 31 bytes)) at 1. f_equal. rewrite drop_drop.
  rewrite <-(take_drop 31 (drop (31 + 31) bytes)) at 1. f_equal. by rewrite drop_drop.
Qed.

Lemma splice_chunks (c0 c1 c2 c3 : list byte) :
  length c0 = 31%nat → length c1 = 31%nat → length c2 = 31%nat → length c3 = 3%nat →
  splice (splice (splice (splice (zeros RECORD_LEN) 0 c0) 31 c1) 62 c2) 93 c3
  = c0 ++ c1 ++ c2 ++ c3.
Proof.
  intros H0 H1 H2 H3.
  change (zeros RECORD_LEN) with ([] ++ zeros 31 ++ zeros 31 ++ zeros 31 ++ zeros 3 ++ []).
  rewrite splice_app, app_nil_l by by rewrite ?H0.
  rewrite splice_app by by rewrite ?H1. rewrite app_assoc.
  rewrite splice_app by (rewrite ?length_app, ?H2; (lia || done)). rewrite app_assoc.
  rewrite splice_app by (rewrite ?length_app, ?H3; (lia || done)).
  by rewrite app_nil_r, <-!app_assoc.
Qed.

(** Gathering the four field elements of a record gives it back. *)
Lemma gather_eq fes i bytes :
  length bytes = 96%nat →
  (∀ j, (j < 4)%nat → fes !! (FE_PER_RECORD * i + j)%nat = Some (record_fe bytes j)) →
  gather_record fes i = bytes.
Proof.
  intros Hl Hf. unfold gather_record.
  assert (∀ l acc, Forall (λ j, (j < 4)%nat) l →
    foldl (λ acc j, let '(start, end_) := fe_range j in
        let fe := default [] (fes !! (FE_PER_RECORD * i + j)%nat) in
        splice acc start (take (end_ - start) (drop 1 fe))) acc l
    = foldl (λ acc j, splice acc (fe_range j).1 (chunk bytes j)) acc l) as Hfold.
  { intros l. induction l as [|j l IH]; intros acc Hj; [done|].
    apply list.Forall_cons in Hj as [Hj Hr]. cbn [foldl]. rewrite <-IH by done. f_equal.
    rewrite (Hf j Hj), <-(fe_chunk bytes j) by done. by destruct (fe_range j). }
  rewrite Hfold by (repeat constructor; lia).
  pose proof (length_chunk bytes 0 Hl ltac:(lia)). pose proof (length_chunk bytes 1 Hl ltac:(lia)).
  pose proof (length_chunk bytes 2 Hl ltac:(lia)). pose proof (length_chunk bytes 3 Hl ltac:(lia)).
  transitivity (chunk bytes 0 ++ chunk bytes 1 ++ chunk bytes 2 ++ chunk bytes 3);
    [|symmetry; by apply chunks_concat].
  change (seq 0 FE_PER_RECORD) with [0; 1; 2; 3]%nat. cbn [foldl]. by apply splice_chunks.
Qed.

(** ** Positions of a blob *)
Lemma concat_lookup_uniform {A} (ls : list (list A)) m i j :
  Forall (λ l, length l = m) ls → (j < m)%nat →
  concat ls !! (m * i + j)%nat = l ← ls !! i; l !! j.
Proof.
  intros Hf Hj. revert i; induction Hf as [|l ls Hl Hf IH]; intros i; [done|].
  cbn [concat]. destruct i as [|i].
  - rewrite Nat.mul_0_r, lookup_app_l by lia. done.
  - rewrite lookup_app_r by nia. etransitivity; [|apply (IH i)]. f_equal. nia.
Qed.

Lemma length_concat_uniform {A} (ls : list (list A)) m :
  Forall (λ l, length l = m) ls → length (concat ls) = (m * length ls)%nat.
Proof.
  induction 1 as [|l ls Hl Hf IH]; cbn [concat length]; [lia|]. rewrite length_app, IH. lia.
Qed.

Lemma lookup_map_seq {A} (f : nat → A) n i :
  (i < n)%nat → map f (seq 0 n) !! i = Some (f i).
Proof.
  intros Hi. change (map f (seq 0 n)) with (f <$> seq 0 n).
  by rewrite list_lookup_fmap, lookup_seq_lt.
Qed.

Definition blob_fes (n : nat) (records : list RecordEntry) : list (list byte) :=
  concat (map (λ i, record_fes (blob_record records i)) (seq 0 n)).

Lemma blob_fes_uniform n (records : list RecordEntry) :
  Forall (λ l, length l = FE_PER_RECORD) (map (λ i, record_fes (blob_record records i)) (seq 0 n)).
Proof. apply Forall_fmap, list.Forall_forall. intros i _. apply length_map. Qed.

Lemma blob_fes_lookup n records i j :
  (i < n)%nat → (j < FE_PER_RECORD)%nat →
  blob_fes n records !! (FE_PER_RECORD * i + j)%nat
  = Some (record_fe (blob_record records i) j).
Proof.
  intros Hi Hj. unfold blob_fes. rewrite concat_lookup_uniform; [|apply blob_fes_uniform|done].
  rewrite lookup_map_seq by done. cbn [mbind option_bind]. by apply lookup_map_seq.
Qed.

Lemma length_blob_fes n records : length (blob_fes n records) = (n * FE_PER_RECORD)%nat.
Proof.
  unfold blob_fes. rewrite (length_concat_uniform _ FE_PER_RECORD) by apply blob_fes_uniform.
  rewrite length_map, length_seq. lia.
Qed.

Lemma encode_blob_Ok records fes :
  encode_blob records = Ok fes ↔
  (length records ≤ RECORDS_PER_BLOB)%nat ∧ fes = blob_fes RECORDS_PER_BLOB records.
Proof.
  unfold encode_blob. fold (blob_fes RECORDS_PER_BLOB records). split.
  - intros H. inv_ok H. apply Nat.leb_le in Ha. split; [done|]. congruence.
  - intros [Hl ->]. rewrite ensure_bind by by apply Nat.leb_le. done.
Qed.

(** ** The round trip *)
Fixpoint until_zero (records : list RecordEntry) : list RecordEntry :=
  match records with
  | [] => []
  | r :: rs => if record_zero r then [] else r :: until_zero rs
  end.

Lemma blob_record_length records i :
  Forall record_ok records → length (blob_record records i) = 96%nat.
Proof.
  intros Hf. unfold blob_record. destruct (records !! i) as [r|] eqn:Hr; [|done].
  apply length_encode_record. by eapply Forall_lookup_1.
Qed.

Lemma all_zero_app l1 l2 : all_zero (l1 ++ l2) = all_zero l1 && all_zero l2.
Proof. unfold all_zero. apply forallb_app. Qed.

Lemma all_zero_class c : 0 ≤ c < 65536 → all_zero (be_of_Z 2 c) = (c =? 0).
Proof.
  intros Hc. apply eq_true_iff_eq. rewrite all_zero_true, Z.eqb_eq, length_be_of_Z. split.
  - intros H. apply (f_equal be_to_Z) in H. rewrite be_to_Z_zeros, be_to_of_Z_small in H;
      [done|]. change (256 ^ Z.of_nat 2) with 65536. lia.
  - by intros ->.
Qed.

Lemma content_zero r :
  record_ok r → all_zero (take 66 (encode_record r)) = record_zero r.
Proof.
  intros (H1 & H2 & H3). rewrite encode_record_eq by done. rewrite !app_assoc.
  rewrite take_app_length' by (rewrite !length_app, length_be_of_Z; lia).
  rewrite !all_zero_app, all_zero_class by done. done.
Qed.

Lemma blob_record_zero records i :
  Forall record_ok records →
  all_zero (take 66 (blob_record records i))
  = match records !! i with Some r => record_zero r | None => true end.
Proof.
  intros Hf. unfold blob_record. destruct (records !! i) as [r|] eqn:Hr; [|done].
  apply content_zero. by eapply Forall_lookup_1.
Qed.

Lemma decode_loop_eq total records n i :
  Forall record_ok records → (n + i ≤ total)%nat →
  (length records ≤ n + i)%nat →
  decode_loop n i (blob_fes total records) = until_zero (drop i records).
Proof.
  intros Hf. revert i; induction n as [|n IH]; intros i Hn Hl; cbn [decode_loop].
  { by rewrite drop_ge by lia. }
  rewrite (gather_eq _ i (blob_record records i)).
  2: { by apply blob_record_length. }
  2: { intros j Hj. apply blob_fes_lookup; unfold FE_PER_RECORD; lia. }
  rewrite blob_record_zero by done. unfold blob_record.
  destruct (records !! i) as [r|] eqn:Hr.
  - rewrite (drop_S _ _ _ Hr). cbn [until_zero]. destruct (record_zero r); [done|].
    rewrite decode_encode_record by by eapply Forall_lookup_1.
    f_equal. apply IH; lia.
  - apply lookup_ge_None in Hr. by rewrite drop_ge by lia.
Qed.

(** C34: Decoding an encoded blob gives the records back, up to the first record
    that is entirely zero, which the decoder takes for padding. *)
Theorem blob_roundtrip records :
  Forall record_ok records → (length records ≤ RECORDS_PER_BLOB)%nat →
  ∃ fes, encode_blob records = Ok fes ∧ decode_blob fes = Ok (until_zero records).
Proof.
  intros Hf Hl. exists (blob_fes RECORDS_PER_BLOB records).
  split; [by apply encode_blob_Ok|]. unfold decode_blob.
  rewrite ensure_bind by (rewrite length_blob_fes; apply Nat.eqb_refl).
  f_equal. rewrite decode_loop_eq by (done || lia). by rewrite drop_0.
Qed.

(** The field elements bind the record: their high byte is zero, so the
    conversion to scalars loses nothing. *)
Lemma fr_record_fe_inj b1 b2 j :
  length b1 = 96%nat → length b2 = 96%nat → (j < 4)%nat →
  fr_from_be_bytes (record_fe b1 j) = fr_from_be_bytes (record_fe b2 j) →
  chunk b1 j = chunk b2 j.
Proof.
  intros H1 H2 Hj Heq. pose proof (length_chunk b1 j H1 Hj) as L1.
  pose proof (length_chunk b2 j H2 Hj) as L2. pose proof (fe_range_bound j Hj) as [_ Hb].
  rewrite !record_fe_eq in Heq by done. unfold fr_from_be_bytes in Heq.
  cbn [app] in Heq. rewrite !be_to_Z_cons in Heq. change (byte_Z x00) with 0 in Heq.
  rewrite !Z.mul_0_l, !Z.add_0_l in Heq.
  assert (chunk b1 j ++ zeros (31 - length (chunk b1 j))
        = chunk b2 j ++ zeros (31 - length (chunk b2 j))) as Hc.
  { apply fr_from_be_bytes_inj31; [rewrite length_app, length_zeros; lia..|done]. }
  apply app_inj_1 in Hc as [Hc _]; [done|]. congruence.
Qed.

(** The four scalars a batch proof exposes for a record determine it: two
    well-formed records with equal field decompositions are equal. *)
Lemma bls_fields_injective r1 r2 :
  record_ok r1 → record_ok r2 → record_to_bls_fields r1 = record_to_bls_fields r2 → r1 = r2.
Proof.
  intros H1 H2 Heq. rewrite <-(decode_encode_record r1), <-(decode_encode_record r2) by done.
  f_equal. pose proof (length_encode_record r1 H1) as L1.
  pose proof (length_encode_record r2 H2) as L2.
  rewrite (chunks_concat _ L1), (chunks_concat _ L2).
  assert (∀ j, (j < 4)%nat → chunk (encode_record r1) j = chunk (encode_record r2) j) as Hc.
  { intros j Hj. apply fr_record_fe_inj; [done..|]. apply (inj Some).
    rewrite <-(lookup_map_seq (λ j, fr_from_be_bytes (record_fe (encode_record r1) j)) 4),
      <-(lookup_map_seq (λ j, fr_from_be_bytes (record_fe (encode_record r2) j)) 4) by done.
    exact (f_equal (.!! j) Heq). }
  by rewrite !Hc by lia.
Qed.

(** ** The carrier port *)
Class BlobCarrier (B : Type) : Type := {
  blob_publish : B → list RecordEntry → outcome BlobError (Bytes32 * B);
  blob_open : B → Bytes32 → Z → outcome BlobError KzgOpening;
  blob_verify : B → Bytes32 → KzgOpening → outcome BlobError unit;
  blob_fetch_records : B → Bytes32 → outcome BlobError (list RecordEntry);
}.

(** What the roles rely on.  [blob_carries b vh rs]: the carrier serves the
    records [rs] under the versioned hash [vh]. *)
Class BlobLaws (B : Type) {BC : BlobCarrier B} : Type := {
  blob_carries : B → Bytes32 → list RecordEntry → Prop;
  blob_publish_carries b rs vh b' :
    blob_publish b rs = Ok (vh, b') →
    blob_carries b' vh rs ∧ (length rs ≤ RECORDS_PER_BLOB)%nat ∧
    length vh = 32%nat ∧ be_to_Z vh < fr_modulus;
  blob_publish_total b rs :
    (length rs ≤ RECORDS_PER_BLOB)%nat → ∃ vh b', blob_publish b rs = Ok (vh, b');
  blob_open_complete b vh rs k :
    blob_carries b vh rs → (k < RECORDS_PER_BLOB * FE_PER_RECORD)%nat →
    ∃ o, blob_open b vh (Z.of_nat k) = Ok o ∧ ko_field_element_index o = Z.of_nat k ∧
      blob_fes RECORDS_PER_BLOB rs !! k = Some (ko_claimed_value o) ∧
      blob_verify b vh o = Ok tt;
  blob_verify_sound b vh rs o :
    blob_carries b vh rs → 0 ≤ ko_field_element_index o → blob_verify b vh o = Ok tt →
    blob_fes RECORDS_PER_BLOB rs !! Z.to_nat (ko_field_element_index o)
    = Some (ko_claimed_value o);
  blob_fetch_carried b vh rs :
    blob_carries b vh rs → blob_fetch_records b vh = Ok rs;
}.

(** ** The in-memory carrier *)
Record BlobEntry : Type := mk_blob_entry {
  be_fes : list (list byte);
  be_records : list RecordEntry;
}.

Record InMemoryBlobCarrier : Type := mk_mem_carrier {
  mem_blobs : gmap (list byte) BlobEntry;
}.

Definition mem_new : InMemoryBlobCarrier := mk_mem_carrier ∅.

Section in_memory.
Context `{C : Crypto}.

Definition opening_proof_bytes (versioned_hash : Bytes32) (idx : Z) (value : Bytes32)
  : list byte :=
  sha256 (ascii_bytes "RCP-mock-kzg/v1" ++ versioned_hash ++ be_of_Z 4 idx ++ value).

Definition mem_publish (s : InMemoryBlobCarrier) (records : list RecordEntry)
  : outcome BlobError (Bytes32 * InMemoryBlobCarrier) :=
  fes ← encode_blob records;
  let vh := compute_batch_versioned_hash fes in
  Ok (vh, mk_mem_carrier (<[vh := mk_blob_entry fes records]> (mem_blobs s))).

Definition mem_open (s : InMemoryBlobCarrier) (batch_versioned_hash : Bytes32)
  (field_element_index : Z) : outcome BlobError KzgOpening :=
  entry ← ok_or (mem_blobs s !! batch_versioned_hash) NotFound;
  let idx := Z.to_nat field_element_index in
  ensure (idx <? length (be_fes entry))%nat (BlobMalformed "fe index out of range");;
  value ← index (be_fes entry) idx;
  Ok (mk_opening field_element_index value
        (opening_proof_bytes batch_versioned_hash field_element_index value)).

Definition mem_verify (s : InMemoryBlobCarrier) (batch_versioned_hash : Bytes32)
  (opening : KzgOpening) : outcome BlobError unit :=
  entry ← ok_or (mem_blobs s !! batch_versioned_hash) NotFound;
  let idx := Z.to_nat (ko_field_element_index opening) in
  ensure (idx <? length (be_fes entry))%nat (InvalidOpening "fe index out of range");;
  fe ← index (be_fes entry) idx;
  ensure (bytes_eqb fe (ko_claimed_value opening))
    (InvalidOpening "opening claims a value the published blob does not carry");;
  let expected := opening_proof_bytes batch_versioned_hash
    (ko_field_element_index opening) (ko_claimed_value opening) in
  ensure (bytes_eqb expected (ko_proof_bytes opening))
    (InvalidOpening "mock KZG opening proof mismatch").

Definition mem_fetch_records (s : InMemoryBlobCarrier) (batch_versioned_hash : Bytes32)
  : outcome BlobError (list RecordEntry) :=
  entry ← ok_or (mem_blobs s !! batch_versioned_hash) NotFound;
  Ok (be_records entry).

#[export] Instance mem_carrier : BlobCarrier InMemoryBlobCarrier := {|
  blob_publish := mem_publish;
  blob_open := mem_open;
  blob_verify := mem_verify;
  blob_fetch_records := mem_fetch_records;
|}.

Definition mem_carries (s : InMemoryBlobCarrier) (vh : Bytes32) (rs : list RecordEntry)
  : Prop := mem_blobs s !! vh = Some (mk_blob_entry (blob_fes RECORDS_PER_BLOB rs) rs).

Context {L : CryptoLaws C}.

Lemma versioned_hash_canonical fes :
  length (compute_batch_versioned_hash fes) = 32%nat ∧
  be_to_Z (compute_batch_versioned_hash fes) < fr_modulus.
Proof.
  unfold compute_batch_versioned_hash. pose proof (length_sha256 (concat fes)) as Hl.
  destruct (sha256 (concat fes)) as [|a k]; [done|].
  change (splice (a :: k) 0 [x00]) with (x00 :: k). split; [done|]. injection Hl as Hl.
  rewrite be_to_Z_cons. change (byte_Z x00) with 0. pose proof (be_to_Z_range k) as R.
  rewrite Hl in R. assert (256 ^ Z.of_nat 31 < fr_modulus) by done. lia.
Qed.

Lemma index_Some {E A} (l : list A) i a : l !! i = Some a → @index E A l i = Ok a.
Proof. intros H. unfold index. by rewrite H. Qed.

#[local] Opaque blob_fes RECORDS_PER_BLOB.

#[export] Program Instance mem_laws : BlobLaws InMemoryBlobCarrier := {|
  blob_carries := mem_carries;
|}.
Next Obligation.
  intros b rs vh b' H. cbn [blob_publish mem_carrier] in H. unfold mem_publish in H.
  apply bind_Ok in H as (fes & Hf & H). apply (inj Ok) in H. injection H as <- <-.
  apply encode_blob_Ok in Hf as [Hl ->]. unfold mem_carries.
  split; [apply lookup_insert_eq|]. split; [done|]. apply versioned_hash_canonical.
Qed.
Next Obligation.
  intros b rs Hl. cbn [blob_publish mem_carrier]. unfold mem_publish.
  rewrite (proj2 (encode_blob_Ok rs (blob_fes RECORDS_PER_BLOB rs))) by done.
  eexists _, _. reflexivity.
Qed.
Next Obligation.
  intros b vh rs k Hc Hk. cbn [blob_open blob_verify mem_carrier]. unfold mem_open, mem_verify.
  unfold mem_carries in Hc. rewrite Hc. cbn [ok_or mbind outcome_bind be_fes].
  rewrite Nat2Z.id. rewrite <-(length_blob_fes RECORDS_PER_BLOB rs) in Hk.
  destruct (lookup_lt_is_Some_2 _ _ Hk) as [v Hv].
  rewrite ensure_bind by by apply Nat.ltb_lt.
  rewrite (index_Some _ _ _ Hv). cbn [mbind outcome_bind].
  eexists. split; [reflexivity|]. cbn [ko_field_element_index ko_claimed_value ko_proof_bytes].
  rewrite Nat2Z.id. split_and!; [done|done|].
  rewrite ensure_bind by by apply Nat.ltb_lt.
  rewrite (index_Some _ _ _ Hv). cbn [mbind outcome_bind].
  rewrite ensure_bind by by apply bytes_eqb_eq.
  unfold ensure. by rewrite (proj2 (bytes_eqb_eq _ _) eq_refl).
Qed.
Next Obligation.
  intros b vh rs o Hc Ho H. cbn [blob_verify mem_carrier] in H. unfold mem_verify in H.
  unfold mem_carries in Hc. rewrite Hc in H. cbn [ok_or mbind outcome_bind be_fes] in H.
  inv_ok H. unfold index in Ha0. inv_ok Ha0. apply bytes_eqb_eq in Ha1. rewrite <-Ha1. exact Ha0.
Qed.
Next Obligation.
  intros b vh rs Hc. cbn [blob_fetch_records mem_carrier]. unfold mem_fetch_records.
  unfold mem_carries in Hc. by rewrite Hc.
Qed.
End in_memory.
