(* ===== verification/Ports.v ===== *)
(** * Ports and their in-process adapters

    The traits of [ports/ri.rs], [ports/proof.rs] and [ports/submission.rs] as
    classes, with the laws the roles rely on, and the adapters that implement
    them: [adapters/mock_proof.rs] and [adapters/in_memory_ri.rs].  The lean
    Merkle tree of the [lean_imt] package is a parameter.  Formatted error
    messages are kept without their interpolated values. *)

From Stdlib Require Import ZArith Lia Bool.
From stdpp Require Import base tactics list gmap strings numbers.
From S2P Require Import Prelude Field Types Predicate Poseidon Imt Records.

(** ** The credential layer *)
Record RiPath : Type := mk_ri_path {
  ri_siblings : list Bytes32;
  ri_indices : list byte;
}.

Class RiCredentialLayer (R : Type) : Type := {
  ri_append_leaf : R → Bytes32 → Z → Z * R;
  ri_root : R → Bytes32;
  ri_merkle_path : R → Z → outcome MerkleError RiPath;
  ri_root_first_seen : R → Bytes32 → option Z;
}.

(** [HashedLeanIMT<32, PoseidonHasher>] of the [lean_imt] package. *)
Record LeanProof : Type := mk_lean_proof {
  lp_siblings : list Bytes32;
  lp_index : Z;
}.

Class LeanIMT (T : Type) : Type := {
  lean_new : (list byte → list byte) → T;
  lean_insert : T → Bytes32 → T;
  lean_root : T → option Bytes32;
  lean_size : T → nat;
  lean_generate_proof : T → nat → option LeanProof;
}.

(** Documented behaviour: a fresh tree is empty and an insertion adds a leaf. *)
Class LeanLaws (T : Type) {LT : LeanIMT T} : Prop := {
  lean_size_new h : lean_size (lean_new h) = 0%nat;
  lean_size_insert t v : lean_size (lean_insert t v) = S (lean_size t);
}.

(** [PoseidonHasher::hash]: 64 bytes, two field elements. *)
Definition poseidon_hasher `{Crypto} (input : list byte) : list byte :=
  fr_to_be_bytes (hash_merkle_node (fr_from_be_bytes (take 32 input))
                    (fr_from_be_bytes (drop 32 input))).

Record InMemoryRi (T : Type) : Type := mk_mem_ri {
  mr_tree : T;
  mr_root_first_seen : gmap (list byte) Z;
}.
Arguments mk_mem_ri {T} _ _.
Arguments mr_tree {T} _.
Arguments mr_root_first_seen {T} _.

Section in_memory_ri.
Context `{C : Crypto} {T : Type} {LT : LeanIMT T}.

Definition mr_root (s : InMemoryRi T) : Bytes32 := default (zeros 32) (lean_root (mr_tree s)).

(** [self.root_first_seen.entry(r).or_insert(block)]. *)
Definition or_insert (m : gmap (list byte) Z) (k : list byte) (v : Z) : gmap (list byte) Z :=
  match m !! k with Some _ => m | None => <[k := v]> m end.

Lemma or_insert_keep m k v r b : m !! r = Some b → or_insert m k v !! r = Some b.
Proof.
  intros Hr. unfold or_insert. destruct (m !! k) eqn:E; [done|].
  rewrite lookup_insert_ne; [done|]. congruence.
Qed.

Lemma or_insert_new m k v :
  ∃ b, or_insert m k v !! k = Some b ∧ (m !! k = None → b = v).
Proof.
  unfold or_insert. destruct (m !! k) as [b|] eqn:E.
  - exists b. split; [done|]. congruence.
  - exists v. split; [apply lookup_insert_eq|done].
Qed.

Definition mr_new : InMemoryRi T :=
  let s := mk_mem_ri (lean_new poseidon_hasher) ∅ in
  mk_mem_ri (mr_tree s) (or_insert (mr_root_first_seen s) (mr_root s) 0).

Definition mr_append_leaf (s : InMemoryRi T) (attr_hash : Bytes32) (posted_at_block : Z)
  : Z * InMemoryRi T :=
  let idx := lean_size (mr_tree s) in
  let tree := lean_insert (mr_tree s) attr_hash in
  let r := mr_root (mk_mem_ri tree (mr_root_first_seen s)) in
  (as_u32 idx, mk_mem_ri tree (or_insert (mr_root_first_seen s) r posted_at_block)).

Definition mr_merkle_path (s : InMemoryRi T) (leaf_index : Z) : outcome MerkleError RiPath :=
  ensure (negb (lean_size (mr_tree s) =? 0)%nat) EmptyTree;;
  ensure (Z.to_nat leaf_index <? lean_size (mr_tree s))%nat
    (OutOfRange (Z.to_nat leaf_index) (lean_size (mr_tree s)));;
  proof ← ok_or (lean_generate_proof (mr_tree s) (Z.to_nat leaf_index))
    (ProofFailure "lean proof");
  Ok (mk_ri_path (lp_siblings proof)
        (map (λ i, byte_of_Z (Z.land (Z.shiftr (lp_index proof) (Z.of_nat i)) 1))
           (seq 0 (length (lp_siblings proof))))).

#[export] Instance mem_ri : RiCredentialLayer (InMemoryRi T) := {|
  ri_append_leaf := mr_append_leaf;
  ri_root := mr_root;
  ri_merkle_path := mr_merkle_path;
  ri_root_first_seen s root := mr_root_first_seen s !! root;
|}.

(** A root keeps the block at which it was first seen, for ever. *)
Lemma first_seen_stable (s : InMemoryRi T) r b h blk :
  ri_root_first_seen s r = Some b → ri_root_first_seen (ri_append_leaf s h blk).2 r = Some b.
Proof.
  intros Hr. apply or_insert_keep. exact Hr.
Qed.

(** The root after an append is dated by that append at the latest. *)
Lemma first_seen_append (s : InMemoryRi T) h blk :
  let s' := (ri_append_leaf s h blk).2 in
  ∃ b, ri_root_first_seen s' (ri_root s') = Some b ∧
    (ri_root_first_seen s (ri_root s') = None → b = blk).
Proof.
  apply or_insert_new.
Qed.
End in_memory_ri.

(** ** The proof backend *)
Record BatchPositionWitness : Type := mk_position_witness {
  pw_submission : SignerSubmission;
  pw_public_inputs : SignerPublicInputs;
  pw_running_insert : option ImtInsertWitness;
  pw_idtag_insert : option ImtInsertWitness;
}.

Class ProofBackend (P : Type) : Type := {
  generate_signer_proof :
    P → SignerPublicInputs → SignerPrivateInputs → outcome ProofError (list byte);
  generate_batch_proof :
    P → BatchPublicInputs → list BatchPositionWitness → outcome ProofError (list byte);
  generate_resolution_proof :
    P → ResolutionPublicInputs → ResolutionPrivateInputs → outcome ProofError (list byte);
  verify_signer_proof : P → list byte → SignerPublicInputs → outcome ProofError unit;
  verify_batch_proof : P → list byte → BatchPublicInputs → outcome ProofError unit;
  verify_resolution_proof :
    P → list byte → ResolutionPublicInputs → outcome ProofError unit;
}.

(** Completeness: the proofs a backend generates pass its own checks. *)
Class ProofLaws (P : Type) {PB : ProofBackend P} : Prop := {
  signer_proof_complete p pub priv proof :
    generate_signer_proof p pub priv = Ok proof → verify_signer_proof p proof pub = Ok tt;
  batch_proof_complete p pub pos proof :
    generate_batch_proof p pub pos = Ok proof → verify_batch_proof p proof pub = Ok tt;
  resolution_proof_complete p pub priv proof :
    generate_resolution_proof p pub priv = Ok proof →
    verify_resolution_proof p proof pub = Ok tt;
}.

(** ** The mock backend *)
Inductive MockProofBackend : Type := mock_backend.

Section mock.
Context `{C : Crypto}.

Definition signer_digest (public : SignerPublicInputs) : list byte :=
  sha256 (ascii_bytes "RCP-mock/signer/v1" ++ concat (map fr_to_be_bytes
    [sp_r_root public; sp_petition_id public; sp_predicate_hash public;
     sp_class_index public; sp_class_tag public; sp_slot public; sp_nullifier public;
     sp_identity_tag public])).

Definition batch_digest (public : BatchPublicInputs) : list byte :=
  sha256 (ascii_bytes "RCP-mock/batch/v1" ++ concat (map fr_to_be_bytes
    [bp_petition_id public; bp_r_root public; bp_predicate_hash public;
     bp_class_index public; bp_slot public; bp_batch_size public;
     bp_prior_running_root public; bp_new_running_root public;
     bp_prior_identity_tag_set_root public; bp_new_identity_tag_set_root public;
     bp_prior_leaf_count public; bp_new_leaf_count public;
     bp_batch_versioned_hash public; bp_signer_vk_hash public])
    ++ concat (map fr_to_be_bytes (bp_bls_fields public))).

Definition resolution_digest (public : ResolutionPublicInputs) : list byte :=
  sha256 (ascii_bytes "RCP-mock/resolution/v1" ++ concat (map fr_to_be_bytes
    [rp_predicate_hash public; rp_r_root public; rp_running_root public;
     rp_leaf_count public; rp_b public; rp_class_index public])
    ++ concat (map fr_to_be_bytes (rp_class_set public))
    ++ concat (map fr_to_be_bytes (rp_class_thresholds public))
    ++ concat (map fr_to_be_bytes (rp_b_per_class public))).

(** [proof.len() < 32 || proof[..32] != expected]. *)
Definition digest_matches (proof expected : list byte) : bool :=
  (32 <=? length proof)%nat && bytes_eqb (take 32 proof) expected.

Definition mock_signer_proof (_ : MockProofBackend) (public : SignerPublicInputs)
  (private : SignerPrivateInputs) : outcome ProofError (list byte) :=
  ensure (negb (length (sw_attr_vector private) =? 0)%nat)
    (WitnessSerialization "empty attr_vector");;
  ensure (negb (fr_eqb (sw_chain_root private) (fr_of_Z 0)))
    (WitnessSerialization "chain_root must be non-zero");;
  Ok (signer_digest public ++ ascii_bytes "signer-mock").

Definition mock_batch_proof (_ : MockProofBackend) (public : BatchPublicInputs)
  (positions : list BatchPositionWitness) : outcome ProofError (list byte) :=
  ensure (negb (length positions =? 0)%nat) (WitnessSerialization "batch has no positions");;
  for_each (λ _ p,
      ensure (digest_matches (sub_proof_bytes (pw_submission p))
                (signer_digest (pw_public_inputs p)))
        (ProofVerification "batch position signer proof failed mock recursion check"))
    tt positions;;
  Ok (batch_digest public ++ ascii_bytes "batch-mock").

Definition mock_resolution_proof (_ : MockProofBackend) (public : ResolutionPublicInputs)
  (private : ResolutionPrivateInputs) : outcome ProofError (list byte) :=
  ensure (negb (length (rw_leaves private) =? 0)%nat)
    (WitnessSerialization "resolution has no leaves");;
  ensure (length (rw_imt_membership_paths private) =? length (rw_leaves private))%nat
    (WitnessSerialization "resolution leaves != imt membership paths");;
  Ok (resolution_digest public ++ ascii_bytes "resolution-mock").

#[export] Instance mock_proof_backend : ProofBackend MockProofBackend := {|
  generate_signer_proof := mock_signer_proof;
  generate_batch_proof := mock_batch_proof;
  generate_resolution_proof := mock_resolution_proof;
  verify_signer_proof _ proof public :=
    ensure (digest_matches proof (signer_digest public))
      (ProofVerification "signer proof mismatch");
  verify_batch_proof _ proof public :=
    ensure (digest_matches proof (batch_digest public))
      (ProofVerification "batch proof mismatch");
  verify_resolution_proof _ proof public :=
    ensure (digest_matches proof (resolution_digest public))
      (ProofVerification "resolution proof mismatch");
|}.

Context {L : CryptoLaws C}.

Lemma digest_matches_own m suffix : digest_matches (sha256 m ++ suffix) (sha256 m) = true.
Proof.
  unfold digest_matches. apply andb_true_iff. split.
  - apply Nat.leb_le. rewrite length_app, length_sha256. lia.
  - apply bytes_eqb_eq. apply take_app_length'. symmetry. apply length_sha256.
Qed.

#[export] Instance mock_laws : ProofLaws MockProofBackend.
Proof.
  constructor; intros p pub w proof H; cbn in H |- *.
  - unfold mock_signer_proof in H. inv_ok H. unfold signer_digest.
    by rewrite digest_matches_own.
  - unfold mock_batch_proof in H. inv_ok H. unfold batch_digest.
    by rewrite digest_matches_own.
  - unfold mock_resolution_proof in H. inv_ok H. unfold resolution_digest.
    by rewrite digest_matches_own.
Qed.
End mock.
