(* ===== verification/Organizer.v ===== *)
(** * The organizer

    Model of [organizer/]: assembling and checking a petition draft. *)

From Stdlib Require Import ZArith Lia Bool.
From stdpp Require Import base tactics list strings numbers.
From S2P Require Import Prelude Field Types Predicate Records.

Record PetitionDraft : Type := mk_draft {
  pd_organizer : Address;
  pd_r_root : Bytes32;
  pd_predicate_def : PredicateDef;
  pd_salt : Bytes32;
  pd_class_set : list ClassTag;
  pd_class_thresholds : list Z;
  pd_class_index : byte;
  pd_close_at_block : Z;
  pd_bounty : U256Be.t;
}.

Inductive OrganizerError : Type :=
| ClassSetSize (n cap : nat)
| ThresholdLenMismatch (thresholds class_set : nat)
| ClassIndexOutOfRange (i : byte)
| ClassSetNotSorted
| OrganizerPredicate (e : PredicateError)
| CloseInPast
| SigningWindowTooLong.

Record Organizer : Type := mk_organizer {
  organizer_address : Address;
}.

Definition build_petition (self : Organizer) (r_root : Bytes32)
  (predicate_def : PredicateDef) (salt : Bytes32) (class_set : list ClassTag)
  (class_thresholds : list Z) (class_index : byte)
  (registration_block close_at_block : Z) (bounty : U256Be.t)
  : outcome OrganizerError PetitionDraft :=
  ensure (negb ((length class_set =? 0)%nat || (MAX_CLASS_SET_LEN <? length class_set)%nat))
    (ClassSetSize (length class_set) MAX_CLASS_SET_LEN);;
  ensure (strictly_increasing class_set) ClassSetNotSorted;;
  ensure (length class_thresholds =? length class_set)%nat
    (ThresholdLenMismatch (length class_thresholds) (length class_set));;
  ensure (negb (Z.of_nat MAX_CLASS_SET_LEN <=? byte_Z class_index))
    (ClassIndexOutOfRange class_index);;
  map_err OrganizerPredicate (validate predicate_def);;
  operand ← map_err OrganizerPredicate
    (find_class_binding_operand predicate_def class_index);
  ensure (memZ operand class_set) (OrganizerPredicate MissingClassBinding);;
  ensure (negb (close_at_block <=? registration_block)) CloseInPast;;
  ensure (negb (MAX_SIGNING_WINDOW_BLOCKS <? close_at_block - registration_block))
    SigningWindowTooLong;;
  Ok (mk_draft (organizer_address self) r_root predicate_def salt class_set
        class_thresholds class_index close_at_block bounty).
