(* ===== verification/Disputant.v ===== *)
(** * The disputant

    Model of [disputant/]: reading records through openings of the blob
    carrier and building dispute envelopes against a published batch. *)

From Stdlib Require Import ZArith Lia Bool.
From stdpp Require Import base tactics list sorting gmap strings numbers.
From S2P Require Import Prelude Field Types Records Poseidon Blob.

Record DisputeContext : Type := mk_dispute_context {
  dc_petition_id : PetitionId;
  dc_batch_versioned_hash : Bytes32;
  dc_batch_index : Z;
  dc_class_set : list ClassTag;
}.

Inductive DisputantError : Type :=
| PredicateNotViolated
| DisputantBlob (e : BlobError).

(** [a >= b] on the big-endian bytes of the leaves. *)
Definition leaf_ordering_violated (leaf_i leaf_ip1 : Fr) : bool :=
  negb (bytes_ltb (fr_to_be_bytes leaf_i) (fr_to_be_bytes leaf_ip1)).

(** [openings.sort_by_key(|o| o.field_element_index)], a stable sort. *)
Fixpoint insert_opening (o : KzgOpening) (l : list KzgOpening) : list KzgOpening :=
  match l with
  | [] => [o]
  | x :: l' =>
      if ko_field_element_index o <=? ko_field_element_index x then o :: l
      else x :: insert_opening o l'
  end.
Fixpoint sort_openings (l : list KzgOpening) : list KzgOpening :=
  match l with
  | [] => []
  | o :: l' => insert_opening o (sort_openings l')
  end.

(** [record_bytes[start..end].copy_from_slice(&o.claimed_value[1..1 + take])]
    for the four openings of a record, in order. *)
Definition assemble_record (values : list Bytes32) : list byte :=
  gather_record values 0.

Section disputant.
Context `{C : Crypto} {B : Type} {BC : BlobCarrier B}.

Definition read_record (blob_carrier : B) (batch_versioned_hash : Bytes32) (position : Z)
  : outcome DisputantError (RecordEntry * list KzgOpening) :=
  let open_ j := map_err DisputantBlob
    (blob_open blob_carrier batch_versioned_hash (fe_index (Z.to_nat position) j)) in
  o0 ← open_ 0%nat;
  o1 ← open_ 1%nat;
  o2 ← open_ 2%nat;
  o3 ← open_ 3%nat;
  let openings := [o0; o1; o2; o3] in
  let record_bytes := assemble_record (map ko_claimed_value openings) in
  Ok (decode_record record_bytes, openings).

(** [leaf = hash_leaf(nullifier, class_tag)] of a record. *)
Definition record_leaf (r : RecordEntry) : Fr :=
  hash_leaf (fr_from_be_bytes (re_nullifier r)) (fr_of_Z (re_class_tag r)).

Definition build_class_tag_out_of_set (blob_carrier : B) (ctx : DisputeContext)
  (position_i : Z) : outcome DisputantError Dispute :=
  '(rec_i, openings_i) ← read_record blob_carrier (dc_batch_versioned_hash ctx) position_i;
  ensure (negb (memZ (re_class_tag rec_i) (dc_class_set ctx))) PredicateNotViolated;;
  Ok (mk_dispute (dc_petition_id ctx) (dc_batch_index ctx) ClassTagOutOfSet position_i None
        (sort_openings openings_i)).

Definition build_intra_batch_duplicate_identity_tag (blob_carrier : B)
  (ctx : DisputeContext) (position_i position_j : Z) : outcome DisputantError Dispute :=
  ensure (negb (position_i =? position_j)) PredicateNotViolated;;
  '(rec_i, openings_i) ← read_record blob_carrier (dc_batch_versioned_hash ctx) position_i;
  '(rec_j, openings_j) ← read_record blob_carrier (dc_batch_versioned_hash ctx) position_j;
  ensure (bytes_eqb (re_identity_tag rec_i) (re_identity_tag rec_j)) PredicateNotViolated;;
  Ok (mk_dispute (dc_petition_id ctx) (dc_batch_index ctx) IntraBatchDuplicateIdentityTag
        position_i (Some position_j) (sort_openings (openings_i ++ openings_j))).

Definition build_leaf_ordering_violation (blob_carrier : B) (ctx : DisputeContext)
  (position_i : Z) : outcome DisputantError Dispute :=
  position_j ← ok_or (checked_add 32 position_i 1)
    (DisputantBlob (BlobMalformed "position_i overflow"));
  '(rec_i, openings_i) ← read_record blob_carrier (dc_batch_versioned_hash ctx) position_i;
  '(rec_ip1, openings_ip1) ←
    read_record blob_carrier (dc_batch_versioned_hash ctx) position_j;
  ensure (leaf_ordering_violated (record_leaf rec_i) (record_leaf rec_ip1))
    PredicateNotViolated;;
  Ok (mk_dispute (dc_petition_id ctx) (dc_batch_index ctx) LeafOrderingViolation
        position_i (Some position_j) (sort_openings (openings_i ++ openings_ip1))).
End disputant.
