(* ===== verification/Registry.v ===== *)
(** * The petition registry

    Model of [registry/]: the state machine the other roles drive.  The state
    is the registry's own (global counters, the petition table, the proof
    backend, credential layer and blob carrier it holds); the block clock is
    read once per call, as an argument.  A method on [&mut self] runs in the
    state monad [M], so what it writes before an early return stays written.

    Formatted error messages are kept without their interpolated values. *)

From Stdlib Require Import ZArith Lia Bool.
From stdpp Require Import base tactics list gmap strings numbers.
From S2P Require Import Prelude Field Types Predicate Poseidon Imt Records Blob Ports Organizer Disputant.

(** ** Types *)
Definition TOMBSTONE_MARKER : Bytes32 := splice (zeros 32) 31 [x01].

Record RegisteredPetition : Type := mk_registered {
  rg_petition_id : PetitionId;
  rg_slot : Z;
  rg_predicate_hash : Bytes32;
  rg_registered_at_block : Z;
}.

Record PetitionRegisteredEvent : Type := mk_registered_event {
  ev_reg_petition_id : PetitionId;
  ev_reg_slot : Z;
  ev_reg_r_root : Bytes32;
  ev_reg_predicate_hash : Bytes32;
  ev_reg_class_set : list ClassTag;
  ev_reg_class_thresholds : list Z;
  ev_reg_class_index : byte;
  ev_reg_close_at_block : Z;
  ev_reg_bounty : Z;
}.

Record BatchPublishedEvent : Type := mk_published_event {
  ev_pub_petition_id : PetitionId;
  ev_pub_batch_index : Z;
  ev_pub_batch_versioned_hash : Bytes32;
  ev_pub_new_running_root : Bytes32;
  ev_pub_new_identity_tag_set_root : Bytes32;
  ev_pub_new_leaf_count : Z;
}.

Record BatchRepudiatedEvent : Type := mk_repudiated_event {
  ev_rep_petition_id : PetitionId;
  ev_rep_batch_index : Z;
  ev_rep_new_running_root : Bytes32;
  ev_rep_new_identity_tag_set_root : Bytes32;
  ev_rep_new_leaf_count : Z;
}.

Record PetitionResolvedEvent : Type := mk_resolved_event {
  ev_res_petition_id : PetitionId;
  ev_res_b : bool;
  ev_res_b_per_class : list bool;
}.

Record PetitionUnresolvedEvent : Type := mk_unresolved_event {
  ev_unres_petition_id : PetitionId;
}.

(** [BountyPaidEvent] and [BountyRefundedEvent] have the same fields. *)
Record BountyEvent : Type := mk_bounty_event {
  ev_bounty_petition_id : PetitionId;
  ev_bounty_recipient : Address;
  ev_bounty_amount : Z;
}.

Record AlphaUpdatedEvent : Type := mk_alpha_event {
  ev_old_alpha : Z;
  ev_new_alpha : Z;
}.

Record PetitionStateView : Type := mk_state_view {
  sv_petition_id : PetitionId;
  sv_r_root : Bytes32;
  sv_predicate_hash : Bytes32;
  sv_class_set : list ClassTag;
  sv_class_thresholds : list Z;
  sv_class_index : byte;
  sv_slot : Z;
  sv_running_root : Bytes32;
  sv_identity_tag_set_root : Bytes32;
  sv_leaf_count : Z;
}.

Record PriorMismatch : Type := mk_prior_mismatch {
  pm_expected_rr : Bytes32;
  pm_expected_idt : Bytes32;
  pm_expected_lc : Z;
  pm_got_rr : Bytes32;
  pm_got_idt : Bytes32;
  pm_got_lc : Z;
}.

Inductive RegistryError : Type :=
| DuplicatePetition
| UnknownPetition
| BadState (s : PetitionState) (op : string)
| RRootTooYoung
| AlphaOutOfBounds (alpha min max : Z)
| BountyBelowMinimum (bounty min : Z)
| SlotCounterExhausted (s : Z)
| RegistryPredicate (e : PredicateError)
| BadBatchProof (e : ProofError)
| BatchPriorMismatch (m : PriorMismatch)
| BatchSizeOutOfRange (n : nat)
| BadResolutionProof (e : ProofError)
| ResolutionStateMismatch
| BadDisputeOpening (e : BlobError)
| DisputePredicateNotMet
| DisputeUnknownBatch (i : Z)
| DisputeBatchAlreadyRepudiated (i : Z)
| DisputeWindowClosed
| RegistryImt (e : ImtError)
| RegistryBlob (e : BlobError).

Record PetitionEntry : Type := mk_entry {
  pe_record : PetitionRecord;
  pe_batches : list BatchRecord;
  pe_running_imt : IndexedMerkleTree;
  pe_identity_tag_imt : IndexedMerkleTree;
}.

Record PetitionRegistry (P R B : Type) : Type := mk_registry {
  reg_address : Address;
  reg_global : GlobalState;
  reg_proof_backend : P;
  reg_ri : R;
  reg_blob_carrier : B;
  reg_petitions : gmap (list byte) PetitionEntry;
  reg_empty_imt_root : Bytes32;
}.
Arguments mk_registry {P R B}.
Arguments reg_address {P R B}.
Arguments reg_global {P R B}.
Arguments reg_proof_backend {P R B}.
Arguments reg_ri {P R B}.
Arguments reg_blob_carrier {P R B}.
Arguments reg_petitions {P R B}.
Arguments reg_empty_imt_root {P R B}.

(** ** Field updates *)
Definition set_state (r : PetitionRecord) (s : PetitionState) : PetitionRecord :=
  mk_petition (pr_petition_id r) (pr_slot r) (pr_r_root r) (pr_predicate_def r)
    (pr_predicate_hash r) (pr_salt r) (pr_class_set r) (pr_class_thresholds r)
    (pr_class_index r) (pr_close_at_block r) (pr_bounty r) (pr_alpha_at_registration r)
    (pr_organizer r) (pr_running_root r) (pr_identity_tag_set_root r) (pr_leaf_count r)
    (pr_resolution_proof r) (pr_b r) (pr_b_per_class r) s (pr_registration_block r).

Definition set_roots (r : PetitionRecord) (rr idt : Bytes32) (lc : Z) : PetitionRecord :=
  mk_petition (pr_petition_id r) (pr_slot r) (pr_r_root r) (pr_predicate_def r)
    (pr_predicate_hash r) (pr_salt r) (pr_class_set r) (pr_class_thresholds r)
    (pr_class_index r) (pr_close_at_block r) (pr_bounty r) (pr_alpha_at_registration r)
    (pr_organizer r) rr idt lc
    (pr_resolution_proof r) (pr_b r) (pr_b_per_class r) (pr_state r)
    (pr_registration_block r).

Definition set_outcome (r : PetitionRecord) (b : bool) (b_per_class : list bool)
  (proof : list byte) : PetitionRecord :=
  mk_petition (pr_petition_id r) (pr_slot r) (pr_r_root r) (pr_predicate_def r)
    (pr_predicate_hash r) (pr_salt r) (pr_class_set r) (pr_class_thresholds r)
    (pr_class_index r) (pr_close_at_block r) (pr_bounty r) (pr_alpha_at_registration r)
    (pr_organizer r) (pr_running_root r) (pr_identity_tag_set_root r) (pr_leaf_count r)
    proof b b_per_class Resolved (pr_registration_block r).

Definition repudiate (b : BatchRecord) : BatchRecord :=
  mk_batch (br_petition_id b) (br_batch_index b) (br_batch_versioned_hash b)
    (br_new_running_root b) (br_new_identity_tag_set_root b) (br_prior_running_root b)
    (br_prior_identity_tag_set_root b) (br_prior_leaf_count b) (br_new_leaf_count b)
    (br_relayer b) (br_submitted_at_block b) Repudiated.

Definition is_active (b : BatchRecord) : bool := bool_decide (br_state b = Active).

(** ** Conversions *)
Definition fr_to_u64 (fr : Fr) : outcome RegistryError Z :=
  let be := fr_to_be_bytes fr in
  ensure (all_zero (take 24 be))
    (BadBatchProof (ProofVerification "public-input field element exceeds u64 range"));;
  Ok (be_to_Z (take 8 (drop 24 be))).

Definition u256_to_u128 (v : U256Be.t) : outcome RegistryError Z :=
  ensure (all_zero (take 16 v))
    (RegistryPredicate (Malformed "bounty exceeds u128 range"));;
  Ok (be_to_Z (take 16 (drop 16 v))).

(** ** Evidence *)

(** The scan over the openings: at most one per offset [0..4) of [base]. *)
Definition collect_offset (base : Z) (by_offset : list (option KzgOpening))
  (o : KzgOpening) : option (list (option KzgOpening)) :=
  match checked_sub (ko_field_element_index o) base with
  | Some off =>
      if off <? 4 then
        match by_offset !! Z.to_nat off with
        | Some (Some _) => None
        | _ => Some (<[Z.to_nat off := Some o]> by_offset)
        end
      else Some by_offset
  | None => Some by_offset
  end.

Definition derive_evidence (dispute : Dispute) (position : Z) : option RecordEntry :=
  base ← checked_mul 32 position 4;
  last ← checked_add 32 base 3;
  let max_fe_index := Z.of_nat (RECORDS_PER_BLOB * FE_PER_RECORD) in
  if max_fe_index <=? last then None
  else
    by_offset ← foldl (λ acc o, acc ≫= λ l, collect_offset base l o)
      (Some (replicate 4 None)) (di_openings dispute);
    openings ← mapM id by_offset;
    Some (decode_record (assemble_record (map ko_claimed_value openings))).

Definition roll_back_to_predecessor (batches : list BatchRecord) (repudiated_idx : nat)
  (empty_imt_root : Bytes32) : Bytes32 * Bytes32 * Z :=
  match List.find is_active (rev (take repudiated_idx batches)) with
  | Some prev => (br_new_running_root prev, br_new_identity_tag_set_root prev,
                  br_new_leaf_count prev)
  | None => (empty_imt_root, empty_imt_root, 0)
  end.

(** ** The lifecycle *)

(** One round of the loop of [step_state]; the block sum is a [u64] sum. *)
Definition next_state (block : Z) (r : PetitionRecord)
  : outcome RegistryError (option PetitionState) :=
  match pr_state r with
  | Registered => Ok (Some SigningOpen)
  | SigningOpen => Ok (if pr_close_at_block r <=? block then Some SigningClosed else None)
  | SigningClosed => Ok (Some Cooldown)
  | Cooldown =>
      opens ← expect (checked_add 64 (pr_close_at_block r) COOLDOWN_BLOCKS);
      Ok (if opens <=? block then Some DisputeWindow else None)
  | _ => Ok None
  end.

(** The loop visits each of the seven states at most once. *)
Fixpoint advance_state (fuel : nat) (block : Z) (r : PetitionRecord)
  : outcome RegistryError PetitionRecord :=
  match fuel with
  | O => Ok r
  | S fuel' =>
      next ← next_state block r;
      match next with
      | Some s => advance_state fuel' block (set_state r s)
      | None => Ok r
      end
  end.
Definition step_record (block : Z) (r : PetitionRecord) : outcome RegistryError PetitionRecord :=
  advance_state 7 block r.

Section registry.
Context `{C : Crypto} {P R B : Type}.
Context {PB : ProofBackend P} {RI : RiCredentialLayer R} {BC : BlobCarrier B}.

Abbreviation Reg := (PetitionRegistry P R B).
Abbreviation RM := (M Reg RegistryError).

Definition registry_new (address : Address) (global : GlobalState) (proof_backend : P)
  (ri : R) (blob_carrier : B) : Reg :=
  mk_registry address global proof_backend ri blob_carrier ∅ (imt_root imt_new).

Definition set_entry (s : Reg) (id : list byte) (e : PetitionEntry) : Reg :=
  mk_registry (reg_address s) (reg_global s) (reg_proof_backend s) (reg_ri s)
    (reg_blob_carrier s) (<[id := e]> (reg_petitions s)) (reg_empty_imt_root s).

Definition set_global (s : Reg) (g : GlobalState) : Reg :=
  mk_registry (reg_address s) g (reg_proof_backend s) (reg_ri s)
    (reg_blob_carrier s) (reg_petitions s) (reg_empty_imt_root s).

Definition with_record (e : PetitionEntry) (r : PetitionRecord) : PetitionEntry :=
  mk_entry r (pe_batches e) (pe_running_imt e) (pe_identity_tag_imt e).

Definition petition (s : Reg) (id : list byte) : outcome RegistryError PetitionEntry :=
  ok_or (reg_petitions s !! id) UnknownPetition.

Definition step_state (now : Z) (id : list byte) : RM PetitionState := λ s,
  match petition s id with
  | Ok entry =>
      match step_record now (pe_record entry) with
      | Ok r => (Ok (pr_state r), set_entry s id (with_record entry r))
      | Err e => (Err e, s)
      | Panic => (Panic, s)
      end
  | Err e => (Err e, s)
  | Panic => (Panic, s)
  end.

Definition state_view (s : Reg) (id : list byte) : outcome RegistryError PetitionStateView :=
  entry ← petition s id;
  let r := pe_record entry in
  Ok (mk_state_view (pr_petition_id r) (pr_r_root r) (pr_predicate_hash r)
        (pr_class_set r) (pr_class_thresholds r) (pr_class_index r) (pr_slot r)
        (pr_running_root r) (pr_identity_tag_set_root r) (pr_leaf_count r)).

Definition current_state (s : Reg) (id : list byte) : outcome RegistryError PetitionState :=
  entry ← petition s id; Ok (pr_state (pe_record entry)).

Definition active_batch_versioned_hashes (s : Reg) (id : list byte)
  : outcome RegistryError (list Bytes32) :=
  entry ← petition s id;
  Ok (map br_batch_versioned_hash (List.filter is_active (pe_batches entry))).

(** ** [register] *)
Definition malformed (m : string) : RegistryError := RegistryPredicate (Malformed m).

(** The least bounty, in checked [u128] arithmetic. *)
Definition bounty_floor (alpha : Z) (draft : PetitionDraft) : outcome RegistryError Z :=
  threshold_sum ← for_each (λ acc t,
      ok_or (checked_add 128 acc t) (malformed "class_thresholds sum overflow"))
    0 (pd_class_thresholds draft);
  n_expected ← ok_or (checked_mul 128 threshold_sum 10) (malformed "N_expected overflow");
  let predicate_op_count := Z.of_nat (op_count (pd_predicate_def draft)) in
  ok_or (x ← checked_mul 128 alpha n_expected;
         checked_mul 128 x predicate_op_count) (malformed "B_min overflow").

(** The checks of [register], in order, and the record they admit. *)
Definition register_checked (now : Z) (s : Reg) (draft : PetitionDraft)
  : outcome RegistryError (PetitionRecord * Z) :=
  let g := reg_global s in
  map_err RegistryPredicate (validate (pd_predicate_def draft));;
  ensure (negb (length (pd_class_set draft) =? 0)%nat) (malformed "class_set must be non-empty");;
  ensure (length (pd_class_thresholds draft) =? length (pd_class_set draft))%nat
    (malformed "class_thresholds.len() != class_set.len()");;
  ensure (negb (memZ 0 (pd_class_thresholds draft)))
    (malformed "every class_thresholds[i] must be >= 1");;
  ensure (strictly_increasing (pd_class_set draft))
    (malformed "class_set must be strictly increasing");;
  ensure (negb (byte_Z (gs_n g) <=? byte_Z (pd_class_index draft)))
    (malformed "class_index >= n");;
  operand ← map_err RegistryPredicate
    (find_class_binding_operand (pd_predicate_def draft) (pd_class_index draft));
  ensure (memZ operand (pd_class_set draft)) (RegistryPredicate MissingClassBinding);;
  root_first_seen ← ok_or (ri_root_first_seen (reg_ri s) (pd_r_root draft))
    (malformed "R is not a known RI root");
  ensure (negb ((now <? root_first_seen) || (now - root_first_seen <? MIN_R_AGE_BLOCKS)))
    RRootTooYoung;;
  ensure (negb (pd_close_at_block draft <=? now))
    (malformed "close_at_block must be in the future");;
  ensure (negb (MAX_SIGNING_WINDOW_BLOCKS <? pd_close_at_block draft - now))
    (malformed "signing window exceeds 11.5 days");;
  encoded ← map_err RegistryPredicate (encode (pd_predicate_def draft));
  canonical ← map_err RegistryPredicate (canonical_scalars encoded);
  let salt := fr_from_be_bytes (pd_salt draft) in
  let pre_id_hash_be := fr_to_be_bytes (hash_predicate canonical (fr_of_Z 0) salt) in
  let s_at_registration := gs_s g in
  ensure (s_at_registration <? FSRT_SLOT_COUNT) (SlotCounterExhausted s_at_registration);;
  let petition_id := derive_petition_id (gs_chain_id g) (reg_address s) (pd_organizer draft)
    s_at_registration pre_id_hash_be (pd_close_at_block draft) in
  ensure (bool_decide (reg_petitions s !! petition_id = None)) DuplicatePetition;;
  let predicate_hash_be := fr_to_be_bytes
    (hash_predicate canonical (fr_from_be_bytes petition_id) salt) in
  ensure ((gs_alpha_min g <=? gs_alpha g) && (gs_alpha g <=? gs_alpha_max g))
    (AlphaOutOfBounds (gs_alpha g) (gs_alpha_min g) (gs_alpha_max g));;
  b_min ← bounty_floor (gs_alpha g) draft;
  bounty_u128 ← u256_to_u128 (pd_bounty draft);
  ensure (b_min <=? bounty_u128) (BountyBelowMinimum bounty_u128 b_min);;
  Ok (mk_petition petition_id s_at_registration (pd_r_root draft) encoded predicate_hash_be
        (pd_salt draft) (pd_class_set draft) (pd_class_thresholds draft)
        (pd_class_index draft) (pd_close_at_block draft) (pd_bounty draft) (gs_alpha g)
        (pd_organizer draft) (reg_empty_imt_root s) (reg_empty_imt_root s) 0 [] false []
        Registered now,
      bounty_u128).

Definition with_slot (g : GlobalState) (s : Z) : GlobalState :=
  mk_global s (gs_alpha g) (gs_alpha_min g) (gs_alpha_max g) (gs_srs_hash g)
    (gs_chain_id g) (gs_n g).

Definition register (now : Z) (draft : PetitionDraft)
  : RM (RegisteredPetition * PetitionRegisteredEvent) :=
  s ← mget;
  '(r, bounty_u128) ← mlift (register_checked now s draft);
  next_s ← mlift (ok_or (checked_add 32 (gs_s (reg_global s)) 1)
    (SlotCounterExhausted (gs_s (reg_global s))));
  mput (set_entry (set_global s (with_slot (reg_global s) next_s)) (pr_petition_id r)
          (mk_entry r [] imt_new imt_new));;
  step_state now (pr_petition_id r);;
  mret (mk_registered (pr_petition_id r) (pr_slot r) (pr_predicate_hash r) now,
        mk_registered_event (pr_petition_id r) (pr_slot r) (pd_r_root draft)
          (pr_predicate_hash r) (pd_class_set draft) (pd_class_thresholds draft)
          (pd_class_index draft) (pd_close_at_block draft) bounty_u128).

(** ** [publish_batch] *)
Definition bad_batch (m : string) : RegistryError := BadBatchProof (ProofVerification m).

(** The scratch state of the re-execution loop. *)
Record Scratch : Type := mk_scratch {
  sc_running_imt : IndexedMerkleTree;
  sc_identity_tag_imt : IndexedMerkleTree;
  sc_prev_leaf : option (list byte);
  sc_last_running_root : Bytes32;
  sc_last_identity_tag_root : Bytes32;
}.

Definition replay_record (class_set : list ClassTag) (st : Scratch) (record : RecordEntry)
  : outcome RegistryError Scratch :=
  ensure (memZ (re_class_tag record) class_set)
    (bad_batch "class_tag not in petition's class_set");;
  let leaf_be := fr_to_be_bytes (record_leaf record) in
  ensure (match sc_prev_leaf st with
          | Some prev => bytes_ltb prev leaf_be
          | None => true
          end) (bad_batch "leaf ordering violation");;
  '(leaf_witness, running) ← map_err (λ _, bad_batch "running_imt insert")
    (imt_insert (sc_running_imt st) leaf_be);
  '(id_witness, idt) ← map_err (λ _, bad_batch "identity_tag_imt insert")
    (imt_insert (sc_identity_tag_imt st) (re_identity_tag record));
  Ok (mk_scratch running idt (Some leaf_be) (iw_new_root leaf_witness)
        (iw_new_root id_witness)).

(** Everything between the lifecycle check and the first write: the versioned
    hash, the new roots and count, and the scratch trees. *)
Definition publish_checked (s : Reg) (entry : PetitionEntry) (submission : BatchSubmission)
  : outcome RegistryError (Bytes32 * Z * Scratch) :=
  let public := bs_public_inputs submission in
  let rec := pe_record entry in
  fes ← map_err RegistryBlob (encode_blob (bs_records submission));
  let local_vh := compute_batch_versioned_hash fes in
  ensure (bytes_eqb local_vh (fr_to_be_bytes (bp_batch_versioned_hash public)))
    (RegistryBlob (BlobMalformed "batch_versioned_hash mismatch"));;
  map_err BadBatchProof
    (verify_batch_proof (reg_proof_backend s) (bs_proof_bytes submission) public);;
  ensure (fr_eqb (bp_petition_id public) (fr_from_be_bytes (pr_petition_id rec))
          && fr_eqb (bp_r_root public) (fr_from_be_bytes (pr_r_root rec))
          && fr_eqb (bp_predicate_hash public) (fr_from_be_bytes (pr_predicate_hash rec))
          && fr_eqb (bp_class_index public) (fr_of_Z (byte_Z (pr_class_index rec))))
    (bad_batch "batch public-input petition bindings mismatch");;
  ensure (fr_eqb (bp_slot public) (fr_of_Z (pr_slot rec)))
    (bad_batch "batch public-input slot mismatch");;
  batch_size_u ← fr_to_u64 (bp_batch_size public);
  ensure (negb ((batch_size_u =? 0) || (Z.of_nat BATCH_SIZE_MAX <? batch_size_u)))
    (BatchSizeOutOfRange (Z.to_nat batch_size_u));;
  ensure (Z.of_nat (length (bs_records submission)) =? batch_size_u)
    (BatchSizeOutOfRange (length (bs_records submission)));;
  let prior_rr_be := fr_to_be_bytes (bp_prior_running_root public) in
  let prior_idt_be := fr_to_be_bytes (bp_prior_identity_tag_set_root public) in
  prior_lc_u ← fr_to_u64 (bp_prior_leaf_count public);
  ensure (bytes_eqb prior_rr_be (pr_running_root rec)
          && bytes_eqb prior_idt_be (pr_identity_tag_set_root rec)
          && (prior_lc_u =? pr_leaf_count rec))
    (BatchPriorMismatch (mk_prior_mismatch (pr_running_root rec)
      (pr_identity_tag_set_root rec) (pr_leaf_count rec) prior_rr_be prior_idt_be prior_lc_u));;
  new_lc_u ← fr_to_u64 (bp_new_leaf_count public);
  expected_new_lc ← ok_or (checked_add 64 prior_lc_u batch_size_u)
    (bad_batch "prior_leaf_count + batch_size overflow");
  ensure (new_lc_u =? expected_new_lc)
    (bad_batch "new_leaf_count != prior_leaf_count + batch_size");;
  scratch ← for_each (replay_record (pr_class_set rec))
    (mk_scratch (pe_running_imt entry) (pe_identity_tag_imt entry) None prior_rr_be
       prior_idt_be) (bs_records submission);
  ensure (bytes_eqb (fr_to_be_bytes (bp_new_running_root public))
            (sc_last_running_root scratch))
    (bad_batch "submitted new_running_root disagrees with registry IMT");;
  ensure (bytes_eqb (fr_to_be_bytes (bp_new_identity_tag_set_root public))
            (sc_last_identity_tag_root scratch))
    (bad_batch "submitted new_identity_tag_set_root disagrees with registry IMT");;
  Ok (local_vh, new_lc_u, scratch).

(** The trees are written first, then the roots and the batch; the batch
    index conversion sits in between.  [prior_lc_u] is the record's own count,
    by the prior-state check. *)
Definition publish_batch (now : Z) (id : list byte) (relayer : Address)
  (submission : BatchSubmission) : RM BatchPublishedEvent :=
  state ← step_state now id;
  mlift (ensure (bool_decide (state = SigningOpen)) (BadState state "publish_batch"));;
  s ← mget;
  entry ← mlift (petition s id);
  '(local_vh, new_lc_u, scratch) ← mlift (publish_checked s entry submission);
  let public := bs_public_inputs submission in
  let new_rr := fr_to_be_bytes (bp_new_running_root public) in
  let new_idt := fr_to_be_bytes (bp_new_identity_tag_set_root public) in
  let trees := mk_entry (pe_record entry) (pe_batches entry) (sc_running_imt scratch)
                 (sc_identity_tag_imt scratch) in
  mput (set_entry s id trees);;
  batch_index ← mlift (ensure (Z.of_nat (length (pe_batches entry)) <? 2 ^ 32)
      (bad_batch "batch index overflow");; Ok (Z.of_nat (length (pe_batches entry))));
  let batch := mk_batch id batch_index local_vh new_rr new_idt
    (fr_to_be_bytes (bp_prior_running_root public))
    (fr_to_be_bytes (bp_prior_identity_tag_set_root public))
    (pr_leaf_count (pe_record entry)) new_lc_u relayer now Active in
  mput (set_entry s id (mk_entry (set_roots (pe_record entry) new_rr new_idt new_lc_u)
          (pe_batches entry ++ [batch]) (sc_running_imt scratch)
          (sc_identity_tag_imt scratch)));;
  mret (mk_published_event id batch_index local_vh new_rr new_idt new_lc_u).

(** ** [dispute] *)
Definition bad_opening (m : string) : RegistryError := BadDisputeOpening (BlobMalformed m).

(** The violation predicate over the evidence the openings carry. *)
Definition violation_holds (class_set : list ClassTag) (dispute : Dispute)
  : outcome RegistryError unit :=
  evidence_i ← ok_or (derive_evidence dispute (di_position_i dispute))
    (bad_opening "could not derive evidence_i from openings");
  match di_violation_type dispute with
  | ClassTagOutOfSet =>
      ensure (negb (memZ (re_class_tag evidence_i) class_set)) DisputePredicateNotMet
  | IntraBatchDuplicateIdentityTag =>
      pos_j ← ok_or (di_position_j dispute) (bad_opening "missing position_j");
      ensure (negb (pos_j =? di_position_i dispute)) DisputePredicateNotMet;;
      ev_j ← ok_or (derive_evidence dispute pos_j)
        (bad_opening "could not derive evidence_j from openings");
      ensure (bytes_eqb (re_identity_tag evidence_i) (re_identity_tag ev_j))
        DisputePredicateNotMet
  | LeafOrderingViolation =>
      pos_j ← ok_or (di_position_j dispute) (bad_opening "missing position_j");
      expected_j ← ok_or (checked_add 32 (di_position_i dispute) 1)
        (bad_opening "position_i overflow");
      ensure (pos_j =? expected_j) DisputePredicateNotMet;;
      ev_j ← ok_or (derive_evidence dispute pos_j)
        (bad_opening "could not derive evidence_j from openings");
      ensure (leaf_ordering_violated (record_leaf evidence_i) (record_leaf ev_j))
        DisputePredicateNotMet
  end.

(** Rebuilding both trees from the records of the surviving batches. *)
Definition rebuild_record (st : IndexedMerkleTree * IndexedMerkleTree) (record : RecordEntry)
  : outcome RegistryError (IndexedMerkleTree * IndexedMerkleTree) :=
  let '(running, idt) := st in
  '(_, running) ← map_err RegistryImt
    (imt_insert running (fr_to_be_bytes (record_leaf record)));
  '(_, idt) ← map_err RegistryImt (imt_insert idt (re_identity_tag record));
  Ok (running, idt).

Definition fetch_all (s : Reg) (vhs : list Bytes32) : outcome RegistryError (list RecordEntry) :=
  for_each (λ acc vh,
      records ← map_err RegistryBlob (blob_fetch_records (reg_blob_carrier s) vh);
      Ok (acc ++ records)) [] vhs.

(** The checks of [dispute] and the scratch trees of the rollback. *)
Definition dispute_checked (now : Z) (s : Reg) (entry : PetitionEntry) (state : PetitionState)
  (dispute : Dispute) : outcome RegistryError (IndexedMerkleTree * IndexedMerkleTree) :=
  dispute_close ← ok_or (checked_add 64 (pr_close_at_block (pe_record entry))
      RESOLUTION_DEADLINE_BLOCKS) (BadState state "dispute");
  ensure (negb (dispute_close <=? now)) DisputeWindowClosed;;
  let batch_idx := Z.to_nat (di_batch_index dispute) in
  ensure (negb (length (pe_batches entry) <=? batch_idx)%nat)
    (DisputeUnknownBatch (di_batch_index dispute));;
  batch ← index (pe_batches entry) batch_idx;
  ensure (negb (bool_decide (br_state batch = Repudiated)))
    (DisputeBatchAlreadyRepudiated (di_batch_index dispute));;
  for_each (λ _ opening, map_err BadDisputeOpening
      (blob_verify (reg_blob_carrier s) (br_batch_versioned_hash batch) opening))
    tt (di_openings dispute);;
  violation_holds (pr_class_set (pe_record entry)) dispute;;
  scratch_records ← fetch_all s (map br_batch_versioned_hash
    (List.filter is_active (take batch_idx (pe_batches entry))));
  for_each rebuild_record (imt_new, imt_new) scratch_records.

Definition dispute (now : Z) (dispute : Dispute) : RM BatchRepudiatedEvent :=
  let id := di_petition_id dispute in
  state ← step_state now id;
  mlift (ensure (bool_decide (state = DisputeWindow)) (BadState state "dispute"));;
  s ← mget;
  entry ← mlift (petition s id);
  '(running, idt) ← mlift (dispute_checked now s entry state dispute);
  let batch_idx := Z.to_nat (di_batch_index dispute) in
  let '(rb_rr, rb_idt, rb_lc) :=
    roll_back_to_predecessor (pe_batches entry) batch_idx (reg_empty_imt_root s) in
  let batches := take batch_idx (pe_batches entry) ++
                 map repudiate (drop batch_idx (pe_batches entry)) in
  mput (set_entry s id
          (mk_entry (set_roots (pe_record entry) rb_rr rb_idt rb_lc) batches running idt));;
  mret (mk_repudiated_event id (di_batch_index dispute) rb_rr rb_idt rb_lc).

(** ** [resolve] *)
Definition resolve_checked (now : Z) (s : Reg) (entry : PetitionEntry) (state : PetitionState)
  (submission : ResolutionSubmission) : outcome RegistryError unit :=
  let rec := pe_record entry in
  let public := rs_public_inputs submission in
  deadline ← ok_or (checked_add 64 (pr_close_at_block rec) RESOLUTION_DEADLINE_BLOCKS)
    (BadState state "resolve");
  ensure (negb (now <? deadline)) (BadState state "resolve");;
  map_err BadResolutionProof
    (verify_resolution_proof (reg_proof_backend s) (rs_proof_bytes submission) public);;
  leaf_count_pi ← fr_to_u64 (rp_leaf_count public);
  ensure (bytes_eqb (fr_to_be_bytes (rp_predicate_hash public)) (pr_predicate_hash rec)
          && bytes_eqb (fr_to_be_bytes (rp_r_root public)) (pr_r_root rec)
          && bytes_eqb (fr_to_be_bytes (rp_running_root public)) (pr_running_root rec)
          && (leaf_count_pi =? pr_leaf_count rec)) ResolutionStateMismatch;;
  ensure ((length (rp_class_set public) =? length (pr_class_set rec))%nat
          && (length (rp_class_thresholds public) =? length (pr_class_thresholds rec))%nat
          && (length (rp_b_per_class public) =? length (pr_class_set rec))%nat)
    ResolutionStateMismatch;;
  for_eachi (λ i _ c,
      pc ← index (rp_class_set public) i;
      ensure (fr_eqb pc (fr_of_Z c)) ResolutionStateMismatch;;
      pt ← index (rp_class_thresholds public) i;
      t ← index (pr_class_thresholds rec) i;
      ensure (fr_eqb pt (fr_of_Z t)) ResolutionStateMismatch)
    tt (pr_class_set rec).

Definition fr_nonzero (x : Fr) : bool := negb (fr_eqb x fr_zero).

(** The outcome is written before the bounty conversion. *)
Definition resolve (now : Z) (id : list byte) (resolver : Address)
  (submission : ResolutionSubmission) : RM (PetitionResolvedEvent * BountyEvent) :=
  state ← step_state now id;
  mlift (ensure (bool_decide (state = DisputeWindow)) (BadState state "resolve"));;
  s ← mget;
  entry ← mlift (petition s id);
  mlift (resolve_checked now s entry state submission);;
  let public := rs_public_inputs submission in
  let b := fr_nonzero (rp_b public) in
  let b_per_class := map fr_nonzero (rp_b_per_class public) in
  mput (set_entry s id (with_record entry
          (set_outcome (pe_record entry) b b_per_class (rs_proof_bytes submission))));;
  bounty_amount ← mlift (u256_to_u128 (pr_bounty (pe_record entry)));
  mret (mk_resolved_event id b b_per_class, mk_bounty_event id resolver bounty_amount).

(** ** [mark_unresolved] *)
Definition unresolved_checked (now : Z) (entry : PetitionEntry) (state : PetitionState)
  : outcome RegistryError Z :=
  deadline ← ok_or (d ← checked_add 64 (pr_close_at_block (pe_record entry))
                          RESOLUTION_DEADLINE_BLOCKS;
                    checked_add 64 d MARK_UNRESOLVED_GRACE_BLOCKS)
    (BadState state "mark_unresolved");
  ensure (negb (now <? deadline)) (BadState state "mark_unresolved");;
  ensure (bool_decide (state = DisputeWindow)) (BadState state "mark_unresolved");;
  u256_to_u128 (pr_bounty (pe_record entry)).

Definition mark_unresolved (now : Z) (id : list byte) (caller : Address) (gas_rebate : Z)
  : RM (PetitionUnresolvedEvent * BountyEvent * BountyEvent) :=
  state ← step_state now id;
  s ← mget;
  entry ← mlift (petition s id);
  bounty_total ← mlift (unresolved_checked now entry state);
  let rebate_cap := bounty_total / 100 in
  let rebate := gas_rebate `min` rebate_cap in
  refund ← mlift (expect (checked_sub bounty_total rebate));
  let rec := pe_record entry in
  mput (set_entry s id (with_record entry (set_state
          (set_roots rec TOMBSTONE_MARKER (pr_identity_tag_set_root rec) (pr_leaf_count rec))
          Unresolved)));;
  mret (mk_unresolved_event id, mk_bounty_event id (pr_organizer rec) refund,
        mk_bounty_event id caller rebate).

(** ** [update_alpha] *)
Definition with_alpha (g : GlobalState) (alpha : Z) : GlobalState :=
  mk_global (gs_s g) alpha (gs_alpha_min g) (gs_alpha_max g) (gs_srs_hash g)
    (gs_chain_id g) (gs_n g).

Definition update_alpha (new_alpha : Z) : RM AlphaUpdatedEvent :=
  s ← mget;
  let g := reg_global s in
  mlift (ensure ((gs_alpha_min g <=? new_alpha) && (new_alpha <=? gs_alpha_max g))
    (AlphaOutOfBounds new_alpha (gs_alpha_min g) (gs_alpha_max g)));;
  mput (set_global s (with_alpha g new_alpha));;
  mret (mk_alpha_event (gs_alpha g) new_alpha).
End registry.
