(* ===== verification/RegistryInv.v ===== *)
(** * Invariants of the registry

    What every reachable registry satisfies.  The registry stores a batch by
    its versioned hash only, so the invariant relates an entry to the records
    of its batches, a ghost list kept beside it: the two trees are those built
    from the records of the active batches, the stored roots and counts agree
    with them, and every active batch's roots are those of the trees after
    it, which is what a rollback restores. *)

From Stdlib Require Import ZArith Lia Bool.
From stdpp Require Import base tactics list gmap strings numbers.
From S2P Require Import Prelude Field Types Predicate Poseidon Imt Records Blob Ports Organizer Disputant Registry.

(** ** The lifecycle *)
Definition rank (s : PetitionState) : nat :=
  match s with
  | Registered => 0
  | SigningOpen => 1
  | SigningClosed => 2
  | Cooldown => 3
  | DisputeWindow => 4
  | Resolved => 5
  | Unresolved => 5
  end.

(** The states in which signatures are still accepted. *)
Definition is_open (s : PetitionState) : bool :=
  match s with Registered | SigningOpen => true | _ => false end.

Lemma set_state_id r : set_state r (pr_state r) = r.
Proof. by destruct r. Qed.
Lemma set_state_set r s1 s2 : set_state (set_state r s1) s2 = set_state r s2.
Proof. done. Qed.

Lemma next_state_rank block r s :
  next_state block r = Ok (Some s) → rank s = S (rank (pr_state r)) ∧ (rank s ≤ 4)%nat.
Proof.
  unfold next_state. destruct (pr_state r); intros H; inv_ok H; try (by injection H as <-);
    repeat case_match; naive_solver.
Qed.

(** The state a petition of state [st] and closing block [close] is in once
    the lifecycle has caught up with [block]. *)
Definition lifecycle (block close : Z) (st : PetitionState) : PetitionState :=
  match st with
  | Resolved => Resolved
  | Unresolved => Unresolved
  | DisputeWindow => DisputeWindow
  | Registered | SigningOpen =>
      if block <? close then SigningOpen
      else if block <? close + COOLDOWN_BLOCKS then Cooldown else DisputeWindow
  | SigningClosed | Cooldown =>
      if block <? close + COOLDOWN_BLOCKS then Cooldown else DisputeWindow
  end.

Lemma advance_none f block r :
  next_state block r = Ok None → advance_state (S f) block r = Ok r.
Proof. cbn [advance_state]. by intros ->. Qed.

Lemma advance_some f block r s :
  next_state block r = Ok (Some s) →
  advance_state (S f) block r = advance_state f block (set_state r s).
Proof. cbn [advance_state]. by intros ->. Qed.

Lemma next_state_final block r :
  pr_state r = DisputeWindow ∨ pr_state r = Resolved ∨ pr_state r = Unresolved →
  next_state block r = Ok None.
Proof. unfold next_state. by intros [->|[->| ->]]. Qed.

Lemma advance_cooldown f block r :
  pr_close_at_block r + COOLDOWN_BLOCKS < 2 ^ 64 → pr_state r = Cooldown →
  advance_state (S (S f)) block r
  = Ok (set_state r (if block <? pr_close_at_block r + COOLDOWN_BLOCKS
                     then Cooldown else DisputeWindow)).
Proof.
  intros Hov Hs.
  assert (next_state block r = Ok (if pr_close_at_block r + COOLDOWN_BLOCKS <=? block
                                   then Some DisputeWindow else None)) as Hn.
  { unfold next_state. rewrite Hs. rewrite (expect_bind _ (pr_close_at_block r + COOLDOWN_BLOCKS));
      [done|by apply checked_add_Some]. }
  destruct (Z.leb_spec (pr_close_at_block r + COOLDOWN_BLOCKS) block),
    (Z.ltb_spec block (pr_close_at_block r + COOLDOWN_BLOCKS)); try lia.
  - rewrite (advance_some _ _ _ _ Hn). rewrite advance_none; [done|].
    apply next_state_final. by left.
  - rewrite (advance_none _ _ _ Hn), <-Hs, set_state_id. done.
Qed.

Lemma advance_open f block r :
  pr_close_at_block r + COOLDOWN_BLOCKS < 2 ^ 64 → pr_state r = SigningOpen →
  advance_state (S (S (S (S f)))) block r
  = Ok (set_state r (lifecycle block (pr_close_at_block r) SigningOpen)).
Proof.
  intros Hov Hs. unfold lifecycle.
  assert (next_state block r = Ok (if pr_close_at_block r <=? block
                                   then Some SigningClosed else None)) as Hn
    by (unfold next_state; by rewrite Hs).
  destruct (Z.leb_spec (pr_close_at_block r) block), (Z.ltb_spec block (pr_close_at_block r));
    try lia.
  - rewrite (advance_some _ _ _ _ Hn), (advance_some _ _ _ Cooldown) by done.
    by rewrite advance_cooldown.
  - rewrite (advance_none _ _ _ Hn), <-Hs, set_state_id. done.
Qed.

(** The loop of [step_state] computes [lifecycle], unless the block sum
    overflows. *)
Lemma step_record_lifecycle block r :
  pr_close_at_block r + COOLDOWN_BLOCKS < 2 ^ 64 →
  step_record block r = Ok (set_state r (lifecycle block (pr_close_at_block r) (pr_state r))).
Proof.
  intros Hov. unfold step_record. destruct (pr_state r) eqn:Hs.
  - rewrite (advance_some _ _ _ SigningOpen) by by (unfold next_state; rewrite Hs).
    by rewrite advance_open.
  - by rewrite advance_open.
  - rewrite (advance_some _ _ _ Cooldown) by by (unfold next_state; rewrite Hs).
    by rewrite advance_cooldown.
  - by rewrite advance_cooldown.
  - rewrite advance_none by (apply next_state_final; auto). cbn [lifecycle].
    by rewrite <-Hs, set_state_id.
  - rewrite advance_none by (apply next_state_final; auto). cbn [lifecycle].
    by rewrite <-Hs, set_state_id.
  - rewrite advance_none by (apply next_state_final; auto). cbn [lifecycle].
    by rewrite <-Hs, set_state_id.
Qed.

Lemma is_open_rank s : is_open s = true ↔ (rank s ≤ 1)%nat.
Proof. destruct s; cbn; split; (lia || done). Qed.

(** What a pass of the lifecycle loop can change: the state, forward, and
    never into or out of the two final states. *)
Definition state_step (st st' : PetitionState) : Prop :=
  (rank st ≤ rank st')%nat ∧ (st' = Unresolved → st = Unresolved) ∧
  (st = Unresolved → st' = Unresolved) ∧ (st' = Resolved → st = Resolved) ∧
  (st = Resolved → st' = Resolved).

Lemma state_step_refl st : state_step st st.
Proof. by repeat split. Qed.

Lemma advance_state_shape f block r r' :
  advance_state f block r = Ok r' →
  r' = set_state r (pr_state r') ∧ state_step (pr_state r) (pr_state r').
Proof.
  revert r; induction f as [|f IH]; intros r H; cbn [advance_state] in H.
  { inv_ok H. rewrite set_state_id. split; [done|apply state_step_refl]. }
  apply bind_Ok in H as (n & Hn & H). destruct n as [s|].
  - destruct (next_state_rank _ _ _ Hn) as [Hr Hr4]. apply IH in H as [Heq Hstep].
    split; [by rewrite Heq|]. cbn [pr_state set_state] in Hstep.
    assert (pr_state r ≠ Unresolved ∧ pr_state r ≠ Resolved) as [Hu Hv].
    { split; intros E; rewrite E in Hr; cbn in Hr; lia. }
    destruct Hstep as (H1 & H2 & H3 & H4 & H5). repeat split; try done; try lia;
      intros E; [specialize (H2 E)|specialize (H4 E)]; subst s; cbn in Hr4; lia.
  - inv_ok H. rewrite set_state_id. split; [done|apply state_step_refl].
Qed.

Lemma step_record_shape block r r' :
  step_record block r = Ok r' →
  r' = set_state r (pr_state r') ∧ state_step (pr_state r) (pr_state r').
Proof. apply advance_state_shape. Qed.

(** Seven rounds are enough: the loop stops because no transition is due. *)
Lemma advance_state_stops f block r r' :
  (5 ≤ rank (pr_state r) + f)%nat → advance_state f block r = Ok r' →
  next_state block r' = Ok None.
Proof.
  revert r; induction f as [|f IH]; intros r Hf H; cbn [advance_state] in H.
  { apply (inj Ok) in H as <-. apply next_state_final.
    destruct (pr_state r); cbn in Hf; auto; lia. }
  apply bind_Ok in H as (n & Hn & H). destruct n as [s|].
  - apply IH in H; [done|]. destruct (next_state_rank _ _ _ Hn). cbn. lia.
  - by apply (inj Ok) in H as <-.
Qed.

Lemma step_record_stops block r r' :
  step_record block r = Ok r' → next_state block r' = Ok None.
Proof. apply advance_state_stops. lia. Qed.

(** Signatures are taken before the closing block only. *)
Lemma step_record_open block r r' :
  step_record block r = Ok r' → pr_state r' = SigningOpen → block < pr_close_at_block r'.
Proof.
  intros H%step_record_stops Hs. unfold next_state in H. rewrite Hs in H.
  apply (inj Ok) in H. case_match; [done|]. reflect_bools. done.
Qed.

(** The states past closing are entered at the blocks the petition names. *)
Definition timely (block : Z) (r : PetitionRecord) : Prop :=
  ((2 ≤ rank (pr_state r))%nat → pr_close_at_block r ≤ block) ∧
  ((4 ≤ rank (pr_state r))%nat → pr_close_at_block r + COOLDOWN_BLOCKS ≤ block).

Lemma advance_state_timely f block r r' :
  timely block r → advance_state f block r = Ok r' → timely block r'.
Proof.
  revert r; induction f as [|f IH]; intros r Ht H; cbn [advance_state] in H.
  { by apply (inj Ok) in H as <-. }
  apply bind_Ok in H as (n & Hn & H). destruct n as [s|]; [|by apply (inj Ok) in H as <-].
  apply IH in H; [done|]. destruct Ht as [H2 H4]. unfold next_state in Hn.
  unfold timely. cbn [pr_state set_state pr_close_at_block].
  destruct (pr_state r); cbn [rank] in *; inv_ok Hn; try (injection Hn as <-);
    repeat case_match; simplify_eq; cbn [rank]; reflect_bools; try (split; lia); try done.
  apply checked_add_Some in Ha as [-> _]. split; lia.
Qed.

Lemma step_record_timely block r r' :
  timely block r → step_record block r = Ok r' → timely block r'.
Proof. apply advance_state_timely. Qed.

(** ** Trees built from records *)
Section trees.
Context `{C : Crypto}.

Definition leaves_of (rs : list RecordEntry) : list Fr := map record_leaf rs.
Definition tags_of (rs : list RecordEntry) : list Fr :=
  map (λ r, fr_from_be_bytes (re_identity_tag r)) rs.

(** Both trees, built from nothing. *)
Definition trees_of (rs : list RecordEntry)
  : outcome RegistryError (IndexedMerkleTree * IndexedMerkleTree) :=
  for_each rebuild_record (imt_new, imt_new) rs.

Lemma imt_insert_wf t b w t' :
  wf t → imt_insert t b = Ok (w, t') →
  wf t' ∧ values (imt_leaves t') = values (imt_leaves t) ++ [fr_from_be_bytes b] ∧
  (fr_from_be_bytes b ∉ values (imt_leaves t)) ∧ iw_new_root w = imt_root t' ∧
  Z.of_nat (imt_size t) < 2 ^ 24.
Proof.
  intros Hwf Hi.
  assert (Z.of_nat (imt_size t) < 2 ^ 24) as Hcap.
  { apply Z.nle_gt. intros Hf. by rewrite imt_insert_full in Hi. }
  assert (fr_from_be_bytes b ∉ values (imt_leaves t)) as Hn.
  { intros Hin. by rewrite imt_insert_duplicate in Hi. }
  destruct (imt_insert_inv t b Hwf Hcap Hn) as (i & low & w1 & t1 & Hi' & Hwf' & Hl & _ & Hls & Hw).
  rewrite Hi in Hi'. apply (inj Ok) in Hi'. injection Hi' as <- <-.
  split_and!; [done| |done| |done].
  - by rewrite Hls, values_leaves_after.
  - by rewrite Hw.
Qed.

Lemma rebuild_record_Ok tr ti r tr' ti' :
  rebuild_record (tr, ti) r = Ok (tr', ti') ↔
  ∃ w1 w2, imt_insert tr (fr_to_be_bytes (record_leaf r)) = Ok (w1, tr') ∧
    imt_insert ti (re_identity_tag r) = Ok (w2, ti').
Proof.
  unfold rebuild_record. split.
  - intros H. apply bind_Ok in H as ([w1 t1] & H1 & H). apply bind_Ok in H as ([w2 t2] & H2 & H).
    apply (inj Ok) in H. injection H as <- <-. apply map_err_Ok in H1, H2. eauto.
  - intros (w1 & w2 & -> & ->). done.
Qed.

Lemma rebuild_wf tr ti rs tr' ti' :
  wf tr → wf ti → for_each rebuild_record (tr, ti) rs = Ok (tr', ti') →
  wf tr' ∧ wf ti' ∧
  values (imt_leaves tr') = values (imt_leaves tr) ++ leaves_of rs ∧
  values (imt_leaves ti') = values (imt_leaves ti) ++ tags_of rs.
Proof.
  revert tr ti; induction rs as [|r rs IH]; intros tr ti Hw1 Hw2 H; cbn [for_each] in H.
  { apply (inj Ok) in H. injection H as <- <-. cbn. by rewrite !app_nil_r. }
  apply bind_Ok in H as ([t1 t2] & H1 & H).
  apply rebuild_record_Ok in H1 as (w1 & w2 & Hi1 & Hi2).
  apply imt_insert_wf in Hi1 as (Hw1' & Hv1 & _); [|done].
  apply imt_insert_wf in Hi2 as (Hw2' & Hv2 & _); [|done].
  apply IH in H as (H1 & H2 & H3 & H4); [|done..].
  rewrite fr_from_to_be_bytes in Hv1. split_and!; [done|done|..].
  - rewrite H3, Hv1, <-app_assoc. done.
  - rewrite H4, Hv2, <-app_assoc. done.
Qed.

Lemma trees_of_wf rs tr ti :
  trees_of rs = Ok (tr, ti) →
  wf tr ∧ wf ti ∧ values (imt_leaves tr) = fr_zero :: leaves_of rs ∧
  values (imt_leaves ti) = fr_zero :: tags_of rs.
Proof.
  intros H. apply (rebuild_wf imt_new imt_new) in H as (H1 & H2 & H3 & H4);
    [|apply imt_new_wf..]. split_and!; done.
Qed.

Lemma trees_of_app rs1 rs2 :
  trees_of (rs1 ++ rs2) = trees_of rs1 ≫= λ st, for_each rebuild_record st rs2.
Proof. apply for_each_app. Qed.

(** ** The publication loop is the rebuild loop with more checks *)
Lemma replay_rebuild cs st rs st' :
  wf (sc_running_imt st) → wf (sc_identity_tag_imt st) →
  for_each (replay_record cs) st rs = Ok st' →
  for_each rebuild_record (sc_running_imt st, sc_identity_tag_imt st) rs
    = Ok (sc_running_imt st', sc_identity_tag_imt st') ∧
  Forall (λ r, re_class_tag r ∈ cs) rs ∧
  (rs ≠ [] → sc_last_running_root st' = imt_root (sc_running_imt st') ∧
             sc_last_identity_tag_root st' = imt_root (sc_identity_tag_imt st')).
Proof.
  revert st; induction rs as [|r rs IH]; intros st Hw1 Hw2 H; cbn [for_each] in H.
  { apply (inj Ok) in H as <-. done. }
  apply bind_Ok in H as (st1 & H1 & H). unfold replay_record in H1.
  apply bind_Ok in H1 as (u & Hc & H1). apply ensure_Ok, memZ_true in Hc. clear u.
  apply bind_Ok in H1 as (u & _ & H1). clear u.
  apply bind_Ok in H1 as ([w1 t1] & Hi1 & H1). apply map_err_Ok in Hi1.
  apply bind_Ok in H1 as ([w2 t2] & Hi2 & H1). apply map_err_Ok in Hi2.
  apply (inj Ok) in H1 as <-.
  pose proof (imt_insert_wf _ _ _ _ Hw1 Hi1) as (Hw1' & _ & _ & Hr1 & _).
  pose proof (imt_insert_wf _ _ _ _ Hw2 Hi2) as (Hw2' & _ & _ & Hr2 & _).
  apply IH in H as Hih; [|done..]. destruct Hih as (Hf & Hcs & Hroots).
  cbn [for_each]. split_and!.
  - rewrite (proj2 (rebuild_record_Ok (sc_running_imt st) (sc_identity_tag_imt st) r t1 t2)
      (ex_intro _ w1 (ex_intro _ w2 (conj Hi1 Hi2)))). exact Hf.
  - by constructor.
  - intros _. destruct rs as [|r' rs]; [|by apply Hroots].
    cbn [for_each] in H. apply (inj Ok) in H as <-. cbn. done.
Qed.

(** The leaves of an accepted batch increase, as bytes. *)
Fixpoint leaves_increase (prev : option (list byte)) (rs : list RecordEntry) : bool :=
  match rs with
  | [] => true
  | r :: rs' =>
      let leaf := fr_to_be_bytes (record_leaf r) in
      match prev with Some p => bytes_ltb p leaf | None => true end
      && leaves_increase (Some leaf) rs'
  end.

Lemma replay_increase cs st rs st' :
  for_each (replay_record cs) st rs = Ok st' →
  leaves_increase (sc_prev_leaf st) rs = true.
Proof.
  revert st; induction rs as [|r rs IH]; intros st H; cbn [for_each] in H; [done|].
  apply bind_Ok in H as (st1 & H1 & H). apply IH in H. unfold replay_record in H1.
  apply bind_Ok in H1 as (u & _ & H1). clear u.
  apply bind_Ok in H1 as (u & Ho & H1). apply ensure_Ok in Ho. clear u.
  apply bind_Ok in H1 as ([w1 t1] & _ & H1). apply bind_Ok in H1 as ([w2 t2] & _ & H1).
  apply (inj Ok) in H1 as <-. cbn [leaves_increase]. by rewrite Ho.
Qed.

Lemma leaves_increase_step prev rs i r r' :
  leaves_increase prev rs = true → rs !! i = Some r → rs !! S i = Some r' →
  leaf_ordering_violated (record_leaf r) (record_leaf r') = false.
Proof.
  revert prev i; induction rs as [|x rs IH]; intros prev i H Hi Hi'; [done|].
  cbn [leaves_increase] in H. apply andb_true_iff in H as [_ H].
  destruct i as [|i]; [|by eapply IH]. cbn in Hi, Hi'. injection Hi as ->.
  destruct rs as [|y rs]; [done|]. cbn in Hi'. injection Hi' as ->.
  cbn [leaves_increase] in H. apply andb_true_iff in H as [H _].
  unfold leaf_ordering_violated. by rewrite H.
Qed.
End trees.

(** ** The invariant of a petition *)
Section entry.
Context `{C : Crypto}.

Definition active_records (batches : list BatchRecord) (recs : list (list RecordEntry))
  : list RecordEntry :=
  concat (map snd (List.filter (λ p, is_active p.1) (zip batches recs))).

Record entry_inv (id : list byte) (e : PetitionEntry) (recs : list (list RecordEntry))
  : Prop := {
  ei_id : pr_petition_id (pe_record e) = id;
  ei_len : length recs = length (pe_batches e);
  (** The trees are those of the active batches. *)
  ei_trees : trees_of (active_records (pe_batches e) recs)
    = Ok (pe_running_imt e, pe_identity_tag_imt e);
  (** The stored roots and count are the trees' own. *)
  ei_roots : pr_state (pe_record e) ≠ Unresolved →
    pr_running_root (pe_record e) = imt_root (pe_running_imt e);
  ei_tag_root : pr_identity_tag_set_root (pe_record e) = imt_root (pe_identity_tag_imt e);
  ei_count : pr_leaf_count (pe_record e)
    = Z.of_nat (length (active_records (pe_batches e) recs));
  (** An active batch's outputs are those of the trees right after it. *)
  ei_prefix : ∀ i b, pe_batches e !! i = Some b → is_active b = true →
    ∃ tr ti, trees_of (active_records (take (S i) (pe_batches e)) (take (S i) recs))
      = Ok (tr, ti) ∧ br_new_running_root b = imt_root tr ∧
      br_new_identity_tag_set_root b = imt_root ti ∧
      br_new_leaf_count b
      = Z.of_nat (length (active_records (take (S i) (pe_batches e)) (take (S i) recs)));
  (** Its inputs are those of the trees right before it. *)
  ei_prior : ∀ i b, pe_batches e !! i = Some b → is_active b = true →
    ∃ tr ti, trees_of (active_records (take i (pe_batches e)) (take i recs)) = Ok (tr, ti) ∧
      br_prior_running_root b = imt_root tr ∧
      br_prior_identity_tag_set_root b = imt_root ti ∧
      br_prior_leaf_count b
      = Z.of_nat (length (active_records (take i (pe_batches e)) (take i recs)));
  (** Every batch holds one to six records of the petition's classes, in the
      order of their leaves. *)
  ei_records : Forall (λ rs, (1 ≤ length rs ≤ BATCH_SIZE_MAX)%nat ∧
    Forall (λ r, re_class_tag r ∈ pr_class_set (pe_record e)) rs ∧
    leaves_increase None rs = true) recs;
  (** Batches are stored under the hash of their records. *)
  ei_hash : ∀ i b rs, pe_batches e !! i = Some b → recs !! i = Some rs →
    br_batch_versioned_hash b
    = compute_batch_versioned_hash (blob_fes RECORDS_PER_BLOB rs);
  (** Nothing is repudiated while the petition is open. *)
  ei_open : is_open (pr_state (pe_record e)) = true →
    Forall (λ b, is_active b = true) (pe_batches e);
}.

Lemma active_records_app b1 b2 r1 r2 :
  length r1 = length b1 →
  active_records (b1 ++ b2) (r1 ++ r2) = active_records b1 r1 ++ active_records b2 r2.
Proof.
  intros Hl. unfold active_records. rewrite zip_with_app by done.
  by rewrite List.filter_app, map_app, concat_app.
Qed.

Lemma active_records_single b r :
  is_active b = true → active_records [b] [r] = r.
Proof. intros Hb. unfold active_records. cbn. rewrite Hb. cbn. apply app_nil_r. Qed.

Lemma active_records_none bs rs :
  Forall (λ b, is_active b = false) bs → active_records bs rs = [].
Proof.
  unfold active_records. intros Hf. revert rs; induction Hf as [|b bs Hb _ IH]; intros [|r rs];
    cbn; try done. rewrite Hb. apply IH.
Qed.

Lemma active_records_all bs rs :
  length rs = length bs → Forall (λ b, is_active b = true) bs → active_records bs rs = concat rs.
Proof.
  unfold active_records. intros Hl Hf. revert rs Hl.
  induction Hf as [|b bs Hb _ IH]; intros [|r rs] Hl; cbn in *; try done.
  rewrite Hb. cbn. f_equal. apply IH. lia.
Qed.

(** The state field alone matters to three clauses. *)
Lemma entry_inv_state id e recs st :
  entry_inv id e recs →
  (st ≠ Unresolved → pr_state (pe_record e) ≠ Unresolved) →
  (is_open st = true → is_open (pr_state (pe_record e)) = true) →
  entry_inv id (with_record e (set_state (pe_record e) st)) recs.
Proof. intros [] Hu Ho. constructor; try done; cbn; auto. Qed.

Lemma entry_inv_step block id e recs r' :
  entry_inv id e recs → step_record block (pe_record e) = Ok r' →
  entry_inv id (with_record e r') recs.
Proof.
  intros He H. apply step_record_shape in H as [Heq Hs]. rewrite Heq. clear Heq.
  destruct Hs as (Hr & Hu & Hu' & _ & _). apply entry_inv_state; [done|naive_solver|].
  rewrite !is_open_rank. intros. lia.
Qed.

(** Counting: a batch holds at least a record, a tree at most 2^24 leaves. *)
Lemma concat_length_ge {A} (l : list (list A)) :
  Forall (λ x, (1 ≤ length x)%nat) l → (length l ≤ length (concat l))%nat.
Proof. induction 1 as [|x l Hx _ IH]; cbn; [lia|]. rewrite length_app. lia. Qed.

Lemma trees_size rs tr ti :
  trees_of rs = Ok (tr, ti) →
  imt_size tr = S (length rs) ∧ Z.of_nat (length rs) < 2 ^ 24.
Proof.
  intros H. apply trees_of_wf in H as (Hw & _ & Hv & _).
  assert (imt_size tr = S (length rs)) as Hs.
  { unfold imt_size. transitivity (length (values (imt_leaves tr))).
    - symmetry. apply length_fmap.
    - rewrite Hv. cbn [length]. unfold leaves_of. by rewrite length_map. }
  split; [done|]. pose proof (wf_capacity _ Hw) as Hc. unfold imt_size in Hs. lia.
Qed.

Lemma open_batches_bound id e recs :
  entry_inv id e recs → is_open (pr_state (pe_record e)) = true →
  Z.of_nat (length (pe_batches e)) < 2 ^ 24.
Proof.
  intros He Ho. destruct (trees_size _ _ _ (ei_trees _ _ _ He)) as [_ Hs].
  rewrite active_records_all in Hs; [|apply He|by apply He].
  pose proof (concat_length_ge recs) as Hc. rewrite (ei_len _ _ _ He) in Hc.
  assert (Forall (λ x, (1 ≤ length x)%nat) recs).
  { eapply list.Forall_impl; [apply (ei_records _ _ _ He)|]. intros x [Hx _]. lia. }
  specialize (Hc ltac:(done)). lia.
Qed.
End entry.

(** ** The invariant of the registry *)
Abbreviation Ghost := (gmap (list byte) (list (list RecordEntry))).

Section registry_inv.
Context `{C : Crypto} {P R B : Type}.
Context {PB : ProofBackend P} {RI : RiCredentialLayer R} {BC : BlobCarrier B}.

Abbreviation Reg := (PetitionRegistry P R B).

Record rinv (G : Ghost) (s : Reg) : Prop := {
  ri_empty : reg_empty_imt_root s = imt_root imt_new;
  ri_entries : ∀ id e, reg_petitions s !! id = Some e →
    ∃ recs, G !! id = Some recs ∧ entry_inv id e recs;
  (** Slots are handed out once each. *)
  ri_slot_range : 0 ≤ gs_s (reg_global s) ∧ ∀ id e, reg_petitions s !! id = Some e →
    0 ≤ pr_slot (pe_record e) < gs_s (reg_global s);
  ri_slots : ∀ id1 id2 e1 e2, reg_petitions s !! id1 = Some e1 →
    reg_petitions s !! id2 = Some e2 →
    pr_slot (pe_record e1) = pr_slot (pe_record e2) → id1 = id2;
  (** Bounties fit the type they are paid in. *)
  ri_bounty : ∀ id e, reg_petitions s !! id = Some e →
    all_zero (take 16 (pr_bounty (pe_record e))) = true;
}.

(** Replacing an entry by one of the same slot and bounty. *)
Lemma rinv_set_entry G (s : Reg) id e e' recs :
  rinv G s → reg_petitions s !! id = Some e → entry_inv id e' recs →
  pr_slot (pe_record e') = pr_slot (pe_record e) →
  pr_bounty (pe_record e') = pr_bounty (pe_record e) →
  rinv (<[id := recs]> G) (set_entry s id e').
Proof.
  intros [He Hent [Hg Hr] Hs Hb] Hid Hinv Hslot Hbounty.
  constructor; cbn [reg_empty_imt_root reg_petitions reg_global set_entry]; try done.
  - intros id' x. destruct (decide (id' = id)) as [->|Hne].
    + rewrite !lookup_insert_eq. intros [= <-]. eauto.
    + rewrite !lookup_insert_ne by done. apply Hent.
  - split; [done|]. intros id' x. destruct (decide (id' = id)) as [->|Hne].
    + rewrite lookup_insert_eq. intros [= <-]. rewrite Hslot. by eapply Hr.
    + rewrite lookup_insert_ne by done. apply Hr.
  - intros id1 id2 e1 e2. destruct (decide (id1 = id)) as [->|H1], (decide (id2 = id)) as [->|H2];
      rewrite ?lookup_insert_eq, ?lookup_insert_ne by done; [done| | |apply Hs].
    + intros [= <-] H2' Heq. rewrite Hslot in Heq. by eapply Hs.
    + intros H1' [= <-] Heq. rewrite Hslot in Heq. by eapply Hs.
  - intros id' x. destruct (decide (id' = id)) as [->|Hne].
    + rewrite lookup_insert_eq. intros [= <-]. rewrite Hbounty. by eapply Hb.
    + rewrite lookup_insert_ne by done. apply Hb.
Qed.

Lemma rinv_update_entry G (s : Reg) id e e' recs :
  rinv G s → reg_petitions s !! id = Some e → G !! id = Some recs → entry_inv id e' recs →
  pr_slot (pe_record e') = pr_slot (pe_record e) →
  pr_bounty (pe_record e') = pr_bounty (pe_record e) →
  rinv G (set_entry s id e').
Proof.
  intros Hi Hid HG. rewrite <-(insert_id G id recs HG) at 1. by apply rinv_set_entry.
Qed.

(** A lifecycle pass keeps the invariant. *)
Definition advanced (now : Z) (s : Reg) (id : list byte) (e : PetitionEntry)
  (r : PetitionRecord) : Prop :=
  reg_petitions s !! id = Some e ∧ step_record now (pe_record e) = Ok r.

Lemma rinv_advanced G now (s : Reg) id e r :
  rinv G s → advanced now s id e r → rinv G (set_entry s id (with_record e r)).
Proof.
  intros Hs [He Hr]. destruct (ri_entries _ _ Hs id e He) as (recs & HG & Hinv).
  pose proof (step_record_shape _ _ _ Hr) as [Heq _].
  eapply rinv_update_entry; [done..|by eapply entry_inv_step| |];
    cbn [pe_record with_record]; by rewrite Heq.
Qed.

Lemma set_entry_twice (s : Reg) id e1 e2 :
  set_entry (set_entry s id e1) id e2 = set_entry s id e2.
Proof. unfold set_entry. cbn. by rewrite insert_insert_eq. Qed.

Lemma step_state_bind {A} now id (k : PetitionState → M Reg RegistryError A) s res s' :
  (step_state now id ≫= k) s = (res, s') →
  (is_ok res = false ∧ s' = s) ∨
  ∃ e r, advanced now s id e r ∧
    k (pr_state r) (set_entry s id (with_record e r)) = (res, s').
Proof.
  unfold mbind at 1, M_bind at 1, step_state, petition.
  destruct (reg_petitions s !! id) as [e|] eqn:He; cbn [ok_or].
  - destruct (step_record now (pe_record e)) as [r| |] eqn:Hr; intros H.
    + right. by exists e, r.
    + left. by injection H as <- <-.
    + left. by injection H as <- <-.
  - intros H. left. by injection H as <- <-.
Qed.

Lemma step_state_run {A} now id (k : PetitionState → M Reg RegistryError A) s e r :
  advanced now s id e r →
  (step_state now id ≫= k) s = k (pr_state r) (set_entry s id (with_record e r)).
Proof.
  intros [He Hr]. unfold mbind at 1, M_bind at 1, step_state, petition.
  rewrite He. cbn [ok_or]. by rewrite Hr.
Qed.

Lemma petition_set (s : Reg) id e : petition (set_entry s id e) id = Ok e.
Proof. unfold petition. cbn [reg_petitions set_entry]. by rewrite lookup_insert_eq. Qed.

(** A call that fails leaves the registry as it was, but for the lifecycle. *)
Definition quiet (now : Z) (id : list byte) (s s' : Reg) : Prop :=
  s' = s ∨ ∃ e r, advanced now s id e r ∧ s' = set_entry s id (with_record e r).

Lemma petition_Ok (s : Reg) id e : petition s id = Ok e ↔ reg_petitions s !! id = Some e.
Proof. apply ok_or_Ok. Qed.

(** ** [publish_batch] *)
Record published (s : Reg) (e : PetitionEntry) (sub : BatchSubmission) (vh : Bytes32)
  (lc : Z) (st : Scratch) : Prop := {
  pub_size : (1 ≤ length (bs_records sub) ≤ BATCH_SIZE_MAX)%nat;
  pub_hash : vh = compute_batch_versioned_hash (blob_fes RECORDS_PER_BLOB (bs_records sub));
  pub_count : lc = pr_leaf_count (pe_record e) + Z.of_nat (length (bs_records sub));
  pub_replay : for_each (replay_record (pr_class_set (pe_record e)))
    (mk_scratch (pe_running_imt e) (pe_identity_tag_imt e) None
       (fr_to_be_bytes (bp_prior_running_root (bs_public_inputs sub)))
       (fr_to_be_bytes (bp_prior_identity_tag_set_root (bs_public_inputs sub))))
    (bs_records sub) = Ok st;
  pub_rr : fr_to_be_bytes (bp_new_running_root (bs_public_inputs sub))
    = sc_last_running_root st;
  pub_idt : fr_to_be_bytes (bp_new_identity_tag_set_root (bs_public_inputs sub))
    = sc_last_identity_tag_root st;
  pub_proof : verify_batch_proof (reg_proof_backend s) (bs_proof_bytes sub)
    (bs_public_inputs sub) = Ok tt;
  pub_prior : fr_to_be_bytes (bp_prior_running_root (bs_public_inputs sub))
    = pr_running_root (pe_record e);
  pub_prior_idt : fr_to_be_bytes (bp_prior_identity_tag_set_root (bs_public_inputs sub))
    = pr_identity_tag_set_root (pe_record e);
}.

Lemma fr_to_u64_Ok x n : fr_to_u64 x = Ok n → n = fr_val x ∧ 0 ≤ n < 2 ^ 64.
Proof.
  unfold fr_to_u64. intros H. apply bind_Ok in H as (u & Hz & H).
  apply ensure_Ok in Hz. apply all_zero_true in Hz. apply (inj Ok) in H as <-.
  pose proof (length_fr_to_be_bytes x) as Hl. pose proof (be_to_Z_fr_to_be_bytes x) as Hv.
  rewrite <-(take_drop 24 (fr_to_be_bytes x)) in Hv. rewrite be_to_Z_app, Hz in Hv.
  rewrite be_to_Z_zeros, Z.mul_0_l, Z.add_0_l in Hv.
  rewrite (take_ge (drop 24 _)) by (rewrite length_drop; lia). split; [done|].
  pose proof (be_to_Z_range (drop 24 (fr_to_be_bytes x))) as Hr.
  rewrite length_drop, Hl in Hr. change (256 ^ Z.of_nat (32 - 24)) with (2 ^ 64) in Hr. lia.
Qed.

Lemma publish_checked_Ok (s : Reg) e sub vh lc st :
  publish_checked s e sub = Ok (vh, lc, st) → published s e sub vh lc st.
Proof.
  unfold publish_checked. intros H. inv_ok H.
  repeat match goal with Ha : encode_blob _ = Ok _ |- _ => apply encode_blob_Ok in Ha as [? ->] end.
  reflect_bools.
  repeat match goal with
  | Ha : bytes_eqb _ _ = true |- _ => apply bytes_eqb_eq in Ha
  | Ha : fr_to_u64 _ = Ok _ |- _ => apply fr_to_u64_Ok in Ha as [? ?]
  | Ha : checked_add _ _ _ = Some _ |- _ => apply checked_add_Some in Ha as [? ?]
  | u : unit |- _ => destruct u
  end.
  constructor; done || lia.
Qed.

(** The record a publication appends to the ghost list extends the trees. *)
Lemma entry_inv_publish (s : Reg) id e recs sub vh lc st b :
  entry_inv id e recs → pr_state (pe_record e) = SigningOpen →
  published s e sub vh lc st → is_active b = true →
  br_batch_versioned_hash b = vh → br_new_leaf_count b = lc →
  let new_rr := fr_to_be_bytes (bp_new_running_root (bs_public_inputs sub)) in
  let new_idt := fr_to_be_bytes (bp_new_identity_tag_set_root (bs_public_inputs sub)) in
  br_new_running_root b = new_rr → br_new_identity_tag_set_root b = new_idt →
  br_prior_running_root b = fr_to_be_bytes (bp_prior_running_root (bs_public_inputs sub)) →
  br_prior_identity_tag_set_root b
    = fr_to_be_bytes (bp_prior_identity_tag_set_root (bs_public_inputs sub)) →
  br_prior_leaf_count b = pr_leaf_count (pe_record e) →
  entry_inv id (mk_entry (set_roots (pe_record e) new_rr new_idt lc) (pe_batches e ++ [b])
    (sc_running_imt st) (sc_identity_tag_imt st)) (recs ++ [bs_records sub]).
Proof.
  intros He Hst Hp Hb Hvh Hlc new_rr new_idt Hrr Hidt Hprr Hpidt Hplc.
  assert (bs_records sub ≠ []) as Hne.
  { pose proof (pub_size _ _ _ _ _ _ Hp). by destruct (bs_records sub); cbn in *; [lia|]. }
  destruct (trees_of_wf _ _ _ (ei_trees _ _ _ He)) as (Hw1 & Hw2 & _).
  pose proof (pub_replay _ _ _ _ _ _ Hp) as Hrep.
  pose proof (replay_increase _ _ _ _ Hrep) as Hinc.
  apply replay_rebuild in Hrep as (Hreb & Hcs & Hroots); [|done..].
  destruct (Hroots Hne) as [Hroot1 Hroot2]. pose proof (ei_len _ _ _ He) as Hlen.
  assert (active_records (pe_batches e ++ [b]) (recs ++ [bs_records sub])
    = active_records (pe_batches e) recs ++ bs_records sub) as Hact.
  { by rewrite active_records_app, active_records_single. }
  assert (trees_of (active_records (pe_batches e) recs ++ bs_records sub)
    = Ok (sc_running_imt st, sc_identity_tag_imt st)) as Htrees.
  { rewrite trees_of_app, (ei_trees _ _ _ He). exact Hreb. }
  assert (new_rr = imt_root (sc_running_imt st)) as Err.
  { unfold new_rr. by rewrite (pub_rr _ _ _ _ _ _ Hp). }
  assert (new_idt = imt_root (sc_identity_tag_imt st)) as Eidt.
  { unfold new_idt. by rewrite (pub_idt _ _ _ _ _ _ Hp). }
  pose proof (pub_count _ _ _ _ _ _ Hp) as Hcount. rewrite (ei_count _ _ _ He) in Hcount.
  constructor; cbn [pe_record pe_batches pe_running_imt pe_identity_tag_imt set_roots
    pr_petition_id pr_state pr_running_root pr_identity_tag_set_root pr_leaf_count pr_class_set].
  - apply He.
  - rewrite !length_app. cbn. lia.
  - by rewrite Hact.
  - done.
  - done.
  - rewrite Hact, length_app. lia.
  - intros i b' [Hi|[Hge Hi]]%lookup_app_Some Hact'.
    + pose proof (lookup_lt_Some _ _ _ Hi). rewrite !take_app_le by lia.
      by apply (ei_prefix _ _ _ He).
    + apply list_lookup_singleton_Some in Hi as [Hi0 <-].
      rewrite !take_ge by (rewrite length_app; cbn; lia). rewrite Hact.
      eexists _, _. split; [exact Htrees|]. rewrite length_app. split_and!; [congruence..|lia].
  - intros i b' [Hi|[Hge Hi]]%lookup_app_Some Hact'.
    + pose proof (lookup_lt_Some _ _ _ Hi). rewrite !take_app_le by lia.
      by apply (ei_prior _ _ _ He).
    + apply list_lookup_singleton_Some in Hi as [Hi0 <-].
      assert (i = length (pe_batches e)) as -> by lia.
      rewrite take_app_length, take_app_length' by done.
      exists (pe_running_imt e), (pe_identity_tag_imt e). split_and!.
      * apply He.
      * rewrite Hprr, (pub_prior _ _ _ _ _ _ Hp). apply He. by rewrite Hst.
      * rewrite Hpidt, (pub_prior_idt _ _ _ _ _ _ Hp). apply He.
      * rewrite Hplc. apply He.
  - apply Forall_app. split; [apply He|]. constructor; [|done].
    split; [apply (pub_size _ _ _ _ _ _ Hp)|done].
  - intros i b' rs [Hi|[Hge Hi]]%lookup_app_Some.
    + pose proof (lookup_lt_Some _ _ _ Hi). rewrite lookup_app_l by lia.
      by apply (ei_hash _ _ _ He).
    + apply list_lookup_singleton_Some in Hi as [Hi0 <-].
      rewrite lookup_app_r by lia. intros Hrs.
      apply list_lookup_singleton_Some in Hrs as [_ <-].
      rewrite Hvh. apply (pub_hash _ _ _ _ _ _ Hp).
  - intros _. apply Forall_app. split; [|by constructor].
    apply (ei_open _ _ _ He). by rewrite Hst.
Qed.

(** A publication either fails quietly or appends its batch. *)
Lemma publish_cases G now id relayer sub s res s' :
  rinv G s → publish_batch now id relayer sub s = (res, s') →
  (is_ok res = false ∧ quiet now id s s') ∨
  ∃ e r vh lc st, advanced now s id e r ∧ pr_state r = SigningOpen ∧
    published s (with_record e r) sub vh lc st ∧
    let public := bs_public_inputs sub in
    let new_rr := fr_to_be_bytes (bp_new_running_root public) in
    let new_idt := fr_to_be_bytes (bp_new_identity_tag_set_root public) in
    let idx := Z.of_nat (length (pe_batches e)) in
    res = Ok (mk_published_event id idx vh new_rr new_idt lc) ∧
    s' = set_entry s id (mk_entry (set_roots r new_rr new_idt lc)
      (pe_batches e ++ [mk_batch id idx vh new_rr new_idt
         (fr_to_be_bytes (bp_prior_running_root public))
         (fr_to_be_bytes (bp_prior_identity_tag_set_root public))
         (pr_leaf_count r) lc relayer now Active])
      (sc_running_imt st) (sc_identity_tag_imt st)).
Proof.
  intros Hs H. unfold publish_batch in H.
  apply step_state_bind in H as [[Hf ->]|(e & r & Hadv & H)]; [left; split; [done|by left]|].
  assert (quiet now id s (set_entry s id (with_record e r))) as Hq by (right; eauto).
  pose proof (rinv_advanced _ _ _ _ _ _ Hs Hadv) as Hs1.
  set (s1 := set_entry s id (with_record e r)) in *.
  assert (reg_petitions s1 !! id = Some (with_record e r)) as He1 by apply lookup_insert_eq.
  destruct (ri_entries _ _ Hs1 _ _ He1) as (recs & HG & Hei).
  rewrite M_bind_lift in H. destruct (bool_decide _) eqn:Hd; cbn [ensure] in H;
    [|left; by injection H as <- <-].
  apply bool_decide_eq_true in Hd.
  rewrite M_bind_get, M_bind_lift, (proj2 (petition_Ok s1 id _) He1), M_bind_lift in H.
  destruct (publish_checked s1 (with_record e r) sub) as [[[vh lc] sc]|er|] eqn:Hp;
    [|left; by injection H as <- <-..].
  apply publish_checked_Ok in Hp. rewrite M_bind_put, M_bind_lift in H.
  assert (Z.of_nat (length (pe_batches e)) < 2 ^ 24) as Hb
    by (eapply (open_batches_bound id (with_record e r)); [done|cbn; by rewrite Hd]).
  rewrite ensure_bind in H by (apply Z.ltb_lt; cbn [pe_batches with_record]; lia).
  rewrite M_bind_put, M_ret_eq in H. injection H as <- <-. right.
  exists e, r, vh, lc, sc. cbn zeta. split_and!; [done|done|by destruct Hp|done|].
  unfold s1. by rewrite set_entry_twice.
Qed.

Lemma rinv_publish G now id relayer sub s ev s' recs :
  rinv G s → publish_batch now id relayer sub s = (Ok ev, s') → G !! id = Some recs →
  rinv (<[id := recs ++ [bs_records sub]]> G) s'.
Proof.
  intros Hs H HG. eapply publish_cases in H as [[Hf _]|H]; [done| |done].
  destruct H as (e & r & vh & lc & st & Hadv & Hst & Hp & _ & ->).
  pose proof (rinv_advanced _ _ _ _ _ _ Hs Hadv) as Hs1.
  assert (reg_petitions (set_entry s id (with_record e r)) !! id = Some (with_record e r)) as He1
    by apply lookup_insert_eq.
  destruct (ri_entries _ _ Hs1 _ _ He1) as (recs' & HG' & Hei). simplify_eq.
  rewrite <-(set_entry_twice s id (with_record e r)).
  eapply rinv_set_entry; [done|done| |done|done].
  by eapply (entry_inv_publish s id (with_record e r)).
Qed.

(** ** [dispute] *)

(** What the carrier serves for an active batch, if anything, is what was
    published under its hash. *)
Definition faithful (s : Reg) (e : PetitionEntry) (recs : list (list RecordEntry)) : Prop :=
  ∀ i b rs rs', pe_batches e !! i = Some b → recs !! i = Some rs → is_active b = true →
    blob_fetch_records (reg_blob_carrier s) (br_batch_versioned_hash b) = Ok rs' → rs' = rs.

Lemma fetch_all_from (s : Reg) acc bs rcs out :
  (∀ i b rs rs', bs !! i = Some b → rcs !! i = Some rs → is_active b = true →
     blob_fetch_records (reg_blob_carrier s) (br_batch_versioned_hash b) = Ok rs' → rs' = rs) →
  length rcs = length bs →
  for_each (λ acc vh,
      records ← map_err RegistryBlob (blob_fetch_records (reg_blob_carrier s) vh);
      Ok (acc ++ records)) acc (map br_batch_versioned_hash (List.filter is_active bs))
  = Ok out → out = acc ++ active_records bs rcs.
Proof.
  revert acc rcs; induction bs as [|b bs IH]; intros acc [|rs rcs] Hav Hl H; try done.
  { cbn in H. injection H as <-. symmetry. apply app_nil_r. }
  injection Hl as Hl. specialize (λ acc, IH acc rcs (λ i, Hav (S i)) Hl).
  change (b :: bs) with ([b] ++ bs). change (rs :: rcs) with ([rs] ++ rcs).
  rewrite active_records_app by done. cbn [List.filter] in H.
  destruct (is_active b) eqn:Hb; cbn [map for_each] in H.
  - inv_ok H. rewrite (IH _ H), active_records_single by done.
    rewrite <-(Hav 0%nat b rs a0) by done. by rewrite app_assoc.
  - rewrite (IH _ H). f_equal. unfold active_records at 2. cbn. by rewrite Hb.
Qed.

Lemma faithful_prefix (s : Reg) e recs k out :
  faithful s e recs → length recs = length (pe_batches e) →
  fetch_all s (map br_batch_versioned_hash (List.filter is_active (take k (pe_batches e))))
    = Ok out →
  out = active_records (take k (pe_batches e)) (take k recs).
Proof.
  intros Hav Hl H. unfold fetch_all in H. eapply (fetch_all_from s [] _ (take k recs)) in H.
  - done.
  - intros i b rs rs' Hb Hr. apply lookup_take_Some in Hb as [Hb _], Hr as [Hr _].
    by eapply Hav.
  - by rewrite !length_take, Hl.
Qed.

Record disputed (now : Z) (s : Reg) (e : PetitionEntry) (d : Dispute)
  (running idt : IndexedMerkleTree) : Prop := {
  dis_time : now < pr_close_at_block (pe_record e) + RESOLUTION_DEADLINE_BLOCKS;
  dis_batch : ∃ b, pe_batches e !! Z.to_nat (di_batch_index d) = Some b ∧
    is_active b = true ∧
    Forall (λ o, blob_verify (reg_blob_carrier s) (br_batch_versioned_hash b) o = Ok tt)
      (di_openings d);
  dis_violation : violation_holds (pr_class_set (pe_record e)) d = Ok tt;
  dis_trees : ∃ rs, fetch_all s (map br_batch_versioned_hash
      (List.filter is_active (take (Z.to_nat (di_batch_index d)) (pe_batches e)))) = Ok rs ∧
    trees_of rs = Ok (running, idt);
}.

Lemma for_each_unit_Forall {E A} (f : A → outcome E unit) l :
  for_each (λ _ a, f a) tt l = Ok tt ↔ Forall (λ a, f a = Ok tt) l.
Proof.
  split.
  - induction l as [|a l IH]; intros H; [done|]. cbn [for_each] in H.
    apply bind_Ok in H as ([] & Ha & H). constructor; [done|by apply IH].
  - induction 1 as [|a l Ha _ IH]; [done|]. cbn [for_each]. by rewrite Ha.
Qed.

Lemma dispute_checked_Ok now (s : Reg) e st d running idt :
  dispute_checked now s e st d = Ok (running, idt) → disputed now s e d running idt.
Proof.
  unfold dispute_checked. intros H. inv_ok H. unfold index in *.
  repeat match goal with
  | Ha : expect _ = Ok _ |- _ => apply expect_Ok in Ha
  | Ha : checked_add _ _ _ = Some _ |- _ => apply checked_add_Some in Ha as [? ?]
  | u : unit |- _ => destruct u
  end.
  reflect_bools.
  match goal with
  | Hb : pe_batches e !! _ = Some ?b, Hn : br_state ?b ≠ Repudiated,
    Hf : for_each _ tt _ = Ok tt |- _ =>
      assert (is_active b = true) as Hact
        by (unfold is_active; destruct (br_state b); done);
      apply (for_each_unit_Forall (λ opening, map_err BadDisputeOpening
        (blob_verify (reg_blob_carrier s) (br_batch_versioned_hash b) opening))) in Hf
  end.
  constructor; [lia| |done|eauto].
  eexists. split_and!; [done|done|]. eapply list.Forall_impl; [done|].
  intros o Ho. cbn in Ho. by apply map_err_Ok in Ho.
Qed.

Lemma find_rev_Some {A} (f : A → bool) l x :
  List.find f (rev l) = Some x →
  ∃ l1 l2, l = l1 ++ x :: l2 ∧ f x = true ∧ Forall (λ y, f y = false) l2.
Proof.
  induction l as [|y l IH] using rev_ind; [done|]. rewrite rev_app_distr. cbn.
  destruct (f y) eqn:Hy.
  - intros [= ->]. exists l, []. by split_and!.
  - intros (l1 & l2 & -> & Hx & Hf)%IH. exists l1, (l2 ++ [y]).
    split_and!; [by rewrite <-app_assoc|done|]. apply Forall_app. split; [done|by constructor].
Qed.

Lemma find_rev_None {A} (f : A → bool) l :
  List.find f (rev l) = None → Forall (λ y, f y = false) l.
Proof.
  intros H. apply list.Forall_forall. intros x Hx.
  apply (List.find_none f (rev l)); [done|]. apply in_rev. rewrite rev_involutive.
  by apply list_elem_of_In.
Qed.

(** The predecessor found by the rollback carries the roots and the count of
    the trees of the batches before the repudiated one. *)
Lemma roll_back_prefix (s : Reg) id e recs k tr ti :
  reg_empty_imt_root s = imt_root imt_new → entry_inv id e recs →
  trees_of (active_records (take k (pe_batches e)) (take k recs)) = Ok (tr, ti) →
  roll_back_to_predecessor (pe_batches e) k (reg_empty_imt_root s)
  = (imt_root tr, imt_root ti,
     Z.of_nat (length (active_records (take k (pe_batches e)) (take k recs)))).
Proof.
  intros Hem He Ht. unfold roll_back_to_predecessor.
  pose proof (ei_len _ _ _ He) as Hlen.
  destruct (List.find is_active (rev (take k (pe_batches e)))) as [x|] eqn:Hf.
  - apply find_rev_Some in Hf as (l1 & l2 & Hsplit & Hx & Hl2).
    assert (pe_batches e !! length l1 = Some x) as Hi.
    { assert (take k (pe_batches e) !! length l1 = Some x) as Hi
        by by rewrite Hsplit, list_lookup_middle.
      by apply lookup_take_Some in Hi as [Hi _]. }
    destruct (ei_prefix _ _ _ He _ _ Hi Hx) as (tr' & ti' & Ht' & -> & -> & ->).
    assert (active_records (take k (pe_batches e)) (take k recs)
      = active_records (take (S (length l1)) (pe_batches e)) (take (S (length l1)) recs))
      as Hact.
    { assert (S (length l1) ≤ k)%nat as Hk.
      { apply (f_equal length) in Hsplit. rewrite length_take, length_app in Hsplit.
        cbn in Hsplit. lia. }
      rewrite <-(take_drop (S (length l1)) (take k (pe_batches e))).
      rewrite <-(take_drop (S (length l1)) (take k recs)).
      rewrite !take_take, !Nat.min_l by lia.
      rewrite active_records_app by (rewrite !length_take; lia).
      rewrite (active_records_none (drop _ _)); [by rewrite app_nil_r|].
      rewrite Hsplit. change (x :: l2) with ([x] ++ l2).
      rewrite (app_assoc l1 [x] l2), drop_app_length'; [done|].
      rewrite length_app. cbn. lia. }
    rewrite Hact in Ht |- *. rewrite Ht in Ht'. apply (inj Ok) in Ht'.
    injection Ht' as <- <-. done.
  - apply find_rev_None in Hf. rewrite (active_records_none _ _ Hf) in Ht |- *.
    apply (inj Ok) in Ht. injection Ht as <- <-. rewrite Hem. done.
Qed.

Lemma is_active_repudiate b : is_active (repudiate b) = false.
Proof. done. Qed.

Lemma repudiate_from k bs :
  Forall (λ b, is_active b = false) (map repudiate (drop k bs)).
Proof. by apply Forall_fmap, list.Forall_forall. Qed.

Lemma entry_inv_dispute (s : Reg) id e recs k rs tr ti :
  reg_empty_imt_root s = imt_root imt_new → entry_inv id e recs →
  is_open (pr_state (pe_record e)) = false →
  rs = active_records (take k (pe_batches e)) (take k recs) → trees_of rs = Ok (tr, ti) →
  entry_inv id (mk_entry (set_roots (pe_record e) (imt_root tr) (imt_root ti)
      (Z.of_nat (length rs)))
    (take k (pe_batches e) ++ map repudiate (drop k (pe_batches e))) tr ti) recs.
Proof.
  intros Hem He Hopen -> Ht. pose proof (ei_len _ _ _ He) as Hlen.
  assert (active_records (take k (pe_batches e) ++ map repudiate (drop k (pe_batches e))) recs
    = active_records (take k (pe_batches e)) (take k recs)) as Hact.
  { rewrite <-(take_drop k recs) at 1. rewrite active_records_app by (rewrite !length_take; lia).
    by rewrite (active_records_none (map _ _)), app_nil_r by apply repudiate_from. }
  constructor; cbn [pe_record pe_batches pe_running_imt pe_identity_tag_imt set_roots
    pr_petition_id pr_state pr_running_root pr_identity_tag_set_root pr_leaf_count pr_class_set].
  - apply He.
  - rewrite length_app, length_map, length_take, length_drop. lia.
  - by rewrite Hact.
  - done.
  - done.
  - by rewrite Hact.
  - intros i b [Hi|[_ Hi]]%lookup_app_Some Hb.
    + apply lookup_take_Some in Hi as Hik. destruct Hik as [Hi' Hk].
      pose proof (lookup_lt_Some _ _ _ Hi) as Hlt.
      rewrite take_app_le, take_take, Nat.min_l by lia. by apply (ei_prefix _ _ _ He).
    + pose proof (repudiate_from k (pe_batches e)) as Hf.
      rewrite list.Forall_lookup in Hf. rewrite (Hf _ _ Hi) in Hb. done.
  - intros i b [Hi|[_ Hi]]%lookup_app_Some Hb.
    + apply lookup_take_Some in Hi as Hik. destruct Hik as [Hi' Hk].
      pose proof (lookup_lt_Some _ _ _ Hi) as Hlt.
      rewrite take_app_le, take_take, Nat.min_l by lia. by apply (ei_prior _ _ _ He).
    + pose proof (repudiate_from k (pe_batches e)) as Hf.
      rewrite list.Forall_lookup in Hf. rewrite (Hf _ _ Hi) in Hb. done.
  - apply He.
  - intros i b rs [Hi|[Hge Hi]]%lookup_app_Some Hr.
    + apply lookup_take_Some in Hi as [Hi _]. by apply (ei_hash _ _ _ He i).
    + apply list_lookup_fmap_Some in Hi as (b0 & -> & Hi). rewrite lookup_drop in Hi.
      rewrite length_take in Hi, Hge. cbn [br_batch_versioned_hash repudiate].
      apply (ei_hash _ _ _ He i); [|done]. rewrite <-Hi. f_equal.
      pose proof (lookup_lt_Some _ _ _ Hi). lia.
  - by rewrite Hopen.
Qed.


(** A dispute either fails quietly or repudiates the suffix. *)
Lemma dispute_cases now d s res s' :
  dispute now d s = (res, s') →
  (is_ok res = false ∧ quiet now (di_petition_id d) s s') ∨
  ∃ e r tr ti rr idt lc, let k := Z.to_nat (di_batch_index d) in
    advanced now s (di_petition_id d) e r ∧ pr_state r = DisputeWindow ∧
    disputed now s (with_record e r) d tr ti ∧
    roll_back_to_predecessor (pe_batches e) k (reg_empty_imt_root s) = (rr, idt, lc) ∧
    res = Ok (mk_repudiated_event (di_petition_id d) (di_batch_index d) rr idt lc) ∧
    s' = set_entry s (di_petition_id d) (mk_entry (set_roots r rr idt lc)
      (take k (pe_batches e) ++ map repudiate (drop k (pe_batches e))) tr ti).
Proof.
  intros H. unfold dispute in H.
  apply step_state_bind in H as [[Hf ->]|(e & r & Hadv & H)]; [left; split; [done|by left]|].
  set (id := di_petition_id d) in *.
  assert (quiet now id s (set_entry s id (with_record e r))) as Hq by (right; eauto).
  set (s1 := set_entry s id (with_record e r)) in *.
  assert (reg_petitions s1 !! id = Some (with_record e r)) as He1 by apply lookup_insert_eq.
  rewrite M_bind_lift in H. destruct (bool_decide _) eqn:Hd; cbn [ensure] in H;
    [|left; by injection H as <- <-].
  apply bool_decide_eq_true in Hd.
  rewrite M_bind_get, M_bind_lift, (proj2 (petition_Ok s1 id _) He1), M_bind_lift in H.
  destruct (dispute_checked now s1 (with_record e r) _ d) as [[tr ti]|er|] eqn:Hp;
    [|left; by injection H as <- <-..].
  apply dispute_checked_Ok in Hp. cbn [pe_batches with_record] in H.
  change (reg_empty_imt_root s1) with (reg_empty_imt_root s) in H.
  destruct (roll_back_to_predecessor _ _ _) as [[rr idt] lc] eqn:Hrb.
  rewrite M_bind_put, M_ret_eq in H. injection H as <- <-. right.
  exists e, r, tr, ti, rr, idt, lc. cbn zeta. split_and!; [done|done|by destruct Hp|done|done|].
  unfold s1. by rewrite set_entry_twice.
Qed.

Lemma rinv_dispute G now d s ev s' :
  rinv G s → dispute now d s = (Ok ev, s') →
  (∀ e recs, reg_petitions s !! di_petition_id d = Some e →
     G !! di_petition_id d = Some recs → faithful s e recs) →
  rinv G s'.
Proof.
  intros Hs H Hav. apply dispute_cases in H as [[Hf _]|H]; [done|].
  destruct H as (e & r & tr & ti & rr & idt & lc & Hadv & Hst & [_ _ _ (rs & Hfetch & Htrees)]
    & Hrb & _ & ->).
  pose proof (rinv_advanced _ _ _ _ _ _ Hs Hadv) as Hs1.
  set (id := di_petition_id d) in *. set (k := Z.to_nat (di_batch_index d)) in *.
  assert (reg_petitions (set_entry s id (with_record e r)) !! id = Some (with_record e r)) as He1
    by apply lookup_insert_eq.
  destruct (ri_entries _ _ Hs1 _ _ He1) as (recs & HG & Hei).
  pose proof (Hav e recs (proj1 Hadv) HG) as Hfa.
  pose proof (faithful_prefix s e recs k rs Hfa (ei_len _ _ _ Hei) Hfetch) as Hrs.
  pose proof (roll_back_prefix s id (with_record e r) recs k tr ti) as Hroll.
  cbn [pe_batches with_record] in Hroll. rewrite <-Hrs in Hroll.
  rewrite Hroll in Hrb; [|apply Hs|done|done]. injection Hrb as <- <- <-.
  rewrite <-(set_entry_twice s id (with_record e r)).
  eapply rinv_update_entry; [done..| |done|done].
  eapply (entry_inv_dispute s id (with_record e r)); [apply Hs|done|cbn; by rewrite Hst|done|done].
Qed.
End registry_inv.
