(* ===== verification/RegistryRun.v ===== *)
(** * Runs of the registry

    The remaining operations, the registry as a labelled transition system
    (every call, failing ones included, interleaved with arbitrary changes of
    the services it holds), and what holds in every reachable state. *)

From Stdlib Require Import ZArith Lia Bool.
From stdpp Require Import base tactics list gmap strings numbers.
From S2P Require Import Prelude Field Types Predicate Poseidon Imt Records Blob Ports Organizer Disputant Registry RegistryInv.

Section operations.
Context `{C : Crypto} {P R B : Type}.
Context {PB : ProofBackend P} {RI : RiCredentialLayer R} {BC : BlobCarrier B}.

Abbreviation Reg := (PetitionRegistry P R B).

(** ** [register] *)
Definition sum_Z (l : list Z) : Z := foldr Z.add 0 l.

Lemma threshold_sum_Ok acc ts n :
  for_each (λ acc t, ok_or (checked_add 128 acc t) (malformed "class_thresholds sum overflow"))
    acc ts = Ok n → n = acc + sum_Z ts.
Proof.
  revert acc; induction ts as [|t ts IH]; intros acc H; cbn [for_each] in H.
  { apply (inj Ok) in H as <-. unfold sum_Z. cbn. lia. }
  inv_ok H. apply checked_add_Some in Ha as [-> _]. apply IH in H.
  change (sum_Z (t :: ts)) with (t + sum_Z ts). lia.
Qed.

Lemma bounty_floor_Ok alpha draft n :
  bounty_floor alpha draft = Ok n →
  n = alpha * (sum_Z (pd_class_thresholds draft) * 10)
      * Z.of_nat (op_count (pd_predicate_def draft)).
Proof.
  unfold bounty_floor. intros H. inv_ok H. apply threshold_sum_Ok in Ha.
  rewrite Z.add_0_l in Ha. subst a. apply checked_mul_Some in Ha0 as [-> _].
  by apply bind_Some in H as (x & [-> _]%checked_mul_Some & [-> _]%checked_mul_Some).
Qed.

Lemma u256_to_u128_Ok v n :
  u256_to_u128 v = Ok n → all_zero (take 16 v) = true ∧ n = be_to_Z (take 16 (drop 16 v)).
Proof. unfold u256_to_u128. intros H. by inv_ok H. Qed.

(** What the checks of [register] establish of the record they admit. *)
Record admitted (now : Z) (s : Reg) (draft : PetitionDraft) (r : PetitionRecord)
  (bounty : Z) : Prop := {
  adm_id : pr_petition_id r = derive_petition_id (gs_chain_id (reg_global s)) (reg_address s)
    (pd_organizer draft) (pr_slot r)
    (match canonical_scalars (pr_predicate_def r) with
     | Ok canonical => fr_to_be_bytes (hash_predicate canonical (fr_of_Z 0)
                                         (fr_from_be_bytes (pd_salt draft)))
     | _ => []
     end) (pd_close_at_block draft);
  adm_fresh : reg_petitions s !! pr_petition_id r = None;
  adm_slot : pr_slot r = gs_s (reg_global s) ∧ pr_slot r < FSRT_SLOT_COUNT;
  adm_predicate : encode (pd_predicate_def draft) = Ok (pr_predicate_def r) ∧
    validate (pd_predicate_def draft) = Ok tt;
  adm_class_set : pr_class_set r = pd_class_set draft ∧ pr_class_set r ≠ [] ∧
    strictly_increasing (pr_class_set r) = true;
  adm_thresholds : pr_class_thresholds r = pd_class_thresholds draft ∧
    length (pr_class_thresholds r) = length (pr_class_set r) ∧ 0 ∉ pr_class_thresholds r;
  adm_class_index : pr_class_index r = pd_class_index draft ∧
    byte_Z (pr_class_index r) < byte_Z (gs_n (reg_global s)) ∧
    ∃ op, find_class_binding_operand (pd_predicate_def draft) (pr_class_index r) = Ok op ∧
      op ∈ pr_class_set r;
  adm_root : pr_r_root r = pd_r_root draft ∧
    ∃ seen, ri_root_first_seen (reg_ri s) (pr_r_root r) = Some seen ∧
      seen + MIN_R_AGE_BLOCKS ≤ now ∧ seen ≤ now;
  adm_window : pr_close_at_block r = pd_close_at_block draft ∧ now < pr_close_at_block r ∧
    pr_close_at_block r ≤ now + MAX_SIGNING_WINDOW_BLOCKS;
  adm_bounty : pr_bounty r = pd_bounty draft ∧ all_zero (take 16 (pr_bounty r)) = true ∧
    bounty = be_to_Z (take 16 (drop 16 (pr_bounty r))) ∧
    gs_alpha (reg_global s) * (sum_Z (pr_class_thresholds r) * 10)
      * Z.of_nat (op_count (pd_predicate_def draft)) ≤ bounty;
  adm_hash : fr_to_be_bytes (fr_from_be_bytes (pr_predicate_hash r)) = pr_predicate_hash r;
  adm_block : pr_registration_block r = now ∧
    pr_alpha_at_registration r = gs_alpha (reg_global s);
  adm_initial : pr_state r = Registered ∧ pr_running_root r = reg_empty_imt_root s ∧
    pr_identity_tag_set_root r = reg_empty_imt_root s ∧ pr_leaf_count r = 0;
}.

Lemma register_checked_Ok now (s : Reg) draft r bounty :
  register_checked now s draft = Ok (r, bounty) → admitted now s draft r bounty.
Proof.
  unfold register_checked. intros H. inv_ok H. reflect_bools.
  apply bounty_floor_Ok in Ha16 as ->.
  apply u256_to_u128_Ok in Ha17 as [Hz ->]. apply memZ_true in Ha6.
  constructor; cbn [pr_petition_id pr_slot pr_r_root pr_predicate_def pr_predicate_hash pr_salt
    pr_class_set pr_class_thresholds pr_class_index pr_close_at_block pr_bounty
    pr_alpha_at_registration pr_organizer pr_running_root pr_identity_tag_set_root
    pr_leaf_count pr_state pr_registration_block];
    try (rewrite fr_from_to_be_bytes; reflexivity); try done.
  - by rewrite Ha12.
  - by destruct a.
  - split_and!; [done| |done]. intros E. by rewrite E in Ha0.
  - split_and!; [done..|]. rewrite <-memZ_true, Ha2. done.
  - split_and!; [done..|]. by exists a5.
  - split; [done|]. exists a7. split_and!; [done|lia|done].
  - split_and!; [done..|lia].
Qed.

(** Past its checks, [register] succeeds. *)
Lemma register_run now draft (s : Reg) r bounty :
  register_checked now s draft = Ok (r, bounty) →
  register now draft s
  = (Ok (mk_registered (pr_petition_id r) (pr_slot r) (pr_predicate_hash r) now,
         mk_registered_event (pr_petition_id r) (pr_slot r) (pd_r_root draft)
           (pr_predicate_hash r) (pd_class_set draft) (pd_class_thresholds draft)
           (pd_class_index draft) (pd_close_at_block draft) bounty),
     set_entry (set_global s (with_slot (reg_global s) (pr_slot r + 1)))
       (pr_petition_id r) (mk_entry (set_state r SigningOpen) [] imt_new imt_new)).
Proof.
  intros Hc. apply register_checked_Ok in Hc as Hadm. unfold register.
  rewrite M_bind_get, M_bind_lift, Hc, M_bind_lift.
  destruct (adm_slot _ _ _ _ _ Hadm) as [Hslot Hcap].
  assert (checked_add 32 (gs_s (reg_global s)) 1 = Some (pr_slot r + 1)) as Hnext.
  { apply checked_add_Some. change FSRT_SLOT_COUNT with (2 ^ 24) in Hcap.
    change (2 ^ 32) with (2 ^ 24 * 256). lia. }
  rewrite Hnext. cbn [ok_or]. rewrite M_bind_put.
  unfold mbind at 1, M_bind at 1. unfold step_state, petition.
  cbn [reg_petitions set_entry set_global]. rewrite lookup_insert_eq. cbn [ok_or pe_record].
  assert (step_record now r = Ok (set_state r SigningOpen)) as Hstep.
  { unfold step_record. destruct (adm_window _ _ _ _ _ Hadm) as (_ & Hlt & _).
    destruct (adm_initial _ _ _ _ _ Hadm) as (Hst & _).
    rewrite (advance_some _ _ _ SigningOpen) by by (unfold next_state; rewrite Hst).
    apply advance_none. unfold next_state. cbn [pr_state set_state pr_close_at_block].
    by rewrite (proj2 (Z.leb_gt _ _) Hlt). }
  rewrite Hstep, M_ret_eq. f_equal.
  unfold set_entry, with_record. cbn. by rewrite insert_insert_eq.
Qed.

Lemma register_cases now draft (s : Reg) res s' :
  register now draft s = (res, s') →
  (is_ok res = false ∧ s' = s) ∨
  ∃ r bounty, admitted now s draft r bounty ∧
    res = Ok (mk_registered (pr_petition_id r) (pr_slot r) (pr_predicate_hash r) now,
              mk_registered_event (pr_petition_id r) (pr_slot r) (pd_r_root draft)
                (pr_predicate_hash r) (pd_class_set draft) (pd_class_thresholds draft)
                (pd_class_index draft) (pd_close_at_block draft) bounty) ∧
    s' = set_entry (set_global s (with_slot (reg_global s) (pr_slot r + 1)))
           (pr_petition_id r) (mk_entry (set_state r SigningOpen) [] imt_new imt_new).
Proof.
  intros H. destruct (register_checked now s draft) as [[r bounty]|er|] eqn:Hc.
  - right. exists r, bounty. rewrite (register_run _ _ _ _ _ Hc) in H.
    injection H as <- <-. split; [by apply register_checked_Ok|done].
  - left. unfold register in H. rewrite M_bind_get, M_bind_lift, Hc in H. by injection H as <- <-.
  - left. unfold register in H. rewrite M_bind_get, M_bind_lift, Hc in H. by injection H as <- <-.
Qed.

Lemma entry_inv_new (s : Reg) r :
  pr_running_root r = imt_root imt_new → pr_identity_tag_set_root r = imt_root imt_new →
  pr_leaf_count r = 0 → entry_inv (pr_petition_id r) (mk_entry r [] imt_new imt_new) [].
Proof. intros H1 H2 H3. by constructor. Qed.

Lemma rinv_register G now draft (s : Reg) ev s' :
  rinv G s → register now draft s = (Ok ev, s') →
  rinv (<[rg_petition_id ev.1 := []]> G) s'.
Proof.
  intros [He Hent [Hg Hr] Hs Hb] H. apply register_cases in H as [[Hf _]|H]; [done|].
  destruct H as (r & bounty & Hadm & Hev & ->). apply (inj Ok) in Hev as ->.
  cbn [fst rg_petition_id].
  destruct (adm_slot _ _ _ _ _ Hadm) as [Hslot Hcap].
  destruct (adm_initial _ _ _ _ _ Hadm) as (_ & Hr1 & Hr2 & Hr3).
  constructor; cbn [reg_empty_imt_root reg_petitions reg_global set_entry set_global gs_s
    with_slot].
  - done.
  - intros id x. destruct (decide (id = pr_petition_id r)) as [->|Hne].
    + rewrite !lookup_insert_eq. intros [= <-]. eexists. split; [done|].
      apply (entry_inv_new s (set_state r SigningOpen));
        [rewrite <-He; exact Hr1|rewrite <-He; exact Hr2|exact Hr3].
    + rewrite !lookup_insert_ne by done. apply Hent.
  - split; [lia|]. intros id x. destruct (decide (id = pr_petition_id r)) as [->|Hne].
    + rewrite lookup_insert_eq. intros [= <-]. cbn. lia.
    + rewrite lookup_insert_ne by done. intros Hx%Hr. lia.
  - intros id1 id2 e1 e2.
    destruct (decide (id1 = pr_petition_id r)) as [->|H1],
      (decide (id2 = pr_petition_id r)) as [->|H2];
      rewrite ?lookup_insert_eq, ?lookup_insert_ne by done; [done| | |apply Hs].
    + intros [= <-] H2'%Hr. cbn. lia.
    + intros H1'%Hr [= <-]. cbn. lia.
  - intros id x. destruct (decide (id = pr_petition_id r)) as [->|Hne].
    + rewrite lookup_insert_eq. intros [= <-]. apply (adm_bounty _ _ _ _ _ Hadm).
    + rewrite lookup_insert_ne by done. apply Hb.
Qed.

(** ** [resolve] *)
Definition bounty_of (r : PetitionRecord) : Z := be_to_Z (take 16 (drop 16 (pr_bounty r))).

Lemma u256_to_u128_fits v :
  all_zero (take 16 v) = true → u256_to_u128 v = Ok (be_to_Z (take 16 (drop 16 v))).
Proof. unfold u256_to_u128. intros ->. done. Qed.

Lemma resolve_cases G now id resolver sub (s : Reg) res s' :
  rinv G s → resolve now id resolver sub s = (res, s') →
  (is_ok res = false ∧ quiet now id s s') ∨
  ∃ e r, advanced now s id e r ∧ pr_state r = DisputeWindow ∧
    resolve_checked now s (with_record e r) DisputeWindow sub = Ok tt ∧
    let public := rs_public_inputs sub in
    let b := fr_nonzero (rp_b public) in
    let bs := map fr_nonzero (rp_b_per_class public) in
    res = Ok (mk_resolved_event id b bs, mk_bounty_event id resolver (bounty_of r)) ∧
    s' = set_entry s id (with_record e (set_outcome r b bs (rs_proof_bytes sub))).
Proof.
  intros Hs H. unfold resolve in H.
  apply step_state_bind in H as [[Hf ->]|(e & r & Hadv & H)]; [left; split; [done|by left]|].
  assert (quiet now id s (set_entry s id (with_record e r))) as Hq by (right; eauto).
  pose proof (rinv_advanced _ _ _ _ _ _ Hs Hadv) as Hs1.
  set (s1 := set_entry s id (with_record e r)) in *.
  assert (reg_petitions s1 !! id = Some (with_record e r)) as He1 by apply lookup_insert_eq.
  rewrite M_bind_lift in H. destruct (bool_decide _) eqn:Hd; cbn [ensure] in H;
    [|left; by injection H as <- <-].
  apply bool_decide_eq_true in Hd.
  rewrite M_bind_get, M_bind_lift, (proj2 (petition_Ok s1 id _) He1), M_bind_lift in H.
  rewrite Hd in H.
  destruct (resolve_checked now s1 (with_record e r) DisputeWindow sub) as [[]|er|] eqn:Hp;
    [|left; by injection H as <- <-..].
  rewrite M_bind_put, M_bind_lift in H. cbn [pe_record with_record] in H.
  rewrite u256_to_u128_fits in H by apply (ri_bounty _ _ Hs1 _ _ He1).
  rewrite M_ret_eq in H. injection H as <- <-. right. exists e, r. cbn zeta.
  split_and!; [done|done|exact Hp|done|]. unfold s1. by rewrite set_entry_twice.
Qed.

Lemma rinv_resolve G now id resolver sub (s : Reg) ev s' :
  rinv G s → resolve now id resolver sub s = (Ok ev, s') → rinv G s'.
Proof.
  intros Hs H. eapply resolve_cases in H as [[Hf _]|H]; [done| |done].
  destruct H as (e & r & Hadv & Hst & _ & _ & ->).
  pose proof (rinv_advanced _ _ _ _ _ _ Hs Hadv) as Hs1.
  assert (reg_petitions (set_entry s id (with_record e r)) !! id = Some (with_record e r)) as He1
    by apply lookup_insert_eq.
  destruct (ri_entries _ _ Hs1 _ _ He1) as (recs & HG & Hei).
  rewrite <-(set_entry_twice s id (with_record e r)).
  eapply rinv_update_entry; [done..| |done|done].
  destruct Hei as [H1 H2 H3 Hroots H5 H6 H7 H8 H9 H10 H11]. constructor; try done.
  intros _. apply Hroots. change (pr_state r ≠ Unresolved). by rewrite Hst.
Qed.

(** ** [mark_unresolved] *)
Lemma unresolved_cases G now id caller gas_rebate (s : Reg) res s' :
  rinv G s → 0 ≤ gas_rebate →
  mark_unresolved now id caller gas_rebate s = (res, s') →
  (is_ok res = false ∧ quiet now id s s') ∨
  ∃ e r, advanced now s id e r ∧ pr_state r = DisputeWindow ∧
    pr_close_at_block r + RESOLUTION_DEADLINE_BLOCKS + MARK_UNRESOLVED_GRACE_BLOCKS ≤ now ∧
    let rebate := gas_rebate `min` (bounty_of r / 100) in
    res = Ok (mk_unresolved_event id,
              mk_bounty_event id (pr_organizer r) (bounty_of r - rebate),
              mk_bounty_event id caller rebate) ∧
    s' = set_entry s id (with_record e (set_state (set_roots r TOMBSTONE_MARKER
           (pr_identity_tag_set_root r) (pr_leaf_count r)) Unresolved)).
Proof.
  intros Hs Hgas H. unfold mark_unresolved in H.
  apply step_state_bind in H as [[Hf ->]|(e & r & Hadv & H)]; [left; split; [done|by left]|].
  assert (quiet now id s (set_entry s id (with_record e r))) as Hq by (right; eauto).
  pose proof (rinv_advanced _ _ _ _ _ _ Hs Hadv) as Hs1.
  set (s1 := set_entry s id (with_record e r)) in *.
  assert (reg_petitions s1 !! id = Some (with_record e r)) as He1 by apply lookup_insert_eq.
  rewrite M_bind_get, M_bind_lift, (proj2 (petition_Ok s1 id _) He1), M_bind_lift in H.
  destruct (unresolved_checked now (with_record e r) (pr_state r)) as [total|er|] eqn:Hp;
    [|left; by injection H as <- <-..].
  unfold unresolved_checked in Hp. cbn [pe_record with_record] in Hp.
  rewrite u256_to_u128_fits in Hp by apply (ri_bounty _ _ Hs1 _ _ He1).
  inv_ok Hp. reflect_bools.
  apply bind_Some in Ha as (d & [-> _]%checked_add_Some & [-> _]%checked_add_Some).
  fold (bounty_of r) in H.
  assert (0 ≤ bounty_of r) as Hpos.
  { unfold bounty_of. pose proof (be_to_Z_range (take 16 (drop 16 (pr_bounty r)))). lia. }
  rewrite M_bind_lift in H.
  assert (checked_sub (bounty_of r) (gas_rebate `min` (bounty_of r / 100))
    = Some (bounty_of r - gas_rebate `min` (bounty_of r / 100))) as Hsub.
  { apply checked_sub_Some. split; [done|].
    pose proof (Z.div_le_upper_bound (bounty_of r) 100 (bounty_of r)). lia. }
  rewrite Hsub in H. cbn [expect] in H. rewrite M_bind_put, M_ret_eq in H.
  injection H as <- <-. right. exists e, r. cbn zeta. split_and!; [done|done|lia|done|].
  unfold s1. by rewrite set_entry_twice.
Qed.

Lemma unresolved_total G now id caller gas_rebate (s : Reg) e r :
  rinv G s → advanced now s id e r → pr_state r = DisputeWindow → 0 ≤ gas_rebate →
  pr_close_at_block r + RESOLUTION_DEADLINE_BLOCKS + MARK_UNRESOLVED_GRACE_BLOCKS ≤ now →
  pr_close_at_block r + RESOLUTION_DEADLINE_BLOCKS + MARK_UNRESOLVED_GRACE_BLOCKS < 2 ^ 64 →
  is_ok (mark_unresolved now id caller gas_rebate s).1 = true.
Proof.
  intros Hs Hadv Hd Hgas Hnow Hfit. unfold mark_unresolved.
  assert (0 ≤ MARK_UNRESOLVED_GRACE_BLOCKS) by done.
  pose proof (rinv_advanced _ _ _ _ _ _ Hs Hadv) as Hs1.
  rewrite (step_state_run _ _ _ _ _ _ Hadv), M_bind_get, M_bind_lift, petition_set, M_bind_lift.
  unfold unresolved_checked. cbn [pe_record with_record].
  rewrite (proj2 (checked_add_Some 64 (pr_close_at_block r) _
    (pr_close_at_block r + RESOLUTION_DEADLINE_BLOCKS))) by (split; [done|lia]).
  cbn [mbind option_bind].
  rewrite (proj2 (checked_add_Some 64 _ _ (pr_close_at_block r + RESOLUTION_DEADLINE_BLOCKS
    + MARK_UNRESOLVED_GRACE_BLOCKS))) by done.
  rewrite (ok_or_bind _ _ _ _ eq_refl).
  rewrite ensure_bind by (apply negb_true_iff, Z.ltb_ge; lia).
  rewrite ensure_bind by by apply bool_decide_eq_true.
  rewrite u256_to_u128_fits by apply (ri_bounty _ _ Hs1 id (with_record e r)), lookup_insert_eq.
  fold (bounty_of r). rewrite M_bind_lift.
  rewrite (proj2 (checked_sub_Some _ _ (bounty_of r - gas_rebate `min` (bounty_of r / 100))));
    [done|]. split; [done|].
  assert (0 ≤ bounty_of r) by apply be_to_Z_range.
  pose proof (Z.div_le_upper_bound (bounty_of r) 100 (bounty_of r)). lia.
Qed.

Lemma rinv_unresolved G now id caller gas_rebate (s : Reg) ev s' :
  rinv G s → 0 ≤ gas_rebate →
  mark_unresolved now id caller gas_rebate s = (Ok ev, s') → rinv G s'.
Proof.
  intros Hs Hgas H. eapply unresolved_cases in H as [[Hf _]|H]; [done| |done..].
  destruct H as (e & r & Hadv & Hst & _ & _ & ->).
  pose proof (rinv_advanced _ _ _ _ _ _ Hs Hadv) as Hs1.
  assert (reg_petitions (set_entry s id (with_record e r)) !! id = Some (with_record e r)) as He1
    by apply lookup_insert_eq.
  destruct (ri_entries _ _ Hs1 _ _ He1) as (recs & HG & Hei).
  rewrite <-(set_entry_twice s id (with_record e r)).
  eapply rinv_update_entry; [done..| |done|done].
  destruct Hei. by constructor.
Qed.

(** ** [update_alpha] *)
Lemma alpha_cases a (s : Reg) res s' :
  update_alpha a s = (res, s') →
  (is_ok res = false ∧ s' = s) ∨
  (gs_alpha_min (reg_global s) ≤ a ≤ gs_alpha_max (reg_global s) ∧
   s' = set_global s (with_alpha (reg_global s) a)).
Proof.
  intros H. unfold update_alpha in H. rewrite M_bind_get, M_bind_lift in H.
  destruct (_ && _) eqn:Hb; cbn [ensure] in H; [|left; by injection H as <- <-].
  rewrite M_bind_put, M_ret_eq in H. injection H as <- <-. reflect_bools. by right.
Qed.

Lemma rinv_quiet G now id (s s' : Reg) : rinv G s → quiet now id s s' → rinv G s'.
Proof. intros Hs [->|(e & r & Hadv & ->)]; [done|by eapply rinv_advanced]. Qed.
End operations.

(** ** What a call can do to a petition *)

(** What registration guarantees of the terms of a petition, for good. *)
Record sound_terms (r : PetitionRecord) : Prop := {
  st_class_set : pr_class_set r ≠ [] ∧ strictly_increasing (pr_class_set r) = true;
  st_thresholds : length (pr_class_thresholds r) = length (pr_class_set r) ∧
    0 ∉ pr_class_thresholds r;
  st_slot : pr_slot r < FSRT_SLOT_COUNT;
  st_predicate : ∃ d op, encode d = Ok (pr_predicate_def r) ∧
    find_class_binding_operand d (pr_class_index r) = Ok op ∧ op ∈ pr_class_set r ∧
    pr_alpha_at_registration r * (sum_Z (pr_class_thresholds r) * 10) * Z.of_nat (op_count d)
      ≤ bounty_of r;
  st_hash : fr_to_be_bytes (fr_from_be_bytes (pr_predicate_hash r)) = pr_predicate_hash r;
  st_window : pr_registration_block r < pr_close_at_block r ∧
    pr_close_at_block r ≤ pr_registration_block r + MAX_SIGNING_WINDOW_BLOCKS;
}.

(** The terms of a petition: its record without the fields the registry
    updates after registration. *)
Definition terms (r : PetitionRecord) : PetitionRecord :=
  set_state (set_outcome (set_roots r [] [] 0) false [] []) Registered.

Definition is_final (st : PetitionState) : bool :=
  match st with Resolved | Unresolved => true | _ => false end.

Lemma bounty_of_terms r r' : terms r' = terms r → bounty_of r' = bounty_of r.
Proof.
  intros H. apply (f_equal pr_bounty) in H. cbn in H. unfold bounty_of. by rewrite H.
Qed.

Lemma close_of_terms r r' : terms r' = terms r → pr_close_at_block r' = pr_close_at_block r.
Proof. intros H. by apply (f_equal pr_close_at_block) in H. Qed.

Lemma sound_terms_eq r r' : terms r' = terms r → sound_terms r → sound_terms r'.
Proof.
  intros H Hr. pose proof (bounty_of_terms _ _ H) as Hb.
  pose proof (f_equal pr_class_set H) as H1. pose proof (f_equal pr_class_thresholds H) as H2.
  pose proof (f_equal pr_slot H) as H3. pose proof (f_equal pr_predicate_def H) as H4.
  pose proof (f_equal pr_class_index H) as H5. pose proof (close_of_terms _ _ H) as H6.
  pose proof (f_equal pr_registration_block H) as H7.
  pose proof (f_equal pr_alpha_at_registration H) as H8.
  pose proof (f_equal pr_predicate_hash H) as H9. cbn in *.
  destruct Hr. constructor; by rewrite ?H1, ?H2, ?H3, ?H4, ?H5, ?H6, ?H7, ?H8, ?H9, ?Hb.
Qed.

Section evolution.
Context `{C : Crypto} {P R B : Type}.
Context {PB : ProofBackend P} {RI : RiCredentialLayer R} {BC : BlobCarrier B}.

Abbreviation Reg := (PetitionRegistry P R B).

(** One petition, before and after a call at block [now] that pays [paid] out of its
    bounty: the terms stay, the state only moves forward, a final petition
    does not move at all, and the bounty leaves the escrow exactly when the
    petition becomes final. *)
Record evolves (now paid : Z) (e e' : PetitionEntry) : Prop := {
  ev_terms : terms (pe_record e') = terms (pe_record e);
  ev_rank : (rank (pr_state (pe_record e)) ≤ rank (pr_state (pe_record e')))%nat;
  ev_frozen : is_final (pr_state (pe_record e)) = true → e' = e;
  ev_paid : paid = if negb (is_final (pr_state (pe_record e)))
                      && is_final (pr_state (pe_record e'))
                   then bounty_of (pe_record e) else 0;
  ev_timely : timely now (pe_record e) → timely now (pe_record e');
}.

Lemma evolves_refl now e : evolves now 0 e e.
Proof. constructor; try done. by destruct (is_final _). Qed.

Lemma with_record_id e : with_record e (pe_record e) = e.
Proof. by destruct e. Qed.

(** A lifecycle pass pays nothing. *)
Lemma evolves_advanced now (s : Reg) id e r :
  advanced now s id e r → evolves now 0 e (with_record e r).
Proof.
  intros [_ Hr].
  destruct (step_record_shape _ _ _ Hr) as [Heq (H1 & H2 & H3 & H4 & H5)].
  constructor; cbn [pe_record with_record].
  - by rewrite Heq.
  - done.
  - intros Hf. rewrite Heq. assert (pr_state r = pr_state (pe_record e)) as ->.
    { destruct (pr_state (pe_record e)); cbn in Hf; try done; [by apply H5|by apply H3]. }
    rewrite set_state_id. apply with_record_id.
  - destruct (pr_state (pe_record e)), (pr_state r); cbn in *;
      try done; try (by discriminate (H2 eq_refl)); try (by discriminate (H4 eq_refl)).
  - intros Ht. by eapply step_record_timely.
Qed.

(** A lifecycle pass followed by an update of a petition that is not final. *)
Lemma evolves_update now (s : Reg) id e r e' :
  advanced now s id e r → is_final (pr_state r) = false →
  terms (pe_record e') = terms r → (rank (pr_state r) ≤ rank (pr_state (pe_record e')))%nat →
  (timely now r → timely now (pe_record e')) →
  evolves now (if is_final (pr_state (pe_record e')) then bounty_of r else 0) e e'.
Proof.
  intros Hadv Hf Ht Hr Hti.
  destruct (evolves_advanced _ _ _ _ _ Hadv) as [Ht0 Hr0 Hz0 _ Hti0].
  cbn [pe_record with_record] in *.
  assert (is_final (pr_state (pe_record e)) = false) as Hf0.
  { destruct (is_final (pr_state (pe_record e))) eqn:E; [|done].
    specialize (Hz0 eq_refl). apply (f_equal pe_record) in Hz0. cbn in Hz0. congruence. }
  constructor; [congruence|lia|congruence| |by auto]. rewrite Hf0. cbn [negb andb].
  by rewrite (bounty_of_terms _ _ Ht0).
Qed.

Lemma evolves_same_state now (s : Reg) id e r e' :
  advanced now s id e r → is_final (pr_state r) = false →
  terms (pe_record e') = terms r → pr_state (pe_record e') = pr_state r → evolves now 0 e e'.
Proof.
  intros Hadv Hf Ht Hs. pose proof (evolves_update _ _ _ _ _ e' Hadv Hf Ht) as H.
  rewrite Hs, Hf in H. apply H; [done|]. unfold timely.
  by rewrite Hs, (close_of_terms _ _ Ht).
Qed.

Lemma evolves_final now (s : Reg) id e r e' :
  advanced now s id e r → pr_state r = DisputeWindow →
  terms (pe_record e') = terms r → is_final (pr_state (pe_record e')) = true →
  evolves now (bounty_of r) e e'.
Proof.
  intros Hadv Hd Ht Hs. pose proof (evolves_update _ _ _ _ _ e' Hadv) as H.
  rewrite Hs, Hd in H. apply H; [done|done|..].
  - destruct (pr_state (pe_record e')); cbn; done || lia.
  - unfold timely. rewrite Hd, (close_of_terms _ _ Ht). cbn [rank]. intros [H2 H4].
    split; intros _; [apply H2|apply H4]; lia.
Qed.

Lemma admitted_sound now (s : Reg) draft r bounty :
  admitted now s draft r bounty → sound_terms r.
Proof.
  intros [_ _ [_ Hslot] [Henc _] [_ Hcs] [_ Hth] [_ [_ Hci]] _ [_ Hw] Hb Hh [Hblk Hal] _].
  destruct Hci as (op & Hop & Hin), Hb as (_ & _ & -> & Hb).
  constructor; [done|done|done| |done|by rewrite Hblk].
  exists (pd_predicate_def draft), op. split_and!; [done..|]. rewrite Hal. exact Hb.
Qed.
End evolution.
