(* ===== verification/RegistryTrace.v ===== *)
(** * Traces of the registry

    The registry as a transition system: any sequence of calls at
    non-decreasing blocks, failing ones included, between which the services
    it holds may change arbitrarily.  What holds in every reachable state and
    along every trace: the invariant, the lifecycle, the escrow, the windows,
    and what a dispute undoes. *)

From Stdlib Require Import ZArith Lia Bool.
From stdpp Require Import base tactics list gmap strings numbers.
From S2P Require Import Prelude Field Types Predicate Poseidon Imt Records Blob Ports Organizer Disputant Registry RegistryInv RegistryRun.

Inductive Call : Type :=
| CallRegister (now : Z) (draft : PetitionDraft)
| CallPublish (now : Z) (id : list byte) (relayer : Address) (sub : BatchSubmission)
| CallDispute (now : Z) (d : Dispute)
| CallResolve (now : Z) (id : list byte) (resolver : Address) (sub : ResolutionSubmission)
| CallUnresolved (now : Z) (id : list byte) (caller : Address) (gas_rebate : Z)
| CallAlpha (now : Z) (new_alpha : Z).

Inductive Event : Type :=
| EvRegistered (id : list byte)
| EvPublished (ev : BatchPublishedEvent)
| EvRepudiated (ev : BatchRepudiatedEvent)
| EvResolved (ev : PetitionResolvedEvent) (paid : BountyEvent)
| EvUnresolved (ev : PetitionUnresolvedEvent) (refund rebate : BountyEvent)
| EvAlpha (ev : AlphaUpdatedEvent).

Definition call_block (c : Call) : Z :=
  match c with
  | CallRegister now _ | CallPublish now _ _ _ | CallDispute now _
  | CallResolve now _ _ _ | CallUnresolved now _ _ _ | CallAlpha now _ => now
  end.

(** Amounts are unsigned, records have their widths. *)
Definition call_typed (c : Call) : Prop :=
  match c with
  | CallUnresolved _ _ _ gas_rebate => 0 ≤ gas_rebate
  | CallPublish _ _ _ sub => Forall record_ok (bs_records sub)
  | _ => True
  end.

(** What an event pays out of the bounty of petition [id]. *)
Definition bounty_part (id : list byte) (b : BountyEvent) : Z :=
  if bool_decide (ev_bounty_petition_id b = id) then ev_bounty_amount b else 0.
Definition payout (id : list byte) (ev : Event) : Z :=
  match ev with
  | EvResolved _ paid => bounty_part id paid
  | EvUnresolved _ refund rebate => bounty_part id refund + bounty_part id rebate
  | _ => 0
  end.
Definition payouts (id : list byte) (tr : list Event) : Z := sum_Z (map (payout id) tr).

Section traces.
Context `{C : Crypto} {P R B : Type}.
Context {PB : ProofBackend P} {RI : RiCredentialLayer R} {BC : BlobCarrier B}.

Abbreviation Reg := (PetitionRegistry P R B).

Definition run_call (c : Call) : M Reg RegistryError Event :=
  match c with
  | CallRegister now draft =>
      r ← register now draft; mret (EvRegistered (rg_petition_id r.1))
  | CallPublish now id relayer sub =>
      ev ← publish_batch now id relayer sub; mret (EvPublished ev)
  | CallDispute now d => ev ← dispute now d; mret (EvRepudiated ev)
  | CallResolve now id resolver sub =>
      ev ← resolve now id resolver sub; mret (EvResolved ev.1 ev.2)
  | CallUnresolved now id caller gas_rebate =>
      ev ← mark_unresolved now id caller gas_rebate; mret (EvUnresolved ev.1.1 ev.1.2 ev.2)
  | CallAlpha _ new_alpha => ev ← update_alpha new_alpha; mret (EvAlpha ev)
  end.

(** The records of the published batches, kept beside the registry. *)
Definition ghost_call (c : Call) (res : outcome RegistryError Event) (G : Ghost) : Ghost :=
  match c, res with
  | CallRegister _ _, Ok (EvRegistered id) => <[id := []]> G
  | CallPublish _ id _ sub, Ok _ =>
      <[id := default [] (G !! id) ++ [bs_records sub]]> G
  | _, _ => G
  end.

(** The carrier, where a dispute reads it, serves what was published. *)
Definition faithful_call (c : Call) (s : Reg) (G : Ghost) : Prop :=
  match c with
  | CallDispute _ d => ∀ e recs, reg_petitions s !! di_petition_id d = Some e →
      G !! di_petition_id d = Some recs → faithful s e recs
  | _ => True
  end.

Definition set_services (s : Reg) (p : P) (r : R) (b : B) : Reg :=
  mk_registry (reg_address s) (reg_global s) p r b (reg_petitions s) (reg_empty_imt_root s).

Definition emitted (res : outcome RegistryError Event) : list Event :=
  match res with Ok ev => [ev] | _ => [] end.

Inductive reachable : Z → list Event → Ghost → Reg → Prop :=
| reach_new addr g p r b :
    0 ≤ gs_s g → reachable 0 [] ∅ (registry_new addr g p r b)
| reach_services t tr G s p r b :
    reachable t tr G s → reachable t tr G (set_services s p r b)
| reach_call t tr G s c res s' :
    reachable t tr G s → t ≤ call_block c → call_typed c → faithful_call c s G →
    run_call c s = (res, s') →
    reachable (call_block c) (tr ++ emitted res) (ghost_call c res G) s'.

(** ** Splitting a call *)
Lemma run_bind_inv {A} (m : M Reg RegistryError A) (k : A → Event) s res s' :
  (x ← m; mret (k x)) s = (res, s') →
  (∃ x, m s = (Ok x, s') ∧ res = Ok (k x)) ∨
  (is_ok res = false ∧ ∃ res0, is_ok res0 = false ∧ m s = (res0, s')).
Proof.
  unfold mbind, M_bind. destruct (m s) as [[x|er|] s1]; intros H; injection H as <- <-.
  - left. by exists x.
  - right. split; [done|]. by exists (Err er).
  - right. split; [done|]. by exists Panic.
Qed.

(** What one call does to one petition. *)
Definition touches (now : Z) (id : list byte) (paid : Z) (s s' : Reg) : Prop :=
  match reg_petitions s !! id, reg_petitions s' !! id with
  | Some e, Some e' => evolves now paid e e'
  | None, Some e' =>
      paid = 0 ∧ pr_state (pe_record e') = SigningOpen ∧ sound_terms (pe_record e')
  | None, None => paid = 0
  | Some _, None => False
  end.

Lemma touches_refl now id (s s' : Reg) :
  reg_petitions s' = reg_petitions s → touches now id 0 s s'.
Proof.
  intros H. unfold touches. rewrite H.
  destruct (reg_petitions s !! id); [apply evolves_refl|done].
Qed.

Lemma touches_set now id' (s : Reg) id e e' paid :
  reg_petitions s !! id = Some e → evolves now paid e e' →
  touches now id' (if bool_decide (id = id') then paid else 0) s (set_entry s id e').
Proof.
  intros He Hev. unfold touches. cbn [reg_petitions set_entry]. case_bool_decide as Hid.
  - subst id'. by rewrite He, lookup_insert_eq.
  - rewrite lookup_insert_ne by done.
    destruct (reg_petitions s !! id'); [apply evolves_refl|done].
Qed.

Lemma touches_quiet now id (s s' : Reg) id' : quiet now id s s' → touches now id' 0 s s'.
Proof.
  intros [->|(e & r & Hadv & ->)]; [by apply touches_refl|].
  pose proof (touches_set now id' s id e (with_record e r) 0 (proj1 Hadv)) as H.
  rewrite Tauto.if_same in H. apply H. by eapply evolves_advanced.
Qed.

Lemma payout_none id res : is_ok res = false → sum_Z (map (payout id) (emitted res)) = 0.
Proof. by destruct res. Qed.

(** Every call, on every petition. *)
Lemma call_touches G c (s : Reg) res s' id :
  rinv G s → call_typed c → run_call c s = (res, s') →
  touches (call_block c) id (payouts id (emitted res)) s s'.
Proof.
  intros Hs Hty H. unfold payouts. destruct c; cbn [run_call call_typed call_block] in *;
    apply run_bind_inv in H as [(x & H & ->)|(Hf & res0 & Hf0 & H)];
    rewrite ?payout_none by done; cbn [emitted map sum_Z foldr payout]; rewrite ?Z.add_0_r.
  - apply register_cases in H as [[? _]|(r & bounty & Hadm & Hx & ->)]; [done|].
    unfold touches. cbn [reg_petitions set_entry set_global].
    destruct (decide (id = pr_petition_id r)) as [->|Hne].
    + rewrite (adm_fresh _ _ _ _ _ Hadm), lookup_insert_eq. split_and!; [done|done|].
      apply (sound_terms_eq r); [done|by eapply admitted_sound].
    + rewrite lookup_insert_ne by done.
      destruct (reg_petitions s !! id); [apply evolves_refl|done].
  - apply register_cases in H as [[_ ->]|(r & bounty & _ & -> & _)]; [|done].
    by apply touches_refl.
  - eapply publish_cases in H as [[? _]|H]; [done| |done].
    destruct H as (e & r & vh & lc & st & Hadv & Hst & _ & _ & ->).
    pose proof (touches_set now id s id0 e) as Ht.
    rewrite <-(Tauto.if_same (bool_decide (id0 = id)) 0).
    apply Ht; [apply Hadv|]. eapply evolves_same_state; [done|by rewrite Hst|done|done].
  - eapply publish_cases in H as [[_ Hq]|H]; [by eapply touches_quiet| |done].
    destruct H as (? & ? & ? & ? & ? & _ & _ & _ & -> & _). done.
  - apply dispute_cases in H as [[? _]|H]; [done|].
    destruct H as (e & r & tr & ti & rr & idt & lc & Hadv & Hst & _ & _ & _ & ->).
    pose proof (touches_set now id s (di_petition_id d) e) as Ht.
    rewrite <-(Tauto.if_same (bool_decide (di_petition_id d = id)) 0).
    apply Ht; [apply Hadv|]. eapply evolves_same_state; [done|by rewrite Hst|done|done].
  - apply dispute_cases in H as [[_ Hq]|H]; [by eapply touches_quiet|].
    destruct H as (? & ? & ? & ? & ? & ? & ? & _ & _ & _ & _ & -> & _). done.
  - eapply resolve_cases in H as [[? _]|H]; [done| |done].
    destruct H as (e & r & Hadv & Hst & _ & [= ->] & ->). cbn [snd].
    apply touches_set with (1 := proj1 Hadv).
    by eapply evolves_final.
  - eapply resolve_cases in H as [[_ Hq]|H]; [by eapply touches_quiet| |done].
    destruct H as (? & ? & _ & _ & _ & -> & _). done.
  - eapply unresolved_cases in H as [[? _]|H]; [done| |done..].
    destruct H as (e & r & Hadv & Hst & _ & [= ->] & ->). cbn [fst snd].
    assert (∀ a b, bounty_part id (mk_bounty_event id0 (pr_organizer r) (a - b))
      + bounty_part id (mk_bounty_event id0 caller b)
      = if bool_decide (id0 = id) then a else 0) as ->.
    { intros a b. unfold bounty_part. cbn. case_bool_decide; lia. }
    apply touches_set with (1 := proj1 Hadv).
    by eapply evolves_final.
  - eapply unresolved_cases in H as [[_ Hq]|H]; [by eapply touches_quiet| |done..].
    destruct H as (? & ? & _ & _ & _ & -> & _). done.
  - apply alpha_cases in H as [[? _]|[_ ->]]; [done|]. by apply touches_refl.
  - apply alpha_cases in H as [[_ ->]|[_ ->]]; by apply touches_refl.
Qed.

Lemma rinv_services G (s : Reg) p r b : rinv G s → rinv G (set_services s p r b).
Proof. intros []. by constructor. Qed.

Lemma rinv_global G (s : Reg) g :
  rinv G s → gs_s g = gs_s (reg_global s) → rinv G (set_global s g).
Proof. intros [] Hg. constructor; cbn; rewrite ?Hg; done. Qed.

(** Every call keeps the invariant of the registry. *)
Lemma call_rinv G c (s : Reg) res s' :
  rinv G s → call_typed c → faithful_call c s G → run_call c s = (res, s') →
  rinv (ghost_call c res G) s'.
Proof.
  intros Hs Hty Hfa H. destruct c; cbn [run_call call_typed faithful_call] in *;
    apply run_bind_inv in H as [(x & H & ->)|(Hf & res0 & Hf0 & H)]; cbn [ghost_call];
    try (destruct res as [ev|er|]; [done| |]; cbn [ghost_call]).
  - by eapply rinv_register.
  - apply register_cases in H as [[_ ->]|(r & bounty & _ & -> & _)]; done.
  - apply register_cases in H as [[_ ->]|(r & bounty & _ & -> & _)]; done.
  - assert (∃ recs, G !! id = Some recs) as [recs HG].
    { eapply publish_cases in H as [[? _]|H]; [done| |done].
      destruct H as (e & r & _ & _ & _ & [He _] & _).
      destruct (ri_entries _ _ Hs id e He) as (recs & HG & _). eauto. }
    rewrite HG. cbn [default]. by eapply rinv_publish.
  - eapply publish_cases in H as [[_ Hq]|H]; [by eapply rinv_quiet| |done].
    destruct H as (? & ? & ? & ? & ? & _ & _ & _ & -> & _). done.
  - eapply publish_cases in H as [[_ Hq]|H]; [by eapply rinv_quiet| |done].
    destruct H as (? & ? & ? & ? & ? & _ & _ & _ & -> & _). done.
  - by eapply rinv_dispute.
  - apply dispute_cases in H as [[_ Hq]|H]; [by eapply rinv_quiet|].
    destruct H as (? & ? & ? & ? & ? & ? & ? & _ & _ & _ & _ & -> & _). done.
  - apply dispute_cases in H as [[_ Hq]|H]; [by eapply rinv_quiet|].
    destruct H as (? & ? & ? & ? & ? & ? & ? & _ & _ & _ & _ & -> & _). done.
  - by eapply rinv_resolve.
  - eapply resolve_cases in H as [[_ Hq]|H]; [by eapply rinv_quiet| |done].
    destruct H as (? & ? & _ & _ & _ & -> & _). done.
  - eapply resolve_cases in H as [[_ Hq]|H]; [by eapply rinv_quiet| |done].
    destruct H as (? & ? & _ & _ & _ & -> & _). done.
  - by eapply rinv_unresolved.
  - eapply unresolved_cases in H as [[_ Hq]|H]; [by eapply rinv_quiet| |done..].
    destruct H as (? & ? & _ & _ & _ & -> & _). done.
  - eapply unresolved_cases in H as [[_ Hq]|H]; [by eapply rinv_quiet| |done..].
    destruct H as (? & ? & _ & _ & _ & -> & _). done.
  - apply alpha_cases in H as [[? _]|[_ ->]]; [done|]. by apply rinv_global.
  - apply alpha_cases in H as [[_ ->]|[_ ->]]; [done|]. by apply rinv_global.
  - apply alpha_cases in H as [[_ ->]|[_ ->]]; [done|]. by apply rinv_global.
Qed.

(** ** Runs *)
Definition settled (e : option PetitionEntry) : Z :=
  match e with
  | Some e => if is_final (pr_state (pe_record e)) then bounty_of (pe_record e) else 0
  | None => 0
  end.

Record run_inv (t : Z) (tr : list Event) (G : Ghost) (s : Reg) : Prop := {
  run_rinv : rinv G s;
  run_timely : ∀ id e, reg_petitions s !! id = Some e → timely t (pe_record e);
  run_terms : ∀ id e, reg_petitions s !! id = Some e → sound_terms (pe_record e);
  run_records : ∀ id recs, G !! id = Some recs → Forall (Forall record_ok) recs;
  run_paid : ∀ id, payouts id tr = settled (reg_petitions s !! id);
}.

Lemma timely_mono t t' r : t ≤ t' → timely t r → timely t' r.
Proof. intros Ht [H2 H4]. split; intros H; [specialize (H2 H)|specialize (H4 H)]; lia. Qed.

Lemma payouts_app id tr1 tr2 : payouts id (tr1 ++ tr2) = payouts id tr1 + payouts id tr2.
Proof.
  unfold payouts. rewrite map_app. induction (map (payout id) tr1) as [|x l IH]; cbn.
  - unfold sum_Z. done.
  - unfold sum_Z in *. cbn [foldr app]. lia.
Qed.

Lemma settled_evolves now paid e e' :
  evolves now paid e e' → settled (Some e') = settled (Some e) + paid.
Proof.
  intros [Ht Hr Hf -> _]. cbn [settled]. rewrite (bounty_of_terms _ _ Ht).
  destruct (is_final (pr_state (pe_record e))) eqn:He.
  - rewrite (Hf eq_refl), He. cbn. lia.
  - cbn. by destruct (is_final (pr_state (pe_record e'))).
Qed.

Lemma ghost_call_records (c : Call) (res : outcome RegistryError Event) (G : Ghost) :
  call_typed c → (∀ (id : list byte) recs, G !! id = Some recs → Forall (Forall record_ok) recs) →
  ∀ (id : list byte) recs, ghost_call c res G !! id = Some recs → Forall (Forall record_ok) recs.
Proof.
  intros Hty HG id recs. destruct c; cbn [ghost_call call_typed] in *; try apply HG.
  - destruct res as [[]| |]; try apply HG. rewrite lookup_insert_Some.
    intros [[<- <-]|[_ H]]; [done|by eapply HG].
  - destruct res as [ev| |]; try apply HG. rewrite lookup_insert_Some.
    intros [[<- <-]|[_ H]]; [|by eapply HG]. apply Forall_app. split; [|by constructor].
    destruct (G !! id0) as [recs0|] eqn:E; cbn [default]; [by eapply HG|done].
Qed.

Lemma reachable_run_inv t tr G (s : Reg) : reachable t tr G s → run_inv t tr G s.
Proof.
  induction 1 as [addr g p r b Hg|t tr G s p r b _ [Hr Ht Hs Hw Hp]
                 |t tr G s c res s' _ [Hr Ht Hs Hw Hp] Hle Hty Hfa Hc].
  - constructor; [|done..]. by constructor.
  - constructor; [by apply rinv_services|done..].
  - pose proof (λ id, call_touches G c s res s' id Hr Hty Hc) as Hto.
    constructor.
    + by eapply call_rinv.
    + intros id e' He'. specialize (Hto id). unfold touches in Hto. rewrite He' in Hto.
      destruct (reg_petitions s !! id) as [e|] eqn:He.
      * eapply ev_timely; [done|]. eapply timely_mono; [done|by eapply Ht].
      * destruct Hto as (_ & Hst & _). split; rewrite Hst; cbn; lia.
    + intros id e' He'. specialize (Hto id). unfold touches in Hto. rewrite He' in Hto.
      destruct (reg_petitions s !! id) as [e|] eqn:He; [|apply Hto].
      eapply sound_terms_eq; [by eapply ev_terms|by eapply Hs].
    + by apply ghost_call_records.
    + intros id. specialize (Hto id). unfold touches in Hto. rewrite payouts_app, Hp.
      destruct (reg_petitions s !! id) as [e|], (reg_petitions s' !! id) as [e'|].
      * symmetry. by eapply settled_evolves.
      * done.
      * destruct Hto as (-> & Hst & _). cbn. by rewrite Hst.
      * rewrite Hto. done.
Qed.

(** ** Reading the invariant *)
Lemma active_records_elem bs recs rs r :
  r ∈ active_records bs recs → Forall (λ x, Forall rs x) recs → rs r.
Proof.
  unfold active_records. intros Hr Hf. rewrite list_elem_of_In in Hr.
  apply in_concat in Hr as (x & Hx & Hr). apply in_map_iff in Hx as ([b x'] & <- & Hx).
  apply List.filter_In in Hx as [Hx _]. apply in_combine_r in Hx.
  rewrite !list.Forall_forall in Hf. specialize (Hf x' ltac:(by apply list_elem_of_In)).
  rewrite list.Forall_forall in Hf. apply Hf. by apply list_elem_of_In.
Qed.

Lemma entry_tally id e recs :
  entry_inv id e recs →
  let rs := active_records (pe_batches e) recs in
  NoDup (leaves_of rs) ∧ NoDup (tags_of rs) ∧
  Forall (λ r, re_class_tag r ∈ pr_class_set (pe_record e)) rs ∧
  values (imt_leaves (pe_running_imt e)) = fr_zero :: leaves_of rs.
Proof.
  intros He. cbn zeta. destruct (trees_of_wf _ _ _ (ei_trees _ _ _ He)) as (Hw1 & Hw2 & H1 & H2).
  pose proof (linked_NoDup _ (wf_linked _ Hw1)) as Hn1. rewrite H1 in Hn1.
  pose proof (linked_NoDup _ (wf_linked _ Hw2)) as Hn2. rewrite H2 in Hn2.
  apply list.NoDup_cons in Hn1 as [_ Hn1], Hn2 as [_ Hn2]. split_and!; try done.
  apply list.Forall_forall. intros r Hr.
  apply (active_records_elem _ _ (λ r, re_class_tag r ∈ pr_class_set (pe_record e)) _ Hr).
  eapply list.Forall_impl; [apply (ei_records _ _ _ He)|]. by intros x (_ & Hx & _).
Qed.

(** C1: no double counting.  In every reachable registry, the records counted
    for a petition, those of its batches that are not repudiated, have
    pairwise distinct leaves and pairwise distinct identity tags, carry
    classes of the petition, are as many as the stored leaf count, and are
    what the stored running root commits to.  Reachable: any calls,
    failed ones too, in order of block number, with the one condition that
    when a dispute is filed the carrier serves for the petition's batches the
    records they were published with. *)
Theorem no_double_counting t tr G (s : Reg) id e :
  reachable t tr G s → reg_petitions s !! id = Some e →
  ∃ recs, G !! id = Some recs ∧ length recs = length (pe_batches e) ∧
    let rs := active_records (pe_batches e) recs in
    NoDup (leaves_of rs) ∧ NoDup (tags_of rs) ∧
    Forall (λ r, re_class_tag r ∈ pr_class_set (pe_record e)) rs ∧
    pr_leaf_count (pe_record e) = Z.of_nat (length rs) ∧
    values (imt_leaves (pe_running_imt e)) = fr_zero :: leaves_of rs ∧
    (pr_state (pe_record e) ≠ Unresolved →
     pr_running_root (pe_record e) = imt_root (pe_running_imt e)).
Proof.
  intros [Hr _ _ _ _]%reachable_run_inv He. destruct (ri_entries _ _ Hr id e He) as (recs & HG & Hi).
  exists recs. destruct (entry_tally _ _ _ Hi) as (H1 & H2 & H3 & H4).
  cbn zeta. split_and!; [done|apply Hi|done|done|done|apply Hi|done|apply Hi].
Qed.

(** C2: the escrow is conserved.  Along every trace, what has been paid out of
    a petition's bounty is the whole bounty once the petition is resolved or
    unresolved, and nothing before: the refund and the rebate of an
    unresolved petition add up to the bounty, and no bounty is paid twice. *)
Theorem escrow_conserved t tr G (s : Reg) id :
  reachable t tr G s → payouts id tr = settled (reg_petitions s !! id).
Proof. intros H%reachable_run_inv. apply H. Qed.

(** C6: the lifecycle only moves forward.  Whatever the call and its result, a
    registered petition stays registered under the same terms, its state
    does not go back, and once resolved or unresolved nothing of it changes. *)
Theorem lifecycle_forward t tr G (s : Reg) c res s' id e :
  reachable t tr G s → call_typed c → run_call c s = (res, s') →
  reg_petitions s !! id = Some e →
  ∃ e', reg_petitions s' !! id = Some e' ∧ terms (pe_record e') = terms (pe_record e) ∧
    (rank (pr_state (pe_record e)) ≤ rank (pr_state (pe_record e')))%nat ∧
    (is_final (pr_state (pe_record e)) = true → e' = e).
Proof.
  intros [Hr _ _ _ _]%reachable_run_inv Hty Hc He.
  pose proof (call_touches _ _ _ _ _ id Hr Hty Hc) as Ht. unfold touches in Ht.
  rewrite He in Ht. destruct (reg_petitions s' !! id) as [e'|]; [|done].
  exists e'. destruct Ht. done.
Qed.

(** C7: slots are handed out once, and every registered petition has sound
    terms: a sorted, non-empty class set with one non-zero threshold per
    class, a slot below 2^24, a class-bound predicate whose binding names one
    of the classes, a bounty of at least alpha x 10 x thresholds x operations,
    and a signing window of at most 11.5 days. *)
Theorem registered_terms_sound t tr G (s : Reg) id e :
  reachable t tr G s → reg_petitions s !! id = Some e →
  sound_terms (pe_record e) ∧
  ∀ id' e', reg_petitions s !! id' = Some e' →
    pr_slot (pe_record e') = pr_slot (pe_record e) → id' = id.
Proof.
  intros [Hr _ Hs _ _]%reachable_run_inv He. split; [by eapply Hs|].
  intros id' e' He' Hslot. by eapply (ri_slots _ _ Hr).
Qed.

Lemma advanced_close now (s : Reg) id e r :
  advanced now s id e r → pr_close_at_block r = pr_close_at_block (pe_record e).
Proof. intros [_ [-> _]%step_record_shape]. done. Qed.

(** The windows.  At blocks that do not go back, a batch is accepted before
    the closing block only, a dispute between the end of the cooldown and the
    deadline only, a resolution from the deadline on, and the petition is
    given up only after the grace period: the phases never overlap. *)
Lemma windows t tr G (s : Reg) now id e :
  reachable t tr G s → t ≤ now → reg_petitions s !! id = Some e →
  let close := pr_close_at_block (pe_record e) in
  (∀ relayer sub ev s', publish_batch now id relayer sub s = (Ok ev, s') → now < close) ∧
  (∀ d ev s', di_petition_id d = id → dispute now d s = (Ok ev, s') →
     close + COOLDOWN_BLOCKS ≤ now < close + RESOLUTION_DEADLINE_BLOCKS) ∧
  (∀ resolver sub ev s', resolve now id resolver sub s = (Ok ev, s') →
     close + RESOLUTION_DEADLINE_BLOCKS ≤ now) ∧
  (∀ caller gas ev s', 0 ≤ gas → mark_unresolved now id caller gas s = (Ok ev, s') →
     close + RESOLUTION_DEADLINE_BLOCKS + MARK_UNRESOLVED_GRACE_BLOCKS ≤ now).
Proof.
  intros Hre Hle He close. apply reachable_run_inv in Hre as [Hr Ht _ _ _]. split_and!.
  - intros relayer sub ev s' H. eapply publish_cases in H as [[? _]|H]; [done| |done].
    destruct H as (e0 & r & _ & _ & _ & Hadv & Hst & _).
    pose proof (advanced_close _ _ _ _ _ Hadv) as Hc. destruct Hadv as [He0 Hstep].
    simplify_eq. unfold close. rewrite <-Hc. by eapply step_record_open.
  - intros d ev s' <- H. apply dispute_cases in H as [[? _]|H]; [done|].
    destruct H as (e0 & r & tr0 & ti & rr & idt & lc & Hadv & Hst & Hd & _).
    pose proof (dis_time _ _ _ _ _ _ Hd) as Hup. cbn [pe_record with_record] in Hup.
    pose proof (advanced_close _ _ _ _ _ Hadv) as Hc. destruct Hadv as [He0 Hstep].
    simplify_eq. unfold close. rewrite <-Hc. split; [|done].
    apply (step_record_timely now) in Hstep as [_ H4]; [apply H4; rewrite Hst; cbn; lia|].
    eapply timely_mono; [done|by eapply Ht].
  - intros resolver sub ev s' H. eapply resolve_cases in H as [[? _]|H]; [done| |done].
    destruct H as (e0 & r & Hadv & Hst & Hchk & _).
    pose proof (advanced_close _ _ _ _ _ Hadv) as Hc. destruct Hadv as [He0 _]. simplify_eq.
    unfold resolve_checked in Hchk. apply bind_Ok in Hchk as (dl & Hdl & Hchk).
    apply ok_or_Ok, checked_add_Some in Hdl as [-> _]. apply bind_Ok in Hchk as (u & Hu & _).
    apply ensure_Ok in Hu. reflect_bools. cbn [pe_record with_record] in Hu.
    unfold close. by rewrite <-Hc.
  - intros caller gas ev s' Hgas H. eapply unresolved_cases in H as [[? _]|H]; [done| |done..].
    destruct H as (e0 & r & Hadv & _ & Hdl & _).
    pose proof (advanced_close _ _ _ _ _ Hadv) as Hc. destruct Hadv as [He0 _]. simplify_eq.
    unfold close. by rewrite <-Hc.
Qed.

(** C5: a dispute undoes exactly the disputed batch and what came after it.  When
    the carrier serves what was published, the petition's roots, trees and
    count go back to the state the disputed batch recorded as its starting
    point; earlier batches are kept, later ones are repudiated. *)
Theorem dispute_restores_prior t tr G (s : Reg) now d ev s' :
  reachable t tr G s → faithful_call (CallDispute now d) s G →
  dispute now d s = (Ok ev, s') →
  let id := di_petition_id d in let k := Z.to_nat (di_batch_index d) in
  ∃ e e' b, reg_petitions s !! id = Some e ∧ reg_petitions s' !! id = Some e' ∧
    pe_batches e !! k = Some b ∧ is_active b = true ∧
    pr_running_root (pe_record e') = br_prior_running_root b ∧
    pr_identity_tag_set_root (pe_record e') = br_prior_identity_tag_set_root b ∧
    pr_leaf_count (pe_record e') = br_prior_leaf_count b ∧
    imt_root (pe_running_imt e') = br_prior_running_root b ∧
    imt_root (pe_identity_tag_imt e') = br_prior_identity_tag_set_root b ∧
    pe_batches e' = take k (pe_batches e) ++ map repudiate (drop k (pe_batches e)).
Proof.
  intros [Hr _ _ _ _]%reachable_run_inv Hfa H id k.
  apply dispute_cases in H as [[? _]|H]; [done|].
  destruct H as (e & r & tr0 & ti & rr & idt & lc & Hadv & Hst & Hd & Hrb & _ & ->).
  destruct Hd as [_ (b & Hb & Hact & _) _ (rs & Hfetch & Htrees)].
  destruct Hadv as [He _]. destruct (ri_entries _ _ Hr _ _ He) as (recs & HG & Hei).
  cbn [pe_batches with_record] in Hb, Hfetch. fold k in Hb, Hfetch, Hrb |- *. fold id.
  pose proof (faithful_prefix s e recs k rs (Hfa e recs He HG) (ei_len _ _ _ Hei) Hfetch) as ->.
  rewrite (roll_back_prefix s _ e recs k tr0 ti (ri_empty _ _ Hr) Hei Htrees) in Hrb.
  destruct (ei_prior _ _ _ Hei k b Hb Hact) as (tr1 & ti1 & Htr1 & Hp1 & Hp2 & Hp3).
  rewrite Htrees in Htr1. apply (inj Ok) in Htr1. injection Htr1 as <- <-.
  injection Hrb as <- <- <-. eexists e, _, b. split; [done|].
  split; [apply lookup_insert_eq|]. cbn [pe_record pe_batches pe_running_imt
    pe_identity_tag_imt set_roots pr_running_root pr_identity_tag_set_root pr_leaf_count].
  split_and!; congruence.
Qed.

(** C8: no bounty is stuck.  Past the deadline and its grace period, anyone can
    give up a petition that is not final, whatever happened before: the call
    succeeds, and refunds the organizer all but at most one percent. *)
Theorem unresolved_always_possible t tr G (s : Reg) now id e caller gas_rebate :
  reachable t tr G s → reg_petitions s !! id = Some e →
  is_final (pr_state (pe_record e)) = false → 0 ≤ gas_rebate →
  let deadline := pr_close_at_block (pe_record e) + RESOLUTION_DEADLINE_BLOCKS
                  + MARK_UNRESOLVED_GRACE_BLOCKS in
  deadline ≤ now → deadline < 2 ^ 64 →
  ∃ refund rebate s' e', mark_unresolved now id caller gas_rebate s
      = (Ok (mk_unresolved_event id, mk_bounty_event id (pr_organizer (pe_record e)) refund,
             mk_bounty_event id caller rebate), s') ∧
    refund + rebate = bounty_of (pe_record e) ∧ 0 ≤ rebate ∧
    100 * rebate ≤ bounty_of (pe_record e) ∧
    reg_petitions s' !! id = Some e' ∧ pr_state (pe_record e') = Unresolved.
Proof.
  intros [Hr _ _ _ _]%reachable_run_inv He Hfin Hgas deadline Hnow Hfit.
  assert (0 ≤ MARK_UNRESOLVED_GRACE_BLOCKS ∧ COOLDOWN_BLOCKS ≤ RESOLUTION_DEADLINE_BLOCKS)
    as [Hg Hcd] by done.
  assert (step_record now (pe_record e) = Ok (set_state (pe_record e) DisputeWindow)) as Hstep.
  { rewrite step_record_lifecycle by lia. do 2 f_equal. unfold lifecycle.
    assert (0 ≤ COOLDOWN_BLOCKS) by done.
    destruct (pr_state (pe_record e)); try done;
      rewrite ?(proj2 (Z.ltb_ge _ _)) by lia; done. }
  assert (advanced now s id e (set_state (pe_record e) DisputeWindow)) as Hadv by done.
  pose proof (unresolved_total _ _ _ caller gas_rebate _ _ _ Hr Hadv eq_refl Hgas Hnow Hfit) as Hok.
  destruct (mark_unresolved now id caller gas_rebate s) as [res s'] eqn:H.
  eapply unresolved_cases in H as [[Hf _]|H]; [cbn in Hok; congruence| |done..].
  destruct H as (e0 & r & [He0 Hr0] & Hst & _ & -> & ->). simplify_eq.
  rewrite Hstep in Hr0. apply (inj Ok) in Hr0 as <-.
  assert (0 ≤ bounty_of (pe_record e)) by apply be_to_Z_range.
  pose proof (Z.mul_div_le (bounty_of (pe_record e)) 100).
  pose proof (Z.div_pos (bounty_of (pe_record e)) 100).
  eexists _, _, _, _. split; [reflexivity|]. cbn [set_state pr_bounty].
  change (bounty_of (set_state (pe_record e) DisputeWindow)) with (bounty_of (pe_record e)).
  split_and!; [lia|lia|lia|apply lookup_insert_eq|done].
Qed.
End traces.
