(* ===== verification/RegistryTotal.v ===== *)
(** * Totality of the registry

    The registry never panics: no index, no [expect] and no overflowing
    addition of its methods is ever reached with a bad argument, in any
    reachable state and for any well-typed call, as long as block numbers
    leave room for the cooldown.  The lifecycle loop stops, and the bounty
    floor is computed exactly or refused. *)

From Stdlib Require Import ZArith Lia Bool.
From stdpp Require Import base tactics list gmap strings numbers.
From S2P Require Import Prelude Field Types Predicate Poseidon Imt Records Blob Ports Organizer Disputant Registry RegistryInv RegistryRun RegistryTrace.

(** ** Panics of a method *)
Section methods.
Context {S E : Type}.

Lemma M_bind_Panic {A B} (m : M S E A) (f : A → M S E B) s s' :
  (m ≫= f) s = (Panic, s') →
  m s = (Panic, s') ∨ ∃ a s1, m s = (Ok a, s1) ∧ f a s1 = (Panic, s').
Proof.
  unfold mbind, M_bind. destruct (m s) as [[a|e|] s1]; [|done|].
  - right. by exists a, s1.
  - intros [= ->]. by left.
Qed.

Lemma mlift_run {A} (o : outcome E A) (s s' : S) r : mlift o s = (r, s') → o = r ∧ s = s'.
Proof. by intros [= -> ->]. Qed.

Lemma mget_run (s s' a : S) : @mget S E s = (Ok a, s') → a = s ∧ s' = s.
Proof. by intros [= <- <-]. Qed.

Lemma mput_run (s s' s1 : S) u : @mput S E s1 s = (Ok u, s') → s' = s1.
Proof. by intros [= _ <-]. Qed.
End methods.

Lemma ok_or_no_panic {E A} (o : option A) (e : E) : ok_or o e ≠ Panic.
Proof. by destruct o. Qed.

(** Walks a method assumed to panic, statement by statement. *)
Ltac no_panic_M :=
  repeat match goal with
  | H : (_ ≫= _) _ = (Panic, _) |- _ => apply M_bind_Panic in H as [H|(? & ? & ? & H)]
  | H : mlift _ _ = (_, _) |- _ => apply mlift_run in H as [H ?]; subst
  | H : mget _ = (Ok _, _) |- _ => apply mget_run in H as [? ?]; subst
  | H : mput _ _ = (Ok _, _) |- _ => apply mput_run in H; subst
  | H : mget _ = (Panic, _) |- _ => discriminate H
  | H : mput _ _ = (Panic, _) |- _ => discriminate H
  | H : mret _ _ = (Panic, _) |- _ => discriminate H
  | H : (let '(_, _) := ?x in _) _ = (Panic, _) |- _ => destruct x
  | H : ok_or _ _ = Panic |- _ => by apply ok_or_no_panic in H
  | H : petition _ _ = Panic |- _ => by apply ok_or_no_panic in H
  | H : ensure _ _ = Panic |- _ => by apply ensure_no_panic in H
  end.

(** ** Loops that keep an invariant *)
Lemma for_each_keeps_no_panic {E A St} (I : St → Prop) (f : St → A → outcome E St) s l :
  I s → (∀ s a s', I s → f s a = Ok s' → I s') → (∀ s a, I s → f s a ≠ Panic) →
  for_each f s l ≠ Panic.
Proof.
  intros HI Hk Hp. revert s HI; induction l as [|a l IH]; intros s HI; cbn; [done|].
  intros [H|(s' & H & H')]%bind_Panic; [by eapply Hp|]. eapply IH; [|done]. by eapply Hk.
Qed.

Lemma for_eachi_at_no_panic {E A St} (f : nat → St → A → outcome E St) i s l :
  (∀ k s a, l !! k = Some a → f (i + k)%nat s a ≠ Panic) → for_eachi_from i f s l ≠ Panic.
Proof.
  revert i s; induction l as [|a l IH]; intros i s Hf; cbn; [done|].
  intros [H|(s' & H & H')]%bind_Panic.
  - specialize (Hf 0%nat s a). rewrite Nat.add_0_r in Hf. by apply Hf.
  - eapply IH; [|done]. intros k s2 b Hb. rewrite Nat.add_succ_comm. by apply Hf.
Qed.

(** ** The predicate functions [register] calls *)
Lemma taint_no_panic os b : evaluate_class_binding_taint os b ≠ Panic.
Proof.
  unfold evaluate_class_binding_taint. intros [H|(st & _ & H)]%bind_Panic.
  - revert H. apply for_eachi_from_no_panic. intros i s op _. unfold taint_step.
    destruct (code op); try case_bool_decide; try done; destruct s as [|x [|y s]]; done.
  - by destruct st as [|x [|y st]].
Qed.

Lemma positions_filter {A} (f : A → bool) l :
  positions f l ≠ [] → (0 < length (List.filter f l))%nat.
Proof.
  intros H. destruct (positions f l) as [|i ps] eqn:Hp; [done|].
  assert (i ∈ positions f l) as Hi by (rewrite Hp; left).
  apply elem_of_positions in Hi as (a & Ha & Hf).
  assert (a ∈ List.filter f l) as Hin.
  { apply list_elem_of_In, List.filter_In. split; [|done].
    apply list_elem_of_In. by eapply list_elem_of_lookup_2. }
  destruct (List.filter f l); [by apply not_elem_of_nil in Hin|]. cbn. lia.
Qed.

Lemma find_class_binding_no_panic d ci : find_class_binding_operand d ci ≠ Panic.
Proof.
  unfold find_class_binding_operand. destruct (positions _ _) as [|i ps] eqn:Hp; [done|].
  intros [H|(tag & _ & H)]%bind_Panic; [by apply taint_no_panic in H|].
  destruct tag; [|done..]. revert H. apply index_no_panic. rewrite length_map.
  apply positions_filter. by rewrite Hp.
Qed.

Lemma canonical_scalars_no_panic enc : canonical_scalars enc ≠ Panic.
Proof.
  destruct (Nat.leb_spec (length enc) 1024) as [Hl|Hl].
  - by rewrite canonical_scalars_spec.
  - unfold canonical_scalars. apply Nat.leb_gt in Hl.
    by replace (length enc <=? PREDICATE_BYTES_MAX)%nat with false.
Qed.

(** ** The lifecycle loop *)
Lemma next_state_no_panic block r :
  ((2 ≤ rank (pr_state r))%nat → pr_close_at_block r ≤ block) →
  block + COOLDOWN_BLOCKS < 2 ^ 64 → next_state block r ≠ Panic.
Proof.
  intros Hc Hb. unfold next_state. destruct (pr_state r); cbn [rank] in Hc; try done.
  assert (pr_close_at_block r ≤ block) by (apply Hc; lia).
  rewrite expect_bind with (a := pr_close_at_block r + COOLDOWN_BLOCKS); [done|].
  apply checked_add_Some. lia.
Qed.

Lemma advance_state_no_panic f block r :
  ((2 ≤ rank (pr_state r))%nat → pr_close_at_block r ≤ block) →
  block + COOLDOWN_BLOCKS < 2 ^ 64 → advance_state f block r ≠ Panic.
Proof.
  intros Hc Hb. revert r Hc; induction f as [|f IH]; intros r Hc; cbn [advance_state]; [done|].
  intros [H|(n & Hn & H)]%bind_Panic; [by eapply next_state_no_panic|].
  destruct n as [st|]; [|done]. revert H. apply IH. intros Hr.
  cbn [pr_state set_state pr_close_at_block] in *. unfold next_state in Hn.
  destruct (pr_state r); cbn [rank] in *;
    [apply (inj Ok) in Hn; simplify_eq; cbn in Hr; lia|
     apply (inj Ok) in Hn; case_match; reflect_bools; simplify_eq; done|apply Hc; lia..].
Qed.

(** More rounds change nothing. *)
Lemma advance_state_more f f' block r :
  (5 ≤ rank (pr_state r) + f)%nat → (f ≤ f')%nat →
  advance_state f' block r = advance_state f block r.
Proof.
  revert f' r; induction f as [|f IH]; intros f' r Hf Hle; cbn [advance_state].
  - destruct f' as [|f']; [done|]. apply advance_none, next_state_final.
    destruct (pr_state r); cbn in Hf; auto; lia.
  - destruct f' as [|f']; [lia|]. cbn [advance_state].
    destruct (next_state block r) as [[st|]| |] eqn:Hn; [|done..].
    cbn [mbind outcome_bind]. apply IH; [|lia].
    destruct (next_state_rank _ _ _ Hn). cbn [pr_state set_state]. lia.
Qed.

Section totality.
Context `{C : Crypto} {P R B : Type} {L : CryptoLaws C}.
Context {PB : ProofBackend P} {RI : RiCredentialLayer R} {BC : BlobCarrier B}.

Abbreviation Reg := (PetitionRegistry P R B).

(** The services the registry calls report failures as errors. *)
Record calm (s : Reg) : Prop := {
  calm_batch : ∀ proof pub, verify_batch_proof (reg_proof_backend s) proof pub ≠ Panic;
  calm_resolution : ∀ proof pub,
    verify_resolution_proof (reg_proof_backend s) proof pub ≠ Panic;
  calm_verify : ∀ vh o, blob_verify (reg_blob_carrier s) vh o ≠ Panic;
  calm_fetch : ∀ vh, blob_fetch_records (reg_blob_carrier s) vh ≠ Panic;
}.

Lemma calm_set_entry (s : Reg) id e : calm s → calm (set_entry s id e).
Proof. intros [H1 H2 H3 H4]. by constructor. Qed.

Lemma register_checked_no_panic now (s : Reg) draft : register_checked now s draft ≠ Panic.
Proof.
  unfold register_checked. no_panic;
    repeat match goal with
    | H : ok_or _ _ = Panic |- _ => by apply ok_or_no_panic in H
    | H : validate _ = Panic |- _ => by apply validate_no_panic in H
    | H : find_class_binding_operand _ _ = Panic |- _ =>
        by apply find_class_binding_no_panic in H
    | H : canonical_scalars _ = Panic |- _ => by apply canonical_scalars_no_panic in H
    end.
  - unfold encode in *. no_panic. by eapply validate_no_panic.
  - unfold bounty_floor in *. no_panic; [|by apply ok_or_no_panic in H..].
    revert H. apply for_each_no_panic. intros a t _. apply ok_or_no_panic.
  - unfold u256_to_u128 in *. no_panic.
Qed.

(** ** Insertions into well-formed trees *)
Lemma imt_insert_no_panic t v : wf t → imt_insert t v ≠ Panic.
Proof.
  intros Hwf Hp. destruct (imt_insert_cases t v Hwf) as [Hc _]. rewrite Hp in Hc.
  cbn in Hc. unfold abs_insert in Hc. repeat case_match; done.
Qed.

Definition scratch_wf (st : Scratch) : Prop :=
  wf (sc_running_imt st) ∧ wf (sc_identity_tag_imt st).

Lemma replay_record_no_panic cs st rec : scratch_wf st → replay_record cs st rec ≠ Panic.
Proof.
  intros [H1 H2]. unfold replay_record. no_panic; [by apply imt_insert_no_panic in H|].
  case_match. no_panic; [by apply imt_insert_no_panic in H|]. by case_match.
Qed.

Lemma replay_record_wf cs st rec st' :
  scratch_wf st → replay_record cs st rec = Ok st' → scratch_wf st'.
Proof.
  intros [H1 H2] H. unfold replay_record in H. inv_ok H. destruct a1 as [w1 t1]. inv_ok H.
  destruct a1 as [w2 t2]. inv_ok H. split; cbn [sc_running_imt sc_identity_tag_imt].
  - by eapply (imt_insert_wf (sc_running_imt st)).
  - by eapply (imt_insert_wf (sc_identity_tag_imt st)).
Qed.

Definition trees_wf (st : IndexedMerkleTree * IndexedMerkleTree) : Prop := wf st.1 ∧ wf st.2.

Lemma rebuild_record_no_panic st rec : trees_wf st → rebuild_record st rec ≠ Panic.
Proof.
  destruct st as [tr ti]. intros [H1 H2]. unfold rebuild_record. no_panic;
    [by apply imt_insert_no_panic in H|].
  case_match. no_panic; [by apply imt_insert_no_panic in H|]. by case_match.
Qed.

Lemma rebuild_keeps_wf st rec st' : trees_wf st → rebuild_record st rec = Ok st' → trees_wf st'.
Proof.
  destruct st as [tr ti], st' as [tr' ti']. intros [H1 H2] H. unfold rebuild_record in H.
  inv_ok H. destruct a as [w1 t1]. inv_ok H. destruct a as [w2 t2]. inv_ok H.
  simplify_eq. split; cbn [fst snd].
  - by eapply (imt_insert_wf tr).
  - by eapply (imt_insert_wf ti).
Qed.

(** ** The checks of each method *)
Lemma fr_to_u64_no_panic x : fr_to_u64 x ≠ Panic.
Proof. unfold fr_to_u64. no_panic. Qed.
Lemma u256_to_u128_no_panic v : u256_to_u128 v ≠ Panic.
Proof. unfold u256_to_u128. no_panic. Qed.

Lemma publish_checked_no_panic (s : Reg) e sub :
  calm s → wf (pe_running_imt e) → wf (pe_identity_tag_imt e) →
  publish_checked s e sub ≠ Panic.
Proof.
  intros Hs H1 H2. unfold publish_checked. no_panic;
    repeat match goal with
    | H : ok_or _ _ = Panic |- _ => by apply ok_or_no_panic in H
    | H : fr_to_u64 _ = Panic |- _ => by apply fr_to_u64_no_panic in H
    | H : verify_batch_proof _ _ _ = Panic |- _ => by apply (calm_batch _ Hs) in H
    end.
  - unfold encode_blob in *. no_panic.
  - match goal with H : for_each _ _ _ = Panic |- _ => revert H end.
    apply (for_each_keeps_no_panic scratch_wf); [done|apply replay_record_wf|].
    intros; by apply replay_record_no_panic.
Qed.

Lemma violation_holds_no_panic cs d : violation_holds cs d ≠ Panic.
Proof.
  unfold violation_holds. no_panic; [by apply ok_or_no_panic in H|].
  destruct (di_violation_type d); no_panic; by apply ok_or_no_panic in H.
Qed.

Lemma dispute_checked_no_panic now (s : Reg) e st d :
  calm s → dispute_checked now s e st d ≠ Panic.
Proof.
  intros Hs. unfold dispute_checked. no_panic;
    repeat match goal with
    | H : ok_or _ _ = Panic |- _ => by apply ok_or_no_panic in H
    | H : violation_holds _ _ = Panic |- _ => by apply violation_holds_no_panic in H
    end; match goal with H : _ = Panic |- _ => revert H end.
  - apply for_each_no_panic. intros u o _. rewrite map_err_Panic. apply (calm_verify _ Hs).
  - unfold fetch_all. apply for_each_no_panic. intros acc vh _. no_panic.
    by apply (calm_fetch _ Hs) in H.
  - apply (for_each_keeps_no_panic trees_wf); [|apply rebuild_keeps_wf|].
    + split; apply imt_new_wf.
    + intros; by apply rebuild_record_no_panic.
Qed.

Lemma resolve_checked_no_panic now (s : Reg) e st sub :
  calm s → length (pr_class_thresholds (pe_record e)) = length (pr_class_set (pe_record e)) →
  resolve_checked now s e st sub ≠ Panic.
Proof.
  intros Hs Hl. unfold resolve_checked. no_panic;
    repeat match goal with
    | H : ok_or _ _ = Panic |- _ => by apply ok_or_no_panic in H
    | H : fr_to_u64 _ = Panic |- _ => by apply fr_to_u64_no_panic in H
    | H : verify_resolution_proof _ _ _ = Panic |- _ => by apply (calm_resolution _ Hs) in H
    end.
  match goal with H : for_eachi _ _ _ = Panic |- _ => revert H end. unfold for_eachi.
  apply for_eachi_at_no_panic. intros k u c Hc%lookup_lt_Some. cbn [Nat.add].
  reflect_bools. no_panic.
Qed.

(** ** Whole methods *)
Lemma step_state_no_panic t tr G (s : Reg) now id s' :
  run_inv t tr G s → t ≤ now → now + COOLDOWN_BLOCKS < 2 ^ 64 →
  step_state now id s ≠ (Panic, s').
Proof.
  intros Hi Ht Hb H. unfold step_state, petition in H.
  destruct (reg_petitions s !! id) as [e|] eqn:He; cbn [ok_or] in H; [|done].
  destruct (step_record now (pe_record e)) as [r|er|] eqn:Hr; [done..|].
  revert Hr. apply advance_state_no_panic; [|done].
  intros Hk. apply (proj1 (run_timely _ _ _ _ Hi id e He)) in Hk. lia.
Qed.

(** The entry a method works on after the lifecycle step. *)
Lemma entered t tr G (s s1 : Reg) now id st x :
  run_inv t tr G s → calm s → step_state now id s = (Ok st, s1) → petition s1 id = Ok x →
  calm s1 ∧ wf (pe_running_imt x) ∧ wf (pe_identity_tag_imt x) ∧
  length (pr_class_thresholds (pe_record x)) = length (pr_class_set (pe_record x)).
Proof.
  intros Hi Hs H Hx. unfold step_state in H.
  destruct (petition s id) as [e| |] eqn:He; [|done..]. apply petition_Ok in He.
  destruct (step_record now (pe_record e)) as [r| |] eqn:Hr; [|done..].
  injection H as _ <-. rewrite petition_set in Hx. apply (inj Ok) in Hx as <-.
  destruct (ri_entries _ _ (run_rinv _ _ _ _ Hi) id e He) as (recs & _ & Hinv).
  destruct (trees_of_wf _ _ _ (ei_trees _ _ _ Hinv)) as (H1 & H2 & _).
  split_and!; [by apply calm_set_entry|done|done|]. cbn [pe_record with_record].
  destruct (step_record_shape _ _ _ Hr) as [-> _].
  apply (st_thresholds _ (run_terms _ _ _ _ Hi id e He)).
Qed.

Ltac enter Hi Hs :=
  match goal with
  | H0 : step_state _ _ _ = (Ok _, _), H1 : petition _ _ = Ok _ |- _ =>
      destruct (entered _ _ _ _ _ _ _ _ _ Hi Hs H0 H1) as (? & ? & ? & ?)
  end.

Lemma register_no_panic now draft (s s' : Reg) :
  now + COOLDOWN_BLOCKS < 2 ^ 64 → register now draft s ≠ (Panic, s').
Proof.
  intros Hb H. unfold register in H. no_panic_M; [by apply register_checked_no_panic in H|].
  match goal with Hr : register_checked _ _ _ = Ok (?x, _) |- _ =>
    rename x into r; apply register_checked_Ok in Hr as Hadm end.
  destruct (adm_initial _ _ _ _ _ Hadm) as (Hst & _).
  unfold step_state in H. rewrite petition_set in H. cbn [pe_record] in H.
  destruct (step_record now r) as [r'|er|] eqn:Hr; [done..|].
  revert Hr. apply advance_state_no_panic; [|done]. rewrite Hst. cbn. lia.
Qed.

Lemma publish_no_panic t tr G (s s' : Reg) now id relayer sub :
  run_inv t tr G s → calm s → t ≤ now → now + COOLDOWN_BLOCKS < 2 ^ 64 →
  publish_batch now id relayer sub s ≠ (Panic, s').
Proof.
  intros Hi Hs Ht Hb H. unfold publish_batch in H. no_panic_M;
    [by eapply step_state_no_panic| |no_panic].
  enter Hi Hs. by apply publish_checked_no_panic in H.
Qed.

Lemma dispute_no_panic t tr G (s s' : Reg) now d :
  run_inv t tr G s → calm s → t ≤ now → now + COOLDOWN_BLOCKS < 2 ^ 64 →
  dispute now d s ≠ (Panic, s').
Proof.
  intros Hi Hs Ht Hb H. unfold dispute in H. no_panic_M;
    [by eapply step_state_no_panic|].
  enter Hi Hs. by apply dispute_checked_no_panic in H.
Qed.

Lemma resolve_no_panic t tr G (s s' : Reg) now id resolver sub :
  run_inv t tr G s → calm s → t ≤ now → now + COOLDOWN_BLOCKS < 2 ^ 64 →
  resolve now id resolver sub s ≠ (Panic, s').
Proof.
  intros Hi Hs Ht Hb H. unfold resolve in H. no_panic_M;
    [by eapply step_state_no_panic| |by apply u256_to_u128_no_panic in H].
  enter Hi Hs. by apply resolve_checked_no_panic in H.
Qed.

Lemma unresolved_no_panic t tr G (s s' : Reg) now id caller gas :
  run_inv t tr G s → 0 ≤ gas → t ≤ now → now + COOLDOWN_BLOCKS < 2 ^ 64 →
  mark_unresolved now id caller gas s ≠ (Panic, s').
Proof.
  intros Hi Hg Ht Hb H. unfold mark_unresolved in H. no_panic_M;
    [by eapply step_state_no_panic| |].
  - unfold unresolved_checked in H. no_panic; [by apply ok_or_no_panic in H|].
    by apply u256_to_u128_no_panic in H.
  - match goal with Hu : unresolved_checked _ _ _ = Ok ?x |- _ =>
      rename x into total; unfold unresolved_checked in Hu; inv_ok Hu;
      apply u256_to_u128_Ok in Hu as [_ Hu] end.
    assert (0 ≤ total) as Hr by (subst total; apply be_to_Z_range).
    assert (gas `min` (total / 100) ≤ total) as Hle.
    { apply Z.le_trans with (total / 100); [lia|]. apply Z.div_le_upper_bound; lia. }
    revert H. by rewrite (proj2 (checked_sub_Some _ _ _) (conj eq_refl Hle)).
Qed.

(** C9: the registry never panics.  In every reachable state, with services that
    report their failures as errors, no call, whatever its arguments, makes
    the registry panic: no index out of range, no failed [expect], no
    overflowing sum, as long as the block number leaves room for the
    cooldown. *)
Theorem registry_never_panics t tr G (s : Reg) c res s' :
  reachable t tr G s → calm s → call_typed c →
  t ≤ call_block c → call_block c + COOLDOWN_BLOCKS < 2 ^ 64 →
  run_call c s = (res, s') → res ≠ Panic.
Proof.
  intros Hi%reachable_run_inv Hs Hty Ht Hb H ->.
  destruct c; cbn [run_call call_block call_typed] in *; no_panic_M.
  - by eapply register_no_panic.
  - by eapply publish_no_panic.
  - by eapply dispute_no_panic.
  - by eapply resolve_no_panic.
  - by eapply unresolved_no_panic.
  - unfold update_alpha in H. no_panic_M.
Qed.
End totality.

(** The lifecycle loop of [step_state] terminates.  It has no bound in the
    source; five rounds always reach the exit, so every larger bound computes
    the same: the state the closed form [lifecycle] names for that block, at
    which no transition is due, and stepping again changes nothing. *)
Lemma lifecycle_loop_terminates fuel block r :
  (5 ≤ fuel)%nat → pr_close_at_block r + COOLDOWN_BLOCKS < 2 ^ 64 →
  let r' := set_state r (lifecycle block (pr_close_at_block r) (pr_state r)) in
  advance_state fuel block r = Ok r' ∧ next_state block r' = Ok None ∧
  step_record block r = Ok r' ∧ step_record block r' = Ok r'.
Proof.
  intros Hf Hov r'. pose proof (step_record_lifecycle block r Hov) as Hs. fold r' in Hs.
  assert (next_state block r' = Ok None) as Hn by by eapply step_record_stops.
  split_and!; [|done|done|by apply advance_none].
  rewrite <-Hs. unfold step_record.
  rewrite (advance_state_more 5 fuel), (advance_state_more 5 7); [done|lia..].
Qed.

(** ** The bounty floor *)
Record draft_typed (draft : PetitionDraft) : Prop := {
  dt_thresholds : Forall (λ t, 0 ≤ t < 2 ^ 64) (pd_class_thresholds draft);
  dt_classes : Forall (λ c, 0 ≤ c < 2 ^ 16) (pd_class_set draft);
}.

Lemma strictly_increasing_short n a l :
  strictly_increasing (a :: l) = true → Forall (λ c, 0 ≤ c < n) (a :: l) →
  a + Z.of_nat (length l) < n.
Proof.
  revert a; induction l as [|b l IH]; intros a Hs [Ha Hl]%list.Forall_cons.
  { cbn. lia. }
  cbn [strictly_increasing] in Hs. apply andb_true_iff in Hs as [Hab Hs]. reflect_bools.
  specialize (IH b Hs Hl). cbn [length]. lia.
Qed.

Lemma sum_Z_bound m ts :
  Forall (λ t, 0 ≤ t < m) ts → 0 ≤ sum_Z ts ≤ Z.of_nat (length ts) * m.
Proof.
  induction 1 as [|t ts Ht _ IH]; [cbn; lia|].
  change (sum_Z (t :: ts)) with (t + sum_Z ts). cbn [length]. lia.
Qed.

Lemma threshold_sum_exact acc ts :
  0 ≤ acc → Forall (λ t, 0 ≤ t < 2 ^ 64) ts → acc + sum_Z ts < 2 ^ 128 →
  for_each (λ acc t, ok_or (checked_add 128 acc t) (malformed "class_thresholds sum overflow"))
    acc ts = Ok (acc + sum_Z ts).
Proof.
  intros Ha Ht Hs. revert acc Ha Hs; induction Ht as [|t ts H Ht IH]; intros acc Ha Hs.
  { cbn. f_equal. lia. }
  change (sum_Z (t :: ts)) with (t + sum_Z ts) in *. cbn [for_each].
  pose proof (proj1 (sum_Z_bound _ _ Ht)).
  rewrite (ok_or_bind _ _ (acc + t)) by (apply checked_add_Some; lia).
  rewrite IH; [f_equal|..]; lia.
Qed.

Lemma op_count_pos d : validate d = Ok tt → 1 ≤ Z.of_nat (op_count d).
Proof. unfold validate, op_count. intros H. inv_ok H. reflect_bools. lia. Qed.

(** C32: the bounty floor is exact.  For a draft of the wire's integer widths that
    passed the checks on its predicate and its classes, the two intermediate overflow errors
    cannot occur: the result is the exact product alpha x 10 x thresholds x
    operations when it fits 128 bits, and the final overflow error, never a
    wrapped value, when it does not. *)
Theorem bounty_floor_exact alpha draft :
  draft_typed draft → 0 ≤ alpha < 2 ^ 64 → validate (pd_predicate_def draft) = Ok tt →
  strictly_increasing (pd_class_set draft) = true →
  length (pd_class_thresholds draft) = length (pd_class_set draft) →
  let floor := alpha * (sum_Z (pd_class_thresholds draft) * 10)
               * Z.of_nat (op_count (pd_predicate_def draft)) in
  bounty_floor alpha draft
  = if floor <? 2 ^ 128 then Ok floor else Err (malformed "B_min overflow").
Proof.
  intros [Ht Hc] Ha Hv Hs Hl floor. pose proof (sum_Z_bound _ _ Ht) as Hsum. rewrite Hl in Hsum.
  assert (Z.of_nat (length (pd_class_set draft)) ≤ 2 ^ 16) as Hlen.
  { destruct (pd_class_set draft) as [|c cs]; [done|].
    pose proof (strictly_increasing_short _ _ _ Hs Hc). apply list.Forall_cons in Hc as [Hc _].
    cbn [length]. lia. }
  assert (sum_Z (pd_class_thresholds draft) ≤ 2 ^ 80) as Hsmall.
  { change (2 ^ 80) with (2 ^ 16 * 2 ^ 64). nia. }
  unfold bounty_floor. rewrite threshold_sum_exact by (done || lia).
  rewrite Ok_bind, Z.add_0_l.
  set (sum := sum_Z (pd_class_thresholds draft)) in *.
  rewrite (ok_or_bind _ _ (sum * 10)) by (apply checked_mul_Some; lia).
  set (n := Z.of_nat (op_count (pd_predicate_def draft))) in *.
  assert (1 ≤ n) as Hn by (subst n; by apply op_count_pos).
  change floor with (alpha * (sum * 10) * n). unfold checked_mul.
  destruct (Z.ltb_spec (alpha * (sum * 10)) (2 ^ 128)) as [H1|H1]; cbn [mbind option_bind].
  - by destruct (_ <? 2 ^ 128).
  - destruct (Z.ltb_spec (alpha * (sum * 10) * n) (2 ^ 128)); [nia|done].
Qed.
