(* ===== verification/OrganizerOk.v ===== *)
(** * Drafts of the organizer at the registry

    Which of the registry's checks an organizer's draft has already passed, and
    exactly which remain: the draft registers if and only if those hold. *)

From Stdlib Require Import ZArith Lia Bool.
From stdpp Require Import base tactics list gmap strings numbers.
From S2P Require Import Prelude Field Types Predicate Poseidon Imt Records Blob Ports Organizer Disputant Registry RegistryInv RegistryRun RegistryTrace RegistryTotal.

Section organizer_ok.
Context `{C : Crypto} {P R B : Type}.
Context {PB : ProofBackend P} {RI : RiCredentialLayer R} {BC : BlobCarrier B}.

Abbreviation Reg := (PetitionRegistry P R B).

(** The identifier [register] derives for a draft. *)
Definition draft_id (s : Reg) (draft : PetitionDraft) : outcome PredicateError (list byte) :=
  canonical ← canonical_scalars (encode_bytes (pd_predicate_def draft));
  Ok (derive_petition_id (gs_chain_id (reg_global s)) (reg_address s) (pd_organizer draft)
        (gs_s (reg_global s))
        (fr_to_be_bytes (hash_predicate canonical (fr_of_Z 0) (fr_from_be_bytes (pd_salt draft))))
        (pd_close_at_block draft)).

(** What the registry asks of a draft beyond the organizer's own checks. *)
Record ready (now : Z) (s : Reg) (draft : PetitionDraft) : Prop := {
  rd_thresholds : 0 ∉ pd_class_thresholds draft;
  rd_index : byte_Z (pd_class_index draft) < byte_Z (gs_n (reg_global s));
  rd_root : ∃ seen, ri_root_first_seen (reg_ri s) (pd_r_root draft) = Some seen ∧
    seen ≤ now ∧ seen + MIN_R_AGE_BLOCKS ≤ now;
  rd_slot : gs_s (reg_global s) < FSRT_SLOT_COUNT;
  rd_fresh : ∀ id, draft_id s draft = Ok id → reg_petitions s !! id = None;
  rd_alpha : gs_alpha_min (reg_global s) ≤ gs_alpha (reg_global s)
             ≤ gs_alpha_max (reg_global s);
  rd_bounty : ∃ floor bounty, bounty_floor (gs_alpha (reg_global s)) draft = Ok floor ∧
    u256_to_u128 (pd_bounty draft) = Ok bounty ∧ floor ≤ bounty;
}.

Lemma register_is_checked now draft (s : Reg) :
  is_ok (register now draft s).1 = is_ok (register_checked now s draft).
Proof.
  destruct (register_checked now s draft) as [[r b]| |] eqn:Hc.
  - by rewrite (register_run _ _ _ _ _ Hc).
  - unfold register. by rewrite M_bind_get, M_bind_lift, Hc.
  - unfold register. by rewrite M_bind_get, M_bind_lift, Hc.
Qed.

(** The organizer's checks, as facts about the draft. *)
Record screened (block : Z) (draft : PetitionDraft) : Prop := {
  sc_size : (1 ≤ length (pd_class_set draft) ≤ MAX_CLASS_SET_LEN)%nat;
  sc_sorted : strictly_increasing (pd_class_set draft) = true;
  sc_lengths : length (pd_class_thresholds draft) = length (pd_class_set draft);
  sc_valid : validate (pd_predicate_def draft) = Ok tt;
  sc_bound : ∃ op, find_class_binding_operand (pd_predicate_def draft) (pd_class_index draft)
    = Ok op ∧ memZ op (pd_class_set draft) = true;
  sc_window : block < pd_close_at_block draft ≤ block + MAX_SIGNING_WINDOW_BLOCKS;
}.

Lemma build_petition_screened self r_root pd salt cs ts ci block close bounty draft :
  build_petition self r_root pd salt cs ts ci block close bounty = Ok draft →
  screened block draft.
Proof.
  unfold build_petition. intros H. inv_ok H. destruct a3. reflect_bools.
  constructor; cbn [pd_class_set pd_class_thresholds pd_predicate_def pd_class_index
    pd_close_at_block]; [lia|done|done|done|by eauto|lia].
Qed.

Lemma ready_checked now (s : Reg) draft :
  screened now draft → def_wf (pd_predicate_def draft) → ready now s draft →
  is_ok (register_checked now s draft) = true.
Proof.
  intros [Hsz Hso Hl Hv (op & Hop & Hin) Hw] Hwf [Ht Hi (seen & Hs & Hs1 & Hs2) Hsl Hf Ha Hb].
  destruct Hb as (fl & b & Hfl & Hb & Hle).
  destruct (canonical_scalars (encode_bytes (pd_predicate_def draft))) as [can| |] eqn:Hcan.
  2-3: exfalso; apply validate_counts in Hv; rewrite canonical_scalars_spec in Hcan; [done|];
    rewrite length_encode_bytes by done; unfold serialized_len; lia.
  specialize (Hf _ ltac:(unfold draft_id; by rewrite Hcan)).
  unfold register_checked. rewrite Hv. cbn [map_err]. rewrite Ok_bind.
  rewrite ensure_bind by (apply negb_true_iff, Nat.eqb_neq; lia).
  rewrite ensure_bind by by apply Nat.eqb_eq.
  rewrite ensure_bind by by (apply negb_true_iff, bool_decide_eq_false).
  rewrite ensure_bind by done.
  rewrite ensure_bind by (apply negb_true_iff, Z.leb_gt; lia).
  rewrite Hop. cbn [map_err]. rewrite Ok_bind, ensure_bind by done.
  rewrite (ok_or_bind _ _ _ _ Hs).
  rewrite ensure_bind by (apply negb_true_iff, orb_false_iff; split; apply Z.ltb_ge; lia).
  rewrite ensure_bind by (apply negb_true_iff, Z.leb_gt; lia).
  rewrite ensure_bind by (apply negb_true_iff, Z.ltb_ge; lia).
  rewrite (proj2 (encode_Ok _ _) (conj Hv eq_refl)). cbn [map_err]. rewrite Ok_bind.
  rewrite Hcan. cbn [map_err]. rewrite Ok_bind.
  rewrite ensure_bind by by apply Z.ltb_lt.
  rewrite ensure_bind by by apply bool_decide_eq_true.
  rewrite ensure_bind by (apply andb_true_iff; split; apply Z.leb_le; lia).
  rewrite Hfl, Ok_bind, Hb, Ok_bind, ensure_bind by by apply Z.leb_le. done.
Qed.

Lemma checked_ready now (s : Reg) draft x :
  register_checked now s draft = Ok x → ready now s draft.
Proof.
  intros H. unfold register_checked in H. inv_ok H. reflect_bools.
  apply encode_Ok in Ha11 as [_ ->]. constructor; try done.
  - by rewrite <-memZ_true, Ha2.
  - exists a7. split_and!; [done|lia|lia].
  - intros id Hid. unfold draft_id in Hid. rewrite Ha12 in Hid. apply (inj Ok) in Hid as <-. done.
  - by eexists _, _.
Qed.

(** Exactly what a draft still needs.  A draft the organizer built for the
    current block registers if and only if the conditions [ready] hold, which
    the organizer does not check: no zero threshold, a class index below the
    attribute count, a credential root old enough, a free slot and
    identifier, the governance parameter in bounds, and a bounty above the
    floor.  No other check of the registry can refuse it. *)
Lemma organizer_draft_registers self r_root pd salt cs ts ci now close bounty draft (s : Reg) :
  build_petition self r_root pd salt cs ts ci now close bounty = Ok draft → def_wf pd →
  is_ok (register now draft s).1 = true ↔ ready now s draft.
Proof.
  intros H Hwf. rewrite register_is_checked. apply build_petition_screened in H as Hsc.
  assert (pd_predicate_def draft = pd) as Hpd by (unfold build_petition in H; by inv_ok H).
  split.
  - destruct (register_checked now s draft) eqn:Hc; [|done..]. intros _. by eapply checked_ready.
  - intros Hr. apply ready_checked; [done|by rewrite Hpd|done].
Qed.
End organizer_ok.
