(* ===== verification/Disputes.v ===== *)
(** * Disputes: evidence, the disputant and the registry

    The openings a dispute carries and the record the registry derives from
    them, against a carrier that serves the batch.  Evidence is sound (what is
    derived is what the blob holds at that position), the disputes the
    disputant builds are accepted, and which positions can be used against a
    batch the registry accepted. *)

From Stdlib Require Import ZArith Lia Bool.
From stdpp Require Import base tactics list gmap strings numbers sorting.
From S2P Require Import Prelude Field Types Predicate Poseidon Imt Records Blob Ports Organizer Disputant Registry RegistryInv RegistryRun RegistryTrace.

(** ** Collecting the openings of a position *)
Abbreviation collect base := (λ acc o, acc ≫= λ l, collect_offset base l o).

Definition at_offset (base : Z) (off : nat) (o : KzgOpening) : Prop :=
  ko_field_element_index o = base + Z.of_nat off.

Lemma collect_None base os : foldl (collect base) None os = None.
Proof. by induction os. Qed.

Lemma collect_offset_Some base acc o acc' :
  length acc = 4%nat → collect_offset base acc o = Some acc' →
  length acc' = 4%nat ∧ ∀ off, (off < 4)%nat →
    acc' !! off = acc !! off ∨ (at_offset base off o ∧ acc' !! off = Some (Some o)).
Proof.
  intros Hl. unfold collect_offset, checked_sub.
  destruct (base <=? ko_field_element_index o) eqn:Hb; [|intros [= <-]; by auto].
  destruct (_ <? 4) eqn:Hlt; [|intros [= <-]; by auto]. reflect_bools.
  destruct (acc !! _) as [[x|]|] eqn:Hx; [done| |]; intros [= <-];
    (split; [by rewrite length_insert|]); intros off Hoff.
  - destruct (decide (off = Z.to_nat (ko_field_element_index o - base))) as [->|Hne].
    + right. split; [unfold at_offset; lia|]. apply list_lookup_insert_eq. lia.
    + left. by rewrite list_lookup_insert_ne.
  - apply lookup_ge_None in Hx. lia.
Qed.

(** Whatever is collected at an offset is an opening of that offset. *)
Lemma collect_sound base os acc acc' :
  length acc = 4%nat → foldl (collect base) (Some acc) os = Some acc' →
  length acc' = 4%nat ∧ ∀ off, (off < 4)%nat →
    acc' !! off = acc !! off ∨
    ∃ o, o ∈ os ∧ at_offset base off o ∧ acc' !! off = Some (Some o).
Proof.
  revert acc; induction os as [|o os IH]; intros acc Hl H; cbn [foldl mbind option_bind] in H.
  { injection H as <-. split; [done|]. by left. }
  destruct (collect_offset base acc o) as [acc1|] eqn:H1; [|by rewrite collect_None in H].
  destruct (collect_offset_Some _ _ _ _ Hl H1) as [Hl1 Hs1].
  destruct (IH acc1 Hl1 H) as [Hl' Hs']. split; [done|]. intros off Hoff.
  destruct (Hs' off Hoff) as [->|(o' & Ho' & Ha & Hv)].
  - destruct (Hs1 off Hoff) as [->|[Ha Hv]]; [by left|right]. exists o.
    split_and!; [by left|done|done].
  - right. exists o'. split_and!; [by right|done|done].
Qed.

(** With one opening per index, every offset that is opened is collected. *)
Lemma collect_complete base os acc :
  length acc = 4%nat → NoDup (map ko_field_element_index os) →
  (∀ o off, o ∈ os → at_offset base off o → (off < 4)%nat → acc !! off = Some None) →
  ∃ acc', foldl (collect base) (Some acc) os = Some acc' ∧ length acc' = 4%nat ∧
    ∀ off, (off < 4)%nat →
      (∀ o, o ∈ os → at_offset base off o → acc' !! off = Some (Some o)) ∧
      ((∀ o, o ∈ os → ¬ at_offset base off o) → acc' !! off = acc !! off).
Proof.
  revert acc; induction os as [|o os IH]; intros acc Hl Hnd Hfree.
  { exists acc. split_and!; [done|done|]. intros off _. split; [|done]. by intros o ?%elem_of_nil. }
  cbn [map] in Hnd. apply list.NoDup_cons in Hnd as [Hno Hnd].
  assert (∀ o' off, o' ∈ os → at_offset base off o' → ¬ at_offset base off o) as Hdist.
  { intros o' off Ho' Ha Ha'. apply Hno. apply list_elem_of_fmap. exists o'.
    unfold at_offset in *. split; [congruence|done]. }
  cbn [foldl mbind option_bind].
  assert (∃ acc1, collect_offset base acc o = Some acc1 ∧ length acc1 = 4%nat ∧
    ∀ off, (off < 4)%nat → (at_offset base off o → acc1 !! off = Some (Some o)) ∧
      (¬ at_offset base off o → acc1 !! off = acc !! off)) as (acc1 & -> & Hl1 & Hs1).
  { unfold collect_offset, checked_sub.
    destruct (base <=? ko_field_element_index o) eqn:Hb; reflect_bools.
    2: { exists acc. split_and!; [done|done|]. intros off _. unfold at_offset. split; [lia|done]. }
    destruct (_ <? 4) eqn:Hlt; reflect_bools.
    2: { exists acc. split_and!; [done|done|]. intros off Hoff. unfold at_offset.
         split; [lia|done]. }
    set (k := Z.to_nat (ko_field_element_index o - base)).
    rewrite (Hfree o k); [|by left|unfold at_offset; lia|lia].
    eexists. split; [done|]. split; [by rewrite length_insert|]. intros off Hoff. split.
    - unfold at_offset. intros Ha. assert (off = k) as -> by lia.
      apply list_lookup_insert_eq. lia.
    - unfold at_offset. intros Ha. apply list_lookup_insert_ne. lia. }
  destruct (IH acc1 Hl1 Hnd) as (acc' & Hf & Hl' & Hs').
  { intros o' off Ho' Ha Hoff. destruct (Hs1 off Hoff) as [_ ->]; [|by eapply Hdist].
    apply (Hfree o'); [by right|done|done]. }
  exists acc'. split_and!; [done|done|]. intros off Hoff.
  destruct (Hs' off Hoff) as [Hin Hout], (Hs1 off Hoff) as [Hyes Hno1]. split.
  - intros x [->|Hx]%elem_of_cons Ha; [|by apply Hin].
    rewrite Hout; [by apply Hyes|]. intros o' Ho' Ha'. by eapply Hdist.
  - intros Hnone. rewrite Hout, Hno1; [done|..].
    + apply Hnone. by left.
    + intros x Hx. apply Hnone. by right.
Qed.

(** ** Evidence *)

(** What the blob of [rs] holds at position [p], padding included. *)
Definition blob_entry (rs : list RecordEntry) (p : nat) : RecordEntry :=
  decode_record (blob_record rs p).

Lemma blob_entry_record rs p r :
  Forall record_ok rs → rs !! p = Some r → blob_entry rs p = r.
Proof.
  intros Hok Hr. unfold blob_entry, blob_record. rewrite Hr. apply decode_encode_record.
  by eapply Forall_lookup_1.
Qed.


(** The four openings of a position, put together. *)
Lemma assemble_eq rs p vs :
  Forall record_ok rs → (p < RECORDS_PER_BLOB)%nat →
  (∀ j, (j < 4)%nat → vs !! j = blob_fes RECORDS_PER_BLOB rs !! (FE_PER_RECORD * p + j)%nat) →
  decode_record (assemble_record vs) = blob_entry rs p.
Proof.
  intros Hok Hp Hv. unfold assemble_record, blob_entry. f_equal. apply gather_eq.
  - by apply blob_record_length.
  - intros j Hj. rewrite Nat.mul_0_r, Nat.add_0_l, Hv by done. by apply blob_fes_lookup.
Qed.

Section evidence.
Context `{C : Crypto} {B : Type} {BC : BlobCarrier B} {BL : BlobLaws B}.

#[local] Opaque blob_fes RECORDS_PER_BLOB.

Lemma position_bounds d p ev :
  derive_evidence d p = Some ev → 0 ≤ p → (Z.to_nat p < RECORDS_PER_BLOB)%nat.
Proof.
  unfold derive_evidence, checked_mul, checked_add. intros H Hp.
  repeat (case_match; simplify_eq/=); reflect_bools. unfold FE_PER_RECORD in *. lia.
Qed.

(** What the registry derives from openings that verify is what the blob
    holds at that position. *)
Lemma evidence_sound c vh rs d p ev :
  blob_carries c vh rs → Forall record_ok rs → 0 ≤ p →
  Forall (λ o, blob_verify c vh o = Ok tt) (di_openings d) →
  derive_evidence d p = Some ev → ev = blob_entry rs (Z.to_nat p).
Proof.
  intros Hc Hok Hp Hv H. pose proof (position_bounds _ _ _ H Hp) as Hb.
  unfold derive_evidence in H.
  apply bind_Some in H as (base & [-> _]%checked_mul_Some & H).
  apply bind_Some in H as (last & _ & H). case_match; [done|].
  apply bind_Some in H as (acc & Hcol & H). apply bind_Some in H as (os & Hos & H).
  injection H as <-. apply collect_sound in Hcol as [Hl Hs]; [|done].
  apply mapM_Some in Hos. apply assemble_eq; [done|done|]. intros j Hj.
  destruct (Hs j Hj) as [Hn|(o & Ho & Ha & Hlk)].
  - rewrite lookup_replicate_2 in Hn by done.
    destruct (Forall2_lookup_l _ _ _ _ _ Hos Hn) as (y & _ & ?). done.
  - destruct (Forall2_lookup_l _ _ _ _ _ Hos Hlk) as (y & Hy & Heq). injection Heq as <-.
    change (map ko_claimed_value os) with (ko_claimed_value <$> os).
    rewrite list_lookup_fmap, Hy. cbn [fmap option_fmap option_map]. symmetry.
    rewrite list.Forall_forall in Hv. unfold at_offset in Ha.
    rewrite <-(blob_verify_sound c vh rs o Hc); [|lia|by apply Hv]. f_equal.
    rewrite Ha. unfold FE_PER_RECORD. lia.
Qed.

(** Openings with distinct indices that contain those of a position. *)
Lemma evidence_complete c vh rs d p :
  blob_carries c vh rs → Forall record_ok rs → 0 ≤ p →
  (Z.to_nat p < RECORDS_PER_BLOB)%nat →
  Forall (λ o, blob_verify c vh o = Ok tt) (di_openings d) →
  NoDup (map ko_field_element_index (di_openings d)) →
  (∀ j, (j < 4)%nat → ∃ o, o ∈ di_openings d ∧ at_offset (p * 4) j o) →
  derive_evidence d p = Some (blob_entry rs (Z.to_nat p)).
Proof.
  intros Hc Hok Hp Hb Hv Hnd Hall.
  enough (∃ ev, derive_evidence d p = Some ev) as [ev Hev]
    by (rewrite Hev; f_equal; by eapply evidence_sound).
  destruct (collect_complete (p * 4) (di_openings d) (replicate 4 None))
    as (acc & Hcol & Hl & Hs); [done|done| |].
  { intros. by apply lookup_replicate_2. }
  assert (∃ os, mapM id acc = Some os) as [os Hos].
  { assert (∀ j, (j < 4)%nat → ∃ o, acc !! j = Some (Some o)) as Hj.
    { intros j Hj. destruct (Hall j Hj) as (o & Ho & Ha). exists o. by apply Hs. }
    destruct acc as [|a0 [|a1 [|a2 [|a3 [|]]]]]; try done.
    destruct (Hj 0%nat) as [? E0]; [lia|]. destruct (Hj 1%nat) as [? E1]; [lia|].
    destruct (Hj 2%nat) as [? E2]; [lia|]. destruct (Hj 3%nat) as [? E3]; [lia|].
    cbn in E0, E1, E2, E3. simplify_eq. eexists. reflexivity. }
  assert (Z.of_nat (RECORDS_PER_BLOB * FE_PER_RECORD) < 2 ^ 32) as Hmax by done.
  unfold FE_PER_RECORD in Hmax. unfold derive_evidence.
  rewrite (proj2 (checked_mul_Some 32 p 4 (p * 4))) by (split; [done|lia]).
  cbn [mbind option_bind].
  rewrite (proj2 (checked_add_Some 32 (p * 4) 3 (p * 4 + 3))) by (split; [done|lia]).
  cbn [mbind option_bind]. rewrite (proj2 (Z.leb_gt _ _)) by (unfold FE_PER_RECORD; lia).
  rewrite Hcol. cbn [mbind option_bind]. rewrite Hos. cbn [mbind option_bind]. eauto.
Qed.

(** ** The disputant *)
Lemma insert_opening_perm o l : insert_opening o l ≡ₚ o :: l.
Proof.
  induction l as [|x l IH]; cbn; [done|]. case_match; [done|]. rewrite IH. apply Permutation_swap.
Qed.

Lemma sort_openings_perm l : sort_openings l ≡ₚ l.
Proof. induction l as [|o l IH]; cbn; [done|]. by rewrite insert_opening_perm, IH. Qed.

(** The openings of a position: its four indices, in order. *)
Definition opens (c : B) (vh : list byte) (p : nat) (os : list KzgOpening) : Prop :=
  map ko_field_element_index os
    = map (λ j, Z.of_nat (FE_PER_RECORD * p + j)) (seq 0 FE_PER_RECORD) ∧
  Forall (λ o, blob_verify c vh o = Ok tt) os.

Lemma fe_index_small p j :
  (p < RECORDS_PER_BLOB)%nat → (j < 4)%nat → fe_index p j = Z.of_nat (FE_PER_RECORD * p + j).
Proof.
  intros Hp Hj. unfold fe_index. apply Z.mod_small.
  assert (Z.of_nat (RECORDS_PER_BLOB * 4) < 2 ^ 32) by done. unfold FE_PER_RECORD. lia.
Qed.

Lemma read_record_carried c vh rs p :
  blob_carries c vh rs → Forall record_ok rs → 0 ≤ p →
  (Z.to_nat p < RECORDS_PER_BLOB)%nat →
  ∃ os, read_record c vh p = Ok (blob_entry rs (Z.to_nat p), os) ∧ opens c vh (Z.to_nat p) os.
Proof.
  intros Hc Hok Hp Hb. unfold read_record.
  assert (∀ j, (j < 4)%nat → ∃ o, blob_open c vh (fe_index (Z.to_nat p) j) = Ok o ∧
    ko_field_element_index o = Z.of_nat (FE_PER_RECORD * Z.to_nat p + j) ∧
    blob_fes RECORDS_PER_BLOB rs !! (FE_PER_RECORD * Z.to_nat p + j)%nat
      = Some (ko_claimed_value o) ∧ blob_verify c vh o = Ok tt) as Ho.
  { intros j Hj. rewrite fe_index_small by done. apply blob_open_complete; [done|].
    unfold FE_PER_RECORD. lia. }
  destruct (Ho 0%nat) as (o0 & -> & Hi0 & Hv0 & Hk0); [lia|].
  destruct (Ho 1%nat) as (o1 & -> & Hi1 & Hv1 & Hk1); [lia|].
  destruct (Ho 2%nat) as (o2 & -> & Hi2 & Hv2 & Hk2); [lia|].
  destruct (Ho 3%nat) as (o3 & -> & Hi3 & Hv3 & Hk3); [lia|].
  cbn [map_err mbind outcome_bind]. exists [o0; o1; o2; o3]. split.
  - do 2 f_equal. apply assemble_eq; [done|done|]. intros j Hj. symmetry.
    destruct j as [|[|[|[|]]]]; [done..|lia].
  - split; [|repeat constructor; done]. cbn [map seq FE_PER_RECORD]. congruence.
Qed.

Lemma opens_at c vh p os j :
  opens c vh p os → (j < 4)%nat → ∃ o, o ∈ os ∧ at_offset (Z.of_nat p * 4) j o.
Proof.
  intros [Hm _] Hj. assert (Z.of_nat (FE_PER_RECORD * p + j) ∈ map ko_field_element_index os) as Hin.
  { rewrite Hm. apply list_elem_of_fmap. exists j. split; [done|].
    apply elem_of_seq. unfold FE_PER_RECORD. lia. }
  apply list_elem_of_fmap in Hin as (o & Ho & Hin). exists o. split; [done|].
  unfold at_offset, FE_PER_RECORD in *. lia.
Qed.

Lemma opens_NoDup c vh p os : opens c vh p os → NoDup (map ko_field_element_index os).
Proof.
  intros [-> _]. apply NoDup_fmap_2; [|apply NoDup_seq]. intros x y. lia.
Qed.

Lemma opens_app_NoDup c vh p q os1 os2 :
  opens c vh p os1 → opens c vh q os2 → p ≠ q →
  NoDup (map ko_field_element_index (os1 ++ os2)).
Proof.
  intros H1 H2 Hne. rewrite map_app. apply list.NoDup_app. split_and!.
  - by eapply opens_NoDup.
  - intros x. destruct H1 as [-> _], H2 as [-> _].
    intros (j & -> & Hj)%list_elem_of_fmap (j' & Heq & Hj')%list_elem_of_fmap.
    apply elem_of_seq in Hj, Hj'. unfold FE_PER_RECORD in *. lia.
  - by eapply opens_NoDup.
Qed.

(** A dispute over a batch the carrier serves: every opening verifies, and
    the evidence at a position is what the blob holds there. *)
Definition well_opened (c : B) (vh : list byte) (rs : list RecordEntry) (d : Dispute) : Prop :=
  Forall (λ o, blob_verify c vh o = Ok tt) (di_openings d) ∧
  derive_evidence d (di_position_i d) = Some (blob_entry rs (Z.to_nat (di_position_i d))) ∧
  ∀ j, di_position_j d = Some j → derive_evidence d j = Some (blob_entry rs (Z.to_nat j)).

Lemma Forall_sorted (Q : KzgOpening → Prop) l : Forall Q l → Forall Q (sort_openings l).
Proof. by rewrite sort_openings_perm. Qed.

Lemma well_opened_one c vh rs id k vt p os :
  blob_carries c vh rs → Forall record_ok rs → 0 ≤ p →
  (Z.to_nat p < RECORDS_PER_BLOB)%nat → opens c vh (Z.to_nat p) os →
  well_opened c vh rs (mk_dispute id k vt p None (sort_openings os)).
Proof.
  intros Hc Hok Hp Hb Ho. unfold well_opened. cbn [di_openings di_position_i di_position_j].
  assert (Forall (λ o, blob_verify c vh o = Ok tt) (sort_openings os)) as Hv
    by (apply Forall_sorted, Ho).
  split_and!; [done| |done]. apply (evidence_complete c vh rs); try done.
  - cbn [di_openings]. rewrite sort_openings_perm. by eapply opens_NoDup.
  - intros j Hj. destruct (opens_at _ _ _ _ _ Ho Hj) as (o & Hin & Ha). exists o.
    cbn [di_openings]. rewrite sort_openings_perm, <-(Z2Nat.id p Hp). done.
Qed.

Lemma well_opened_two c vh rs id k vt p q os1 os2 :
  blob_carries c vh rs → Forall record_ok rs → 0 ≤ p → 0 ≤ q → p ≠ q →
  (Z.to_nat p < RECORDS_PER_BLOB)%nat → (Z.to_nat q < RECORDS_PER_BLOB)%nat →
  opens c vh (Z.to_nat p) os1 → opens c vh (Z.to_nat q) os2 →
  well_opened c vh rs (mk_dispute id k vt p (Some q) (sort_openings (os1 ++ os2))).
Proof.
  intros Hc Hok Hp Hq Hne Hbp Hbq H1 H2. unfold well_opened.
  cbn [di_openings di_position_i di_position_j].
  assert (Forall (λ o, blob_verify c vh o = Ok tt) (sort_openings (os1 ++ os2))) as Hv.
  { apply Forall_sorted, Forall_app. split; [apply H1|apply H2]. }
  assert (NoDup (map ko_field_element_index (sort_openings (os1 ++ os2)))) as Hnd.
  { rewrite sort_openings_perm. eapply opens_app_NoDup; [done|done|lia]. }
  split; [done|]. split; [|intros ? [= <-]];
    apply (evidence_complete c vh rs); try done; intros j Hj; cbn [di_openings];
    [destruct (opens_at _ _ _ _ _ H1 Hj) as (o & Hin & Ha); rewrite (Z2Nat.id p Hp) in Ha
    |destruct (opens_at _ _ _ _ _ H2 Hj) as (o & Hin & Ha); rewrite (Z2Nat.id q Hq) in Ha];
    exists o; rewrite sort_openings_perm, elem_of_app; auto.
Qed.
End evidence.

(** ** Violations *)
Section violations.
Context `{C : Crypto} {B : Type} {BC : BlobCarrier B} {BL : BlobLaws B}.

(** What a dispute alleges, read off the blob of [rs]. *)
Definition violates (cs : list Z) (rs : list RecordEntry) (d : Dispute) : Prop :=
  let i := di_position_i d in
  let at_ p := blob_entry rs (Z.to_nat p) in
  match di_violation_type d with
  | ClassTagOutOfSet => re_class_tag (at_ i) ∉ cs
  | IntraBatchDuplicateIdentityTag => ∃ j, di_position_j d = Some j ∧ j ≠ i ∧
      re_identity_tag (at_ i) = re_identity_tag (at_ j)
  | LeafOrderingViolation => ∃ j, di_position_j d = Some j ∧ j = i + 1 ∧
      leaf_ordering_violated (record_leaf (at_ i)) (record_leaf (at_ j)) = true
  end.

(** The registry's test decides it, on evidence taken from the blob. *)
Lemma violation_sound c vh rs cs d :
  blob_carries c vh rs → Forall record_ok rs → 0 ≤ di_position_i d →
  (∀ j, di_position_j d = Some j → 0 ≤ j) →
  Forall (λ o, blob_verify c vh o = Ok tt) (di_openings d) →
  violation_holds cs d = Ok tt → violates cs rs d.
Proof.
  intros Hc Hok Hi Hj Hv H. unfold violation_holds in H.
  apply bind_Ok in H as (evi & Hevi & H). apply ok_or_Ok in Hevi.
  apply (evidence_sound c vh rs) in Hevi; [|done..]. subst evi. unfold violates.
  destruct (di_violation_type d).
  - apply ensure_Ok, negb_true_iff in H. by apply bool_decide_eq_false in H.
  - apply bind_Ok in H as (j & Hpj & H). apply ok_or_Ok in Hpj.
    apply bind_Ok in H as (u & Hne & H). apply ensure_Ok in Hne. reflect_bools.
    apply bind_Ok in H as (evj & Hevj & H). apply ok_or_Ok in Hevj.
    apply (evidence_sound c vh rs) in Hevj; [|by auto..]. subst evj.
    apply ensure_Ok, bytes_eqb_eq in H. eauto.
  - apply bind_Ok in H as (j & Hpj & H). apply ok_or_Ok in Hpj.
    apply bind_Ok in H as (x & Hx & H). apply ok_or_Ok, checked_add_Some in Hx as [-> _].
    apply bind_Ok in H as (u & Heq & H). apply ensure_Ok in Heq. reflect_bools.
    apply bind_Ok in H as (evj & Hevj & H). apply ok_or_Ok in Hevj.
    apply (evidence_sound c vh rs) in Hevj; [|by auto..]. subst evj.
    apply ensure_Ok in H. eauto.
Qed.

Lemma violation_complete c vh rs cs d :
  well_opened c vh rs d → di_position_i d + 1 < 2 ^ 32 → violates cs rs d →
  violation_holds cs d = Ok tt.
Proof.
  intros (_ & Hevi & Hevj) Hsmall H. unfold violation_holds.
  rewrite (ok_or_bind _ _ _ _ Hevi). unfold violates in H. destruct (di_violation_type d).
  - unfold memZ. by rewrite bool_decide_eq_false_2.
  - destruct H as (j & Hj & Hne & Heq). rewrite (ok_or_bind _ _ _ _ Hj).
    rewrite ensure_bind by by apply negb_true_iff, Z.eqb_neq.
    rewrite (ok_or_bind _ _ _ _ (Hevj j Hj)). by rewrite (proj2 (bytes_eqb_eq _ _) Heq).
  - destruct H as (j & Hj & -> & Hord). rewrite (ok_or_bind _ _ _ _ Hj).
    rewrite (ok_or_bind _ _ (di_position_i d + 1)) by by apply checked_add_Some.
    rewrite ensure_bind by by apply Z.eqb_eq.
    rewrite (ok_or_bind _ _ _ _ (Hevj _ Hj)). by rewrite Hord.
Qed.

(** The three builders of the disputant, at positions of the blob. *)
Inductive built (c : B) (ctx : DisputeContext) (d : Dispute) : Prop :=
| built_class i :
    0 ≤ i → (Z.to_nat i < RECORDS_PER_BLOB)%nat →
    build_class_tag_out_of_set c ctx i = Ok d → built c ctx d
| built_duplicate i j :
    0 ≤ i → 0 ≤ j → (Z.to_nat i < RECORDS_PER_BLOB)%nat → (Z.to_nat j < RECORDS_PER_BLOB)%nat →
    build_intra_batch_duplicate_identity_tag c ctx i j = Ok d → built c ctx d
| built_ordering i :
    0 ≤ i → (Z.to_nat (i + 1) < RECORDS_PER_BLOB)%nat →
    build_leaf_ordering_violation c ctx i = Ok d → built c ctx d.

Lemma position_small i : (Z.to_nat i < RECORDS_PER_BLOB)%nat → i + 1 < 2 ^ 32.
Proof. assert (Z.of_nat RECORDS_PER_BLOB < 2 ^ 31) by done. lia. Qed.

(** What the disputant builds passes every check of the registry on it. *)
Lemma built_accepted c ctx d rs :
  blob_carries c (dc_batch_versioned_hash ctx) rs → Forall record_ok rs → built c ctx d →
  di_petition_id d = dc_petition_id ctx ∧ di_batch_index d = dc_batch_index ctx ∧
  Forall (λ o, blob_verify c (dc_batch_versioned_hash ctx) o = Ok tt) (di_openings d) ∧
  violation_holds (dc_class_set ctx) d = Ok tt.
Proof.
  intros Hc Hok [i Hi Hb H|i j Hi Hj Hbi Hbj H|i Hi Hb H].
  - unfold build_class_tag_out_of_set in H.
    destruct (read_record_carried c _ rs i Hc Hok Hi Hb) as (os & Hr & Ho). rewrite Hr in H.
    apply bind_Ok in H as ([x os'] & Hx & H). apply (inj Ok) in Hx. injection Hx as <- <-.
    apply bind_Ok in H as (u & Hn & H). apply ensure_Ok in Hn. apply (inj Ok) in H as <-.
    apply negb_true_iff, bool_decide_eq_false in Hn.
    pose proof (well_opened_one c _ rs (dc_petition_id ctx) (dc_batch_index ctx)
      ClassTagOutOfSet i os Hc Hok Hi Hb Ho) as Hw.
    split_and!; [done|done|apply Hw|]. eapply violation_complete; [done| |done].
    by apply position_small.
  - unfold build_intra_batch_duplicate_identity_tag in H.
    apply bind_Ok in H as (u & Hne & H). apply ensure_Ok in Hne. reflect_bools.
    destruct (read_record_carried c _ rs i Hc Hok Hi Hbi) as (os1 & Hr1 & Ho1).
    destruct (read_record_carried c _ rs j Hc Hok Hj Hbj) as (os2 & Hr2 & Ho2).
    rewrite Hr1 in H. cbn [mbind outcome_bind] in H. rewrite Hr2 in H.
    cbn [mbind outcome_bind] in H. apply bind_Ok in H as (u' & Heq & H).
    apply ensure_Ok, bytes_eqb_eq in Heq. apply (inj Ok) in H as <-.
    pose proof (well_opened_two c _ rs (dc_petition_id ctx) (dc_batch_index ctx)
      IntraBatchDuplicateIdentityTag i j os1 os2 Hc Hok Hi Hj Hne Hbi Hbj Ho1 Ho2) as Hw.
    split_and!; [done|done|apply Hw|]. eapply violation_complete; [done|by apply position_small|].
    exists j. by split_and!.
  - unfold build_leaf_ordering_violation in H.
    apply bind_Ok in H as (j & Hj & H). apply ok_or_Ok, checked_add_Some in Hj as [-> _].
    assert (Z.to_nat i < RECORDS_PER_BLOB)%nat as Hbi by lia.
    destruct (read_record_carried c _ rs i Hc Hok Hi Hbi) as (os1 & Hr1 & Ho1).
    destruct (read_record_carried c _ rs (i + 1) Hc Hok ltac:(lia) Hb) as (os2 & Hr2 & Ho2).
    rewrite Hr1 in H. cbn [mbind outcome_bind] in H. rewrite Hr2 in H.
    cbn [mbind outcome_bind] in H. apply bind_Ok in H as (u' & Hord & H).
    apply ensure_Ok in Hord. apply (inj Ok) in H as <-.
    pose proof (well_opened_two c _ rs (dc_petition_id ctx) (dc_batch_index ctx)
      LeafOrderingViolation i (i + 1) os1 os2 Hc Hok Hi ltac:(lia) ltac:(lia) Hbi Hb Ho1 Ho2) as Hw.
    split_and!; [done|done|apply Hw|]. eapply violation_complete; [done|by apply position_small|].
    exists (i + 1). by split_and!.
Qed.


(** A batch the registry would accept violates nothing at its own positions. *)
Lemma honest_batch_unviolated cs rs d :
  Forall record_ok rs → Forall (λ r, re_class_tag r ∈ cs) rs →
  leaves_increase None rs = true → NoDup (tags_of rs) → 0 ≤ di_position_i d →
  (∀ j, di_position_j d = Some j → 0 ≤ j) → violates cs rs d →
  (length rs ≤ Z.to_nat (di_position_i d))%nat ∨
  ∃ j, di_position_j d = Some j ∧ (length rs ≤ Z.to_nat j)%nat.
Proof.
  intros Hok Hcs Hinc Hnd Hi Hj H.
  destruct (rs !! Z.to_nat (di_position_i d)) as [ri|] eqn:Hri;
    [|left; by apply lookup_ge_None].
  right. unfold violates in H. rewrite (blob_entry_record _ _ _ Hok Hri) in H.
  destruct (di_violation_type d).
  - destruct H. by eapply (list.Forall_lookup_1 _ _ _ _ Hcs).
  - destruct H as (j & Hpj & Hne & Heq). exists j. split; [done|].
    destruct (rs !! Z.to_nat j) as [rj|] eqn:Hrj; [|by apply lookup_ge_None].
    rewrite (blob_entry_record _ _ _ Hok Hrj) in Heq. exfalso. apply Hne.
    assert (Z.to_nat j = Z.to_nat (di_position_i d)) as E;
      [|specialize (Hj j Hpj); lia].
    eapply (NoDup_lookup (tags_of rs)); [done| |].
    + unfold tags_of. by apply list_lookup_fmap_Some; eauto.
    + apply list_lookup_fmap_Some. exists ri. by rewrite Heq.
  - destruct H as (j & Hpj & -> & Hord). exists (di_position_i d + 1). split; [done|].
    rewrite Z2Nat.inj_add, Nat.add_1_r in * by lia.
    destruct (rs !! S (Z.to_nat (di_position_i d))) as [rj|] eqn:Hrj; [|by apply lookup_ge_None].
    rewrite (blob_entry_record _ _ _ Hok Hrj) in Hord.
    by rewrite (leaves_increase_step _ _ _ _ _ Hinc Hri Hrj) in Hord.
Qed.
End violations.

(** ** At the registry *)
Section registry_disputes.
Context `{C : Crypto} {P R B : Type}.
Context {PB : ProofBackend P} {RI : RiCredentialLayer R} {BC : BlobCarrier B} {BL : BlobLaws B}.

Abbreviation Reg := (PetitionRegistry P R B).

(** The carrier serves every active batch of the petition. *)
Definition carried (s : Reg) (e : PetitionEntry) (recs : list (list RecordEntry)) : Prop :=
  ∀ i b rs, pe_batches e !! i = Some b → recs !! i = Some rs → is_active b = true →
    blob_carries (reg_blob_carrier s) (br_batch_versioned_hash b) rs.

Lemma carried_fetch (s : Reg) bs recs :
  (∀ i b rs, bs !! i = Some b → recs !! i = Some rs → is_active b = true →
    blob_carries (reg_blob_carrier s) (br_batch_versioned_hash b) rs) →
  length recs = length bs →
  ∃ out, fetch_all s (map br_batch_versioned_hash (List.filter is_active bs)) = Ok out.
Proof.
  intros Hc Hl. unfold fetch_all. apply for_each_total. intros acc vh Hvh.
  apply list_elem_of_fmap in Hvh as (b & -> & Hb). apply list_elem_of_In, List.filter_In in Hb.
  destruct Hb as [Hb Hact]. apply list_elem_of_In, list_elem_of_lookup in Hb as [i Hi].
  destruct (lookup_lt_is_Some_2 recs i) as [rs Hrs]; [rewrite Hl; by eapply lookup_lt_Some|].
  rewrite (blob_fetch_carried _ _ rs) by by eapply Hc. cbn. eauto.
Qed.

Lemma carried_faithful (s : Reg) e recs : carried s e recs → faithful s e recs.
Proof.
  intros Hc i b rs rs' Hb Hr Ha Hf. rewrite (blob_fetch_carried _ _ rs) in Hf by by eapply Hc.
  by apply (inj Ok) in Hf.
Qed.

(** The context a disputant works from: the batch and the petition's classes. *)
Definition dispute_context (id : list byte) (e : PetitionEntry) (k : nat) (b : BatchRecord)
  : DisputeContext :=
  mk_dispute_context id (br_batch_versioned_hash b) (Z.of_nat k) (pr_class_set (pe_record e)).

Lemma dispute_total G now d (s : Reg) e r recs b :
  let id := di_petition_id d in let k := Z.to_nat (di_batch_index d) in
  rinv G s → advanced now s id e r → pr_state r = DisputeWindow → G !! id = Some recs →
  now < pr_close_at_block r + RESOLUTION_DEADLINE_BLOCKS →
  pr_close_at_block r + RESOLUTION_DEADLINE_BLOCKS < 2 ^ 64 →
  carried s e recs → pe_batches e !! k = Some b → is_active b = true →
  Forall (λ o, blob_verify (reg_blob_carrier s) (br_batch_versioned_hash b) o = Ok tt)
    (di_openings d) →
  violation_holds (pr_class_set r) d = Ok tt →
  is_ok (dispute now d s).1 = true.
Proof.
  intros id k Hs Hadv Hst HG Hnow Hfit Hc Hb Hact Hv Hviol. unfold dispute. fold id.
  rewrite (step_state_run _ _ _ _ _ _ Hadv), M_bind_lift.
  rewrite Hst, bool_decide_eq_true_2 by done. cbn [ensure].
  rewrite M_bind_get, M_bind_lift, petition_set, M_bind_lift.
  destruct Hadv as [He Hstep]. destruct (ri_entries _ _ Hs _ _ He) as (recs' & HG' & Hei).
  assert (recs' = recs) as -> by congruence.
  destruct (ei_prior _ _ _ Hei k b Hb Hact) as (tr & ti & Htr & _).
  assert (∃ out, fetch_all s (map br_batch_versioned_hash
    (List.filter is_active (take k (pe_batches e)))) = Ok out) as [out Hout].
  { apply (carried_fetch s _ (take k recs)).
    - intros i b' rs Hb' Hr. apply lookup_take_Some in Hb' as [Hb' _], Hr as [Hr _].
      by eapply Hc.
    - rewrite !length_take, (ei_len _ _ _ Hei). done. }
  pose proof (faithful_prefix s e recs k out (carried_faithful _ _ _ Hc)
    (ei_len _ _ _ Hei) Hout) as ->.
  set (s1 := set_entry s id (with_record e r)).
  assert (dispute_checked now s1 (with_record e r) DisputeWindow d = Ok (tr, ti)) as ->.
  { unfold dispute_checked. cbn [pe_record pe_batches with_record]. fold k.
    rewrite (ok_or_bind _ _ (pr_close_at_block r + RESOLUTION_DEADLINE_BLOCKS))
      by by apply checked_add_Some.
    rewrite ensure_bind by (apply negb_true_iff, Z.leb_gt; done).
    rewrite ensure_bind
      by (apply negb_true_iff, Nat.leb_gt; by eapply lookup_lt_Some).
    unfold index. rewrite (index_bind _ _ _ _ Hb).
    rewrite ensure_bind by (apply negb_true_iff, bool_decide_eq_false; unfold is_active in Hact;
      apply bool_decide_eq_true in Hact; by rewrite Hact).
    rewrite (proj2 (for_each_unit_Forall (λ opening, map_err BadDisputeOpening
      (blob_verify (reg_blob_carrier s1) (br_batch_versioned_hash b) opening)) _)).
    2: { eapply list.Forall_impl; [exact Hv|]. intros o Ho. by apply map_err_Ok. }
    cbn [mbind outcome_bind]. rewrite Hviol. cbn [mbind outcome_bind].
    change (fetch_all s1) with (fetch_all s). rewrite Hout. exact Htr. }
  by destruct (roll_back_to_predecessor _ _ _) as [[rr idt] lc].
Qed.

Lemma batch_records G (s : Reg) id e recs k b :
  rinv G s → reg_petitions s !! id = Some e → G !! id = Some recs →
  pe_batches e !! k = Some b → ∃ rs, recs !! k = Some rs ∧ (length rs ≤ BATCH_SIZE_MAX)%nat.
Proof.
  intros Hr He HG Hb. destruct (ri_entries _ _ Hr _ _ He) as (recs' & HG' & Hei).
  assert (recs' = recs) as -> by congruence.
  destruct (lookup_lt_is_Some_2 recs k) as [rs Hrs].
  { rewrite (ei_len _ _ _ Hei). by eapply lookup_lt_Some. }
  exists rs. split; [done|].
  by destruct (list.Forall_lookup_1 _ _ _ _ (ei_records _ _ _ Hei) Hrs) as ([_ ?] & _).
Qed.

Lemma built_dispute_ok t tr G (s : Reg) now id e r recs k b d :
  run_inv t tr G s → advanced now s id e r → pr_state r = DisputeWindow →
  now < pr_close_at_block r + RESOLUTION_DEADLINE_BLOCKS →
  pr_close_at_block r + RESOLUTION_DEADLINE_BLOCKS < 2 ^ 64 →
  G !! id = Some recs → carried s e recs →
  pe_batches e !! k = Some b → is_active b = true →
  built (reg_blob_carrier s) (dispute_context id e k b) d →
  ∃ ev s', dispute now d s = (Ok ev, s').
Proof.
  intros [Hr _ _ Hrec _] Hadv Hst Hnow Hfit HG Hc Hb Hact Hd.
  destruct (batch_records _ _ _ _ _ _ _ Hr (proj1 Hadv) HG Hb) as (rs & Hrs & _).
  destruct (built_accepted _ (dispute_context id e k b) _ rs (Hc k b rs Hb Hrs Hact)
    (list.Forall_lookup_1 _ _ _ _ (Hrec _ _ HG) Hrs) Hd) as (Hid & Hk & Hv & Hviol).
  cbn [dispute_context dc_petition_id dc_batch_index dc_batch_versioned_hash dc_class_set] in *.
  rewrite <-Hid in *. assert (Z.to_nat (di_batch_index d) = k) as Hk' by lia.
  rewrite <-Hk' in Hb.
  assert (pr_class_set r = pr_class_set (pe_record e)) as Hcs
    by (destruct Hadv as [_ [-> _]%step_record_shape]; done).
  rewrite <-Hcs in Hviol.
  pose proof (dispute_total _ _ _ _ _ _ _ _ Hr Hadv Hst HG Hnow Hfit Hc Hb Hact Hv Hviol) as H.
  destruct (dispute now d s) as [[ev| |] s']; try done. eauto.
Qed.

(** The tags of an active batch are among those of the tree. *)
Lemma NoDup_batch_tags id e recs k b rs :
  entry_inv id e recs → pe_batches e !! k = Some b → recs !! k = Some rs →
  is_active b = true → NoDup (tags_of rs).
Proof.
  intros Hei Hb Hrs Hact. destruct (entry_tally _ _ _ Hei) as (_ & Hnd & _).
  pose proof (ei_len _ _ _ Hei) as Hl.
  rewrite <-(take_drop_middle _ _ _ Hb), <-(take_drop_middle _ _ _ Hrs) in Hnd.
  rewrite active_records_app in Hnd by (rewrite !length_take; lia).
  change (b :: drop (S k) (pe_batches e)) with ([b] ++ drop (S k) (pe_batches e)) in Hnd.
  change (rs :: drop (S k) recs) with ([rs] ++ drop (S k) recs) in Hnd.
  rewrite active_records_app, active_records_single in Hnd by done.
  unfold tags_of in Hnd. rewrite !map_app in Hnd.
  apply list.NoDup_app in Hnd as (_ & _ & Hnd). by apply list.NoDup_app in Hnd as (Hnd & _ & _).
Qed.

(** The disputes a disputant builds are accepted.  In the dispute window,
    against an active batch, with a carrier that serves the petition's
    batches, whatever one of the three builders returns repudiates the batch:
    the openings verify, the registry derives the same evidence and finds the
    same violation, and the rebuild of the surviving batches succeeds. *)
Lemma disputant_accepted t tr G (s : Reg) now id e r recs k b d :
  reachable t tr G s → advanced now s id e r → pr_state r = DisputeWindow →
  now < pr_close_at_block r + RESOLUTION_DEADLINE_BLOCKS →
  pr_close_at_block r + RESOLUTION_DEADLINE_BLOCKS < 2 ^ 64 →
  G !! id = Some recs → carried s e recs →
  pe_batches e !! k = Some b → is_active b = true →
  built (reg_blob_carrier s) (dispute_context id e k b) d →
  ∃ ev s', dispute now d s = (Ok ev, s').
Proof. intros Hre%reachable_run_inv. by apply built_dispute_ok with (1 := Hre). Qed.

(** C10: at the positions of its own records, a batch the registry accepted
    cannot be disputed: every dispute that succeeds against an active batch
    the carrier serves points past the end of the batch. *)
Theorem accepted_batch_undisputable t tr G (s : Reg) now d ev s' e recs b rs :
  reachable t tr G s → dispute now d s = (Ok ev, s') →
  0 ≤ di_position_i d → (∀ j, di_position_j d = Some j → 0 ≤ j) →
  reg_petitions s !! di_petition_id d = Some e → G !! di_petition_id d = Some recs →
  let k := Z.to_nat (di_batch_index d) in
  pe_batches e !! k = Some b → recs !! k = Some rs →
  blob_carries (reg_blob_carrier s) (br_batch_versioned_hash b) rs →
  (length rs ≤ Z.to_nat (di_position_i d))%nat ∨
  ∃ j, di_position_j d = Some j ∧ (length rs ≤ Z.to_nat j)%nat.
Proof.
  intros [Hr _ _ Hrec _]%reachable_run_inv H Hi Hj He HG k Hb Hrs Hc.
  apply dispute_cases in H as [[? _]|H]; [done|].
  destruct H as (e0 & r & tr0 & ti & rr & idt & lc & [He0 Hstep] & Hst & Hd & _).
  assert (e0 = e) as -> by congruence.
  destruct (ri_entries _ _ Hr _ _ He) as (recs0 & HG0 & Hei).
  assert (recs0 = recs) as -> by congruence.
  destruct Hd as [_ (b0 & Hb0 & Hact & Hv) Hviol _]. cbn [pe_record pe_batches with_record] in *.
  fold k in Hb0. assert (b0 = b) as -> by congruence.
  assert (pr_class_set r = pr_class_set (pe_record e)) as Hcs
    by (by destruct (step_record_shape _ _ _ Hstep) as [-> _]).
  rewrite Hcs in Hviol. pose proof (list.Forall_lookup_1 _ _ _ _ (Hrec _ _ HG) Hrs) as Hok.
  destruct (list.Forall_lookup_1 _ _ _ _ (ei_records _ _ _ Hei) Hrs) as (Hlen & Hcls & Hinc).
  apply (honest_batch_unviolated (pr_class_set (pe_record e)) rs); try done.
  - eapply NoDup_batch_tags; eauto.
  - by eapply violation_sound.
Qed.

End registry_disputes.
