(* ===== verification/Relayer.v ===== *)
(** * The relayer

    Model of [relayer/]: the checks on signer submissions, the canonical order
    of a batch, the insertion of its leaves and tags into the relayer's
    replicas, publication and the batch proof.  [build_batch] takes [&mut self]
    and [&mut RelayerPetitionState]: both are the state of the monad, so that
    what an early return leaves behind is visible. *)

From Stdlib Require Import ZArith Lia Bool.
From stdpp Require Import base tactics list gmap strings numbers.
From S2P Require Import Prelude Field Types Predicate Poseidon Imt Records Blob Ports Disputant.

(** ** Types *)
Record PetitionView : Type := mk_petition_view {
  pv_petition_id : PetitionId;
  pv_r_root : Bytes32;
  pv_predicate_hash : Bytes32;
  pv_class_index : byte;
  pv_class_set : list ClassTag;
  pv_slot : Z;
  pv_running_root : Bytes32;
  pv_identity_tag_set_root : Bytes32;
  pv_leaf_count : Z;
  pv_signer_vk_hash : Bytes32;
}.

Record BatchPosition : Type := mk_position {
  bpos_submission : SignerSubmission;
  bpos_leaf_insert : ImtInsertWitness;
  bpos_identity_tag_insert : ImtInsertWitness;
}.

Inductive RelayerError : Type :=
| EmptyBatch
| BatchSizeExceeded (n max : nat)
| DuplicateNullifier (j i : nat)
| DuplicateIdentityTag (j i : nat)
| SignerProofInvalid (i : nat) (e : ProofError)
| RelayerClassTagOutOfSet (c : ClassTag) (i : nat)
| PetitionIdMismatch (i : nat)
| StateDiverged
| LeafCountOverflow
| RelayerBlob (e : BlobError)
| RelayerImt (e : ImtError)
| RelayerProof (e : ProofError).

Record RelayerPetitionState : Type := mk_relayer_state {
  rps_running_imt : IndexedMerkleTree;
  rps_identity_tag_imt : IndexedMerkleTree;
  rps_leaf_count : Z;
}.

Record Relayer (P B : Type) : Type := mk_relayer {
  rel_address : Address;
  rel_proof_backend : P;
  rel_blob_carrier : B;
}.
Arguments mk_relayer {P B}.
Arguments rel_address {P B}.
Arguments rel_proof_backend {P B}.
Arguments rel_blob_carrier {P B}.

(** An element of [verified]: the submission, its public inputs, its leaf and
    its class. *)
Abbreviation Verified := (SignerSubmission * SignerPublicInputs * Fr * ClassTag)%type.
Definition ver_submission (v : Verified) : SignerSubmission := v.1.1.1.
Definition ver_public (v : Verified) : SignerPublicInputs := v.1.1.2.
Definition ver_leaf (v : Verified) : Fr := v.1.2.

(** [sort_by_cached_key(|t| fr_to_be_bytes(&t.2))]: a stable sort. *)
Fixpoint insert_verified (x : Verified) (l : list Verified) : list Verified :=
  match l with
  | [] => [x]
  | y :: l' =>
      if bytes_ltb (fr_to_be_bytes (ver_leaf y)) (fr_to_be_bytes (ver_leaf x))
      then y :: insert_verified x l' else x :: l
  end.
Fixpoint sort_verified (l : list Verified) : list Verified :=
  match l with
  | [] => []
  | x :: l' => insert_verified x (sort_verified l')
  end.

(** The first-seen index per nullifier and per identity tag. *)
Definition dedupe_step (i : nat) (st : gmap (list byte) nat * gmap (list byte) nat)
  (v : Verified) : outcome RelayerError (gmap (list byte) nat * gmap (list byte) nat) :=
  let s := ver_submission v in
  let '(nulls, ids) := st in
  match nulls !! sub_nullifier s with
  | Some j => Err (DuplicateNullifier j i)
  | None =>
      match ids !! sub_identity_tag s with
      | Some j => Err (DuplicateIdentityTag j i)
      | None => Ok (<[sub_nullifier s := i]> nulls, <[sub_identity_tag s := i]> ids)
      end
  end.
Definition dedupe (l : list Verified) : outcome RelayerError unit :=
  for_eachi dedupe_step (∅, ∅) l;; Ok tt.

Section relayer.
Context `{C : Crypto} {P B : Type} {PB : ProofBackend P} {BC : BlobCarrier B}.

Abbreviation RState := (Relayer P B * RelayerPetitionState)%type.

Definition relayer_state_new : RelayerPetitionState := mk_relayer_state imt_new imt_new 0.

(** The public inputs a signer submission stands for. *)
Definition submission_public (s : SignerSubmission) : SignerPublicInputs :=
  mk_signer_public (fr_from_be_bytes (sub_r_root s)) (fr_from_be_bytes (sub_petition_id s))
    (fr_from_be_bytes (sub_predicate_hash s)) (fr_of_Z (byte_Z (sub_class_index s)))
    (fr_of_Z (sub_class_tag s)) (fr_of_Z (sub_slot s)) (fr_from_be_bytes (sub_nullifier s))
    (fr_from_be_bytes (sub_identity_tag s)).

Definition verify_submission (self : Relayer P B) (idx : nat) (s : SignerSubmission)
  (petition : PetitionView) : outcome RelayerError (SignerPublicInputs * Fr * ClassTag) :=
  ensure (bytes_eqb (sub_petition_id s) (pv_petition_id petition)) (PetitionIdMismatch idx);;
  ensure (memZ (sub_class_tag s) (pv_class_set petition))
    (RelayerClassTagOutOfSet (sub_class_tag s) idx);;
  let public := submission_public s in
  map_err (SignerProofInvalid idx)
    (verify_signer_proof (rel_proof_backend self) (sub_proof_bytes s) public);;
  let leaf := hash_leaf (sp_nullifier public) (sp_class_tag public) in
  Ok (public, leaf, sub_class_tag s).

(** The loop that fills [verified]. *)
Definition verify_all (self : Relayer P B) (petition : PetitionView)
  (submissions : list SignerSubmission) : outcome RelayerError (list Verified) :=
  for_eachi (λ i acc s,
      '(public, leaf, ct) ← verify_submission self i s petition;
      Ok (acc ++ [(s, public, leaf, ct)])) [] submissions.

(** One insertion into both replicas; the first stays if the second fails. *)
Definition insert_position (acc : list BatchPosition * list RecordEntry) (v : Verified)
  : M RState RelayerError (list BatchPosition * list RecordEntry) :=
  let s := ver_submission v in
  let '(positions, records) := acc in
  '(self, ps) ← mget;
  '(leaf_insert, running) ← mlift (map_err RelayerImt
    (imt_insert (rps_running_imt ps) (fr_to_be_bytes (ver_leaf v))));
  mput (self, mk_relayer_state running (rps_identity_tag_imt ps) (rps_leaf_count ps));;
  '(identity_tag_insert, idt) ← mlift (map_err RelayerImt
    (imt_insert (rps_identity_tag_imt ps) (sub_identity_tag s)));
  mput (self, mk_relayer_state running idt (rps_leaf_count ps));;
  mret (positions ++ [mk_position s leaf_insert identity_tag_insert],
        records ++ [mk_record (sub_nullifier s) (sub_identity_tag s) (sub_class_tag s)]).

(** [bls_fields.resize(24, 0)]. *)
Definition batch_bls_fields (records : list RecordEntry) : list Fr :=
  let fields := concat (map record_to_bls_fields records) in
  take KZG_OPENING_COUNT fields ++ replicate (KZG_OPENING_COUNT - length fields) (fr_of_Z 0).

Definition build_batch (petition : PetitionView) (submissions : list SignerSubmission)
  : M RState RelayerError (BatchSubmission * list BatchPosition) :=
  '(self, ps) ← mget;
  mlift (ensure (negb (length submissions =? 0)%nat) EmptyBatch);;
  mlift (ensure (negb (BATCH_SIZE_MAX <? length submissions)%nat)
    (BatchSizeExceeded (length submissions) BATCH_SIZE_MAX));;
  mlift (ensure (bytes_eqb (imt_root (rps_running_imt ps)) (pv_running_root petition)
      && bytes_eqb (imt_root (rps_identity_tag_imt ps)) (pv_identity_tag_set_root petition))
    StateDiverged);;
  verified ← mlift (verify_all self petition submissions);
  mlift (dedupe verified);;
  let verified := sort_verified verified in
  let prior_running_root := imt_root (rps_running_imt ps) in
  let prior_identity_tag_root := imt_root (rps_identity_tag_imt ps) in
  let prior_leaf_count := rps_leaf_count ps in
  '(positions, records) ← mfor_each insert_position ([], []) verified;
  '(self, ps) ← mget;
  leaf_count ← mlift (ok_or (checked_add 64 prior_leaf_count (Z.of_nat (length positions)))
    LeafCountOverflow);
  let ps := mk_relayer_state (rps_running_imt ps) (rps_identity_tag_imt ps) leaf_count in
  mput (self, ps);;
  let new_running_root := imt_root (rps_running_imt ps) in
  let new_identity_tag_root := imt_root (rps_identity_tag_imt ps) in
  '(vh, carrier) ← mlift (map_err RelayerBlob
    (blob_publish (rel_blob_carrier self) records));
  let self := mk_relayer (rel_address self) (rel_proof_backend self) carrier in
  mput (self, ps);;
  let public_inputs := mk_batch_public (fr_from_be_bytes (pv_petition_id petition))
    (fr_from_be_bytes (pv_r_root petition)) (fr_from_be_bytes (pv_predicate_hash petition))
    (fr_of_Z (byte_Z (pv_class_index petition))) (fr_of_Z (pv_slot petition))
    (fr_of_Z (Z.of_nat (length positions))) (fr_from_be_bytes prior_running_root)
    (fr_from_be_bytes new_running_root) (fr_from_be_bytes prior_identity_tag_root)
    (fr_from_be_bytes new_identity_tag_root) (fr_of_Z prior_leaf_count)
    (fr_of_Z leaf_count) (fr_from_be_bytes vh) (batch_bls_fields records)
    (fr_from_be_bytes (pv_signer_vk_hash petition)) in
  let position_witnesses := zip_with (λ v bp,
      mk_position_witness (ver_submission v) (ver_public v) (Some (bpos_leaf_insert bp))
        (Some (bpos_identity_tag_insert bp))) verified positions in
  proof_bytes ← mlift (map_err RelayerProof
    (generate_batch_proof (rel_proof_backend self) public_inputs position_witnesses));
  mret (mk_batch_submission public_inputs records proof_bytes, positions).
End relayer.
