(* ===== verification/RelayerOk.v ===== *)
(** * Batches of the relayer, accepted by the registry

    What [build_batch] returns when it returns: the records of the verified
    submissions in canonical order, replicas advanced by exactly these, and
    public inputs that pass every check of the registry's [publish_batch]
    when the relayer's replicas are in step with it. *)

From Stdlib Require Import ZArith Lia Bool.
From stdpp Require Import base tactics list gmap strings numbers sorting.
From S2P Require Import Prelude Field Types Predicate Poseidon Imt Records Blob Ports Organizer Disputant Registry RegistryInv RegistryRun RegistryTrace Relayer.

(** ** The canonical order *)
Definition leaf_le (x y : Verified) : Prop := fr_val (ver_leaf x) ≤ fr_val (ver_leaf y).

Lemma insert_verified_perm x l : insert_verified x l ≡ₚ x :: l.
Proof.
  induction l as [|y l IH]; cbn; [done|]. case_match; [|done]. rewrite IH. apply Permutation_swap.
Qed.
Lemma sort_verified_perm l : sort_verified l ≡ₚ l.
Proof. induction l as [|x l IH]; cbn; [done|]. by rewrite insert_verified_perm, IH. Qed.

Lemma insert_verified_sorted x l :
  StronglySorted leaf_le l → StronglySorted leaf_le (insert_verified x l).
Proof.
  intros H. induction H as [|y l Hs IH Hf]; cbn [insert_verified]; [by repeat constructor|].
  rewrite fr_to_be_bytes_ltb. unfold fr_ltb. destruct (_ <? _) eqn:E; reflect_bools.
  - constructor; [done|]. rewrite insert_verified_perm. constructor; [unfold leaf_le; lia|done].
  - constructor; [by constructor|]. constructor; [done|].
    eapply list.Forall_impl; [done|]. unfold leaf_le in *. intros z Hz. lia.
Qed.
Lemma sort_verified_sorted l : StronglySorted leaf_le (sort_verified l).
Proof. induction l as [|x l IH]; cbn; [constructor|]. by apply insert_verified_sorted. Qed.

Section relayer_ok.
Context `{C : Crypto} {P B : Type} {PB : ProofBackend P} {BC : BlobCarrier B}.

Definition record_of (s : SignerSubmission) : RecordEntry :=
  mk_record (sub_nullifier s) (sub_identity_tag s) (sub_class_tag s).

Definition verified_of (s : SignerSubmission) : Verified :=
  (s, submission_public s, record_leaf (record_of s), sub_class_tag s).

(** ** Verification *)
Lemma verify_submission_Ok (self : Relayer P B) i s pv r :
  verify_submission self i s pv = Ok r →
  r = (submission_public s, record_leaf (record_of s), sub_class_tag s) ∧
  sub_petition_id s = pv_petition_id pv ∧ sub_class_tag s ∈ pv_class_set pv ∧
  verify_signer_proof (rel_proof_backend self) (sub_proof_bytes s) (submission_public s) = Ok tt.
Proof.
  unfold verify_submission. intros H. inv_ok H. destruct a1.
  by apply bytes_eqb_eq in Ha; apply memZ_true in Ha0.
Qed.

Lemma verify_all_Ok (self : Relayer P B) pv subs vs :
  verify_all self pv subs = Ok vs →
  vs = map verified_of subs ∧
  Forall (λ s, sub_petition_id s = pv_petition_id pv ∧ sub_class_tag s ∈ pv_class_set pv ∧
    verify_signer_proof (rel_proof_backend self) (sub_proof_bytes s) (submission_public s)
      = Ok tt) subs.
Proof.
  unfold verify_all, for_eachi. intros H.
  enough (∀ i acc, for_eachi_from i (λ i acc s,
      '(public, leaf, ct) ← verify_submission self i s pv;
      Ok (acc ++ [(s, public, leaf, ct)])) acc subs = Ok vs →
    vs = acc ++ map verified_of subs ∧ Forall (λ s, sub_petition_id s = pv_petition_id pv ∧
      sub_class_tag s ∈ pv_class_set pv ∧ verify_signer_proof (rel_proof_backend self)
        (sub_proof_bytes s) (submission_public s) = Ok tt) subs) as Hgen by by apply (Hgen 0%nat []).
  clear H. induction subs as [|s subs IH]; intros i acc H; cbn [for_eachi_from] in H.
  { apply (inj Ok) in H as <-. cbn. by rewrite app_nil_r. }
  apply bind_Ok in H as (acc1 & H1 & H). apply bind_Ok in H1 as (r & Hr & H1).
  apply verify_submission_Ok in Hr as (-> & Hs). apply (inj Ok) in H1 as <-.
  apply IH in H as [-> Hf]. split; [by rewrite <-app_assoc|by constructor].
Qed.

(** ** Duplicates *)
Definition ver_tag (v : Verified) : list byte := sub_identity_tag (ver_submission v).
Definition ver_nullifier (v : Verified) : list byte := sub_nullifier (ver_submission v).

Lemma dedupe_loop_Ok i nulls ids vs st :
  for_eachi_from i dedupe_step (nulls, ids) vs = Ok st →
  NoDup (map ver_nullifier vs) ∧ NoDup (map ver_tag vs) ∧
  Forall (λ v, nulls !! ver_nullifier v = None ∧ ids !! ver_tag v = None) vs.
Proof.
  revert i nulls ids; induction vs as [|v vs IH]; intros i nulls ids H; cbn [for_eachi_from] in H.
  { split_and!; constructor. }
  apply bind_Ok in H as ([nulls1 ids1] & H1 & H). unfold dedupe_step in H1.
  fold (ver_nullifier v) (ver_tag v) in H1.
  destruct (nulls !! ver_nullifier v) eqn:E1; [done|].
  destruct (ids !! ver_tag v) eqn:E2; [done|]. apply (inj Ok) in H1. injection H1 as <- <-.
  apply IH in H as (Hn & Hi & Hf).
  assert (∀ x, x ∈ vs → ver_nullifier x ≠ ver_nullifier v ∧ ver_tag x ≠ ver_tag v ∧
    nulls !! ver_nullifier x = None ∧ ids !! ver_tag x = None) as Hx.
  { intros x Hx. rewrite list.Forall_forall in Hf. specialize (Hf x Hx) as [H1 H2].
    apply lookup_insert_None in H1 as [H1 H1'], H2 as [H2 H2']. by split_and!. }
  cbn [map]. split_and!.
  - constructor; [|done]. intros (x & E & Hin)%list_elem_of_fmap. by destruct (Hx x Hin) as (? & _).
  - constructor; [|done]. intros (x & E & Hin)%list_elem_of_fmap.
    by destruct (Hx x Hin) as (_ & ? & _).
  - constructor; [done|]. apply list.Forall_forall. intros x Hin. by apply Hx.
Qed.

Lemma dedupe_Ok vs :
  dedupe vs = Ok tt → NoDup (map ver_nullifier vs) ∧ NoDup (map ver_tag vs).
Proof.
  unfold dedupe, for_eachi. intros H. apply bind_Ok in H as (st & H & _).
  by apply dedupe_loop_Ok in H as (? & ? & _).
Qed.

(** ** The insertion loop *)
Lemma mbind_Ok {S E A A'} (m : M S E A) (f : A → M S E A') s b s' :
  (m ≫= f) s = (Ok b, s') → ∃ a s1, m s = (Ok a, s1) ∧ f a s1 = (Ok b, s').
Proof.
  unfold mbind, M_bind. destruct (m s) as [[a|e|] s1]; intros H; [by eauto|discriminate..].
Qed.

Lemma insert_loop_Ok subs (self : Relayer P B) tr ti lc ps0 rs0 positions records st' :
  mfor_each insert_position (ps0, rs0) (map verified_of subs) (self, mk_relayer_state tr ti lc)
    = (Ok (positions, records), st') →
  records = rs0 ++ map record_of subs ∧
  length positions = (length ps0 + length subs)%nat ∧
  ∃ tr' ti', st' = (self, mk_relayer_state tr' ti' lc) ∧
    for_each rebuild_record (tr, ti) (map record_of subs) = Ok (tr', ti').
Proof.
  revert tr ti ps0 rs0; induction subs as [|s subs IH]; intros tr ti ps0 rs0 H;
    cbn [map mfor_each] in H.
  { rewrite M_ret_eq in H. injection H as <- <- <-. cbn. rewrite app_nil_r, Nat.add_0_r.
    split_and!; [done|done|]. by exists tr, ti. }
  apply mbind_Ok in H as ([ps1 rs1] & st1 & H1 & H). unfold insert_position in H1.
  rewrite M_bind_get, M_bind_lift in H1. cbn [rps_running_imt rps_identity_tag_imt
    rps_leaf_count ver_leaf verified_of fst snd ver_submission] in H1.
  destruct (imt_insert tr _) as [[w1 t1]|er|] eqn:Hi1; [|discriminate..].
  cbn [map_err] in H1. rewrite M_bind_put, M_bind_lift in H1.
  destruct (imt_insert ti _) as [[w2 t2]|er|] eqn:Hi2; [|discriminate..].
  cbn [map_err] in H1. rewrite M_bind_put, M_ret_eq in H1. injection H1 as <- <- <-.
  apply IH in H as (-> & Hl & tr' & ti' & -> & Hreb). split_and!.
  - by rewrite <-app_assoc.
  - rewrite Hl, length_app. cbn. lia.
  - exists tr', ti'. split; [done|]. cbn [map for_each].
    rewrite (proj2 (rebuild_record_Ok _ _ _ t1 t2)); [done|]. eauto.
Qed.

(** ** The registry's loop accepts what the rebuild accepts *)
Lemma rebuild_replay cs tr ti prev a b rs tr' ti' :
  wf tr → wf ti →
  for_each rebuild_record (tr, ti) rs = Ok (tr', ti') →
  Forall (λ r, re_class_tag r ∈ cs) rs → leaves_increase prev rs = true →
  ∃ st, for_each (replay_record cs) (mk_scratch tr ti prev a b) rs = Ok st ∧
    sc_running_imt st = tr' ∧ sc_identity_tag_imt st = ti' ∧
    (rs ≠ [] → sc_last_running_root st = imt_root tr' ∧
               sc_last_identity_tag_root st = imt_root ti').
Proof.
  revert tr ti prev a b; induction rs as [|r rs IH]; intros tr ti prev a b Hw1 Hw2 H Hcs Hinc;
    cbn [for_each] in H |- *.
  { apply (inj Ok) in H. injection H as <- <-. eexists. split; [done|]. by split_and!. }
  apply bind_Ok in H as ([t1 t2] & H1 & H). apply rebuild_record_Ok in H1 as (w1 & w2 & Hi1 & Hi2).
  apply list.Forall_cons in Hcs as [Hc Hcs]. cbn [leaves_increase] in Hinc.
  apply andb_true_iff in Hinc as [Hp Hinc].
  destruct (imt_insert_wf _ _ _ _ Hw1 Hi1) as (Hw1' & _ & _ & Hr1 & _).
  destruct (imt_insert_wf _ _ _ _ Hw2 Hi2) as (Hw2' & _ & _ & Hr2 & _).
  destruct (IH t1 t2 (Some (fr_to_be_bytes (record_leaf r))) (iw_new_root w1) (iw_new_root w2)
    Hw1' Hw2' H Hcs Hinc) as (st & Hst & Htr & Hti & Hroots).
  assert (replay_record cs (mk_scratch tr ti prev a b) r = Ok (mk_scratch t1 t2
    (Some (fr_to_be_bytes (record_leaf r))) (iw_new_root w1) (iw_new_root w2))) as Hrep.
  { unfold replay_record. rewrite ensure_bind by by apply memZ_true.
    cbn [sc_prev_leaf sc_running_imt sc_identity_tag_imt].
    rewrite ensure_bind by done. by rewrite Hi1, Hi2. }
  exists st. split_and!; [by rewrite Hrep|done|done|]. intros _.
  destruct rs as [|r' rs]; [|by apply Hroots].
  cbn [for_each] in Hst, H. apply (inj Ok) in Hst as <-. apply (inj Ok) in H. injection H as <- <-.
  by split.
Qed.

(** Sorted and without duplicates is strictly increasing. *)
Lemma sorted_increase subs prev :
  StronglySorted leaf_le (map verified_of subs) → NoDup (leaves_of (map record_of subs)) →
  match prev with
  | Some p => Forall (λ s, bytes_ltb p (fr_to_be_bytes (record_leaf (record_of s))) = true) subs
  | None => True
  end →
  leaves_increase prev (map record_of subs) = true.
Proof.
  revert prev; induction subs as [|s subs IH]; intros prev Hs Hnd Hp; [done|].
  cbn [map] in Hs. apply StronglySorted_inv in Hs as [Hs Hf].
  cbn [map leaves_of] in Hnd. apply list.NoDup_cons in Hnd as [Hn Hnd].
  cbn [map leaves_increase]. apply andb_true_iff. split.
  { destruct prev as [p|]; [|done]. by apply list.Forall_cons in Hp as [? _]. }
  apply IH; [done|done|]. apply list.Forall_forall. intros x Hx.
  rewrite list.Forall_forall in Hf.
  rewrite fr_to_be_bytes_ltb. unfold fr_ltb. apply Z.ltb_lt.
  specialize (Hf (verified_of x) ltac:(apply list_elem_of_fmap; by exists x)).
  unfold leaf_le, ver_leaf, verified_of in Hf. cbn [fst snd] in Hf.
  assert (fr_val (record_leaf (record_of s)) ≠ fr_val (record_leaf (record_of x))); [|lia].
  intros E%fr_eq. apply Hn. rewrite E. unfold leaves_of. rewrite map_map.
  apply list_elem_of_fmap. by exists x.
Qed.

(** ** What [build_batch] returns *)
Definition batch_public (pv : PetitionView) (rs : list RecordEntry)
  (tr ti tr' ti' : IndexedMerkleTree) (lc : Z) (vh : list byte) : BatchPublicInputs :=
  mk_batch_public (fr_from_be_bytes (pv_petition_id pv))
    (fr_from_be_bytes (pv_r_root pv)) (fr_from_be_bytes (pv_predicate_hash pv))
    (fr_of_Z (byte_Z (pv_class_index pv))) (fr_of_Z (pv_slot pv))
    (fr_of_Z (Z.of_nat (length rs))) (fr_from_be_bytes (imt_root tr))
    (fr_from_be_bytes (imt_root tr')) (fr_from_be_bytes (imt_root ti))
    (fr_from_be_bytes (imt_root ti')) (fr_of_Z lc)
    (fr_of_Z (lc + Z.of_nat (length rs))) (fr_from_be_bytes vh) (batch_bls_fields rs)
    (fr_from_be_bytes (pv_signer_vk_hash pv)).

Record batch_built (pv : PetitionView) (subs : list SignerSubmission) (self self' : Relayer P B)
  (tr ti tr' ti' : IndexedMerkleTree) (lc : Z) (batch : BatchSubmission) : Prop := {
  bb_size : (1 ≤ length subs ≤ BATCH_SIZE_MAX)%nat;
  bb_prior : imt_root tr = pv_running_root pv ∧ imt_root ti = pv_identity_tag_set_root pv;
  bb_count : lc + Z.of_nat (length subs) < 2 ^ 64;
  bb_distinct : NoDup (map sub_nullifier subs) ∧ NoDup (map sub_identity_tag subs);
  bb_subs : ∃ subs' vh wits, subs' ≡ₚ subs ∧ StronglySorted leaf_le (map verified_of subs') ∧
    Forall (λ s, sub_petition_id s = pv_petition_id pv ∧ sub_class_tag s ∈ pv_class_set pv ∧
      verify_signer_proof (rel_proof_backend self) (sub_proof_bytes s) (submission_public s)
        = Ok tt) subs' ∧
    bs_records batch = map record_of subs' ∧
    for_each rebuild_record (tr, ti) (map record_of subs') = Ok (tr', ti') ∧
    blob_publish (rel_blob_carrier self) (map record_of subs') = Ok (vh, rel_blob_carrier self') ∧
    bs_public_inputs batch = batch_public pv (map record_of subs') tr ti tr' ti' lc vh ∧
    generate_batch_proof (rel_proof_backend self) (bs_public_inputs batch) wits
      = Ok (bs_proof_bytes batch);
  bb_self : rel_proof_backend self' = rel_proof_backend self;
}.

Lemma build_batch_Ok pv subs self tr ti lc batch positions self' ps' :
  build_batch pv subs (self, mk_relayer_state tr ti lc) = (Ok (batch, positions), (self', ps')) →
  ∃ tr' ti', ps' = mk_relayer_state tr' ti' (lc + Z.of_nat (length subs)) ∧
    batch_built pv subs self self' tr ti tr' ti' lc batch.
Proof.
  unfold build_batch. intros H. rewrite M_bind_get, M_bind_lift in H.
  destruct (length subs =? 0)%nat eqn:H0; cbn [negb ensure] in H; [discriminate|].
  rewrite M_bind_lift in H.
  destruct (BATCH_SIZE_MAX <? length subs)%nat eqn:Hmax; cbn [negb ensure] in H; [discriminate|].
  rewrite M_bind_lift in H. cbn [rps_running_imt rps_identity_tag_imt rps_leaf_count] in H.
  destruct (bytes_eqb (imt_root tr) _ && _) eqn:Hroots; cbn [ensure] in H; [|discriminate].
  rewrite M_bind_lift in H.
  destruct (verify_all self pv subs) as [vs| |] eqn:Hver; [|discriminate..].
  apply verify_all_Ok in Hver as [-> Hf]. rewrite M_bind_lift in H.
  destruct (dedupe (map verified_of subs)) as [[]| |] eqn:Hdd; [|discriminate..].
  apply dedupe_Ok in Hdd. rewrite !map_map in Hdd.
  destruct (Permutation_map_inv verified_of subs (sort_verified_perm (map verified_of subs)))
    as (subs' & Hsub' & Hperm). rewrite Hsub' in H.
  pose proof (sort_verified_sorted (map verified_of subs)) as Hsorted. rewrite Hsub' in Hsorted.
  apply mbind_Ok in H as ([pos recs] & st1 & Hloop & H).
  apply insert_loop_Ok in Hloop as (-> & Hlen & tr' & ti' & -> & Hreb).
  cbn [length Nat.add app] in Hlen, H |- *.
  rewrite M_bind_get, M_bind_lift in H. cbn [rps_running_imt rps_identity_tag_imt] in H.
  destruct (checked_add 64 lc (Z.of_nat (length pos))) as [lc'|] eqn:Hadd;
    cbn [ok_or] in H; [|discriminate].
  apply checked_add_Some in Hadd as [-> Hfit]. rewrite M_bind_put, M_bind_lift in H.
  destruct (blob_publish (rel_blob_carrier self) (map record_of subs')) as [[vh car]| |] eqn:Hpub;
    cbn [map_err] in H; [|discriminate..].
  rewrite M_bind_put, M_bind_lift in H. cbn [rps_running_imt rps_identity_tag_imt
    rel_proof_backend] in H.
  destruct (generate_batch_proof _ _ _) as [proof| |] eqn:Hgen; cbn [map_err] in H;
    [|discriminate..].
  rewrite M_ret_eq in H. injection H as <- <- <- <-.
  pose proof (Permutation_length Hperm) as Hl. reflect_bools. exists tr', ti'. split.
  { rewrite Hlen, Hl. done. }
  constructor; [lia|by split; apply bytes_eqb_eq|lia|exact Hdd| |done].
  eexists subs', vh, _. split_and!; [done|done| |done|done|done| |exact Hgen].
  - by rewrite <-Hperm.
  - unfold batch_public. by rewrite length_map, Hlen.
Qed.

Lemma built_capacity pv subs self self' tr ti tr' ti' lc batch :
  batch_built pv subs self self' tr ti tr' ti' lc batch →
  (length (bs_records batch) ≤ RECORDS_PER_BLOB)%nat.
Proof.
  intros [Hsize _ _ _ (subs' & vh & wits & Hp & _ & _ & -> & _) _].
  rewrite length_map, (Permutation_length Hp).
  assert (BATCH_SIZE_MAX ≤ RECORDS_PER_BLOB)%nat by (by apply Nat.leb_le). lia.
Qed.
End relayer_ok.

(** ** Publication *)

(** The versioned hash a batch was published under, as its public inputs state
    it, and the one the registry recomputes from the batch's records. *)
Definition published_hash (batch : BatchSubmission) : Bytes32 :=
  fr_to_be_bytes (bp_batch_versioned_hash (bs_public_inputs batch)).
Definition registry_hash `{C : Crypto} (batch : BatchSubmission) : Bytes32 :=
  compute_batch_versioned_hash (blob_fes RECORDS_PER_BLOB (bs_records batch)).

(** The in-memory carrier addresses blobs by the registry's hash. *)
Lemma mem_publish_address `{C : Crypto} b rs vh b' :
  blob_publish (B:=InMemoryBlobCarrier) b rs = Ok (vh, b') →
  vh = compute_batch_versioned_hash (blob_fes RECORDS_PER_BLOB rs).
Proof.
  intros H. cbn [blob_publish mem_carrier] in H. unfold mem_publish in H.
  apply bind_Ok in H as (fes & Hf & H). apply (inj Ok) in H. injection H as <- <-.
  by apply encode_blob_Ok in Hf as [_ ->].
Qed.

Lemma fr_to_u64_of n : 0 ≤ n < 2 ^ 64 → fr_to_u64 (fr_of_Z n) = Ok n.
Proof.
  intros Hn. assert (2 ^ 64 < fr_modulus) as Hm by done.
  unfold fr_to_u64. rewrite fr_to_be_bytes_eq, fr_val_of_Z by lia.
  assert (be_of_Z 32 n = zeros 24 ++ be_of_Z 8 n) as ->.
  { apply be_to_Z_inj; [by rewrite length_app, length_zeros, !length_be_of_Z|].
    rewrite be_to_Z_app, be_to_Z_zeros, !be_to_of_Z_small; [lia| |];
      [change (256 ^ Z.of_nat 8) with (2 ^ 64); lia|].
    change (256 ^ Z.of_nat 32) with (2 ^ 256). split; [lia|].
    apply Z.lt_trans with (2 ^ 64); [lia|done]. }
  rewrite take_app_length' by done. rewrite all_zero_zeros. cbn [ensure mbind outcome_bind].
  rewrite drop_app_length' by done. rewrite take_ge by by rewrite length_be_of_Z.
  rewrite be_to_of_Z_small; [done|]. change (256 ^ Z.of_nat 8) with (2 ^ 64). lia.
Qed.

Section acceptance.
Context `{C : Crypto} {L : CryptoLaws C} {P R B : Type}.
Context {PB : ProofBackend P} {PL : ProofLaws P} {RI : RiCredentialLayer R}.
Context {BC : BlobCarrier B}.

Abbreviation Reg := (PetitionRegistry P R B).

(** The view a relayer works from, read off the registry's record. *)
Definition view_of (r : PetitionRecord) (signer_vk_hash : list byte) : PetitionView :=
  mk_petition_view (pr_petition_id r) (pr_r_root r) (pr_predicate_hash r) (pr_class_index r)
    (pr_class_set r) (pr_slot r) (pr_running_root r) (pr_identity_tag_set_root r)
    (pr_leaf_count r) signer_vk_hash.

(** The replica a relayer keeps, in step with the registry. *)
Definition replica_of (e : PetitionEntry) : RelayerPetitionState :=
  mk_relayer_state (pe_running_imt e) (pe_identity_tag_imt e) (pr_leaf_count (pe_record e)).

Lemma publish_total G now id relayer sub (s : Reg) e r x :
  rinv G s → advanced now s id e r → pr_state r = SigningOpen →
  publish_checked s (with_record e r) sub = Ok x →
  is_ok (publish_batch now id relayer sub s).1 = true.
Proof.
  intros Hs Hadv Hst Hp. unfold publish_batch.
  pose proof (rinv_advanced _ _ _ _ _ _ Hs Hadv) as Hs1.
  destruct (ri_entries _ _ Hs1 id (with_record e r)) as (recs & _ & Hei);
    [apply lookup_insert_eq|].
  rewrite (step_state_run _ _ _ _ _ _ Hadv), M_bind_lift, Hst, bool_decide_eq_true_2 by done.
  cbn [ensure]. rewrite M_bind_get, M_bind_lift, petition_set, M_bind_lift.
  change (publish_checked (set_entry s id (with_record e r))) with (publish_checked s).
  rewrite Hp. destruct x as [[vh lc] sc]. rewrite M_bind_put, M_bind_lift.
  assert (Z.of_nat (length (pe_batches e)) < 2 ^ 24) as Hb
    by (eapply (open_batches_bound id (with_record e r)); [done|cbn; by rewrite Hst]).
  rewrite ensure_bind by (apply Z.ltb_lt; cbn [pe_batches with_record]; lia). done.
Qed.

Lemma record_leaf_NoDup tr ti rs tr' ti' :
  wf tr → wf ti → for_each rebuild_record (tr, ti) rs = Ok (tr', ti') → NoDup (leaves_of rs).
Proof.
  intros H1 H2 H. destruct (rebuild_wf _ _ _ _ _ H1 H2 H) as (Hw & _ & Hv & _).
  pose proof (linked_NoDup _ (wf_linked _ Hw)) as Hn. rewrite Hv in Hn.
  by apply list.NoDup_app in Hn as (_ & _ & Hn).
Qed.

Lemma canonical_root t : fr_to_be_bytes (fr_from_be_bytes (imt_root t)) = imt_root t.
Proof. unfold imt_root. by rewrite fr_from_to_be_bytes. Qed.

(** Every check of [publish_batch], passed. *)
Lemma batch_checked id (s : Reg) e recs self self' subs batch tr' ti' vk :
  entry_inv id e recs → pr_state (pe_record e) = SigningOpen →
  rel_proof_backend self = reg_proof_backend s →
  batch_built (view_of (pe_record e) vk) subs self self' (pe_running_imt e)
    (pe_identity_tag_imt e) tr' ti' (pr_leaf_count (pe_record e)) batch →
  published_hash batch = registry_hash batch →
  ∃ vh st, publish_checked s e batch
      = Ok (vh, pr_leaf_count (pe_record e) + Z.of_nat (length subs), st) ∧
    sc_running_imt st = tr' ∧ sc_identity_tag_imt st = ti'.
Proof.
  intros Hei Hst Hbk Hb Hvh. pose proof (built_capacity _ _ _ _ _ _ _ _ _ _ Hb) as Hcap.
  destruct Hb as [Hsize [Hp1 Hp2] Hcount _ Hsubs _].
  destruct Hsubs as (subs' & vh & wits & Hperm & Hsort & Hver & Hrecs & Hreb & Hpub & Hpi & Hgen).
  pose proof (Permutation_length Hperm) as Hlen.
  destruct (trees_of_wf _ _ _ (ei_trees _ _ _ Hei)) as (Hw1 & Hw2 & _).
  assert (0 ≤ pr_leaf_count (pe_record e)) as Hlc0 by (rewrite (ei_count _ _ _ Hei); lia).
  assert (Forall (λ r, re_class_tag r ∈ pr_class_set (pe_record e)) (map record_of subs')) as Hcs.
  { apply Forall_fmap. eapply list.Forall_impl; [exact Hver|]. by intros x (_ & Hx & _). }
  destruct (rebuild_replay (pr_class_set (pe_record e)) _ _ None (imt_root (pe_running_imt e))
    (imt_root (pe_identity_tag_imt e)) _ _ _ Hw1 Hw2 Hreb Hcs) as (st & Hst' & Htr & Hti & Hroots).
  { apply sorted_increase; [done| |done]. exact (record_leaf_NoDup _ _ _ _ _ Hw1 Hw2 Hreb). }
  destruct Hroots as [Hr1 Hr2].
  { intros E%(f_equal length). rewrite length_map, Hlen in E. cbn [length] in E. lia. }
  apply batch_proof_complete in Hgen. rewrite Hbk in Hgen.
  unfold published_hash, registry_hash in Hvh. rewrite Hrecs in Hvh, Hcap.
  eexists _, st. split; [|done]. unfold publish_checked. cbv zeta. rewrite Hrecs, Hgen.
  rewrite (proj2 (encode_blob_Ok _ (blob_fes RECORDS_PER_BLOB (map record_of subs')))) by done.
  cbn [map_err]. rewrite Ok_bind. rewrite Hvh, ensure_bind by by apply bytes_eqb_eq.
  cbn [map_err]. rewrite Ok_bind, Hpi.
  cbn [batch_public bp_batch_versioned_hash bp_petition_id bp_r_root bp_predicate_hash
    bp_class_index bp_slot bp_batch_size bp_prior_running_root bp_prior_identity_tag_set_root
    bp_prior_leaf_count bp_new_leaf_count bp_new_running_root bp_new_identity_tag_set_root
    view_of pv_petition_id pv_r_root pv_predicate_hash pv_class_index pv_slot].
  rewrite ensure_bind by by rewrite !(proj2 (fr_eqb_eq _ _) eq_refl).
  rewrite ensure_bind by by apply fr_eqb_eq.
  rewrite length_map, Hlen.
  assert (Z.of_nat BATCH_SIZE_MAX < 2 ^ 64) as H6 by done.
  rewrite (fr_to_u64_of (Z.of_nat (length subs))), Ok_bind by lia.
  rewrite ensure_bind by (apply negb_true_iff, orb_false_iff; split;
    [apply Z.eqb_neq|apply Z.ltb_ge]; lia).
  rewrite ensure_bind by (apply Z.eqb_eq; lia).
  rewrite (fr_to_u64_of (pr_leaf_count (pe_record e))), Ok_bind by lia. rewrite !canonical_root.
  cbn [view_of pv_running_root pv_identity_tag_set_root] in Hp1, Hp2.
  rewrite ensure_bind by by rewrite Z.eqb_refl, Hp1, Hp2, !(proj2 (bytes_eqb_eq _ _) eq_refl).
  rewrite (fr_to_u64_of (pr_leaf_count (pe_record e) + Z.of_nat (length subs))), Ok_bind by lia.
  rewrite (ok_or_bind _ _ (pr_leaf_count (pe_record e) + Z.of_nat (length subs)))
    by by apply checked_add_Some.
  rewrite ensure_bind by apply Z.eqb_refl.
  rewrite Hst', Ok_bind.
  rewrite ensure_bind by by apply bytes_eqb_eq. rewrite ensure_bind by by apply bytes_eqb_eq. done.
Qed.

(** The hash in a built batch is the carrier's. *)
Lemma built_published pv subs self self' tr ti tr' ti' lc batch :
  batch_built pv subs self self' tr ti tr' ti' lc batch →
  ∃ vh, blob_publish (rel_blob_carrier self) (bs_records batch) = Ok (vh, rel_blob_carrier self')
    ∧ published_hash batch = fr_to_be_bytes (fr_from_be_bytes vh).
Proof.
  intros [_ _ _ _ (subs' & vh & wits & _ & _ & _ & Hrecs & _ & Hpub & Hpi & _) _].
  exists vh. rewrite Hrecs. split; [done|]. unfold published_hash. by rewrite Hpi.
Qed.

(** A batch whose versioned hash is not the registry's is refused. *)
Lemma publish_mismatch now id relayer (s : Reg) e r batch :
  advanced now s id e r → pr_state r = SigningOpen →
  (length (bs_records batch) ≤ RECORDS_PER_BLOB)%nat → published_hash batch ≠ registry_hash batch →
  publish_batch now id relayer batch s
  = (Err (RegistryBlob (BlobMalformed "batch_versioned_hash mismatch")),
     set_entry s id (with_record e r)).
Proof.
  intros Hadv Hst Hl Hne. unfold publish_batch.
  rewrite (step_state_run _ _ _ _ _ _ Hadv), M_bind_lift, Hst, bool_decide_eq_true_2 by done.
  cbn [ensure]. rewrite M_bind_get, M_bind_lift, petition_set, M_bind_lift.
  unfold publish_checked.
  rewrite (proj2 (encode_blob_Ok _ (blob_fes RECORDS_PER_BLOB (bs_records batch)))) by done.
  cbn [map_err]. rewrite Ok_bind. fold (registry_hash batch) (published_hash batch).
  destruct (bytes_eqb (registry_hash batch) (published_hash batch)) eqn:E; [|done].
  apply bytes_eqb_eq in E. congruence.
Qed.

(** C3: the relayer's batches, at the registry.  While signing is open, take a
    relayer that works from the registry's record and a replica in step with
    it, and that uses the registry's proof system.  A batch it builds is
    accepted by [publish_batch] when the carrier addressed it by the registry's
    own hash, [compute_batch_versioned_hash] of the encoded records, as the
    in-memory carrier does ([mem_publish_address]); its replica is then in step
    with the registry again, so that the next batch is accepted as well.  Under
    any other address, such as the KZG versioned hash of the EIP-4844 carrier,
    the batch is refused for that mismatch and the petition is as it was. *)
Theorem relayer_batch_accepted t tr G (s : Reg) now id e r self self' ps' subs batch positions
  vk relayer :
  reachable t tr G s → advanced now s id e r → pr_state r = SigningOpen →
  rel_proof_backend self = reg_proof_backend s →
  build_batch (view_of r vk) subs (self, replica_of (with_record e r))
    = (Ok (batch, positions), (self', ps')) →
  (∃ vh, blob_publish (rel_blob_carrier self) (bs_records batch) = Ok (vh, rel_blob_carrier self') ∧
     published_hash batch = fr_to_be_bytes (fr_from_be_bytes vh)) ∧
  if bytes_eqb (published_hash batch) (registry_hash batch) then
    ∃ ev s' e', publish_batch now id relayer batch s = (Ok ev, s') ∧
      reg_petitions s' !! id = Some e' ∧ ps' = replica_of e' ∧
      imt_root (rps_running_imt ps') = pr_running_root (pe_record e') ∧
      pr_leaf_count (pe_record e') = pr_leaf_count r + Z.of_nat (length subs)
  else publish_batch now id relayer batch s
       = (Err (RegistryBlob (BlobMalformed "batch_versioned_hash mismatch")),
          set_entry s id (with_record e r)).
Proof.
  intros [Hr _ _ _ _]%reachable_run_inv Hadv Hst Hbk H.
  apply build_batch_Ok in H as (tr' & ti' & -> & Hb).
  split; [by eapply built_published|].
  destruct (bytes_eqb _ _) eqn:Hvh; cycle 1.
  { eapply publish_mismatch; [done|done|by eapply built_capacity|].
    intros E%bytes_eqb_eq. congruence. }
  apply bytes_eqb_eq in Hvh.
  pose proof (rinv_advanced _ _ _ _ _ _ Hr Hadv) as Hr1.
  destruct (ri_entries _ _ Hr1 id (with_record e r)) as (recs & HG & Hei);
    [apply lookup_insert_eq|].
  destruct (batch_checked id s (with_record e r) recs self self' subs batch tr' ti' vk Hei Hst
    Hbk Hb Hvh) as (vh & st & Hchk & Htr & Hti).
  pose proof (publish_total _ _ _ relayer _ _ _ _ _ Hr Hadv Hst Hchk) as Hok.
  destruct (publish_batch now id relayer batch s) as [res s'] eqn:Hpub. cbn [fst] in Hok.
  pose proof Hpub as Hcase. eapply publish_cases in Hcase as [[Hf _]|Hcase]; [congruence| |done].
  destruct Hcase as (e0 & r0 & vh0 & lc0 & st0 & [He0 Hr0] & _ & Hp & -> & ->).
  destruct Hadv as [He Hstep]. assert (e0 = e) as -> by congruence.
  rewrite Hstep in Hr0. apply (inj Ok) in Hr0 as <-.
  apply publish_checked_Ok in Hchk.
  pose proof (pub_replay _ _ _ _ _ _ Hchk) as Hrep. rewrite (pub_replay _ _ _ _ _ _ Hp) in Hrep.
  apply (inj Ok) in Hrep as ->.
  pose proof (pub_count _ _ _ _ _ _ Hchk) as Hc1. pose proof (pub_count _ _ _ _ _ _ Hp) as Hc2.
  rewrite <-Hc2 in Hc1. cbn [pe_record with_record] in Hc1.
  eexists _, _, _. split; [reflexivity|]. split; [apply lookup_insert_eq|].
  unfold replica_of. cbn [pe_running_imt pe_identity_tag_imt pe_record set_roots pr_leaf_count
    pr_running_root rps_running_imt with_record]. rewrite <-Hc1. split_and!; [by rewrite Htr, Hti| |done].
  rewrite (pub_rr _ _ _ _ _ _ Hp).
  destruct (trees_of_wf _ _ _ (ei_trees _ _ _ Hei)) as (Hw1 & Hw2 & _).
  pose proof (pub_replay _ _ _ _ _ _ Hp) as Hrep.
  apply replay_rebuild in Hrep as (_ & _ & Hroots); [|done..].
  pose proof (pub_size _ _ _ _ _ _ Hp). rewrite <-Htr. symmetry. apply Hroots.
  by destruct (bs_records batch); [cbn in *; lia|].
Qed.
End acceptance.
