(* ===== verification/Resolver.v ===== *)
(** * The resolver

    Model of [resolver/]: the leaf set is read back from the blobs of the
    active batches and checked against the registry's root and count, the
    classes are counted, and the resolution proof is built over the final
    tree. *)

From Stdlib Require Import ZArith Lia Bool.
From stdpp Require Import base tactics list gmap strings numbers.
From S2P Require Import Prelude Field Types Predicate Poseidon Imt ImtCircuit Records Blob Ports Disputant.

(** ** Types *)
Record ResolverView : Type := mk_resolver_view {
  rv_petition_id : PetitionId;
  rv_r_root : Bytes32;
  rv_predicate_hash : Bytes32;
  rv_running_root : Bytes32;
  rv_leaf_count : Z;
  rv_class_set : list ClassTag;
  rv_class_thresholds : list Z;
  rv_class_index : byte;
  rv_active_batch_versioned_hashes : list Bytes32;
}.

Inductive ResolverError : Type :=
| ResolverBadState
| NoBatches
| LeafCountMismatch (got expected : Z)
| RootMismatch
| LeafOrderingFailure (i : nat)
| ResolverBlob (e : BlobError)
| ResolverImt (e : ImtError)
| ResolverProof (e : ProofError).

Record Resolver (P B : Type) : Type := mk_resolver {
  rsv_proof_backend : P;
  rsv_blob_carrier : B;
}.
Arguments mk_resolver {P B}.
Arguments rsv_proof_backend {P B}.
Arguments rsv_blob_carrier {P B}.

(** ** [slice::binary_search]

    The loop halves the window until one element is left. *)
Fixpoint search_loop (fuel : nat) (l : list Z) (x : Z) (base size : nat) : nat :=
  match fuel with
  | O => base
  | S fuel' =>
      if (size <=? 1)%nat then base
      else
        let half := (size / 2)%nat in
        let mid := (base + half)%nat in
        let base := match l !! mid with
                    | Some y => if x <? y then base else mid
                    | None => base
                    end in
        search_loop fuel' l x base (size - half)
  end.
Definition binary_search (l : list Z) (x : Z) : option nat :=
  let base := search_loop (length l) l x 0 (length l) in
  match l !! base with
  | Some y => if x =? y then Some base else None
  | None => None
  end.

(** ** The outcome *)
Abbreviation LeafEntry := (Fr * Fr * Fr)%type.

Definition entry_class (x : LeafEntry) : Z := be_to_Z (drop 30 (fr_to_be_bytes x.2)).

Definition count_entry (class_set : list Z) (counts : list Z) (x : LeafEntry) : list Z :=
  match binary_search class_set (entry_class x) with
  | Some i => alter (λ c, c + 1) i counts
  | None => counts
  end.

Definition compute_outcome (view : ResolverView) (entries : list LeafEntry)
  : bool * list bool :=
  let counts := foldl (count_entry (rv_class_set view))
    (replicate (length (rv_class_set view)) 0) entries in
  let b_per_class := zip_with (λ c t, t <=? c) counts (rv_class_thresholds view) in
  (forallb id b_per_class, b_per_class).

Section resolver.
Context `{C : Crypto} {P B : Type} {PB : ProofBackend P} {BC : BlobCarrier B}.

(** One record: its leaf goes into the tree, its triple into the entries. *)
Definition push_record (st : IndexedMerkleTree * list LeafEntry) (record : RecordEntry)
  : outcome ResolverError (IndexedMerkleTree * list LeafEntry) :=
  let '(imt, entries) := st in
  let nullifier_fr := fr_from_be_bytes (re_nullifier record) in
  let class_tag_fr := fr_of_Z (re_class_tag record) in
  let leaf_fr := hash_leaf nullifier_fr class_tag_fr in
  '(_, imt) ← map_err ResolverImt (imt_insert imt (fr_to_be_bytes leaf_fr));
  Ok (imt, entries ++ [(leaf_fr, nullifier_fr, class_tag_fr)]).

Definition reconstruct (self : Resolver P B) (view : ResolverView)
  : outcome ResolverError (list LeafEntry) :=
  ensure (negb (length (rv_active_batch_versioned_hashes view) =? 0)%nat) NoBatches;;
  '(imt, entries) ← for_each (λ st vh,
      records ← map_err ResolverBlob (blob_fetch_records (rsv_blob_carrier self) vh);
      for_each push_record st records)
    (imt_new, []) (rv_active_batch_versioned_hashes view);
  ensure (Z.of_nat (length entries) =? rv_leaf_count view)
    (LeafCountMismatch (Z.of_nat (length entries)) (rv_leaf_count view));;
  ensure (bytes_eqb (imt_root imt) (rv_running_root view)) RootMismatch;;
  Ok entries.

(** [hash_imt_leaf] of this module, over the wire form of a leaf. *)
Definition resolver_leaf_hash (leaf : ImtLeaf) : Fr :=
  poseidon4 (fr_from_be_bytes (leaf_value leaf)) (fr_of_Z (leaf_next_index leaf))
    (fr_from_be_bytes (leaf_next_value leaf)) (fr_of_Z 0).

Definition membership_fr (m : ImtMembership) : ImtMembershipFr :=
  mk_membership_fr (resolver_leaf_hash (mem_leaf m)) (mem_leaf_index m)
    (leaf_next_index (mem_leaf m)) (fr_from_be_bytes (leaf_next_value (mem_leaf m)))
    (map fr_from_be_bytes (imt_siblings (mem_path m))) (imt_indices (mem_path m)).

Definition bool_Z (b : bool) : Z := if b then 1 else 0.

Definition build_submission (self : Resolver P B) (view : ResolverView)
  (entries : list LeafEntry) : outcome ResolverError ResolutionSubmission :=
  let '(b, b_per_class) := compute_outcome view entries in
  imt ← for_each (λ imt x,
      '(_, imt) ← map_err ResolverImt (imt_insert imt (fr_to_be_bytes x.1.1)); Ok imt)
    imt_new entries;
  imt_membership ← for_each (λ acc x,
      m ← ok_or (imt_membership imt (fr_to_be_bytes x.1.1)) RootMismatch;
      Ok (acc ++ [membership_fr m])) [] entries;
  let public := mk_resolution_public (fr_from_be_bytes (rv_predicate_hash view))
    (fr_from_be_bytes (rv_r_root view)) (fr_from_be_bytes (rv_running_root view))
    (fr_of_Z (rv_leaf_count view)) (map fr_of_Z (rv_class_set view))
    (map fr_of_Z (rv_class_thresholds view)) (fr_of_Z (bool_Z b))
    (map (λ x, fr_of_Z (bool_Z x)) b_per_class) (fr_of_Z (byte_Z (rv_class_index view))) in
  let private := mk_resolution_private (map (λ x, x.1.1) entries) imt_membership
    (map (λ x, (x.1.2, x.2)) entries) in
  proof_bytes ← map_err ResolverProof
    (generate_resolution_proof (rsv_proof_backend self) public private);
  Ok (mk_resolution_submission public proof_bytes).

Definition resolver_resolve (self : Resolver P B) (view : ResolverView)
  : outcome ResolverError ResolutionSubmission :=
  entries ← reconstruct self view;
  build_submission self view entries.
End resolver.
