(* ===== verification/ResolverOk.v ===== *)
(** * The tally of the resolver, and its resolutions at the registry

    The binary search finds the class it looks for, the outcome bits are the
    exact per-class counts compared with the thresholds, the leaf set read
    back from the blobs is the one the registry counted, and the registry
    accepts the resolution. *)

From Stdlib Require Import ZArith Lia Bool.
From stdpp Require Import base tactics list gmap strings numbers.
From S2P Require Import Prelude Field Types Predicate Poseidon Imt ImtCircuit Records Blob Ports Organizer Disputant Registry RegistryInv RegistryRun RegistryTrace Disputes Relayer RelayerOk Resolver.

(** ** Binary search *)
Lemma search_loop_spec fuel l x base size i :
  strictly_increasing l = true → l !! i = Some x →
  (base ≤ i < base + size)%nat → (base + size ≤ length l)%nat → (size ≤ fuel)%nat →
  search_loop fuel l x base size = i.
Proof.
  intros Hs Hi. revert base size; induction fuel as [|fuel IH]; intros base size Hb Hl Hf; [lia|].
  cbn [search_loop]. destruct (size <=? 1)%nat eqn:E; reflect_bools; [lia|].
  assert (1 ≤ size / 2 < size)%nat as Hh.
  { split; [apply Nat.div_le_lower_bound; lia|apply Nat.div_lt; lia]. }
  destruct (lookup_lt_is_Some_2 l (base + size / 2)) as [y Hy]; [lia|]. rewrite Hy.
  destruct (x <? y) eqn:Hxy; reflect_bools; apply IH; try lia.
  - split; [lia|]. destruct (decide (i < base + size / 2)%nat) as [?|Hge].
    { pose proof (Nat.div_mod size 2). pose proof (Nat.mod_upper_bound size 2). lia. }
    exfalso. destruct (decide (i = base + size / 2)%nat) as [->|Hne];
      [rewrite Hy in Hi; injection Hi as ->; lia|].
    pose proof (strictly_increasing_lookup l (base + size / 2) i y x Hs ltac:(lia) Hy Hi). lia.
  - split; [|lia]. destruct (decide (base + size / 2 ≤ i)%nat) as [?|Hlt]; [lia|]. exfalso.
    pose proof (strictly_increasing_lookup l i (base + size / 2) x y Hs ltac:(lia) Hi Hy). lia.
Qed.

Lemma binary_search_spec l x i :
  strictly_increasing l = true → binary_search l x = Some i ↔ l !! i = Some x.
Proof.
  intros Hs. unfold binary_search. split.
  - case_match eqn:Hb; [|done]. case_match eqn:E; [|done]. intros [= <-]. reflect_bools. by subst.
  - intros Hi. rewrite (search_loop_spec _ l x 0 (length l) i); try done; try lia.
    + by rewrite Hi, Z.eqb_refl.
    + split; [lia|]. by eapply lookup_lt_Some.
Qed.

Lemma binary_search_None l x :
  strictly_increasing l = true → x ∉ l → binary_search l x = None.
Proof.
  intros Hs Hx. destruct (binary_search l x) as [i|] eqn:E; [|done].
  apply binary_search_spec in E; [|done]. destruct Hx. by eapply list_elem_of_lookup_2.
Qed.

(** ** Counting *)
Definition tally (c : Z) (classes : list Z) : Z :=
  Z.of_nat (length (List.filter (λ x, x =? c) classes)).

Lemma count_entries cs counts xs i c n :
  strictly_increasing cs = true → cs !! i = Some c → counts !! i = Some n →
  foldl (count_entry cs) counts xs !! i = Some (n + tally c (map entry_class xs)).
Proof.
  intros Hs Hc. revert counts n; induction xs as [|x xs IH]; intros counts n Hn.
  { cbn. unfold tally. cbn. by rewrite Z.add_0_r. }
  cbn [foldl map]. unfold tally. cbn [List.filter].
  assert (count_entry cs counts x !! i
    = Some (n + if entry_class x =? c then 1 else 0)) as Hx.
  { unfold count_entry. destruct (binary_search cs (entry_class x)) as [j|] eqn:Hj.
    - apply binary_search_spec in Hj; [|done]. destruct (decide (j = i)) as [->|Hne].
      + rewrite list_lookup_alter_eq, Hn. cbn. rewrite Hj in Hc. injection Hc as ->.
        by rewrite Z.eqb_refl.
      + rewrite list_lookup_alter_ne by done. rewrite Hn.
        destruct (entry_class x =? c) eqn:E; [|by rewrite Z.add_0_r].
        reflect_bools. exfalso. apply Hne.
        rewrite E in Hj. destruct (Nat.lt_trichotomy j i) as [H|[->|H]]; [|done|].
        * pose proof (strictly_increasing_lookup cs j i c c Hs H Hj Hc). lia.
        * pose proof (strictly_increasing_lookup cs i j c c Hs H Hc Hj). lia.
    - destruct (entry_class x =? c) eqn:E; [|by rewrite Z.add_0_r]. reflect_bools.
      rewrite E in Hj. pose proof (proj2 (binary_search_spec cs c i Hs) Hc). congruence. }
  rewrite (IH _ _ Hx). unfold tally. f_equal.
  destruct (entry_class x =? c); cbn [length]; lia.
Qed.

Lemma length_count_entry cs counts xs :
  length (foldl (count_entry cs) counts xs) = length counts.
Proof.
  revert counts; induction xs as [|x xs IH]; intros counts; cbn [foldl]; [done|].
  rewrite IH. unfold count_entry. case_match; [apply length_alter|done].
Qed.

Lemma outcome_bits view entries :
  strictly_increasing (rv_class_set view) = true →
  length (rv_class_thresholds view) = length (rv_class_set view) →
  let bs := (compute_outcome view entries).2 in
  length bs = length (rv_class_set view) ∧
  ∀ i c t, rv_class_set view !! i = Some c → rv_class_thresholds view !! i = Some t →
    bs !! i = Some (t <=? tally c (map entry_class entries)).
Proof.
  intros Hs Hl. unfold compute_outcome. cbv zeta. cbn [snd].
  assert (length (foldl (count_entry (rv_class_set view))
    (replicate (length (rv_class_set view)) 0) entries) = length (rv_class_set view)) as Hlc
    by by rewrite length_count_entry, length_replicate.
  split; [rewrite length_zip_with_l; lia|]. intros i c t Hc Ht.
  rewrite lookup_zip_with, Ht, (count_entries _ _ _ i c 0 Hs Hc); [done|].
  apply lookup_replicate_2. by eapply lookup_lt_Some.
Qed.

(** The outcome is the tally.  For a sorted class set with one threshold per
    class, the bit of each class says whether at least as many entries carry
    that class as the threshold asks, and the petition passes when every
    class does. *)
Lemma outcome_is_tally view entries :
  strictly_increasing (rv_class_set view) = true →
  length (rv_class_thresholds view) = length (rv_class_set view) →
  let '(b, bs) := compute_outcome view entries in
  length bs = length (rv_class_set view) ∧
  (∀ i c t, rv_class_set view !! i = Some c → rv_class_thresholds view !! i = Some t →
     bs !! i = Some (t <=? tally c (map entry_class entries))) ∧
  (b = true ↔ ∀ i c t, rv_class_set view !! i = Some c →
     rv_class_thresholds view !! i = Some t → t ≤ tally c (map entry_class entries)).
Proof.
  intros Hs Hl. destruct (outcome_bits view entries Hs Hl) as [Hlb Hbs].
  destruct (compute_outcome view entries) as [b bs] eqn:E. cbn [snd] in Hlb, Hbs.
  assert (b = forallb id bs) as -> by (unfold compute_outcome in E; by injection E as <- <-).
  split_and!; [done|done|]. rewrite forallb_forall. split.
  - intros Hall i c t Hc Ht. specialize (Hbs i c t Hc Ht). apply Z.leb_le, Hall.
    apply list_elem_of_In. by eapply list_elem_of_lookup_2.
  - intros Hall b Hb. apply list_elem_of_In, list_elem_of_lookup in Hb as [i Hi].
    pose proof (lookup_lt_Some _ _ _ Hi) as Hlt.
    destruct (lookup_lt_is_Some_2 (rv_class_set view) i) as [c Hc]; [lia|].
    destruct (lookup_lt_is_Some_2 (rv_class_thresholds view) i) as [t Ht]; [lia|].
    rewrite (Hbs i c t Hc Ht) in Hi. injection Hi as <-. cbn. apply Z.leb_le. by eapply Hall.
Qed.

(** ** Reading the leaf set back *)
Section reconstruct.
Context `{C : Crypto} {P B : Type} {PB : ProofBackend P}.
Context {BC : BlobCarrier B} {BL : BlobLaws B}.

Definition entry_of (r : RecordEntry) : LeafEntry :=
  (record_leaf r, fr_from_be_bytes (re_nullifier r), fr_of_Z (re_class_tag r)).

Lemma entry_class_of r : record_ok r → entry_class (entry_of r) = re_class_tag r.
Proof.
  intros (_ & _ & Hc). assert (65536 < fr_modulus) by done.
  unfold entry_class, entry_of. cbn [snd].
  rewrite fr_to_be_bytes_eq, fr_val_of_Z by lia.
  assert (be_of_Z 32 (re_class_tag r) = zeros 30 ++ be_of_Z 2 (re_class_tag r)) as ->.
  { apply be_to_Z_inj; [by rewrite length_app, length_zeros, !length_be_of_Z|].
    rewrite be_to_Z_app, be_to_Z_zeros, !be_to_of_Z_small; [lia| |].
    - change (256 ^ Z.of_nat 2) with 65536. lia.
    - change (256 ^ Z.of_nat 32) with (2 ^ 256). split; [lia|].
      apply Z.lt_trans with 65536; [lia|done]. }
  rewrite drop_app_length' by done. apply be_to_of_Z_small.
  change (256 ^ Z.of_nat 2) with 65536. lia.
Qed.

Lemma push_rebuild tr ti es rs tr' ti' :
  for_each rebuild_record (tr, ti) rs = Ok (tr', ti') →
  for_each push_record (tr, es) rs = Ok (tr', es ++ map entry_of rs).
Proof.
  revert tr ti es; induction rs as [|r rs IH]; intros tr ti es H; cbn [for_each map] in H |- *.
  { apply (inj Ok) in H. injection H as <- <-. by rewrite app_nil_r. }
  apply bind_Ok in H as ([t1 t2] & H1 & H). apply rebuild_record_Ok in H1 as (w1 & w2 & Hi1 & _).
  assert (push_record (tr, es) r = Ok (t1, es ++ [entry_of r])) as ->.
  { unfold push_record. unfold record_leaf in Hi1. rewrite Hi1. done. }
  rewrite Ok_bind, (IH _ _ _ H), <-app_assoc. done.
Qed.

(** The carrier serves every active batch of a list. *)
Definition serves (c : B) (bs : list BatchRecord) (recs : list (list RecordEntry)) : Prop :=
  ∀ i b rs, bs !! i = Some b → recs !! i = Some rs → is_active b = true →
    blob_carries c (br_batch_versioned_hash b) rs.

Lemma reconstruct_loop (self : Resolver P B) bs recs tr ti es tr' ti' :
  serves (rsv_blob_carrier self) bs recs → length recs = length bs →
  for_each rebuild_record (tr, ti) (active_records bs recs) = Ok (tr', ti') →
  for_each (λ st vh,
      records ← map_err ResolverBlob (blob_fetch_records (rsv_blob_carrier self) vh);
      for_each push_record st records)
    (tr, es) (map br_batch_versioned_hash (List.filter is_active bs))
  = Ok (tr', es ++ map entry_of (active_records bs recs)).
Proof.
  revert recs tr ti es; induction bs as [|b bs IH]; intros [|rs recs] tr ti es Hs Hl H; try done.
  { apply (inj Ok) in H. injection H as <- <-. cbn. by rewrite app_nil_r. }
  injection Hl as Hl. specialize (λ tr ti es, IH recs tr ti es (λ i, Hs (S i)) Hl).
  change (b :: bs) with ([b] ++ bs) in H |- *. change (rs :: recs) with ([rs] ++ recs) in H |- *.
  rewrite active_records_app in H |- * by done. cbn [List.filter app].
  destruct (is_active b) eqn:Hb; cbn [map for_each].
  - rewrite active_records_single in H |- * by done. rewrite for_each_app in H.
    apply bind_Ok in H as ([t1 t2] & H1 & H). cbv beta.
    rewrite (blob_fetch_carried _ _ rs) by by apply (Hs 0%nat).
    cbn [map_err]. rewrite Ok_bind, (push_rebuild _ _ es _ _ _ H1), Ok_bind.
    rewrite (IH _ _ _ H), map_app, app_assoc. done.
  - assert (active_records [b] [rs] = []) as E by (unfold active_records; cbn; by rewrite Hb).
    rewrite E in H |- *. cbn [app] in H |- *. by eapply IH.
Qed.

(** ** The proof inputs *)
Lemma entries_insert tr ti rs tr' ti' :
  for_each rebuild_record (tr, ti) rs = Ok (tr', ti') →
  for_each (λ imt (x : LeafEntry),
      '(_, imt) ← map_err ResolverImt (imt_insert imt (fr_to_be_bytes x.1.1)); Ok imt)
    tr (map entry_of rs) = Ok tr'.
Proof.
  revert tr ti; induction rs as [|r rs IH]; intros tr ti H; cbn [for_each map] in H |- *.
  { apply (inj Ok) in H. by injection H as <- <-. }
  apply bind_Ok in H as ([t1 t2] & H1 & H). apply rebuild_record_Ok in H1 as (w1 & w2 & Hi1 & _).
  cbn [entry_of fst]. rewrite Hi1. cbn [map_err]. rewrite !Ok_bind. by eapply IH.
Qed.

Lemma memberships_total t es acc :
  (∀ x, x ∈ es → (x : LeafEntry).1.1 ∈ values (imt_leaves t)) →
  ∃ ms, for_each (λ acc (x : LeafEntry),
      m ← ok_or (imt_membership t (fr_to_be_bytes x.1.1)) RootMismatch;
      Ok (acc ++ [membership_fr m])) acc es = Ok ms ∧
    length ms = (length acc + length es)%nat.
Proof.
  revert acc; induction es as [|x es IH]; intros acc Hx; cbn [for_each].
  { exists acc. split; [done|]. cbn. lia. }
  destruct (imt_membership t (fr_to_be_bytes x.1.1)) as [m|] eqn:Hm.
  - cbn [ok_or]. rewrite !Ok_bind. destruct (IH (acc ++ [membership_fr m])) as (ms & -> & Hl).
    { intros y Hy. apply Hx. by right. }
    exists ms. split; [done|]. rewrite Hl, length_app. cbn. lia.
  - apply imt_membership_None in Hm. rewrite fr_from_to_be_bytes in Hm.
    destruct Hm. apply Hx. by left.
Qed.

(** The public inputs of an honest resolution. *)
Definition resolution_public (view : ResolverView) (es : list LeafEntry)
  : ResolutionPublicInputs :=
  let '(b, bs) := compute_outcome view es in
  mk_resolution_public (fr_from_be_bytes (rv_predicate_hash view))
    (fr_from_be_bytes (rv_r_root view)) (fr_from_be_bytes (rv_running_root view))
    (fr_of_Z (rv_leaf_count view)) (map fr_of_Z (rv_class_set view))
    (map fr_of_Z (rv_class_thresholds view)) (fr_of_Z (bool_Z b))
    (map (λ x, fr_of_Z (bool_Z x)) bs) (fr_of_Z (byte_Z (rv_class_index view))).

(** With the batches served and the root and count they determine, the
    resolver gets as far as the proof system. *)
Lemma resolver_reaches_proof (self : Resolver P B) view bs recs tr ti :
  serves (rsv_blob_carrier self) bs recs → length recs = length bs →
  trees_of (active_records bs recs) = Ok (tr, ti) →
  rv_active_batch_versioned_hashes view = map br_batch_versioned_hash (List.filter is_active bs) →
  List.filter is_active bs ≠ [] →
  rv_leaf_count view = Z.of_nat (length (active_records bs recs)) →
  rv_running_root view = imt_root tr →
  let es := map entry_of (active_records bs recs) in
  ∃ private, length (rw_leaves private) = length es ∧
    length (rw_imt_membership_paths private) = length es ∧
    resolver_resolve self view
    = proof ← map_err ResolverProof (generate_resolution_proof (rsv_proof_backend self)
        (resolution_public view es) private);
      Ok (mk_resolution_submission (resolution_public view es) proof).
Proof.
  intros Hs Hl Ht Hvh Hne Hlc Hroot es.
  destruct (memberships_total tr es []) as (ms & Hms & Hlm).
  { intros x Hx. apply trees_of_wf in Ht as (_ & _ & -> & _). right.
    apply list_elem_of_fmap in Hx as (r & -> & Hr). apply list_elem_of_fmap. by exists r. }
  exists (mk_resolution_private (map (λ x, x.1.1) es) ms (map (λ x, (x.1.2, x.2)) es)).
  cbn [rw_leaves rw_imt_membership_paths]. rewrite length_map. split_and!; [done|done|].
  unfold resolver_resolve, reconstruct. rewrite Hvh.
  rewrite ensure_bind by (rewrite length_map; by destruct (List.filter is_active bs)).
  rewrite (reconstruct_loop self bs recs _ imt_new [] tr ti) by done. cbn [app]. fold es.
  rewrite Ok_bind, Hlc, Hroot.
  rewrite ensure_bind by (unfold es; rewrite length_map; apply Z.eqb_refl).
  rewrite ensure_bind by by apply bytes_eqb_eq. rewrite Ok_bind.
  unfold build_submission, resolution_public. destruct (compute_outcome view es) as [b bs'].
  pose proof (entries_insert imt_new imt_new _ tr ti Ht) as Hins. fold es in Hins.
  rewrite Hins, Ok_bind, Hms, Ok_bind. by rewrite Hlc, Hroot.
Qed.
End reconstruct.

Lemma for_eachi_unit_total {E A} (f : nat → A → outcome E unit) k l :
  (∀ i a, l !! i = Some a → f (k + i)%nat a = Ok tt) →
  for_eachi_from k (λ i _ a, f i a) tt l = Ok tt.
Proof.
  revert k; induction l as [|a l IH]; intros k H; cbn [for_eachi_from]; [done|].
  pose proof (H 0%nat a eq_refl) as H0. rewrite Nat.add_0_r in H0. rewrite H0, Ok_bind.
  apply IH. intros i x Hi. rewrite <-(H (S i) x Hi). f_equal. lia.
Qed.

Lemma fr_nonzero_bool b : fr_nonzero (fr_of_Z (bool_Z b)) = b.
Proof. by destruct b. Qed.

Section resolution.
Context `{C : Crypto} {P R B : Type}.
Context {PB : ProofBackend P} {PL : ProofLaws P} {RI : RiCredentialLayer R}.
Context {BC : BlobCarrier B} {BL : BlobLaws B}.

Abbreviation Reg := (PetitionRegistry P R B).

(** The view a resolver works from, read off the registry. *)
Definition resolver_view_of (e : PetitionEntry) : ResolverView :=
  let r := pe_record e in
  mk_resolver_view (pr_petition_id r) (pr_r_root r) (pr_predicate_hash r) (pr_running_root r)
    (pr_leaf_count r) (pr_class_set r) (pr_class_thresholds r) (pr_class_index r)
    (map br_batch_versioned_hash (List.filter is_active (pe_batches e))).

Lemma resolve_total G now id resolver sub (s : Reg) e r :
  rinv G s → advanced now s id e r → pr_state r = DisputeWindow →
  resolve_checked now s (with_record e r) DisputeWindow sub = Ok tt →
  is_ok (resolve now id resolver sub s).1 = true.
Proof.
  intros Hs Hadv Hst Hp. unfold resolve.
  pose proof (rinv_advanced _ _ _ _ _ _ Hs Hadv) as Hs1.
  rewrite (step_state_run _ _ _ _ _ _ Hadv), M_bind_lift, Hst, bool_decide_eq_true_2 by done.
  cbn [ensure]. rewrite M_bind_get, M_bind_lift, petition_set, M_bind_lift.
  change (resolve_checked now (set_entry s id (with_record e r))) with (resolve_checked now s).
  rewrite Hp, M_bind_put, M_bind_lift. cbn [pe_record with_record].
  rewrite u256_to_u128_fits by apply (ri_bounty _ _ Hs1 id (with_record e r)), lookup_insert_eq.
  done.
Qed.

(** The checks of [resolve] on an honest resolution. *)
Lemma resolution_checked now (s : Reg) e recs es proof :
  let r := pe_record e in let view := resolver_view_of e in
  entry_inv (pr_petition_id r) e recs → sound_terms r →
  pr_state r = DisputeWindow →
  pr_close_at_block r + RESOLUTION_DEADLINE_BLOCKS ≤ now →
  pr_close_at_block r + RESOLUTION_DEADLINE_BLOCKS < 2 ^ 64 →
  fr_to_be_bytes (fr_from_be_bytes (pr_r_root r)) = pr_r_root r →
  verify_resolution_proof (reg_proof_backend s) proof (resolution_public view es) = Ok tt →
  resolve_checked now s e DisputeWindow
    (mk_resolution_submission (resolution_public view es) proof) = Ok tt.
Proof.
  intros r view Hei Hsound Hst Hnow Hfit Hroot Hver.
  destruct (st_class_set _ Hsound) as [_ Hinc]. destruct (st_thresholds _ Hsound) as [Hlt _].
  destruct (outcome_bits view es Hinc Hlt) as [Hlb _].
  destruct (trees_size _ _ _ (ei_trees _ _ _ Hei)) as [_ Hsmall].
  pose proof (ei_count _ _ _ Hei) as Hcount. fold r in Hcount.
  assert (pr_running_root r = imt_root (pe_running_imt e)) as Hrr
    by (apply Hei; fold r; by rewrite Hst).
  unfold resolve_checked. cbv zeta. cbn [rs_public_inputs rs_proof_bytes]. fold r.
  rewrite (ok_or_bind _ _ (pr_close_at_block r + RESOLUTION_DEADLINE_BLOCKS))
    by by apply checked_add_Some.
  rewrite ensure_bind by (apply negb_true_iff, Z.ltb_ge; done).
  rewrite Hver. cbn [map_err]. rewrite Ok_bind.
  unfold resolution_public. destruct (compute_outcome view es) as [b bs].
  cbn [snd] in Hlb. cbn [rp_leaf_count rp_predicate_hash rp_r_root rp_running_root rp_class_set
    rp_class_thresholds rp_b_per_class view resolver_view_of rv_predicate_hash rv_r_root
    rv_running_root rv_leaf_count rv_class_set rv_class_thresholds]. fold r.
  rewrite fr_to_u64_of, Ok_bind by lia.
  rewrite ensure_bind.
  2: { rewrite Z.eqb_refl, (st_hash _ Hsound), Hroot, Hrr. unfold imt_root.
       rewrite fr_from_to_be_bytes. by rewrite !(proj2 (bytes_eqb_eq _ _) eq_refl). }
  rewrite ensure_bind.
  2: { rewrite !length_map, Hlb. unfold view, resolver_view_of. cbn [rv_class_set]. fold r.
       by rewrite !Nat.eqb_refl. }
  apply (for_eachi_unit_total (λ i c, _ ← _; _)). intros i c Hc. rewrite Nat.add_0_l.
  destruct (lookup_lt_is_Some_2 (pr_class_thresholds r) i) as [t Ht].
  { rewrite Hlt. by eapply lookup_lt_Some. }
  unfold index. rewrite (index_bind _ _ (fr_of_Z c)) by by rewrite list_lookup_fmap, Hc.
  rewrite ensure_bind by by apply fr_eqb_eq.
  rewrite (index_bind _ _ (fr_of_Z t)) by by rewrite list_lookup_fmap, Ht.
  rewrite (index_bind _ _ t) by done. by rewrite (proj2 (fr_eqb_eq _ _) eq_refl).
Qed.

(** What the registry writes when it resolves. *)
Lemma resolved_entry now id resolver sub (s : Reg) G e r ev s' :
  rinv G s → advanced now s id e r → resolve now id resolver sub s = (Ok ev, s') →
  reg_petitions s' !! id = Some (with_record e (set_outcome r
    (fr_nonzero (rp_b (rs_public_inputs sub)))
    (map fr_nonzero (rp_b_per_class (rs_public_inputs sub))) (rs_proof_bytes sub))).
Proof.
  intros Hs [He Hr] H. eapply resolve_cases in H as [[? _]|H]; [done| |done].
  destruct H as (e0 & r0 & [He0 Hr0] & _ & _ & _ & ->). assert (e0 = e) as -> by congruence.
  rewrite Hr in Hr0. apply (inj Ok) in Hr0 as <-. apply lookup_insert_eq.
Qed.

(** C4: an honest resolution resolves the petition with its tally.  From the
    deadline on, a resolver that works from the registry's record, whose
    carrier serves the active batches (at least one), fails only if the proof
    system does; what it returns is accepted by the registry, which records,
    for each class, whether the counted records of that class reach its
    threshold, and for the petition, whether all of them do. *)
Theorem resolution_accepted t tr G (s : Reg) now id e r recs
  (self : Resolver P B) resolver :
  reachable t tr G s → advanced now s id e r → pr_state r = DisputeWindow →
  pr_close_at_block r + RESOLUTION_DEADLINE_BLOCKS ≤ now →
  pr_close_at_block r + RESOLUTION_DEADLINE_BLOCKS < 2 ^ 64 →
  fr_to_be_bytes (fr_from_be_bytes (pr_r_root r)) = pr_r_root r →
  G !! id = Some recs → serves (rsv_blob_carrier self) (pe_batches e) recs →
  List.filter is_active (pe_batches e) ≠ [] →
  rsv_proof_backend self = reg_proof_backend s →
  let view := resolver_view_of (with_record e r) in
  let classes := map re_class_tag (active_records (pe_batches e) recs) in
  (∀ er, resolver_resolve self view = Err er → ∃ pe, er = ResolverProof pe) ∧
  ∀ sub, resolver_resolve self view = Ok sub →
    ∃ ev s' e', resolve now id resolver sub s = (Ok ev, s') ∧
      reg_petitions s' !! id = Some e' ∧ pr_state (pe_record e') = Resolved ∧
      (∀ i c t, pr_class_set r !! i = Some c → pr_class_thresholds r !! i = Some t →
         pr_b_per_class (pe_record e') !! i = Some (t <=? tally c classes)) ∧
      pr_b (pe_record e') = forallb (λ b, b) (pr_b_per_class (pe_record e')).
Proof.
  intros Hre Hadv Hst Hnow Hfit Hroot HG Hserve Hne Hbk view classes.
  apply reachable_run_inv in Hre as [Hr _ Hsound Hrec _].
  pose proof (rinv_advanced _ _ _ _ _ _ Hr Hadv) as Hr1.
  destruct (ri_entries _ _ Hr1 id (with_record e r)) as (recs' & HG' & Hei);
    [apply lookup_insert_eq|]. assert (recs' = recs) as -> by congruence.
  assert (sound_terms r) as Hsr.
  { eapply (sound_terms_eq (pe_record e)); [|by eapply Hsound, Hadv].
    by destruct Hadv as [_ [-> _]%step_record_shape]. }
  destruct (resolver_reaches_proof self view (pe_batches e) recs (pe_running_imt e)
    (pe_identity_tag_imt e)) as (private & _ & _ & Hres); try done.
  { apply (ei_len _ _ _ Hei). } { apply (ei_trees _ _ _ Hei). } { apply (ei_count _ _ _ Hei). }
  { apply (ei_roots _ _ _ Hei). cbn [pe_record with_record]. by rewrite Hst. }
  set (es := map entry_of (active_records (pe_batches e) recs)) in *. rewrite Hres. split.
  { intros er H. apply bind_Err in H as [H|(pf & _ & ?)]; [|done].
    destruct (generate_resolution_proof _ _ _); try done. injection H as <-. eauto. }
  intros sub H. apply bind_Ok in H as (pf & Hgen & H). apply map_err_Ok in Hgen.
  apply (inj Ok) in H as <-. apply resolution_proof_complete in Hgen. rewrite Hbk in Hgen.
  pose proof (ei_id _ _ _ Hei) as Hid. rewrite <-Hid in Hei.
  pose proof (resolution_checked now s (with_record e r) recs es pf Hei Hsr Hst Hnow Hfit Hroot
    Hgen) as Hchk.
  pose proof (resolve_total _ _ _ resolver _ _ _ _ Hr Hadv Hst Hchk) as Hok.
  destruct (resolve now id resolver _ s) as [res s'] eqn:Hrun. cbn [fst] in Hok.
  destruct res as [ev| |]; [|discriminate..]. exists ev, s'. eexists. split; [done|].
  split; [exact (resolved_entry _ _ _ _ _ _ _ _ _ _ Hr Hadv Hrun)|]. cbn [pe_record with_record set_outcome pr_state
    pr_b_per_class pr_b rs_public_inputs]. split; [done|].
  assert (map entry_class es = classes) as Hcls.
  { unfold es, classes. rewrite map_map. apply map_ext_in. intros x Hx. apply entry_class_of.
    apply (active_records_elem _ _ _ _ (proj2 (list_elem_of_In _ _) Hx)).
    exact (Hrec _ _ HG). }
  destruct (outcome_bits view es) as [_ Hbits].
  { apply (st_class_set _ Hsr). } { apply (st_thresholds _ Hsr). }
  rewrite Hcls in Hbits. unfold resolution_public. fold view.
  assert (compute_outcome view es = (forallb (λ b, b) (compute_outcome view es).2,
    (compute_outcome view es).2)) as E by done.
  destruct (compute_outcome view es) as [b bs]. cbn [snd] in *. injection E as ->.
  cbn [rp_b rp_b_per_class]. rewrite map_map, fr_nonzero_bool.
  assert (map (λ x, fr_nonzero (fr_of_Z (bool_Z x))) bs = bs) as ->.
  { rewrite (map_ext _ (λ x, x)) by apply fr_nonzero_bool. apply map_id. }
  split; [exact Hbits|done].
Qed.
End resolution.
