(* ===== verification/Signer.v ===== *)
(** * The signer

    Model of [signer/] and of the in-process submission channel of
    [adapters/direct_relay_submission.rs].  Enrollment takes the bytes the
    operating system's generator would give as arguments.  [sign] mutates the
    signer, so what it advances before a failure stays advanced.  The rendered
    text of an error is kept as the error it renders. *)

From Stdlib Require Import ZArith Lia Bool.
From stdpp Require Import base tactics list gmap strings numbers.
From S2P Require Import Prelude Field Types Predicate Poseidon Imt Records Fsrt Blob Ports Disputant Relayer RelayerOk.

(** ** Types *)
Record EnrollmentArtifact : Type := mk_artifact {
  ea_attr_hash : Bytes32;
  ea_chain_root : Bytes32;
  ea_attr_version : Z;
}.

Record PetitionMeta : Type := mk_meta {
  pm_petition_id : PetitionId;
  pm_r_root : Bytes32;
  pm_predicate_hash : Bytes32;
  pm_slot : Z;
  pm_class_index : byte;
  pm_class_tag : ClassTag;
  pm_predicate_def : PredicateDef;
  pm_salt : Bytes32;
  pm_ri_leaf_index : Z;
}.

Inductive SignerError : Type :=
| SlotInPast (slot head : Z)
| SlotOutOfRange (slot chain_len : Z)
| RiLookup (e : MerkleError)
| SignerPredicate (e : PredicateError)
| SignerProof (e : ProofError)
| SignerMerkle (e : MerkleError)
| Invariant (m : string).

Record Signer (P R : Type) : Type := mk_signer {
  sg_credentials : SignerCredentials;
  sg_chain : SignerChainState;
  sg_proof_backend : P;
  sg_ri : R;
}.
Arguments mk_signer {P R}.
Arguments sg_credentials {P R}.
Arguments sg_chain {P R}.
Arguments sg_proof_backend {P R}.
Arguments sg_ri {P R}.

Section signer.
Context `{C : Crypto} {P R : Type} {PB : ProofBackend P} {RI : RiCredentialLayer R}.

(** [os_seed] and [os_secret] are the two draws from the operating system. *)
Definition signer_enroll {E} (proof_backend : P) (ri : R) (attr_vector : list Fr)
  (chain_len attr_version posted_at_block : Z) (seed : option Bytes32)
  (os_seed os_secret : option Bytes32) : outcome E (Signer P R * EnrollmentArtifact) :=
  s_0_bytes ← match seed with Some b => Ok b | None => expect os_seed end;
  let s_0 := fr_from_be_bytes s_0_bytes in
  identity_secret_bytes ← expect os_secret;
  let identity_secret_fr := fr_from_be_bytes identity_secret_bytes in
  chain ← enroll s_0 chain_len attr_version;
  attr_hash_fr ← hash_attr attr_vector (cs_chain_root chain) attr_version identity_secret_fr;
  let attr_hash_be := fr_to_be_bytes attr_hash_fr in
  let '(ri_leaf_index, ri) := ri_append_leaf ri attr_hash_be posted_at_block in
  let credentials := mk_credentials identity_secret_bytes (map fr_to_be_bytes attr_vector)
    ri_leaf_index in
  Ok (mk_signer credentials chain proof_backend ri,
      mk_artifact attr_hash_be (fr_to_be_bytes (cs_chain_root chain)) attr_version).

(** The checks made before the chain moves; they return the attributes. *)
Definition sign_checked (self : Signer P R) (petition : PetitionMeta)
  : outcome SignerError (list Fr) :=
  ensure (negb (pm_slot petition <? cs_t (sg_chain self)))
    (SlotInPast (pm_slot petition) (cs_t (sg_chain self)));;
  let chain_len := chain_len (sg_chain self) in
  ensure (negb (chain_len <=? pm_slot petition)) (SlotOutOfRange (pm_slot petition) chain_len);;
  let class_tag_fr := fr_of_Z (pm_class_tag petition) in
  let attr_vector_fr := map fr_from_be_bytes (sc_attr_vector (sg_credentials self)) in
  attr_at_idx ← ok_or (attr_vector_fr !! byte_nat (pm_class_index petition))
    (Invariant "class_index out of range");
  ensure (fr_eqb attr_at_idx class_tag_fr) (Invariant "class binding mismatch");;
  Ok attr_vector_fr.

Definition sign (petition : PetitionMeta) : M (Signer P R) SignerError SignerSubmission :=
  self ← mget;
  attr_vector_fr ← mlift (sign_checked self petition);
  let class_tag_fr := fr_of_Z (pm_class_tag petition) in
  chain ← mlift (advance_to (sg_chain self) (pm_slot petition));
  let self := mk_signer (sg_credentials self) chain (sg_proof_backend self) (sg_ri self) in
  mput self;;
  v_slot ← mlift (v_at_current_slot chain);
  let petition_id_fr := fr_from_be_bytes (pm_petition_id petition) in
  let class_index_fr := fr_of_Z (byte_Z (pm_class_index petition)) in
  let identity_secret_fr := fr_from_be_bytes (sc_identity_secret (sg_credentials self)) in
  let nullifier_fr := hash_nullifier v_slot petition_id_fr class_index_fr class_tag_fr
    identity_secret_fr in
  let identity_tag_fr := hash_identity_tag v_slot petition_id_fr in
  let '(chain_siblings, chain_indices) := merkle_path_for_current_slot chain in
  ri_path ← mlift (map_err RiLookup
    (ri_merkle_path (sg_ri self) (sc_ri_leaf_index (sg_credentials self))));
  let public := mk_signer_public (fr_from_be_bytes (pm_r_root petition)) petition_id_fr
    (fr_from_be_bytes (pm_predicate_hash petition)) class_index_fr class_tag_fr
    (fr_of_Z (pm_slot petition)) nullifier_fr identity_tag_fr in
  let private := mk_signer_private identity_secret_fr attr_vector_fr (cs_attr_version chain)
    (cs_chain_root chain) (map fr_from_be_bytes (ri_siblings ri_path)) (ri_indices ri_path)
    (s_at chain (pm_slot petition)) chain_siblings chain_indices
    (fr_from_be_bytes (pm_salt petition)) (pm_predicate_def petition) in
  proof_bytes ← mlift (map_err SignerProof
    (generate_signer_proof (sg_proof_backend self) public private));
  mret (mk_submission (pm_petition_id petition) (pm_r_root petition)
          (pm_predicate_hash petition) (pm_class_index petition) (pm_slot petition)
          (fr_to_be_bytes nullifier_fr) (fr_to_be_bytes identity_tag_fr)
          (pm_class_tag petition) proof_bytes).

(** The chain is written back once the journal file has landed. *)
Definition signer_journal {Io} (persist : list byte → outcome Io unit) (slot : Z)
  : M (Signer P R) Io SignerStateBytes :=
  self ← mget;
  '(b, chain) ← mlift (journal_finalized_signing persist (sg_chain self) slot);
  mput (mk_signer (sg_credentials self) chain (sg_proof_backend self) (sg_ri self));;
  mret b.
End signer.

(** ** The submission channel *)
Inductive SubmissionError : Type :=
| UnknownRelay
| Rejected (m : string).

Record DirectRelaySubmission : Type := mk_direct {
  dr_inboxes : gmap (list byte) (list SignerSubmission);
}.

Definition direct_new (relay_ids : list Bytes32) : DirectRelaySubmission :=
  mk_direct (list_to_map (map (λ id, (id, [])) relay_ids)).

Definition submit (relay_id : Bytes32) (submission : SignerSubmission)
  : M DirectRelaySubmission SubmissionError unit :=
  s ← mget;
  inbox ← mlift (ok_or (dr_inboxes s !! relay_id) UnknownRelay);
  mput (mk_direct (<[relay_id := inbox ++ [submission]]> (dr_inboxes s)));;
  mret tt.

(** ** What signing does *)
Section signing.
Context `{C : Crypto} {P R : Type} {PB : ProofBackend P} {RI : RiCredentialLayer R}.

(** The value of a slot of the chain grown from [s0]. *)
Definition slot_value (s0 : Fr) (slot : Z) : Fr := (fsrt_prg_step (seed_at s0 (Z.to_nat slot))).1.

Definition with_chain (self : Signer P R) (chain : SignerChainState) : Signer P R :=
  mk_signer (sg_credentials self) chain (sg_proof_backend self) (sg_ri self).

Definition signed_nullifier (self : Signer P R) (p : PetitionMeta) (v : Fr) : Fr :=
  hash_nullifier v (fr_from_be_bytes (pm_petition_id p)) (fr_of_Z (byte_Z (pm_class_index p)))
    (fr_of_Z (pm_class_tag p)) (fr_from_be_bytes (sc_identity_secret (sg_credentials self))).

Definition signed_tag (p : PetitionMeta) (v : Fr) : Fr :=
  hash_identity_tag v (fr_from_be_bytes (pm_petition_id p)).

Definition signed_private (self : Signer P R) (p : PetitionMeta) (attrs : list Fr)
  (chain : SignerChainState) (path : RiPath) : SignerPrivateInputs :=
  let cp := merkle_path_for_current_slot chain in
  mk_signer_private (fr_from_be_bytes (sc_identity_secret (sg_credentials self))) attrs
    (cs_attr_version chain) (cs_chain_root chain) (map fr_from_be_bytes (ri_siblings path))
    (ri_indices path) (s_at chain (pm_slot p)) cp.1 cp.2 (fr_from_be_bytes (pm_salt p))
    (pm_predicate_def p).

(** The run of [sign] past its checks, on a chain of the signer's life. *)
Lemma sign_run s0 n k (self : Signer P R) p attrs :
  chain_inv s0 n k (sg_chain self) → 0 ≤ pm_slot p → sign_checked self p = Ok attrs →
  ∃ chain, @advance_to _ SignerError (sg_chain self) (pm_slot p) = Ok chain ∧
    chain_inv s0 n k chain ∧ cs_t chain = pm_slot p ∧
    let v := slot_value s0 (pm_slot p) in
    let sub_of proof := mk_submission (pm_petition_id p) (pm_r_root p) (pm_predicate_hash p)
      (pm_class_index p) (pm_slot p) (fr_to_be_bytes (signed_nullifier self p v))
      (fr_to_be_bytes (signed_tag p v)) (pm_class_tag p) proof in
    sign p self =
    match ri_merkle_path (sg_ri self) (sc_ri_leaf_index (sg_credentials self)) with
    | Ok path =>
        match generate_signer_proof (sg_proof_backend self) (submission_public (sub_of []))
                (signed_private self p attrs chain path) with
        | Ok proof => (Ok (sub_of proof), with_chain self chain)
        | Err e => (Err (SignerProof e), with_chain self chain)
        | Panic => (Panic, with_chain self chain)
        end
    | Err e => (Err (RiLookup e), with_chain self chain)
    | Panic => (Panic, with_chain self chain)
    end.
Proof.
  intros Hi Hp Hc. pose proof Hc as Hc'. unfold sign_checked in Hc'.
  apply bind_Ok in Hc' as (u & H1 & Hc'). apply ensure_Ok in H1.
  apply bind_Ok in Hc' as (u' & H2 & Hc'). apply ensure_Ok in H2. reflect_bools. clear Hc'.
  assert (chain_len (sg_chain self) = Z.of_nat n) as Hlen.
  { unfold chain_len. rewrite (ci_values _ _ _ _ Hi), length_wipe.
    destruct (length_expand n s0) as [-> _]. apply Z.mod_small.
    pose proof (ci_len _ _ _ _ Hi). lia. }
  destruct (@advance_to_ok _ SignerError s0 n k (sg_chain self) (pm_slot p) Hi) as
    (chain & Hadv & Hi' & Ht); [lia|].
  pose proof (ci_range _ _ _ _ Hi') as Hr. pose proof (ci_range _ _ _ _ Hi) as Hr0.
  destruct (inv_value s0 n k chain (Z.to_nat (pm_slot p)) Hi') as (Hv & _ & _); [lia|].
  exists chain. split; [done|]. split; [done|]. split; [done|]. cbn zeta.
  unfold sign. rewrite M_bind_get, M_bind_lift, Hc, M_bind_lift, Hadv, M_bind_put, M_bind_lift.
  unfold v_at_current_slot, index. rewrite Ht, Hv. cbn [expect].
  unfold signed_private. destruct (merkle_path_for_current_slot chain) as [cs ci].
  rewrite M_bind_lift. cbn [fst snd].
  cbn [sg_ri sg_credentials]. unfold submission_public.
  cbn [sub_r_root sub_petition_id sub_predicate_hash sub_class_index sub_class_tag sub_slot
    sub_nullifier sub_identity_tag]. rewrite !fr_from_to_be_bytes.
  destruct (ri_merkle_path (sg_ri self) (sc_ri_leaf_index (sg_credentials self))) as [path| |];
    cbn [map_err]; [|done..].
  rewrite M_bind_lift. cbn [sg_proof_backend].
  unfold signed_nullifier, signed_tag, slot_value.
  destruct (generate_signer_proof _ _ _); done.
Qed.

Lemma sign_refused (self : Signer P R) p :
  (∀ attrs, sign_checked self p ≠ Ok attrs) → sign_checked self p ≠ Panic →
  ∃ er, sign p self = (Err er, self) ∧ sign_checked self p = Err er ∧
    (∀ e, er ≠ RiLookup e) ∧ (∀ e, er ≠ SignerProof e).
Proof.
  intros Hno Hnp. unfold sign. rewrite M_bind_get, M_bind_lift.
  destruct (sign_checked self p) as [attrs|er|] eqn:Hc; [by destruct (Hno attrs)| |done].
  exists er. split_and!; [done|done|..]; intros e ->; unfold sign_checked, ensure, ok_or in Hc;
    repeat case_match; simplify_eq/=; repeat case_match; simplify_eq/=.
Qed.

Lemma sign_checked_no_panic (self : Signer P R) p : sign_checked self p ≠ Panic.
Proof.
  unfold sign_checked. intros H. repeat (apply bind_Panic in H as [H|(? & _ & H)];
    [by (apply ensure_no_panic in H || (unfold ok_or in H; case_match))|]). done.
Qed.

(** Every outcome of signing.  On any chain state of a signer's life, and
    with a credential layer and a proof system that do not panic, [sign] does
    not panic; a request refused by the checks leaves the signer as it was;
    and a submission carries the nullifier and the identity tag of the slot's
    own ratchet value.  A failure of the credential lookup or of the proof
    system, however, comes after the ratchet has been advanced to the slot,
    and leaves it there. *)
Lemma sign_outcomes {Io} (persist : list byte → outcome Io unit) s0 n k (self : Signer P R) p
  res self' :
  Z.of_nat n ≤ 2 ^ 24 → lifetime persist s0 n k (sg_chain self) → 0 ≤ pm_slot p →
  (∀ i, ri_merkle_path (sg_ri self) i ≠ Panic) →
  (∀ pub priv, generate_signer_proof (sg_proof_backend self) pub priv ≠ Panic) →
  sign p self = (res, self') →
  match res with
  | Ok sub =>
      let v := slot_value s0 (pm_slot p) in
      cs_t (sg_chain self') = pm_slot p ∧
      sub_nullifier sub = fr_to_be_bytes (signed_nullifier self p v) ∧
      sub_identity_tag sub = fr_to_be_bytes (signed_tag p v)
  | Err (RiLookup _) | Err (SignerProof _) => cs_t (sg_chain self') = pm_slot p
  | Err _ => self' = self
  | Panic => False
  end.
Proof.
  intros Hn Hl Hp Hri Hpf H. pose proof (lifetime_inv persist s0 n k _ Hn Hl) as Hi.
  destruct (sign_checked self p) as [attrs|er|] eqn:Hc.
  - destruct (sign_run s0 n k self p attrs Hi Hp Hc) as (chain & _ & _ & Ht & Hrun).
    rewrite Hrun in H.
    specialize (Hri (sc_ri_leaf_index (sg_credentials self))).
    destruct (ri_merkle_path _ _); [|by injection H as <- <-|done].
    match type of H with context [generate_signer_proof ?b ?x ?y] => specialize (Hpf x y) end.
    destruct (generate_signer_proof _ _ _); [| |done]; by injection H as <- <-.
  - destruct (sign_refused self p) as (er' & Hs & _ & H1 & H2); [by rewrite Hc|by rewrite Hc|].
    rewrite Hs in H. injection H as <- <-. destruct er'; try done; naive_solver.
  - by destruct (sign_checked_no_panic self p).
Qed.

(** ** Signing and relaying *)
Context {PL : ProofLaws P} {B : Type}.

(** A signature is relayed.  What [sign] returns passes the relayer's checks
    for that petition, if the relayer uses the same proof system and the
    signer's class is one of the petition's. *)
Lemma signed_submission_verifies {Io} (persist : list byte → outcome Io unit) s0 n k
  (self : Signer P R) p sub self' (relayer : Relayer P B) idx pv :
  Z.of_nat n ≤ 2 ^ 24 → lifetime persist s0 n k (sg_chain self) → 0 ≤ pm_slot p →
  sign p self = (Ok sub, self') →
  rel_proof_backend relayer = sg_proof_backend self →
  pv_petition_id pv = pm_petition_id p → pm_class_tag p ∈ pv_class_set pv →
  verify_submission relayer idx sub pv
  = Ok (submission_public sub, record_leaf (record_of sub), pm_class_tag p).
Proof.
  intros Hn Hl Hp H Hbk Hid Hcls. pose proof (lifetime_inv persist s0 n k _ Hn Hl) as Hi.
  destruct (sign_checked self p) as [attrs|er|] eqn:Hc.
  2: { destruct (sign_refused self p) as (er' & Hs & _); [by rewrite Hc|by rewrite Hc|].
       rewrite Hs in H. done. }
  2: { by destruct (sign_checked_no_panic self p). }
  destruct (sign_run s0 n k self p attrs Hi Hp Hc) as (chain & _ & _ & Ht & Hrun).
  rewrite Hrun in H. destruct (ri_merkle_path _ _); [|done..].
  destruct (generate_signer_proof _ _ _) as [proof| |] eqn:Hg; [|done..].
  injection H as <- <-. apply signer_proof_complete in Hg.
  unfold verify_submission. cbn [sub_petition_id sub_class_tag].
  rewrite ensure_bind by by apply bytes_eqb_eq.
  rewrite ensure_bind by by apply memZ_true.
  rewrite Hbk. cbn [sub_proof_bytes].
  match type of Hg with _ = Ok tt =>
    match goal with |- context [verify_signer_proof ?b ?pr ?x] =>
      assert (verify_signer_proof b pr x = Ok tt) as -> by exact Hg end end.
  done.
Qed.

Lemma sign_Ok_tag s0 n k (self : Signer P R) p sub self' :
  chain_inv s0 n k (sg_chain self) → 0 ≤ pm_slot p → sign p self = (Ok sub, self') →
  sub_identity_tag sub = fr_to_be_bytes (signed_tag p (slot_value s0 (pm_slot p))).
Proof.
  intros Hi Hp H. destruct (sign_checked self p) as [attrs|er|] eqn:Hc.
  2: { destruct (sign_refused self p) as (er' & Hs & _); [by rewrite Hc|by rewrite Hc|].
       rewrite Hs in H. done. }
  2: { by destruct (sign_checked_no_panic self p). }
  destruct (sign_run s0 n k self p attrs Hi Hp Hc) as (chain & _ & _ & Ht & Hrun).
  rewrite Hrun in H. destruct (ri_merkle_path _ _); [|done..].
  destruct (generate_signer_proof _ _ _) as [proof| |]; [|done..]. by injection H as <- <-.
Qed.

(** C30: one signature per signer, petition and slot.  Two signatures a signer
    makes for the same petition and slot, at any two points of its life and
    under whatever class, carry the same identity tag, and no batch that
    contains both is ever built. *)
Theorem double_signature_rejected {Io} (persist : list byte → outcome Io unit) s0 n k1 k2
  {BC : BlobCarrier B} (self1 self2 : Signer P R) p1 p2 sub1 sub2 self1' self2' pv subs i j
  (st : Relayer P B * RelayerPetitionState) :
  Z.of_nat n ≤ 2 ^ 24 →
  lifetime persist s0 n k1 (sg_chain self1) → lifetime persist s0 n k2 (sg_chain self2) →
  pm_petition_id p1 = pm_petition_id p2 → pm_slot p1 = pm_slot p2 → 0 ≤ pm_slot p1 →
  sign p1 self1 = (Ok sub1, self1') → sign p2 self2 = (Ok sub2, self2') →
  subs !! i = Some sub1 → subs !! j = Some sub2 → i ≠ j →
  sub_identity_tag sub1 = sub_identity_tag sub2 ∧ is_ok (build_batch pv subs st).1 = false.
Proof.
  intros Hn Hl1 Hl2 Hid Hslot Hpos H1 H2 Hi Hj Hne.
  apply (sign_Ok_tag s0 n k1) in H1; [|by eapply lifetime_inv|done].
  apply (sign_Ok_tag s0 n k2) in H2; [|by eapply lifetime_inv|lia].
  assert (sub_identity_tag sub1 = sub_identity_tag sub2) as Heq.
  { rewrite H1, H2. unfold signed_tag. by rewrite Hid, Hslot. }
  split; [done|]. destruct (build_batch pv subs st) as [res [self' ps']] eqn:Hb. cbn [fst].
  destruct res as [[batch positions]| |]; [|done..]. destruct st as [rel [tr ti lc]].
  apply build_batch_Ok in Hb as (tr' & ti' & _ & Hb). destruct (bb_distinct _ _ _ _ _ _ _ _ _ _ Hb)
    as [_ Hnd]. exfalso. apply Hne.
  eapply (NoDup_lookup (map sub_identity_tag subs) i j (sub_identity_tag sub1)); [done|..].
  - by apply list_lookup_fmap_Some; eauto.
  - apply list_lookup_fmap_Some. exists sub2. by rewrite Heq.
Qed.
End signing.

(** ** The channel is first in, first out *)
Definition submit_all (relay_id : list byte) (l : list SignerSubmission)
  (s : DirectRelaySubmission) : DirectRelaySubmission :=
  foldl (λ s x, (submit relay_id x s).2) s l.

Lemma submit_eq relay_id x s :
  submit relay_id x s =
  match dr_inboxes s !! relay_id with
  | Some inbox => (Ok tt, mk_direct (<[relay_id := inbox ++ [x]]> (dr_inboxes s)))
  | None => (Err UnknownRelay, s)
  end.
Proof. unfold submit. rewrite M_bind_get, M_bind_lift. by destruct (dr_inboxes s !! relay_id). Qed.

(** A relay's inbox receives the submissions addressed to it in order,
    another relay's inbox is untouched, and a relay outside the roster is
    refused without any effect. *)
Lemma submissions_in_order relay_id l s :
  match dr_inboxes s !! relay_id with
  | Some inbox =>
      dr_inboxes (submit_all relay_id l s) !! relay_id = Some (inbox ++ l) ∧
      ∀ other, other ≠ relay_id →
        dr_inboxes (submit_all relay_id l s) !! other = dr_inboxes s !! other
  | None => submit_all relay_id l s = s ∧
      ∀ x, submit relay_id x s = (Err UnknownRelay, s)
  end.
Proof.
  revert s; induction l as [|x l IH]; intros s.
  - destruct (dr_inboxes s !! relay_id) as [inbox|] eqn:E; cbn [submit_all foldl].
    + by rewrite app_nil_r.
    + split; [done|]. intros y. by rewrite submit_eq, E.
  - unfold submit_all. cbn [foldl]. fold (submit_all relay_id l (submit relay_id x s).2).
    specialize (IH (submit relay_id x s).2). rewrite submit_eq in IH |- *.
    destruct (dr_inboxes s !! relay_id) as [inbox|] eqn:E; cbn [snd dr_inboxes] in *.
    + rewrite lookup_insert_eq in IH. destruct IH as [-> Ho]. split; [by rewrite <-app_assoc|].
      intros other Hne. by rewrite Ho, lookup_insert_ne by done.
    + by rewrite E in IH.
Qed.
