(* ===== verification/SwapCrypto.v ===== *)
(** * Cryptographic helpers of the TEE swap

    Model of [crypto/poseidon.rs], [crypto/salt.rs], [crypto/stealth.rs],
    [domain/stealth.rs], [domain/note.rs], [domain/commitment.rs] and
    [domain/nullifier.rs] of [src/pocs/private-trade-settlement/tee_swap].  A
    [B256] is its list of 32 bytes.  The Grumpkin curve of [ark_grumpkin] is
    the class [Curve]; [CurveLaws] states the group laws the protocol uses. *)

From Stdlib Require Import ZArith Lia Bool.
From stdpp Require Import base tactics list gmap strings numbers.
From S2P Require Import Prelude Field Types Poseidon.

Abbreviation B256 := (list byte) (only parsing).

(** ** Hashes over 32-byte words *)
Definition b256_to_fr (value : B256) : Fr := fr_from_be_bytes value.
Definition fr_to_b256 (value : Fr) : B256 := fr_to_be_bytes value.
(** [U256::from(v).into()]. *)
Definition u64_to_b256 (v : Z) : B256 := be_of_Z 32 v.

Definition DOMAIN_COMMITMENT : B256 :=
  be_of_Z 32 0x00109594dc3faa33ceeeac5e46d290040cdf090cb9883904d1337a9cb26e19a5.
Definition DOMAIN_NULLIFIER : B256 :=
  be_of_Z 32 0x00225cbdfee768405fd834228dc85d2f6d1f18901486e2f5c8f1a204fccbb393.
Definition DOMAIN_STEALTH : B256 :=
  be_of_Z 32 0x0089c0b4bea509c4509d7c93f962f79cddfb03f7a8056b159df275ec7e4e6852.
Definition DOMAIN_SALT_ENC : B256 :=
  be_of_Z 32 0x00a55fbcf2316286f724b5fbfb530d536e3829c23ad2d1bd01b87792f785bcc4.
Definition DOMAIN_BIND_SWAP : B256 :=
  be_of_Z 32 0x00558e73d4477300526f0e29f920a317a62cc425034408d58be6dbe7fc484751.
Definition DOMAIN_BIND_R : B256 :=
  be_of_Z 32 0x00b4965ea4c1b3f9e13c36a32782935c2a1b3c49ec54e201de5f4133f2548a94.
Definition DOMAIN_BIND_META : B256 :=
  be_of_Z 32 0x00f3241b2bffce1dd293f941d327f2ce2189f7d423501f0dd76a7da8c407502a.
Definition DOMAIN_BIND_ENC : B256 :=
  be_of_Z 32 0x00d0779ead2e71428d9e8ef698a01482d8f344b17244792086fdc32bdfdf67dd.
Definition DOMAIN_SWAP_ID : B256 :=
  be_of_Z 32 0x00bd03aa9914bdbecd974336e5cf1171b81a60634487683d9d813e195a9e6a9e.

Record Note : Type := mk_note {
  nt_chain_id : B256;
  nt_value : Z;
  nt_asset_id : B256;
  nt_owner : B256;
  nt_fallback_owner : B256;
  nt_timeout : B256;
  nt_salt : B256;
}.

(** ** Salt encryption *)
Definition xor_byte (a b : byte) : byte := byte_of_Z (Z.lxor (byte_Z a) (byte_Z b)).
Definition xor_b256 (a b : B256) : B256 := zip_with xor_byte a b.

(** [bytes[0] &= 0x1F]. *)
Definition mask_253 (v : B256) : B256 :=
  match v with
  | b :: v' => byte_of_Z (Z.land (byte_Z b) 0x1F) :: v'
  | [] => []
  end.

Section hashes.
Context `{C : Crypto}.

(** A circom Poseidon instance of the width of its input. *)
Definition poseidon_b256 (inputs : list B256) : B256 :=
  fr_to_b256 (poseidon_circom (map b256_to_fr inputs)).

Definition b256_poseidon2 (a b : B256) : B256 := poseidon_b256 [a; b].
Definition b256_poseidon3 (a b c : B256) : B256 := poseidon_b256 [a; b; c].
Definition b256_poseidon8 (a b c d e f g h : B256) : B256 :=
  poseidon_b256 [a; b; c; d; e; f; g; h].
(** The variable-width hash asserts its width; the source calls it with the
    eleven inputs of [swap_id_inputs] only. *)
Definition b256_poseidon_n {E} (inputs : list B256) : outcome E B256 :=
  assert_ (negb (length inputs =? 0) && (length inputs <=? 16))%nat;;
  Ok (poseidon_b256 inputs).

Definition commitment_hash (note : Note) : B256 :=
  b256_poseidon8 DOMAIN_COMMITMENT (nt_chain_id note) (u64_to_b256 (nt_value note))
    (nt_asset_id note) (nt_owner note) (nt_fallback_owner note) (nt_timeout note)
    (nt_salt note).
Definition nullifier_hash (commitment salt : B256) : B256 :=
  b256_poseidon3 DOMAIN_NULLIFIER commitment salt.
Definition bind_swap (swap_id salt : B256) : B256 :=
  b256_poseidon3 DOMAIN_BIND_SWAP swap_id salt.
Definition bind_r (r_x : B256) : B256 := b256_poseidon2 DOMAIN_BIND_R r_x.
Definition bind_meta (pk_meta_x salt : B256) : B256 :=
  b256_poseidon3 DOMAIN_BIND_META pk_meta_x salt.
Definition bind_enc (encrypted_salt : B256) : B256 :=
  b256_poseidon2 DOMAIN_BIND_ENC encrypted_salt.

Definition swap_id_inputs (value_a : Z) (asset_id_a chain_id_a : B256) (value_b : Z)
  (asset_id_b chain_id_b timeout pk_meta_a pk_meta_b nonce : B256) : list B256 :=
  [DOMAIN_SWAP_ID; u64_to_b256 value_a; asset_id_a; chain_id_a; u64_to_b256 value_b;
   asset_id_b; chain_id_b; timeout; pk_meta_a; pk_meta_b; nonce].
(** Eleven inputs: the assertion of the hash holds, see [swap_id_hash_runs]. *)
Definition swap_id_hash (value_a : Z) (asset_id_a chain_id_a : B256) (value_b : Z)
  (asset_id_b chain_id_b timeout pk_meta_a pk_meta_b nonce : B256) : B256 :=
  poseidon_b256 (swap_id_inputs value_a asset_id_a chain_id_a value_b asset_id_b chain_id_b
    timeout pk_meta_a pk_meta_b nonce).

Lemma swap_id_hash_runs {E} va aa ca vb ab cb t pa pb n :
  b256_poseidon_n (swap_id_inputs va aa ca vb ab cb t pa pb n)
  = @Ok E _ (swap_id_hash va aa ca vb ab cb t pa pb n).
Proof. reflexivity. Qed.

(** ** Notes *)
Definition note_commitment (n : Note) : B256 := commitment_hash n.
Definition note_nullifier (n : Note) : B256 := nullifier_hash (note_commitment n) (nt_salt n).

(** [Note::new]; the 32 random bytes are an argument. *)
Definition note_new (salt_bytes chain_id : B256) (value : Z)
  (asset_id owner fallback_owner timeout : B256) : Note :=
  mk_note chain_id value asset_id owner fallback_owner timeout (mask_253 salt_bytes).

Definition encrypt_salt (salt shared_secret_x : B256) : B256 :=
  let enc_key := mask_253 (b256_poseidon2 DOMAIN_SALT_ENC shared_secret_x) in
  xor_b256 salt enc_key.
Definition decrypt_salt (encrypted_salt shared_secret_x : B256) : B256 :=
  encrypt_salt encrypted_salt shared_secret_x.
End hashes.

(** ** The curve *)
Class Curve (Scalar Point : Type) : Type := {
  (** [Projective::generator()], [p * s], [p + q], [s + t]. *)
  generator : Point;
  point_mul : Point → Scalar → Point;
  point_add : Point → Point → Point;
  scalar_add : Scalar → Scalar → Scalar;
  (** The affine coordinates. *)
  point_x : Point → Fr;
  point_y : Point → Fr;
  (** [from_be_bytes_mod_order] and [into_bigint().to_bytes_le()]. *)
  scalar_from_be_bytes : list byte → Scalar;
  scalar_to_bytes_le : Scalar → list byte;
}.

Class CurveLaws (Scalar Point : Type) {K : Curve Scalar Point} : Prop := {
  mul_mul_comm a b : point_mul (point_mul generator a) b = point_mul (point_mul generator b) a;
  mul_scalar_add a b : point_mul generator (scalar_add a b)
    = point_add (point_mul generator a) (point_mul generator b);
  length_scalar_bytes s : length (scalar_to_bytes_le s) = 32%nat;
}.

Record MetaKeyPair (Scalar Point : Type) : Type := mk_meta_key {
  mk_sk : Scalar;
  mk_pk : Point;
}.
Arguments mk_meta_key {Scalar Point}.
Arguments mk_sk {Scalar Point}.
Arguments mk_pk {Scalar Point}.

Record EphemeralKeyPair (Scalar Point : Type) : Type := mk_ephemeral {
  ek_r : Scalar;
  ek_r_pub : Point;
}.
Arguments mk_ephemeral {Scalar Point}.
Arguments ek_r {Scalar Point}.
Arguments ek_r_pub {Scalar Point}.

Section stealth.
Context `{C : Crypto} {Scalar Point : Type} {K : Curve Scalar Point}.

Definition affine_x_to_b256 (point : Point) : B256 := fr_to_b256 (point_x point).
Definition affine_y_to_b256 (point : Point) : B256 := fr_to_b256 (point_y point).
Definition b256_to_grumpkin_scalar (value : B256) : Scalar := scalar_from_be_bytes value.

Definition ecdh_shared_secret_x (pk_meta : Point) (r : Scalar) : B256 :=
  affine_x_to_b256 (point_mul pk_meta r).

Definition derive_stealth_pubkey (pk_meta : Point) (r : Scalar) : Point * Scalar :=
  let shared := point_mul pk_meta r in
  let shared_x := affine_x_to_b256 shared in
  let stealth_hash := b256_poseidon2 DOMAIN_STEALTH shared_x in
  let stealth_scalar := b256_to_grumpkin_scalar stealth_hash in
  let stealth_g := point_mul generator stealth_scalar in
  (point_add pk_meta stealth_g, stealth_scalar).

Definition derive_stealth_secret (sk_meta : Scalar) (r_pub : Point) : Scalar :=
  let shared := point_mul r_pub sk_meta in
  let shared_x := affine_x_to_b256 shared in
  let stealth_hash := b256_poseidon2 DOMAIN_STEALTH shared_x in
  let stealth_scalar := b256_to_grumpkin_scalar stealth_hash in
  scalar_add sk_meta stealth_scalar.

(** The two 128-bit limbs, as big-endian words. *)
Definition scalar_to_lo_hi (scalar : Scalar) : B256 * B256 :=
  let bytes := scalar_to_bytes_le scalar in
  let lo_bytes := take 16 bytes ++ zeros 16 in
  let hi_bytes := take 16 (drop 16 bytes) ++ zeros 16 in
  (rev lo_bytes, rev hi_bytes).

Definition from_secret (sk : Scalar) : MetaKeyPair Scalar Point :=
  mk_meta_key sk (point_mul generator sk).
Definition pk_x (k : MetaKeyPair Scalar Point) : B256 := affine_x_to_b256 (mk_pk k).
(** [EphemeralKeyPair::generate]; the random scalar is an argument. *)
Definition ephemeral_generate (r : Scalar) : EphemeralKeyPair Scalar Point :=
  mk_ephemeral r (point_mul generator r).
Definition r_pub_x (k : EphemeralKeyPair Scalar Point) : B256 := affine_x_to_b256 (ek_r_pub k).
End stealth.

(** ** Salts *)
Lemma lxor_mod n a b :
  0 ≤ n → Z.lxor a b mod 2 ^ n = Z.lxor (a mod 2 ^ n) (b mod 2 ^ n).
Proof.
  intros Hn. apply Z.bits_inj'. intros i Hi. rewrite Z.lxor_spec.
  destruct (Z.ltb_spec i n).
  - rewrite !Z.mod_pow2_bits_low by done. apply Z.lxor_spec.
  - by rewrite !Z.mod_pow2_bits_high.
Qed.

Lemma lxor_bound n a b :
  0 ≤ n → 0 ≤ a < 2 ^ n → 0 ≤ b < 2 ^ n → 0 ≤ Z.lxor a b < 2 ^ n.
Proof.
  intros Hn Ha Hb. rewrite <-(Z.mod_small a (2 ^ n)), <-(Z.mod_small b (2 ^ n)) by done.
  rewrite <-lxor_mod by done. apply Z.mod_pos_bound. lia.
Qed.

Lemma xor_byte_Z a b : byte_Z (xor_byte a b) = Z.lxor (byte_Z a) (byte_Z b).
Proof.
  unfold xor_byte. rewrite byte_Z_of_Z. apply Z.mod_small.
  apply (lxor_bound 8); [done|apply byte_Z_range..].
Qed.

Lemma xor_byte_involutive a b : xor_byte (xor_byte a b) b = a.
Proof.
  apply byte_Z_inj. rewrite !xor_byte_Z, Z.lxor_assoc, Z.lxor_nilpotent. apply Z.lxor_0_r.
Qed.

Lemma xor_b256_involutive a b : (length a ≤ length b)%nat → xor_b256 (xor_b256 a b) b = a.
Proof.
  revert b; induction a as [|x a IH]; intros [|y b] Hl; cbn in Hl |- *; try done; [lia|].
  unfold xor_b256 in IH |- *. cbn [zip_with].
  rewrite xor_byte_involutive, IH by lia. done.
Qed.

Lemma length_mask_253 v : length (mask_253 v) = length v.
Proof. by destruct v. Qed.

Lemma mask_253_head v : 
  match mask_253 v with b :: _ => byte_Z b < 32 | [] => True end.
Proof.
  destruct v as [|b v]; [done|]. cbn [mask_253]. rewrite byte_Z_of_Z.
  change 0x1F with (Z.ones 5). rewrite Z.land_ones by done.
  pose proof (Z.mod_pos_bound (byte_Z b) (2 ^ 5) ltac:(done)).
  rewrite Z.mod_small; lia.
Qed.

Section salts.
Context `{C : Crypto}.

Lemma length_b256_poseidon2 a b : length (b256_poseidon2 a b) = 32%nat.
Proof. apply length_fr_to_be_bytes. Qed.

Lemma decrypt_encrypt salt x : length salt = 32%nat → decrypt_salt (encrypt_salt salt x) x = salt.
Proof.
  intros Hl. apply xor_b256_involutive. rewrite length_mask_253, length_b256_poseidon2. lia.
Qed.

Lemma encrypt_salt_small salt x :
  length salt = 32%nat → be_to_Z (encrypt_salt (mask_253 salt) x) < 2 ^ 253.
Proof.
  intros Hl. unfold encrypt_salt, xor_b256.
  pose proof (mask_253_head salt) as H1.
  pose proof (mask_253_head (b256_poseidon2 DOMAIN_SALT_ENC x)) as H2.
  pose proof (length_mask_253 salt) as L1.
  pose proof (length_mask_253 (b256_poseidon2 DOMAIN_SALT_ENC x)) as L2.
  rewrite length_b256_poseidon2 in L2.
  destruct (mask_253 salt) as [|a l1]; [by rewrite Hl in L1|].
  destruct (mask_253 (b256_poseidon2 DOMAIN_SALT_ENC x)) as [|b l2]; [done|].
  cbn [zip_with]. rewrite be_to_Z_cons, xor_byte_Z.
  assert (0 ≤ Z.lxor (byte_Z a) (byte_Z b) < 2 ^ 5) as Hx
    by (apply lxor_bound; [done|pose proof (byte_Z_range a); lia|pose proof (byte_Z_range b); lia]).
  assert (length (zip_with xor_byte l1 l2) = 31%nat) as Hz.
  { rewrite length_zip_with. cbn [length] in L1, L2. lia. }
  pose proof (be_to_Z_range (zip_with xor_byte l1 l2)) as Hr. rewrite Hz in *.
  change (2 ^ 253) with (2 ^ 5 * 256 ^ Z.of_nat 31). nia.
Qed.
End salts.
