(* ===== verification/SwapParty.v ===== *)
(** * The parties of the TEE swap

    Model of [domain/swap.rs], [ports/mod.rs], [domain/merkle.rs] (the proof
    record) and [party.rs]: what a party locks, sends to the coordinator,
    claims and takes back.  Random draws are arguments.  The lock a chain
    records is what the witness of the lock transaction makes public. *)

From Stdlib Require Import ZArith Lia Bool.
From stdpp Require Import base tactics list gmap strings numbers.
From S2P Require Import Prelude Field Types Poseidon SwapCrypto.

Definition MAX_COMMITMENT_TREE_DEPTH : nat := 32.
Definition b256_zero : B256 := zeros 32.

Record SwapTerms : Type := mk_terms {
  tm_swap_id : B256;
  tm_chain_id_a : B256;
  tm_chain_id_b : B256;
  tm_value_a : Z;
  tm_value_b : Z;
  tm_asset_id_a : B256;
  tm_asset_id_b : B256;
  tm_timeout : B256;
  tm_pk_meta_a : B256;
  tm_pk_meta_b : B256;
  tm_nonce : B256;
}.

Record PartySubmission : Type := mk_party_submission {
  ps_swap_id : B256;
  ps_nonce : B256;
  ps_ephemeral_pubkey : B256;
  ps_encrypted_salt : B256;
  ps_note_details : Note;
}.

Record SwapAnnouncement : Type := mk_announcement {
  an_swap_id : B256;
  an_ephemeral_key_a : B256;
  an_ephemeral_key_b : B256;
  an_encrypted_salt_a : B256;
  an_encrypted_salt_b : B256;
}.

Record SwapLockData : Type := mk_lock_data {
  lk_commitment : B256;
  lk_timeout : B256;
  lk_pk_stealth : B256;
  lk_h_swap : B256;
  lk_h_r : B256;
  lk_h_meta : B256;
  lk_h_enc : B256;
}.

Record CommitmentMerkleProof : Type := mk_commitment_proof {
  cp_path : list B256;
  cp_indices : list byte;
  cp_leaf_index : Z;
  cp_proof_length : Z;
}.

Record TransferWitness : Type := mk_transfer_witness {
  tw_nullifier : B256;
  tw_root : B256;
  tw_new_commitment : B256;
  tw_timeout : B256;
  tw_pk_stealth : B256;
  tw_h_swap : B256;
  tw_h_r : B256;
  tw_h_meta : B256;
  tw_h_enc : B256;
  tw_sk_lo : B256;
  tw_sk_hi : B256;
  tw_in : Note;
  tw_proof_length : Z;
  tw_path_elements : list B256;
  tw_path_indices : list byte;
  tw_out : Note;
  tw_swap_id : B256;
  tw_r_lo : B256;
  tw_r_hi : B256;
  tw_pk_meta_x : B256;
  tw_pk_meta_y : B256;
  tw_encrypted_salt : B256;
}.

Inductive PartyRole : Type := RoleA | RoleB.

Record LockOutput (Scalar Point : Type) : Type := mk_lock_output {
  lo_locked_note : Note;
  lo_witness : TransferWitness;
  lo_submission : PartySubmission;
  lo_ephemeral_keypair : EphemeralKeyPair Scalar Point;
}.
Arguments mk_lock_output {Scalar Point}.
Arguments lo_locked_note {Scalar Point}.
Arguments lo_witness {Scalar Point}.
Arguments lo_submission {Scalar Point}.
Arguments lo_ephemeral_keypair {Scalar Point}.

(** [ClaimOutput] and [RefundOutput] have the same fields. *)
Record SpendOutput : Type := mk_spend_output {
  so_output_note : Note;
  so_witness : TransferWitness;
}.

(** [Vec::resize]. *)
Definition resize {A} (l : list A) (n : nat) (a : A) : list A :=
  take n l ++ replicate (n - length l) a.

Definition pad_merkle_proof (proof : CommitmentMerkleProof) : list B256 * list byte :=
  (resize (cp_path proof) MAX_COMMITMENT_TREE_DEPTH b256_zero,
   resize (cp_indices proof) MAX_COMMITMENT_TREE_DEPTH x00).

Section party.
Context `{C : Crypto} {Scalar Point : Type} {K : Curve Scalar Point}.

Definition terms_new (chain_id_a chain_id_b : B256) (value_a value_b : Z)
  (asset_id_a asset_id_b timeout pk_meta_a pk_meta_b nonce : B256) : SwapTerms :=
  let swap_id := swap_id_hash value_a asset_id_a chain_id_a value_b asset_id_b chain_id_b
    timeout pk_meta_a pk_meta_b nonce in
  mk_terms swap_id chain_id_a chain_id_b value_a value_b asset_id_a asset_id_b timeout
    pk_meta_a pk_meta_b nonce.

(** [r] and [salt_bytes] are the draws for the ephemeral key and the salt. *)
Definition prepare_lock (r : Scalar) (salt_bytes : B256) (swap_terms : SwapTerms)
  (own_meta_key : MetaKeyPair Scalar Point) (counterparty_pk_meta : Point)
  (input_note : Note) (merkle_proof : CommitmentMerkleProof) (merkle_root : B256)
  : LockOutput Scalar Point :=
  let ephemeral := ephemeral_generate r in
  let '(pk_stealth, _) := derive_stealth_pubkey counterparty_pk_meta (ek_r ephemeral) in
  let pk_stealth_x := affine_x_to_b256 pk_stealth in
  let locked_note := note_new salt_bytes (nt_chain_id input_note) (nt_value input_note)
    (nt_asset_id input_note) pk_stealth_x (pk_x own_meta_key) (tm_timeout swap_terms) in
  let shared_x := ecdh_shared_secret_x counterparty_pk_meta (ek_r ephemeral) in
  let encrypted_salt := encrypt_salt (nt_salt locked_note) shared_x in
  let h_swap := bind_swap (tm_swap_id swap_terms) (nt_salt locked_note) in
  let h_r := bind_r (r_pub_x ephemeral) in
  let h_meta := bind_meta (affine_x_to_b256 counterparty_pk_meta) (nt_salt locked_note) in
  let h_enc := bind_enc encrypted_salt in
  let '(sk_lo, sk_hi) := scalar_to_lo_hi (mk_sk own_meta_key) in
  let '(r_lo, r_hi) := scalar_to_lo_hi (ek_r ephemeral) in
  let '(path_elements, path_indices) := pad_merkle_proof merkle_proof in
  let witness := mk_transfer_witness (note_nullifier input_note) merkle_root
    (note_commitment locked_note) (nt_timeout locked_note) pk_stealth_x h_swap h_r h_meta h_enc
    sk_lo sk_hi input_note (cp_proof_length merkle_proof mod 2 ^ 32) path_elements path_indices
    locked_note (tm_swap_id swap_terms) r_lo r_hi (affine_x_to_b256 counterparty_pk_meta)
    (affine_y_to_b256 counterparty_pk_meta) encrypted_salt in
  let submission := mk_party_submission (tm_swap_id swap_terms) (tm_nonce swap_terms)
    (r_pub_x ephemeral) encrypted_salt locked_note in
  mk_lock_output locked_note witness submission ephemeral.

(** The note a claim spends, steps 1 to 6 of [prepare_claim]. *)
Definition claimed_note (announcement : SwapAnnouncement)
  (own_meta_key : MetaKeyPair Scalar Point) (counterparty_r_pub : Point)
  (swap_terms : SwapTerms) (role : PartyRole) : Note :=
  let '(encrypted_salt_value, locked_chain_id, locked_value, locked_asset_id,
        fallback_owner_x) :=
    match role with
    | RoleA => (an_encrypted_salt_b announcement, tm_chain_id_b swap_terms,
                tm_value_b swap_terms, tm_asset_id_b swap_terms, tm_pk_meta_b swap_terms)
    | RoleB => (an_encrypted_salt_a announcement, tm_chain_id_a swap_terms,
                tm_value_a swap_terms, tm_asset_id_a swap_terms, tm_pk_meta_a swap_terms)
    end in
  let shared_x := ecdh_shared_secret_x counterparty_r_pub (mk_sk own_meta_key) in
  let decrypted_salt := decrypt_salt encrypted_salt_value shared_x in
  let sk_stealth := derive_stealth_secret (mk_sk own_meta_key) counterparty_r_pub in
  let pk_stealth := point_mul generator sk_stealth in
  let pk_stealth_x := affine_x_to_b256 pk_stealth in
  mk_note locked_chain_id locked_value locked_asset_id pk_stealth_x fallback_owner_x
    (tm_timeout swap_terms) decrypted_salt.

(** The witness of a spend: the lock-mode fields are zero. *)
Definition spend_witness (nullifier root new_commitment timeout pk_stealth : B256)
  (sk : Scalar) (in_note : Note) (merkle_proof : CommitmentMerkleProof) (out_note : Note)
  : TransferWitness :=
  let '(sk_lo, sk_hi) := scalar_to_lo_hi sk in
  let '(path_elements, path_indices) := pad_merkle_proof merkle_proof in
  mk_transfer_witness nullifier root new_commitment timeout pk_stealth b256_zero b256_zero
    b256_zero b256_zero sk_lo sk_hi in_note (cp_proof_length merkle_proof mod 2 ^ 32)
    path_elements path_indices out_note b256_zero b256_zero b256_zero b256_zero b256_zero
    b256_zero.

Definition prepare_claim (salt_bytes : B256) (announcement : SwapAnnouncement)
  (own_meta_key : MetaKeyPair Scalar Point) (counterparty_r_pub : Point)
  (swap_terms : SwapTerms) (role : PartyRole) (merkle_proof : CommitmentMerkleProof)
  (merkle_root : B256) : SpendOutput :=
  let locked_note := claimed_note announcement own_meta_key counterparty_r_pub swap_terms role in
  let sk_stealth := derive_stealth_secret (mk_sk own_meta_key) counterparty_r_pub in
  let output_note := note_new salt_bytes (nt_chain_id locked_note) (nt_value locked_note)
    (nt_asset_id locked_note) (pk_x own_meta_key) b256_zero b256_zero in
  mk_spend_output output_note
    (spend_witness (note_nullifier locked_note) merkle_root (note_commitment output_note)
       (nt_timeout locked_note) (nt_owner locked_note) sk_stealth locked_note merkle_proof
       output_note).

Definition prepare_refund (salt_bytes : B256) (locked_note : Note) (own_sk : Scalar)
  (merkle_proof : CommitmentMerkleProof) (merkle_root : B256) : SpendOutput :=
  let output_note := note_new salt_bytes (nt_chain_id locked_note) (nt_value locked_note)
    (nt_asset_id locked_note) (nt_fallback_owner locked_note) b256_zero b256_zero in
  mk_spend_output output_note
    (spend_witness (note_nullifier locked_note) merkle_root (note_commitment output_note)
       (nt_timeout locked_note) b256_zero own_sk locked_note merkle_proof output_note).

(** The lock data a chain records for a lock transaction. *)
Definition lock_data_of (w : TransferWitness) : SwapLockData :=
  mk_lock_data (tw_new_commitment w) (tw_timeout w) (tw_pk_stealth w) (tw_h_swap w)
    (tw_h_r w) (tw_h_meta w) (tw_h_enc w).
End party.
