(* ===== verification/SwapCoordinator.v ===== *)
(** * The coordinator of the TEE swap

    Model of [coordinator.rs], [ports/store.rs], [ports/chain.rs] (the
    methods the coordinator calls), [adapters/memory_store.rs] and
    [adapters/mock_chain.rs].  [handle_submission] is an [async] method that
    awaits the chain and two mutexes: besides the method run alone, its steps
    between awaits are the transitions of a task, and any number of tasks
    interleave over the shared coordinator. *)

From Stdlib Require Import ZArith Lia Bool.
From stdpp Require Import base tactics list gmap strings numbers.
From S2P Require Import Prelude Field Types Poseidon SwapCrypto SwapParty.

(** ** Errors and results *)
Inductive ChainError : Type :=
| CommitmentNotFound (c : B256)
| AnnouncementNotFound (id : B256)
| TransactionFailed (m : string)
| Rpc (m : string).

Inductive StoreError : Type :=
| DuplicateSubmission
| SwapNotFound (id : B256)
| StoreInternal (m : string).

Inductive CoordinatorError : Type :=
| SwapIdMismatch
| NonceMismatch
| CommitmentMismatch (party : string) (recomputed on_chain : B256)
| BindingMismatch (party binding : string)
| SwapIdRecomputationFailed
| TimeoutMismatch (timeout_a timeout_b : B256)
| TimeoutLockMismatch (note on_chain : B256)
| MissingLockData
| TimeoutTooShort (minimum_remaining actual_remaining : Z)
| UnknownChain (id : B256)
| CoordinatorChain (e : ChainError)
| CoordinatorStore (e : StoreError).

Record TxReceipt : Type := mk_receipt {
  rc_tx_hash : B256;
  rc_success : bool;
}.

Inductive SubmissionResult : Type :=
| Pending
| Verified (announcement : SwapAnnouncement) (tx_receipt : TxReceipt).

(** ** Ports *)
Class ChainPort (Ch : Type) : Type := {
  get_swap_lock_data : Ch → B256 → outcome ChainError SwapLockData;
  announce_swap : Ch → SwapAnnouncement → outcome ChainError (TxReceipt * Ch);
  get_announcement : Ch → B256 → outcome ChainError SwapAnnouncement;
}.

(** Lock data is filed under its own commitment; announcing keeps it, and the
    announcement can then be read. *)
Class ChainLaws (Ch : Type) {CP : ChainPort Ch} : Prop := {
  lock_commitment c k l : get_swap_lock_data c k = Ok l → lk_commitment l = k;
  announce_keeps_locks c a r c' k l : announce_swap c a = Ok (r, c') →
    get_swap_lock_data c k = Ok l → get_swap_lock_data c' k = Ok l;
  announce_get c a r c' : announce_swap c a = Ok (r, c') →
    get_announcement c' (an_swap_id a) = Ok a;
}.

(** ** The in-memory store *)
Record InMemorySwapStore : Type := mk_store {
  st_pending : gmap (list byte) PartySubmission;
}.

Definition store_new : InMemorySwapStore := mk_store ∅.

Definition store_submit (s : InMemorySwapStore) (submission : PartySubmission)
  : outcome StoreError (option PartySubmission * InMemorySwapStore) :=
  let swap_id := ps_swap_id submission in
  let pending := delete swap_id (st_pending s) in
  match st_pending s !! swap_id with
  | None => Ok (None, mk_store (<[swap_id := submission]> pending))
  | Some first => Ok (Some first, mk_store pending)
  end.

Definition store_remove (s : InMemorySwapStore) (swap_id : B256)
  : outcome StoreError InMemorySwapStore :=
  ok_or (st_pending s !! swap_id) (SwapNotFound swap_id);;
  Ok (mk_store (delete swap_id (st_pending s))).

Definition store_has_pending (s : InMemorySwapStore) (swap_id : B256)
  : outcome StoreError bool :=
  Ok (match st_pending s !! swap_id with Some _ => true | None => false end).

(** ** The mock chain *)
Record MockChainPort : Type := mk_mock_chain {
  mc_lock_data : gmap (list byte) SwapLockData;
  mc_announcements : gmap (list byte) SwapAnnouncement;
}.

Definition mock_chain_new : MockChainPort := mk_mock_chain ∅ ∅.
Definition insert_lock_data (c : MockChainPort) (commitment : B256) (data : SwapLockData)
  : MockChainPort := mk_mock_chain (<[commitment := data]> (mc_lock_data c)) (mc_announcements c).

#[export] Instance mock_chain : ChainPort MockChainPort := {|
  get_swap_lock_data c commitment :=
    ok_or (mc_lock_data c !! commitment) (CommitmentNotFound commitment);
  announce_swap c announcement :=
    Ok (mk_receipt (an_swap_id announcement) true,
        mk_mock_chain (mc_lock_data c)
          (<[an_swap_id announcement := announcement]> (mc_announcements c)));
  get_announcement c swap_id :=
    ok_or (mc_announcements c !! swap_id) (AnnouncementNotFound swap_id);
|}.

Section verification.
Context `{C : Crypto}.

(** ** Hash-only verification *)
Definition swap_id_of (a b : Note) (timeout nonce : B256) : B256 :=
  swap_id_hash (nt_value a) (nt_asset_id a) (nt_chain_id a) (nt_value b) (nt_asset_id b)
    (nt_chain_id b) timeout (nt_fallback_owner a) (nt_fallback_owner b) nonce.

Definition determine_roles (sub_1 sub_2 : PartySubmission) (lock_1 lock_2 : SwapLockData)
  (timeout nonce expected_swap_id : B256)
  : outcome CoordinatorError (PartySubmission * PartySubmission * SwapLockData * SwapLockData) :=
  let try_1_as_a := swap_id_of (ps_note_details sub_1) (ps_note_details sub_2) timeout nonce in
  if bytes_eqb try_1_as_a expected_swap_id then Ok (sub_1, sub_2, lock_1, lock_2)
  else
    let try_2_as_a := swap_id_of (ps_note_details sub_2) (ps_note_details sub_1) timeout nonce in
    if bytes_eqb try_2_as_a expected_swap_id then Ok (sub_2, sub_1, lock_2, lock_1)
    else Err SwapIdRecomputationFailed.

Definition verify_commitment (sub : PartySubmission) (lock : SwapLockData) (party : string)
  : outcome CoordinatorError unit :=
  let recomputed := commitment_hash (ps_note_details sub) in
  ensure (bytes_eqb recomputed (lk_commitment lock))
    (CommitmentMismatch party recomputed (lk_commitment lock)).

Definition verify_bindings (sub : PartySubmission) (lock : SwapLockData)
  (swap_id counterparty_pk_meta : B256) (party : string) : outcome CoordinatorError unit :=
  let salt := nt_salt (ps_note_details sub) in
  ensure (bytes_eqb (bind_swap swap_id salt) (lk_h_swap lock))
    (BindingMismatch party "h_swap");;
  ensure (bytes_eqb (bind_r (ps_ephemeral_pubkey sub)) (lk_h_r lock))
    (BindingMismatch party "h_r");;
  ensure (bytes_eqb (bind_meta counterparty_pk_meta salt) (lk_h_meta lock))
    (BindingMismatch party "h_meta");;
  ensure (bytes_eqb (bind_enc (ps_encrypted_salt sub)) (lk_h_enc lock))
    (BindingMismatch party "h_enc").

Definition verify_swap (sub_1 sub_2 : PartySubmission) (lock_1 lock_2 : SwapLockData)
  : outcome CoordinatorError SwapAnnouncement :=
  ensure (bytes_eqb (ps_swap_id sub_1) (ps_swap_id sub_2)) SwapIdMismatch;;
  ensure (bytes_eqb (ps_nonce sub_1) (ps_nonce sub_2)) NonceMismatch;;
  let swap_id := ps_swap_id sub_1 in
  let nonce := ps_nonce sub_1 in
  let timeout := nt_timeout (ps_note_details sub_1) in
  '(sub_a, sub_b, lock_a, lock_b) ←
    determine_roles sub_1 sub_2 lock_1 lock_2 timeout nonce swap_id;
  verify_commitment sub_a lock_a "A";;
  verify_commitment sub_b lock_b "B";;
  let pk_meta_a := nt_fallback_owner (ps_note_details sub_a) in
  let pk_meta_b := nt_fallback_owner (ps_note_details sub_b) in
  verify_bindings sub_a lock_a swap_id pk_meta_b "A";;
  verify_bindings sub_b lock_b swap_id pk_meta_a "B";;
  let timeout_a := nt_timeout (ps_note_details sub_a) in
  let timeout_b := nt_timeout (ps_note_details sub_b) in
  ensure (bytes_eqb timeout_a timeout_b) (TimeoutMismatch timeout_a timeout_b);;
  ensure (bytes_eqb (lk_timeout lock_a) timeout_a)
    (TimeoutLockMismatch timeout_a (lk_timeout lock_a));;
  ensure (bytes_eqb (lk_timeout lock_b) timeout_b)
    (TimeoutLockMismatch timeout_b (lk_timeout lock_b));;
  Ok (mk_announcement swap_id (ps_ephemeral_pubkey sub_a) (ps_ephemeral_pubkey sub_b)
        (ps_encrypted_salt sub_a) (ps_encrypted_salt sub_b)).

(** [u64::saturating_sub]; the clock reading [now] is an argument. *)
Definition check_timeout (min_timeout_secs now : Z) (lock_data : SwapLockData)
  : outcome CoordinatorError unit :=
  if 0 <? min_timeout_secs then
    let timeout_ts := be_to_Z (take 8 (drop 24 (lk_timeout lock_data))) in
    let remaining := (timeout_ts - now) `max` 0 in
    ensure (negb (remaining <? min_timeout_secs)) (TimeoutTooShort min_timeout_secs remaining)
  else Ok tt.
End verification.

(** ** The coordinator *)
Record SwapCoordinator (Ch : Type) : Type := mk_coordinator {
  co_store : InMemorySwapStore;
  co_chains : gmap (list byte) Ch;
  co_announcement_chain_id : B256;
  co_pending_lock_data : gmap (list byte) SwapLockData;
  co_min_timeout_secs : Z;
}.
Arguments mk_coordinator {Ch}.
Arguments co_store {Ch}.
Arguments co_chains {Ch}.
Arguments co_announcement_chain_id {Ch}.
Arguments co_pending_lock_data {Ch}.
Arguments co_min_timeout_secs {Ch}.

Section coordinator.
Context `{C : Crypto} {Ch : Type} {CP : ChainPort Ch}.

Abbreviation Co := (SwapCoordinator Ch).

Definition coordinator_new (store : InMemorySwapStore) (chains : gmap (list byte) Ch)
  (announcement_chain_id : B256) : Co :=
  mk_coordinator store chains announcement_chain_id ∅ 0.
Definition with_min_timeout (s : Co) (secs : Z) : Co :=
  mk_coordinator (co_store s) (co_chains s) (co_announcement_chain_id s)
    (co_pending_lock_data s) secs.
Definition with_store (s : Co) (st : InMemorySwapStore) : Co :=
  mk_coordinator st (co_chains s) (co_announcement_chain_id s) (co_pending_lock_data s)
    (co_min_timeout_secs s).
Definition with_pending (s : Co) (p : gmap (list byte) SwapLockData) : Co :=
  mk_coordinator (co_store s) (co_chains s) (co_announcement_chain_id s) p
    (co_min_timeout_secs s).
Definition with_chains (s : Co) (cs : gmap (list byte) Ch) : Co :=
  mk_coordinator (co_store s) cs (co_announcement_chain_id s) (co_pending_lock_data s)
    (co_min_timeout_secs s).

(** Reading the lock of a submission from its chain. *)
Definition read_lock (s : Co) (submission : PartySubmission)
  : outcome CoordinatorError SwapLockData :=
  let chain_id := nt_chain_id (ps_note_details submission) in
  chain ← ok_or (co_chains s !! chain_id) (UnknownChain chain_id);
  map_err CoordinatorChain
    (get_swap_lock_data chain (commitment_hash (ps_note_details submission))).

(** Verification and announcement, once both sides are in. *)
Definition settle (now : Z) (submission first : PartySubmission)
  (lock_data first_lock_data : SwapLockData) : M Co CoordinatorError SubmissionResult :=
  s ← mget;
  mlift (check_timeout (co_min_timeout_secs s) now lock_data);;
  announcement ← mlift (verify_swap first submission first_lock_data lock_data);
  let id := co_announcement_chain_id s in
  chain ← mlift (ok_or (co_chains s !! id) (UnknownChain id));
  '(tx_receipt, chain) ← mlift (map_err CoordinatorChain (announce_swap chain announcement));
  mput (with_chains s (<[id := chain]> (co_chains s)));;
  mret (Verified announcement tx_receipt).

Definition handle_submission (now : Z) (submission : PartySubmission)
  : M Co CoordinatorError SubmissionResult :=
  s ← mget;
  let swap_id := ps_swap_id submission in
  lock_data ← mlift (read_lock s submission);
  '(waiting, store) ← mlift (map_err CoordinatorStore (store_submit (co_store s) submission));
  mput (with_store s store);;
  match waiting with
  | None =>
      s ← mget;
      mput (with_pending s (<[swap_id := lock_data]> (co_pending_lock_data s)));;
      mret Pending
  | Some first =>
      s ← mget;
      first_lock_data ← mlift (ok_or (co_pending_lock_data s !! swap_id) MissingLockData);
      mput (with_pending s (delete swap_id (co_pending_lock_data s)));;
      settle now submission first lock_data first_lock_data
  end.

Definition has_pending (s : Co) (swap_id : B256) : outcome CoordinatorError bool :=
  map_err CoordinatorStore (store_has_pending (co_store s) swap_id).

Definition coordinator_announcement (s : Co) (swap_id : B256)
  : outcome CoordinatorError SwapAnnouncement :=
  let id := co_announcement_chain_id s in
  chain ← ok_or (co_chains s !! id) (UnknownChain id);
  map_err CoordinatorChain (get_announcement chain swap_id).

(** ** The steps between awaits *)
Inductive Task : Type :=
| Arrived (sub : PartySubmission)
| HasLock (sub : PartySubmission) (lock : SwapLockData)
| MustBuffer (sub : PartySubmission) (lock : SwapLockData)
| MustMatch (sub first : PartySubmission) (lock : SwapLockData)
| MustSettle (sub first : PartySubmission) (lock first_lock : SwapLockData)
| Finished (res : outcome CoordinatorError SubmissionResult).

(** Goes on with the value of an outcome, or finishes with its failure. *)
Definition proceed {A} (m : outcome CoordinatorError A) (s : Co) (k : A → Task * Co)
  : Task * Co :=
  match m with
  | Ok a => k a
  | Err e => (Finished (Err e), s)
  | Panic => (Finished Panic, s)
  end.

Definition task_step (now : Z) (t : Task) (s : Co) : Task * Co :=
  match t with
  | Arrived sub => proceed (read_lock s sub) s (λ lock, (HasLock sub lock, s))
  | HasLock sub lock =>
      proceed (map_err CoordinatorStore (store_submit (co_store s) sub)) s (λ r,
        match r.1 with
        | None => (MustBuffer sub lock, with_store s r.2)
        | Some first => (MustMatch sub first lock, with_store s r.2)
        end)
  | MustBuffer sub lock =>
      (Finished (Ok Pending),
       with_pending s (<[ps_swap_id sub := lock]> (co_pending_lock_data s)))
  | MustMatch sub first lock =>
      proceed (ok_or (co_pending_lock_data s !! ps_swap_id sub) MissingLockData) s (λ l,
        (MustSettle sub first lock l,
         with_pending s (delete (ps_swap_id sub) (co_pending_lock_data s))))
  | MustSettle sub first lock first_lock =>
      let '(res, s') := settle now sub first lock first_lock s in (Finished res, s')
  | Finished res => (Finished res, s)
  end.
End coordinator.
