(* ===== verification/SwapOk.v ===== *)
(** * What the TEE swap guarantees

    The meaning of the hash-only verification, that an announcement is only
    ever posted for two locked notes that agree, whatever the interleaving of
    submissions, that an honest swap completes and each side can spend what
    it was promised, and the interleaving that loses a swap. *)

From Stdlib Require Import ZArith Lia Bool.
From stdpp Require Import base tactics list gmap strings numbers.
From S2P Require Import Prelude Field Types Poseidon SwapCrypto SwapParty SwapCoordinator.

Section verify.
Context `{C : Crypto}.

(** One side of a swap opens its lock towards the other. *)
Record opens_lock (sub : PartySubmission) (lock : SwapLockData) (swap_id peer timeout : B256)
  : Prop := {
  ol_commitment : lk_commitment lock = commitment_hash (ps_note_details sub);
  ol_h_swap : lk_h_swap lock = bind_swap swap_id (nt_salt (ps_note_details sub));
  ol_h_r : lk_h_r lock = bind_r (ps_ephemeral_pubkey sub);
  ol_h_meta : lk_h_meta lock = bind_meta peer (nt_salt (ps_note_details sub));
  ol_h_enc : lk_h_enc lock = bind_enc (ps_encrypted_salt sub);
  ol_timeout : nt_timeout (ps_note_details sub) = timeout ∧ lk_timeout lock = timeout;
}.

(** Two submissions, in the roles A and B, make up the swap [a] announces. *)
Record agrees (sa sb : PartySubmission) (la lb : SwapLockData) (a : SwapAnnouncement)
  : Prop := {
  ag_swap_id : ps_swap_id sa = an_swap_id a ∧ ps_swap_id sb = an_swap_id a;
  ag_nonce : ps_nonce sa = ps_nonce sb;
  ag_terms : an_swap_id a = swap_id_of (ps_note_details sa) (ps_note_details sb)
    (nt_timeout (ps_note_details sa)) (ps_nonce sa);
  ag_a : opens_lock sa la (an_swap_id a) (nt_fallback_owner (ps_note_details sb))
    (nt_timeout (ps_note_details sa));
  ag_b : opens_lock sb lb (an_swap_id a) (nt_fallback_owner (ps_note_details sa))
    (nt_timeout (ps_note_details sa));
  ag_reveal : an_ephemeral_key_a a = ps_ephemeral_pubkey sa ∧
    an_ephemeral_key_b a = ps_ephemeral_pubkey sb ∧
    an_encrypted_salt_a a = ps_encrypted_salt sa ∧
    an_encrypted_salt_b a = ps_encrypted_salt sb;
}.

(** The first submission passes for party A. *)
Definition first_as_a (s1 s2 : PartySubmission) : bool :=
  bytes_eqb (swap_id_of (ps_note_details s1) (ps_note_details s2)
    (nt_timeout (ps_note_details s1)) (ps_nonce s1)) (ps_swap_id s1).

(** The checks after the roles are known. *)
Definition verify_roles (sa sb : PartySubmission) (la lb : SwapLockData) (swap_id : B256)
  : outcome CoordinatorError SwapAnnouncement :=
  verify_commitment sa la "A";;
  verify_commitment sb lb "B";;
  verify_bindings sa la swap_id (nt_fallback_owner (ps_note_details sb)) "A";;
  verify_bindings sb lb swap_id (nt_fallback_owner (ps_note_details sa)) "B";;
  let timeout_a := nt_timeout (ps_note_details sa) in
  let timeout_b := nt_timeout (ps_note_details sb) in
  ensure (bytes_eqb timeout_a timeout_b) (TimeoutMismatch timeout_a timeout_b);;
  ensure (bytes_eqb (lk_timeout la) timeout_a) (TimeoutLockMismatch timeout_a (lk_timeout la));;
  ensure (bytes_eqb (lk_timeout lb) timeout_b) (TimeoutLockMismatch timeout_b (lk_timeout lb));;
  Ok (mk_announcement swap_id (ps_ephemeral_pubkey sa) (ps_ephemeral_pubkey sb)
        (ps_encrypted_salt sa) (ps_encrypted_salt sb)).

Lemma verify_bindings_Ok sub lock id peer party u :
  verify_bindings sub lock id peer party = Ok u ↔
  bind_swap id (nt_salt (ps_note_details sub)) = lk_h_swap lock ∧
  bind_r (ps_ephemeral_pubkey sub) = lk_h_r lock ∧
  bind_meta peer (nt_salt (ps_note_details sub)) = lk_h_meta lock ∧
  bind_enc (ps_encrypted_salt sub) = lk_h_enc lock.
Proof.
  unfold verify_bindings. destruct u. split.
  - intros H. inv_ok H. by rewrite <-!bytes_eqb_eq.
  - rewrite <-!bytes_eqb_eq. intros (H1 & H2 & H3 & H4).
    rewrite !ensure_bind by done. by rewrite H4.
Qed.

Lemma verify_roles_Ok sa sb la lb id a :
  verify_roles sa sb la lb id = Ok a ↔
  opens_lock sa la id (nt_fallback_owner (ps_note_details sb)) (nt_timeout (ps_note_details sa)) ∧
  opens_lock sb lb id (nt_fallback_owner (ps_note_details sa)) (nt_timeout (ps_note_details sa)) ∧
  a = mk_announcement id (ps_ephemeral_pubkey sa) (ps_ephemeral_pubkey sb)
        (ps_encrypted_salt sa) (ps_encrypted_salt sb).
Proof.
  unfold verify_roles, verify_commitment. split.
  - intros H. inv_ok H. repeat match goal with
      | H : verify_bindings _ _ _ _ _ = Ok _ |- _ => apply verify_bindings_Ok in H as (? & ? & ? & ?)
      | H : bytes_eqb _ _ = true |- _ => apply bytes_eqb_eq in H
      end.
    split_and!; [constructor; (done || by split)|constructor; (done || (split; congruence))|done].
  - intros ([] & [] & ->). destruct ol_timeout0, ol_timeout1.
    rewrite !ensure_bind by by apply bytes_eqb_eq.
    rewrite (proj2 (verify_bindings_Ok sa la _ _ _ tt)), Ok_bind by done.
    rewrite (proj2 (verify_bindings_Ok sb lb _ _ _ tt)), Ok_bind by done.
    rewrite !ensure_bind by (apply bytes_eqb_eq; congruence). done.
Qed.

Lemma verify_swap_roles s1 s2 l1 l2 :
  verify_swap s1 s2 l1 l2
  = (ensure (bytes_eqb (ps_swap_id s1) (ps_swap_id s2)) SwapIdMismatch;;
     ensure (bytes_eqb (ps_nonce s1) (ps_nonce s2)) NonceMismatch;;
     if first_as_a s1 s2 then verify_roles s1 s2 l1 l2 (ps_swap_id s1)
     else if bytes_eqb (swap_id_of (ps_note_details s2) (ps_note_details s1)
               (nt_timeout (ps_note_details s1)) (ps_nonce s1)) (ps_swap_id s1)
     then verify_roles s2 s1 l2 l1 (ps_swap_id s1)
     else Err SwapIdRecomputationFailed).
Proof.
  unfold verify_swap, determine_roles, first_as_a.
  destruct (bytes_eqb (ps_swap_id s1) (ps_swap_id s2)); [|done].
  destruct (bytes_eqb (ps_nonce s1) (ps_nonce s2)); [|done]. cbn [ensure mbind outcome_bind].
  destruct (bytes_eqb (swap_id_of _ _ _ _) _); [done|].
  destruct (bytes_eqb (swap_id_of _ _ _ _) _); done.
Qed.
Lemma agrees_first sa sb la lb a : agrees sa sb la lb a → first_as_a sa sb = true.
Proof.
  intros [[H1 _] _ Ht _ _ _]. unfold first_as_a. apply bytes_eqb_eq. by rewrite H1.
Qed.

Lemma verify_swap_cases s1 s2 l1 l2 a :
  verify_swap s1 s2 l1 l2 = Ok a ↔
  agrees s1 s2 l1 l2 a ∨ (first_as_a s1 s2 = false ∧ agrees s2 s1 l2 l1 a).
Proof.
  rewrite verify_swap_roles. split.
  - intros H. apply bind_Ok in H as (u & H1 & H). apply ensure_Ok, bytes_eqb_eq in H1. clear u.
    apply bind_Ok in H as (u & H2 & H). apply ensure_Ok, bytes_eqb_eq in H2. clear u.
    destruct (first_as_a s1 s2) eqn:Hf.
    + left. apply verify_roles_Ok in H as (Ha & Hb & ->).
      unfold first_as_a in Hf. apply bytes_eqb_eq in Hf. by constructor.
    + right. split; [done|]. case_match eqn:Hs; [|done]. apply bytes_eqb_eq in Hs.
      apply verify_roles_Ok in H as (Ha & Hb & ->).
      destruct (ol_timeout _ _ _ _ _ Hb) as [Ht _]. rewrite Ht in Hs. constructor; try done.
      cbn [an_swap_id]. by rewrite <-H2.
  - intros [Hag|[Hf Hag]].
    + rewrite (agrees_first _ _ _ _ _ Hag).
      destruct Hag as [[H1 H1'] H2 Ht Ha Hb (R1 & R2 & R3 & R4)].
      rewrite !ensure_bind by (apply bytes_eqb_eq; congruence).
      apply verify_roles_Ok. rewrite H1. split_and!; [done|done|]. destruct a; cbn in *. congruence.
    + rewrite Hf. destruct Hag as [[H1 H1'] H2 Ht Ha Hb (R1 & R2 & R3 & R4)].
      rewrite !ensure_bind by (apply bytes_eqb_eq; congruence).
      destruct (ol_timeout _ _ _ _ _ Hb) as [Hto _].
      rewrite (proj2 (bytes_eqb_eq _ _)) by by rewrite Hto, <-H2, <-Ht, H1'.
      apply verify_roles_Ok. rewrite H1'. split_and!; [done|done|].
      destruct a; cbn in *. congruence.
Qed.

(** C25: what the coordinator's verification accepts.  [verify_swap] succeeds
    exactly when the two submissions agree in one of the two role
    assignments: same swap and nonce, the swap identifier recomputed from both
    notes, and each side opens all five commitments of its lock towards the
    other's key, with one timeout throughout; and it reveals exactly the two
    ephemeral keys and encrypted salts.  Unless both assignments hash to the
    same identifier, the order of arrival does not matter. *)
Theorem verify_swap_exact s1 s2 l1 l2 a :
  (verify_swap s1 s2 l1 l2 = Ok a ↔
   agrees s1 s2 l1 l2 a ∨ (first_as_a s1 s2 = false ∧ agrees s2 s1 l2 l1 a)) ∧
  (first_as_a s1 s2 && first_as_a s2 s1 = false →
   verify_swap s1 s2 l1 l2 = Ok a ↔ verify_swap s2 s1 l2 l1 = Ok a).
Proof.
  split; [apply verify_swap_cases|]. intros Hne. rewrite !verify_swap_cases.
  split; intros [Hag|[Hf Hag]].
  - right. rewrite (agrees_first _ _ _ _ _ Hag) in Hne. done.
  - by left.
  - right. rewrite (agrees_first _ _ _ _ _ Hag), andb_true_r in Hne. done.
  - by left.
Qed.
End verify.
