(* ===== verification/SwapRun.v ===== *)
(** * Runs of the TEE swap coordinator

    An honest swap run to its end, submissions handled one after another, and
    submissions handled concurrently: the steps between awaits of any number
    of tasks interleave over one coordinator while its chains grow. *)

From Stdlib Require Import ZArith Lia Bool.
From stdpp Require Import base tactics list gmap strings numbers relations.
From S2P Require Import Prelude Field Types Poseidon SwapCrypto SwapParty SwapCoordinator SwapOk.

(** ** One submission at a time *)
Section handling.
Context `{C : Crypto} {Ch : Type} {CP : ChainPort Ch}.
Implicit Types (s : SwapCoordinator Ch).

(** The coordinator after a first submission, and after it is matched. *)
Definition buffered s (sub : PartySubmission) (l : SwapLockData) : SwapCoordinator Ch :=
  with_pending (with_store s (mk_store (<[ps_swap_id sub := sub]> (st_pending (co_store s)))))
    (<[ps_swap_id sub := l]> (co_pending_lock_data s)).
Definition matched s (swap_id : B256) : SwapCoordinator Ch :=
  with_pending (with_store s (mk_store (delete swap_id (st_pending (co_store s)))))
    (delete swap_id (co_pending_lock_data s)).

Lemma handle_first now sub s l :
  read_lock s sub = Ok l → st_pending (co_store s) !! ps_swap_id sub = None →
  handle_submission now sub s = (Ok Pending, buffered s sub l).
Proof.
  intros Hl Hp. unfold handle_submission.
  rewrite M_bind_get, M_bind_lift, Hl, M_bind_lift. unfold store_submit. rewrite Hp.
  by rewrite insert_delete_eq.
Qed.

Lemma handle_second now sub first s l l1 :
  read_lock s sub = Ok l → st_pending (co_store s) !! ps_swap_id sub = Some first →
  co_pending_lock_data s !! ps_swap_id sub = Some l1 →
  handle_submission now sub s = settle now sub first l l1 (matched s (ps_swap_id sub)).
Proof.
  intros Hl Hp Hd. unfold handle_submission.
  rewrite M_bind_get, M_bind_lift, Hl, M_bind_lift. unfold store_submit. rewrite Hp.
  cbn [map_err fst]. rewrite M_bind_put, M_bind_get, M_bind_lift.
  change (co_pending_lock_data (with_store _ _)) with (co_pending_lock_data s). by rewrite Hd.
Qed.

(** Enough time is left before the timeout of the swap. *)
Definition in_time s (now : Z) (timeout : B256) : Prop :=
  co_min_timeout_secs s ≤ 0 ∨
  now + co_min_timeout_secs s ≤ be_to_Z (take 8 (drop 24 timeout)).

Lemma check_timeout_Ok s now l :
  check_timeout (co_min_timeout_secs s) now l = Ok tt ↔ in_time s now (lk_timeout l).
Proof.
  unfold check_timeout, in_time. case_match; reflect_bools.
  - rewrite ensure_Ok. split; intros Hr; reflect_bools; [lia|].
    apply negb_true_iff, Z.ltb_ge. lia.
  - split; [intros _; lia|done].
Qed.

Lemma settle_ok now sub first l l1 s a ch r ch' :
  in_time s now (lk_timeout l) → verify_swap first sub l1 l = Ok a →
  co_chains s !! co_announcement_chain_id s = Some ch → announce_swap ch a = Ok (r, ch') →
  settle now sub first l l1 s
  = (Ok (Verified a r), with_chains s (<[co_announcement_chain_id s := ch']> (co_chains s))).
Proof.
  intros Ht%check_timeout_Ok Hv Hc Ha. unfold settle.
  rewrite M_bind_get, M_bind_lift, Ht, M_bind_lift, Hv, M_bind_lift, Hc. cbn [ok_or].
  by rewrite M_bind_lift, Ha.
Qed.

Lemma read_lock_chains s s' sub : co_chains s = co_chains s' → read_lock s sub = read_lock s' sub.
Proof. unfold read_lock. by intros ->. Qed.

Lemma has_pending_true s id sub :
  st_pending (co_store s) !! id = Some sub → has_pending s id = Ok true.
Proof. unfold has_pending, store_has_pending. by intros ->. Qed.
Lemma has_pending_false s id :
  st_pending (co_store s) !! id = None → has_pending s id = Ok false.
Proof. unfold has_pending, store_has_pending. by intros ->. Qed.
Lemma announced s ch id a :
  co_chains s !! co_announcement_chain_id s = Some ch → get_announcement ch id = Ok a →
  coordinator_announcement s id = Ok a.
Proof. unfold coordinator_announcement. intros H1 H2. by rewrite (ok_or_bind _ _ ch), H2. Qed.

(** Two submissions of one swap that verify, one after the other. *)
Lemma two_submissions s now1 now2 sub1 sub2 l1 l2 a ch r ch' :
  read_lock s sub1 = Ok l1 → read_lock s sub2 = Ok l2 →
  st_pending (co_store s) !! ps_swap_id sub1 = None → ps_swap_id sub1 = ps_swap_id sub2 →
  in_time s now2 (lk_timeout l2) → verify_swap sub1 sub2 l1 l2 = Ok a →
  co_chains s !! co_announcement_chain_id s = Some ch → announce_swap ch a = Ok (r, ch') →
  handle_submission now1 sub1 s = (Ok Pending, buffered s sub1 l1) ∧
  handle_submission now2 sub2 (buffered s sub1 l1)
  = (Ok (Verified a r),
     with_chains (matched (buffered s sub1 l1) (ps_swap_id sub1))
       (<[co_announcement_chain_id s := ch']> (co_chains s))).
Proof.
  intros Hl1 Hl2 Hp Hid Ht Hv Hc Ha. split; [by apply handle_first|].
  rewrite (handle_second now2 sub2 sub1 _ l2 l1).
  - rewrite (settle_ok now2 sub2 sub1 l2 l1 _ a ch r ch') by done. by rewrite Hid.
  - by rewrite <-Hl2; apply read_lock_chains.
  - cbn. by rewrite <-Hid, lookup_insert_eq.
  - cbn. by rewrite <-Hid, lookup_insert_eq.
Qed.
End handling.

(** Reads the fields of an updated coordinator. *)
Tactic Notation "co_simpl" "in" hyp(H) :=
  cbn [buffered matched with_store with_pending with_chains co_store co_chains
    co_pending_lock_data co_announcement_chain_id co_min_timeout_secs st_pending] in H |- *.

(** ** An honest swap *)
Section honest.
Context `{C : Crypto} {Scalar Point : Type} {K : Curve Scalar Point} {KL : CurveLaws Scalar Point}.
Context {Ch : Type} {CP : ChainPort Ch} {CL : ChainLaws Ch}.

(** Both parties of a swap with what they draw and spend. *)
Record Swap : Type := mk_swap {
  sw_sk_a : Scalar; sw_sk_b : Scalar;
  sw_r_a : Scalar; sw_r_b : Scalar;
  sw_salt_a : B256; sw_salt_b : B256;
  sw_note_a : Note; sw_note_b : Note;
  sw_proof_a : CommitmentMerkleProof; sw_proof_b : CommitmentMerkleProof;
  sw_root_a : B256; sw_root_b : B256;
  sw_timeout : B256; sw_nonce : B256;
}.

Definition swap_key_a (w : Swap) : MetaKeyPair Scalar Point := from_secret (sw_sk_a w).
Definition swap_key_b (w : Swap) : MetaKeyPair Scalar Point := from_secret (sw_sk_b w).

Definition swap_terms (w : Swap) : SwapTerms :=
  terms_new (nt_chain_id (sw_note_a w)) (nt_chain_id (sw_note_b w))
    (nt_value (sw_note_a w)) (nt_value (sw_note_b w))
    (nt_asset_id (sw_note_a w)) (nt_asset_id (sw_note_b w))
    (sw_timeout w) (pk_x (swap_key_a w)) (pk_x (swap_key_b w)) (sw_nonce w).

Definition swap_lock_a (w : Swap) : LockOutput Scalar Point :=
  prepare_lock (sw_r_a w) (sw_salt_a w) (swap_terms w) (swap_key_a w) (mk_pk (swap_key_b w))
    (sw_note_a w) (sw_proof_a w) (sw_root_a w).
Definition swap_lock_b (w : Swap) : LockOutput Scalar Point :=
  prepare_lock (sw_r_b w) (sw_salt_b w) (swap_terms w) (swap_key_b w) (mk_pk (swap_key_a w))
    (sw_note_b w) (sw_proof_b w) (sw_root_b w).

Definition swap_announcement (w : Swap) : SwapAnnouncement :=
  mk_announcement (tm_swap_id (swap_terms w))
    (r_pub_x (lo_ephemeral_keypair (swap_lock_a w)))
    (r_pub_x (lo_ephemeral_keypair (swap_lock_b w)))
    (ps_encrypted_salt (lo_submission (swap_lock_a w)))
    (ps_encrypted_salt (lo_submission (swap_lock_b w))).

(** The chain of a lock shows what its transaction made public. *)
Definition lock_recorded (s : SwapCoordinator Ch) (l : LockOutput Scalar Point) : Prop :=
  read_lock s (lo_submission l) = Ok (lock_data_of (lo_witness l)).

Lemma locks_agree w :
  agrees (lo_submission (swap_lock_a w)) (lo_submission (swap_lock_b w))
    (lock_data_of (lo_witness (swap_lock_a w))) (lock_data_of (lo_witness (swap_lock_b w)))
    (swap_announcement w).
Proof. constructor; try constructor; (done || by split_and!). Qed.

Lemma stealth_owner sk r :
  point_mul generator (derive_stealth_secret sk (point_mul generator r))
  = (derive_stealth_pubkey (point_mul generator sk) r).1.
Proof.
  unfold derive_stealth_secret, derive_stealth_pubkey. cbn [fst].
  by rewrite mul_scalar_add, mul_mul_comm.
Qed.

Lemma shared_secret_comm sk r :
  ecdh_shared_secret_x (point_mul generator r) sk = ecdh_shared_secret_x (point_mul generator sk) r.
Proof. unfold ecdh_shared_secret_x. by rewrite mul_mul_comm. Qed.

(** What the receiver of a lock reconstructs from the announced salt. *)
Lemma claim_opens r salt terms own_sk peer_sk note proof root :
  length salt = 32%nat →
  let l := prepare_lock r salt terms (from_secret own_sk) (point_mul generator peer_sk)
             note proof root in
  mk_note (nt_chain_id note) (nt_value note) (nt_asset_id note)
    (affine_x_to_b256 (point_mul generator
       (derive_stealth_secret peer_sk (ek_r_pub (lo_ephemeral_keypair l)))))
    (pk_x (from_secret own_sk)) (tm_timeout terms)
    (decrypt_salt (ps_encrypted_salt (lo_submission l))
       (ecdh_shared_secret_x (ek_r_pub (lo_ephemeral_keypair l)) peer_sk))
  = lo_locked_note l.
Proof.
  intros Hl. unfold prepare_lock.
  destruct (derive_stealth_pubkey _ _) as [pks h] eqn:E.
  destruct (scalar_to_lo_hi _) as [? ?], (scalar_to_lo_hi _) as [? ?], (pad_merkle_proof _) as [? ?].
  cbn [lo_ephemeral_keypair ek_r_pub ephemeral_generate lo_submission ps_encrypted_salt
       lo_locked_note note_new nt_salt ek_r] in E |- *.
  rewrite stealth_owner, E, shared_secret_comm, decrypt_encrypt by by rewrite length_mask_253.
  done.
Qed.

Lemma claimed_by_b w :
  length (sw_salt_a w) = 32%nat →
  claimed_note (swap_announcement w) (swap_key_b w)
    (ek_r_pub (lo_ephemeral_keypair (swap_lock_a w))) (swap_terms w) RoleB
  = lo_locked_note (swap_lock_a w).
Proof.
  apply (claim_opens (sw_r_a w) (sw_salt_a w) (swap_terms w) (sw_sk_a w) (sw_sk_b w)
    (sw_note_a w) (sw_proof_a w) (sw_root_a w)).
Qed.
Lemma claimed_by_a w :
  length (sw_salt_b w) = 32%nat →
  claimed_note (swap_announcement w) (swap_key_a w)
    (ek_r_pub (lo_ephemeral_keypair (swap_lock_b w))) (swap_terms w) RoleA
  = lo_locked_note (swap_lock_b w).
Proof.
  apply (claim_opens (sw_r_b w) (sw_salt_b w) (swap_terms w) (sw_sk_b w) (sw_sk_a w)
    (sw_note_b w) (sw_proof_b w) (sw_root_b w)).
Qed.

(** C24: an honest swap completes.  When both parties lock the notes of their
    terms with [prepare_lock], both locks are recorded on the chains, the swap
    is in time and the announcement chain accepts, then handling A's and then
    B's submission returns [Pending] and then [Verified] with the
    announcement of the swap, which the announcement chain then serves; the
    swap is pending in between and not after, and from the announcement each
    party reconstructs, with the shared secret and its own
    key alone, exactly the note the other locked for it, whose owner is the
    key it spends with.  B first works as well, unless the two role
    assignments hash to the same identifier.  In time means what the
    coordinator checks: enough time left before the timeout when a minimum is
    configured, and nothing when the minimum is zero, where the specification
    asks for a timeout that has not passed. *)
Theorem swap_completes w (a_first : bool) s now1 now2 ch r ch' :
  let sub_a := lo_submission (swap_lock_a w) in
  let sub_b := lo_submission (swap_lock_b w) in
  let sub_1 := if a_first then sub_a else sub_b in
  let sub_2 := if a_first then sub_b else sub_a in
  let a := swap_announcement w in
  length (sw_salt_a w) = 32%nat → length (sw_salt_b w) = 32%nat →
  lock_recorded s (swap_lock_a w) → lock_recorded s (swap_lock_b w) →
  st_pending (co_store s) !! tm_swap_id (swap_terms w) = None →
  in_time s now2 (sw_timeout w) →
  a_first = true ∨ first_as_a sub_b sub_a = false →
  co_chains s !! co_announcement_chain_id s = Some ch → announce_swap ch a = Ok (r, ch') →
  ∃ s1 s2,
    handle_submission now1 sub_1 s = (Ok Pending, s1) ∧
    handle_submission now2 sub_2 s1 = (Ok (Verified a r), s2) ∧
    has_pending s1 (tm_swap_id (swap_terms w)) = Ok true ∧
    has_pending s2 (tm_swap_id (swap_terms w)) = Ok false ∧
    coordinator_announcement s2 (tm_swap_id (swap_terms w)) = Ok a ∧
    co_pending_lock_data s2 !! tm_swap_id (swap_terms w) = None ∧
    claimed_note a (swap_key_b w) (ek_r_pub (lo_ephemeral_keypair (swap_lock_a w)))
      (swap_terms w) RoleB = lo_locked_note (swap_lock_a w) ∧
    claimed_note a (swap_key_a w) (ek_r_pub (lo_ephemeral_keypair (swap_lock_b w)))
      (swap_terms w) RoleA = lo_locked_note (swap_lock_b w) ∧
    nt_owner (lo_locked_note (swap_lock_a w))
    = affine_x_to_b256 (point_mul generator (derive_stealth_secret (sw_sk_b w)
        (ek_r_pub (lo_ephemeral_keypair (swap_lock_a w))))).
Proof.
  intros sub_a sub_b sub_1 sub_2 a Hla Hlb Ra Rb Hp Ht Hord Hc Han.
  pose proof (claimed_by_b w Hla) as Eb. pose proof (claimed_by_a w Hlb) as Ea.
  assert (verify_swap sub_1 sub_2
    (if a_first then lock_data_of (lo_witness (swap_lock_a w)) else lock_data_of (lo_witness (swap_lock_b w)))
    (if a_first then lock_data_of (lo_witness (swap_lock_b w)) else lock_data_of (lo_witness (swap_lock_a w)))
    = Ok a) as Hv.
  { apply verify_swap_cases. subst sub_1 sub_2. destruct a_first; [left; exact (locks_agree w)|right].
    split; [destruct Hord as [Hne|Hf]; [discriminate Hne|exact Hf]|exact (locks_agree w)]. }
  eapply (two_submissions s now1 now2 sub_1 sub_2 _ _ a ch r ch') in Hv as [H1 H2];
    [|subst sub_1 sub_2; by destruct a_first..].
  assert (ps_swap_id sub_1 = tm_swap_id (swap_terms w)) as Hid by (subst sub_1; by destruct a_first).
  rewrite Hid in H2. eexists _, _. split; [exact H1|]. split; [exact H2|].
  split; [apply (has_pending_true _ _ sub_1); rewrite <-Hid; apply lookup_insert_eq|].
  split; [apply has_pending_false, lookup_delete_eq|].
  split; [apply (announced _ ch'); [apply lookup_insert_eq|by eapply (announce_get ch a r)]|].
  split; [apply lookup_delete_eq|]. split; [exact Eb|]. split; [exact Ea|]. rewrite <-Eb. reflexivity.
Qed.
End honest.

(** ** Growing chains *)
Section growth.
Context `{C : Crypto} {Ch : Type} {CP : ChainPort Ch} {CL : ChainLaws Ch}.
Implicit Types (s : SwapCoordinator Ch) (cs : gmap (list byte) Ch).

(** Chains keep the locks they recorded. *)
Definition chains_grow cs cs' : Prop :=
  ∀ id ch, cs !! id = Some ch → ∃ ch', cs' !! id = Some ch' ∧
    ∀ k l, get_swap_lock_data ch k = Ok l → get_swap_lock_data ch' k = Ok l.

#[export] Instance chains_grow_preorder : PreOrder chains_grow.
Proof.
  split.
  - intros cs id ch H. eauto.
  - intros cs1 cs2 cs3 H12 H23 id ch H. destruct (H12 _ _ H) as (ch2 & H2 & K2).
    destruct (H23 _ _ H2) as (ch3 & H3 & K3). eauto.
Qed.

Lemma announce_grows s a ch r ch' :
  co_chains s !! co_announcement_chain_id s = Some ch → announce_swap ch a = Ok (r, ch') →
  chains_grow (co_chains s) (<[co_announcement_chain_id s := ch']> (co_chains s)).
Proof.
  intros Hc Ha id ch0 H0. destruct (decide (id = co_announcement_chain_id s)) as [->|Hne].
  - rewrite lookup_insert_eq. eexists; split; [done|]. rewrite Hc in H0. injection H0 as <-.
    intros k l. by apply (announce_keeps_locks ch a r ch').
  - rewrite lookup_insert_ne by done. eauto.
Qed.

(** A note is locked on its chain with lock data [l]. *)
Definition locked s (n : Note) (l : SwapLockData) : Prop :=
  ∃ ch, co_chains s !! nt_chain_id n = Some ch ∧
    get_swap_lock_data ch (commitment_hash n) = Ok l.

Lemma read_lock_locked s sub l : read_lock s sub = Ok l ↔ locked s (ps_note_details sub) l.
Proof.
  unfold read_lock, locked. split.
  - intros H. inv_ok H. eauto.
  - intros (ch & H1 & H2). by rewrite (ok_or_bind _ _ ch), H2.
Qed.

Lemma locked_grow s s' n l :
  chains_grow (co_chains s) (co_chains s') → locked s n l → locked s' n l.
Proof.
  intros Hg (ch & H1 & H2). destruct (Hg _ _ H1) as (ch' & H1' & K). exists ch'. eauto.
Qed.

Ltac inv_err H :=
  lazymatch type of H with
  | _ ≫= _ = Err _ =>
      let Hx := fresh "Hx" in
      apply bind_Err in H as [H|(? & Hx & H)]; inv_err H
  | ensure _ _ = Err _ => apply ensure_Err in H as [? H]; try discriminate H
  | (if ?b then _ else _) = Err _ => destruct b; inv_err H
  | Ok _ = Err _ => discriminate H
  | Err _ = Err _ => try discriminate H
  | _ => idtac
  end.

Lemma verify_swap_not_missing sub1 sub2 l1 l2 : verify_swap sub1 sub2 l1 l2 ≠ Err MissingLockData.
Proof.
  rewrite verify_swap_roles. unfold verify_roles, verify_commitment, verify_bindings.
  intros H. inv_err H.
Qed.

Lemma check_timeout_not_missing m now l : check_timeout m now l ≠ Err MissingLockData.
Proof. unfold check_timeout. intros H. inv_err H. Qed.

(** What a settlement leaves: only the announcement chain moves. *)
Lemma settle_effect now sub first l l1 s res s' :
  settle now sub first l l1 s = (res, s') →
  co_store s' = co_store s ∧ co_pending_lock_data s' = co_pending_lock_data s ∧
  chains_grow (co_chains s) (co_chains s') ∧ res ≠ Err MissingLockData ∧
  (∀ a r, res = Ok (Verified a r) → verify_swap first sub l1 l = Ok a).
Proof.
  unfold settle. rewrite M_bind_get, M_bind_lift.
  pose proof (check_timeout_not_missing (co_min_timeout_secs s) now l) as N1.
  pose proof (verify_swap_not_missing first sub l1 l) as N2.
  destruct (check_timeout _ _ _) as [u| |]; [|by intros [= <- <-]; split_and!; naive_solver..].
  rewrite M_bind_lift.
  destruct (verify_swap _ _ _ _) as [a| |] eqn:E2; [|by intros [= <- <-]; split_and!; naive_solver..].
  rewrite M_bind_lift.
  destruct (co_chains s !! co_announcement_chain_id s) as [ch|] eqn:E3; cbn [ok_or];
    [|by intros [= <- <-]; split_and!; naive_solver].
  rewrite M_bind_lift.
  destruct (announce_swap ch a) as [[r ch']| |] eqn:E4; cbn [map_err];
    [|by intros [= <- <-]; split_and!; naive_solver..].
  rewrite M_bind_put. intros [= <- <-]. cbn [co_store co_pending_lock_data co_chains with_chains].
  split_and!; [done..|by eapply announce_grows|done|naive_solver].
Qed.
End growth.

(** ** Submissions one after another *)
Section sequential.
Context `{C : Crypto} {Ch : Type} {CP : ChainPort Ch} {CL : ChainLaws Ch}.
Implicit Types (s : SwapCoordinator Ch).

(** Every waiting submission is filed under its swap, with the lock its chain
    shows. *)
Definition coherent s : Prop :=
  ∀ id sub, st_pending (co_store s) !! id = Some sub →
    ps_swap_id sub = id ∧
    ∃ l, co_pending_lock_data s !! id = Some l ∧ locked s (ps_note_details sub) l.

(** A submission handled from start to end, or a chain recording more. *)
Inductive seq_step s : SwapCoordinator Ch → Prop :=
| seq_handle now sub res s' : handle_submission now sub s = (res, s') → seq_step s s'
| seq_grow cs : chains_grow (co_chains s) cs → seq_step s (with_chains s cs).

Lemma coherent_grow s s' :
  co_store s' = co_store s → co_pending_lock_data s' = co_pending_lock_data s →
  chains_grow (co_chains s) (co_chains s') → coherent s → coherent s'.
Proof.
  intros Hs Hp Hg Hc id sub. rewrite Hs, Hp. intros H.
  destruct (Hc _ _ H) as (Hid & l & Hl & Hk). split; [done|]. exists l. split; [done|].
  by apply (locked_grow s).
Qed.

Lemma coherent_buffered s sub l :
  read_lock s sub = Ok l → coherent s → coherent (buffered s sub l).
Proof.
  intros Hl%read_lock_locked Hc id sub' H. co_simpl in H.
  destruct (decide (id = ps_swap_id sub)) as [->|Hne].
  - rewrite lookup_insert_eq in H. rewrite lookup_insert_eq. injection H as <-. eauto.
  - rewrite lookup_insert_ne in H by done. rewrite lookup_insert_ne by done. apply (Hc _ _ H).
Qed.

Lemma coherent_matched s id : coherent s → coherent (matched s id).
Proof.
  intros Hc id' sub' H. co_simpl in H. apply lookup_delete_Some in H as [Hne H].
  rewrite lookup_delete_ne by done. apply (Hc _ _ H).
Qed.

Lemma read_lock_not_missing s sub : read_lock s sub ≠ Err MissingLockData.
Proof.
  unfold read_lock. destruct (_ !! _); [|done]. cbn [ok_or mbind outcome_bind].
  by destruct (get_swap_lock_data _ _).
Qed.

(** One submission keeps the coordinator coherent and finds the lock of the
    submission it is matched with. *)
Lemma handle_coherent now sub s res s' :
  coherent s → handle_submission now sub s = (res, s') →
  coherent s' ∧ res ≠ Err MissingLockData.
Proof.
  intros Hc. destruct (read_lock s sub) as [l|e|] eqn:Hl.
  2-3: unfold handle_submission; rewrite M_bind_get, M_bind_lift, Hl; intros [= <- <-];
    (split; [done|]); pose proof (read_lock_not_missing s sub); congruence.
  destruct (st_pending (co_store s) !! ps_swap_id sub) as [first|] eqn:Hp.
  - destruct (Hc _ _ Hp) as (Hid & l1 & Hl1 & _). rewrite (handle_second now sub first s l l1) by done.
    intros H. apply settle_effect in H as (Hs & Hd & Hg & Hm & _). split; [|done].
    eapply coherent_grow; [done..|]. by apply coherent_matched.
  - rewrite (handle_first now sub s l) by done. intros [= <- <-].
    split; [by apply coherent_buffered|done].
Qed.

Lemma coherent_new chains id secs : coherent (with_min_timeout (coordinator_new store_new chains id) secs).
Proof. intros id' sub H. cbn in H. by rewrite lookup_empty in H. Qed.

(** Submissions handled one after another.  From a new coordinator, over
    chains that only record more, handling any submissions in any order keeps
    every waiting submission filed under its own swap beside the lock its
    chain shows for it; so matching never fails with [MissingLockData]. *)
Lemma sequential_coherent chains id secs s :
  rtc seq_step (with_min_timeout (coordinator_new store_new chains id) secs) s →
  coherent s ∧ ∀ now sub, (handle_submission now sub s).1 ≠ Err MissingLockData.
Proof.
  intros Hr. assert (coherent s) as Hc.
  { pose proof (coherent_new chains id secs) as H0. induction Hr as [|s0 s1 s2 Hst _ IH]; [done|].
    apply IH. destruct Hst as [now sub res s' H|cs Hg].
    - by destruct (handle_coherent _ _ _ _ _ H0 H).
    - by apply (coherent_grow s0). }
  split; [done|]. intros now sub. destruct (handle_submission now sub s) as [res s'] eqn:H.
  by destruct (handle_coherent _ _ _ _ _ Hc H).
Qed.

(** A submission sent twice.  The store takes a second submission of a
    swap for the counterparty's, whoever sent it, and its own error for
    duplicates is never raised: when a party repeats its submission before the
    other side's arrives, the call fails to recompute the swap identifier
    (unless the note swaps with itself) and the waiting submission is gone, so
    the counterparty's own submission is then only buffered. *)
Lemma repeated_submission_drops_swap now1 now2 sub s l :
  read_lock s sub = Ok l → st_pending (co_store s) !! ps_swap_id sub = None →
  in_time s now2 (lk_timeout l) → first_as_a sub sub = false →
  ∃ s1 s2,
    handle_submission now1 sub s = (Ok Pending, s1) ∧
    handle_submission now2 sub s1 = (Err SwapIdRecomputationFailed, s2) ∧
    st_pending (co_store s2) !! ps_swap_id sub = None ∧
    ∀ now3 sub' l', ps_swap_id sub' = ps_swap_id sub → read_lock s2 sub' = Ok l' →
      (handle_submission now3 sub' s2).1 = Ok Pending.
Proof.
  intros Hl Hp Ht Hf. exists (buffered s sub l), (matched (buffered s sub l) (ps_swap_id sub)).
  assert (verify_swap sub sub l l = Err SwapIdRecomputationFailed) as Hv.
  { rewrite verify_swap_roles, !ensure_bind by by apply bytes_eqb_eq.
    rewrite Hf. unfold first_as_a in Hf. by rewrite Hf. }
  assert (st_pending (co_store (matched (buffered s sub l) (ps_swap_id sub))) !! ps_swap_id sub
          = None) as Hn by apply lookup_delete_eq.
  split_and!; [by apply handle_first| |done|].
  - rewrite (handle_second now2 sub sub _ l l).
    + unfold settle. apply check_timeout_Ok in Ht.
      rewrite M_bind_get, M_bind_lift. cbn [co_min_timeout_secs matched buffered with_pending with_store].
      by rewrite Ht, M_bind_lift, Hv.
    + rewrite <-Hl. by apply read_lock_chains.
    + apply lookup_insert_eq.
    + apply lookup_insert_eq.
  - intros now3 sub' l' Hid Hl'. rewrite (handle_first now3 sub' _ l'); [done..|by rewrite Hid].
Qed.
End sequential.

(** ** Concurrent submissions *)
Section concurrent.
Context `{C : Crypto} {Ch : Type} {CP : ChainPort Ch} {CL : ChainLaws Ch}.
Implicit Types (s : SwapCoordinator Ch).

(** The submissions that arrived, their tasks and the coordinator they share. *)
Record Sys : Type := mk_sys {
  sy_arrived : list PartySubmission;
  sy_tasks : list Task;
  sy_co : SwapCoordinator Ch;
}.

Inductive sys_step (y : Sys) : Sys → Prop :=
| sys_arrive sub :
    sys_step y (mk_sys (sub :: sy_arrived y) (sy_tasks y ++ [Arrived sub]) (sy_co y))
| sys_run now i t t' s' :
    sy_tasks y !! i = Some t → task_step now t (sy_co y) = (t', s') →
    sys_step y (mk_sys (sy_arrived y) (<[i := t']> (sy_tasks y)) s')
| sys_grow cs :
    chains_grow (co_chains (sy_co y)) cs →
    sys_step y (mk_sys (sy_arrived y) (sy_tasks y) (with_chains (sy_co y) cs)).

(** Lock data some chain shows for a note. *)
Definition shown s (l : SwapLockData) : Prop := ∃ n, locked s n l.

(** A side of a swap: it arrived, and its commitment is locked on a chain. *)
Definition backed (arrived : list PartySubmission) s (sub : PartySubmission)
  (l : SwapLockData) : Prop :=
  sub ∈ arrived ∧
  ∃ n, commitment_hash n = commitment_hash (ps_note_details sub) ∧ locked s n l.

Definition justified (arrived : list PartySubmission) s (a : SwapAnnouncement) : Prop :=
  ∃ sa sb la lb, agrees sa sb la lb a ∧ backed arrived s sa la ∧ backed arrived s sb lb.

(** What a task knows between two awaits. *)
Definition task_ok (arrived : list PartySubmission) s (t : Task) : Prop :=
  match t with
  | Arrived sub => sub ∈ arrived
  | HasLock sub l | MustBuffer sub l => sub ∈ arrived ∧ locked s (ps_note_details sub) l
  | MustMatch sub first l =>
      sub ∈ arrived ∧ first ∈ arrived ∧ locked s (ps_note_details sub) l
  | MustSettle sub first l l1 =>
      sub ∈ arrived ∧ first ∈ arrived ∧ locked s (ps_note_details sub) l ∧ shown s l1
  | Finished (Ok (Verified a _)) => justified arrived s a
  | Finished _ => True
  end.

(** What the coordinator holds between awaits. *)
Definition held_ok (arrived : list PartySubmission) s : Prop :=
  (∀ id sub, st_pending (co_store s) !! id = Some sub → sub ∈ arrived) ∧
  (∀ id l, co_pending_lock_data s !! id = Some l → shown s l).

Definition sys_ok (y : Sys) : Prop :=
  held_ok (sy_arrived y) (sy_co y) ∧
  Forall (task_ok (sy_arrived y) (sy_co y)) (sy_tasks y).

Lemma shown_grow s s' l : chains_grow (co_chains s) (co_chains s') → shown s l → shown s' l.
Proof. intros Hg [n Hn]. exists n. by apply (locked_grow s). Qed.

Lemma justified_grow arr arr' s s' a :
  arr ⊆ arr' → chains_grow (co_chains s) (co_chains s') →
  justified arr s a → justified arr' s' a.
Proof.
  intros Hi Hg (sa & sb & la & lb & Hag & (Ha & na & Ea & La) & (Hb & nb & Eb & Lb)).
  exists sa, sb, la, lb. split_and!; [done|split; [by apply Hi|]..].
  - exists na. split; [done|by apply (locked_grow s)].
  - exists nb. split; [done|by apply (locked_grow s)].
Qed.

Lemma task_ok_grow arr arr' s s' t :
  arr ⊆ arr' → chains_grow (co_chains s) (co_chains s') → task_ok arr s t → task_ok arr' s' t.
Proof.
  intros Hi Hg. destruct t as [| | | | |[[|a r]| |]]; cbn; try done.
  - apply Hi.
  - intros [? ?]. split; [by apply Hi|by apply (locked_grow s)].
  - intros [? ?]. split; [by apply Hi|by apply (locked_grow s)].
  - intros (? & ? & ?). split_and!; [by apply Hi..|by apply (locked_grow s)].
  - intros (? & ? & ? & ?). split_and!; [by apply Hi..|by apply (locked_grow s)|].
    by apply (shown_grow s).
  - by apply justified_grow.
Qed.

(** A side whose lock verification accepted is backed by what was read. *)
Lemma shown_backed arr s sub l peer id timeout :
  sub ∈ arr → shown s l → opens_lock sub l id peer timeout → backed arr s sub l.
Proof.
  intros Ha (n & ch & Hc & Hg) [Ho _ _ _ _ _]. split; [done|]. exists n.
  split; [|by exists ch]. rewrite <-Ho. symmetry. by eapply lock_commitment.
Qed.

Lemma held_grow arr arr' s s' :
  arr ⊆ arr' → co_store s' = co_store s → co_pending_lock_data s' = co_pending_lock_data s →
  chains_grow (co_chains s) (co_chains s') → held_ok arr s → held_ok arr' s'.
Proof.
  intros Hi Hs Hp Hg [H1 H2]. split; intros id ? H.
  - rewrite Hs in H. by eapply Hi, H1.
  - rewrite Hp in H. by eapply shown_grow, H2.
Qed.

Lemma verified_justified arr s sub first l l1 a :
  sub ∈ arr → first ∈ arr → shown s l → shown s l1 →
  verify_swap first sub l1 l = Ok a → justified arr s a.
Proof.
  intros Hs Hf Hl Hl1 [Hag|[_ Hag]]%verify_swap_cases.
  - exists first, sub, l1, l. split; [done|]. destruct Hag as [_ _ _ Ha Hb _].
    split; by eapply shown_backed.
  - exists sub, first, l, l1. split; [done|]. destruct Hag as [_ _ _ Ha Hb _].
    split; by eapply shown_backed.
Qed.

(** A submission taken by the store. *)
Lemma store_submit_held arr s sub w st :
  sub ∈ arr → held_ok arr s → store_submit (co_store s) sub = Ok (w, st) →
  held_ok arr (with_store s st) ∧ ∀ first, w = Some first → first ∈ arr.
Proof.
  intros Ha [H1 H2] H. unfold store_submit in H.
  destruct (st_pending (co_store s) !! ps_swap_id sub) as [f|] eqn:E; injection H as <- <-.
  - split; [|intros first [= <-]; by eapply H1]. split; [|done]. intros id sub' H. co_simpl in H.
    apply lookup_delete_Some in H as [_ H]. by eapply H1.
  - split; [|done]. split; [|done]. intros id sub' H. co_simpl in H.
    rewrite insert_delete_eq in H. apply lookup_insert_Some in H as [[_ <-]|[_ H]]; [done|].
    by eapply H1.
Qed.

Lemma task_step_ok arr s t now t' s' :
  held_ok arr s → task_ok arr s t → task_step now t s = (t', s') →
  chains_grow (co_chains s) (co_chains s') ∧ held_ok arr s' ∧ task_ok arr s' t'.
Proof.
  intros Hh Ht. destruct t as [sub|sub l|sub l|sub first l|sub first l l1|res]; cbn [task_step].
  - destruct (read_lock s sub) as [l| |] eqn:E; intros [= <- <-]; (split; [done|split; [done|]]);
      try done. split; [done|by apply read_lock_locked].
  - destruct Ht as [Hs Hl]. destruct (store_submit (co_store s) sub) as [[w st]| |] eqn:E;
      [|intros [= <- <-]; (split; [done|split; done])..].
    apply (store_submit_held arr) in E as [Hh' Hw]; [|done..].
    destruct w as [first|]; intros [= <- <-]; (split; [done|split; [done|]]); [|done].
    split_and!; [done|by apply Hw|done].
  - destruct Ht as [Hs Hl], Hh as [H1 H2]. intros [= <- <-]. split; [done|]. split; [|done].
    split; [done|]. intros id l' H. co_simpl in H.
    apply lookup_insert_Some in H as [[_ <-]|[_ H]]; [by exists (ps_note_details sub)|by eapply H2].
  - destruct Ht as (Hs & Hf & Hl), Hh as [H1 H2].
    destruct (co_pending_lock_data s !! ps_swap_id sub) as [l1|] eqn:E; cbn [ok_or proceed];
      intros [= <- <-]; (split; [done|]); [|done].
    split; [|split_and!; [done..|by eapply H2]]. split; [done|]. intros id l' H. co_simpl in H.
    apply lookup_delete_Some in H as [_ H]. by eapply H2.
  - destruct Ht as (Hs & Hf & Hl & Hl1).
    destruct (settle now sub first l l1 s) as [res s1] eqn:E. intros [= <- <-].
    apply settle_effect in E as (Es & Ep & Hg & _ & Hv). split; [done|].
    split; [by eapply held_grow|]. destruct res as [[|a r]| |]; try done. cbn [task_ok].
    eapply justified_grow, verified_justified; [done|done|exact Hs|exact Hf| |exact Hl1|by eapply Hv].
    by exists (ps_note_details sub).
  - intros [= <- <-]. done.
Qed.

Lemma sys_step_ok y y' : sys_ok y → sys_step y y' → sys_ok y'.
Proof.
  intros [Hh Ht] [sub|now i t t' s' Hi Hst|cs Hg]; unfold sys_ok; cbn [sy_arrived sy_tasks sy_co].
  - assert (sy_arrived y ⊆ sub :: sy_arrived y) as Hsub by set_solver. split.
    + by eapply held_grow.
    + apply Forall_app. split; [|repeat constructor].
      eapply Forall_impl; [exact Ht|]. intros t Hk. by eapply task_ok_grow.
  - assert (task_ok (sy_arrived y) (sy_co y) t) as Hk by by eapply Forall_lookup_1.
    destruct (task_step_ok _ _ _ _ _ _ Hh Hk Hst) as (Hg & Hh' & Hk'). split; [done|].
    apply Forall_insert; [|done]. eapply Forall_impl; [exact Ht|].
    intros t0 H0. by eapply task_ok_grow.
  - split; [by apply (held_grow (sy_arrived y) _ (sy_co y))|]. eapply Forall_impl; [exact Ht|].
    intros t0 H0. by apply (task_ok_grow (sy_arrived y) _ (sy_co y)).
Qed.

Lemma rtc_preserve {A} (R : relation A) (P : A → Prop) x y :
  (∀ a b, P a → R a b → P b) → rtc R x y → P x → P y.
Proof. intros Hs Hr. induction Hr; eauto. Qed.

(** C23: no announcement without two locked sides.  However many submissions
    arrive, however their handling interleaves at the awaits and whatever the
    chains record meanwhile, a task that ends with [Verified] announces a swap
    that two submissions which really arrived agree on, in the roles A and B:
    the identifier recomputed from both notes, all bindings of both locks
    opened, one timeout; and each lock is what a chain shows for a note of the
    submitted commitment. *)
Theorem announcements_sound chains id secs y i a r :
  rtc sys_step (mk_sys [] [] (with_min_timeout (coordinator_new store_new chains id) secs)) y →
  sy_tasks y !! i = Some (Finished (Ok (Verified a r))) →
  ∃ sa sb la lb, agrees sa sb la lb a ∧
    backed (sy_arrived y) (sy_co y) sa la ∧ backed (sy_arrived y) (sy_co y) sb lb.
Proof.
  intros Hr Hi. assert (sys_ok y) as [_ Ht].
  { refine (rtc_preserve _ _ _ _ sys_step_ok Hr _). split; [|constructor].
    split; intros ? ? H; cbn in H; by rewrite lookup_empty in H. }
  by apply (Forall_lookup_1 _ _ _ _ Ht) in Hi.
Qed.

(** A task run alone, and that this is the method. *)
Fixpoint task_run (n : nat) (now : Z) (t : Task) s : Task * SwapCoordinator Ch :=
  match n with
  | O => (t, s)
  | S n' => let '(t', s') := task_step now t s in task_run n' now t' s'
  end.

Lemma task_alone now sub s :
  task_run 5 now (Arrived sub) s
  = let '(res, s') := handle_submission now sub s in (Finished res, s').
Proof.
  unfold handle_submission. rewrite M_bind_get, M_bind_lift. cbn [task_run task_step].
  destruct (read_lock s sub) as [l| |]; [|done..]. cbn [proceed task_run task_step].
  rewrite M_bind_lift.
  destruct (store_submit (co_store s) sub) as [[[first|] st]| |]; [| |done..].
  - cbn [map_err proceed fst snd task_run task_step]. rewrite M_bind_put, M_bind_get, M_bind_lift.
    cbn [co_pending_lock_data with_store].
    destruct (co_pending_lock_data s !! ps_swap_id sub) as [l1|]; [|done].
    cbn [ok_or proceed task_run task_step]. rewrite M_bind_put.
    by destruct (settle now sub first l l1 _).
  - done.
Qed.

(** Submissions handled one after another are runs of the system. *)
Lemma sys_run_task y i t n now :
  sy_tasks y !! i = Some t →
  rtc sys_step y (mk_sys (sy_arrived y) (<[i := (task_run n now t (sy_co y)).1]> (sy_tasks y))
                    (task_run n now t (sy_co y)).2).
Proof.
  revert y t. induction n as [|n IH]; intros [arr ts s] t Hi; cbn [sy_arrived sy_tasks sy_co] in *.
  - cbn [task_run fst snd]. rewrite list_insert_id by done. apply rtc_refl.
  - cbn [task_run]. destruct (task_step now t s) as [t' s'] eqn:E.
    eapply rtc_l; [by eapply (sys_run _ now i)|]. cbn [sy_arrived sy_tasks sy_co].
    specialize (IH (mk_sys arr (<[i := t']> ts) s') t'). cbn [sy_arrived sy_tasks sy_co] in IH.
    rewrite list_insert_insert_eq in IH. apply IH. apply list_lookup_insert_eq.
    by eapply lookup_lt_Some.
Qed.

Lemma sys_handle arr ts s now sub res s' :
  handle_submission now sub s = (res, s') →
  rtc sys_step (mk_sys arr ts s) (mk_sys (sub :: arr) (ts ++ [Finished res]) s').
Proof.
  intros H. eapply rtc_l; [apply (sys_arrive _ sub)|]. cbn [sy_arrived sy_tasks sy_co].
  pose proof (sys_run_task (mk_sys (sub :: arr) (ts ++ [Arrived sub]) s) (length ts) (Arrived sub)
    5 now) as Hr. cbn [sy_arrived sy_tasks sy_co] in Hr. rewrite task_alone, H in Hr.
  cbn [fst snd] in Hr. rewrite insert_app_r_alt, Nat.sub_diag in Hr by done.
  apply Hr. by rewrite lookup_app_r, Nat.sub_diag.
Qed.

(** Runs task [i] one step, with the fact its step depends on. *)
Ltac step_task i H :=
  eapply rtc_l;
  [eapply (sys_run _ 0 i); [reflexivity|];
   cbn [task_step sy_arrived sy_tasks sy_co co_store co_pending_lock_data with_store
     with_pending fst snd];
   first [reflexivity | rewrite H; reflexivity]|].

(** The interleaving that loses a swap.  A task run alone is the method;
    but the store and the lock data are behind two locks, so the second
    submission of a swap can be matched after the first is stored and before
    its lock data is: then the second fails with [MissingLockData], the first
    is told [Pending], the store no longer holds either side, and the lock
    data of the first stays behind. *)
Lemma interleaving_loses_swap now sub1 sub2 s l1 l2 :
  ps_swap_id sub1 = ps_swap_id sub2 →
  read_lock s sub1 = Ok l1 → read_lock s sub2 = Ok l2 →
  st_pending (co_store s) !! ps_swap_id sub1 = None →
  co_pending_lock_data s !! ps_swap_id sub1 = None →
  (∀ sub s, task_run 5 now (Arrived sub) s
     = let '(res, s') := handle_submission now sub s in (Finished res, s')) ∧
  ∃ y, rtc sys_step (mk_sys [] [] s) y ∧
    sy_tasks y = [Finished (Ok Pending); Finished (Err MissingLockData)] ∧
    st_pending (co_store (sy_co y)) !! ps_swap_id sub1 = None ∧
    co_pending_lock_data (sy_co y) !! ps_swap_id sub1 = Some l1.
Proof.
  intros Hid Hl1 Hl2 Hp Hd. split; [apply task_alone|].
  set (st1 := mk_store (<[ps_swap_id sub1 := sub1]> (st_pending (co_store s)))).
  set (st2 := mk_store (delete (ps_swap_id sub1) (st_pending st1))).
  assert (store_submit (co_store s) sub1 = Ok (None, st1)) as E1.
  { unfold store_submit. by rewrite Hp, insert_delete_eq. }
  assert (store_submit st1 sub2 = Ok (Some sub1, st2)) as E2.
  { assert (st_pending st1 !! ps_swap_id sub2 = Some sub1) as Hs1
      by (rewrite <-Hid; apply lookup_insert_eq).
    unfold store_submit. rewrite Hs1. unfold st2. by rewrite Hid. }
  eexists. split.
  { eapply rtc_l; [apply (sys_arrive _ sub1)|]. eapply rtc_l; [apply (sys_arrive _ sub2)|].
    step_task 0%nat Hl1. step_task 1%nat Hl2. step_task 0%nat E1. step_task 1%nat E2.
    rewrite Hid in Hd. step_task 1%nat Hd. step_task 0%nat Hid. apply rtc_refl. }
  split; [done|]. split; [apply lookup_delete_eq|apply lookup_insert_eq].
Qed.
End concurrent.
