(* ===== verification/SwapSample.v ===== *)
(** * A swap, start to end

    A concrete swap on the toy hash functions, the additive group of the
    integers for the curve and the mock chain; the theorems on the TEE swap are applied to it. *)

From Stdlib Require Import ZArith Lia Bool.
From stdpp Require Import base tactics list gmap strings numbers relations.
From S2P Require Import Prelude Field Types Poseidon SwapCrypto SwapParty SwapCoordinator SwapOk SwapRun.

Import Toy.

(** ** The integers as a curve *)
#[export] Instance toy_curve : Curve Z Z := {|
  generator := 1;
  point_mul := Z.mul;
  point_add := Z.add;
  scalar_add := Z.add;
  point_x := fr_of_Z;
  point_y := λ p, fr_of_Z (p + 1);
  scalar_from_be_bytes := be_to_Z;
  scalar_to_bytes_le := λ s, rev (be_of_Z 32 s);
|}.

#[export] Instance toy_curve_laws : CurveLaws Z Z.
Proof.
  constructor; [intros a b; cbn [point_mul generator toy_curve]; lia|
    intros a b; cbn [point_mul point_add scalar_add generator toy_curve]; lia|].
  intros s. cbn [scalar_to_bytes_le toy_curve]. by rewrite List.length_rev, length_be_of_Z.
Qed.

(** ** The mock chain, refusing lock data filed under another commitment *)
Record ToyChain : Type := mk_toy_chain { tc_mock : MockChainPort }.

#[export] Instance toy_chain : ChainPort ToyChain := {|
  get_swap_lock_data c k :=
    l ← get_swap_lock_data (tc_mock c) k;
    ensure (bytes_eqb (lk_commitment l) k) (CommitmentNotFound k);;
    Ok l;
  announce_swap c a :=
    '(r, c') ← announce_swap (tc_mock c) a;
    Ok (r, mk_toy_chain c');
  get_announcement c := get_announcement (tc_mock c);
|}.

#[export] Instance toy_chain_laws : ChainLaws ToyChain.
Proof.
  constructor.
  - intros c k l H. cbn [get_swap_lock_data toy_chain] in H. inv_ok H. by apply bytes_eqb_eq.
  - intros c a r c' k l [= <- <-]. done.
  - intros c a r c' [= <- <-]. cbn. by rewrite lookup_insert_eq.
Qed.

(** ** The swap *)
Definition swap_word (z : Z) : list byte := be_of_Z 32 z.
Definition input_note (chain value asset owner salt : Z) : Note :=
  mk_note (swap_word chain) value (swap_word asset) (swap_word owner) (zeros 32) (zeros 32)
    (swap_word salt).
Definition no_proof : CommitmentMerkleProof := mk_commitment_proof [] [] 0 0.

Definition sample_swap : Swap (Scalar := Z) :=
  mk_swap 3 5 7 11 (swap_word 12345) (swap_word 54321)
    (input_note 1 100 61 3 8) (input_note 2 250 62 5 9) no_proof no_proof
    (swap_word 1) (swap_word 2) (swap_word 5000) (swap_word 42).

Definition lock_a : LockOutput Z Z := swap_lock_a sample_swap.
Definition lock_b : LockOutput Z Z := swap_lock_b sample_swap.
Definition sub_a : PartySubmission := lo_submission lock_a.
Definition sub_b : PartySubmission := lo_submission lock_b.

Definition chain_with (l : LockOutput Z Z) : ToyChain :=
  mk_toy_chain (insert_lock_data mock_chain_new (tw_new_commitment (lo_witness l))
                  (lock_data_of (lo_witness l))).

Definition swap_chains : gmap (list byte) ToyChain :=
  <[swap_word 1 := chain_with lock_a]> {[ swap_word 2 := chain_with lock_b ]}.
Definition co0 : SwapCoordinator ToyChain :=
  with_min_timeout (coordinator_new store_new swap_chains (swap_word 1)) 60.
Definition co1 : SwapCoordinator ToyChain := (handle_submission 0 sub_a co0).2.
Definition co2 : SwapCoordinator ToyChain := (handle_submission 10 sub_b co1).2.

Lemma recorded_a : lock_recorded co0 lock_a.
Proof. vm_compute. reflexivity. Qed.
Lemma recorded_b : lock_recorded co0 lock_b.
Proof. vm_compute. reflexivity. Qed.
Lemma swap_same_id : ps_swap_id sub_a = ps_swap_id sub_b.
Proof. reflexivity. Qed.
Lemma first_pending : (handle_submission 0 sub_a co0).1 = Ok Pending.
Proof. vm_compute. reflexivity. Qed.
Definition sample_receipt : TxReceipt := mk_receipt (tm_swap_id (swap_terms sample_swap)) true.
Lemma second_verified :
  (handle_submission 10 sub_b co1).1 = Ok (Verified (swap_announcement sample_swap) sample_receipt).
Proof. vm_compute. reflexivity. Qed.

(** ** The theorems at work *)
#[local] Opaque co0 co1 co2 sub_a sub_b lock_a lock_b.

Lemma swap_completes_witness :
  ∃ s1 s2,
    handle_submission 0 sub_b co0 = (Ok Pending, s1) ∧
    handle_submission 10 sub_a s1
    = (Ok (Verified (swap_announcement sample_swap) sample_receipt), s2) ∧
    claimed_note (swap_announcement sample_swap) (swap_key_b sample_swap)
      (ek_r_pub (lo_ephemeral_keypair lock_a)) (swap_terms sample_swap) RoleB
    = lo_locked_note lock_a.
Proof.
  destruct (swap_completes sample_swap false co0 0 10 (chain_with lock_a) sample_receipt
    (mk_toy_chain (mk_mock_chain (mc_lock_data (tc_mock (chain_with lock_a)))
       {[ tm_swap_id (swap_terms sample_swap) := swap_announcement sample_swap ]})))
    as (s1 & s2 & H1 & H2 & _ & _ & _ & _ & H3 & _).
  - reflexivity.
  - reflexivity.
  - exact recorded_a.
  - exact recorded_b.
  - vm_compute. reflexivity.
  - right. vm_compute. discriminate.
  - right. vm_compute. reflexivity.
  - vm_compute. reflexivity.
  - vm_compute. reflexivity.
  - exists s1, s2. split; [exact H1|]. split; [exact H2|exact H3].
Defined.

Definition swap_sys : Sys (Ch := ToyChain) :=
  mk_sys [sub_b; sub_a]
    [Finished (Ok Pending);
     Finished (Ok (Verified (swap_announcement sample_swap) sample_receipt))] co2.

Lemma swap_sys_reached : rtc sys_step (mk_sys [] [] co0) swap_sys.
Proof.
  etrans.
  - apply (sys_handle [] [] co0 0 sub_a (Ok Pending) co1).
    rewrite <-first_pending. apply surjective_pairing.
  - apply (sys_handle [sub_a] [Finished (Ok Pending)] co1 10 sub_b
      (Ok (Verified (swap_announcement sample_swap) sample_receipt)) co2).
    rewrite <-second_verified. apply surjective_pairing.
Qed.

Lemma announcements_sound_witness :
  ∃ sa sb la lb, agrees sa sb la lb (swap_announcement sample_swap) ∧
    backed [sub_b; sub_a] co2 sa la ∧ backed [sub_b; sub_a] co2 sb lb.
Proof.
  exact (announcements_sound swap_chains (swap_word 1) 60 swap_sys 1
    (swap_announcement sample_swap) sample_receipt swap_sys_reached eq_refl).
Defined.

