(* ===== verification/RailsHash.v ===== *)
(** * Disbursement rails: SHA-256 and Keccak-256

    The two hash functions the card and the relay take from crates and the
    claim circuit assembles from the compression function and the permutation
    of its language's library.  Here they are written out (FIPS 180-4, and the
    Keccak team's specification with the [0x01] padding), so that the circuit's
    fixed-length versions can be compared with them. *)

From Stdlib Require Import ZArith Lia Bool.
From stdpp Require Import base tactics list numbers.
From S2P Require Import Prelude Field Poseidon.

(** Reading an array of integers or of bytes. *)
Definition zat (l : list Z) (i : nat) : Z := default 0 (l !! i).
Definition bat (l : list byte) (i : nat) : Z := default 0 (byte_Z <$> l !! i).

(** ** SHA-256 *)
Module Sha256.
Definition mask : Z := 2 ^ 32 - 1.
Definition add (a b : Z) : Z := Z.land (a + b) mask.
Definition rotr (n x : Z) : Z := Z.lor (Z.shiftr x n) (Z.land (Z.shiftl x (32 - n)) mask).
Definition xor3 (a b c : Z) : Z := Z.lxor (Z.lxor a b) c.

(** The first 32 bits of the fractional parts of the cube roots of the first
    64 primes, and of the square roots of the first 8. *)
Definition K : list Z := [
  1116352408; 1899447441; 3049323471; 3921009573; 961987163; 1508970993;
  2453635748; 2870763221; 3624381080; 310598401; 607225278; 1426881987;
  1925078388; 2162078206; 2614888103; 3248222580; 3835390401; 4022224774;
  264347078; 604807628; 770255983; 1249150122; 1555081692; 1996064986;
  2554220882; 2821834349; 2952996808; 3210313671; 3336571891; 3584528711;
  113926993; 338241895; 666307205; 773529912; 1294757372; 1396182291;
  1695183700; 1986661051; 2177026350; 2456956037; 2730485921; 2820302411;
  3259730800; 3345764771; 3516065817; 3600352804; 4094571909; 275423344;
  430227734; 506948616; 659060556; 883997877; 958139571; 1322822218;
  1537002063; 1747873779; 1955562222; 2024104815; 2227730452; 2361852424;
  2428436474; 2756734187; 3204031479; 3329325298].
Definition H0 : list Z :=
  [1779033703; 3144134277; 1013904242; 2773480762; 1359893119; 2600822924; 528734635; 1541459225].

(** One round with constant [k]; [w] holds the next sixteen words of the
    schedule. *)
Definition round (acc : list Z * list Z) (k : Z) : list Z * list Z :=
  let '(w, s) := acc in
  let w0 := zat w 0 in
  let w1 := zat w 1 in
  let w14 := zat w 14 in
  let a := zat s 0 in
  let b := zat s 1 in
  let c := zat s 2 in
  let e := zat s 4 in
  let f := zat s 5 in
  let g := zat s 6 in
  let big1 := xor3 (rotr 6 e) (rotr 11 e) (rotr 25 e) in
  let ch := Z.lxor (Z.land e f) (Z.ldiff g e) in
  let t1 := add (add (add (zat s 7) big1) (add ch k)) w0 in
  let big0 := xor3 (rotr 2 a) (rotr 13 a) (rotr 22 a) in
  let maj := xor3 (Z.land a b) (Z.land a c) (Z.land b c) in
  let t2 := add big0 maj in
  let small0 := xor3 (rotr 7 w1) (rotr 18 w1) (Z.shiftr w1 3) in
  let small1 := xor3 (rotr 17 w14) (rotr 19 w14) (Z.shiftr w14 10) in
  let next := add (add small1 (zat w 9)) (add small0 w0) in
  (drop 1 w ++ [next], [add t1 t2; a; b; c; add (zat s 3) t1; e; f; g]).

(** The compression of a block of sixteen words into a state of eight. *)
Definition compression (block state : list Z) : list Z :=
  zip_with add state (foldl round (block, state) K).2.

(** The [i]-th word of the [j]-th block. *)
Definition word (padded : list byte) (j i : nat) : Z :=
  be_to_Z (take 4 (drop (64 * j + 4 * i) padded)).
Definition block (padded : list byte) (j : nat) : list Z := map (word padded j) (seq 0 16).

Definition sha_pad (m : list byte) : list byte :=
  m ++ [Byte.x80] ++ zeros ((119 - length m `mod` 64) `mod` 64)
    ++ be_of_Z 8 (8 * Z.of_nat (length m)).

Definition hash (m : list byte) : list byte :=
  let padded := sha_pad m in
  concat (map (be_of_Z 4)
    (foldl (λ s j, compression (block padded j) s) H0 (seq 0 (length padded / 64)))).
End Sha256.

(** ** Keccak-256 *)
Module Keccak.
Definition mask : Z := 2 ^ 64 - 1.
Definition rotl (n x : Z) : Z :=
  Z.lor (Z.land (Z.shiftl x n) mask) (Z.shiftr x (64 - n)).

Definition RC : list Z := [
  1; 32898; 9223372036854808714; 9223372039002292224;
  32907; 2147483649; 9223372039002292353; 9223372036854808585;
  138; 136; 2147516425; 2147483658;
  2147516555; 9223372036854775947; 9223372036854808713; 9223372036854808579;
  9223372036854808578; 9223372036854775936; 32778; 9223372039002259466;
  9223372039002292353; 9223372036854808704; 2147483649; 9223372039002292232].

(** The rotation of lane [(x, y)], at [x + 5 y]. *)
Definition offsets : list Z := [
  0; 1; 62; 28; 27;
  36; 44; 6; 55; 20;
  3; 10; 43; 25; 39;
  41; 45; 15; 21; 8;
  18; 2; 61; 56; 14].

Definition pos (x y : nat) : nat := ((x `mod` 5) + 5 * (y `mod` 5))%nat.
Definition lane (s : list Z) (x y : nat) : Z := zat s (pos x y).
Definition lanes (f : nat → nat → Z) : list Z := map (λ i, f (i `mod` 5)%nat (i / 5)%nat) (seq 0 25).

Definition theta (s : list Z) : list Z :=
  let c := map (λ x, foldl (λ acc y, Z.lxor acc (lane s x y)) 0 (seq 0 5)) (seq 0 5) in
  let d := map (λ x, Z.lxor (zat c ((x + 4) `mod` 5)) (rotl 1 (zat c ((x + 1) `mod` 5)))) (seq 0 5) in
  lanes (λ x y, Z.lxor (lane s x y) (zat d x)).
Definition rho_pi (s : list Z) : list Z :=
  lanes (λ x y, rotl (lane offsets (x + 3 * y) x) (lane s (x + 3 * y) x)).
Definition chi (s : list Z) : list Z :=
  lanes (λ x y, Z.lxor (lane s x y) (Z.ldiff (lane s (x + 2) y) (lane s (x + 1) y))).
Definition iota (rc : Z) (s : list Z) : list Z := Z.lxor (zat s 0) rc :: drop 1 s.

Definition f1600 (s : list Z) : list Z := foldl (λ s rc, iota rc (chi (rho_pi (theta s)))) s RC.

(** Eight bytes, least significant first. *)
Definition le_to_Z (l : list byte) : Z := foldr (λ b acc, byte_Z b + 256 * acc) 0 l.
Fixpoint le_of_Z (n : nat) (z : Z) : list byte :=
  match n with O => [] | S n' => byte_of_Z z :: le_of_Z n' (z / 256) end.

Definition rate : nat := 136.
Definition keccak_pad (m : list byte) : list byte :=
  let q := (rate - length m `mod` rate)%nat in
  m ++ (if (q =? 1)%nat then [Byte.x81] else Byte.x01 :: zeros (q - 2) ++ [Byte.x80]).

(** Absorbing the [j]-th block: its lanes, and zeros in the capacity. *)
Definition keccak_absorb (padded : list byte) (s : list Z) (j : nat) : list Z :=
  f1600 (map (λ i, if (i <? rate / 8)%nat
                   then Z.lxor (zat s i) (le_to_Z (take 8 (drop (rate * j + 8 * i) padded)))
                   else zat s i) (seq 0 25)).

Definition hash (m : list byte) : list byte :=
  let padded := keccak_pad m in
  let s := foldl (keccak_absorb padded) (replicate 25 0) (seq 0 (length padded / rate)) in
  concat (map (λ i, le_of_Z 8 (zat s i)) (seq 0 4)).
End Keccak.

(** The crates compute these functions (their inputs are far below the length
    at which the bit count of SHA-256 wraps). *)
Class HashLaws (C : Crypto) : Prop := {
  sha256_is m : Z.of_nat (length m) < 2 ^ 61 → sha256 m = Sha256.hash m;
  keccak256_is m : keccak256 m = Keccak.hash m;
}.

(** ** Lengths *)
Lemma length_sha_round acc ks :
  length acc.2 = 8%nat → length (foldl Sha256.round acc ks).2 = 8%nat.
Proof.
  revert acc. induction ks as [|k ks IH]; intros [w s] H; [done|]. cbn [foldl]. by apply IH.
Qed.

Lemma length_compression block state :
  length state = 8%nat → length (Sha256.compression block state) = 8%nat.
Proof.
  intros H. unfold Sha256.compression. by rewrite length_zip_with, length_sha_round, H.
Qed.

Lemma length_concat_words {A} (f : A → list byte) n l :
  (∀ z, length (f z) = n) → length (concat (map f l)) = (n * length l)%nat.
Proof. intros Hf. induction l as [|z l IH]; cbn; [lia|]. rewrite length_app, Hf, IH. lia. Qed.

Lemma length_sha_hash m : length (Sha256.hash m) = 32%nat.
Proof.
  unfold Sha256.hash. rewrite (length_concat_words _ 4) by apply length_be_of_Z.
  assert (∀ l s, length s = 8%nat →
    length (foldl (λ s j, Sha256.compression (Sha256.block (Sha256.sha_pad m) j) s) s l) = 8%nat) as ->;
    [|done|done].
  induction l as [|j l IH]; intros s Hs; [done|]. cbn [foldl]. by apply IH, length_compression.
Qed.

Lemma length_keccak_hash m : length (Keccak.hash m) = 32%nat.
Proof. unfold Keccak.hash. by rewrite (length_concat_words _ 8). Qed.
