(* ===== verification/RailsTypes.v ===== *)
(** * Disbursement rails: data and hashes

    Model of [lib.rs], [error.rs], [types.rs] and [poseidon.rs] of
    [src/pocs/private-payment/resilient-disbursement-rails/src].  Fixed arrays
    are lists of bytes; the lengths the Rust types enforce are the predicates
    [..._typed]. *)

From Stdlib Require Import ZArith Lia Bool.
From stdpp Require Import base tactics list gmap strings numbers.
From S2P Require Import Prelude Field Types Poseidon.

Abbreviation Bytes20 := (list byte) (only parsing).

(** ** Constants *)
Definition RDR_DOMAIN_VOUCHER : list byte := ascii_bytes "RDR/voucher/v1".
Definition RDR_DOMAIN_HEADER : list byte := ascii_bytes "RDR/header/v1".
Definition RDR_DOMAIN_STEALTH : list byte := ascii_bytes "RDR/stealth/v1".
Definition RDR_DOMAIN_ROSTER : list byte := ascii_bytes "RDR/roster/v1".
Definition LEAF_DOMAIN_TAG : Z := 1.
Definition COMMITMENT_DOMAIN_TAG : Z := 2.
Definition NULL_DOMAIN_TAG : Z := 3.
Definition DERIVED_PUBKEY_DOMAIN_TAG : Z := 4.
Definition VOUCHER_PREIMAGE_LEN : nat := 308.

(** ** Errors *)
Inductive RailsProofError : Type :=
| Generation (m : string)
| WitnessSerialization (m : string).

Inductive PoolError : Type := PoolRpc (m : string).

Inductive CardError : Type :=
| AuthTokenMismatch
| BadApdu
| PreHashedHMsgRefused
| KeyNotGenerated
| CtxHeaderMismatch
| SignFailure (m : string).

(** ** Types *)
Record SecpPubkey : Type := mk_pubkey {
  pub_x : Bytes32;
  pub_y : Bytes32;
}.

Record EcdsaSignature : Type := mk_ecdsa {
  sig_r : Bytes32;
  sig_s : Bytes32;
}.

#[export] Instance SecpPubkey_eq_dec : EqDecision SecpPubkey.
Proof. solve_decision. Defined.

Record RoundHeader : Type := mk_header {
  rh_round_id : Bytes32;
  rh_cohort_version : Z;
  rh_cohort_root : Bytes32;
  rh_per_recipient_amount : Bytes32;
  rh_cohort_size : Z;
  rh_token : Bytes20;
  rh_close_time : Z;
  rh_claim_contract_address : Bytes20;
  rh_chain_id : Bytes32;
}.

Record SignedHeader : Type := mk_signed_header {
  sh_header : RoundHeader;
  sh_signature : list byte;
}.

Record VoucherContext : Type := mk_ctx {
  vc_round_id : Bytes32;
  vc_cohort_root : Bytes32;
  vc_claim_contract : Bytes20;
  vc_per_recipient_amount : Bytes32;
  vc_chain_id : Bytes32;
}.

Record SignedVoucher : Type := mk_voucher {
  sv_m : SecpPubkey;
  sv_derived_pubkey : SecpPubkey;
  sv_signature : EcdsaSignature;
  sv_context : VoucherContext;
  sv_claim_nullifier : Bytes32;
  sv_destination : Bytes20;
}.

Record EncryptedVoucher : Type := mk_envelope {
  ev_envelope : list byte;
  ev_relay_id : Bytes32;
}.

(** [CohortMerklePath] and [PoolMerklePath] have the same fields. *)
Record RailsMerklePath : Type := mk_rails_path {
  mp_siblings : list Bytes32;
  mp_indices : list byte;
}.

(** Four limbs of a public key, [x_hi], [x_lo], [y_hi], [y_lo]. *)
Record Limbs : Type := mk_limbs {
  lb_x_hi : Fr;
  lb_x_lo : Fr;
  lb_y_hi : Fr;
  lb_y_lo : Fr;
}.

Record ClaimWitness : Type := mk_claim_witness {
  cw_round_id_hi : Fr;
  cw_round_id_lo : Fr;
  cw_cohort_root : Fr;
  cw_chain_id_hi : Fr;
  cw_chain_id_lo : Fr;
  cw_destination : Fr;
  cw_amount : Fr;
  cw_nullifier : Fr;
  cw_claim_contract_address : Fr;
  cw_relay_submitter : Fr;
  cw_derived_pubkey : Limbs;
  cw_m : Limbs;
  cw_signature_r : Bytes32;
  cw_signature_s : Bytes32;
  cw_merkle_path : RailsMerklePath;
}.

Record PoolWithdrawWitness : Type := mk_pool_witness {
  pw_pool_root : Fr;
  pw_claim_nullifier : Fr;
  pw_token : Fr;
  pw_amount : Fr;
  pw_recipient : Fr;
  pw_m : Limbs;
  pw_derived_pubkey : Limbs;
  pw_round_id_hi : Fr;
  pw_round_id_lo : Fr;
  pw_chain_id_hi : Fr;
  pw_chain_id_lo : Fr;
  pw_claim_contract : Fr;
  pw_merkle_path : RailsMerklePath;
}.

(** ** The lengths of the arrays *)
Definition pubkey_typed (p : SecpPubkey) : Prop :=
  length (pub_x p) = 32%nat ∧ length (pub_y p) = 32%nat.

Record header_typed (h : RoundHeader) : Prop := {
  ht_round_id : length (rh_round_id h) = 32%nat;
  ht_cohort_version : 0 ≤ rh_cohort_version h < 2 ^ 64;
  ht_cohort_root : length (rh_cohort_root h) = 32%nat;
  ht_amount : length (rh_per_recipient_amount h) = 32%nat;
  ht_cohort_size : 0 ≤ rh_cohort_size h < 2 ^ 64;
  ht_token : length (rh_token h) = 20%nat;
  ht_close_time : 0 ≤ rh_close_time h < 2 ^ 64;
  ht_claim_contract : length (rh_claim_contract_address h) = 20%nat;
  ht_chain_id : length (rh_chain_id h) = 32%nat;
}.

(** ** Hashes *)

(** [poseidon.rs] reads at most 32 bytes. *)
Definition rails_fr_from_be_bytes (bytes : list byte) : Fr := fr_from_be_bytes (take 32 bytes).

(** The field element of the high and of the low half of a word. *)
Definition fr_hi (w : Bytes32) : Fr := rails_fr_from_be_bytes (take 16 w).
Definition fr_lo (w : Bytes32) : Fr := rails_fr_from_be_bytes (take 16 (drop 16 w)).
Definition limbs_of (p : SecpPubkey) : Limbs :=
  mk_limbs (fr_hi (pub_x p)) (fr_lo (pub_x p)) (fr_hi (pub_y p)) (fr_lo (pub_y p)).

(** [padded[12..].copy_from_slice(addr)]. *)
Definition pad_address (addr : Bytes20) : Bytes32 := splice (zeros 32) 12 addr.

Section hashes.
Context `{C : Crypto}.

Definition hash_m_packed (m_x_hi m_x_lo m_y_hi m_y_lo : Fr) : Fr :=
  poseidon_circom [fr_of_Z LEAF_DOMAIN_TAG; m_x_hi; m_x_lo; m_y_hi; m_y_lo].
Definition hash_derived_pubkey_packed (d_x_hi d_x_lo d_y_hi d_y_lo : Fr) : Fr :=
  poseidon_circom [fr_of_Z DERIVED_PUBKEY_DOMAIN_TAG; d_x_hi; d_x_lo; d_y_hi; d_y_lo].
Definition hash_pool_commitment (token amount m_packed round_id_packed : Fr) : Fr :=
  poseidon_circom [fr_of_Z COMMITMENT_DOMAIN_TAG; token; amount; m_packed; round_id_packed].
Definition hash_claim_nullifier (m_packed derived_pubkey_packed round_id_packed
  claim_contract chain_id_packed : Fr) : Fr :=
  poseidon_circom [fr_of_Z NULL_DOMAIN_TAG; m_packed; derived_pubkey_packed;
    round_id_packed; claim_contract; chain_id_packed].
Definition pack_round_id (hi lo : Fr) : Fr := poseidon_circom [hi; lo].
Definition pack_chain_id (hi lo : Fr) : Fr := poseidon_circom [hi; lo].

(** The four-limb hashes of a key. *)
Definition m_packed_of (p : SecpPubkey) : Fr :=
  let l := limbs_of p in hash_m_packed (lb_x_hi l) (lb_x_lo l) (lb_y_hi l) (lb_y_lo l).
Definition derived_packed_of (p : SecpPubkey) : Fr :=
  let l := limbs_of p in
  hash_derived_pubkey_packed (lb_x_hi l) (lb_x_lo l) (lb_y_hi l) (lb_y_lo l).
End hashes.
