(* ===== verification/RailsCard.v ===== *)
(** * Disbursement rails: the smartcard

    Model of [crypto/ecdsa.rs], [crypto/hmac.rs], [smartcard/apdu.rs],
    [ports/smartcard.rs] and [adapters/software_smartcard.rs].  The curve
    secp256k1 of [k256] and the HMAC of [hmac] are the class [Secp]. *)

From Stdlib Require Import ZArith Lia Bool.
From stdpp Require Import base tactics list gmap strings numbers.
From S2P Require Import Prelude Field Types Poseidon RailsTypes.

(** ** The curve, its signatures and HMAC *)
Class Secp (SK PK Sig : Type) : Type := {
  (** [SecretKey]: its scalar, its 32 bytes and [SecretKey::new]. *)
  sk_scalar : SK → Z;
  sk_to_bytes : SK → list byte;
  sk_new : Z → SK;
  (** [public_key] (also the verifying key), the uncompressed encoding, and
      [GENERATOR * s] as a key unless it is the identity. *)
  public_key : SK → PK;
  encoded_point : PK → list byte;
  generator_mul : Z → option PK;
  (** Signing a digest, with and without the recovery bits (odd [y], reduced
      [x]); the low-[s] twin; the 64-byte form; recovery. *)
  sign_prehash : SK → Bytes32 → outcome string Sig;
  sign_prehash_recoverable : SK → Bytes32 → Sig * bool * bool;
  normalize_s : Sig → option Sig;
  sig_to_bytes : Sig → list byte;
  sig_from_slice : list byte → option Sig;
  recover_from_prehash : Bytes32 → Sig → bool → bool → option PK;
  hmac_sha256 : list byte → list byte → Bytes32;
}.

Definition SECP256K1_N : Z :=
  0xfffffffffffffffffffffffffffffffebaaedce6af48a03bbfd25e8cd0364141.

(** Documented behaviour of the two crates. *)
Class SecpLaws (SK PK Sig : Type) {SC : Secp SK PK Sig} : Prop := {
  length_encoded_point p : length (encoded_point p) = 65%nat;
  generator_mul_Some s : 0 < s < SECP256K1_N → is_Some (generator_mul s);
  generator_mul_public sk : generator_mul (sk_scalar sk) = Some (public_key sk);
  sk_scalar_new s : 0 < s < SECP256K1_N → sk_scalar (sk_new s) = s;
  sign_prehash_no_panic sk d : sign_prehash sk d ≠ Panic;
  length_sig_to_bytes g : length (sig_to_bytes g) = 64%nat;
  sig_from_to_bytes g : sig_from_slice (sig_to_bytes g) = Some g;
  recover_signed sk d : let '(g, odd, reduced) := sign_prehash_recoverable sk d in
    recover_from_prehash d g odd reduced = Some (public_key sk);
  recover_normalized d g low odd reduced : normalize_s g = Some low →
    recover_from_prehash d low (negb odd) reduced = recover_from_prehash d g odd reduced;
  length_hmac k m : length (hmac_sha256 k m) = 32%nat;
}.

(** ** APDUs *)
Definition INS_GENERATE_KEY : byte := x01.
Definition INS_EXPORT_KEY : byte := x02.
Definition INS_SIGN_VOUCHER : byte := x03.
Definition CLA : byte := x80.
Definition VOUCHER_CTX_LEN : nat := 148.
Definition SERIALIZED_HEADER_LEN : nat := 192.
Definition SIGN_VOUCHER_BODY_LEN : nat := 32 + SERIALIZED_HEADER_LEN + VOUCHER_CTX_LEN.
Definition status_ok : list byte := [x90; x00].

Definition encode_generate_key : list byte := [CLA; INS_GENERATE_KEY; x00; x00; x00].
Definition decode_generate_key_response (resp : list byte) : outcome CardError unit :=
  ensure (negb (negb (length resp =? 2)%nat || negb (bytes_eqb resp status_ok))) BadApdu.
Definition encode_export_key : list byte := [CLA; INS_EXPORT_KEY; x00; x00; x00].
Definition decode_export_key_response (resp : list byte) : outcome CardError SecpPubkey :=
  ensure (length resp =? 64 + 2)%nat BadApdu;;
  ensure (bytes_eqb (drop 64 resp) status_ok) BadApdu;;
  Ok (mk_pubkey (take 32 resp) (take 32 (drop 32 resp))).

(** The writes into a zeroed array, in order. *)
Definition write_all (n : nat) (fields : list (nat * list byte)) : list byte :=
  foldl (λ out f, splice out f.1 f.2) (zeros n) fields.

Definition serialize_round_header (h : RoundHeader) : list byte :=
  write_all SERIALIZED_HEADER_LEN
    [(0%nat, rh_round_id h); (32%nat, be_of_Z 8 (rh_cohort_version h));
     (40%nat, rh_cohort_root h); (72%nat, rh_per_recipient_amount h);
     (104%nat, be_of_Z 8 (rh_cohort_size h)); (112%nat, rh_token h);
     (132%nat, be_of_Z 8 (rh_close_time h)); (140%nat, rh_claim_contract_address h);
     (160%nat, rh_chain_id h)].

Definition encode_ctx (ctx : VoucherContext) : list byte :=
  vc_round_id ctx ++ vc_cohort_root ctx ++ vc_claim_contract ctx ++
  vc_per_recipient_amount ctx ++ vc_chain_id ctx.

Definition encode_sign_voucher (auth_token : Bytes32) (serialized_header : list byte)
  (ctx : VoucherContext) : list byte :=
  let body := auth_token ++ serialized_header ++ encode_ctx ctx in
  let len := Z.of_nat (length body) in
  [CLA; INS_SIGN_VOUCHER; x00; x00; x00; byte_of_Z (Z.shiftr len 8); byte_of_Z (Z.land len 0xff)]
  ++ body.

Definition decode_sign_voucher_response (resp : list byte)
  : outcome CardError (SecpPubkey * SecpPubkey * EcdsaSignature) :=
  ensure (length resp =? 192 + 2)%nat BadApdu;;
  ensure (bytes_eqb (drop 192 resp) status_ok) BadApdu;;
  let at_ k := take 32 (drop k resp) in
  Ok (mk_pubkey (at_ 0%nat) (at_ 32%nat), mk_pubkey (at_ 64%nat) (at_ 96%nat),
      mk_ecdsa (at_ 128%nat) (at_ 160%nat)).

(** The class, instruction and body of an APDU. *)
Definition split_apdu (apdu : list byte)
  : outcome CardError (byte * byte * byte * byte * list byte) :=
  match apdu with
  | cla :: ins :: p1 :: p2 :: b4 :: rest =>
      ensure (bool_decide (cla = CLA)) BadApdu;;
      let '(lc, body_off) :=
        match rest with
        | b5 :: b6 :: _ =>
            if bool_decide (b4 = x00)
            then (Z.lor (Z.shiftl (byte_Z b5) 8) (byte_Z b6), 7%nat)
            else (byte_Z b4, 5%nat)
        | _ => (byte_Z b4, 5%nat)
        end in
      ensure (Z.of_nat (length apdu) =? Z.of_nat body_off + lc) BadApdu;;
      Ok (cla, ins, p1, p2, drop body_off apdu)
  | _ => Err BadApdu
  end.

Section card.
Context `{C : Crypto} {SK PK Sig : Type} {SC : Secp SK PK Sig}.

(** ** ECDSA helpers *)
Definition canonicalize_s (g : Sig) : Sig := default g (normalize_s g).

Definition sign_voucher (m : SK) (h_msg : Bytes32) : outcome CardError EcdsaSignature :=
  g ← map_err SignFailure (sign_prehash m h_msg);
  let bytes := sig_to_bytes (canonicalize_s g) in
  Ok (mk_ecdsa (take 32 bytes) (drop 32 bytes)).

Definition pubkey_to_xy (pk : PK) : SecpPubkey :=
  let bytes := encoded_point pk in
  mk_pubkey (take 32 (drop 1 bytes)) (take 32 (drop 33 bytes)).
Definition derive_pubkey (m : SK) : SecpPubkey := pubkey_to_xy (public_key m).
Definition point_to_eth_address (p : SecpPubkey) : Bytes20 :=
  drop 12 (keccak256 (pub_x p ++ pub_y p)).
Definition scalar_to_pubkey {E} (scalar : Z) : outcome E SecpPubkey :=
  pk ← expect (generator_mul scalar);
  Ok (pubkey_to_xy pk).
Definition destination_from_derived_pubkey (p : SecpPubkey) : Bytes20 := point_to_eth_address p.

(** ** HMAC helpers *)

(** The minimal big-endian image of a number below [2^256], right-aligned in
    32 bytes, is [be_of_Z 32]. *)
Definition reduce_tag_to_scalar {E} (tag : Bytes32) : outcome E Z :=
  let n_minus_one := SECP256K1_N - 1 in
  let reduced := be_to_Z tag mod n_minus_one in
  let result := reduced + 1 in
  let be := be_of_Z 32 result in
  let scalar := be_to_Z be mod SECP256K1_N in
  assert_ (negb (scalar =? 0));;
  Ok scalar.

Definition derive_stealth_scalar {E} (m : SK) (round_id : Bytes32) (claim_contract : Bytes20)
  (chain_id : Bytes32) : outcome E SK :=
  let tag := hmac_sha256 (sk_to_bytes m)
    (RDR_DOMAIN_STEALTH ++ round_id ++ claim_contract ++ chain_id) in
  nzs ← reduce_tag_to_scalar tag;
  Ok (sk_new nzs).

Definition derive_auth_token (companion_pre_key h_header : Bytes32) : Bytes32 :=
  hmac_sha256 companion_pre_key h_header.

(** ** The card *)
Definition voucher_domain_sha256 : Bytes32 := sha256 RDR_DOMAIN_VOUCHER.

Record SoftwareSmartcard : Type := mk_card {
  sc_m : option SK;
  sc_companion_pre_key : option Bytes32;
  sc_expects_auth_token : bool;
  sc_refuses_prehashed : bool;
}.

Definition card_new (companion_pre_key : option Bytes32) (expects_auth_token : bool)
  : SoftwareSmartcard := mk_card None companion_pre_key expects_auth_token true.

Definition with_key (c : SoftwareSmartcard) (m : SK) : SoftwareSmartcard :=
  mk_card (Some m) (sc_companion_pre_key c) (sc_expects_auth_token c) (sc_refuses_prehashed c).

Abbreviation MC := (M SoftwareSmartcard CardError).

(** [SecretKey::random]; the draw is an argument. *)
Definition ensure_key (draw : SK) : MC SK :=
  c ← mget;
  match sc_m c with
  | Some m => mret m
  | None => mput (with_key c draw);; mret draw
  end.

Definition handle_generate_key (draw : SK) : MC (list byte) :=
  ensure_key draw;; mret status_ok.

Definition handle_export_key : MC (list byte) :=
  c ← mget;
  m ← mlift (ok_or (sc_m c) KeyNotGenerated);
  let pk := derive_pubkey m in
  mret (pub_x pk ++ pub_y pk ++ status_ok).

(** [SHA-256(SHA-256(DOMAIN_HEADER) || serialized_header)]. *)
Definition header_digest (serialized_header : list byte) : Bytes32 :=
  sha256 (sha256 RDR_DOMAIN_HEADER ++ serialized_header).

Definition decode_ctx (ctx_bytes : list byte) : VoucherContext :=
  mk_ctx (take 32 ctx_bytes) (take 32 (drop 32 ctx_bytes)) (take 20 (drop 64 ctx_bytes))
    (take 32 (drop 84 ctx_bytes)) (take 32 (drop 116 ctx_bytes)).

(** The context agrees with the header, field by field. *)
Definition ctx_agrees (serialized_header : list byte) (ctx : VoucherContext)
  : outcome CardError unit :=
  ensure (bytes_eqb (take 32 serialized_header) (vc_round_id ctx)) CtxHeaderMismatch;;
  ensure (bytes_eqb (take 32 (drop 40 serialized_header)) (vc_cohort_root ctx))
    CtxHeaderMismatch;;
  ensure (bytes_eqb (take 32 (drop 72 serialized_header)) (vc_per_recipient_amount ctx))
    CtxHeaderMismatch;;
  ensure (bytes_eqb (take 20 (drop 140 serialized_header)) (vc_claim_contract ctx))
    CtxHeaderMismatch;;
  ensure (bytes_eqb (take 32 (drop 160 serialized_header)) (vc_chain_id ctx))
    CtxHeaderMismatch.

Definition check_auth_token (c : SoftwareSmartcard) (h_header auth_token : Bytes32)
  : outcome CardError unit :=
  if sc_expects_auth_token c then
    key ← ok_or (sc_companion_pre_key c) AuthTokenMismatch;
    ensure (bytes_eqb (derive_auth_token key h_header) auth_token) AuthTokenMismatch
  else Ok tt.

(** The 308-byte message of a voucher. *)
Definition voucher_preimage (ctx : VoucherContext) (m derived : SecpPubkey) : list byte :=
  write_all VOUCHER_PREIMAGE_LEN
    [(0%nat, voucher_domain_sha256); (32%nat, vc_round_id ctx); (64%nat, vc_cohort_root ctx);
     (96%nat, vc_chain_id ctx); (128%nat, pub_x m); (160%nat, pub_y m);
     (192%nat, pub_x derived); (224%nat, pub_y derived); (256%nat, vc_per_recipient_amount ctx);
     (288%nat, vc_claim_contract ctx)].

Definition handle_sign_voucher (draw : SK) (body : list byte) : MC (list byte) :=
  c ← mget;
  mlift (ensure (sc_refuses_prehashed c) PreHashedHMsgRefused);;
  mlift (ensure (negb (length body =? 32)%nat) PreHashedHMsgRefused);;
  mlift (ensure (length body =? SIGN_VOUCHER_BODY_LEN)%nat BadApdu);;
  let auth_token := take 32 body in
  let serialized_header := take SERIALIZED_HEADER_LEN (drop 32 body) in
  let ctx := decode_ctx (drop (32 + SERIALIZED_HEADER_LEN) body) in
  mlift (ctx_agrees serialized_header ctx);;
  let h_header := header_digest serialized_header in
  mlift (check_auth_token c h_header auth_token);;
  m ← ensure_key draw;
  derived ← mlift (derive_stealth_scalar m (vc_round_id ctx) (vc_claim_contract ctx)
    (vc_chain_id ctx));
  derived_pubkey ← mlift (scalar_to_pubkey (sk_scalar derived));
  let m_pubkey := derive_pubkey m in
  let digest := sha256 (voucher_preimage ctx m_pubkey derived_pubkey) in
  sig ← mlift (sign_voucher m digest);
  mret (pub_x m_pubkey ++ pub_y m_pubkey ++ pub_x derived_pubkey ++ pub_y derived_pubkey
        ++ sig_r sig ++ sig_s sig ++ status_ok).

Definition transmit (draw : SK) (apdu : list byte) : MC (list byte) :=
  '(_, ins, _, _, body) ← mlift (split_apdu apdu);
  if bool_decide (ins = INS_GENERATE_KEY) then handle_generate_key draw
  else if bool_decide (ins = INS_EXPORT_KEY) then handle_export_key
  else if bool_decide (ins = INS_SIGN_VOUCHER) then handle_sign_voucher draw body
  else mlift (Err BadApdu).
End card.
Arguments SoftwareSmartcard : clear implicits.
Arguments mk_card {SK}.
Arguments sc_m {SK}.
Arguments sc_companion_pre_key {SK}.
Arguments sc_expects_auth_token {SK}.
Arguments sc_refuses_prehashed {SK}.
