(* ===== verification/RailsMultisig.v ===== *)
(** * Disbursement rails: threshold signatures

    Model of [crypto/multisig.rs] and what its verification and its wire
    format accept. *)

From Stdlib Require Import ZArith Lia Bool.
From stdpp Require Import base tactics list gmap strings numbers.
From S2P Require Import Prelude Field Types Poseidon RailsTypes RailsCard.

Record MultiSignature : Type := mk_multisig {
  ms_signer : Bytes20;
  ms_signature : list byte;
}.

Inductive MultisigError : Type :=
| WrongCount
| DuplicateSigner
| UnknownSigner
| BadSignature.

Definition SIG_RECORD_LEN : nat := 20 + 65.

(** The lengths of the arrays. *)
Definition multisig_typed (s : MultiSignature) : Prop :=
  length (ms_signer s) = 20%nat ∧ length (ms_signature s) = 65%nat.

Definition encode_sig_record (s : MultiSignature) : list byte := ms_signer s ++ ms_signature s.
Definition encode_threshold (sigs : list MultiSignature) : list byte :=
  byte_of_Z (Z.of_nat (length sigs)) :: concat (map encode_sig_record sigs).

Definition decode_sig_record (bytes : list byte) (off : nat) : MultiSignature :=
  mk_multisig (take 20 (drop off bytes)) (take 65 (drop (off + 20) bytes)).
Definition decode_threshold (bytes : list byte) (expected_count : nat)
  : outcome MultisigError (list MultiSignature) :=
  match bytes with
  | [] => Err WrongCount
  | b :: _ =>
      ensure (byte_Z b =? Z.of_nat expected_count) WrongCount;;
      ensure (length bytes =? 1 + expected_count * SIG_RECORD_LEN)%nat WrongCount;;
      Ok (map (λ i, decode_sig_record bytes (1 + i * SIG_RECORD_LEN)) (seq 0 expected_count))
  end.

Section multisig.
Context `{C : Crypto} {SK PK Sig : Type} {SC : Secp SK PK Sig}.

Definition address_from_verifying_key (vk : PK) : Bytes20 :=
  drop 12 (keccak256 (drop 1 (encoded_point vk))).

Definition sign_digest (signer_sk : SK) (digest : Bytes32) : MultiSignature :=
  let '(sig, is_y_odd, is_x_reduced) := sign_prehash_recoverable signer_sk digest in
  let '(sig, is_y_odd) :=
    match normalize_s sig with
    | Some low => (low, negb is_y_odd)
    | None => (sig, is_y_odd)
    end in
  mk_multisig (address_from_verifying_key (public_key signer_sk))
    (sig_to_bytes sig ++ [byte_of_Z (27 + Z.b2z is_y_odd)]).

Definition recover_and_check (digest : Bytes32) (ms : MultiSignature)
  : outcome MultisigError unit :=
  v ← index (ms_signature ms) 64;
  ensure (negb (negb (byte_Z v =? 27) && negb (byte_Z v =? 28))) BadSignature;;
  let is_y_odd := Z.testbit (byte_Z v - 27) 0 in
  sig ← ok_or (sig_from_slice (take 64 (ms_signature ms))) BadSignature;
  vk ← ok_or (recover_from_prehash digest sig is_y_odd false) BadSignature;
  ensure (bytes_eqb (address_from_verifying_key vk) (ms_signer ms)) BadSignature.

(** The double loop over [i < j]. *)
Fixpoint no_duplicate_signer (sigs : list MultiSignature) : bool :=
  match sigs with
  | [] => true
  | s :: sigs' =>
      negb (existsb (λ t, bytes_eqb (ms_signer s) (ms_signer t)) sigs') &&
      no_duplicate_signer sigs'
  end.

Definition verify_threshold (digest : Bytes32) (sigs : list MultiSignature)
  (owners : list Bytes20) (threshold : nat) : outcome MultisigError unit :=
  ensure (length sigs =? threshold)%nat WrongCount;;
  ensure (no_duplicate_signer sigs) DuplicateSigner;;
  for_each (λ _ s,
    ensure (existsb (λ o, bytes_eqb o (ms_signer s)) owners) UnknownSigner;;
    recover_and_check digest s) tt sigs.

(** [s] is a signature of [digest] by the key of its signer's address. *)
Definition signs (digest : Bytes32) (s : MultiSignature) : Prop :=
  ∃ v g vk, ms_signature s !! 64%nat = Some v ∧ (byte_Z v = 27 ∨ byte_Z v = 28) ∧
    sig_from_slice (take 64 (ms_signature s)) = Some g ∧
    recover_from_prehash digest g (byte_Z v =? 28) false = Some vk ∧
    address_from_verifying_key vk = ms_signer s.

Lemma recover_and_check_Ok digest s u : recover_and_check digest s = Ok u ↔ signs digest s.
Proof.
  destruct u. unfold recover_and_check, signs. split.
  - intros H. inv_ok H. unfold index in Ha. apply expect_Ok in Ha. rename a into v.
    exists v, a1, a2. split; [done|].
    apply negb_true_iff, andb_false_iff in Ha0.
    assert (byte_Z v = 27 ∨ byte_Z v = 28) as Hv
      by (destruct Ha0 as [H0|H0]; apply negb_false_iff, Z.eqb_eq in H0; auto).
    split; [done|]. split; [done|]. apply bytes_eqb_eq in H. split; [|done].
    rewrite <-Ha2. f_equal. by destruct Hv as [->| ->].
  - intros (v & g & vk & Hv & Hr & Hg & Hk & Ha). unfold index. rewrite (expect_bind _ v) by done.
    rewrite ensure_bind by by destruct Hr as [->| ->].
    rewrite (ok_or_bind _ _ g) by done.
    rewrite (ok_or_bind _ _ vk); [by rewrite (proj2 (bytes_eqb_eq _ _) Ha)|].
    rewrite <-Hk. f_equal. by destruct Hr as [->| ->].
Qed.

Lemma existsb_bytes_eqb x (l : list (list byte)) :
  existsb (λ o, bytes_eqb o x) l = true ↔ x ∈ l.
Proof.
  rewrite existsb_exists. split.
  - intros (y & Hy & ->%bytes_eqb_eq). by apply list_elem_of_In.
  - intros Hx. exists x. split; [by apply list_elem_of_In|by apply bytes_eqb_eq].
Qed.

Lemma no_duplicate_signer_NoDup sigs :
  no_duplicate_signer sigs = true ↔ NoDup (ms_signer <$> sigs).
Proof.
  induction sigs as [|s sigs IH]; cbn; [split; [constructor|done]|].
  rewrite andb_true_iff, list.NoDup_cons, negb_true_iff, IH. apply and_iff_compat_r.
  rewrite list_elem_of_fmap, <-not_true_iff_false, existsb_exists.
  split; intros H; contradict H; destruct H as (t & H1 & H2).
  - exists t. split; [by apply list_elem_of_In|]. by apply bytes_eqb_eq.
  - apply bytes_eqb_eq in H2. exists t. split; [done|by apply list_elem_of_In].
Qed.

Lemma for_each_checks {E A} (f : A → outcome E unit) (l : list A) :
  for_each (λ _, f) tt l = Ok tt ↔ Forall (λ a, f a = Ok tt) l.
Proof.
  induction l as [|a l IH]; cbn [for_each]; [split; [constructor|done]|]. split.
  - intros H. apply bind_Ok in H as ([] & H1 & H2). constructor; [done|by apply IH].
  - intros H. apply list.Forall_cons in H as [H1 H2]. rewrite H1. by apply IH.
Qed.

Lemma verify_threshold_Ok digest sigs owners threshold :
  verify_threshold digest sigs owners threshold = Ok tt ↔
  length sigs = threshold ∧ NoDup (ms_signer <$> sigs) ∧
  Forall (λ s, ms_signer s ∈ owners ∧ signs digest s) sigs.
Proof.
  unfold verify_threshold.
  pose proof (for_each_checks (λ s,
    ensure (existsb (λ o, bytes_eqb o (ms_signer s)) owners) UnknownSigner;;
    recover_and_check digest s) sigs) as Hl.
  assert (∀ s, (ensure (existsb (λ o, bytes_eqb o (ms_signer s)) owners) UnknownSigner;;
    recover_and_check digest s) = Ok tt ↔ ms_signer s ∈ owners ∧ signs digest s) as He.
  { intros s. rewrite <-existsb_bytes_eqb, <-(recover_and_check_Ok _ _ tt).
    destruct (existsb _ _); cbn; naive_solver. }
  split.
  - intros H. apply bind_Ok in H as ([] & H1%ensure_Ok & H).
    apply bind_Ok in H as ([] & H2%ensure_Ok & H). apply Hl in H.
    split; [by apply Nat.eqb_eq|]. split; [by apply no_duplicate_signer_NoDup|].
    eapply list.Forall_impl; [exact H|]. intros s. apply He.
  - intros (H1 & H2 & H3). rewrite ensure_bind by by apply Nat.eqb_eq.
    rewrite ensure_bind by by apply no_duplicate_signer_NoDup. apply Hl.
    eapply list.Forall_impl; [exact H3|]. intros s. apply He.
Qed.

(** C28: what a threshold verification accepts.  [verify_threshold] succeeds
    exactly on as many signatures as the threshold, from pairwise distinct
    owners, each recovering to its signer's address for this digest: so a
    digest is accepted only with the signatures of that many owners. *)
Theorem threshold_exact digest sigs owners threshold :
  verify_threshold digest sigs owners threshold = Ok tt ↔
  length sigs = threshold ∧ NoDup (ms_signer <$> sigs) ∧
  Forall (λ s, ms_signer s ∈ owners ∧ signs digest s) sigs.
Proof. apply verify_threshold_Ok. Qed.
End multisig.

(** ** The wire format *)
Lemma length_concat_records sigs :
  Forall multisig_typed sigs →
  length (concat (map encode_sig_record sigs)) = (length sigs * SIG_RECORD_LEN)%nat.
Proof.
  induction 1 as [|s sigs [H1 H2] _ IH]; [done|]. cbn [map concat length].
  rewrite length_app, IH. unfold encode_sig_record. rewrite length_app, H1, H2.
  unfold SIG_RECORD_LEN. lia.
Qed.

Lemma decode_record_at pre s post :
  multisig_typed s →
  decode_sig_record (pre ++ encode_sig_record s ++ post) (length pre) = s.
Proof.
  intros [H1 H2]. unfold decode_sig_record, encode_sig_record.
  rewrite drop_app_length, <-drop_drop, drop_app_length, <-!app_assoc.
  rewrite take_app_length' by done. rewrite drop_app_length' by done.
  rewrite take_app_length' by done. by destruct s.
Qed.

Lemma decode_records_at pre sigs :
  Forall multisig_typed sigs →
  map (λ i, decode_sig_record (pre ++ concat (map encode_sig_record sigs))
              (length pre + i * SIG_RECORD_LEN)) (seq 0 (length sigs)) = sigs.
Proof.
  intros H. revert pre. induction H as [|s sigs Hs H IH]; intros pre; [done|].
  cbn [length seq map concat]. f_equal.
  - rewrite Nat.mul_0_l, Nat.add_0_r. by apply decode_record_at.
  - rewrite <-seq_shift, map_map, app_assoc. rewrite <-(IH (pre ++ encode_sig_record s)) at 2.
    apply map_ext. intros i. f_equal. destruct Hs as [H1 H2].
    rewrite length_app. unfold encode_sig_record. rewrite length_app, H1, H2.
    unfold SIG_RECORD_LEN. lia.
Qed.

Lemma decode_encode_threshold sigs :
  Forall multisig_typed sigs → (length sigs < 256)%nat →
  decode_threshold (encode_threshold sigs) (length sigs) = Ok sigs.
Proof.
  intros Ht Hl. unfold decode_threshold, encode_threshold.
  rewrite ensure_bind by (apply Z.eqb_eq; rewrite byte_Z_of_Z; apply Z.mod_small; lia).
  rewrite ensure_bind.
  - f_equal. apply (decode_records_at [byte_of_Z (Z.of_nat (length sigs))]). done.
  - apply Nat.eqb_eq. cbn [length]. rewrite length_concat_records by done. lia.
Qed.

Lemma encode_decoded_record bytes off :
  (off + SIG_RECORD_LEN ≤ length bytes)%nat →
  multisig_typed (decode_sig_record bytes off) ∧
  encode_sig_record (decode_sig_record bytes off) = take SIG_RECORD_LEN (drop off bytes).
Proof.
  unfold SIG_RECORD_LEN. intros Hl. unfold multisig_typed, encode_sig_record, decode_sig_record.
  cbn [ms_signer ms_signature]. rewrite !length_take, !length_drop. split; [lia|].
  rewrite <-drop_drop. apply take_take_drop.
Qed.

Lemma decoded_records k : ∀ pre l,
  length l = (k * SIG_RECORD_LEN)%nat →
  let sigs := map (λ i, decode_sig_record (pre ++ l) (length pre + i * SIG_RECORD_LEN)) (seq 0 k) in
  Forall multisig_typed sigs ∧ concat (map encode_sig_record sigs) = l.
Proof.
  induction k as [|k IH]; intros pre l Hl; cbn [seq map concat].
  - split; [constructor|]. by apply nil_length_inv in Hl.
  - destruct (encode_decoded_record (pre ++ l) (length pre + 0 * SIG_RECORD_LEN)) as [H1 H2].
    { rewrite length_app, Hl. lia. }
    rewrite H2, Nat.mul_0_l, Nat.add_0_r, drop_app_length.
    destruct (IH (pre ++ take SIG_RECORD_LEN l) (drop SIG_RECORD_LEN l)) as [H3 H4].
    { rewrite length_drop, Hl. lia. }
    assert (map (λ i, decode_sig_record (pre ++ l) (length pre + i * SIG_RECORD_LEN)) (seq 1 k)
      = map (λ i, decode_sig_record ((pre ++ take SIG_RECORD_LEN l) ++ drop SIG_RECORD_LEN l)
              (length (pre ++ take SIG_RECORD_LEN l) + i * SIG_RECORD_LEN)) (seq 0 k)) as E.
    { rewrite <-seq_shift, map_map. apply map_ext. intros i.
      rewrite <-app_assoc, take_drop, length_app, length_take, Hl. f_equal. lia. }
    rewrite E, H4, take_drop. split; [|done]. constructor; [|done].
    by rewrite Nat.mul_0_l, Nat.add_0_r in H1.
Qed.

Lemma decode_threshold_Ok bytes k sigs :
  decode_threshold bytes k = Ok sigs ↔
  length sigs = k ∧ (k < 256)%nat ∧ Forall multisig_typed sigs ∧ bytes = encode_threshold sigs.
Proof.
  split.
  - destruct bytes as [|b l]; [done|]. intros H. cbn [decode_threshold] in H. inv_ok H.
    apply Z.eqb_eq in Ha. apply Nat.eqb_eq in Ha0. cbn [length] in Ha0.
    pose proof (byte_Z_range b). rewrite length_map, length_seq.
    destruct (decoded_records k [b] l) as [H1 H2]; [lia|].
    split; [done|]. split; [lia|]. split; [exact H1|].
    unfold encode_threshold. rewrite length_map, length_seq, <-Ha, byte_of_Z_byte.
    f_equal. symmetry. exact H2.
  - intros (<- & Hk & Ht & ->). by apply decode_encode_threshold.
Qed.

(** The wire format of threshold signatures is exact.  [decode_threshold]
    accepts a buffer for a count exactly when it is the encoding of that many
    well-formed signature records, fewer than 256, and it returns them: there
    is no second encoding, no trailing byte, and a count past one byte is
    never accepted. *)
Lemma threshold_wire_exact bytes k sigs :
  decode_threshold bytes k = Ok sigs ↔
  length sigs = k ∧ (k < 256)%nat ∧ Forall multisig_typed sigs ∧ bytes = encode_threshold sigs.
Proof. apply decode_threshold_Ok. Qed.
