(* ===== verification/RailsRoles.v ===== *)
(** * Disbursement rails: companion, funder, relay and their channel

    Model of [companion/], [funder/], [relay/], [crypto/aead.rs],
    [ports/proof.rs], [ports/submission.rs] and
    [adapters/direct_submission.rs].  The sealing scheme of [sealring], the
    JSON codec of [serde_json], the prover and the on-chain views are classes;
    clock readings and random draws are arguments. *)

From Stdlib Require Import ZArith Lia Bool.
From stdpp Require Import base tactics list gmap strings numbers.
From S2P Require Import Prelude Field Types Poseidon RailsTypes RailsCard RailsMultisig.

(** ** Third-party services *)
Class Seal (XSK XPK Env : Type) : Type := {
  xsk_from : Bytes32 → XSK;
  xpk_of : XSK → XPK;
  xpk_from : Bytes32 → XPK;
  xpk_to_bytes : XPK → Bytes32;
  (** [sealring::seal] with its random draw, the bytes of an envelope and
      their parsing, and [sealring::open] for a recipient. *)
  seal : list byte → XPK → list byte → Bytes32 → option Env;
  env_bytes : Env → list byte;
  env_parse : list byte → option Env;
  seal_open : XSK → Env → Bytes32 → option (option (list byte));
}.

(** Documented behaviour: what was sealed to a key opens with it. *)
Class SealLaws (XSK XPK Env : Type) {SE : Seal XSK XPK Env} : Prop := {
  xpk_from_to p : xpk_from (xpk_to_bytes p) = p;
  env_parse_bytes e : env_parse (env_bytes e) = Some e;
  open_sealed draw sk m aad e : seal draw (xpk_of sk) m aad = Some e →
    seal_open sk e aad = Some (Some m);
}.

Class VoucherCodec : Type := {
  to_vec : SignedVoucher → outcome string (list byte);
  from_slice : list byte → outcome string SignedVoucher;
}.
Class VoucherCodecLaws {VC : VoucherCodec} : Prop := {
  from_to_vec v b : to_vec v = Ok b → from_slice b = Ok v;
}.

(** ** Ports *)
Class Smartcard (S : Type) : Type := {
  card_transmit : list byte → M S CardError (list byte);
}.
#[export] Instance software_card `{C : Crypto} {SK PK Sig} {SC : Secp SK PK Sig} (draw : SK)
  : Smartcard (SoftwareSmartcard SK) := {| card_transmit := transmit draw |}.

Class RailsProver (P : Type) : Type := {
  generate_claim_proof : P → ClaimWitness → outcome RailsProofError (list byte);
  generate_pool_withdraw_proof : P → PoolWithdrawWitness → outcome RailsProofError (list byte);
}.
Inductive RailsMockProof : Type := rails_mock_proof.
#[export] Instance rails_mock_prover : RailsProver RailsMockProof := {|
  generate_claim_proof _ _ := Ok [];
  generate_pool_withdraw_proof _ _ := Ok [];
|}.

Class OnChainPool (OC : Type) : Type := {
  commitment_index : OC → Bytes20 → Bytes32 → outcome PoolError (option Z);
  sub_tree_root : OC → Bytes20 → outcome PoolError Bytes32;
  pool_merkle_path : OC → Bytes20 → Z → outcome PoolError RailsMerklePath;
}.
Class OnChainCohort (OR : Type) : Type := {
  cohort_root : OR → Z → outcome PoolError Bytes32;
  cohort_merkle_path : OR → Z → Z → outcome PoolError RailsMerklePath;
}.

(** ** Envelopes *)
Inductive AeadError : Type := DecryptFailed | EncryptFailed.

Section aead.
Context {XSK XPK Env : Type} {SE : Seal XSK XPK Env}.

Definition encrypt_to_relay (draw : list byte) (relay_pk : XPK) (relay_id : Bytes32)
  (plaintext : list byte) : outcome AeadError EncryptedVoucher :=
  envelope ← ok_or (seal draw relay_pk plaintext relay_id) EncryptFailed;
  Ok (mk_envelope (env_bytes envelope) relay_id).

Definition decrypt_from_companion (relay_sk : XSK) (env : EncryptedVoucher)
  : outcome AeadError (list byte) :=
  envelope ← ok_or (env_parse (ev_envelope env)) DecryptFailed;
  opened ← ok_or (seal_open relay_sk envelope (ev_relay_id env)) DecryptFailed;
  ok_or opened DecryptFailed.
End aead.

(** ** Rosters and headers *)
Record RelayDescriptor : Type := mk_relay_descriptor {
  rd_relay_id : Bytes32;
  rd_static_pub_x25519 : Bytes32;
  rd_rotation_epoch : Z;
}.
Record RelayRoster : Type := mk_roster {
  ro_relays : list RelayDescriptor;
  ro_signed_at_unix : Z;
  ro_signature : list byte;
}.
Record HeaderBundle : Type := mk_bundle {
  hb_signed : SignedHeader;
  hb_first_pool_leaf_index : Z;
}.

Section digests.
Context `{C : Crypto}.

Definition h_header (header : RoundHeader) : Bytes32 :=
  header_digest (serialize_round_header header).

Definition roster_digest (roster : RelayRoster) : Bytes32 :=
  sha256 (RDR_DOMAIN_ROSTER
    ++ be_of_Z 4 (Z.of_nat (length (ro_relays roster)) mod 2 ^ 32)
    ++ concat (map (λ r, rd_relay_id r ++ rd_static_pub_x25519 r
                         ++ be_of_Z 8 (rd_rotation_epoch r)) (ro_relays roster))
    ++ be_of_Z 8 (ro_signed_at_unix roster)).

(** The nullifier of a claim, from the fields of its context. *)
Definition claim_nullifier_of (m derived : SecpPubkey) (round_id : Bytes32)
  (claim_contract : Bytes20) (chain_id : Bytes32) : Fr :=
  hash_claim_nullifier (m_packed_of m) (derived_packed_of derived)
    (pack_round_id (fr_hi round_id) (fr_lo round_id))
    (rails_fr_from_be_bytes (pad_address claim_contract))
    (pack_chain_id (fr_hi chain_id) (fr_lo chain_id)).

(** The pool commitment of a card in a round. *)
Definition pool_commitment_of (token : Bytes20) (amount : Bytes32) (m : SecpPubkey)
  (round_id : Bytes32) : Fr :=
  hash_pool_commitment (rails_fr_from_be_bytes (pad_address token)) (fr_from_be_bytes amount)
    (m_packed_of m) (pack_round_id (fr_hi round_id) (fr_lo round_id)).
End digests.

(** ** The companion *)
Inductive CompanionError : Type :=
| BadFunderSig (e : MultisigError)
| BadRosterSig (e : MultisigError)
| StaleRoster
| FutureRoster
| CardFailure (e : CardError)
| CompanionAead (e : AeadError)
| NoRelaysAvailable
| Serialization (m : string).

Definition ROSTER_STALENESS_SECS : Z := 48 * 3600.

Record Companion (S : Type) : Type := mk_companion {
  cm_card : S;
  cm_companion_pre_key : Bytes32;
  cm_roster : RelayRoster;
  cm_funder_owners : list Bytes20;
  cm_funder_threshold : nat;
}.
Arguments mk_companion {S}.
Arguments cm_card {S}.
Arguments cm_companion_pre_key {S}.
Arguments cm_roster {S}.
Arguments cm_funder_owners {S}.
Arguments cm_funder_threshold {S}.

Section companion.
Context `{C : Crypto} {SK PK Sig : Type} {SC : Secp SK PK Sig}.
Context {XSK XPK Env : Type} {SE : Seal XSK XPK Env} {VC : VoucherCodec}.
Context {S : Type} {SMC : Smartcard S}.

Definition pick_relay (c : Companion S) : outcome CompanionError RelayDescriptor :=
  ok_or (head (ro_relays (cm_roster c))) NoRelaysAvailable.

(** [self.card.transmit(&apdu)?]. *)
Definition drive_card (apdu : list byte) : M (Companion S) CompanionError (list byte) :=
  λ c, let '(r, card) := card_transmit apdu (cm_card c) in
       (map_err CardFailure r,
        mk_companion card (cm_companion_pre_key c) (cm_roster c) (cm_funder_owners c)
          (cm_funder_threshold c)).

(** Steps 1 to 3 of [build_voucher]. *)
Definition check_bundle (c : Companion S) (now : Z) (bundle : HeaderBundle)
  : outcome CompanionError unit :=
  let roster := cm_roster c in
  ensure (negb (now <? ro_signed_at_unix roster)) FutureRoster;;
  ensure (negb (ROSTER_STALENESS_SECS <? now - ro_signed_at_unix roster)) StaleRoster;;
  roster_sigs ← map_err BadRosterSig
    (decode_threshold (ro_signature roster) (cm_funder_threshold c));
  map_err BadRosterSig (verify_threshold (roster_digest roster) roster_sigs
    (cm_funder_owners c) (cm_funder_threshold c));;
  header_sigs ← map_err BadFunderSig
    (decode_threshold (sh_signature (hb_signed bundle)) (cm_funder_threshold c));
  map_err BadFunderSig (verify_threshold (h_header (sh_header (hb_signed bundle))) header_sigs
    (cm_funder_owners c) (cm_funder_threshold c)).

Definition build_voucher (now : Z) (draw : list byte) (bundle : HeaderBundle)
  : M (Companion S) CompanionError EncryptedVoucher :=
  c ← mget;
  mlift (check_bundle c now bundle);;
  let header := sh_header (hb_signed bundle) in
  let auth_token := derive_auth_token (cm_companion_pre_key c) (h_header header) in
  let ctx := mk_ctx (rh_round_id header) (rh_cohort_root header)
    (rh_claim_contract_address header) (rh_per_recipient_amount header) (rh_chain_id header) in
  let apdu := encode_sign_voucher auth_token (serialize_round_header header) ctx in
  resp ← drive_card apdu;
  '(m_pub, derived_pub, signature) ← mlift (map_err CardFailure (decode_sign_voucher_response resp));
  let destination := destination_from_derived_pubkey derived_pub in
  let nullifier_fr := claim_nullifier_of m_pub derived_pub (rh_round_id header)
    (rh_claim_contract_address header) (rh_chain_id header) in
  let voucher := mk_voucher m_pub derived_pub signature ctx (fr_to_be_bytes nullifier_fr)
    destination in
  plaintext ← mlift (map_err Serialization (to_vec voucher));
  relay ← mlift (pick_relay c);
  mlift (map_err CompanionAead
    (encrypt_to_relay draw (xpk_from (rd_static_pub_x25519 relay)) (rd_relay_id relay) plaintext)).
End companion.

(** ** The funder *)
Inductive FunderError : Type :=
| RegistryMismatch
| ThresholdConfig (m : string).

Record Funder (SK : Type) : Type := mk_funder {
  fu_multisig_signers : list SK;
  fu_claim_contract : Bytes20;
  fu_funder_residual_destination : Bytes20;
  fu_funder_owners : list Bytes20;
  fu_threshold : nat;
  fu_multisig_address : Bytes20;
}.
Arguments mk_funder {SK}.
Arguments fu_multisig_signers {SK}.
Arguments fu_claim_contract {SK}.
Arguments fu_funder_residual_destination {SK}.
Arguments fu_funder_owners {SK}.
Arguments fu_threshold {SK}.
Arguments fu_multisig_address {SK}.

Section funder.
Context `{C : Crypto} {SK PK Sig : Type} {SC : Secp SK PK Sig}.

Definition funder_new (multisig_signers : list SK) (claim_contract dest : Bytes20) : Funder SK :=
  mk_funder multisig_signers claim_contract dest [] 0 (zeros 20).

Definition signer_address (sk : SK) : Bytes20 := address_from_verifying_key (public_key sk).

Definition with_multisig (multisig_signers : list SK) (funder_owners : list Bytes20)
  (threshold : nat) (multisig_address claim_contract dest : Bytes20)
  : outcome FunderError (Funder SK) :=
  ensure (negb (threshold =? 0)%nat) (ThresholdConfig "threshold must be > 0");;
  ensure (negb (length multisig_signers <? threshold)%nat) (ThresholdConfig "have signers but need");;
  for_each (λ _ sk,
    ensure (existsb (λ o, bytes_eqb o (signer_address sk)) funder_owners)
      (ThresholdConfig "signer not in funder_owners")) tt multisig_signers;;
  Ok (mk_funder multisig_signers claim_contract dest funder_owners threshold multisig_address).

Definition build_round_header (f : Funder SK) (round_id : Bytes32) (cohort_version : Z)
  (cohort_root per_recipient_amount : Bytes32) (cohort_size : Z) (token : Bytes20)
  (close_time : Z) (chain_id : Bytes32) : RoundHeader :=
  mk_header round_id cohort_version cohort_root per_recipient_amount cohort_size token
    close_time (fu_claim_contract f) chain_id.

(** The funder has its own copies of the header's layout and digest and of
    the roster's digest. *)
Definition funder_serialize_round_header (h : RoundHeader) : list byte :=
  write_all 192
    [(0%nat, rh_round_id h); (32%nat, be_of_Z 8 (rh_cohort_version h));
     (40%nat, rh_cohort_root h); (72%nat, rh_per_recipient_amount h);
     (104%nat, be_of_Z 8 (rh_cohort_size h)); (112%nat, rh_token h);
     (132%nat, be_of_Z 8 (rh_close_time h)); (140%nat, rh_claim_contract_address h);
     (160%nat, rh_chain_id h)].
Definition funder_h_header (header : RoundHeader) : Bytes32 :=
  sha256 (sha256 RDR_DOMAIN_HEADER ++ funder_serialize_round_header header).
Definition funder_roster_digest (roster : RelayRoster) : Bytes32 :=
  sha256 (RDR_DOMAIN_ROSTER
    ++ be_of_Z 4 (Z.of_nat (length (ro_relays roster)) mod 2 ^ 32)
    ++ concat (map (λ r, rd_relay_id r ++ rd_static_pub_x25519 r
                         ++ be_of_Z 8 (rd_rotation_epoch r)) (ro_relays roster))
    ++ be_of_Z 8 (ro_signed_at_unix roster)).

Definition sign_with_threshold (f : Funder SK) (digest : Bytes32) : list byte :=
  encode_threshold (map (λ sk, sign_digest sk digest)
    (take (fu_threshold f) (fu_multisig_signers f))).

Definition sign_round_header (f : Funder SK) (header : RoundHeader)
  : outcome FunderError (list byte) :=
  ensure (negb (fu_threshold f =? 0)%nat)
    (ThresholdConfig "sign_round_header requires a non-zero threshold; use with_multisig");;
  Ok (sign_with_threshold f (funder_h_header header)).

Definition sign_roster (f : Funder SK) (roster : RelayRoster) : outcome FunderError (list byte) :=
  ensure (negb (fu_threshold f =? 0)%nat)
    (ThresholdConfig "sign_roster requires a non-zero threshold; use with_multisig");;
  Ok (sign_with_threshold f (funder_roster_digest roster)).

(** The funder signs what the companion and the card check. *)
Lemma funder_h_header_parity header : funder_h_header header = h_header header.
Proof. reflexivity. Qed.
Lemma funder_roster_digest_parity roster : funder_roster_digest roster = roster_digest roster.
Proof. reflexivity. Qed.

Definition compute_round_commitments (f : Funder SK) (header : RoundHeader)
  (m_values : list SecpPubkey) : outcome FunderError (list Bytes32) :=
  ensure (Z.of_nat (length m_values) =? rh_cohort_size header) RegistryMismatch;;
  Ok (map (λ m, fr_to_be_bytes (pool_commitment_of (rh_token header)
                  (rh_per_recipient_amount header) m (rh_round_id header))) m_values).
End funder.

(** ** The relay *)
Inductive RelayError : Type :=
| RelayAead (e : AeadError)
| BadVoucherFormat (m : string)
| ProofGeneration (e : RailsProofError)
| RelayPool (e : PoolError)
| CommitmentNotFound.

(** Instants and durations are in nanoseconds. *)
Record KeyArchive (XSK XPK : Type) : Type := mk_archive {
  ka_current_sk : XSK;
  ka_current_pk : XPK;
  ka_previous_sk : option XSK;
  ka_previous_pk : option XPK;
  ka_rotated_at : Z;
  ka_rotation_interval : Z;
}.
Arguments mk_archive {XSK XPK}.
Arguments ka_current_sk {XSK XPK}.
Arguments ka_current_pk {XSK XPK}.
Arguments ka_previous_sk {XSK XPK}.
Arguments ka_previous_pk {XSK XPK}.
Arguments ka_rotated_at {XSK XPK}.
Arguments ka_rotation_interval {XSK XPK}.

Record Relay (P OC OR XSK XPK : Type) : Type := mk_relay {
  rl_prover : P;
  rl_keys : KeyArchive XSK XPK;
  rl_pool : OC;
  rl_cohort : OR;
  rl_claim_contract : Bytes20;
  rl_relay_submitter : Bytes20;
}.
Arguments mk_relay {P OC OR XSK XPK}.
Arguments rl_prover {P OC OR XSK XPK}.
Arguments rl_keys {P OC OR XSK XPK}.
Arguments rl_pool {P OC OR XSK XPK}.
Arguments rl_cohort {P OC OR XSK XPK}.
Arguments rl_claim_contract {P OC OR XSK XPK}.
Arguments rl_relay_submitter {P OC OR XSK XPK}.

Record SubmissionArtifacts : Type := mk_artifacts {
  sa_voucher : SignedVoucher;
  sa_claim_witness : ClaimWitness;
  sa_claim_proof : list byte;
  sa_pool_witness : PoolWithdrawWitness;
  sa_pool_proof : list byte;
}.

Section relay.
Context `{C : Crypto} {XSK XPK Env : Type} {SE : Seal XSK XPK Env} {VC : VoucherCodec}.
Context {P OC OR : Type} {RP : RailsProver P} {OP : OnChainPool OC} {ON : OnChainCohort OR}.

Definition rotate (seed : Bytes32) (now : Z) (k : KeyArchive XSK XPK) : KeyArchive XSK XPK :=
  let new_sk := xsk_from seed in
  let new_pk := xpk_of new_sk in
  mk_archive new_sk new_pk (Some (ka_current_sk k)) (Some (ka_current_pk k)) now
    (ka_rotation_interval k).
(** [elapsed] saturates at zero. *)
Definition is_due (now : Z) (k : KeyArchive XSK XPK) : bool :=
  ka_rotation_interval k <=? Z.max 0 (now - ka_rotated_at k).

Definition relay_decrypt (k : KeyArchive XSK XPK) (env : EncryptedVoucher)
  : outcome RelayError (list byte) :=
  match decrypt_from_companion (ka_current_sk k) env with
  | Ok plain => Ok plain
  | _ =>
      match ka_previous_sk k with
      | Some prev =>
          match decrypt_from_companion prev env with
          | Ok plain => Ok plain
          | _ => Err (RelayAead DecryptFailed)
          end
      | None => Err (RelayAead DecryptFailed)
      end
  end.

Definition with_keys (r : Relay P OC OR XSK XPK) (k : KeyArchive XSK XPK)
  : Relay P OC OR XSK XPK :=
  mk_relay (rl_prover r) k (rl_pool r) (rl_cohort r) (rl_claim_contract r)
    (rl_relay_submitter r).

Definition claim_witness_of (r : Relay P OC OR XSK XPK) (voucher : SignedVoucher)
  (nullifier cohort_root_fr : Fr) (cohort_path : RailsMerklePath) : ClaimWitness :=
  let ctx := sv_context voucher in
  mk_claim_witness (fr_hi (vc_round_id ctx)) (fr_lo (vc_round_id ctx)) cohort_root_fr
    (fr_hi (vc_chain_id ctx)) (fr_lo (vc_chain_id ctx))
    (rails_fr_from_be_bytes (pad_address (sv_destination voucher)))
    (fr_from_be_bytes (vc_per_recipient_amount ctx)) nullifier
    (rails_fr_from_be_bytes (pad_address (vc_claim_contract ctx)))
    (rails_fr_from_be_bytes (pad_address (rl_relay_submitter r)))
    (limbs_of (sv_derived_pubkey voucher)) (limbs_of (sv_m voucher))
    (sig_r (sv_signature voucher)) (sig_s (sv_signature voucher)) cohort_path.

Definition pool_witness_of (claim : ClaimWitness) (pool_root token : Fr)
  (pool_path : RailsMerklePath) : PoolWithdrawWitness :=
  mk_pool_witness pool_root (cw_nullifier claim) token (cw_amount claim) (cw_destination claim)
    (cw_m claim) (cw_derived_pubkey claim) (cw_round_id_hi claim) (cw_round_id_lo claim)
    (cw_chain_id_hi claim) (cw_chain_id_lo claim) (cw_claim_contract_address claim) pool_path.

(** The part of [submit_voucher] after the key rotation. *)
Definition submit_decrypted (r : Relay P OC OR XSK XPK) (env : EncryptedVoucher)
  (token : Bytes20) (cohort_version cohort_position : Z)
  : outcome RelayError SubmissionArtifacts :=
  plain ← relay_decrypt (rl_keys r) env;
  voucher ← map_err BadVoucherFormat (from_slice plain);
  let ctx := sv_context voucher in
  let commitment := pool_commitment_of token (vc_per_recipient_amount ctx) (sv_m voucher)
    (vc_round_id ctx) in
  found ← map_err RelayPool
    (commitment_index (rl_pool r) (rl_claim_contract r) (fr_to_be_bytes commitment));
  leaf_index ← ok_or found CommitmentNotFound;
  pool_root_be ← map_err RelayPool (sub_tree_root (rl_pool r) (rl_claim_contract r));
  pool_path ← map_err RelayPool (pool_merkle_path (rl_pool r) (rl_claim_contract r) leaf_index);
  cohort_root_be ← map_err RelayPool (cohort_root (rl_cohort r) cohort_version);
  cohort_path ← map_err RelayPool
    (cohort_merkle_path (rl_cohort r) cohort_version cohort_position);
  let nullifier := claim_nullifier_of (sv_m voucher) (sv_derived_pubkey voucher)
    (vc_round_id ctx) (vc_claim_contract ctx) (vc_chain_id ctx) in
  let claim_witness := claim_witness_of r voucher nullifier
    (rails_fr_from_be_bytes cohort_root_be) cohort_path in
  claim_proof ← map_err ProofGeneration (generate_claim_proof (rl_prover r) claim_witness);
  let pool_witness := pool_witness_of claim_witness (rails_fr_from_be_bytes pool_root_be)
    (rails_fr_from_be_bytes (pad_address token)) pool_path in
  pool_proof ← map_err ProofGeneration
    (generate_pool_withdraw_proof (rl_prover r) pool_witness);
  Ok (mk_artifacts voucher claim_witness claim_proof pool_witness pool_proof).

(** The clock is read to decide on a rotation, and again to record it. *)
Definition relay_submit_voucher (now rotated : Z) (seed : Bytes32) (env : EncryptedVoucher)
  (token : Bytes20) (cohort_version cohort_position : Z)
  : M (Relay P OC OR XSK XPK) RelayError SubmissionArtifacts :=
  r ← mget;
  mput (if is_due now (rl_keys r) then with_keys r (rotate seed rotated (rl_keys r)) else r);;
  r ← mget;
  mlift (submit_decrypted r env token cohort_version cohort_position).
End relay.

(** ** The channel *)
Record DeliveryReceipt : Type := mk_delivery {
  dr_message_id : Bytes32;
  dr_accepted_at_unix : Z;
}.
Inductive RailsSubmissionError : Type :=
| UnknownRelay
| Rejected (m : string).

Record DirectSubmission : Type := mk_direct_submission {
  ds_inboxes : gmap (list byte) (list EncryptedVoucher);
  ds_known_relays : gset (list byte);
}.

Section channel.
Context `{C : Crypto}.

Definition with_clock (known_relays : list Bytes32) : DirectSubmission :=
  mk_direct_submission (list_to_map (map (λ id, (id, [])) known_relays))
    (list_to_set known_relays).

Definition message_id (env : EncryptedVoucher) : Bytes32 :=
  sha256 (ev_envelope env ++ ev_relay_id env).

Definition channel_submit (now : Z) (envelope : EncryptedVoucher) (relay_id : Bytes32)
  : M DirectSubmission RailsSubmissionError DeliveryReceipt :=
  d ← mget;
  mlift (ensure (bool_decide (relay_id ∈ ds_known_relays d)) UnknownRelay);;
  mlift (ensure (bytes_eqb (ev_relay_id envelope) relay_id)
    (Rejected "envelope relay_id does not match submitted relay_id"));;
  inbox ← mlift (ok_or (ds_inboxes d !! relay_id) UnknownRelay);
  mput (mk_direct_submission (<[relay_id := inbox ++ [envelope]]> (ds_inboxes d))
          (ds_known_relays d));;
  mret (mk_delivery (message_id envelope) now).

Definition pull_voucher (relay_id : Bytes32) (d : DirectSubmission)
  : option EncryptedVoucher * DirectSubmission :=
  match ds_inboxes d !! relay_id with
  | Some (e :: q) =>
      (Some e, mk_direct_submission (<[relay_id := q]> (ds_inboxes d)) (ds_known_relays d))
  | _ => (None, d)
  end.

Definition pending (relay_id : Bytes32) (d : DirectSubmission) : nat :=
  match ds_inboxes d !! relay_id with Some q => length q | None => 0 end.
End channel.
