(* ===== verification/RailsRegistry.v ===== *)
(** * Disbursement rails: the operator registry

    Model of [registry/], [ports/merkle.rs] and
    [adapters/lean_imt_merkle.rs]; the lean tree is the third-party class
    [LeanIMT].  The invariant of the registry, and where the leaf of a card
    ends up in a rebuilt cohort tree. *)

From Stdlib Require Import ZArith Lia Bool.
From stdpp Require Import base tactics list gmap strings numbers relations.
From S2P Require Import Prelude Field Types Poseidon Ports RailsTypes.

(** ** The Merkle store *)
Inductive RailsMerkleError : Type :=
| OutOfRange (index size : nat)
| EmptyTree
| ProofFailure (m : string).

Record FrMerklePath : Type := mk_fr_path {
  fp_siblings : list Fr;
  fp_indices : list byte;
}.

Class MerkleStore (T : Type) : Type := {
  store_root : T → option Fr;
  store_size : T → nat;
  store_get_proof : T → nat → outcome RailsMerkleError FrMerklePath;
  store_insert : T → Fr → nat * T;
}.

(** A store appends: an insertion returns the size before it. *)
Class MerkleStoreLaws (T : Type) {MS : MerkleStore T} : Prop := {
  store_insert_index t l : (store_insert t l).1 = store_size t;
  store_insert_size t l : store_size (store_insert t l).2 = S (store_size t);
}.

Section lean_store.
Context `{C : Crypto} {T : Type} {LT : LeanIMT T}.

Definition lean_store_new : T := lean_new poseidon_hasher.

#[export] Instance lean_imt_merkle_store : MerkleStore T := {|
  store_root t := fr_from_be_bytes <$> lean_root t;
  store_size t := lean_size t;
  store_get_proof t index :=
    ensure (negb (lean_size t =? 0)%nat) EmptyTree;;
    ensure (negb (lean_size t <=? index)%nat) (OutOfRange index (lean_size t));;
    proof ← ok_or (lean_generate_proof t index) (ProofFailure "");
    Ok (mk_fr_path (map fr_from_be_bytes (lp_siblings proof))
          (map (λ i, byte_of_Z (Z.land (Z.shiftr (lp_index proof) (Z.of_nat i)) 1))
             (seq 0 (length (lp_siblings proof)))));
  store_insert t leaf := (lean_size t, lean_insert t (fr_to_be_bytes leaf));
|}.

#[export] Instance lean_imt_merkle_store_laws `{!LeanLaws T} : MerkleStoreLaws T.
Proof. constructor; [done|]. intros t l. apply lean_size_insert. Qed.
End lean_store.

(** ** The registry *)
Inductive OperatorError : Type :=
| DuplicateCard
| DuplicateM
| UnknownCard.

Inductive CardStatus : Type := CardActive | Revoked.
#[export] Instance CardStatus_eq_dec : EqDecision CardStatus.
Proof. solve_decision. Defined.

Record CardRecord : Type := mk_card_record {
  cr_card_id : Bytes32;
  cr_m : SecpPubkey;
  cr_status : CardStatus;
  cr_cohort_position : Z;
}.

Record PersonalizationPacket : Type := mk_packet {
  pp_card_id : Bytes32;
  pp_m : SecpPubkey;
  pp_cohort_position : Z;
  pp_cohort_version : Z;
}.

Record OperatorRegistry (T : Type) : Type := mk_operator {
  op_cards : list CardRecord;
  op_tree : T;
  op_current_version : Z;
}.
Arguments mk_operator {T}.
Arguments op_cards {T}.
Arguments op_tree {T}.
Arguments op_current_version {T}.

Definition is_active_card (c : CardRecord) : bool := bool_decide (cr_status c = CardActive).
Definition revoked_card (c : CardRecord) : CardRecord :=
  mk_card_record (cr_card_id c) (cr_m c) Revoked (cr_cohort_position c).

(** The first card with the identifier, revoked. *)
Fixpoint revoke_first (card_id : Bytes32) (cards : list CardRecord) : option (list CardRecord) :=
  match cards with
  | [] => None
  | c :: cards' =>
      if bytes_eqb (cr_card_id c) card_id then Some (revoked_card c :: cards')
      else cons c <$> revoke_first card_id cards'
  end.

(** The stable sort of [sort_by_key]. *)
Fixpoint insert_by_position (c : CardRecord) (l : list CardRecord) : list CardRecord :=
  match l with
  | [] => [c]
  | d :: l' =>
      if cr_cohort_position c <=? cr_cohort_position d then c :: l
      else d :: insert_by_position c l'
  end.
Fixpoint sort_by_position (l : list CardRecord) : list CardRecord :=
  match l with [] => [] | c :: l' => insert_by_position c (sort_by_position l') end.

Section registry.
Context `{C : Crypto} {T : Type} {MS : MerkleStore T}.

Abbreviation MO := (M (OperatorRegistry T) OperatorError).
Implicit Types (r : OperatorRegistry T).

Definition operator_new (tree : T) : OperatorRegistry T := mk_operator [] tree 0.

Definition with_cards r (cards : list CardRecord) : OperatorRegistry T :=
  mk_operator cards (op_tree r) (op_current_version r).

Definition enroll_card (card_id : Bytes32) (m : SecpPubkey) : MO Z :=
  r ← mget;
  mlift (ensure (negb (existsb (λ c, bytes_eqb (cr_card_id c) card_id) (op_cards r)))
    DuplicateCard);;
  mlift (ensure (negb (existsb (λ c, bool_decide (cr_m c = m)) (op_cards r))) DuplicateM);;
  let position := Z.of_nat (length (op_cards r)) in
  mput (with_cards r (op_cards r ++ [mk_card_record card_id m CardActive position]));;
  mret position.

Definition revoke (card_id : Bytes32) : MO unit :=
  r ← mget;
  cards ← mlift (ok_or (revoke_first card_id (op_cards r)) UnknownCard);
  mput (with_cards r cards).

(** The leaf of a card. *)
Definition card_leaf (c : CardRecord) : Fr := m_packed_of (cr_m c).
Definition insert_card (t : T) (c : CardRecord) : T := (store_insert t (card_leaf c)).2.

Definition rebuild_tree r : OperatorRegistry T :=
  let active := List.filter is_active_card (op_cards r) in
  let ordered := sort_by_position active in
  mk_operator (op_cards r) (foldl insert_card (op_tree r) ordered) (op_current_version r).

Definition publish_cohort : MO (Z * option Fr * Z) :=
  r ← mget;
  version ← mlift (expect (checked_add 64 (op_current_version r) 1));
  mput (mk_operator (op_cards r) (op_tree r) version);;
  let size := Z.of_nat (length (List.filter is_active_card (op_cards r))) in
  mret (version, store_root (op_tree r), size).

Definition personalize (card_id : Bytes32) (m : SecpPubkey) : MO PersonalizationPacket :=
  position ← enroll_card card_id m;
  r ← mget;
  version ← mlift (expect (checked_add 64 (op_current_version r) 1));
  mret (mk_packet card_id m position version).

Definition cohort_root_bytes r : option Bytes32 := fr_to_be_bytes <$> store_root (op_tree r).

(** ** The invariant *)
Record cards_ok (cards : list CardRecord) : Prop := {
  co_ids : NoDup (cr_card_id <$> cards);
  co_keys : NoDup (cr_m <$> cards);
  co_positions i c : cards !! i = Some c → cr_cohort_position c = Z.of_nat i;
}.

(** A card that stays: same identity and place, and never active again once
    revoked. *)
Definition card_kept (c c' : CardRecord) : Prop :=
  cr_card_id c' = cr_card_id c ∧ cr_m c' = cr_m c ∧
  cr_cohort_position c' = cr_cohort_position c ∧
  (cr_status c = Revoked → cr_status c' = Revoked).

Definition cards_kept (cards cards' : list CardRecord) : Prop :=
  ∀ i c, cards !! i = Some c → ∃ c', cards' !! i = Some c' ∧ card_kept c c'.

Inductive op_step r : OperatorRegistry T → Prop :=
| op_enroll id m res r' : enroll_card id m r = (res, r') → op_step r r'
| op_personalize id m res r' : personalize id m r = (res, r') → op_step r r'
| op_revoke id res r' : revoke id r = (res, r') → op_step r r'
| op_rebuild : op_step r (rebuild_tree r)
| op_publish res r' : publish_cohort r = (res, r') → op_step r r'.

#[local] Instance cards_kept_preorder : PreOrder cards_kept.
Proof.
  split.
  - intros l i c H. exists c. done.
  - intros l1 l2 l3 H12 H23 i c H. destruct (H12 _ _ H) as (c2 & H2 & K2).
    destruct (H23 _ _ H2) as (c3 & H3 & K3). exists c3. split; [done|].
    unfold card_kept in *. naive_solver congruence.
Qed.

Lemma existsb_false {A} (f : A → bool) l :
  existsb f l = false → ∀ a, a ∈ l → f a = false.
Proof.
  intros H a Ha. apply not_true_iff_false. intros Hf.
  apply not_true_iff_false in H. apply H, existsb_exists. exists a.
  split; [by apply list_elem_of_In|done].
Qed.

Lemma cards_ok_snoc cards id m :
  cards_ok cards → id ∉ cr_card_id <$> cards → m ∉ cr_m <$> cards →
  cards_ok (cards ++ [mk_card_record id m CardActive (Z.of_nat (length cards))]).
Proof.
  intros [H1 H2 H3] Hid Hm. constructor.
  - rewrite fmap_app. apply list.NoDup_app. split_and!; [done| |apply NoDup_singleton].
    intros x Hx ->%list_elem_of_singleton. by apply Hid.
  - rewrite fmap_app. apply list.NoDup_app. split_and!; [done| |apply NoDup_singleton].
    intros x Hx ->%list_elem_of_singleton. by apply Hm.
  - intros i c [Hc|[Hl Hc]]%lookup_app_Some; [by apply H3|].
    apply list_lookup_singleton_Some in Hc as [Hi <-]. cbn. lia.
Qed.

Lemma enroll_card_cases id m r res r' :
  enroll_card id m r = (res, r') →
  r' = r ∨
  (r' = with_cards r (op_cards r ++ [mk_card_record id m CardActive
                                       (Z.of_nat (length (op_cards r)))]) ∧
   (id ∉ cr_card_id <$> op_cards r) ∧ (m ∉ cr_m <$> op_cards r)).
Proof.
  unfold enroll_card. rewrite M_bind_get, M_bind_lift.
  destruct (existsb (λ c, bytes_eqb (cr_card_id c) id) (op_cards r)) eqn:E1; cbn [negb ensure];
    [intros [= <- <-]; by left|].
  rewrite M_bind_lift.
  destruct (existsb (λ c, bool_decide (cr_m c = m)) (op_cards r)) eqn:E2; cbn [negb ensure];
    [intros [= <- <-]; by left|].
  intros [= <- <-]. right. split; [done|].
  split; intros (c & -> & Hc)%list_elem_of_fmap.
  - apply (existsb_false _ _ E1) in Hc. by rewrite (proj2 (bytes_eqb_eq _ _)) in Hc.
  - apply (existsb_false _ _ E2) in Hc. by rewrite bool_decide_eq_false in Hc.
Qed.

Lemma revoke_first_spec id cards cards' :
  revoke_first id cards = Some cards' →
  cards_kept cards cards' ∧ cr_card_id <$> cards' = cr_card_id <$> cards ∧
  cr_m <$> cards' = cr_m <$> cards ∧
  cr_cohort_position <$> cards' = cr_cohort_position <$> cards.
Proof.
  revert cards'. induction cards as [|c cards IH]; intros cards' H; cbn in H; [done|].
  destruct (bytes_eqb (cr_card_id c) id).
  - injection H as <-. split; [|done]. intros [|i] c0 H0; cbn in H0 |- *.
    + injection H0 as <-. by exists (revoked_card c).
    + exists c0. done.
  - destruct (revoke_first id cards) as [l|]; [|done]. injection H as <-.
    destruct (IH l eq_refl) as (K & E1 & E2 & E3). split; [|cbn; by rewrite E1, E2, E3].
    intros [|i] c0 H0; cbn in H0 |- *; [injection H0 as <-; by exists c|by apply K].
Qed.

Lemma cards_ok_same cards cards' :
  cr_card_id <$> cards' = cr_card_id <$> cards → cr_m <$> cards' = cr_m <$> cards →
  cr_cohort_position <$> cards' = cr_cohort_position <$> cards →
  cards_ok cards → cards_ok cards'.
Proof.
  intros E1 E2 E3 [H1 H2 H3]. constructor; [by rewrite E1|by rewrite E2|].
  intros i c Hc. assert ((cr_cohort_position <$> cards') !! i = Some (cr_cohort_position c)) as H
    by by rewrite list_lookup_fmap, Hc.
  rewrite E3, list_lookup_fmap in H. destruct (cards !! i) as [c0|] eqn:E0; [|done].
  injection H as <-. by apply H3.
Qed.

Lemma enroll_card_step id m r res r' :
  enroll_card id m r = (res, r') →
  cards_kept (op_cards r) (op_cards r') ∧ (cards_ok (op_cards r) → cards_ok (op_cards r')).
Proof.
  intros [->|(-> & Hid & Hm)]%enroll_card_cases; [done|]. split.
  - intros i c Hc. exists c. split; [by apply lookup_app_l_Some|done].
  - intros Hok. by apply cards_ok_snoc.
Qed.

Lemma personalize_state id m r : (personalize id m r).2 = (enroll_card id m r).2.
Proof.
  unfold personalize, mbind, M_bind.
  destruct (enroll_card id m r) as [[p|e|] r2]; cbn; [|done..].
  by destruct (checked_add 64 _ _).
Qed.

Lemma op_step_spec r r' :
  op_step r r' →
  cards_kept (op_cards r) (op_cards r') ∧ (cards_ok (op_cards r) → cards_ok (op_cards r')).
Proof.
  intros [id m res r1 H|id m res r1 H|id res r1 H| |res r1 H].
  - by eapply enroll_card_step.
  - eapply (enroll_card_step id m r (enroll_card id m r).1). rewrite surjective_pairing at 1.
    by rewrite <-personalize_state, H.
  - unfold revoke in H. rewrite M_bind_get, M_bind_lift in H.
    destruct (revoke_first id (op_cards r)) as [cards|] eqn:E; cbn [ok_or] in H;
      injection H as <- <-; [|done].
    apply revoke_first_spec in E as (K & E1 & E2 & E3). split; [done|]. by apply cards_ok_same.
  - done.
  - unfold publish_cohort in H. rewrite M_bind_get, M_bind_lift in H.
    destruct (checked_add 64 _ _); cbn [expect] in H; by injection H as <- <-.
Qed.

(** C31: the cards of the operator registry.  Whatever cards are enrolled,
    personalized or revoked, and however often the tree is rebuilt or the
    cohort published, in any order and with any failures in between: card
    identifiers and master keys stay pairwise distinct, the [i]-th card has
    cohort position [i], and every card keeps its identity, key and position
    and is never active again once revoked. *)
Theorem operator_cards_invariant tree r r' :
  rtc op_step (operator_new tree) r → rtc op_step r r' →
  cards_ok (op_cards r) ∧ cards_kept (op_cards r) (op_cards r').
Proof.
  assert (∀ r r', rtc op_step r r' → cards_kept (op_cards r) (op_cards r') ∧
            (cards_ok (op_cards r) → cards_ok (op_cards r'))) as Hrtc.
  { induction 1 as [x|x y z Hst _ [IH1 IH2]]; [done|].
    apply op_step_spec in Hst as [H1 H2]. split; [by etrans|auto]. }
  intros H1 H2. split; [|by apply Hrtc]. apply (Hrtc _ _ H1).
  constructor; [constructor|constructor|]. intros i c H. by destruct i.
Qed.

(** ** The cohort tree *)
Fixpoint positions_sorted (l : list CardRecord) : Prop :=
  match l with
  | [] => True
  | c :: l' => Forall (λ d, cr_cohort_position c ≤ cr_cohort_position d) l' ∧ positions_sorted l'
  end.

Lemma sort_sorted l : positions_sorted l → sort_by_position l = l.
Proof.
  induction l as [|c l IH]; [done|]. intros [H1 H2]. cbn [sort_by_position]. rewrite IH by done.
  destruct l as [|d l]; [done|]. cbn [insert_by_position].
  apply list.Forall_cons in H1 as [H1 _]. by rewrite (proj2 (Z.leb_le _ _) H1).
Qed.

Lemma sorted_filter f l : positions_sorted l → positions_sorted (List.filter f l).
Proof.
  induction l as [|c l IH]; [done|]. intros [H1 H2]. cbn [List.filter].
  destruct (f c); [|auto]. split; [|auto]. apply list.Forall_forall. intros d Hd.
  apply list_elem_of_In, filter_In in Hd as [Hd _]. apply list_elem_of_In in Hd.
  by apply (proj1 (list.Forall_forall _ _) H1).
Qed.

Lemma positions_from_sorted k l :
  (∀ i c, l !! i = Some c → cr_cohort_position c = Z.of_nat (k + i)) → positions_sorted l.
Proof.
  revert k. induction l as [|c l IH]; intros k H; [done|]. split.
  - apply list.Forall_forall. intros d (i & Hi)%list_elem_of_lookup.
    rewrite (H 0%nat c eq_refl), (H (S i) d Hi). lia.
  - apply (IH (S k)). intros i d Hi. rewrite (H (S i) d Hi). f_equal. lia.
Qed.

Lemma foldl_insert_size t (l : list CardRecord) `{!MerkleStoreLaws T} :
  store_size (foldl insert_card t l) = (store_size t + length l)%nat.
Proof.
  revert t. induction l as [|c l IH]; intros t; cbn [foldl length]; [lia|].
  rewrite IH. unfold insert_card. rewrite store_insert_size. lia.
Qed.

Lemma filter_length_lt {A} (f : A → bool) l :
  length (List.filter f l) = length l ↔ Forall (λ a, f a = true) l.
Proof.
  induction l as [|a l IH]; cbn [List.filter]; [split; [constructor|done]|].
  rewrite list.Forall_cons. destruct (f a); cbn [length].
  - rewrite <-IH. naive_solver lia.
  - pose proof (List.filter_length_le f l). split; [lia|naive_solver].
Qed.

(** Where a card's leaf ends up.  Rebuilding an empty cohort tree inserts
    the active cards in order, so the leaf of an active card is inserted at the
    number of active cards before it: its cohort position, which the card's
    packet promises as the index to claim with, is that index exactly when no
    earlier card has been revoked. *)
Lemma cohort_leaf_index `{!MerkleStoreLaws T} r i c :
  cards_ok (op_cards r) → store_size (op_tree r) = 0%nat →
  op_cards r !! i = Some c → cr_status c = CardActive →
  let before := List.filter is_active_card (take i (op_cards r)) in
  let t := foldl insert_card (op_tree r) before in
  (∃ after, op_tree (rebuild_tree r) = foldl insert_card (insert_card t c) after) ∧
  (store_insert t (card_leaf c)).1 = length before ∧
  (cr_cohort_position c = Z.of_nat (length before) ↔
   Forall (λ d, cr_status d = CardActive) (take i (op_cards r))).
Proof.
  intros Hok He Hi Ha before t.
  assert (positions_sorted (op_cards r)) as Hs by (apply (positions_from_sorted 0), Hok).
  split_and!.
  - exists (List.filter is_active_card (drop (S i) (op_cards r))).
    unfold rebuild_tree. cbn [op_tree]. rewrite sort_sorted by by apply sorted_filter.
    rewrite <-(take_drop_middle _ _ _ Hi), List.filter_app at 1. cbn [List.filter].
    unfold is_active_card at 2. rewrite bool_decide_eq_true_2 by done.
    by rewrite foldl_app.
  - rewrite store_insert_index. unfold t. rewrite foldl_insert_size, He by exact MerkleStoreLaws0. done.
  - rewrite (co_positions _ Hok _ _ Hi).
    assert (length (take i (op_cards r)) = i) as Hl.
    { rewrite length_take. apply lookup_lt_Some in Hi. lia. }
    transitivity (length before = length (take i (op_cards r))); [rewrite Hl; lia|].
    unfold before. rewrite filter_length_lt. apply Forall_iff. intros d. unfold is_active_card.
    apply bool_decide_eq_true.
Qed.
End registry.
