(* ===== verification/RailsOk.v ===== *)
(** * What the disbursement rails guarantee

    What the card's signature means and that the card cannot be made to panic
    or lose its key; when a funder's signatures are accepted; and a claim from
    the funder's header to the relay's two proofs. *)

From Stdlib Require Import ZArith Lia Bool.
From stdpp Require Import base tactics list gmap strings numbers.
From S2P Require Import Prelude Field Types Poseidon RailsTypes RailsCard RailsMultisig RailsRoles.

(** ** Fixed layouts *)
Fixpoint contiguous (off : nat) (fields : list (nat * list byte)) : Prop :=
  match fields with
  | [] => True
  | f :: fields' => f.1 = off ∧ contiguous (off + length f.2) fields'
  end.

Lemma write_contiguous fields : ∀ pre m,
  contiguous (length pre) fields → (length (concat (map snd fields)) ≤ m)%nat →
  foldl (λ out f, splice out f.1 f.2) (pre ++ zeros m) fields
  = pre ++ concat (map snd fields) ++ zeros (m - length (concat (map snd fields))).
Proof.
  induction fields as [|[o l] fields IH]; intros pre m Hc Hm; cbn [foldl map concat] in *.
  - by rewrite app_nil_l, Nat.sub_0_r.
  - destruct Hc as [Ho Hc]. cbn [fst snd] in *. subst o. rewrite length_app in Hm.
    assert (splice (pre ++ zeros m) (length pre) l = (pre ++ l) ++ zeros (m - length l)) as ->.
    { assert (zeros m = zeros (length l) ++ zeros (m - length l)) as E.
      { unfold zeros. rewrite <-replicate_add. f_equal. lia. }
      rewrite E at 1. rewrite splice_app by (done || by rewrite length_zeros). by rewrite app_assoc. }
    rewrite IH by (by rewrite ?length_app || lia). rewrite <-!app_assoc, length_app.
    do 4 f_equal. lia.
Qed.

Lemma write_all_concat n fields :
  contiguous 0 fields → length (concat (map snd fields)) = n →
  write_all n fields = concat (map snd fields).
Proof.
  intros Hc Hn. unfold write_all. etrans; [apply (write_contiguous fields [] n); [done|lia]|].
  by rewrite Hn, Nat.sub_diag, app_nil_l, app_nil_r.
Qed.

(** Reading back the [i]-th field. *)
Lemma concat_field (fields : list (list byte)) i l :
  fields !! i = Some l →
  take (length l) (drop (length (concat (take i fields))) (concat fields)) = l.
Proof.
  intros Hi. rewrite <-(take_drop_middle _ _ _ Hi) at 2. rewrite concat_app. cbn [concat].
  by rewrite drop_app_length, take_app_length.
Qed.

Definition header_fields (h : RoundHeader) : list (list byte) :=
  [rh_round_id h; be_of_Z 8 (rh_cohort_version h); rh_cohort_root h; rh_per_recipient_amount h;
   be_of_Z 8 (rh_cohort_size h); rh_token h; be_of_Z 8 (rh_close_time h);
   rh_claim_contract_address h; rh_chain_id h].

Definition ctx_fields (ctx : VoucherContext) : list (list byte) :=
  [vc_round_id ctx; vc_cohort_root ctx; vc_claim_contract ctx; vc_per_recipient_amount ctx;
   vc_chain_id ctx].

Record ctx_typed (ctx : VoucherContext) : Prop := {
  ct_round_id : length (vc_round_id ctx) = 32%nat;
  ct_cohort_root : length (vc_cohort_root ctx) = 32%nat;
  ct_claim_contract : length (vc_claim_contract ctx) = 20%nat;
  ct_amount : length (vc_per_recipient_amount ctx) = 32%nat;
  ct_chain_id : length (vc_chain_id ctx) = 32%nat;
}.

(** Computes the lengths of concatenated fields. *)
Ltac field_lengths :=
  cbn [take concat map snd]; rewrite ?length_app, ?length_be_of_Z; cbn [length];
  repeat match goal with H : length _ = _ |- _ => rewrite ?H; clear H end; try reflexivity; try lia.

Lemma serialize_fields h :
  header_typed h → serialize_round_header h = concat (header_fields h).
Proof.
  intros []. unfold serialize_round_header.
  rewrite write_all_concat; [done| |field_lengths].
  cbn [contiguous fst snd]. rewrite !length_be_of_Z. split_and!; lia.
Qed.

Lemma length_serialized h :
  header_typed h → length (serialize_round_header h) = SERIALIZED_HEADER_LEN.
Proof. intros H. rewrite serialize_fields by done. destruct H. unfold header_fields. field_lengths. Qed.

(** Reads field [i] of [fields]. *)
Lemma read_field (fields : list (list byte)) i l off n :
  fields !! i = Some l → length l = n → length (concat (take i fields)) = off →
  take n (drop off (concat fields)) = l.
Proof. intros H <- <-. by apply concat_field. Qed.

(** The context a header determines. *)
Definition ctx_of (h : RoundHeader) : VoucherContext :=
  mk_ctx (rh_round_id h) (rh_cohort_root h) (rh_claim_contract_address h)
    (rh_per_recipient_amount h) (rh_chain_id h).

Lemma ctx_of_typed h : header_typed h → ctx_typed (ctx_of h).
Proof. by intros []. Qed.

Lemma ctx_of_agrees h :
  header_typed h → ctx_agrees (serialize_round_header h) (ctx_of h) = Ok tt.
Proof.
  intros Ht. rewrite serialize_fields by done. destruct Ht. unfold ctx_agrees.
  rewrite <-(drop_0 (concat (header_fields h))) at 1.
  rewrite (read_field _ 0 (rh_round_id h) 0 32) by (done || field_lengths).
  rewrite (read_field _ 2 (rh_cohort_root h) 40 32) by (done || (unfold header_fields; field_lengths)).
  rewrite (read_field _ 3 (rh_per_recipient_amount h) 72 32)
    by (done || (unfold header_fields; field_lengths)).
  rewrite (read_field _ 7 (rh_claim_contract_address h) 140 20)
    by (done || (unfold header_fields; field_lengths)).
  rewrite (read_field _ 8 (rh_chain_id h) 160 32) by (done || (unfold header_fields; field_lengths)).
  rewrite !ensure_bind by by apply bytes_eqb_eq. by rewrite (proj2 (bytes_eqb_eq _ _)).
Qed.

Lemma decode_encode_ctx ctx : ctx_typed ctx → decode_ctx (encode_ctx ctx) = ctx.
Proof.
  intros Ht. assert (encode_ctx ctx = concat (ctx_fields ctx)) as ->.
  { unfold encode_ctx. cbn. by rewrite app_nil_r. }
  destruct Ht. unfold decode_ctx. rewrite <-(drop_0 (concat (ctx_fields ctx))) at 1.
  rewrite (read_field _ 0 (vc_round_id ctx) 0 32) by (done || field_lengths).
  rewrite (read_field _ 1 (vc_cohort_root ctx) 32 32) by (done || (unfold ctx_fields; field_lengths)).
  rewrite (read_field _ 2 (vc_claim_contract ctx) 64 20) by (done || (unfold ctx_fields; field_lengths)).
  rewrite (read_field _ 3 (vc_per_recipient_amount ctx) 84 32)
    by (done || (unfold ctx_fields; field_lengths)).
  rewrite (read_field _ 4 (vc_chain_id ctx) 116 32) by (done || (unfold ctx_fields; field_lengths)).
  by destruct ctx.
Qed.

Lemma length_encode_ctx ctx : ctx_typed ctx → length (encode_ctx ctx) = VOUCHER_CTX_LEN.
Proof. intros []. unfold encode_ctx. field_lengths. Qed.

(** A context is what [encode_ctx] makes of its decoding. *)
Lemma encode_decode_ctx b :
  length b = VOUCHER_CTX_LEN → ctx_typed (decode_ctx b) ∧ encode_ctx (decode_ctx b) = b.
Proof.
  unfold VOUCHER_CTX_LEN. intros Hl. split.
  - constructor; cbn; rewrite length_take, ?length_drop; lia.
  - unfold encode_ctx, decode_ctx.
    cbn [vc_round_id vc_cohort_root vc_claim_contract vc_per_recipient_amount vc_chain_id].
    rewrite !app_assoc, (take_take_drop b 32 32). change (32 + 32)%nat with 64%nat.
    rewrite (take_take_drop b 64 20). change (64 + 20)%nat with 84%nat.
    rewrite (take_take_drop b 84 32). change (84 + 32)%nat with 116%nat.
    rewrite (take_take_drop b 116 32).
    apply take_ge. lia.
Qed.

(** ** The card *)
Section card_ok.
Context `{C : Crypto} {SK PK Sig : Type} {SC : Secp SK PK Sig} {SL : SecpLaws SK PK Sig}.
Implicit Types (c : SoftwareSmartcard SK).

(** The key a card signs with, generated on first use. *)
Definition card_key (draw : SK) c : SK := default draw (sc_m c).
Definition keyed (draw : SK) c : SoftwareSmartcard SK := with_key c (card_key draw c).

Lemma with_key_id c m : sc_m c = Some m → with_key c m = c.
Proof. destruct c as [m' k e p]. cbn. intros ->. done. Qed.

Lemma ensure_key_eq draw c : ensure_key draw c = (Ok (card_key draw c), keyed draw c).
Proof.
  unfold ensure_key, keyed, card_key. rewrite M_bind_get. destruct (sc_m c) as [m|] eqn:E; cbn.
  - by rewrite with_key_id.
  - done.
Qed.

(** The checks before the card touches its key, and what it does after. *)
Definition sign_guards c (body : list byte) : outcome CardError VoucherContext :=
  ensure (sc_refuses_prehashed c) PreHashedHMsgRefused;;
  ensure (negb (length body =? 32)%nat) PreHashedHMsgRefused;;
  ensure (length body =? SIGN_VOUCHER_BODY_LEN)%nat BadApdu;;
  let serialized_header := take SERIALIZED_HEADER_LEN (drop 32 body) in
  let ctx := decode_ctx (drop (32 + SERIALIZED_HEADER_LEN) body) in
  ctx_agrees serialized_header ctx;;
  check_auth_token c (header_digest serialized_header) (take 32 body);;
  Ok ctx.

Definition sign_with (m : SK) (ctx : VoucherContext) : outcome CardError (list byte) :=
  derived ← derive_stealth_scalar m (vc_round_id ctx) (vc_claim_contract ctx) (vc_chain_id ctx);
  derived_pubkey ← scalar_to_pubkey (sk_scalar derived);
  let m_pubkey := derive_pubkey m in
  sig ← sign_voucher m (sha256 (voucher_preimage ctx m_pubkey derived_pubkey));
  Ok (pub_x m_pubkey ++ pub_y m_pubkey ++ pub_x derived_pubkey ++ pub_y derived_pubkey
        ++ sig_r sig ++ sig_s sig ++ status_ok).

Lemma handle_sign_run draw body c :
  handle_sign_voucher draw body c =
  match sign_guards c body with
  | Ok ctx => (sign_with (card_key draw c) ctx, keyed draw c)
  | Err e => (Err e, c)
  | Panic => (Panic, c)
  end.
Proof.
  unfold handle_sign_voucher, sign_guards. rewrite M_bind_get.
  do 3 (rewrite M_bind_lift; destruct (ensure _ _) as [[]| |];
    [cbn [mbind outcome_bind]|done..]).
  rewrite M_bind_lift. destruct (ctx_agrees _ _) as [[]| |]; [cbn [mbind outcome_bind]|done..].
  rewrite M_bind_lift.
  destruct (check_auth_token _ _ _) as [[]| |]; [cbn [mbind outcome_bind]|done..].
  unfold mbind at 1, M_bind at 1. rewrite ensure_key_eq. unfold sign_with.
  rewrite M_bind_lift. destruct (derive_stealth_scalar _ _ _ _) as [d| |]; [|done..].
  rewrite M_bind_lift. cbn [mbind outcome_bind].
  destruct (scalar_to_pubkey _) as [p| |]; [|done..].
  rewrite M_bind_lift. cbn [mbind outcome_bind]. by destruct (sign_voucher _ _).
Qed.

Lemma reduce_tag_ok {E} tag :
  ∃ s, @reduce_tag_to_scalar E tag = Ok s ∧ 0 < s < SECP256K1_N ∧
    s = be_to_Z tag mod (SECP256K1_N - 1) + 1.
Proof.
  pose proof (Z.mod_pos_bound (be_to_Z tag) (SECP256K1_N - 1) ltac:(done)) as Hr.
  assert (SECP256K1_N < 256 ^ Z.of_nat 32) as Hn by done.
  unfold reduce_tag_to_scalar. rewrite be_to_of_Z_small by lia.
  rewrite Z.mod_small by lia. eexists. split; [|split; [|done]]; [|lia].
  rewrite assert_bind; [done|]. apply negb_true_iff, Z.eqb_neq. lia.
Qed.

Lemma length_pubkey_xy pk : pubkey_typed (pubkey_to_xy pk).
Proof.
  unfold pubkey_typed, pubkey_to_xy. cbn. rewrite !length_take, !length_drop, length_encoded_point.
  lia.
Qed.

(** The stealth key of a card for a context. *)
Definition stealth_tag (m : SK) (ctx : VoucherContext) : Bytes32 :=
  hmac_sha256 (sk_to_bytes m)
    (RDR_DOMAIN_STEALTH ++ vc_round_id ctx ++ vc_claim_contract ctx ++ vc_chain_id ctx).
Definition stealth_scalar (m : SK) (ctx : VoucherContext) : Z :=
  be_to_Z (stealth_tag m ctx) mod (SECP256K1_N - 1) + 1.
Definition stealth_key (m : SK) (ctx : VoucherContext) : SK := sk_new (stealth_scalar m ctx).

Lemma stealth_ok m ctx :
  0 < stealth_scalar m ctx < SECP256K1_N ∧
  (∀ E, @derive_stealth_scalar SK PK Sig SC E m (vc_round_id ctx) (vc_claim_contract ctx)
     (vc_chain_id ctx) = Ok (stealth_key m ctx)) ∧
  (∀ E, @scalar_to_pubkey SK PK Sig SC E (sk_scalar (stealth_key m ctx))
     = Ok (derive_pubkey (stealth_key m ctx))).
Proof.
  destruct (@reduce_tag_ok unit (stealth_tag m ctx)) as (s & _ & Hs & E0).
  fold (stealth_scalar m ctx) in E0. subst s. split; [done|]. split.
  - intros E. destruct (@reduce_tag_ok E (stealth_tag m ctx)) as (s & H & _ & E0).
    fold (stealth_scalar m ctx) in E0. subst s. unfold derive_stealth_scalar.
    fold (stealth_tag m ctx). by rewrite H.
  - intros E. unfold scalar_to_pubkey. rewrite generator_mul_public. done.
Qed.

(** The response to a voucher request. *)
Definition voucher_response (m derived : SecpPubkey) (sig : EcdsaSignature) : list byte :=
  pub_x m ++ pub_y m ++ pub_x derived ++ pub_y derived ++ sig_r sig ++ sig_s sig ++ status_ok.
Definition voucher_digest (m : SK) (ctx : VoucherContext) : Bytes32 :=
  sha256 (voucher_preimage ctx (derive_pubkey m) (derive_pubkey (stealth_key m ctx))).

Lemma sign_with_eq m ctx :
  sign_with m ctx =
  (sig ← sign_voucher m (voucher_digest m ctx);
   Ok (voucher_response (derive_pubkey m) (derive_pubkey (stealth_key m ctx)) sig)).
Proof.
  destruct (stealth_ok m ctx) as (_ & H1 & H2). unfold sign_with.
  rewrite H1, Ok_bind, H2, Ok_bind. done.
Qed.

Definition ecdsa_typed (g : EcdsaSignature) : Prop :=
  length (sig_r g) = 32%nat ∧ length (sig_s g) = 32%nat.

Lemma sign_voucher_typed m d g : sign_voucher m d = Ok g → ecdsa_typed g.
Proof.
  unfold sign_voucher. intros H. inv_ok H. unfold ecdsa_typed. cbn.
  rewrite length_take, length_drop, length_sig_to_bytes. lia.
Qed.

Lemma decode_response m d g :
  pubkey_typed m → pubkey_typed d → ecdsa_typed g →
  decode_sign_voucher_response (voucher_response m d g) = Ok (m, d, g).
Proof.
  intros [] [] []. unfold decode_sign_voucher_response.
  assert (voucher_response m d g
    = concat [pub_x m; pub_y m; pub_x d; pub_y d; sig_r g; sig_s g; status_ok]) as ->.
  { unfold voucher_response. cbn [concat]. by rewrite app_nil_r. }
  rewrite ensure_bind by (apply Nat.eqb_eq; field_lengths).
  rewrite ensure_bind.
  - rewrite (read_field _ 0 (pub_x m) 0 32) by (done || field_lengths).
    rewrite (read_field _ 1 (pub_y m) 32 32) by (done || field_lengths).
    rewrite (read_field _ 2 (pub_x d) 64 32) by (done || field_lengths).
    rewrite (read_field _ 3 (pub_y d) 96 32) by (done || field_lengths).
    rewrite (read_field _ 4 (sig_r g) 128 32) by (done || field_lengths).
    rewrite (read_field _ 5 (sig_s g) 160 32) by (done || field_lengths).
    by destruct m, d, g.
  - apply bytes_eqb_eq.
    rewrite <-(read_field [pub_x m; pub_y m; pub_x d; pub_y d; sig_r g; sig_s g; status_ok]
                 6 status_ok 192 2) at 2 by (done || field_lengths).
    symmetry. apply take_ge. rewrite length_drop. field_lengths.
Qed.

(** What the fields of a serialized header tell the card about a context. *)
Definition header_binds (serialized_header : list byte) (ctx : VoucherContext) : Prop :=
  take 32 serialized_header = vc_round_id ctx ∧
  take 32 (drop 40 serialized_header) = vc_cohort_root ctx ∧
  take 32 (drop 72 serialized_header) = vc_per_recipient_amount ctx ∧
  take 20 (drop 140 serialized_header) = vc_claim_contract ctx ∧
  take 32 (drop 160 serialized_header) = vc_chain_id ctx.

Lemma ctx_agrees_Ok h ctx u : ctx_agrees h ctx = Ok u ↔ header_binds h ctx.
Proof.
  destruct u. unfold ctx_agrees, header_binds. split.
  - intros H. inv_ok H. by rewrite <-!bytes_eqb_eq.
  - rewrite <-!bytes_eqb_eq. intros (H1 & H2 & H3 & H4 & H5).
    rewrite !ensure_bind by done. by rewrite H5.
Qed.

(** What a card that wants an authorization got for a header. *)
Definition authorized c (h_header token : Bytes32) : Prop :=
  sc_expects_auth_token c = true →
  ∃ key, sc_companion_pre_key c = Some key ∧ token = derive_auth_token key h_header.

Lemma check_auth_token_Ok c h token u :
  check_auth_token c h token = Ok u ↔ authorized c h token.
Proof.
  destruct u. unfold check_auth_token, authorized. destruct (sc_expects_auth_token c); [|done].
  split.
  - intros H _. inv_ok H. apply bytes_eqb_eq in H. eauto.
  - intros (key & -> & ->); [done|]. cbn. by rewrite (proj2 (bytes_eqb_eq _ _)).
Qed.

Lemma sign_guards_Ok c body ctx :
  sign_guards c body = Ok ctx ↔
  sc_refuses_prehashed c = true ∧
  ∃ token header, length token = 32%nat ∧ length header = SERIALIZED_HEADER_LEN ∧
    ctx_typed ctx ∧ body = token ++ header ++ encode_ctx ctx ∧
    header_binds header ctx ∧ authorized c (header_digest header) token.
Proof.
  unfold sign_guards. split.
  - intros H. inv_ok H. split; [done|]. exists (take 32 body), (take SERIALIZED_HEADER_LEN (drop 32 body)).
    apply Nat.eqb_eq in Ha1. apply ctx_agrees_Ok in Ha2. apply check_auth_token_Ok in Ha3.
    unfold SIGN_VOUCHER_BODY_LEN, SERIALIZED_HEADER_LEN, VOUCHER_CTX_LEN in *.
    destruct (encode_decode_ctx (drop (32 + 192) body)) as [H1 H2].
    { rewrite length_drop. unfold VOUCHER_CTX_LEN. lia. }
    change 224%nat with (32 + 192)%nat.
    rewrite !length_take, length_drop, H2. split_and!; try done; try lia.
    rewrite <-drop_drop, !take_drop. done.
  - intros (Hp & token & header & Ht & Hh & Hc & -> & Hb & Ha).
    rewrite ensure_bind by done.
    assert (length (token ++ header ++ encode_ctx ctx) = SIGN_VOUCHER_BODY_LEN) as Hl.
    { rewrite !length_app, Ht, Hh, length_encode_ctx by done. done. }
    rewrite Hl. do 2 (rewrite ensure_bind by done).
    rewrite <-(drop_drop _ SERIALIZED_HEADER_LEN 32).
    rewrite !(drop_app_length' token (header ++ encode_ctx ctx) 32) by done.
    rewrite (take_app_length' token _ 32) by done.
    rewrite (take_app_length' header _ SERIALIZED_HEADER_LEN) by done.
    rewrite (drop_app_length' header _ SERIALIZED_HEADER_LEN), decode_encode_ctx by done.
    rewrite (proj2 (ctx_agrees_Ok _ _ tt)), Ok_bind by done.
    by rewrite (proj2 (check_auth_token_Ok _ _ _ tt)).
Qed.

Lemma transmit_sign draw apdu cla p1 p2 body c :
  split_apdu apdu = Ok (cla, INS_SIGN_VOUCHER, p1, p2, body) →
  transmit draw apdu c = handle_sign_voucher draw body c.
Proof. intros Hs. unfold transmit. rewrite M_bind_lift, Hs. reflexivity. Qed.

(** C27: what a card's signature means.  When the card answers a voucher
    request, the request carried a whole header and a context equal to the
    header's own fields, authorized by the companion's key for exactly that
    header if the card asks for it; the answer holds the card's public key,
    the public key of the stealth key it derives for that round, contract and
    chain, and its signature over the message that binds all of them.  The
    card keeps its key, or takes the one drawn if it had none. *)
Theorem card_binds_voucher draw apdu cla p1 p2 body c resp c' :
  split_apdu apdu = Ok (cla, INS_SIGN_VOUCHER, p1, p2, body) →
  transmit draw apdu c = (Ok resp, c') →
  ∃ token header ctx g,
    let m := card_key draw c in
    body = token ++ header ++ encode_ctx ctx ∧ length token = 32%nat ∧
    length header = SERIALIZED_HEADER_LEN ∧ header_binds header ctx ∧
    authorized c (header_digest header) token ∧
    sign_voucher m (voucher_digest m ctx) = Ok g ∧
    decode_sign_voucher_response resp = Ok (derive_pubkey m, derive_pubkey (stealth_key m ctx), g) ∧
    0 < stealth_scalar m ctx < SECP256K1_N ∧ c' = with_key c m.
Proof.
  intros Hs. rewrite (transmit_sign _ _ _ _ _ _ _ Hs), handle_sign_run. destruct (sign_guards c body) as [ctx| |] eqn:Eg; [|done..].
  apply sign_guards_Ok in Eg as (_ & token & header & Ht & Hh & Hc & Hb & Hbind & Ha).
  rewrite sign_with_eq. intros [= Hr <-]. inv_ok Hr.
  exists token, header, ctx, a. split_and!; try done.
  - apply decode_response; [apply length_pubkey_xy..|by eapply sign_voucher_typed].
  - apply stealth_ok.
  - apply stealth_ok.
Qed.

Lemma split_apdu_no_panic apdu : split_apdu apdu ≠ Panic.
Proof.
  destruct apdu as [|cla [|ins [|p1 [|p2 [|b4 rest]]]]]; cbn [split_apdu]; try done.
  destruct (bool_decide (cla = CLA)); cbn [ensure mbind outcome_bind]; [|done].
  destruct (match rest with b5 :: b6 :: _ => _ | _ => _ end) as [lc off].
  by destruct (Z.of_nat _ =? _).
Qed.

Lemma sign_guards_no_panic c body : sign_guards c body ≠ Panic.
Proof.
  unfold sign_guards, ctx_agrees, check_auth_token.
  repeat match goal with
    | |- context [ensure ?b _] => destruct b; cbn [ensure mbind outcome_bind]; try done
    end.
  destruct (sc_expects_auth_token c); [|done]. destruct (sc_companion_pre_key c); [|done].
  by cbn; destruct (bytes_eqb _ _).
Qed.

Lemma sign_with_cases m ctx :
  (∃ r, sign_with m ctx = Ok r) ∨ ∃ e, sign_with m ctx = Err (SignFailure e).
Proof.
  rewrite sign_with_eq. unfold sign_voucher. pose proof (sign_prehash_no_panic m (voucher_digest m ctx)).
  destruct (sign_prehash m (voucher_digest m ctx)); cbn; [eauto..|done].
Qed.

(** The card on any input.  Whatever bytes are transmitted, the card does
    not panic, never replaces a key it has, and changes at all only by taking
    the drawn key when it has none: on a request to generate one, or on a
    voucher request that passed every check, answered or failed in the signing
    itself; every other error leaves it as it was. *)
Lemma card_robust draw apdu c res c' :
  transmit draw apdu c = (res, c') →
  res ≠ Panic ∧ (c' = c ∨ (sc_m c = None ∧ c' = with_key c draw)) ∧
  (∀ e, res = Err e → c' = c ∨ ∃ s, e = SignFailure s).
Proof.
  unfold transmit. rewrite M_bind_lift. pose proof (split_apdu_no_panic apdu) as Hsp.
  destruct (split_apdu apdu) as [[[[[cla ins] p1] p2] body]|e|]; [|intros [= <- <-]; auto|done].
  assert (keyed draw c = c ∨ (sc_m c = None ∧ keyed draw c = with_key c draw)) as Hk.
  { unfold keyed, card_key. destruct (sc_m c) as [m|] eqn:E; [left; by apply with_key_id|by right]. }
  case_bool_decide; [|case_bool_decide; [|case_bool_decide]].
  - unfold handle_generate_key, mbind, M_bind. rewrite ensure_key_eq. intros [= <- <-]. done.
  - unfold handle_export_key. rewrite M_bind_get, M_bind_lift.
    destruct (sc_m c) as [m|]; intros [= <- <-]; auto.
  - rewrite handle_sign_run. pose proof (sign_guards_no_panic c body) as Hg.
    destruct (sign_guards c body) as [ctx|e|]; [|intros [= <- <-]; auto|done].
    intros [= <- <-].
    destruct (sign_with_cases (card_key draw c) ctx) as [[r ->]|[e ->]];
      (split; [done|]); (split; [done|]); intros e' [= <-]; eauto.
  - intros [= <- <-]. auto.
Qed.
End card_ok.

(** The card reads what the companion encodes. *)
Lemma split_encode_sign_voucher token header ctx :
  length token = 32%nat → length header = SERIALIZED_HEADER_LEN → ctx_typed ctx →
  split_apdu (encode_sign_voucher token header ctx)
  = Ok (CLA, INS_SIGN_VOUCHER, x00, x00, token ++ header ++ encode_ctx ctx).
Proof.
  intros Ht Hh Hc. unfold encode_sign_voucher.
  assert (length (token ++ header ++ encode_ctx ctx) = 372%nat) as Hl
    by (rewrite !length_app, Ht, Hh, length_encode_ctx by done; done).
  rewrite Hl. cbn [app split_apdu]. rewrite ensure_bind by done.
  change (bool_decide (x00 = x00)) with true. cbn [length]. rewrite Hl.
  rewrite ensure_bind by (vm_compute; reflexivity). done.
Qed.

(** ** The funder *)
Section funder_ok.
Context `{C : Crypto} {L : CryptoLaws C}.
Context {SK PK Sig : Type} {SC : Secp SK PK Sig} {SL : SecpLaws SK PK Sig}.

(** The recovery byte has no room for a reduced [x]. *)
Definition unreduced (sk : SK) (digest : Bytes32) : Prop :=
  (sign_prehash_recoverable sk digest).2 = false.

Lemma sign_digest_signer sk d : ms_signer (sign_digest sk d) = signer_address sk.
Proof.
  unfold sign_digest. destruct (sign_prehash_recoverable sk d) as [[g odd] red].
  by destruct (normalize_s g).
Qed.

Lemma sign_digest_typed sk d : multisig_typed (sign_digest sk d).
Proof.
  split.
  - rewrite sign_digest_signer. unfold signer_address, address_from_verifying_key.
    by rewrite length_drop, length_keccak256.
  - unfold sign_digest. destruct (sign_prehash_recoverable sk d) as [[g odd] red].
    by destruct (normalize_s g); cbn [ms_signature]; rewrite length_app, length_sig_to_bytes.
Qed.

Lemma recovery_byte odd :
  let v := byte_of_Z (27 + Z.b2z odd) in
  (byte_Z v = 27 ∨ byte_Z v = 28) ∧ (byte_Z v =? 28) = odd.
Proof. by destruct odd; vm_compute; auto. Qed.

Lemma signs_at d addr g odd vk :
  recover_from_prehash d g odd false = Some vk → address_from_verifying_key vk = addr →
  signs d (mk_multisig addr (sig_to_bytes g ++ [byte_of_Z (27 + Z.b2z odd)])).
Proof.
  intros Hr Ha. destruct (recovery_byte odd) as [Hv Ho].
  exists (byte_of_Z (27 + Z.b2z odd)), g, vk. cbn [ms_signature ms_signer].
  rewrite lookup_app_r by by rewrite length_sig_to_bytes.
  rewrite length_sig_to_bytes, take_app_length' by by rewrite length_sig_to_bytes.
  rewrite sig_from_to_bytes, Ho. done.
Qed.

Lemma sign_digest_signs sk d : unreduced sk d → signs d (sign_digest sk d).
Proof.
  unfold unreduced, sign_digest. pose proof (recover_signed sk d) as Hs.
  destruct (sign_prehash_recoverable sk d) as [[g odd] red]. cbn [snd]. intros ->.
  destruct (normalize_s g) as [low|] eqn:En.
  - apply (signs_at _ _ _ _ (public_key sk)); [|done]. by rewrite (recover_normalized _ g).
  - by apply (signs_at _ _ _ _ (public_key sk)).
Qed.

Lemma with_multisig_Ok signers owners k maddr cc dest f :
  with_multisig signers owners k maddr cc dest = Ok f ↔
  (0 < k)%nat ∧ (k ≤ length signers)%nat ∧
  Forall (λ sk, signer_address sk ∈ owners) signers ∧
  f = mk_funder signers cc dest owners k maddr.
Proof.
  unfold with_multisig.
  pose proof (for_each_checks (λ sk, ensure (existsb (λ o, bytes_eqb o (signer_address sk)) owners)
    (ThresholdConfig "signer not in funder_owners")) signers) as Hl.
  assert (Forall (λ sk, ensure (existsb (λ o, bytes_eqb o (signer_address sk)) owners)
      (ThresholdConfig "signer not in funder_owners") = Ok tt) signers
    ↔ Forall (λ sk, signer_address sk ∈ owners) signers) as Hf.
  { apply Forall_iff. intros sk. by rewrite ensure_Ok, existsb_bytes_eqb. }
  split.
  - intros H. apply bind_Ok in H as (u1 & H1%ensure_Ok & H). apply bind_Ok in H as (u2 & H2%ensure_Ok & H).
    apply bind_Ok in H as ([] & H3 & H). inv_ok H. reflect_bools. split_and!; [lia|lia| |done].
    by apply Hf, Hl.
  - intros (H1 & H2 & H3 & ->).
    rewrite ensure_bind by (apply negb_true_iff, Nat.eqb_neq; lia).
    rewrite ensure_bind by (apply negb_true_iff, Nat.ltb_ge; lia).
    by rewrite (proj2 Hl) by by apply Hf.
Qed.

(** The signatures a funder puts on a digest. *)
Definition funder_sigs (f : Funder SK) (digest : Bytes32) : list MultiSignature :=
  map (λ sk, sign_digest sk digest) (take (fu_threshold f) (fu_multisig_signers f)).

Lemma funder_sigs_typed f d : Forall multisig_typed (funder_sigs f d).
Proof. apply Forall_fmap, list.Forall_forall. intros sk _. apply sign_digest_typed. Qed.

Lemma funder_sigs_signers f d :
  ms_signer <$> funder_sigs f d = signer_address <$> take (fu_threshold f) (fu_multisig_signers f).
Proof.
  unfold funder_sigs. rewrite <-list_fmap_compose. apply list_fmap_ext. intros i sk _.
  apply sign_digest_signer.
Qed.

(** Decoding and checking a threshold signature, as the companion does. *)
Definition accepts (bytes : list byte) (digest : Bytes32) (owners : list Bytes20) (k : nat) : Prop :=
  ∃ sigs, decode_threshold bytes k = Ok sigs ∧ verify_threshold digest sigs owners k = Ok tt.

Lemma funder_accepted signers owners k maddr cc dest f d :
  with_multisig signers owners k maddr cc dest = Ok f →
  Forall (λ sk, unreduced sk d) (take k signers) →
  accepts (sign_with_threshold f d) d owners k ↔
  NoDup (signer_address <$> take k signers) ∧ (k < 256)%nat.
Proof.
  intros (H0 & Hk & Ho & ->)%with_multisig_Ok Hu. unfold accepts, sign_with_threshold.
  set (f := mk_funder signers cc dest owners k maddr). fold (funder_sigs f d).
  assert (length (funder_sigs f d) = k) as Hl.
  { unfold funder_sigs. cbn [f fu_threshold fu_multisig_signers]. rewrite length_map, length_take. lia. }
  pose proof (funder_sigs_typed f d) as Ht. pose proof (funder_sigs_signers f d) as Hs.
  cbn [f fu_threshold fu_multisig_signers] in Hs. rewrite <-Hs. split.
  - intros (sigs & (Hls & Hlt & Hty & E)%decode_threshold_Ok & Hv).
    assert (decode_threshold (encode_threshold (funder_sigs f d)) k = Ok sigs) as D1.
    { rewrite E. apply decode_threshold_Ok. done. }
    assert (decode_threshold (encode_threshold (funder_sigs f d)) k = Ok (funder_sigs f d)) as D2.
    { apply decode_threshold_Ok. done. }
    rewrite D1 in D2. injection D2 as ->. by apply verify_threshold_Ok in Hv as (_ & Hn & _).
  - intros [Hn Hlt]. exists (funder_sigs f d).
    split; [by apply decode_threshold_Ok|]. apply verify_threshold_Ok. split; [done|].
    split; [done|]. apply Forall_fmap, list.Forall_forall. intros sk Hsk.
    cbn [f fu_threshold fu_multisig_signers] in Hsk. split.
    + cbn beta. rewrite sign_digest_signer.
      apply (proj1 (list.Forall_forall (λ sk, signer_address sk ∈ owners) _) Ho).
      by eapply subseteq_take.
    + apply sign_digest_signs. by eapply (proj1 (list.Forall_forall _ _) Hu).
Qed.

(** When a funder's headers are accepted.  For a funder the constructor
    accepts, signing a header succeeds, and the companion's check of the
    result succeeds exactly when the first [threshold] signers have distinct
    addresses and the threshold fits the count byte; the constructor checks
    neither.  (The recovery byte cannot tell the rare signatures whose [x] was
    reduced, which are excluded.) *)
Lemma funder_header_accepted signers owners k maddr cc dest f header :
  with_multisig signers owners k maddr cc dest = Ok f →
  Forall (λ sk, unreduced sk (h_header header)) (take k signers) →
  ∃ bytes, sign_round_header f header = Ok bytes ∧
    (accepts bytes (h_header header) owners k ↔
     NoDup (signer_address <$> take k signers) ∧ (k < 256)%nat).
Proof.
  intros Hf Hu. exists (sign_with_threshold f (h_header header)).
  split; [|by apply (funder_accepted signers owners k maddr cc dest f)].
  apply with_multisig_Ok in Hf as (H0 & _ & _ & ->). unfold sign_round_header.
  rewrite funder_h_header_parity, ensure_bind; [done|]. cbn [fu_threshold]. apply negb_true_iff, Nat.eqb_neq. lia.
Qed.
End funder_ok.
