(* ===== verification/RailsCircuits.v ===== *)
(** * Disbursement rails: the claim and withdraw circuits

    Model of [circuits/claim/src/main.nr], [circuits/withdraw/src/main.nr],
    [circuits/lib/src] and of the inputs [adapters/bb_prover.rs] gives them.  A
    circuit is the conjunction of its assertions, as a boolean function of its
    inputs.  The Poseidon hashes of [hasher.nr] are those of [poseidon.rs]: the
    two libraries implement one function.  ECDSA verification, a builtin of the
    proving system, is the class [NoirEcdsa]. *)

From Stdlib Require Import ZArith Lia Bool.
From stdpp Require Import base tactics list gmap strings numbers.
From S2P Require Import Prelude Field Types Poseidon RailsHash RailsTypes RailsCard RailsMultisig RailsRoles RailsOk.

(** ** The inputs *)
Definition COHORT_DEPTH : nat := 20.
Definition POOL_DEPTH : nat := 32.

(** The public and private inputs of the two circuits, in the order of their
    parameters; a path is padded to the depth of its tree. *)
Record ClaimInput : Type := mk_claim_input {
  ci_round_id_hi : Fr;
  ci_round_id_lo : Fr;
  ci_cohort_root : Fr;
  ci_chain_id_hi : Fr;
  ci_chain_id_lo : Fr;
  ci_destination : Fr;
  ci_amount : Fr;
  ci_nullifier : Fr;
  ci_claim_contract_address : Fr;
  ci_relay_submitter : Fr;
  ci_derived_pubkey : Limbs;
  ci_m : Limbs;
  ci_signature_r : list byte;
  ci_signature_s : list byte;
  ci_proof_length : nat;
  ci_leaf_index_bits : list bool;
  ci_merkle_path : list Fr;
}.

Record WithdrawInput : Type := mk_withdraw_input {
  wi_pool_root : Fr;
  wi_claim_nullifier : Fr;
  wi_token : Fr;
  wi_amount : Fr;
  wi_recipient : Fr;
  wi_m : Limbs;
  wi_derived_pubkey : Limbs;
  wi_round_id_hi : Fr;
  wi_round_id_lo : Fr;
  wi_chain_id_hi : Fr;
  wi_chain_id_lo : Fr;
  wi_claim_contract : Fr;
  wi_proof_length : nat;
  wi_leaf_index_bits : list bool;
  wi_merkle_path : list Fr;
}.

Definition pad_path (D : nat) (siblings : list Bytes32) (indices : list byte)
  : list Fr * list bool * nat :=
  let proof_length := length siblings in
  let padded_siblings := resize D fr_zero (map rails_fr_from_be_bytes siblings) in
  let padded_bits := resize D Byte.x00 indices in
  (padded_siblings, map (λ b, negb (byte_Z b =? 0)) padded_bits, proof_length).

Definition claim_input (w : ClaimWitness) : ClaimInput :=
  let '(merkle_path, leaf_index_bits, proof_length) :=
    pad_path COHORT_DEPTH (mp_siblings (cw_merkle_path w)) (mp_indices (cw_merkle_path w)) in
  mk_claim_input (cw_round_id_hi w) (cw_round_id_lo w) (cw_cohort_root w) (cw_chain_id_hi w)
    (cw_chain_id_lo w) (cw_destination w) (cw_amount w) (cw_nullifier w)
    (cw_claim_contract_address w) (cw_relay_submitter w) (cw_derived_pubkey w) (cw_m w)
    (cw_signature_r w) (cw_signature_s w) proof_length leaf_index_bits merkle_path.

Definition withdraw_input (w : PoolWithdrawWitness) : WithdrawInput :=
  let '(merkle_path, leaf_index_bits, proof_length) :=
    pad_path POOL_DEPTH (mp_siblings (pw_merkle_path w)) (mp_indices (pw_merkle_path w)) in
  mk_withdraw_input (pw_pool_root w) (pw_claim_nullifier w) (pw_token w) (pw_amount w)
    (pw_recipient w) (pw_m w) (pw_derived_pubkey w) (pw_round_id_hi w) (pw_round_id_lo w)
    (pw_chain_id_hi w) (pw_chain_id_lo w) (pw_claim_contract w) proof_length leaf_index_bits
    merkle_path.

(** ** [limbs.nr] *)

(** [x.to_be_bytes::<N>()]: the bytes, and the assertion that [x] fits them. *)
Definition field_bytes (n : nat) (x : Fr) : list byte := be_of_Z n (fr_val x).
Definition field_fits (n : nat) (x : Fr) : bool := fr_val x <? 256 ^ Z.of_nat n.

Definition assert_lt_2_128 (x : Fr) : bool := field_fits 16 x.
Definition assert_lt_2_160 (x : Fr) : bool := field_fits 20 x.
Definition limbs_to_be_bytes_32 (hi lo : Fr) : list byte := field_bytes 16 hi ++ field_bytes 16 lo.
(** The range checks of the four limbs of a key. *)
Definition limbs_lt_2_128 (l : Limbs) : bool :=
  assert_lt_2_128 (lb_x_hi l) && assert_lt_2_128 (lb_x_lo l)
  && assert_lt_2_128 (lb_y_hi l) && assert_lt_2_128 (lb_y_lo l).
Definition limbs_x (l : Limbs) : list byte := limbs_to_be_bytes_32 (lb_x_hi l) (lb_x_lo l).
Definition limbs_y (l : Limbs) : list byte := limbs_to_be_bytes_32 (lb_y_hi l) (lb_y_lo l).

(** ** [sha256_voucher.nr] *)
Definition PADDED_LEN : nat := 320.
Definition NUM_BLOCKS : nat := 5.

Definition sha256_308 (input : list byte) : list byte :=
  let padded := write_all PADDED_LEN
    [(0%nat, input); (308%nat, [Byte.x80]); (318%nat, [Byte.x09]); (319%nat, [Byte.xa0])] in
  let state := foldl (λ state block_idx,
    let base := (block_idx * 64)%nat in
    let w := map (λ i, let b := (base + i * 4)%nat in
      Z.lor (Z.lor (Z.lor (Z.shiftl (bat padded b) 24) (Z.shiftl (bat padded (b + 1)) 16))
        (Z.shiftl (bat padded (b + 2)) 8)) (bat padded (b + 3))) (seq 0 16) in
    Sha256.compression w state) Sha256.H0 (seq 0 NUM_BLOCKS) in
  concat (map (λ s, [byte_of_Z (Z.shiftr s 24); byte_of_Z (Z.land (Z.shiftr s 16) 0xff);
    byte_of_Z (Z.land (Z.shiftr s 8) 0xff); byte_of_Z (Z.land s 0xff)]) state).

(** ** [keccak.nr] *)
Definition RATE_BYTES : nat := 136.
Definition RATE_LANES : nat := 17.

(** The loop that reads a lane, with its running multiplier, and the one that
    writes it out. *)
Definition read_lane (block : list byte) (lane_idx : nat) : Z :=
  (foldl (λ '(lane, mult) b,
    (lane + bat block (lane_idx * 8 + b) * mult, if (b <? 7)%nat then mult * 256 else mult))
    (0, 1) (seq 0 8)).1.
Definition write_lane (lane : Z) : list byte :=
  (foldl (λ '(out, lane) _, (out ++ [byte_of_Z (Z.land lane 0xff)], lane / 256)) ([], lane)
    (seq 0 8)).1.

Definition keccak256_64 (input : list byte) : list byte :=
  let block := write_all RATE_BYTES
    [(0%nat, input); (64%nat, [Byte.x01]); ((RATE_BYTES - 1)%nat, [Byte.x80])] in
  let state := map (λ lane_idx, if (lane_idx <? RATE_LANES)%nat
    then Z.lxor 0 (read_lane block lane_idx) else 0) (seq 0 25) in
  let state := Keccak.f1600 state in
  concat (map (λ i, write_lane (zat state i)) (seq 0 4)).

(** ** [ecdsa_secp256k1.nr] *)

(** [std::ecdsa_secp256k1::verify_signature]. *)
Class NoirEcdsa : Type := {
  verify_signature : list byte → list byte → list byte → list byte → bool;
}.

Definition SECP256K1_HALF_N : list byte :=
  be_of_Z 32 0x7fffffffffffffffffffffffffffffff5d576e7357a4501ddfe92f46681b20a0.

(** Documented behaviour of [k256] and of the builtin: a signature of a digest,
    in its low-[s] form, verifies under the signer's key, and [normalize_s]
    leaves [s] at most half the order. *)
Class NoirEcdsaLaws (SK PK Sig : Type) {SC : Secp SK PK Sig} {NE : NoirEcdsa} : Prop := {
  verify_signed sk d g : length d = 32%nat → sign_prehash sk d = Ok g →
    let p := encoded_point (public_key sk) in
    verify_signature (take 32 (drop 1 p)) (take 32 (drop 33 p))
      (sig_to_bytes (default g (normalize_s g))) d = true;
  normalized_low g : be_to_Z (drop 32 (sig_to_bytes (default g (normalize_s g)))) ≤ be_to_Z SECP256K1_HALF_N;
}.

Definition assert_canonical_s (s : list byte) : bool :=
  (foldl (λ '(decided, s_le) i,
    let s_b := bat s i in
    let h_b := bat SECP256K1_HALF_N i in
    let s_lt := s_b <? h_b in
    let s_gt := h_b <? s_b in
    let first_diff_gt := negb decided && s_gt in
    (decided || s_lt || s_gt, s_le && negb first_diff_gt)) (false, true) (seq 0 32)).2.

Section circuits.
Context `{C : Crypto} {NE : NoirEcdsa}.

Definition verify_ecdsa (m_x_bytes m_y_bytes h_msg signature_r signature_s : list byte) : bool :=
  verify_signature m_x_bytes m_y_bytes (signature_r ++ signature_s) h_msg
  && assert_canonical_s signature_s.

(** ** [merkle.nr] *)
(** One round of the loop of [binary_merkle_root]. *)
Definition noir_step (depth : nat) (indices : list bool) (siblings : list Fr) (node : Fr) (i : nat)
  : Fr :=
  if (i <? depth)%nat then
    let sibling := fr_at siblings i in
    let '(left_, right_) := if negb (default false (indices !! i))
                            then (node, sibling) else (sibling, node) in
    poseidon_circom [left_; right_]
  else node.
Definition noir_merkle_root (MAX_DEPTH : nat) (leaf : Fr) (depth : nat) (indices : list bool)
  (siblings : list Fr) : Fr :=
  foldl (noir_step depth indices siblings) leaf (seq 0 MAX_DEPTH).

Definition verify_membership_cohort (leaf root : Fr) (proof_length : nat)
  (path_indices : list bool) (path_elements : list Fr) : bool :=
  fr_eqb (noir_merkle_root COHORT_DEPTH leaf proof_length path_indices path_elements) root.
Definition verify_membership_pool (leaf root : Fr) (proof_length : nat)
  (path_indices : list bool) (path_elements : list Fr) : bool :=
  fr_eqb (noir_merkle_root POOL_DEPTH leaf proof_length path_indices path_elements) root.

Definition limbs_m_packed (l : Limbs) : Fr :=
  hash_m_packed (lb_x_hi l) (lb_x_lo l) (lb_y_hi l) (lb_y_lo l).
Definition limbs_derived_packed (l : Limbs) : Fr :=
  hash_derived_pubkey_packed (lb_x_hi l) (lb_x_lo l) (lb_y_hi l) (lb_y_lo l).

(** ** The claim circuit *)
Definition DOMAIN_VOUCHER : list byte :=
  be_of_Z 32 0x55b4fe970348585b0554f6945943769398a8ed6ab60c65893ed8e7f448f6c095.

Definition claim_ranges (i : ClaimInput) : bool :=
  assert_lt_2_128 (ci_round_id_hi i) && assert_lt_2_128 (ci_round_id_lo i)
  && assert_lt_2_128 (ci_chain_id_hi i) && assert_lt_2_128 (ci_chain_id_lo i)
  && limbs_lt_2_128 (ci_m i) && limbs_lt_2_128 (ci_derived_pubkey i)
  && assert_lt_2_160 (ci_destination i) && assert_lt_2_160 (ci_claim_contract_address i)
  && assert_lt_2_160 (ci_relay_submitter i).

Definition claim_preimage (i : ClaimInput) : list byte :=
  write_all 308
    [(0%nat, DOMAIN_VOUCHER);
     (32%nat, limbs_to_be_bytes_32 (ci_round_id_hi i) (ci_round_id_lo i));
     (64%nat, field_bytes 32 (ci_cohort_root i));
     (96%nat, limbs_to_be_bytes_32 (ci_chain_id_hi i) (ci_chain_id_lo i));
     (128%nat, limbs_x (ci_m i)); (160%nat, limbs_y (ci_m i));
     (192%nat, limbs_x (ci_derived_pubkey i)); (224%nat, limbs_y (ci_derived_pubkey i));
     (256%nat, field_bytes 32 (ci_amount i));
     (288%nat, field_bytes 20 (ci_claim_contract_address i))].

(** The last twenty bytes of a digest, accumulated in the field. *)
Definition dest_acc (digest : list byte) : Fr :=
  foldl (λ acc i, fr_add (fr_mul acc (fr_of_Z 256)) (fr_of_Z (bat digest (12 + i)))) fr_zero (seq 0 20).

Definition claim_circuit (i : ClaimInput) : bool :=
  let m_packed := limbs_m_packed (ci_m i) in
  let h_msg := sha256_308 (claim_preimage i) in
  let dpk_keccak := keccak256_64 (limbs_x (ci_derived_pubkey i) ++ limbs_y (ci_derived_pubkey i)) in
  let computed_nullifier := hash_claim_nullifier m_packed
    (limbs_derived_packed (ci_derived_pubkey i))
    (pack_round_id (ci_round_id_hi i) (ci_round_id_lo i)) (ci_claim_contract_address i)
    (pack_chain_id (ci_chain_id_hi i) (ci_chain_id_lo i)) in
  claim_ranges i
  && verify_membership_cohort m_packed (ci_cohort_root i) (ci_proof_length i)
       (ci_leaf_index_bits i) (ci_merkle_path i)
  && verify_ecdsa (limbs_x (ci_m i)) (limbs_y (ci_m i)) h_msg (ci_signature_r i) (ci_signature_s i)
  && fr_eqb (ci_destination i) (dest_acc dpk_keccak)
  && fr_eqb (ci_nullifier i) computed_nullifier.

(** ** The withdraw circuit *)
Definition withdraw_ranges (i : WithdrawInput) : bool :=
  limbs_lt_2_128 (wi_m i) && limbs_lt_2_128 (wi_derived_pubkey i)
  && assert_lt_2_128 (wi_round_id_hi i) && assert_lt_2_128 (wi_round_id_lo i)
  && assert_lt_2_128 (wi_chain_id_hi i) && assert_lt_2_128 (wi_chain_id_lo i)
  && assert_lt_2_160 (wi_claim_contract i) && assert_lt_2_160 (wi_token i)
  && assert_lt_2_160 (wi_recipient i).

Definition withdraw_circuit (i : WithdrawInput) : bool :=
  let m_packed := limbs_m_packed (wi_m i) in
  let derived_pubkey_packed := limbs_derived_packed (wi_derived_pubkey i) in
  let round_id_packed := pack_round_id (wi_round_id_hi i) (wi_round_id_lo i) in
  let chain_id_packed := pack_chain_id (wi_chain_id_hi i) (wi_chain_id_lo i) in
  let commitment := hash_pool_commitment (wi_token i) (wi_amount i) m_packed round_id_packed in
  withdraw_ranges i
  && verify_membership_pool commitment (wi_pool_root i) (wi_proof_length i)
       (wi_leaf_index_bits i) (wi_merkle_path i)
  && fr_eqb (wi_claim_nullifier i)
       (hash_claim_nullifier m_packed derived_pubkey_packed round_id_packed (wi_claim_contract i)
          chain_id_packed).
End circuits.

(** ** The prover

    [BBProver] runs [nargo] and [bb] on a circuit and its inputs; the runs are
    the fields. *)
Record BBProver : Type := mk_bb_prover {
  bb_prove_claim : ClaimInput → outcome RailsProofError (list byte);
  bb_prove_withdraw : WithdrawInput → outcome RailsProofError (list byte);
}.
#[export] Instance bb_prover : RailsProver BBProver := {|
  generate_claim_proof p w := bb_prove_claim p (claim_input w);
  generate_pool_withdraw_proof p w := bb_prove_withdraw p (withdraw_input w);
|}.

(** ** The circuit's hashes are the hashes *)
Lemma bat_lookup l i b : l !! i = Some b → bat l i = byte_Z b.
Proof. intros H. unfold bat. by rewrite H. Qed.

(** Consecutive reads. *)
Lemma take_drop_bytes (l : list byte) n i b :
  l !! i = Some b → take (S n) (drop i l) = b :: take n (drop (S i) l).
Proof. intros H. by rewrite (drop_S _ _ _ H). Qed.

Lemma byte_Z_bat l i : (i < length l)%nat → ∃ b, l !! i = Some b ∧ bat l i = byte_Z b.
Proof.
  intros H. destruct (lookup_lt_is_Some_2 l i H) as [b Hb]. exists b. by rewrite (bat_lookup _ _ _ Hb).
Qed.

Lemma lor_shift a b n : 0 ≤ n → 0 ≤ b < 2 ^ n → Z.lor (Z.shiftl a n) b = a * 2 ^ n + b.
Proof.
  intros Hn Hb. pose proof (Z.add_lor_land (Z.shiftl a n) b) as E.
  rewrite Z.shiftl_mul_pow2 in E at 3 by done.
  enough (Z.land (Z.shiftl a n) b = 0) by lia.
  apply Z.bits_inj'. intros m Hm. rewrite Z.land_spec, Z.bits_0, Z.shiftl_spec by done.
  destruct (Z.lt_ge_cases m n) as [Hl|Hl].
  - by rewrite Z.testbit_neg_r by lia.
  - rewrite andb_comm, <-(Z.mod_small b (2 ^ n)) by done. by rewrite Z.mod_pow2_bits_high by lia.
Qed.

(** The big-endian word of four bytes. *)
Lemma word_bytes a b c d :
  Z.lor (Z.lor (Z.lor (Z.shiftl (byte_Z a) 24) (Z.shiftl (byte_Z b) 16)) (Z.shiftl (byte_Z c) 8))
    (byte_Z d) = be_to_Z [a; b; c; d].
Proof.
  pose proof (byte_Z_range a). pose proof (byte_Z_range b). pose proof (byte_Z_range c).
  pose proof (byte_Z_range d).
  rewrite (lor_shift _ _ 24), Z.shiftl_mul_pow2 by (rewrite ?Z.shiftl_mul_pow2 by lia; lia).
  replace (byte_Z a * 2 ^ 24 + byte_Z b * 2 ^ 16) with (Z.shiftl (byte_Z a * 256 + byte_Z b) 16)
    by (rewrite Z.shiftl_mul_pow2 by lia; lia).
  rewrite (lor_shift _ _ 16) by (rewrite ?Z.shiftl_mul_pow2 by lia; lia).
  replace ((byte_Z a * 256 + byte_Z b) * 2 ^ 16 + Z.shiftl (byte_Z c) 8)
    with (Z.shiftl ((byte_Z a * 256 + byte_Z b) * 256 + byte_Z c) 8)
    by (rewrite !Z.shiftl_mul_pow2 by lia; lia).
  rewrite (lor_shift _ _ 8) by lia. unfold be_to_Z. cbn [be_fold]. lia.
Qed.

Lemma read_word padded b :
  (b + 4 ≤ length padded)%nat →
  Z.lor (Z.lor (Z.lor (Z.shiftl (bat padded b) 24) (Z.shiftl (bat padded (b + 1)) 16))
    (Z.shiftl (bat padded (b + 2)) 8)) (bat padded (b + 3)) = be_to_Z (take 4 (drop b padded)).
Proof.
  intros Hl.
  destruct (byte_Z_bat padded b ltac:(lia)) as (x & Hx & ->).
  destruct (byte_Z_bat padded (b + 1) ltac:(lia)) as (y & Hy & ->).
  destruct (byte_Z_bat padded (b + 2) ltac:(lia)) as (z & Hz & ->).
  destruct (byte_Z_bat padded (b + 3) ltac:(lia)) as (t & Ht & ->).
  rewrite word_bytes, (take_drop_bytes _ _ _ _ Hx).
  rewrite Nat.add_1_r in Hy. rewrite (take_drop_bytes _ _ _ _ Hy).
  replace (b + 2)%nat with (S (S b)) in Hz by lia. rewrite (take_drop_bytes _ _ _ _ Hz).
  replace (b + 3)%nat with (S (S (S b))) in Ht by lia. by rewrite (take_drop_bytes _ _ _ _ Ht).
Qed.

Lemma byte_of_Z_mod z : byte_of_Z (z mod 256) = byte_of_Z z.
Proof. apply byte_Z_inj. by rewrite !byte_Z_of_Z, Zmod_mod. Qed.

Lemma byte_of_land z : byte_of_Z (Z.land z 0xff) = byte_of_Z z.
Proof. change 0xff with (Z.ones 8). rewrite Z.land_ones by lia. apply byte_of_Z_mod. Qed.

Lemma word_out s :
  [byte_of_Z (Z.shiftr s 24); byte_of_Z (Z.land (Z.shiftr s 16) 0xff);
   byte_of_Z (Z.land (Z.shiftr s 8) 0xff); byte_of_Z (Z.land s 0xff)] = be_of_Z 4 s.
Proof.
  rewrite !byte_of_land, !Z.shiftr_div_pow2 by lia. cbn [be_of_Z app].
  by rewrite !Z.div_div by lia.
Qed.

(** A write after a prefix, and over the start of the zeros. *)
Lemma splice_prefix {A} (pre t src : list A) off n :
  off = (length pre + n)%nat → splice (pre ++ t) off src = pre ++ splice t n src.
Proof.
  intros ->. unfold splice.
  rewrite take_app_ge, drop_app_ge by lia. rewrite <-app_assoc. do 3 f_equal; lia || (f_equal; lia).
Qed.
Lemma splice_start (src : list byte) n k :
  length src = k → (k ≤ n)%nat → splice (zeros n) 0 src = src ++ zeros (n - k).
Proof. intros Hl Hn. unfold splice, zeros. cbn [take app Nat.add]. by rewrite drop_replicate, Hl. Qed.

Lemma sha_padded input :
  length input = 308%nat →
  write_all PADDED_LEN
    [(0%nat, input); (308%nat, [Byte.x80]); (318%nat, [Byte.x09]); (319%nat, [Byte.xa0])]
  = Sha256.sha_pad input.
Proof.
  intros Hl. unfold write_all, Sha256.sha_pad. cbn [foldl fst snd]. rewrite Hl.
  rewrite (splice_start input PADDED_LEN 308) by (done || (unfold PADDED_LEN; lia)).
  rewrite (splice_prefix input _ _ 308 0), (splice_prefix input _ _ 318 10),
    (splice_prefix input _ _ 319 11) by (by rewrite Hl).
  reflexivity.
Qed.

(** The circuit's SHA-256 of a voucher preimage is SHA-256. *)
Lemma sha256_308_is input : length input = 308%nat → sha256_308 input = Sha256.hash input.
Proof.
  intros Hl. unfold sha256_308, Sha256.hash. rewrite sha_padded by done.
  set (padded := Sha256.sha_pad input).
  assert (length padded = 320%nat) as Hp.
  { unfold padded, Sha256.sha_pad. rewrite Hl, !length_app, Hl, length_zeros, length_be_of_Z. reflexivity. }
  rewrite Hp. change (320 / 64)%nat with NUM_BLOCKS.
  rewrite (map_ext _ _ word_out). do 2 f_equal.
  assert (∀ l s, Forall (λ j, (j < 5)%nat) l →
    foldl (λ state block_idx, Sha256.compression (map (λ i,
      Z.lor (Z.lor (Z.lor (Z.shiftl (bat padded (block_idx * 64 + i * 4)) 24)
        (Z.shiftl (bat padded (block_idx * 64 + i * 4 + 1)) 16))
        (Z.shiftl (bat padded (block_idx * 64 + i * 4 + 2)) 8))
        (bat padded (block_idx * 64 + i * 4 + 3))) (seq 0 16)) state) s l
    = foldl (λ s j, Sha256.compression (Sha256.block padded j) s) s l) as H.
  { induction l as [|j l IH]; intros s Hf; [done|]. cbn [foldl].
    apply list.Forall_cons in Hf as [Hj Hf]. rewrite IH by done. f_equal. f_equal.
    apply map_ext_in. intros i Hi%in_seq. unfold Sha256.word.
    rewrite (Nat.mul_comm j), (Nat.mul_comm i). apply read_word. rewrite Hp. lia. }
  apply H. by repeat constructor.
Qed.

Lemma keccak_padded input :
  length input = 64%nat →
  write_all RATE_BYTES
    [(0%nat, input); (64%nat, [Byte.x01]); ((RATE_BYTES - 1)%nat, [Byte.x80])]
  = Keccak.keccak_pad input.
Proof.
  intros Hl. unfold write_all, Keccak.keccak_pad. cbn [foldl fst snd]. rewrite Hl.
  rewrite (splice_start input RATE_BYTES 64) by (done || (unfold RATE_BYTES; lia)).
  rewrite (splice_prefix input _ _ 64 0), (splice_prefix input _ _ (RATE_BYTES - 1) 71)
    by (by rewrite Hl).
  reflexivity.
Qed.

Lemma read_lane_le block k :
  (k * 8 + 8 ≤ length block)%nat → read_lane block k = Keccak.le_to_Z (take 8 (drop (k * 8) block)).
Proof.
  intros Hl. unfold read_lane. cbn [seq foldl fst snd Nat.ltb Nat.leb].
  assert (∀ n, (k * 8 + n < length block)%nat →
    ∃ b, block !! (k * 8 + n)%nat = Some b ∧ bat block (k * 8 + n) = byte_Z b) as Hb.
  { intros n Hn. by apply byte_Z_bat. }
  assert (∀ n m, (k * 8 + n + m ≤ length block)%nat →
    Keccak.le_to_Z (take m (drop (k * 8 + n) block))
    = foldr (λ i acc, bat block (k * 8 + i) + 256 * acc) 0 (seq n m)) as Hf.
  { intros n m. revert n. induction m as [|m IH]; intros n Hn; [by rewrite take_0|].
    destruct (Hb n ltac:(lia)) as (b & H1 & H2). rewrite (take_drop_bytes _ _ _ _ H1).
    cbn [Keccak.le_to_Z foldr seq]. fold (Keccak.le_to_Z (take m (drop (S (k * 8 + n)) block))).
    rewrite H2, <-(IH (S n)) by lia. do 5 f_equal. lia. }
  rewrite <-(Nat.add_0_r (k * 8)) at 9. rewrite Hf by lia. cbn [seq foldr]. lia.
Qed.

Lemma write_lane_le z : write_lane z = Keccak.le_of_Z 8 z.
Proof.
  unfold write_lane. cbn [seq foldl fst snd Keccak.le_of_Z app]. by rewrite !byte_of_land.
Qed.

(** The circuit's Keccak-256 of two coordinates is Keccak-256. *)
Lemma keccak256_64_is input : length input = 64%nat → keccak256_64 input = Keccak.hash input.
Proof.
  intros Hl. unfold keccak256_64, Keccak.hash. rewrite keccak_padded by done.
  set (padded := Keccak.keccak_pad input).
  assert (length padded = 136%nat) as Hp.
  { unfold padded, Keccak.keccak_pad. rewrite Hl. rewrite length_app, Hl. reflexivity. }
  rewrite Hp. change (seq 0 (136 / Keccak.rate)) with [0%nat]. cbn [foldl].
  unfold Keccak.keccak_absorb.
  assert (map (λ i, if (i <? RATE_LANES)%nat then Z.lxor 0 (read_lane padded i) else 0) (seq 0 25)
    = map (λ i, if (i <? Keccak.rate / 8)%nat
        then Z.lxor (zat (replicate 25 0) i) (Keccak.le_to_Z (take 8 (drop (Keccak.rate * 0 + 8 * i) padded)))
        else zat (replicate 25 0) i) (seq 0 25)) as ->.
  { apply map_ext_in. intros i Hi%in_seq. change (Keccak.rate / 8)%nat with RATE_LANES.
    assert (zat (replicate 25 0) i = 0) as ->
      by (unfold zat; by rewrite lookup_replicate_2 by lia).
    destruct (i <? RATE_LANES)%nat eqn:E; [|done]. apply Nat.ltb_lt in E. unfold RATE_LANES in E.
    rewrite read_lane_le by (rewrite Hp; lia). do 4 f_equal. lia. }
  f_equal. apply map_ext. intros i. apply write_lane_le.
Qed.

(** ** Canonical signatures *)
Lemma canonical_loop h s pre_h pre_s :
  SECP256K1_HALF_N = pre_h ++ h → length pre_s = length pre_h → length s = length h →
  ∀ decided s_le,
  (foldl (λ '(decided, s_le) i,
    let s_b := bat (pre_s ++ s) i in
    let h_b := bat SECP256K1_HALF_N i in
    let s_lt := s_b <? h_b in
    let s_gt := h_b <? s_b in
    let first_diff_gt := negb decided && s_gt in
    (decided || s_lt || s_gt, s_le && negb first_diff_gt)) (decided, s_le)
    (seq (length pre_h) (length h))).2
  = s_le && (decided || (be_to_Z s <=? be_to_Z h)).
Proof.
  revert s pre_h pre_s. induction h as [|b h IH]; intros [|a s] pre_h pre_s Hh Hp Hl decided s_le;
    cbn [length] in Hl; try done.
  { cbn. by rewrite orb_true_r, andb_true_r. }
  cbn [length seq foldl].
  assert (bat (pre_s ++ a :: s) (length pre_h) = byte_Z a) as Ea.
  { apply bat_lookup. rewrite <-Hp. by apply list_lookup_middle. }
  assert (bat SECP256K1_HALF_N (length pre_h) = byte_Z b) as Eb.
  { apply bat_lookup. rewrite Hh. by apply list_lookup_middle. }
  rewrite Ea, Eb. specialize (IH s (pre_h ++ [b]) (pre_s ++ [a])).
  rewrite <-!app_assoc in IH. cbn [app] in IH. rewrite !length_app in IH. cbn [length] in IH.
  replace (length pre_h + 1)%nat with (S (length pre_h)) in IH by lia.
  rewrite IH by (done || lia). clear IH. rewrite !be_to_Z_cons.
  assert (length s = length h) as Hl' by lia. rewrite Hl'.
  pose proof (be_to_Z_range s) as Hs. pose proof (be_to_Z_range h) as Hb. rewrite Hl' in Hs.
  set (p := 256 ^ Z.of_nat (length h)) in *.
  pose proof (byte_Z_range a). pose proof (byte_Z_range b).
  destruct decided; cbn [orb andb negb]; [by rewrite !andb_true_r|].
  destruct (Z.ltb_spec (byte_Z a) (byte_Z b)), (Z.ltb_spec (byte_Z b) (byte_Z a));
    cbn [orb andb negb]; rewrite ?andb_true_r, ?andb_false_r; cbn [andb]; try lia.
  - by rewrite (proj2 (Z.leb_le _ _)), andb_true_r by nia.
  - by rewrite (proj2 (Z.leb_gt _ _)), andb_false_r by nia.
  - assert (byte_Z a = byte_Z b) as -> by lia. f_equal.
    destruct (Z.leb_spec (be_to_Z s) (be_to_Z h)); symmetry; [apply Z.leb_le|apply Z.leb_gt]; lia.
Qed.

Lemma assert_canonical_s_le s :
  length s = 32%nat → assert_canonical_s s = (be_to_Z s <=? be_to_Z SECP256K1_HALF_N).
Proof.
  intros Hl. unfold assert_canonical_s.
  pose proof (canonical_loop SECP256K1_HALF_N s [] [] eq_refl eq_refl ltac:(by rewrite Hl) false true) as H.
  cbn [app length orb andb] in H. rewrite <-H. reflexivity.
Qed.

(** ** Paths *)
Section paths.
Context `{C : Crypto}.

(** The root a path leads to from a leaf. *)
Definition path_root (leaf : Fr) (p : RailsMerklePath) : Fr :=
  foldl (λ node sb, if byte_Z sb.2 =? 0 then poseidon_circom [node; sb.1]
                    else poseidon_circom [sb.1; node])
    leaf (zip (map rails_fr_from_be_bytes (mp_siblings p)) (mp_indices p)).

Definition path_within (D : nat) (p : RailsMerklePath) : Prop :=
  length (mp_indices p) = length (mp_siblings p) ∧ (length (mp_siblings p) ≤ D)%nat.

Lemma noir_root_skip n k depth leaf bits siblings :
  (depth ≤ k)%nat → foldl (noir_step depth bits siblings) leaf (seq k n) = leaf.
Proof.
  revert k leaf. induction n as [|n IH]; intros k leaf Hk; [done|]. cbn [seq foldl].
  unfold noir_step at 2. rewrite (proj2 (Nat.ltb_ge k depth)) by lia. apply IH. lia.
Qed.

(** The loop over the path's own levels, from its [k]-th on. *)
Lemma noir_root_path ss bs pre_s pre_b leaf extra_s extra_b depth k :
  length ss = length bs → length pre_s = k → length pre_b = k → depth = (k + length ss)%nat →
  foldl (noir_step depth (map (λ b, negb (byte_Z b =? 0)) (pre_b ++ bs ++ extra_b))
    (pre_s ++ ss ++ extra_s)) leaf (seq k (length ss))
  = foldl (λ node sb, if byte_Z sb.2 =? 0 then poseidon_circom [node; sb.1]
                      else poseidon_circom [sb.1; node]) leaf (zip ss bs).
Proof.
  revert bs pre_s pre_b leaf k. induction ss as [|s ss IH]; intros [|b bs] pre_s pre_b leaf k Hl Hs Hb Hd;
    cbn [length] in *; try done.
  cbn [seq foldl zip zip_with fst snd].
  specialize (IH bs (pre_s ++ [s]) (pre_b ++ [b])).
  rewrite <-!app_assoc in IH. cbn [app] in IH |- *.
  rewrite (IH _ (S k)) by (rewrite ?length_app; cbn [length]; lia). f_equal.
  unfold noir_step. rewrite (proj2 (Nat.ltb_lt k depth)) by lia.
  unfold fr_at. rewrite list_lookup_middle by done.
  rewrite (list_lookup_fmap _ _ k : map _ _ !! k = _), (list_lookup_middle pre_b) by done.
  cbn. rewrite negb_involutive. by destruct (byte_Z b =? 0).
Qed.

(** On the padded path the circuit computes the root the path leads to. *)
Lemma noir_root_padded D leaf p :
  path_within D p →
  let '(siblings, bits, depth) := pad_path D (mp_siblings p) (mp_indices p) in
  noir_merkle_root D leaf depth bits siblings = path_root leaf p.
Proof.
  intros [Hl HD]. unfold pad_path, noir_merkle_root, path_root.
  set (ss := map rails_fr_from_be_bytes (mp_siblings p)).
  assert (length ss = length (mp_siblings p)) as Hs by apply length_map.
  rewrite <-Hs. rewrite !resize_ge by lia.
  replace D with (length ss + (D - length ss))%nat at 3 by lia. rewrite seq_app, foldl_app.
  rewrite (noir_root_skip (D - length ss)) by lia.
  apply (noir_root_path ss (mp_indices p) [] []); (done || lia).
Qed.
End paths.

(** ** Field elements of short byte strings *)
Lemma fr_val_short l : (length l ≤ 31)%nat → fr_val (fr_from_be_bytes l) = be_to_Z l.
Proof.
  intros Hl. apply fr_val_of_Z. pose proof (be_to_Z_range l).
  assert (256 ^ Z.of_nat (length l) ≤ 256 ^ 31) by (apply Z.pow_le_mono_r; lia).
  assert (256 ^ 31 < fr_modulus) by done. lia.
Qed.

Lemma short_bytes l n : length l = n → (n ≤ 31)%nat →
  field_bytes n (fr_from_be_bytes l) = l ∧ field_fits n (fr_from_be_bytes l) = true.
Proof.
  intros Hl Hn. unfold field_bytes, field_fits. rewrite fr_val_short by lia.
  split; [by apply be_of_to_Z|]. apply Z.ltb_lt. pose proof (be_to_Z_range l). rewrite Hl in *. lia.
Qed.

(** The halves of a word. *)
Lemma half_bytes w : length w = 32%nat →
  limbs_to_be_bytes_32 (fr_hi w) (fr_lo w) = w
  ∧ assert_lt_2_128 (fr_hi w) = true ∧ assert_lt_2_128 (fr_lo w) = true.
Proof.
  intros Hl. unfold fr_hi, fr_lo, rails_fr_from_be_bytes, limbs_to_be_bytes_32, assert_lt_2_128.
  rewrite !(take_ge _ 32) by (rewrite length_take, ?length_drop; lia).
  destruct (short_bytes (take 16 w) 16) as [-> ->]; [rewrite length_take; lia|lia|].
  destruct (short_bytes (take 16 (drop 16 w)) 16) as [-> ->];
    [rewrite length_take, length_drop; lia|lia|].
  rewrite (take_ge (drop 16 w)) by (rewrite length_drop; lia). by rewrite take_drop.
Qed.

Lemma pad_address_eq a : length a = 20%nat → pad_address a = zeros 12 ++ a.
Proof.
  intros Hl. unfold pad_address, splice. rewrite Hl.
  rewrite drop_ge by (rewrite length_zeros; lia). by rewrite app_nil_r.
Qed.

Lemma address_bytes a : length a = 20%nat →
  field_bytes 20 (rails_fr_from_be_bytes (pad_address a)) = a
  ∧ assert_lt_2_160 (rails_fr_from_be_bytes (pad_address a)) = true
  ∧ rails_fr_from_be_bytes (pad_address a) = fr_of_Z (be_to_Z a).
Proof.
  intros Hl. assert (rails_fr_from_be_bytes (pad_address a) = fr_from_be_bytes a) as E.
  { unfold rails_fr_from_be_bytes. rewrite pad_address_eq by done.
    rewrite take_ge by (rewrite length_app, length_zeros; lia). unfold fr_from_be_bytes.
    by rewrite be_to_Z_app, be_to_Z_zeros, Z.mul_0_l. }
  unfold assert_lt_2_160. rewrite E. by destruct (short_bytes a 20) as [-> ->]; [|lia|].
Qed.

(** Words below the field's modulus. *)
Definition word_canonical (w : Bytes32) : Prop := be_to_Z w < fr_modulus.
Lemma canonical_bytes w : length w = 32%nat → word_canonical w → field_bytes 32 (fr_from_be_bytes w) = w.
Proof.
  intros Hl Hc. unfold field_bytes. rewrite <-fr_to_be_bytes_eq. by apply fr_to_from_be_bytes.
Qed.

Lemma dest_loop digest l pre k z :
  digest = pre ++ l → length pre = (12 + k)%nat →
  foldl (λ acc i, fr_add (fr_mul acc (fr_of_Z 256)) (fr_of_Z (bat digest (12 + i)))) (fr_of_Z z)
    (seq k (length l)) = fr_of_Z (be_fold z l).
Proof.
  revert pre k z. induction l as [|b l IH]; intros pre k z Hd Hp; [done|]. cbn [length seq foldl be_fold].
  rewrite (bat_lookup _ _ b) by (rewrite Hd, <-Hp; by apply list_lookup_middle).
  rewrite <-(IH (pre ++ [b]) (S k)) by (rewrite ?length_app, <-?app_assoc; cbn; (done || lia)).
  f_equal. apply fr_eq. cbn [fr_add fr_mul fr_of_Z fr_val].
  rewrite <-Zplus_mod, Zplus_mod, (Zmult_mod _ (256 mod _)), !Zmod_mod, <-Zmult_mod, <-Zplus_mod.
  done.
Qed.

Lemma dest_acc_address digest :
  length digest = 32%nat → dest_acc digest = rails_fr_from_be_bytes (pad_address (drop 12 digest)).
Proof.
  intros Hl. assert (length (drop 12 digest) = 20%nat) as Hd by (rewrite length_drop; lia).
  destruct (address_bytes _ Hd) as (_ & _ & ->). unfold dest_acc. rewrite <-Hd.
  apply (dest_loop digest (drop 12 digest) (take 12 digest) 0 0).
  - by rewrite take_drop.
  - rewrite length_take. lia.
Qed.

(** Reads the fields of built witnesses and inputs. *)
Ltac circuit_fields :=
  cbn [claim_witness_of pool_witness_of cw_round_id_hi cw_round_id_lo cw_cohort_root
    cw_chain_id_hi cw_chain_id_lo cw_destination cw_amount cw_nullifier
    cw_claim_contract_address cw_relay_submitter cw_derived_pubkey cw_m cw_signature_r
    cw_signature_s cw_merkle_path pw_pool_root pw_claim_nullifier pw_token pw_amount
    pw_recipient pw_m pw_derived_pubkey pw_round_id_hi pw_round_id_lo pw_chain_id_hi
    pw_chain_id_lo pw_claim_contract pw_merkle_path ci_round_id_hi ci_round_id_lo
    ci_cohort_root ci_chain_id_hi ci_chain_id_lo ci_destination ci_amount ci_nullifier
    ci_claim_contract_address ci_relay_submitter ci_derived_pubkey ci_m ci_signature_r
    ci_signature_s ci_proof_length ci_leaf_index_bits ci_merkle_path wi_pool_root
    wi_claim_nullifier wi_token wi_amount wi_recipient wi_m wi_derived_pubkey wi_round_id_hi
    wi_round_id_lo wi_chain_id_hi wi_chain_id_lo wi_claim_contract wi_proof_length
    wi_leaf_index_bits wi_merkle_path].

(** ** Built witnesses satisfy the circuits *)
Section satisfied.
Context `{C : Crypto} {L : CryptoLaws C} {HL : HashLaws C} {NE : NoirEcdsa}.
Context {XSK XPK P OC OR : Type}.
Implicit Types (r : Relay P OC OR XSK XPK).

(** The domain the circuit pins is the card's. *)
Lemma domain_pinned : voucher_domain_sha256 = DOMAIN_VOUCHER.
Proof. unfold voucher_domain_sha256. rewrite sha256_is by done. vm_compute. reflexivity. Qed.

Lemma limbs_of_bytes p : pubkey_typed p →
  limbs_x (limbs_of p) = pub_x p ∧ limbs_y (limbs_of p) = pub_y p ∧ limbs_lt_2_128 (limbs_of p) = true.
Proof.
  intros [Hx Hy]. unfold limbs_x, limbs_y, limbs_lt_2_128, limbs_of. cbn [lb_x_hi lb_x_lo lb_y_hi lb_y_lo].
  destruct (half_bytes _ Hx) as (-> & -> & ->), (half_bytes _ Hy) as (-> & -> & ->). done.
Qed.

(** A voucher of the declared widths, with a root and an amount the field can
    hold. *)
Record voucher_fits (v : SignedVoucher) : Prop := {
  vf_ctx : ctx_typed (sv_context v);
  vf_m : pubkey_typed (sv_m v);
  vf_derived : pubkey_typed (sv_derived_pubkey v);
  vf_root : word_canonical (vc_cohort_root (sv_context v));
  vf_amount : word_canonical (vc_per_recipient_amount (sv_context v));
}.

Lemma claim_ranges_ok r v nullifier root path :
  voucher_fits v → length (sv_destination v) = 20%nat → length (rl_relay_submitter r) = 20%nat →
  claim_ranges (claim_input (claim_witness_of r v nullifier root path)) = true.
Proof.
  intros [[Hr _ Hc _ Hi] Hm Hd _ _] Hdest Hsub. unfold claim_ranges, claim_input, pad_path.
  circuit_fields. destruct (half_bytes _ Hr) as (_ & -> & ->), (half_bytes _ Hi) as (_ & -> & ->).
  destruct (limbs_of_bytes _ Hm) as (_ & _ & ->), (limbs_of_bytes _ Hd) as (_ & _ & ->).
  by destruct (address_bytes _ Hdest) as (_ & -> & _), (address_bytes _ Hc) as (_ & -> & _),
    (address_bytes _ Hsub) as (_ & -> & _).
Qed.

(** The circuit hashes the message the card signed. *)
Lemma claim_preimage_ok r v nullifier path :
  voucher_fits v →
  claim_preimage (claim_input (claim_witness_of r v nullifier
    (rails_fr_from_be_bytes (vc_cohort_root (sv_context v))) path))
  = voucher_preimage (sv_context v) (sv_m v) (sv_derived_pubkey v).
Proof.
  intros [[Hr Hcr Hc Ha Hi] Hm Hd Hroot Ham]. unfold claim_preimage, claim_input, pad_path, voucher_preimage.
  circuit_fields.
  destruct (half_bytes _ Hr) as (-> & _), (half_bytes _ Hi) as (-> & _).
  destruct (limbs_of_bytes _ Hm) as (-> & -> & _), (limbs_of_bytes _ Hd) as (-> & -> & _).
  destruct (address_bytes _ Hc) as (-> & _).
  unfold rails_fr_from_be_bytes at 1. rewrite take_ge by lia.
  by rewrite !canonical_bytes, domain_pinned by done.
Qed.

Lemma length_voucher_preimage v :
  voucher_fits v → length (voucher_preimage (sv_context v) (sv_m v) (sv_derived_pubkey v)) = 308%nat.
Proof.
  intros [[Hr Hcr Hc Ha Hi] [Hmx Hmy] [Hdx Hdy] _ _]. unfold voucher_preimage.
  rewrite write_all_concat; cbn [map snd concat contiguous fst];
    rewrite ?length_app, ?app_nil_r; unfold voucher_domain_sha256; rewrite ?length_sha256, ?Hr, ?Hcr, ?Hi, ?Hmx, ?Hmy,
      ?Hdx, ?Hdy, ?Ha, ?Hc; repeat split; reflexivity.
Qed.

(** The claim: the card's signature over the voucher, the chain's cohort root
    being the header's, and a path that leads to it from the card's leaf. *)
Lemma claim_satisfied r v cr cp :
  let ctx := sv_context v in
  voucher_fits v → ecdsa_typed (sv_signature v) → length (rl_relay_submitter r) = 20%nat →
  sv_destination v = point_to_eth_address (sv_derived_pubkey v) →
  verify_signature (pub_x (sv_m v)) (pub_y (sv_m v))
    (sig_r (sv_signature v) ++ sig_s (sv_signature v))
    (sha256 (voucher_preimage ctx (sv_m v) (sv_derived_pubkey v))) = true →
  be_to_Z (sig_s (sv_signature v)) ≤ be_to_Z SECP256K1_HALF_N →
  cr = vc_cohort_root ctx → path_within COHORT_DEPTH cp →
  path_root (m_packed_of (sv_m v)) cp = rails_fr_from_be_bytes cr →
  claim_circuit (claim_input (claim_witness_of r v
    (claim_nullifier_of (sv_m v) (sv_derived_pubkey v) (vc_round_id ctx) (vc_claim_contract ctx)
       (vc_chain_id ctx)) (rails_fr_from_be_bytes cr) cp)) = true.
Proof.
  intros ctx Hv [Hgr Hgs] Hsub Hdest Hver Hlow -> Hwithin Hpath. subst ctx.
  assert (length (sv_destination v) = 20%nat) as Hl.
  { rewrite Hdest. unfold point_to_eth_address. rewrite length_drop, length_keccak256. reflexivity. }
  unfold claim_circuit. rewrite claim_ranges_ok, claim_preimage_ok by done.
  pose proof (noir_root_padded COHORT_DEPTH (m_packed_of (sv_m v)) cp Hwithin) as Hroot.
  unfold claim_input. circuit_fields. revert Hroot.
  destruct (pad_path COHORT_DEPTH (mp_siblings cp) (mp_indices cp)) as [[siblings bits] depth]. intros Hroot.
  circuit_fields.
  unfold verify_membership_cohort, verify_ecdsa. change (limbs_m_packed (limbs_of ?m)) with (m_packed_of m).
  rewrite Hroot, Hpath, sha256_308_is by by apply length_voucher_preimage.
  rewrite <-sha256_is by (rewrite length_voucher_preimage by done; lia).
  destruct (limbs_of_bytes _ (vf_m _ Hv)) as (-> & -> & _).
  destruct (limbs_of_bytes _ (vf_derived _ Hv)) as (-> & -> & _).
  destruct (vf_derived _ Hv) as [Hdx Hdy].
  rewrite Hver, assert_canonical_s_le, (proj2 (Z.leb_le _ _)) by done.
  rewrite keccak256_64_is, <-keccak256_is by (rewrite length_app; lia).
  rewrite dest_acc_address by apply length_keccak256.
  rewrite Hdest. unfold point_to_eth_address.
  by rewrite !(proj2 (fr_eqb_eq _ _) eq_refl).
Qed.

(** The withdrawal: a path that leads to the pool's root from the card's
    commitment. *)
Lemma withdraw_satisfied r v token nullifier root path pr pp :
  let ctx := sv_context v in
  voucher_fits v → length (sv_destination v) = 20%nat → length token = 20%nat →
  nullifier = claim_nullifier_of (sv_m v) (sv_derived_pubkey v) (vc_round_id ctx)
    (vc_claim_contract ctx) (vc_chain_id ctx) →
  path_within POOL_DEPTH pp →
  path_root (pool_commitment_of token (vc_per_recipient_amount ctx) (sv_m v) (vc_round_id ctx)) pp
  = rails_fr_from_be_bytes pr →
  withdraw_circuit (withdraw_input (pool_witness_of (claim_witness_of r v nullifier root path)
    (rails_fr_from_be_bytes pr) (rails_fr_from_be_bytes (pad_address token)) pp)) = true.
Proof.
  intros ctx Hv Hl Ht -> Hwithin Hpath. subst ctx. unfold withdraw_circuit, withdraw_input.
  pose proof (noir_root_padded POOL_DEPTH (pool_commitment_of token
    (vc_per_recipient_amount (sv_context v)) (sv_m v) (vc_round_id (sv_context v))) pp Hwithin) as Hroot.
  circuit_fields. revert Hroot.
  destruct (pad_path POOL_DEPTH (mp_siblings pp) (mp_indices pp)) as [[siblings bits] depth]. intros Hroot.
  destruct Hv as [[Hr _ Hc _ Hi] Hm Hd _ _].
  unfold withdraw_ranges, verify_membership_pool. circuit_fields.
  change (limbs_m_packed (limbs_of ?m)) with (m_packed_of m).
  unfold pool_commitment_of in Hroot, Hpath. rewrite Hroot, Hpath.
  destruct (half_bytes _ Hr) as (_ & -> & ->), (half_bytes _ Hi) as (_ & -> & ->).
  destruct (limbs_of_bytes _ Hm) as (_ & _ & ->), (limbs_of_bytes _ Hd) as (_ & _ & ->).
  destruct (address_bytes _ Hl) as (_ & -> & _), (address_bytes _ Hc) as (_ & -> & _),
    (address_bytes _ Ht) as (_ & -> & _).
  by rewrite !(proj2 (fr_eqb_eq _ _) eq_refl).
Qed.
End satisfied.

(** ** Completeness of a prover *)
Section completeness.
Context `{C : Crypto} {NE : NoirEcdsa}.

(** A prover proves every witness whose inputs satisfy the circuit. *)
Definition complete {P} {RP : RailsProver P} (p : P) : Prop :=
  (∀ w, claim_circuit (claim_input w) = true → ∃ proof, generate_claim_proof p w = Ok proof) ∧
  (∀ w, withdraw_circuit (withdraw_input w) = true → ∃ proof, generate_pool_withdraw_proof p w = Ok proof).

(** [BBProver] is complete when the tools it runs are. *)
Lemma bb_complete (p : BBProver) :
  (∀ i, claim_circuit i = true → ∃ proof, bb_prove_claim p i = Ok proof) →
  (∀ i, withdraw_circuit i = true → ∃ proof, bb_prove_withdraw p i = Ok proof) → complete p.
Proof. intros H1 H2. split; intros w Hw; [by apply H1|by apply H2]. Qed.
End completeness.
