(* ===== verification/RailsRun.v ===== *)
(** * A disbursement from the funder's header to the relay's proofs

    What the companion signs, what the relay's submission consists of, the
    in-process channel as a queue per relay, and that a claim whose parties
    are set up for each other goes through. *)

From Stdlib Require Import ZArith Lia Bool.
From stdpp Require Import base tactics list gmap strings numbers.
From S2P Require Import Prelude Field Types Poseidon RailsTypes RailsCard RailsMultisig RailsRoles RailsOk RailsHash RailsCircuits.

(** ** The companion *)
Section companion_ok.
Context `{C : Crypto} {L : CryptoLaws C}.
Context {SK PK Sig : Type} {SC : Secp SK PK Sig} {SL : SecpLaws SK PK Sig}.
Context {XSK XPK Env : Type} {SE : Seal XSK XPK Env} {VC : VoucherCodec}.

Section any_card.
Context {S : Type} {SMC : Smartcard S}.
Implicit Types (c : Companion S).

(** The roster is at most 48 hours old. *)
Definition fresh (now : Z) (r : RelayRoster) : Prop :=
  ro_signed_at_unix r ≤ now ≤ ro_signed_at_unix r + ROSTER_STALENESS_SECS.

(** What [check_bundle] establishes: a fresh roster and a header, each with
    the signatures of the threshold of owners. *)
Definition endorsed c (now : Z) (bundle : HeaderBundle) : Prop :=
  fresh now (cm_roster c) ∧
  accepts (ro_signature (cm_roster c)) (roster_digest (cm_roster c)) (cm_funder_owners c)
    (cm_funder_threshold c) ∧
  accepts (sh_signature (hb_signed bundle)) (h_header (sh_header (hb_signed bundle)))
    (cm_funder_owners c) (cm_funder_threshold c).

Lemma check_bundle_Ok c now bundle u : check_bundle c now bundle = Ok u ↔ endorsed c now bundle.
Proof.
  destruct u. unfold check_bundle, endorsed, accepts, fresh. split.
  - intros H. apply bind_Ok in H as (u1 & H1%ensure_Ok & H).
    apply bind_Ok in H as (u2 & H2%ensure_Ok & H). reflect_bools.
    apply bind_Ok in H as (rs & Hrs%map_err_Ok & H). apply bind_Ok in H as ([] & Hrv%map_err_Ok & H).
    apply bind_Ok in H as (hs & Hhs%map_err_Ok & Hhv%map_err_Ok).
    split; [lia|]. split; eauto.
  - intros (Hf & (rs & Hrs & Hrv) & hs & Hhs & Hhv).
    rewrite ensure_bind by (apply negb_true_iff, Z.ltb_ge; lia).
    rewrite ensure_bind by (apply negb_true_iff, Z.ltb_ge; lia).
    rewrite Hrs. cbn [map_err mbind outcome_bind]. rewrite Hrv. cbn [map_err mbind outcome_bind].
    rewrite Hhs. cbn [map_err mbind outcome_bind]. by rewrite Hhv.
Qed.

(** A companion with its card replaced. *)
Definition with_card c (card : S) : Companion S :=
  mk_companion card (cm_companion_pre_key c) (cm_roster c) (cm_funder_owners c)
    (cm_funder_threshold c).
End any_card.

(** ** With the software card *)
Implicit Types (h : RoundHeader) (c : Companion (SoftwareSmartcard SK)).

(** The checks of the card on the request a companion makes. *)
Lemma sign_guards_request (card : SoftwareSmartcard SK) token h :
  length token = 32%nat → header_typed h →
  sign_guards card (token ++ serialize_round_header h ++ encode_ctx (ctx_of h)) =
  (ensure (sc_refuses_prehashed card) PreHashedHMsgRefused;;
   check_auth_token card (h_header h) token;;
   Ok (ctx_of h)).
Proof.
  intros Ht Hh. unfold sign_guards. set (body := token ++ _).
  pose proof (length_serialized h Hh) as Hs. pose proof (ctx_of_typed h Hh) as Hc.
  assert (length body = SIGN_VOUCHER_BODY_LEN) as Hl.
  { unfold body. by rewrite !length_app, Ht, Hs, length_encode_ctx. }
  rewrite Hl. destruct (sc_refuses_prehashed card); [|done]. cbn [ensure].
  rewrite !Ok_bind. do 2 (rewrite ensure_bind by done).
  rewrite <-(drop_drop _ SERIALIZED_HEADER_LEN 32). unfold body.
  rewrite !(drop_app_length' token _ 32), (take_app_length' token _ 32) by done.
  rewrite (take_app_length' (serialize_round_header h) _ SERIALIZED_HEADER_LEN) by done.
  rewrite (drop_app_length' (serialize_round_header h) _ SERIALIZED_HEADER_LEN) by done.
  by rewrite decode_encode_ctx, ctx_of_agrees.
Qed.

(** What the companion makes of the card's answer. *)
Definition voucher_of (m : SK) h (g : EcdsaSignature) : SignedVoucher :=
  let derived := derive_pubkey (stealth_key m (ctx_of h)) in
  mk_voucher (derive_pubkey m) derived g (ctx_of h)
    (fr_to_be_bytes (claim_nullifier_of (derive_pubkey m) derived (rh_round_id h)
      (rh_claim_contract_address h) (rh_chain_id h)))
    (destination_from_derived_pubkey derived).

Definition request_token c h : Bytes32 := derive_auth_token (cm_companion_pre_key c) (h_header h).

Definition card_request c h : list byte :=
  encode_sign_voucher (request_token c h) (serialize_round_header h) (ctx_of h).

(** The card's answer to a companion's request. *)
Lemma transmit_request kdraw c h :
  header_typed h →
  transmit kdraw (card_request c h) (cm_card c) =
  match (ensure (sc_refuses_prehashed (cm_card c)) PreHashedHMsgRefused;;
         check_auth_token (cm_card c) (h_header h) (request_token c h)) with
  | Ok _ => (sign_with (card_key kdraw (cm_card c)) (ctx_of h), keyed kdraw (cm_card c))
  | Err e => (Err e, cm_card c)
  | Panic => (Panic, cm_card c)
  end.
Proof.
  intros Hh. assert (length (request_token c h) = 32%nat) as Ht by apply length_hmac.
  unfold card_request.
  rewrite (transmit_sign _ _ _ _ _ _ _ (split_encode_sign_voucher _ _ _ Ht
    (length_serialized h Hh) (ctx_of_typed h Hh))).
  rewrite handle_sign_run, sign_guards_request by done.
  destruct (ensure _ _) as [[]| |]; [|done..]. cbn [mbind outcome_bind].
  by destruct (check_auth_token _ _ _).
Qed.
(** The companion without the card's wire format: the card's two remaining
    checks, then its signature over the voucher of the header, serialized and
    sealed to the first relay. *)
Definition card_checks c h : outcome CardError unit :=
  ensure (sc_refuses_prehashed (cm_card c)) PreHashedHMsgRefused;;
  check_auth_token (cm_card c) (h_header h) (request_token c h).

Definition seal_voucher (sdraw : list byte) c (m : SK) h : outcome CompanionError EncryptedVoucher :=
  g ← map_err CardFailure (sign_voucher m (voucher_digest m (ctx_of h)));
  plaintext ← map_err Serialization (to_vec (voucher_of m h g));
  relay ← pick_relay c;
  map_err CompanionAead
    (encrypt_to_relay sdraw (xpk_from (rd_static_pub_x25519 relay)) (rd_relay_id relay) plaintext).

Definition direct_voucher (kdraw : SK) (now : Z) (sdraw : list byte) (bundle : HeaderBundle) c
  : outcome CompanionError EncryptedVoucher * Companion (SoftwareSmartcard SK) :=
  let h := sh_header (hb_signed bundle) in
  match check_bundle c now bundle;; map_err CardFailure (card_checks c h) with
  | Ok _ => (seal_voucher sdraw c (card_key kdraw (cm_card c)) h,
             with_card c (keyed kdraw (cm_card c)))
  | Err e => (Err e, c)
  | Panic => (Panic, c)
  end.

Lemma with_card_id c : with_card c (cm_card c) = c.
Proof. by destruct c. Qed.

Lemma drive_request kdraw c h :
  header_typed h →
  drive_card (SMC:=software_card kdraw) (card_request c h) c =
  match map_err CardFailure (card_checks c h) with
  | Ok _ => (map_err CardFailure (sign_with (card_key kdraw (cm_card c)) (ctx_of h)),
             with_card c (keyed kdraw (cm_card c)))
  | Err e => (Err e, c)
  | Panic => (Panic, c)
  end.
Proof.
  intros Hh. unfold drive_card. cbn [card_transmit software_card].
  rewrite transmit_request by done. fold (card_checks c h).
  destruct (card_checks c h); cbn [map_err]; fold (with_card c (cm_card c)); by rewrite ?with_card_id.
Qed.

Lemma build_voucher_direct kdraw now sdraw bundle c :
  header_typed (sh_header (hb_signed bundle)) →
  build_voucher (SMC:=software_card kdraw) now sdraw bundle c = direct_voucher kdraw now sdraw bundle c.
Proof.
  intros Hh. set (h := sh_header (hb_signed bundle)) in *. unfold build_voucher, direct_voucher.
  fold h. rewrite M_bind_get, M_bind_lift.
  destruct (check_bundle c now bundle) as [[]| |]; [|done..]. cbn [mbind outcome_bind].
  fold (request_token c h) (ctx_of h) (card_request c h). unfold mbind at 1, M_bind at 1.
  rewrite (drive_request kdraw) by done.
  destruct (map_err CardFailure (card_checks c h)); [|done..].
  rewrite sign_with_eq. set (m := card_key kdraw (cm_card c)). unfold seal_voucher.
  destruct (sign_voucher m (voucher_digest m (ctx_of h))) as [g| |] eqn:Eg; [|done..].
  cbn [map_err mbind outcome_bind]. rewrite M_bind_lift, decode_response;
    [|apply length_pubkey_xy..|by eapply sign_voucher_typed].
  cbn [map_err]. fold (voucher_of m h g). rewrite M_bind_lift.
  destruct (map_err Serialization _); [|done..]. rewrite M_bind_lift.
  by destruct (pick_relay c).
Qed.
(** Driving the card is calling it.  For a header of the declared widths,
    [build_voucher] over the software card, through the encoded request, the
    card's parsing and its comparison of context and header, and the decoded
    response, has on every state and every branch the same result and leaves
    the same state as the direct composition: the companion's checks, the
    card's refusal flag and authorization, the signature of the voucher of
    that header, its serialization and its seal.  No framing or mismatch error
    can occur. *)
Lemma companion_direct kdraw now sdraw bundle c :
  header_typed (sh_header (hb_signed bundle)) →
  build_voucher (SMC:=software_card kdraw) now sdraw bundle c
  = direct_voucher kdraw now sdraw bundle c.
Proof. apply build_voucher_direct. Qed.

Lemma card_checks_Ok c h u :
  card_checks c h = Ok u ↔
  sc_refuses_prehashed (cm_card c) = true ∧ authorized (cm_card c) (h_header h) (request_token c h).
Proof.
  unfold card_checks. rewrite <-(check_auth_token_Ok _ _ _ u).
  destruct (sc_refuses_prehashed (cm_card c)); cbn; naive_solver.
Qed.

(** A sealed voucher: signed by the card's key, serialized and sealed to the
    first relay of the roster. *)
Definition sealed (sdraw : list byte) c (m : SK) h (env : EncryptedVoucher) : Prop :=
  ∃ g plaintext relay e,
    sign_voucher m (voucher_digest m (ctx_of h)) = Ok g ∧
    to_vec (voucher_of m h g) = Ok plaintext ∧
    head (ro_relays (cm_roster c)) = Some relay ∧
    seal sdraw (xpk_from (rd_static_pub_x25519 relay)) plaintext (rd_relay_id relay) = Some e ∧
    env = mk_envelope (env_bytes e) (rd_relay_id relay).

Lemma seal_voucher_Ok sdraw c m h env : seal_voucher sdraw c m h = Ok env ↔ sealed sdraw c m h env.
Proof.
  unfold seal_voucher, pick_relay, encrypt_to_relay, sealed. split.
  - intros H. inv_ok H. eauto 10.
  - intros (g & plaintext & relay & e & H1 & H2 & H3 & H4 & ->).
    rewrite H1. cbn [map_err]. rewrite Ok_bind, H2. cbn [map_err].
    rewrite Ok_bind, (ok_or_bind _ _ relay), (ok_or_bind _ _ e) by done. done.
Qed.

(** C29: what the companion lets out.  When [build_voucher] returns an
    envelope, the roster was at most 48 hours old and carried, like the header,
    valid signatures of exactly the threshold of distinct owners; the card was
    in its refusing mode and authorized for this header; and the envelope is
    the card's signed voucher for this header sealed to the first relay of the
    roster.  When the roster or the header is not so endorsed the card is not
    asked, and nothing changes; in every case the companion's own fields stay
    and the card at most takes the drawn key. *)
Theorem companion_safe kdraw now sdraw bundle c res c' :
  header_typed (sh_header (hb_signed bundle)) →
  build_voucher (SMC:=software_card kdraw) now sdraw bundle c = (res, c') →
  let h := sh_header (hb_signed bundle) in
  (∀ env, res = Ok env ↔
    endorsed c now bundle ∧ sc_refuses_prehashed (cm_card c) = true ∧
    authorized (cm_card c) (h_header h) (request_token c h) ∧
    sealed sdraw c (card_key kdraw (cm_card c)) h env) ∧
  (¬ endorsed c now bundle → (∀ env, res ≠ Ok env) ∧ c' = c) ∧
  (c' = c ∨ c' = with_card c (keyed kdraw (cm_card c))).
Proof.
  intros Hh. rewrite build_voucher_direct by done. unfold direct_voucher. cbv zeta.
  set (h := sh_header (hb_signed bundle)) in *.
  setoid_rewrite <-(seal_voucher_Ok sdraw). setoid_rewrite <-(check_bundle_Ok _ _ _ tt).
  pose proof (card_checks_Ok c h tt) as Hc.
  destruct (check_bundle c now bundle) as [[]|e|]; cbn [mbind outcome_bind].
  - destruct (card_checks c h) as [[]|e|]; cbn [map_err]; intros [= <- <-].
    + destruct (proj1 Hc) as [H1 H2]; [done|]. split; [|split]; [|done|by right].
      intros env. split; [by auto|]. by intros (_ & _ & _ & ?).
    + split; [|split]; [|done|by left]. intros env. split; [done|].
      intros (_ & H1 & H2 & _). discriminate (proj2 Hc (conj H1 H2)).
    + split; [|split]; [|done|by left]. intros env. split; [done|].
      intros (_ & H1 & H2 & _). discriminate (proj2 Hc (conj H1 H2)).
  - intros [= <- <-]. split; [|split]; [|done|by left]. intros env. by split; [|intros [? _]].
  - intros [= <- <-]. split; [|split]; [|done|by left]. intros env. by split; [|intros [? _]].
Qed.
End companion_ok.

(** ** The relay's keys *)
Section relay_ok.
Context `{C : Crypto} {XSK XPK Env : Type} {SE : Seal XSK XPK Env} {SEL : SealLaws XSK XPK Env}.
Context {VC : VoucherCodec}.
Context {P OC OR : Type} {RP : RailsProver P} {OP : OnChainPool OC} {ON : OnChainCohort OR}.
Implicit Types (r : Relay P OC OR XSK XPK) (k : KeyArchive XSK XPK).

(** A submission the relay processes, with its two clock readings and random seed. *)
Record Submission : Type := mk_submission {
  su_now : Z;
  su_rotated : Z;
  su_seed : Bytes32;
  su_env : EncryptedVoucher;
  su_token : Bytes20;
  su_version : Z;
  su_position : Z;
}.

Definition process (e : Submission)
  : M (Relay P OC OR XSK XPK) RelayError SubmissionArtifacts :=
  relay_submit_voucher (su_now e) (su_rotated e) (su_seed e) (su_env e) (su_token e) (su_version e)
    (su_position e).

Definition keys_after (e : Submission) k : KeyArchive XSK XPK :=
  if is_due (su_now e) k then rotate (su_seed e) (su_rotated e) k else k.

Lemma with_keys_id r : with_keys r (rl_keys r) = r.
Proof. by destruct r. Qed.

Lemma process_eq e r :
  process e r =
  (submit_decrypted (with_keys r (keys_after e (rl_keys r))) (su_env e) (su_token e)
     (su_version e) (su_position e),
   with_keys r (keys_after e (rl_keys r))).
Proof.
  unfold process, relay_submit_voucher, keys_after.
  rewrite M_bind_get, M_bind_put, M_bind_get.
  destruct (is_due (su_now e) (rl_keys r)); by rewrite ?with_keys_id.
Qed.

(** The relay after a run of submissions, whatever became of each. *)
Definition serve (es : list Submission) r : Relay P OC OR XSK XPK :=
  foldl (λ r e, (process e r).2) r es.

(** The readings are in order, and before two intervals have passed since
    the last rotation of [k]. *)
Definition within_two k (e : Submission) : Prop :=
  ka_rotated_at k ≤ su_now e ≤ su_rotated e ∧
  su_now e < ka_rotated_at k + 2 * ka_rotation_interval k.

(** At most one rotation since [k], drawn from one of the seeds. *)
Definition one_rotation k (seeds : list Bytes32) (k' : KeyArchive XSK XPK) : Prop :=
  k' = k ∨
  ka_previous_sk k' = Some (ka_current_sk k) ∧
  (∃ seed, seed ∈ seeds ∧ ka_current_sk k' = xsk_from seed) ∧
  ka_rotated_at k + ka_rotation_interval k ≤ ka_rotated_at k' ∧
  ka_rotation_interval k' = ka_rotation_interval k.

Lemma keys_after_one k seeds e k' :
  one_rotation k seeds k' →
  within_two k e →
  one_rotation k (seeds ++ [su_seed e]) (keys_after e k').
Proof.
  intros Hk [Ho Hn]. unfold keys_after, is_due. destruct (_ <=? _) eqn:Ed.
  - apply Z.leb_le in Ed. destruct Hk as [->|(_ & _ & Hr & Hi)]; [|lia].
    right. cbn. split; [done|]. split; [|lia]. exists (su_seed e). split; [|done].
    apply elem_of_app. right. by apply list_elem_of_singleton.
  - destruct Hk as [->|(Hp & (seed & Hs & Hc) & Hr & Hi)]; [by left|]. right.
    split; [done|]. split; [|done]. exists seed. split; [|done]. apply elem_of_app. by left.
Qed.

Lemma serve_one es : ∀ r k seeds,
  one_rotation k seeds (rl_keys r) →
  Forall (within_two k) es →
  ∃ k', serve es r = with_keys r k' ∧ one_rotation k (seeds ++ map su_seed es) k'.
Proof.
  induction es as [|e es IH]; intros r k seeds Hk Hes.
  - exists (rl_keys r). rewrite with_keys_id. cbn [map]. by rewrite app_nil_r.
  - apply list.Forall_cons in Hes as [He Hes]. cbn [serve foldl]. rewrite process_eq. cbn [snd].
    destruct (IH (with_keys r (keys_after e (rl_keys r))) k (seeds ++ [su_seed e]))
      as (k' & E & Hk'); [by apply keys_after_one|done|].
    exists k'. split; [exact E|]. cbn [map]. by rewrite <-app_assoc in Hk'.
Qed.

(** The envelope seals [plain] to a key. *)
Definition seals_to (sk : XSK) (env : EncryptedVoucher) (plain : list byte) : Prop :=
  ∃ draw e, seal draw (xpk_of sk) plain (ev_relay_id env) = Some e ∧ ev_envelope env = env_bytes e.

Lemma decrypt_sealed sk env plain :
  seals_to sk env plain → decrypt_from_companion sk env = Ok plain.
Proof.
  intros (draw & e & Hs & He). unfold decrypt_from_companion.
  rewrite (ok_or_bind _ _ e) by by rewrite He, env_parse_bytes.
  rewrite (ok_or_bind _ _ (Some plain)) by by eapply open_sealed. done.
Qed.

Lemma relay_decrypt_one k seeds k' env plain :
  seals_to (ka_current_sk k) env plain →
  (∀ seed p, seed ∈ seeds → decrypt_from_companion (xsk_from seed) env = Ok p → p = plain) →
  one_rotation k seeds k' → relay_decrypt k' env = Ok plain.
Proof.
  intros Hs Hnew Hk. apply decrypt_sealed in Hs. unfold relay_decrypt.
  destruct Hk as [->|(-> & (seed & Hseed & ->) & _)]; [by rewrite Hs|]. rewrite Hs.
  destruct (decrypt_from_companion (xsk_from seed) env) as [p| |] eqn:Ep; [|done..].
  by rewrite (Hnew seed p).
Qed.
(** The keys drawn for the submissions do not open the envelope to anything
    but what was sealed. *)
Definition authentic (es : list Submission) (env : EncryptedVoucher) (plain : list byte) : Prop :=
  ∀ e p, e ∈ es → decrypt_from_companion (xsk_from (su_seed e)) env = Ok p → p = plain.

Lemma serve_decrypts es e r env plain :
  seals_to (ka_current_sk (rl_keys r)) env plain →
  Forall (within_two (rl_keys r)) (es ++ [e]) → authentic (es ++ [e]) env plain →
  ∃ k', (process e (serve es r)).2 = with_keys r k' ∧ relay_decrypt k' env = Ok plain.
Proof.
  intros Hs Hw Ha. destruct (serve_one (es ++ [e]) r (rl_keys r) []) as (k' & E & Hk);
    [by left|done|].
  exists k'. split; [by rewrite <-E; unfold serve; rewrite foldl_app|].
  eapply relay_decrypt_one; [done| |exact Hk]. intros seed p Hin Hd.
  apply list_elem_of_fmap in Hin as (e' & -> & He'). by eapply Ha.
Qed.

(** The grace period of a rotated key.  What was sealed to the relay's
    current key is opened by the relay on every submission before two
    rotation intervals have passed since that key came in, whatever else was
    submitted in between and however it ended: at most one rotation happens in
    that time, and the rotated key is kept. *)
Lemma relay_key_grace es e r env plain :
  seals_to (ka_current_sk (rl_keys r)) env plain →
  Forall (within_two (rl_keys r)) (es ++ [e]) → authentic (es ++ [e]) env plain →
  relay_decrypt (rl_keys (process e (serve es r)).2) env = Ok plain.
Proof. intros Hs Hw Ha. by destruct (serve_decrypts es e r env plain) as (k' & -> & H). Qed.

(** The chain has the card's commitment of the round, and the paths. *)
Record chain_view r (commitment : Bytes32) (version position : Z) (pool_root_be cohort_root_be : Bytes32)
  (pool_path cohort_path : RailsMerklePath) : Prop := {
  cv_index : ∃ leaf, commitment_index (rl_pool r) (rl_claim_contract r) commitment = Ok (Some leaf) ∧
    pool_merkle_path (rl_pool r) (rl_claim_contract r) leaf = Ok pool_path;
  cv_pool_root : sub_tree_root (rl_pool r) (rl_claim_contract r) = Ok pool_root_be;
  cv_cohort_root : cohort_root (rl_cohort r) version = Ok cohort_root_be;
  cv_cohort_path : cohort_merkle_path (rl_cohort r) version position = Ok cohort_path;
}.

Lemma submit_decrypted_eq r k env token version position plain v pr cr pp cp :
  relay_decrypt k env = Ok plain → from_slice plain = Ok v →
  chain_view r (fr_to_be_bytes (pool_commitment_of token (vc_per_recipient_amount (sv_context v))
    (sv_m v) (vc_round_id (sv_context v)))) version position pr cr pp cp →
  let ctx := sv_context v in
  let nullifier := claim_nullifier_of (sv_m v) (sv_derived_pubkey v) (vc_round_id ctx)
    (vc_claim_contract ctx) (vc_chain_id ctx) in
  let claim := claim_witness_of r v nullifier (rails_fr_from_be_bytes cr) cp in
  let pool := pool_witness_of claim (rails_fr_from_be_bytes pr)
    (rails_fr_from_be_bytes (pad_address token)) pp in
  submit_decrypted (with_keys r k) env token version position =
  (p1 ← map_err ProofGeneration (generate_claim_proof (rl_prover r) claim);
   p2 ← map_err ProofGeneration (generate_pool_withdraw_proof (rl_prover r) pool);
   Ok (mk_artifacts v claim p1 pool p2)).
Proof.
  intros Hd Hf [(leaf & Hi & Hpp) Hpr Hcr Hcp] ctx nullifier claim pool.
  unfold submit_decrypted.
  cbn [rl_keys with_keys rl_pool rl_cohort rl_claim_contract rl_prover].
  rewrite Hd. cbn [mbind outcome_bind]. rewrite Hf. cbn [map_err mbind outcome_bind].
  rewrite Hi. cbn [map_err mbind outcome_bind ok_or]. rewrite Hpr. cbn [map_err mbind outcome_bind].
  rewrite Hpp. cbn [map_err mbind outcome_bind]. rewrite Hcr. cbn [map_err mbind outcome_bind].
  rewrite Hcp. done.
Qed.
End relay_ok.

(** ** A claim, end to end *)
Section claim.
Context `{C : Crypto} {L : CryptoLaws C}.
Context {SK PK Sig : Type} {SC : Secp SK PK Sig} {SL : SecpLaws SK PK Sig}.
Context {XSK XPK Env : Type} {SE : Seal XSK XPK Env} {SEL : SealLaws XSK XPK Env}.
Context {VC : VoucherCodec} {VCL : VoucherCodecLaws}.
Context {P OC OR : Type} {RP : RailsProver P} {OP : OnChainPool OC} {ON : OnChainCohort OR}.
Context {HL : HashLaws C} {NE : NoirEcdsa} {NL : NoirEcdsaLaws SK PK Sig}.
Implicit Types (f : Funder SK) (h : RoundHeader) (c : Companion (SoftwareSmartcard SK))
  (r : Relay P OC OR XSK XPK).

(** A funder whose signatures are accepted on a digest. *)
Record funder_ready f (digests : list Bytes32) : Prop := {
  fr_built : ∃ signers owners k maddr cc dest,
    with_multisig signers owners k maddr cc dest = Ok f;
  fr_distinct : NoDup (signer_address <$> take (fu_threshold f) (fu_multisig_signers f));
  fr_count : (fu_threshold f < 256)%nat;
  fr_unreduced : Forall (λ d, Forall (λ sk, unreduced sk d)
    (take (fu_threshold f) (fu_multisig_signers f))) digests;
}.

(** The companion holds the funder's roster and header, and a card with key
    [m] that shares its pre-key. *)
Record companion_ready f c (now : Z) (bundle : HeaderBundle) (m : SK) : Prop := {
  cr_owners : cm_funder_owners c = fu_funder_owners f;
  cr_threshold : cm_funder_threshold c = fu_threshold f;
  cr_roster : sign_roster f (cm_roster c) = Ok (ro_signature (cm_roster c));
  cr_header : sign_round_header f (sh_header (hb_signed bundle)) = Ok (sh_signature (hb_signed bundle));
  cr_fresh : fresh now (cm_roster c);
  cr_key : sc_m (cm_card c) = Some m;
  cr_refuses : sc_refuses_prehashed (cm_card c) = true;
  cr_pre_key : sc_companion_pre_key (cm_card c) = Some (cm_companion_pre_key c);
}.

(** The external steps of building a voucher succeed. *)
Record services_ready (sdraw : list byte) (m : SK) h : Prop := {
  sr_sign : ∃ g, sign_prehash m (voucher_digest m (ctx_of h)) = Ok g;
  sr_codec : ∀ g, sign_voucher m (voucher_digest m (ctx_of h)) = Ok g →
    ∃ b, to_vec (voucher_of m h g) = Ok b;
  sr_seal : ∀ pk plain aad, ∃ e, seal sdraw pk plain aad = Some e;
}.

(** The roster's first relay is [r]. *)
Definition listed c r : Prop :=
  ∃ id epoch rest, ro_relays (cm_roster c)
    = mk_relay_descriptor id (xpk_to_bytes (xpk_of (ka_current_sk (rl_keys r)))) epoch :: rest.

Lemma funder_ready_accepts f ds d :
  funder_ready f ds → d ∈ ds →
  accepts (sign_with_threshold f d) d (fu_funder_owners f) (fu_threshold f).
Proof.
  intros [(signers & owners & k & maddr & cc & dest & Hf) Hn Hk Hu] Hd.
  pose proof (proj1 (list.Forall_forall _ _) Hu d Hd) as Hud. cbn beta in Hud.
  pose proof Hf as Hf'. apply with_multisig_Ok in Hf' as (_ & _ & _ & E).
  rewrite E in Hn, Hk, Hud |- * at 2 3.
  cbn [fu_threshold fu_multisig_signers fu_funder_owners] in *.
  by apply (funder_accepted signers owners k maddr cc dest f d).
Qed.

Lemma ready_endorsed f c now bundle m :
  funder_ready f [roster_digest (cm_roster c); h_header (sh_header (hb_signed bundle))] →
  companion_ready f c now bundle m → endorsed c now bundle.
Proof.
  intros Hf [Ho Ht Hr Hh Hfr _ _ _]. unfold endorsed. rewrite Ho, Ht. split; [done|].
  unfold sign_roster in Hr. unfold sign_round_header in Hh. inv_ok Hr. inv_ok Hh.
  rewrite <-Hr, <-Hh, funder_h_header_parity, funder_roster_digest_parity.
  split; (eapply funder_ready_accepts; [exact Hf|]); set_solver.
Qed.

Lemma ready_sealed sdraw c m h r :
  services_ready sdraw m h → listed c r →
  ∃ g plain env, sign_voucher m (voucher_digest m (ctx_of h)) = Ok g ∧
    sealed sdraw c m h env ∧ to_vec (voucher_of m h g) = Ok plain ∧
    seals_to (ka_current_sk (rl_keys r)) env plain.
Proof.
  intros [[g0 Hg] Hc Hs] (id & epoch & rest & El).
  assert (∃ g, sign_voucher m (voucher_digest m (ctx_of h)) = Ok g) as [g Eg].
  { unfold sign_voucher. rewrite Hg. cbn. eauto. }
  destruct (Hc g Eg) as [plain Ep].
  destruct (Hs (xpk_of (ka_current_sk (rl_keys r))) plain id) as [e Ee].
  exists g, plain, (mk_envelope (env_bytes e) id). split; [done|]. split; [|split; [done|]].
  - unfold sealed. rewrite El.
    exists g, plain, (mk_relay_descriptor id
      (xpk_to_bytes (xpk_of (ka_current_sk (rl_keys r)))) epoch), e.
    cbn [rd_static_pub_x25519 rd_relay_id head]. by rewrite xpk_from_to.
  - exists sdraw, e. done.
Qed.
Lemma ready_builds kdraw f c now bundle m sdraw env :
  let h := sh_header (hb_signed bundle) in
  funder_ready f [roster_digest (cm_roster c); h_header h] → header_typed h →
  companion_ready f c now bundle m → sealed sdraw c m h env →
  build_voucher (SMC:=software_card kdraw) now sdraw bundle c = (Ok env, c).
Proof.
  intros h Hf Hh Hc Hs. rewrite build_voucher_direct by done. unfold direct_voucher.
  rewrite (proj2 (check_bundle_Ok c now bundle tt)) by by eapply ready_endorsed.
  destruct Hc as [_ _ _ _ _ Hk Hr Hp]. fold h. cbn [mbind outcome_bind].
  rewrite (proj2 (card_checks_Ok c h tt)) by (split; [done|intros _; by exists (cm_companion_pre_key c)]).
  cbn [map_err]. unfold keyed, card_key. rewrite Hk.
  change (default kdraw (Some m)) with m.
  rewrite (with_key_id _ _ Hk), with_card_id. f_equal. by apply seal_voucher_Ok.
Qed.

Lemma commitments_lookup f h ms cms i m :
  compute_round_commitments f h ms = Ok cms → ms !! i = Some m →
  cms !! i = Some (fr_to_be_bytes (pool_commitment_of (rh_token h) (rh_per_recipient_amount h) m
                     (rh_round_id h))).
Proof.
  unfold compute_round_commitments. intros H Hi. inv_ok H.
  by rewrite (list_lookup_fmap _ ms), Hi.
Qed.

(** What a claim's artifacts say: one nullifier, recipient, amount and card in
    both statements, the recipient being the address of the card's stealth
    key for this round, on the roots and paths the chain gave. *)
Record pays (m : SK) h (g : EcdsaSignature) (pr cr : Bytes32) (pp cp : RailsMerklePath)
  (a : SubmissionArtifacts) : Prop := {
  py_voucher : sa_voucher a = voucher_of m h g;
  py_nullifier : fr_to_be_bytes (cw_nullifier (sa_claim_witness a))
    = sv_claim_nullifier (voucher_of m h g);
  py_one_nullifier : pw_claim_nullifier (sa_pool_witness a) = cw_nullifier (sa_claim_witness a);
  py_recipient : cw_destination (sa_claim_witness a) = rails_fr_from_be_bytes (pad_address
    (point_to_eth_address (derive_pubkey (stealth_key m (ctx_of h)))));
  py_one_recipient : pw_recipient (sa_pool_witness a) = cw_destination (sa_claim_witness a);
  py_amount : cw_amount (sa_claim_witness a) = fr_from_be_bytes (rh_per_recipient_amount h);
  py_one_amount : pw_amount (sa_pool_witness a) = cw_amount (sa_claim_witness a);
  py_card : cw_m (sa_claim_witness a) = limbs_of (derive_pubkey m);
  py_one_card : pw_m (sa_pool_witness a) = cw_m (sa_claim_witness a);
  py_token : pw_token (sa_pool_witness a) = rails_fr_from_be_bytes (pad_address (rh_token h));
  py_cohort : cw_cohort_root (sa_claim_witness a) = rails_fr_from_be_bytes cr ∧
    cw_merkle_path (sa_claim_witness a) = cp;
  py_pool : pw_pool_root (sa_pool_witness a) = rails_fr_from_be_bytes pr ∧
    pw_merkle_path (sa_pool_witness a) = pp;
}.

(** The chain agrees with the header: its cohort root is the header's, and its
    paths lead to its roots, from the card's leaf of the cohort and from the
    card's commitment in the pool. *)
Record chain_agrees h (m : SK) (commitment pr cr : Bytes32) (pp cp : RailsMerklePath) : Prop := {
  ca_root : cr = rh_cohort_root h;
  ca_cohort : path_within COHORT_DEPTH cp ∧
    path_root (m_packed_of (derive_pubkey m)) cp = rails_fr_from_be_bytes cr;
  ca_pool : path_within POOL_DEPTH pp ∧
    path_root (fr_from_be_bytes commitment) pp = rails_fr_from_be_bytes pr;
}.

(** The header's amount and root are field elements. *)
Definition header_fits h : Prop :=
  word_canonical (rh_per_recipient_amount h) ∧ word_canonical (rh_cohort_root h).

Lemma voucher_of_fits m h g : header_typed h → header_fits h → voucher_fits (voucher_of m h g).
Proof.
  intros Hh [Ha Hr]. constructor; [by apply ctx_of_typed|apply length_pubkey_xy..|done|done].
Qed.

Lemma signed_voucher_verifies m h g :
  sign_voucher m (voucher_digest m (ctx_of h)) = Ok g →
  verify_signature (pub_x (derive_pubkey m)) (pub_y (derive_pubkey m)) (sig_r g ++ sig_s g)
    (voucher_digest m (ctx_of h)) = true ∧ be_to_Z (sig_s g) ≤ be_to_Z SECP256K1_HALF_N.
Proof.
  unfold sign_voucher. intros H. apply bind_Ok in H as (g0 & Hg%map_err_Ok & H).
  apply (inj Ok) in H. subst g. cbn [sig_r sig_s]. rewrite take_drop.
  split; [|apply normalized_low].
  eapply verify_signed; [|exact Hg]. unfold voucher_digest. apply length_sha256.
Qed.

(** C26: a claim goes through.  Take a funder with distinct signers whose
    threshold fits a byte, a companion that trusts its owners and holds its
    signed roster (at most 48 hours old) and header, and a card with a key that
    shares the companion's pre-key.  Then [build_voucher] returns an envelope.
    Give it to the relay the roster names, before two rotation intervals have
    passed and after any other submissions, while the chain indexes the
    commitment the funder computed for this card and its roots and paths agree
    with the header.  Then the witnesses the relay builds satisfy the claim
    circuit and the withdraw circuit, constraint by constraint, so that a
    prover that proves satisfied circuits proves both; they state one
    nullifier, recipient, amount and card, the recipient being the address of
    the card's stealth key for the round.
    Conditions besides: the funder's recoverable signatures have no reduced
    [x] ([unreduced], which its 65-byte form cannot express); signing,
    serializing and sealing succeed ([services_ready]); the header's amount and
    cohort root are below the field's modulus ([header_fits]); and a key the
    relay drew in a rotation does not open the envelope to something else
    ([authentic]). *)
Theorem claim_goes_through kdraw f c now bundle m sdraw r ms cms i :
  let h := sh_header (hb_signed bundle) in
  funder_ready f [roster_digest (cm_roster c); h_header h] → header_typed h → header_fits h →
  companion_ready f c now bundle m → services_ready sdraw m h → listed c r →
  complete (rl_prover r) → length (rl_relay_submitter r) = 20%nat →
  compute_round_commitments f h ms = Ok cms → ms !! i = Some (derive_pubkey m) →
  ∃ env g plain commitment,
    build_voucher (SMC:=software_card kdraw) now sdraw bundle c = (Ok env, c) ∧
    to_vec (voucher_of m h g) = Ok plain ∧ cms !! i = Some commitment ∧
    ∀ es e pr cr pp cp,
      su_env e = env → su_token e = rh_token h →
      Forall (within_two (rl_keys r)) (es ++ [e]) → authentic (es ++ [e]) env plain →
      chain_view r commitment (su_version e) (su_position e) pr cr pp cp →
      chain_agrees h m commitment pr cr pp cp →
      ∃ a, (process e (serve es r)).1 = Ok a ∧ pays m h g pr cr pp cp a ∧
        claim_circuit (claim_input (sa_claim_witness a)) = true ∧
        withdraw_circuit (withdraw_input (sa_pool_witness a)) = true ∧
        generate_claim_proof (rl_prover r) (sa_claim_witness a) = Ok (sa_claim_proof a) ∧
        generate_pool_withdraw_proof (rl_prover r) (sa_pool_witness a) = Ok (sa_pool_proof a).
Proof.
  intros h Hf Hh Hfit Hc Hs Hl [Hp1 Hp2] Hsub Hcm Hm.
  destruct (ready_sealed sdraw c m h r Hs Hl) as (g & plain & env & Hg & Hse & Hv & Hto).
  eexists env, g, plain, _. split; [by eapply ready_builds|].
  split; [done|]. split; [by eapply commitments_lookup|].
  intros es e pr cr pp cp He Ht Hw Ha Hview [Hroot [Hcw Hcp] [Hpw Hpp]].
  rewrite fr_from_to_be_bytes in Hpp.
  destruct (serve_decrypts es e r env plain Hto Hw Ha) as (k' & E & Hd).
  rewrite process_eq in E |- *. cbn [fst snd] in *. rewrite E, He, Ht.
  rewrite (submit_decrypted_eq r k' env (rh_token h) (su_version e) (su_position e) plain
    (voucher_of m h g) pr cr pp cp) by (done || by apply from_to_vec).
  destruct (signed_voucher_verifies m h g Hg) as [Hver Hlow].
  pose proof (voucher_of_fits m h g Hh Hfit) as Hvf.
  assert (length (sv_destination (voucher_of m h g)) = 20%nat) as Hdl
    by (cbn [voucher_of sv_destination]; unfold destination_from_derived_pubkey, point_to_eth_address;
        by rewrite length_drop, length_keccak256).
  pose proof (claim_satisfied r (voucher_of m h g) cr cp Hvf (sign_voucher_typed _ _ _ Hg) Hsub eq_refl
    Hver Hlow Hroot Hcw Hcp) as Hclaim.
  pose proof (withdraw_satisfied r (voucher_of m h g) (rh_token h) _ (rails_fr_from_be_bytes cr) cp
    pr pp Hvf Hdl (ht_token _ Hh) eq_refl Hpw Hpp) as Hwithdraw.
  destruct (Hp1 _ Hclaim) as [p1 E1], (Hp2 _ Hwithdraw) as [p2 E2]. rewrite E1. cbn [map_err].
  rewrite Ok_bind, E2. eexists. split; [done|]. split; [by constructor|done].
Qed.
End claim.

(** ** The channel as queues *)
Section channel_ok.
Context `{C : Crypto}.
Implicit Types (d : DirectSubmission) (id : Bytes32).

Inductive ChannelOp : Type :=
| op_submit (now : Z) (env : EncryptedVoucher) (id : Bytes32)
| op_pull (id : Bytes32).

(** The envelopes taken in and handed out, in order. *)
Record ChannelLog : Type := mk_log {
  lg_taken : list EncryptedVoucher;
  lg_given : list EncryptedVoucher;
}.

Definition channel_step (op : ChannelOp) (dl : DirectSubmission * ChannelLog)
  : DirectSubmission * ChannelLog :=
  let '(d, l) := dl in
  match op with
  | op_submit now env id =>
      match channel_submit now env id d with
      | (Ok _, d') => (d', mk_log (lg_taken l ++ [env]) (lg_given l))
      | (_, d') => (d', l)
      end
  | op_pull id =>
      match pull_voucher id d with
      | (Some env, d') => (d', mk_log (lg_taken l) (lg_given l ++ [env]))
      | (None, d') => (d', l)
      end
  end.
Definition channel_run (ops : list ChannelOp) (dl : DirectSubmission * ChannelLog) :=
  foldl (λ dl op, channel_step op dl) dl ops.

(** The envelopes addressed to a relay. *)
Definition addressed id (l : list EncryptedVoucher) : list EncryptedVoucher :=
  filter (λ env, ev_relay_id env = id) l.

Lemma addressed_app id l l' : addressed id (l ++ l') = addressed id l ++ addressed id l'.
Proof. apply list.filter_app. Qed.
Lemma addressed_one id env :
  addressed id [env] = if decide (ev_relay_id env = id) then [env] else [].
Proof. done. Qed.

Definition inbox d id : list EncryptedVoucher := default [] (ds_inboxes d !! id).

(** Every known relay has an inbox, holding what was taken for it and not yet
    given. *)
Record channel_ok (known : gset (list byte)) (dl : DirectSubmission * ChannelLog) : Prop := {
  ch_known : ds_known_relays dl.1 = known;
  ch_inboxes : ∀ id, is_Some (ds_inboxes dl.1 !! id) ↔ id ∈ known;
  ch_queue : ∀ id, addressed id (lg_taken dl.2) = addressed id (lg_given dl.2) ++ inbox dl.1 id;
  ch_addressee : Forall (λ env, ev_relay_id env ∈ known) (lg_taken dl.2);
}.

Lemma submit_Ok now env id d receipt d' :
  channel_submit now env id d = (Ok receipt, d') →
  id ∈ ds_known_relays d ∧ ev_relay_id env = id ∧
  ∃ q, ds_inboxes d !! id = Some q ∧
    d' = mk_direct_submission (<[id := q ++ [env]]> (ds_inboxes d)) (ds_known_relays d).
Proof.
  unfold channel_submit. rewrite M_bind_get, M_bind_lift.
  destruct (ensure _ UnknownRelay) as [[]| |] eqn:E1; [|done..].
  rewrite M_bind_lift. destruct (ensure _ (Rejected _)) as [[]| |] eqn:E2; [|done..].
  rewrite M_bind_lift. destruct (ds_inboxes d !! id) as [q|]; [|done]. cbn [ok_or].
  rewrite M_bind_put. intros [= <- <-]. inv_ok E1. inv_ok E2.
  apply bool_decide_eq_true in E1. apply bytes_eqb_eq in E2. eauto.
Qed.

Lemma submit_not_Ok now env id d res d' :
  channel_submit now env id d = (res, d') → (∀ receipt, res ≠ Ok receipt) → d' = d.
Proof.
  unfold channel_submit. rewrite M_bind_get, M_bind_lift.
  destruct (ensure _ UnknownRelay) as [[]| |]; [|by intros [= <- <-]..].
  rewrite M_bind_lift. destruct (ensure _ (Rejected _)) as [[]| |]; [|by intros [= <- <-]..].
  rewrite M_bind_lift. destruct (ds_inboxes d !! id) as [q|]; [|by intros [= <- <-]].
  cbn [ok_or]. rewrite M_bind_put. intros [= <- <-] H. by destruct (H (mk_delivery (message_id env) now)).
Qed.

(** Putting a queue at a relay that has one. *)
Lemma inbox_insert d id q q' id' :
  ds_inboxes d !! id = Some q →
  (is_Some (<[id := q']> (ds_inboxes d) !! id') ↔ is_Some (ds_inboxes d !! id')) ∧
  default [] (<[id := q']> (ds_inboxes d) !! id') = if decide (id = id') then q' else inbox d id'.
Proof.
  intros Hq. unfold inbox. destruct (decide (id = id')) as [<-|Hne].
  - rewrite lookup_insert_eq, Hq. split; [|done]. by split; eauto.
  - by rewrite lookup_insert_ne.
Qed.

Lemma channel_step_ok known op dl : channel_ok known dl → channel_ok known (channel_step op dl).
Proof.
  destruct dl as [d l]. intros [Hk Hi Hq Ha]. cbn [fst snd] in *. destruct op as [now env id|id].
  - cbn [channel_step]. destruct (channel_submit now env id d) as [res d'] eqn:Es.
    destruct res as [receipt|e|];
      [|apply submit_not_Ok in Es as ->; [by constructor|done]..].
    apply submit_Ok in Es as (Hin & He & q & Eq & ->).
    constructor; cbn [fst snd ds_known_relays ds_inboxes lg_taken lg_given]; [done| | |].
    + intros id'. rewrite <-Hi. by apply (inbox_insert d id q).
    + intros id'. unfold inbox. cbn [ds_inboxes].
      rewrite (proj2 (inbox_insert d id q (q ++ [env]) id' Eq)).
      rewrite addressed_app, addressed_one, Hq, He. case_decide; [subst id'|by rewrite app_nil_r].
      unfold inbox. rewrite Eq. cbn [default]. by rewrite app_assoc.
    + apply Forall_app. split; [done|]. constructor; [|constructor]. by rewrite He, <-Hk.
  - cbn [channel_step]. unfold pull_voucher.
    destruct (ds_inboxes d !! id) as [[|env q]|] eqn:Eq; [by constructor| |by constructor].
    assert (ev_relay_id env = id) as He.
    { assert (env ∈ addressed id (lg_taken l)) as Hin.
      { rewrite Hq. unfold inbox. rewrite Eq. cbn [default]. set_solver. }
      by apply list_elem_of_filter in Hin as [? _]. }
    constructor; cbn [fst snd ds_known_relays ds_inboxes lg_taken lg_given]; [done| | |done].
    + intros id'. rewrite <-Hi. by apply (inbox_insert d id (env :: q)).
    + intros id'. unfold inbox. cbn [ds_inboxes].
      rewrite (proj2 (inbox_insert d id (env :: q) q id' Eq)).
      rewrite addressed_app, addressed_one, Hq, He. case_decide; [subst id'|by rewrite app_nil_r].
      unfold inbox. rewrite Eq. cbn [default]. by rewrite <-app_assoc.
Qed.

Lemma with_clock_ok ids : channel_ok (list_to_set ids) (with_clock ids, mk_log [] []).
Proof.
  assert (∀ id, (list_to_map (map (λ i, (i, [])) ids) : gmap (list byte) (list EncryptedVoucher)) !! id
    = if decide (id ∈ ids) then Some [] else None) as Hl.
  { induction ids as [|i ids IH]; intros id; [done|]. cbn [map list_to_map].
    destruct (decide (i = id)) as [<-|Hne].
    - cbn. rewrite lookup_insert_eq. by rewrite decide_True by set_solver.
    - cbn. rewrite lookup_insert_ne, IH by done. destruct (decide (id ∈ ids)).
      + by rewrite decide_True by set_solver.
      + by rewrite decide_False by set_solver. }
  constructor; cbn [fst snd with_clock ds_known_relays ds_inboxes lg_taken lg_given]; [done| | |constructor].
  - intros id. rewrite Hl, elem_of_list_to_set. case_decide as Hd; split; intros Hi;
      [done|by exists []|by destruct Hi|done].
  - intros id. unfold inbox. cbn [with_clock ds_inboxes]. rewrite Hl. by case_decide.
Qed.

(** The channel loses, invents, misdirects and reorders nothing.  After
    any sequence of submissions and pulls from a new channel, for every relay
    the envelopes accepted for it are, in order, those it was given followed
    by those in its inbox, whose number is what [pending] says; only known
    relays were sent to. *)
Lemma channel_fifo ids ops d l id :
  channel_run ops (with_clock ids, mk_log [] []) = (d, l) →
  addressed id (lg_taken l) = addressed id (lg_given l) ++ inbox d id ∧
  pending id d = length (inbox d id) ∧
  Forall (λ env, ev_relay_id env ∈ ids) (lg_taken l).
Proof.
  intros Hr. assert (channel_ok (list_to_set ids) (d, l)) as [_ _ Hq Ha].
  { rewrite <-Hr. clear. pose proof (with_clock_ok ids) as H0.
    revert H0. generalize (with_clock ids, mk_log [] []).
    induction ops as [|op ops IH]; intros dl H; [done|]. apply IH, channel_step_ok, H. }
  split; [apply Hq|]. split.
  - unfold pending, inbox. by destruct (ds_inboxes d !! id).
  - eapply list.Forall_impl; [exact Ha|]. cbn. intros env. by rewrite elem_of_list_to_set.
Qed.
End channel_ok.
