(* ===== verification/RailsSample.v ===== *)
(** * A disbursement, start to end

    A concrete round on SHA-256 and Keccak-256, a toy Poseidon, signature
    scheme, seal and codec, and a prover that refuses unsatisfied circuits; the
    theorems on the disbursement rails are applied to it. *)

From Stdlib Require Import ZArith Lia Bool.
From stdpp Require Import base tactics list gmap strings numbers relations.
From S2P Require Import Prelude Field Types Poseidon RailsTypes RailsCard RailsMultisig RailsRoles RailsRegistry RailsOk RailsHash RailsCircuits RailsRun.

Import Toy.

(** ** The hashes

    The circuits' own test vectors: the two fixed-length hashes of zeros, and
    Keccak-256 of the bytes [0 .. 63]. *)
Example sha256_308_vector :
  sha256_308 (zeros 308)
  = be_of_Z 32 0x9575b2125169377b2ade7b401ea36c81228331d971f49664d9648d4f255d4868.
Proof. vm_compute. reflexivity. Qed.
Example keccak256_64_vectors :
  keccak256_64 (zeros 64)
  = be_of_Z 32 0xad3228b676f7d3cd4284a5443f17f1962b36e491b30a40b2405849e597ba5fb5 ∧
  keccak256_64 (map (λ i, byte_of_Z (Z.of_nat i)) (seq 0 64))
  = be_of_Z 32 0x002030bde3d4cf89919649775cd71875c4d0ab1708a380e03fefc3a28aa24831.
Proof. split; vm_compute; reflexivity. Qed.

#[export] Instance rails_crypto : Crypto := {|
  poseidon_circom := toy_poseidon;
  bn254_t5_params := toy_params;
  sha256 := Sha256.hash;
  keccak256 := Keccak.hash;
|}.
#[export] Instance rails_crypto_laws : CryptoLaws rails_crypto.
Proof.
  constructor; [apply length_sha_hash|apply length_keccak_hash|apply (t5_ark (C:=toy_crypto))|
    apply (t5_mds (C:=toy_crypto))].
Qed.
#[export] Instance rails_hash_laws : HashLaws rails_crypto.
Proof. by constructor. Qed.

(** ** Toy services *)

(** A public key is a byte, which a signature carries together with whether
    its [s] is high. *)
#[export] Instance toy_secp : Secp Z byte (byte * bool) := {|
  sk_scalar sk := sk;
  sk_to_bytes := be_of_Z 32;
  sk_new s := s;
  public_key := byte_of_Z;
  encoded_point p := x04 :: p :: zeros 63;
  generator_mul s := Some (byte_of_Z s);
  sign_prehash sk _ := Ok (byte_of_Z sk, true);
  sign_prehash_recoverable sk _ := (byte_of_Z sk, true, true, false);
  normalize_s g := if g.2 then Some (g.1, false) else None;
  sig_to_bytes g := g.1 :: (if g.2 then x01 else x00) :: zeros 62;
  sig_from_slice l :=
    match l with a :: b :: _ => Some (a, bool_decide (b = x01)) | _ => None end;
  recover_from_prehash _ g odd _ := if Bool.eqb g.2 odd then Some g.1 else None;
  hmac_sha256 k m := toy_digest 3 (k ++ m);
|}.

#[export] Instance toy_secp_laws : SecpLaws Z byte (byte * bool).
Proof.
  constructor.
  - done.
  - intros s _. by exists (byte_of_Z s).
  - done.
  - done.
  - done.
  - done.
  - by intros [a []].
  - done.
  - by intros d [a []] low [] reduced [= <-].
  - intros k m. apply length_be_of_Z.
Qed.

(** A signature verifies under the key it carries. *)
#[export] Instance toy_noir : NoirEcdsa := {|
  verify_signature x _ sig _ := bool_decide (head x = head sig);
|}.
#[export] Instance toy_noir_laws : NoirEcdsaLaws Z byte (byte * bool).
Proof.
  constructor.
  - intros sk d g _ [= <-]. by apply bool_decide_eq_true_2.
  - intros [a []]; vm_compute; discriminate.
Qed.

(** An envelope is a checksum of the recipient's key and the plaintext. *)
Definition seal_tag (pk aad : list byte) : byte := byte_of_Z (be_to_Z (toy_digest 4 (pk ++ aad))).
#[export] Instance toy_seal : Seal (list byte) (list byte) (byte * list byte) := {|
  xsk_from seed := seed;
  xpk_of sk := sk;
  xpk_from b := b;
  xpk_to_bytes p := p;
  seal _ pk m aad := Some (seal_tag pk aad, m);
  env_bytes e := e.1 :: e.2;
  env_parse l := match l with t :: m => Some (t, m) | [] => None end;
  seal_open sk e aad := Some (if bool_decide (e.1 = seal_tag sk aad) then Some e.2 else None);
|}.
#[export] Instance toy_seal_laws : SealLaws (list byte) (list byte) (byte * list byte).
Proof.
  constructor; [done|by intros []|]. intros draw sk m aad e [= <-].
  cbn [seal_open toy_seal fst snd]. by rewrite bool_decide_eq_true_2.
Qed.

(** A voucher is the concatenation of its fields, when they have the widths
    of the arrays. *)
Definition voucher_fields (v : SignedVoucher) : list (list byte) :=
  [pub_x (sv_m v); pub_y (sv_m v); pub_x (sv_derived_pubkey v); pub_y (sv_derived_pubkey v);
   sig_r (sv_signature v); sig_s (sv_signature v); encode_ctx (sv_context v);
   sv_claim_nullifier v; sv_destination v].
Definition field_widths : list nat := [32; 32; 32; 32; 32; 32; 148; 32; 20]%nat.
Definition ctx_widths (ctx : VoucherContext) : list nat := length <$> ctx_fields ctx.

#[export] Instance toy_codec : VoucherCodec := {|
  to_vec v :=
    ensure (bool_decide (length <$> voucher_fields v = field_widths)) "width"%string;;
    ensure (bool_decide (ctx_widths (sv_context v) = [32; 32; 20; 32; 32]%nat)) "width"%string;;
    Ok (concat (voucher_fields v));
  from_slice b :=
    let at_ off n := take n (drop off b) in
    Ok (mk_voucher (mk_pubkey (at_ 0 32) (at_ 32 32)) (mk_pubkey (at_ 64 32) (at_ 96 32))
          (mk_ecdsa (at_ 128 32) (at_ 160 32)) (decode_ctx (at_ 192 148)) (at_ 340 32) (at_ 372 20))%nat;
|}.
#[export] Instance toy_codec_laws : VoucherCodecLaws.
Proof.
  constructor. intros v b H. unfold to_vec, toy_codec in H.
  apply bind_Ok in H as (u1 & Ha%ensure_Ok & H). apply bind_Ok in H as (u2 & Ha0%ensure_Ok & H).
  assert (b = concat (voucher_fields v)) as -> by congruence.
  apply bool_decide_eq_true in Ha, Ha0.
  unfold field_widths, voucher_fields in Ha. injection Ha as H1 H2 H3 H4 H5 H6 H7 H8 H9.
  unfold ctx_widths, ctx_fields in Ha0. injection Ha0 as K1 K2 K3 K4 K5.
  unfold from_slice, toy_codec. cbv beta zeta. f_equal. unfold voucher_fields.
  rewrite (read_field _ 0 (pub_x (sv_m v)) 0 32) by (done || field_lengths).
  rewrite (read_field _ 1 (pub_y (sv_m v)) 32 32) by (done || field_lengths).
  rewrite (read_field _ 2 (pub_x (sv_derived_pubkey v)) 64 32) by (done || field_lengths).
  rewrite (read_field _ 3 (pub_y (sv_derived_pubkey v)) 96 32) by (done || field_lengths).
  rewrite (read_field _ 4 (sig_r (sv_signature v)) 128 32) by (done || field_lengths).
  rewrite (read_field _ 5 (sig_s (sv_signature v)) 160 32) by (done || field_lengths).
  rewrite (read_field _ 6 (encode_ctx (sv_context v)) 192 148) by (done || field_lengths).
  rewrite (read_field _ 7 (sv_claim_nullifier v) 340 32) by (done || field_lengths).
  rewrite (read_field _ 8 (sv_destination v) 372 20) by (done || field_lengths).
  rewrite decode_encode_ctx by by constructor. by destruct v as [[] [] [] [] ? ?].
Qed.

(** The chain: trees of two leaves. *)
Definition two_root (l : list Fr) : Bytes32 :=
  fr_to_be_bytes (poseidon_circom [fr_at l 0; fr_at l 1]).
Definition two_path (l : list Fr) (i : Z) : RailsMerklePath :=
  if i =? 0 then mk_rails_path [fr_to_be_bytes (fr_at l 1)] [x00]
  else mk_rails_path [fr_to_be_bytes (fr_at l 0)] [x01].
Definition leaves_fr (l : list Bytes32) : list Fr := map fr_from_be_bytes l.

#[export] Instance toy_pool : OnChainPool (list Bytes32) := {|
  commitment_index l _ c := Ok (Z.of_nat ∘ fst <$> list_find (λ x, x = c) l);
  sub_tree_root l _ := Ok (two_root (leaves_fr l));
  pool_merkle_path l _ i := Ok (two_path (leaves_fr l) i);
|}.
#[export] Instance toy_cohort : OnChainCohort (list Fr) := {|
  cohort_root l _ := Ok (two_root l);
  cohort_merkle_path l _ i := Ok (two_path l i);
|}.

(** ** The round *)
Definition rails_word (z : Z) : list byte := be_of_Z 32 z.
Definition rails_addr (z : Z) : list byte := be_of_Z 20 z.
Definition got {E A} (d : A) (m : outcome E A) : A := match m with Ok a => a | _ => d end.

(** The cohort's other card has key 7. *)
Definition card_m : Z := 5.
Definition cohort_ms : list SecpPubkey := [derive_pubkey 7; derive_pubkey card_m].
Definition cohort : list Fr := map m_packed_of cohort_ms.

Definition round_header : RoundHeader :=
  mk_header (rails_word 66) 1 (two_root cohort) (rails_word 1000000) 2 (rails_addr 204) 1700000000
    (rails_addr 238) (rails_word 11155111).

Definition signer_keys : list Z := [11; 12; 13].
Definition owners : list Bytes20 := map signer_address signer_keys.
Definition dummy_funder : Funder Z := funder_new [] [] [].
Definition the_funder : Funder Z :=
  got dummy_funder (with_multisig signer_keys owners 2 (rails_addr 1) (rails_addr 238) (rails_addr 2)).

Definition relay_key : Bytes32 := rails_word 77.
Definition unsigned_roster : RelayRoster :=
  mk_roster [mk_relay_descriptor (rails_word 17) relay_key 0] 1699990000 [].
Definition roster : RelayRoster :=
  mk_roster (ro_relays unsigned_roster) (ro_signed_at_unix unsigned_roster)
    (got [] (sign_roster the_funder unsigned_roster)).
Definition bundle : HeaderBundle :=
  mk_bundle (mk_signed_header round_header (got [] (sign_round_header the_funder round_header))) 0.

Definition pre_key : Bytes32 := rails_word 99.
Definition the_card : SoftwareSmartcard Z := mk_card (Some card_m) (Some pre_key) true true.
Definition the_companion : Companion (SoftwareSmartcard Z) :=
  mk_companion the_card pre_key roster owners 2.

Definition claim_time : Z := 1700000000.
Definition the_result := build_voucher (SMC:=software_card 6) claim_time [] bundle the_companion.
Definition the_envelope : EncryptedVoucher := got (mk_envelope [] []) the_result.1.

Definition commitments : list Bytes32 :=
  got [] (compute_round_commitments the_funder round_header cohort_ms).
Definition the_prover : BBProver := mk_bb_prover
  (λ i, ensure (claim_circuit i) (Generation "nargo execute failed");; Ok [])
  (λ i, ensure (withdraw_circuit i) (Generation "nargo execute failed");; Ok []).
Definition the_relay : Relay BBProver (list Bytes32) (list Fr) (list byte) (list byte) :=
  mk_relay the_prover (mk_archive relay_key relay_key None None 0 100) commitments cohort
    (rails_addr 238) (rails_addr 3).

(** A junk envelope at time 50, one at time 120 that rotates the key, and the
    claim at 190, after the rotation. *)
Definition junk : EncryptedVoucher := mk_envelope [x01; x02] (rails_word 17).
Definition earlier : list Submission :=
  [mk_submission 50 50 (rails_word 81) junk (rails_addr 204) 1 0;
   mk_submission 120 121 (rails_word 82) junk (rails_addr 204) 1 0].
Definition claim : Submission :=
  mk_submission 190 190 (rails_word 83) the_envelope (rails_addr 204) 1 1.

(** ** The card *)
Definition request : list byte := card_request the_companion round_header.
Definition request_body : list byte := drop 7 request.
Definition answer := transmit 6 request the_card.

Lemma card_binds_voucher_witness :
  ∃ token header ctx, request_body = token ++ header ++ encode_ctx ctx ∧ header_binds header ctx ∧
    authorized the_card (header_digest header) token.
Proof.
  destruct (card_binds_voucher 6 request CLA x00 x00 request_body the_card (got [] answer.1) answer.2)
    as (token & header & ctx & g & H1 & _ & _ & H2 & H3 & _).
  - vm_compute. reflexivity.
  - vm_compute. reflexivity.
  - exists token, header, ctx. split; [exact H1|]. split; [exact H2|exact H3].
Defined.

(** A card without a key answers a voucher request with a new one. *)
Definition blank_card : SoftwareSmartcard Z := card_new (Some pre_key) true.
(** ** The operator registry *)
#[export] Instance toy_store : MerkleStore (list Fr) := {|
  store_root l := match l with [] => None | _ => Some (toy_poseidon l) end;
  store_size := length;
  store_get_proof l i := ensure (i <? length l)%nat EmptyTree;; Ok (mk_fr_path [] []);
  store_insert l x := (length l, l ++ [x]);
|}.
#[export] Instance toy_store_laws : MerkleStoreLaws (list Fr).
Proof. constructor; [done|]. intros t l. cbn. rewrite length_app. cbn. lia. Qed.

Definition operator0 : OperatorRegistry (list Fr) := operator_new [].
Definition operator1 : OperatorRegistry (list Fr) :=
  (enroll_card (rails_word 1) (derive_pubkey 7) operator0).2.
Definition operator2 : OperatorRegistry (list Fr) :=
  (enroll_card (rails_word 2) (derive_pubkey card_m) operator1).2.
Definition operator3 : OperatorRegistry (list Fr) := (revoke (rails_word 1) operator2).2.
Definition second_card : CardRecord :=
  mk_card_record (rails_word 2) (derive_pubkey card_m) CardActive 1.

Lemma operator2_reached : rtc op_step operator0 operator2.
Proof.
  eapply rtc_l; [by eapply op_enroll, surjective_pairing|].
  eapply rtc_l; [by eapply op_enroll, surjective_pairing|apply rtc_refl].
Qed.
Lemma operator3_reached : rtc op_step operator2 operator3.
Proof. eapply rtc_l; [by eapply op_revoke, surjective_pairing|apply rtc_refl]. Qed.

Lemma operator_cards_invariant_witness : cards_kept (op_cards operator2) (op_cards operator3).
Proof. apply (operator_cards_invariant [] operator2 operator3 operator2_reached operator3_reached). Defined.

Lemma operator3_cards : cards_ok (op_cards operator3).
Proof.
  constructor.
  - eapply bool_decide_eq_true_1. vm_compute. reflexivity.
  - eapply bool_decide_eq_true_1. vm_compute. reflexivity.
  - intros [|[|i]] c H; vm_compute in H; [injection H as <-; reflexivity..|].
    by destruct i.
Qed.

(** ** The companion *)
Lemma round_header_typed : header_typed round_header.
Proof. constructor; vm_compute; repeat split; discriminate || reflexivity. Qed.

Lemma companion_safe_witness :
  endorsed the_companion claim_time bundle ∧
  ¬ endorsed the_companion (claim_time + ROSTER_STALENESS_SECS) bundle.
Proof.
  split.
  - destruct (companion_safe 6 claim_time [] bundle the_companion the_result.1 the_result.2)
      as (H & _ & _).
    + apply round_header_typed.
    + unfold the_result. apply surjective_pairing.
    + apply (H the_envelope). vm_compute. reflexivity.
  - intros [[_ H] _]. vm_compute in H. by apply H.
Defined.

(** ** The relay *)
Definition the_plaintext : list byte := drop 1 (ev_envelope the_envelope).

Lemma envelope_sealed : seals_to relay_key the_envelope the_plaintext.
Proof. exists [], (seal_tag relay_key (rails_word 17), the_plaintext). vm_compute. done. Qed.
Lemma claims_in_time : Forall (within_two (rl_keys the_relay)) (earlier ++ [claim]).
Proof. repeat constructor; vm_compute; discriminate. Qed.
Lemma drawn_keys_fail :
  map (λ e, is_ok (decrypt_from_companion (xsk_from (su_seed e)) the_envelope)) (earlier ++ [claim])
  = [false; false; false].
Proof. vm_compute. reflexivity. Qed.
Lemma claims_authentic plain : authentic (earlier ++ [claim]) the_envelope plain.
Proof.
  intros e p He H. pose proof drawn_keys_fail as Hf. revert He H Hf.
  generalize the_envelope. intros env He H Hf. apply list_elem_of_In in He.
  destruct He as [<-|[<-|[<-|[]]]]; cbn [map earlier app] in Hf; rewrite H in Hf; discriminate.
Qed.

(** ** The claim *)
Lemma funder_is_ready :
  funder_ready the_funder [roster_digest roster; h_header round_header].
Proof.
  constructor.
  - exists signer_keys, owners, 2%nat, (rails_addr 1), (rails_addr 238), (rails_addr 2).
    vm_compute. reflexivity.
  - eapply bool_decide_eq_true_1. vm_compute. reflexivity.
  - vm_compute. lia.
  - apply list.Forall_forall. intros d _. apply list.Forall_forall. intros sk _. reflexivity.
Qed.
Lemma companion_is_ready : companion_ready the_funder the_companion claim_time bundle card_m.
Proof.
  constructor; try (vm_compute; reflexivity). unfold fresh. vm_compute. split; discriminate.
Qed.
Lemma services_are_ready : services_ready [] card_m round_header.
Proof.
  constructor.
  - eexists. vm_compute. reflexivity.
  - intros g H. assert (g = got g (sign_voucher card_m (voucher_digest card_m (ctx_of round_header))))
      as -> by by rewrite H.
    eexists. vm_compute. reflexivity.
  - intros pk plain aad. eexists. reflexivity.
Qed.

Definition pool_root_be : Bytes32 := two_root (leaves_fr commitments).
Definition pool_path : RailsMerklePath := two_path (leaves_fr commitments) 1.

Lemma chain_has_claim cm :
  commitments !! 1%nat = Some cm →
  chain_view the_relay cm 1 1 pool_root_be (two_root cohort) pool_path (two_path cohort 1) ∧
  chain_agrees round_header card_m cm pool_root_be (two_root cohort) pool_path (two_path cohort 1).
Proof.
  intros H. assert (cm = default [] (commitments !! 1%nat)) as -> by by rewrite H.
  split; constructor; try reflexivity.
  - exists 1. split; vm_compute; reflexivity.
  - split; [split; [reflexivity|vm_compute; lia]|apply fr_eq; vm_compute; reflexivity].
  - split; [split; [reflexivity|vm_compute; lia]|apply fr_eq; vm_compute; reflexivity].
Qed.

Lemma prover_complete : complete the_prover.
Proof.
  apply bb_complete; intros i Hi; exists []; cbn [bb_prove_claim bb_prove_withdraw the_prover];
    by rewrite Hi.
Qed.

Lemma claim_goes_through_witness :
  ∃ a, (process claim (serve earlier the_relay)).1 = Ok a ∧
    cw_amount (sa_claim_witness a) = fr_from_be_bytes (rails_word 1000000) ∧
    claim_circuit (claim_input (sa_claim_witness a)) = true.
Proof.
  destruct (claim_goes_through 6 the_funder the_companion claim_time bundle card_m [] the_relay
    cohort_ms commitments 1) as (env & g & plain & cm & Hb & Hp & Hc & H).
  - apply funder_is_ready.
  - apply round_header_typed.
  - split; vm_compute; reflexivity.
  - apply companion_is_ready.
  - apply services_are_ready.
  - exists (rails_word 17), 0, []. reflexivity.
  - apply prover_complete.
  - reflexivity.
  - vm_compute. reflexivity.
  - reflexivity.
  - assert (the_envelope = env) as <- by (unfold the_envelope, the_result; by rewrite Hb).
    destruct (chain_has_claim cm Hc) as [Hview Hagree].
    destruct (H earlier claim pool_root_be (two_root cohort) pool_path (two_path cohort 1))
      as (a & Ha & Hpay & Hclaim & _).
    + reflexivity.
    + reflexivity.
    + apply claims_in_time.
    + apply claims_authentic.
    + exact Hview.
    + exact Hagree.
    + exists a. split; [exact Ha|]. split; [apply (py_amount _ _ _ _ _ _ _ _ Hpay)|exact Hclaim].
Defined.

(** ** The channel *)
Definition channel_ops : list ChannelOp :=
  [op_submit 1 the_envelope (rails_word 17); op_submit 2 junk (rails_word 18);
   op_submit 3 junk (rails_word 17); op_pull (rails_word 17)].
Definition channel_end :=
  channel_run channel_ops (with_clock [rails_word 17; rails_word 18], mk_log [] []).

Example channel_example : inbox channel_end.1 (rails_word 17) = [junk] ∧
  lg_given channel_end.2 = [the_envelope].
Proof. split; vm_compute; reflexivity. Qed.
