(* ===== verification/Weierstrass.v ===== *)
(** * The group of a short Weierstrass curve

    The points of [y^2 = x^3 + b] over a field, with the chord and tangent
    formulas, form a commutative group: the algebra behind [domain/grumpkin.rs]
    of the money-market-fund notes.  Nothing here depends on the program.

    The two generic cases of associativity are identities of rational
    functions modulo the curve's equation; the others follow from them by
    taking a point away again ([ec_add_sub]). *)

From Stdlib Require Import Field Ring PeanoNat.

(** ** The curve *)
Section curve.
Variables (F : Type) (zero one : F) (add mul sub : F -> F -> F) (opp inv : F -> F).
Definition ec_div a c := mul a (inv c).
Hypothesis FT : field_theory zero one add mul sub opp ec_div inv (@eq F).
Add Field Ff : FT.
Notation "0" := zero.
Notation "1" := one.
Infix "+" := add.
Infix "*" := mul.
Infix "-" := sub.
Infix "/" := ec_div.
Notation "- x" := (opp x).
Variable b : F.
Hypothesis F_dec : forall x y : F, {x = y} + {x <> y}.
Hypothesis two_nz : 1 + 1 <> 0.
Hypothesis three_nz : 1 + 1 + 1 <> 0.
Hypothesis b_nz : b <> 0.

(** Field facts. *)
Lemma ec_sub_nz x y : x <> y -> x - y <> 0.
Proof. intros H E. apply H. transitivity ((x - y) + y); [ring|]. rewrite E. ring. Qed.
Lemma ec_sub_z x y : x - y = 0 -> x = y.
Proof. intros E. transitivity ((x - y) + y); [ring|]. rewrite E. ring. Qed.
Lemma ec_mul_z x y : x * y = 0 -> x = 0 \/ y = 0.
Proof.
  intros E. destruct (F_dec x 0) as [|H]; [now left|]. right.
  transitivity (x * y / x); [field; exact H|]. rewrite E. field. exact H.
Qed.
Lemma ec_mul_nz x y : x <> 0 -> y <> 0 -> x * y <> 0.
Proof. intros Hx Hy E. destruct (ec_mul_z _ _ E); tauto. Qed.
Lemma ec_dbl_nz y : y <> 0 -> y + y <> 0.
Proof. intros H E. apply (ec_mul_nz _ _ two_nz H). rewrite <-E. ring. Qed.
(** The numerator of a non-zero quotient. *)
Lemma ec_num_nz q n d : d <> 0 -> q = n / d -> q <> 0 -> n <> 0.
Proof. intros Hd E H Hn. apply H. rewrite E, Hn. field. exact Hd. Qed.
Lemma ec_sq_eq y z : y * y = z * z -> y = z \/ y = - z.
Proof.
  intros E. destruct (ec_mul_z (y - z) (y + z)) as [H|H].
  - transitivity (y * y - z * z); [ring|]. rewrite E. ring.
  - left. now apply ec_sub_z.
  - right. apply ec_sub_z. rewrite <-H. ring.
Qed.
Lemma ec_self_opp y : y = - y -> y = 0.
Proof.
  intros E. destruct (F_dec y 0) as [|H]; [assumption|]. exfalso. apply (ec_dbl_nz y H).
  rewrite E at 1. ring.
Qed.

Definition ec_point := option (F * F).
Definition ec_on (p : ec_point) : Prop :=
  match p with None => True | Some (x, y) => y * y = x * x * x + b end.
Definition ec_neg (p : ec_point) : ec_point :=
  match p with None => None | Some (x, y) => Some (x, - y) end.
(** The mirror image of the third point of a line of slope [l] through two points. *)
Definition ec_third (l x1 y1 x2 : F) : ec_point :=
  let x3 := l * l - x1 - x2 in Some (x3, l * (x1 - x3) - y1).
Definition ec_tangent (x y : F) : F := (1 + 1 + 1) * (x * x) / (y + y).
Definition ec_chord (x1 y1 x2 y2 : F) : F := (y2 - y1) / (x2 - x1).
Definition ec_double (p : ec_point) : ec_point :=
  match p with
  | None => None
  | Some (x, y) => if F_dec y 0 then None else ec_third (ec_tangent x y) x y x
  end.
Definition ec_add (p q : ec_point) : ec_point :=
  match p, q with
  | None, _ => q
  | _, None => p
  | Some (x1, y1), Some (x2, y2) =>
      if F_dec x1 x2 then if F_dec y1 y2 then ec_double p else None
      else ec_third (ec_chord x1 y1 x2 y2) x1 y1 x2
  end.

Ltac nz := first [assumption | now apply ec_sub_nz; auto | now apply ec_dbl_nz].

Lemma ec_same_x x y z : ec_on (Some (x, y)) -> ec_on (Some (x, z)) -> y = z \/ y = - z.
Proof. cbn. intros H1 H2. apply ec_sq_eq. congruence. Qed.

Lemma ec_on_neg p : ec_on p -> ec_on (ec_neg p).
Proof. destruct p as [[x y]|]; cbn; [|trivial]. intros H. rewrite <-H. ring. Qed.
Lemma ec_neg_neg p : ec_neg (ec_neg p) = p.
Proof. destruct p as [[x y]|]; cbn; [|reflexivity]. do 2 f_equal. ring. Qed.

Lemma ec_on_third_chord x1 y1 x2 y2 :
  x1 <> x2 -> ec_on (Some (x1, y1)) -> ec_on (Some (x2, y2)) ->
  ec_on (ec_third (ec_chord x1 y1 x2 y2) x1 y1 x2).
Proof.
  cbn. intros H H1 H2. unfold ec_chord. assert (x2 - x1 <> 0) by (apply ec_sub_nz; auto).
  field [H1 H2]; assumption.
Qed.
Lemma ec_on_dbl p : ec_on p -> ec_on (ec_double p).
Proof.
  destruct p as [[x y]|]; cbn; [|trivial]. intros H. destruct (F_dec y 0) as [|Hy]; cbn; [trivial|].
  unfold ec_tangent. field [H]. now apply ec_dbl_nz.
Qed.
Lemma ec_on_add p q : ec_on p -> ec_on q -> ec_on (ec_add p q).
Proof.
  destruct p as [[x1 y1]|], q as [[x2 y2]|]; try (cbn; trivial; fail). intros H1 H2.
  unfold ec_add. destruct (F_dec x1 x2); [destruct (F_dec y1 y2); [now apply ec_on_dbl|exact I]|].
  now apply ec_on_third_chord.
Qed.

Lemma ec_third_eq l l' x1 y1 x2 x1' y1' x2' :
  l = l' -> x1 + x2 = x1' + x2' -> y1 - l * x1 = y1' - l' * x1' ->
  ec_third l x1 y1 x2 = ec_third l' x1' y1' x2'.
Proof.
  intros <- Ex Ey. unfold ec_third.
  assert (l * l - x1 - x2 = l * l - x1' - x2') as E.
  { transitivity (l * l - (x1 + x2)); [ring|]. rewrite Ex. ring. }
  rewrite E. do 2 f_equal. set (x3 := l * l - x1' - x2').
  transitivity (- l * x3 - (y1 - l * x1)); [ring|]. rewrite Ey. ring.
Qed.

Lemma ec_add_comm p q : ec_add p q = ec_add q p.
Proof.
  destruct p as [[x1 y1]|], q as [[x2 y2]|]; try reflexivity. unfold ec_add.
  destruct (F_dec x1 x2) as [->|H].
  - destruct (F_dec x2 x2) as [_|]; [|tauto]. destruct (F_dec y1 y2) as [->|];
      [now destruct (F_dec y2 y2)|]. destruct (F_dec y2 y1); [congruence|reflexivity].
  - destruct (F_dec x2 x1) as [|H']; [congruence|]. unfold ec_chord.
    assert (x2 - x1 <> 0 /\ x1 - x2 <> 0) as [] by (split; nz).
    apply ec_third_eq; field; auto.
Qed.
Lemma ec_add_none p : ec_add p None = p.
Proof. now destruct p as [[x y]|]. Qed.
Lemma ec_add_neg p : ec_add p (ec_neg p) = None.
Proof.
  destruct p as [[x y]|]; [|reflexivity]. cbn. destruct (F_dec x x) as [_|]; [|tauto].
  destruct (F_dec y (- y)) as [E|]; [|reflexivity].
  destruct (F_dec y 0) as [|H]; [reflexivity|]. now apply ec_self_opp in E.
Qed.
Lemma ec_add_none_inv p q : ec_on p -> ec_on q -> ec_add p q = None -> q = ec_neg p.
Proof.
  destruct p as [[x1 y1]|], q as [[x2 y2]|]; try (cbn; congruence).
  intros H1 H2. unfold ec_add. destruct (F_dec x1 x2) as [->|]; [|unfold ec_third; congruence].
  destruct (F_dec y1 y2) as [->|Hy].
  - cbn. destruct (F_dec y2 0) as [->|]; [|unfold ec_third; congruence]. intros _. do 2 f_equal. ring.
  - intros _. cbn. do 2 f_equal. destruct (ec_same_x _ _ _ H2 H1); congruence.
Qed.

Lemma ec_double_self p : ec_add p p = ec_double p.
Proof.
  destruct p as [[x y]|]; [|reflexivity]. unfold ec_add.
  destruct (F_dec x x); [|tauto]. now destruct (F_dec y y).
Qed.

Lemma ec_opp_eq y z : - y = - z -> y = z.
Proof. intros E. transitivity (- - y); [ring|]. rewrite E. ring. Qed.

Lemma ec_neg_add p q : ec_neg (ec_add p q) = ec_add (ec_neg p) (ec_neg q).
Proof.
  destruct p as [[x1 y1]|], q as [[x2 y2]|]; try reflexivity. unfold ec_add, ec_neg.
  destruct (F_dec x1 x2) as [->|H].
  - destruct (F_dec y1 y2) as [->|Hy].
    + destruct (F_dec (- y2) (- y2)) as [_|]; [|tauto]. unfold ec_double.
      destruct (F_dec y2 0) as [->|Hy].
      * destruct (F_dec (- 0) 0) as [|E]; [reflexivity|]. exfalso. apply E. ring.
      * destruct (F_dec (- y2) 0) as [E|E].
        { exfalso. apply Hy. transitivity (- - y2); [ring|]. rewrite E. ring. }
        unfold ec_third, ec_tangent. f_equal.
        f_equal; field; split; (exact (ec_dbl_nz _ Hy) || exact (ec_dbl_nz _ E)).
    + destruct (F_dec (- y1) (- y2)) as [E|]; [|reflexivity]. now apply ec_opp_eq in E.
  - unfold ec_third, ec_chord. assert (x2 - x1 <> 0) by nz. f_equal. f_equal; field; assumption.
Qed.

(** Taking the second point of a line away again. *)
Lemma ec_line_back l x1 y1 x2 y2 :
  y2 - y1 = l * (x2 - x1) ->
  (l * l - x1 - x2 = x2 -> y2 <> 0 /\ l = ec_tangent x2 y2) ->
  ec_add (ec_third l x1 y1 x2) (ec_neg (Some (x2, y2))) = Some (x1, y1).
Proof.
  intros Hl Ht. unfold ec_third, ec_neg, ec_add. set (x3 := l * l - x1 - x2) in *.
  assert (y1 = y2 - l * (x2 - x1)) as Ey by (rewrite <-Hl; ring).
  destruct (F_dec x3 x2) as [Ex|Hx].
  - destruct (Ht Ex) as [Hy El]. clear Ht.
    assert (l * (x1 - x3) - y1 = - y2) as E3 by (rewrite Ex, Ey; ring).
    rewrite E3. destruct (F_dec (- y2) (- y2)) as [_|]; [|tauto]. unfold ec_double.
    destruct (F_dec (- y2) 0) as [E|E].
    { exfalso. apply Hy. transitivity (- - y2); [ring|]. rewrite E. ring. }
    assert (ec_tangent x3 (- y2) = - l) as ->.
    { rewrite El, Ex. unfold ec_tangent. field. split; [exact (ec_dbl_nz _ Hy)|exact (ec_dbl_nz _ E)]. }
    unfold ec_third. rewrite Ex. f_equal.
    assert (- l * - l - x2 - x2 = x1) as ->.
    { transitivity (l * l - x1 - x2 - x2 + x1); [ring|]. fold x3. rewrite Ex. ring. }
    f_equal. rewrite Ey. ring.
  - assert (x2 - x3 <> 0) by nz.
    assert (ec_chord x3 (l * (x1 - x3) - y1) x2 (- y2) = - l) as ->.
    { unfold ec_chord. rewrite Ey. field. assumption. }
    unfold ec_third. f_equal. assert (- l * - l - x3 - x2 = x1) as -> by (unfold x3; ring).
    f_equal. ring.
Qed.

Lemma ec_tangent_line l x1 y1 x2 y2 :
  x1 <> x2 -> ec_on (Some (x1, y1)) -> ec_on (Some (x2, y2)) ->
  y2 - y1 = l * (x2 - x1) -> l * l - x1 - x2 = x2 -> y2 <> 0 /\ l = ec_tangent x2 y2.
Proof.
  cbn. intros Hx H1 H2 Hl E.
  assert (y1 = y2 - l * (x2 - x1)) as Ey by (rewrite <-Hl; ring).
  assert (l * l = x1 + x2 + x2) as Ell.
  { transitivity (l * l - x1 - x2 + x1 + x2); [ring|]. rewrite E. ring. }
  assert ((x2 - x1) * ((y2 + y2) * l - (1 + 1 + 1) * (x2 * x2)) = 0) as Ez.
  { transitivity ((y2 * y2 - (x2 * x2 * x2 + b)) - (y1 * y1 - (x1 * x1 * x1 + b))
      + (x2 - x1) * (x2 - x1) * (l * l - (x1 + x2 + x2))); [rewrite Ey; ring|].
    rewrite H1, H2, Ell. ring. }
  destruct (ec_mul_z _ _ Ez) as [E0|Et]; [now apply ec_sub_nz in E0; auto|]. apply ec_sub_z in Et.
  assert (y2 <> 0) as Hy.
  { intros ->. apply b_nz. assert (x2 = 0) as ->.
    { destruct (ec_mul_z (1 + 1 + 1) (x2 * x2)) as [|E2]; [rewrite <-Et; ring|tauto|].
      now destruct (ec_mul_z _ _ E2). }
    transitivity (0 * 0 * 0 + b); [ring|]. rewrite <-H2. ring. }
  split; [assumption|]. unfold ec_tangent. rewrite <-Et. field. now apply ec_dbl_nz.
Qed.

Lemma ec_add_sub p q : ec_on p -> ec_on q -> ec_add (ec_add p q) (ec_neg q) = p.
Proof.
  intros Hp Hq. destruct q as [[x2 y2]|]; [|now rewrite !ec_add_none].
  destruct p as [[x1 y1]|]; [|exact (ec_add_neg (Some (x2, y2)))].
  unfold ec_add at 2. destruct (F_dec x1 x2) as [->|Hx].
  - destruct (F_dec y1 y2) as [->|Hy].
    + unfold ec_double. destruct (F_dec y2 0) as [->|Hy].
      * cbn. do 2 f_equal. ring.
      * apply ec_line_back; [ring|]. auto.
    + cbn. do 2 f_equal. destruct (ec_same_x _ _ _ Hq Hp) as [E|E]; [congruence|rewrite E; ring].
  - assert (x2 - x1 <> 0) by nz.
    assert (y2 - y1 = ec_chord x1 y1 x2 y2 * (x2 - x1)) as El by (unfold ec_chord; field; assumption).
    apply ec_line_back; [exact El|]. now apply (ec_tangent_line _ x1 y1).
Qed.

(** ** Associativity *)

(** A side condition that is the numerator of a known non-zero quotient. *)
Ltac by_quotient H d unf :=
  match type of H with
  | ?q <> _ => apply (ec_num_nz q _ d); [now apply ec_mul_nz|unf; field; assumption|exact H]
  end.

Lemma ec_generic_assoc x1 y1 x2 y2 x3 y3 :
  ec_on (Some (x1, y1)) -> ec_on (Some (x2, y2)) -> ec_on (Some (x3, y3)) -> x1 <> x2 -> x2 <> x3 ->
  let l := ec_chord x1 y1 x2 y2 in let m := ec_chord x2 y2 x3 y3 in
  let x4 := l * l - x1 - x2 in let y4 := l * (x1 - x4) - y1 in
  let x5 := m * m - x2 - x3 in let y5 := m * (x2 - x5) - y2 in
  x4 <> x3 -> x1 <> x5 ->
  ec_third (ec_chord x4 y4 x3 y3) x4 y4 x3 = ec_third (ec_chord x1 y1 x5 y5) x1 y1 x5.
Proof.
  intros H1 H2 H3 D1 D2 l m x4 y4 x5 y5 D3 D4. cbn [ec_on] in H1, H2, H3.
  assert (x2 - x1 <> 0) as N1 by nz. assert (x3 - x2 <> 0) as N2 by nz.
  assert (x3 - x4 <> 0) as N3 by nz. assert (x5 - x1 <> 0) as N4 by nz.
  unfold ec_third. f_equal.
  f_equal; unfold ec_chord, y4, y5, x4, x5, l, m, ec_chord; field [H1 H2 H3]; repeat split;
    first [exact N1|exact N2
      | by_quotient N3 ((x2 - x1) * (x2 - x1)) ltac:(unfold x4, l, ec_chord)
      | by_quotient N4 ((x3 - x2) * (x3 - x2)) ltac:(unfold x5, m, ec_chord)].
Qed.

Lemma ec_generic_double x1 y1 x2 y2 :
  ec_on (Some (x1, y1)) -> ec_on (Some (x2, y2)) -> y1 <> 0 -> x1 <> x2 ->
  let l := ec_tangent x1 y1 in let m := ec_chord x1 y1 x2 y2 in
  let x4 := l * l - x1 - x1 in let y4 := l * (x1 - x4) - y1 in
  let x5 := m * m - x1 - x2 in let y5 := m * (x1 - x5) - y1 in
  x4 <> x2 -> x1 <> x5 ->
  ec_third (ec_chord x4 y4 x2 y2) x4 y4 x2 = ec_third (ec_chord x1 y1 x5 y5) x1 y1 x5.
Proof.
  intros H1 H2 D1 D2 l m x4 y4 x5 y5 D3 D4. cbn [ec_on] in H1, H2.
  assert (y1 + y1 <> 0) as N1 by now apply ec_dbl_nz. assert (x2 - x1 <> 0) as N2 by nz.
  assert (x2 - x4 <> 0) as N3 by nz. assert (x5 - x1 <> 0) as N4 by nz.
  unfold ec_third. f_equal.
  f_equal; unfold ec_chord, y4, y5, x4, x5, l, m, ec_chord, ec_tangent; field [H1 H2]; repeat split;
    first [exact N1|exact N2
      | by_quotient N3 ((y1 + y1) * (y1 + y1)) ltac:(unfold x4, l, ec_tangent)
      | by_quotient N4 ((x2 - x1) * (x2 - x1)) ltac:(unfold x5, m, ec_chord)].
Qed.

(** The cases in which some sum on the way is the neutral element. *)
Lemma ec_degenerate_assoc p q r :
  ec_on p -> ec_on q -> ec_on r ->
  p = None \/ q = None \/ r = None \/ q = ec_neg p \/ r = ec_neg q \/
  r = ec_neg (ec_add p q) \/ p = ec_neg (ec_add q r) ->
  ec_add (ec_add p q) r = ec_add p (ec_add q r).
Proof.
  intros Hp Hq Hr. pose proof (ec_on_neg _ Hp). pose proof (ec_on_neg _ Hq). pose proof (ec_on_neg _ Hr).
  intros [->|[->|[->|[->|[->|[->| ->]]]]]].
  - reflexivity.
  - now rewrite ec_add_none.
  - now rewrite !ec_add_none.
  - rewrite ec_add_neg, (ec_add_comm (ec_neg p) r), (ec_add_comm p). symmetry.
    rewrite <-(ec_neg_neg p) at 2. now apply ec_add_sub.
  - rewrite ec_add_neg, ec_add_none. now apply ec_add_sub.
  - rewrite ec_add_neg, ec_neg_add, (ec_add_comm (ec_neg p)), (ec_add_comm q).
    rewrite <-(ec_neg_neg q) at 2. rewrite (ec_add_comm (ec_neg q)), ec_add_sub by assumption.
    now rewrite ec_add_neg.
  - rewrite (ec_add_comm (ec_neg (ec_add q r)) (ec_add q r)), ec_add_neg, ec_neg_add.
    rewrite (ec_add_comm (ec_neg q)).
    rewrite <-(ec_neg_neg q) at 2. rewrite ec_add_sub by assumption. rewrite ec_add_comm. apply ec_add_neg.
Qed.

Lemma ec_cancel p q r : ec_on p -> ec_on q -> ec_on r -> ec_add p r = ec_add q r -> p = q.
Proof. intros Hp Hq Hr E. rewrite <-(ec_add_sub p r), <-(ec_add_sub q r) by assumption. now rewrite E. Qed.

Lemma ec_pt_dec (p q : ec_point) : {p = q} + {p <> q}.
Proof. repeat decide equality. Qed.

(** Points with the same abscissa. *)
Lemma ec_same_x_or x y1 y2 : ec_on (Some (x, y1)) -> ec_on (Some (x, y2)) ->
  Some (x, y1) = Some (x, y2) \/ Some (x, y1) = ec_neg (Some (x, y2)).
Proof. intros H1 H2. destruct (ec_same_x _ _ _ H1 H2) as [E|E]; rewrite E; [now left|now right]. Qed.

Lemma ec_add_third x1 y1 x2 y2 : x1 <> x2 ->
  ec_add (Some (x1, y1)) (Some (x2, y2)) = ec_third (ec_chord x1 y1 x2 y2) x1 y1 x2.
Proof. intros H. unfold ec_add. now destruct (F_dec x1 x2). Qed.
Lemma ec_dbl_third x y : y <> 0 -> ec_add (Some (x, y)) (Some (x, y)) = ec_third (ec_tangent x y) x y x.
Proof.
  intros H. unfold ec_add. destruct (F_dec x x); [|tauto]. destruct (F_dec y y); [|tauto].
  unfold ec_double. now destruct (F_dec y 0).
Qed.

Lemma ec_distinct_x x1 y1 x2 y2 : ec_on (Some (x1, y1)) -> ec_on (Some (x2, y2)) ->
  Some (x1, y1) <> Some (x2, y2) -> Some (x2, y2) <> ec_neg (Some (x1, y1)) -> x1 <> x2.
Proof.
  intros H1 H2 N1 N2 E. destruct E. destruct (ec_same_x_or _ _ _ H2 H1) as [E|E]; [|tauto].
  apply N1. now rewrite E.
Qed.

Lemma ec_neg_swap p q : q = ec_neg p -> p = ec_neg q.
Proof. intros E. now rewrite E, ec_neg_neg. Qed.

Lemma ec_double_generic p r :
  ec_on p -> ec_on r -> p <> r -> ec_add p p <> r -> p <> ec_add p r ->
  ec_add (ec_add p p) r = ec_add p (ec_add p r).
Proof.
  intros Hp Hr N1 N2 N3.
  pose proof (ec_degenerate_assoc p p r Hp Hp Hr) as Hd.
  destruct p as [[x1 y1]|]; [|now apply Hd; left].
  destruct r as [[x2 y2]|]; [|now apply Hd; tauto].
  destruct (ec_pt_dec (Some (x1, y1)) (ec_neg (Some (x1, y1)))) as [E|D1]; [apply Hd; tauto|].
  destruct (ec_pt_dec (Some (x2, y2)) (ec_neg (Some (x1, y1)))) as [E|D2]; [apply Hd; tauto|].
  destruct (ec_pt_dec (Some (x2, y2)) (ec_neg (ec_add (Some (x1, y1)) (Some (x1, y1))))) as [E|D3];
    [apply Hd; tauto|].
  destruct (ec_pt_dec (Some (x1, y1)) (ec_neg (ec_add (Some (x1, y1)) (Some (x2, y2))))) as [E|D4];
    [apply Hd; tauto|]. clear Hd.
  assert (y1 <> 0) as Hy by (intros E; apply D1; cbn; do 2 f_equal; rewrite E; ring).
  assert (x1 <> x2) as Hx by now apply (ec_distinct_x x1 y1 x2 y2).
  pose proof (ec_on_add _ _ Hp Hp) as H4. pose proof (ec_on_add _ _ Hp Hr) as H5.
  rewrite ec_dbl_third in * by exact Hy. rewrite (ec_add_third x1 y1 x2 y2) in * by exact Hx.
  unfold ec_third in *. rewrite !ec_add_third.
  - apply ec_generic_double; try assumption.
    + now apply (ec_distinct_x _ _ _ _ H4 Hr N2).
    + apply (ec_distinct_x _ _ _ _ Hp H5 N3). intros E. apply D4. now apply ec_neg_swap.
  - apply (ec_distinct_x _ _ _ _ Hp H5 N3). intros E. apply D4. now apply ec_neg_swap.
  - now apply (ec_distinct_x _ _ _ _ H4 Hr N2).
Qed.

Lemma ec_sub_add p q : ec_on p -> ec_on q -> ec_add (ec_add p (ec_neg q)) q = p.
Proof. intros Hp Hq. rewrite <-(ec_neg_neg q) at 2. apply ec_add_sub; [exact Hp|now apply ec_on_neg]. Qed.
Lemma ec_absorbed p r : ec_on p -> ec_on r -> p = ec_add p r -> r = None.
Proof. intros Hp Hr E. apply (ec_cancel r None p); [easy..|]. rewrite ec_add_comm, <-E. reflexivity. Qed.

Lemma ec_fourfold p : ec_on p -> let d := ec_add p p in ec_add d d = ec_add p (ec_add p d).
Proof.
  intros Hp d. assert (ec_on d) as Hd by now apply ec_on_add. pose proof (ec_on_neg _ Hp) as Hn.
  assert (ec_add d (ec_neg p) = p) as Edp by now apply ec_add_sub.
  destruct (ec_pt_dec d (ec_neg p)) as [E|N1].
  { apply ec_degenerate_assoc; tauto. }
  destruct (ec_pt_dec (ec_add d d) (ec_neg p)) as [E|N2].
  { assert (ec_add p d = ec_neg d) as ->.
    { apply ec_neg_swap in E. rewrite E, ec_neg_add. apply ec_sub_add; [now apply ec_on_neg|exact Hd]. }
    rewrite E. rewrite <-(ec_neg_neg p) at 2. rewrite <-ec_neg_add. f_equal. now rewrite ec_add_comm. }
  destruct (ec_pt_dec d p) as [E|N3].
  { apply ec_degenerate_assoc; try assumption. left. now apply (ec_absorbed p p). }
  rewrite <-(ec_sub_add (ec_add d d) p) by (assumption || now apply ec_on_add).
  rewrite (ec_double_generic d (ec_neg p)), Edp by (assumption || now rewrite Edp).
  now rewrite ec_add_comm, (ec_add_comm d).
Qed.

Lemma ec_double_assoc p r : ec_on p -> ec_on r -> ec_add (ec_add p p) r = ec_add p (ec_add p r).
Proof.
  intros Hp Hr. destruct (ec_pt_dec p r) as [<-|N1]; [apply ec_add_comm|].
  destruct (ec_pt_dec (ec_add p p) r) as [<-|N2]; [now apply ec_fourfold|].
  destruct (ec_pt_dec p (ec_add p r)) as [E|N3]; [|now apply ec_double_generic].
  apply ec_degenerate_assoc; try assumption. right; right; left. now apply (ec_absorbed p).
Qed.

(** Adding a sum to itself. *)
Lemma ec_sum_double p q :
  ec_on p -> ec_on q -> ec_add (ec_add p q) (ec_add p q) = ec_add p (ec_add q (ec_add p q)).
Proof.
  intros Hp Hq. set (s := ec_add p q). assert (ec_on s) as Hs by now apply ec_on_add.
  pose proof (ec_on_neg _ Hp).
  assert (ec_add s (ec_neg p) = q) as E by (unfold s; rewrite (ec_add_comm p); now apply ec_add_sub).
  rewrite <-(ec_sub_add (ec_add s s) p) by (assumption || now apply ec_on_add).
  rewrite ec_double_assoc, E by assumption. now rewrite ec_add_comm, (ec_add_comm s).
Qed.

Theorem ec_add_assoc p q r : ec_on p -> ec_on q -> ec_on r -> ec_add (ec_add p q) r = ec_add p (ec_add q r).
Proof.
  intros Hp Hq Hr. destruct (ec_pt_dec p q) as [<-|N1]; [now apply ec_double_assoc|].
  destruct (ec_pt_dec q r) as [<-|N2].
  { rewrite (ec_add_comm p), (ec_add_comm (ec_add q p)), (ec_add_comm p). symmetry.
    now apply ec_double_assoc. }
  destruct (ec_pt_dec (ec_add p q) r) as [<-|N3]; [now apply ec_sum_double|].
  destruct (ec_pt_dec p (ec_add q r)) as [E|N4].
  { rewrite E, (ec_add_comm q r), (ec_sum_double r q) by assumption.
    now rewrite (ec_add_comm _ q), (ec_add_comm _ r). }
  pose proof (ec_degenerate_assoc p q r Hp Hq Hr) as Hd.
  destruct p as [[x1 y1]|]; [|now apply Hd; left].
  destruct q as [[x2 y2]|]; [|now apply Hd; tauto].
  destruct r as [[x3 y3]|]; [|now apply Hd; tauto].
  destruct (ec_pt_dec (Some (x2, y2)) (ec_neg (Some (x1, y1)))) as [E|D1]; [apply Hd; tauto|].
  destruct (ec_pt_dec (Some (x3, y3)) (ec_neg (Some (x2, y2)))) as [E|D2]; [apply Hd; tauto|].
  destruct (ec_pt_dec (Some (x3, y3)) (ec_neg (ec_add (Some (x1, y1)) (Some (x2, y2))))) as [E|D3];
    [apply Hd; tauto|].
  destruct (ec_pt_dec (Some (x1, y1)) (ec_neg (ec_add (Some (x2, y2)) (Some (x3, y3))))) as [E|D4];
    [apply Hd; tauto|]. clear Hd.
  pose proof (ec_on_add _ _ Hp Hq) as H4. pose proof (ec_on_add _ _ Hq Hr) as H5.
  assert (x1 <> x2) as Hx by now apply (ec_distinct_x x1 y1 x2 y2).
  assert (x2 <> x3) as Hx' by now apply (ec_distinct_x x2 y2 x3 y3).
  rewrite (ec_add_third x1 y1 x2 y2) in * by exact Hx. rewrite (ec_add_third x2 y2 x3 y3) in * by exact Hx'.
  unfold ec_third in *.
  pose proof (ec_distinct_x _ _ _ _ H4 Hr N3 D3) as Hx4.
  assert (D4' : Some (ec_chord x2 y2 x3 y3 * ec_chord x2 y2 x3 y3 - x2 - x3,
      ec_chord x2 y2 x3 y3 * (x2 - (ec_chord x2 y2 x3 y3 * ec_chord x2 y2 x3 y3 - x2 - x3)) - y2)
    <> ec_neg (Some (x1, y1))) by (intros E; apply D4; now apply ec_neg_swap).
  pose proof (ec_distinct_x _ _ _ _ Hp H5 N4 D4') as Hx5.
  rewrite !ec_add_third by assumption. now apply ec_generic_assoc.
Qed.

(** ** Multiples *)
Fixpoint ec_mul (n : nat) (p : ec_point) : ec_point :=
  match n with O => None | S n' => ec_add (ec_mul n' p) p end.

Lemma ec_on_mul n p : ec_on p -> ec_on (ec_mul n p).
Proof. intros Hp. induction n; [exact I|]. now apply ec_on_add. Qed.

Lemma ec_mul_add m n p : ec_on p -> ec_mul (m + n) p = ec_add (ec_mul m p) (ec_mul n p).
Proof.
  intros Hp. induction n as [|n IH]; [now rewrite Nat.add_0_r, ec_add_none|].
  rewrite Nat.add_succ_r. cbn [ec_mul]. rewrite IH.
  apply ec_add_assoc; auto using ec_on_mul.
Qed.

Lemma ec_mul_mul m n p : ec_on p -> ec_mul (m * n) p = ec_mul m (ec_mul n p).
Proof.
  intros Hp. induction m as [|m IH]; [reflexivity|].
  change (S m * n)%nat with (n + m * n)%nat. rewrite ec_mul_add, IH by exact Hp. apply ec_add_comm.
Qed.
End curve.
