(* ===== verification/Primality.v ===== *)
(** * Primality of the BN254 scalar field's modulus

    An element [x] of order [F] modulo every divisor of [n] bounds the divisors
    below by [F]; when [F] passes the square root of [n], [n] is prime.  The
    certificates at the end apply this down to numbers small enough for trial
    division.  Nothing here depends on the program; the sample of the
    money-market-fund notes uses it to show that its field inverse obeys the
    law the theorems rely on. *)

From Stdlib Require Import Bool ZArith Zpow_facts Zdivisibility Lia List Wf_nat.
Import ListNotations.
Open Scope Z_scope.

(** ** Prime divisors *)
Lemma prime_divisor n : 1 < n -> exists q, Z.prime q /\ (q | n).
Proof.
  intros H. remember (Z.to_nat n) as k eqn:Hk. revert n H Hk.
  induction k as [k IH] using (well_founded_induction lt_wf). intros n H ->.
  set (has := fun d => ((1 <? d) && (n mod d =? 0))%bool).
  destruct (existsb has (map Z.of_nat (seq 0 (Z.to_nat n)))) eqn:E.
  - apply existsb_exists in E as (d & Hd & E). apply in_map_iff in Hd as (i & <- & Hi).
    apply in_seq in Hi. apply andb_prop in E as [E1 E2].
    apply Z.ltb_lt in E1. apply Z.eqb_eq, Z.mod_divide in E2; [|lia].
    destruct (IH i ltac:(lia) (Z.of_nat i) ltac:(lia) ltac:(lia)) as (q & Hq & Hqd).
    exists q. split; [exact Hq|]. now apply Z.divide_trans with (Z.of_nat i).
  - exists n. split; [|apply Z.divide_refl]. split; [exact H|]. intros d Hd Hdn.
    enough (has d = true) as Ht.
    { apply not_true_iff_false in E. apply E. apply existsb_exists. exists d. split; [|exact Ht].
      apply in_map_iff. exists (Z.to_nat d). split; [lia|]. apply in_seq. lia. }
    unfold has. apply Z.mod_divide in Hdn; [|lia]. rewrite Hdn.
    now rewrite (proj2 (Z.ltb_lt 1 d)) by lia.
Qed.

(** ** An element of known order

    Modulo every divisor [d > 1] of [n] the element [x] has order [F], so that
    [d] exceeds [F]. *)
Section order.
Variables (d x F : Z).
Hypothesis Hd : 1 < d.
Hypothesis HF : 0 < F.
Hypothesis Hx : (d | x ^ F - 1).
Hypothesis Hq : forall q, Z.prime q -> (q | F) -> ~ (d | x ^ (F / q) - 1).

Lemma unit_coprime l : (d | x ^ l - 1) -> Z.coprime d (x ^ l).
Proof. intros [c Hc]. apply Z.coprime_Bezout. exists (- c), 1. lia. Qed.

Lemma unit_sub k l : 0 <= l <= k -> (d | x ^ k - x ^ l) -> Z.coprime d (x ^ l) ->
  (d | x ^ (k - l) - 1).
Proof.
  intros Hl Hk Hr. apply Z.gauss with (x ^ l); [|exact Hr].
  replace (x ^ l * (x ^ (k - l) - 1)) with (x ^ k - x ^ l); [exact Hk|].
  replace k with (l + (k - l)) at 1 by lia. rewrite Z.pow_add_r by lia. ring.
Qed.

Lemma unit_mul k l : 0 <= k -> 0 <= l -> (d | x ^ k - 1) -> (d | x ^ (l * k) - 1).
Proof.
  intros Hk Hl H. revert l Hl. apply natlike_ind; [exists 0; reflexivity|].
  intros l Hl IH. unfold Z.succ. rewrite Z.mul_add_distr_r, Z.mul_1_l, Z.pow_add_r by lia.
  replace (x ^ (l * k) * x ^ k - 1) with (x ^ (l * k) * (x ^ k - 1) + (x ^ (l * k) - 1)) by ring.
  apply Z.divide_add_r; [now apply Z.divide_mul_r|assumption].
Qed.

Definition unit_at (k : Z) : Prop := 0 < k /\ (d | x ^ k - 1).

Lemma least_unit : exists m, unit_at m /\ forall k, unit_at k -> m <= k.
Proof.
  destruct (dec_inh_nat_subset_has_unique_least_element (fun n => unit_at (Z.of_nat n)))
    as (m & [Hm Hle] & _).
  - intros n. unfold unit_at. destruct (Z_lt_dec 0 (Z.of_nat n)); [|right; tauto].
    destruct (Z.BoolSpec_divide d (x ^ Z.of_nat n - 1)); [left|right]; tauto.
  - exists (Z.to_nat F). rewrite Z2Nat.id by lia. split; assumption.
  - exists (Z.of_nat m). split; [exact Hm|]. intros k [Hk Hk'].
    specialize (Hle (Z.to_nat k)). rewrite Z2Nat.id in Hle by lia.
    specialize (Hle (conj Hk Hk')). lia.
Qed.

Lemma order_is_F k : unit_at k -> F <= k.
Proof.
  destruct least_unit as (m & [Hm Hxm] & Hle). intros Hk. specialize (Hle _ Hk) as Hk'.
  enough (m = F) by lia.
  assert (F mod m = 0) as Hmod.
  { pose proof (Z.mod_pos_bound F m Hm) as Hb. destruct (Z.eq_dec (F mod m) 0) as [|Hn]; [assumption|].
    enough (unit_at (F mod m)) as Hu by (apply Hle in Hu; lia). split; [lia|].
    pose proof (Z.div_pos F m ltac:(lia) Hm). pose proof (Z.mul_div_le F m Hm).
    assert (d | x ^ (F / m * m) - 1) as Hu by (apply unit_mul; [lia|lia|assumption]).
    rewrite Z.mod_eq, Z.mul_comm by lia. apply unit_sub; [nia| |now apply unit_coprime].
    replace (x ^ F - x ^ (F / m * m)) with ((x ^ F - 1) - (x ^ (F / m * m) - 1)) by ring.
    now apply Z.divide_sub_r. }
  apply Z.mod_divide in Hmod as [c Hc]; [|lia].
  assert (0 < c) as Hc0 by nia. destruct (Z.eq_dec c 1) as [->|Hn]; [lia|].
  destruct (prime_divisor c ltac:(lia)) as (q & Hqp & [e He]).
  exfalso. pose proof (Z.prime_ge_2 q Hqp). apply (Hq q Hqp).
  - exists (e * m). rewrite Hc, He. ring.
  - replace (F / q) with (e * m); [apply unit_mul; [lia|nia|assumption]|].
    apply Z.div_unique_exact; [lia|]. rewrite Hc, He. ring.
Qed.

(** The powers below [F] are distinct and not zero modulo [d]. *)
Lemma powers_distinct i j : 0 <= i < j -> j < F -> x ^ i mod d <> x ^ j mod d.
Proof.
  intros Hi Hj E. enough (unit_at (j - i)) as Hu by (apply order_is_F in Hu; lia).
  split; [lia|]. apply unit_sub; [lia| |].
  - apply Z.mod_divide; [lia|]. rewrite Zminus_mod, E, Z.sub_diag. apply Z.mod_0_l. lia.
  - pose proof (unit_coprime _ Hx) as Hc. apply Z.coprime_Bezout. apply Z.Bezout_coprime in Hc as (u & v & Huv).
    exists u, (v * x ^ (F - i)). replace F with (i + (F - i)) in Huv by lia.
    rewrite Z.pow_add_r in Huv by lia. lia.
Qed.

Lemma power_nonzero i : 0 <= i < F -> x ^ i mod d <> 0.
Proof.
  intros Hi E. apply Z.mod_divide in E; [|lia]. apply (Z.divide_mul_l _ _ (x ^ (F - i))) in E.
  rewrite <-Z.pow_add_r in E by lia. replace (i + (F - i)) with F in E by lia.
  pose proof (Z.divide_sub_r _ _ _ E Hx) as H1. replace (x ^ F - (x ^ F - 1)) with 1 in H1 by ring.
  apply Z.divide_1_r_nonneg in H1; lia.
Qed.

Lemma order_bound : F < d.
Proof.
  set (l := map (fun i => x ^ Z.of_nat i mod d) (seq 0 (Z.to_nat F))).
  assert (NoDup l) as Hnd.
  { apply NoDup_map_NoDup_ForallPairs; [|apply seq_NoDup].
    intros i j Hi Hj E. apply in_seq in Hi, Hj.
    destruct (Nat.lt_total i j) as [H|[H|H]]; [exfalso|exact H|exfalso].
    - apply (powers_distinct (Z.of_nat i) (Z.of_nat j)); [lia..|exact E].
    - apply (powers_distinct (Z.of_nat j) (Z.of_nat i)); [lia..|now symmetry]. }
  assert (incl l (map Z.of_nat (seq 1 (Z.to_nat (d - 1))))) as Hincl.
  { intros z Hz. apply in_map_iff in Hz as (i & <- & Hi). apply in_seq in Hi.
    pose proof (power_nonzero (Z.of_nat i) ltac:(lia)).
    pose proof (Z.mod_pos_bound (x ^ Z.of_nat i) d ltac:(lia)).
    apply in_map_iff. exists (Z.to_nat (x ^ Z.of_nat i mod d)). split; [lia|]. apply in_seq. lia. }
  apply NoDup_incl_length in Hincl; [|exact Hnd]. unfold l in Hincl.
  rewrite !length_map, !length_seq in Hincl. lia.
Qed.
End order.

Theorem order_prime n x F :
  1 < n -> 0 < F -> n < (F + 1) * (F + 1) -> x ^ F mod n = 1 ->
  (forall q, Z.prime q -> (q | F) -> Z.coprime (x ^ (F / q) - 1) n) -> Z.prime n.
Proof.
  intros Hn HF Hsq Hx Hq.
  assert (forall d, 1 < d -> (d | n) -> F < d) as Hb.
  { intros d Hd Hdn. apply (order_bound d x F Hd HF).
    - apply Z.divide_trans with n; [exact Hdn|]. apply Z.mod_divide; [lia|].
      rewrite Zminus_mod, Hx, (Z.mod_small 1 n) by lia. now apply Z.mod_0_l; lia.
    - intros q Hqp HqF Hdx. specialize (Hq q Hqp HqF). unfold Z.coprime in Hq.
      assert (d | 1) as H1 by (rewrite <-Hq; now apply Z.gcd_greatest).
      apply Z.divide_1_r_nonneg in H1; lia. }
  split; [exact Hn|]. intros d Hd [e He]. pose proof (Hb d ltac:(lia) (ex_intro _ e He)).
  assert (1 < e) by nia. pose proof (Hb e ltac:(lia)) as Hbe.
  assert (F < e) by (apply Hbe; exists d; lia). nia.
Qed.

(** ** Certificates *)
Lemma coprime_inverse a u n : 1 < n -> a * u mod n = 1 -> Z.coprime a n.
Proof.
  intros Hn E. apply Z.coprime_Bezout. exists u, (- (a * u / n)).
  pose proof (Z.div_mod (a * u) n ltac:(lia)). lia.
Qed.

(** [x] has order [q] modulo [n]; [u] inverts [x - 1]. *)
Definition certifies1 (n x q u : Z) : bool :=
  (1 <? n) && (n <? (q + 1) * (q + 1)) && (Zpow_mod x q n =? 1) && ((x - 1) * u mod n =? 1).
Lemma certificate1 n x q u : Z.prime q -> certifies1 n x q u = true -> Z.prime n.
Proof.
  unfold certifies1. rewrite !andb_true_iff, !Z.ltb_lt, !Z.eqb_eq. intros Hq [[[Hn Hsq] Hx] Hu].
  pose proof (Z.prime_ge_2 q Hq). rewrite Zpow_mod_correct in Hx by lia.
  apply (order_prime n x q); [lia|lia|lia|exact Hx|]. intros q' Hq' Hd.
  apply Z.divide_prime_prime in Hd; [|assumption..]. subst q'.
  rewrite Z.div_same, Z.pow_1_r by lia. now apply (coprime_inverse _ u).
Qed.

(** [x] has order [q1 * q2] modulo [n]; [u1] and [u2] invert [x ^ q1 - 1] and
    [x ^ q2 - 1]. *)
Definition certifies2 (n x q1 q2 u1 u2 : Z) : bool :=
  let y1 := Zpow_mod x q1 n in
  (1 <? n) && (n <? (q1 * q2 + 1) * (q1 * q2 + 1)) && (Zpow_mod y1 q2 n =? 1)
  && ((y1 - 1) * u1 mod n =? 1) && ((Zpow_mod x q2 n - 1) * u2 mod n =? 1).

Lemma pow_less_one x q u n : 1 < n -> 0 <= q ->
  (Zpow_mod x q n - 1) * u mod n = 1 -> Z.coprime (x ^ q - 1) n.
Proof.
  intros Hn Hq E. rewrite Zpow_mod_correct in E by lia. apply (coprime_inverse _ u); [exact Hn|].
  etransitivity; [|exact E].
  rewrite (Z.mul_mod (x ^ q - 1)), (Z.mul_mod (x ^ q mod n - 1)) by lia.
  now rewrite (Zminus_mod (x ^ q mod n)), Zmod_mod, <-Zminus_mod.
Qed.

Lemma certificate2 n x q1 q2 u1 u2 :
  Z.prime q1 -> Z.prime q2 -> certifies2 n x q1 q2 u1 u2 = true -> Z.prime n.
Proof.
  unfold certifies2. rewrite !andb_true_iff, !Z.ltb_lt, !Z.eqb_eq.
  intros Hq1 Hq2 [[[[Hn Hsq] Hx] H1] H2].
  pose proof (Z.prime_ge_2 _ Hq1). pose proof (Z.prime_ge_2 _ Hq2).
  apply pow_less_one in H1, H2; [|lia..].
  apply (order_prime n x (q1 * q2)); [lia|lia|lia| |].
  - rewrite !Zpow_mod_correct in Hx by lia. rewrite Z.pow_mul_r by lia.
    now rewrite <-Zpower_mod in Hx by lia.
  - intros q Hq Hd. apply Z.divide_prime_mul in Hd as [Hd|Hd]; [| |assumption];
      apply Z.divide_prime_prime in Hd; try assumption; subst q.
    + rewrite Z.mul_comm, Z.div_mul by lia. exact H2.
    + rewrite Z.div_mul by lia. exact H1.
Qed.

(** Trial division up to [k], past the square root. *)
Definition trial (n : Z) (k : nat) : bool :=
  (1 <? n) && (n <? (Z.of_nat k + 1) * (Z.of_nat k + 1))
  && forallb (fun d => negb (n mod Z.of_nat d =? 0) || (n <=? Z.of_nat d)) (seq 2 (k - 1)).
Lemma trial_prime n k : trial n k = true -> Z.prime n.
Proof.
  unfold trial. rewrite !andb_true_iff, !Z.ltb_lt, forallb_forall. intros [[Hn Hk] H].
  assert (forall d, 1 < d < n -> (d | n) -> Z.of_nat k < d) as Hb.
  { intros d Hd Hdn. destruct (Z.lt_ge_cases (Z.of_nat k) d) as [|Hle]; [assumption|].
    specialize (H (Z.to_nat d)). rewrite in_seq, Z2Nat.id in H by lia.
    apply Z.mod_divide in Hdn; [|lia]. rewrite Hdn in H. specialize (H ltac:(lia)).
    cbn in H. apply Z.leb_le in H. lia. }
  split; [lia|]. intros d Hd [e He]. pose proof (Hb d Hd (ex_intro _ e He)).
  assert (Z.of_nat k < e) by (apply Hb; [nia|exists d; lia]). nia.
Qed.

Lemma prime_853 : Z.prime 853.
Proof. apply (trial_prime _ 29). vm_compute. reflexivity. Qed.
Lemma prime_1637 : Z.prime 1637.
Proof. apply (trial_prime _ 40). vm_compute. reflexivity. Qed.
Lemma prime_639533339 : Z.prime 639533339.
Proof.
  apply (certificate2 _
    569936353
    853 1637
    296391531
    303978671
    prime_853 prime_1637).
  vm_compute. reflexivity.
Qed.
Lemma prime_65865678001877903 : Z.prime 65865678001877903.
Proof.
  apply (certificate1 _ 8595199928015311
    639533339 39033286818209505 prime_639533339).
  vm_compute. reflexivity.
Qed.
Lemma prime_13818364434197438864469338081 : Z.prime 13818364434197438864469338081.
Proof.
  apply (certificate1 _ 7935281130018080704632618576
    65865678001877903 12281824895882260584345986666 prime_65865678001877903).
  vm_compute. reflexivity.
Qed.
Lemma prime_661 : Z.prime 661.
Proof. apply (trial_prime _ 25). vm_compute. reflexivity. Qed.
Lemma prime_93001 : Z.prime 93001.
Proof. apply (trial_prime _ 304). vm_compute. reflexivity. Qed.
Lemma prime_12048837557 : Z.prime 12048837557.
Proof.
  apply (certificate2 _
    9314271357
    661 93001
    10304344409
    1826643224
    prime_661 prime_93001).
  vm_compute. reflexivity.
Qed.
Lemma prime_5156902474397 : Z.prime 5156902474397.
Proof.
  apply (certificate1 _ 4746712836098
    12048837557 5089286551700 prime_12048837557).
  vm_compute. reflexivity.
Qed.
Lemma prime_1670836401704629 : Z.prime 1670836401704629.
Proof.
  apply (certificate1 _ 11046204280772
    5156902474397 735766788910399 prime_5156902474397).
  vm_compute. reflexivity.
Qed.
Lemma fr_modulus_prime :
  Z.prime 21888242871839275222246405745257275088548364400416034343698204186575808495617.
Proof.
  apply (certificate2 _
    4067217240286848671452265983065331897323918408910809300406102239489012348584
    1670836401704629 13818364434197438864469338081
    18830771696733986827343121108258373716716634563029220880262390084180817631389
    86052601511993865195709936845511121156384965108811623497653747272590813794
    prime_1670836401704629 prime_13818364434197438864469338081).
  vm_compute. reflexivity.
Qed.
