(* ===== verification/MmfTypes.v ===== *)
(** * Money-market-fund notes: data and cryptography

    Model of [lib.rs], [types.rs], [poseidon.rs], [domain/note.rs],
    [domain/grumpkin.rs], [domain/feed.rs], [domain/plan.rs],
    [domain/keys.rs] and [crypto/encryption.rs] of
    [src/pocs/private-mmf/shielded-notes/src].  A word or an address is its list of bytes and a [u64] a number in [Z]; random draws
    are arguments.  The signatures of [k256], the seal of [sealring] and the
    field inverse of [ark_ff] are classes. *)

From Stdlib Require Import ZArith Lia Bool.
From stdpp Require Import base tactics list gmap strings numbers.
From S2P Require Import Prelude Field Types Poseidon.

Abbreviation Address := (list byte) (only parsing).

(** ** Constants *)
Definition ATTESTATION_PERIOD : Z := 30.
Definition ATTESTATION_OVERLAP : Z := 3.
Definition EPOCH_SECONDS : Z := 86400.
Definition S_ : Z := 1000000000000000000.
Definition two_to_160 : Fr := fr_of_Z (Z.shiftl 1 160).
Definition NK_TAG : Fr := fr_add two_to_160 (fr_of_Z 16).
Definition OWNER_TAG : Fr := fr_add two_to_160 (fr_of_Z 17).
Definition LOCK_TAG : Fr := fr_add two_to_160 (fr_of_Z 18).
Definition PLAN_TAG : Fr := fr_add two_to_160 (fr_of_Z 19).
Definition FEED_TAG : Fr := fr_add two_to_160 (fr_of_Z 20).
Definition u64_max : Z := 2 ^ 64 - 1.

(** The values of a [u64]. *)
Definition is_u64 (z : Z) : Prop := 0 ≤ z < 2 ^ 64.

Inductive CryptoError : Type :=
| NotCanonical (b : Bytes32)
| MalformedCiphertext
| DecryptionFailed
| InvalidKey
| PlanMismatch
| RegistrationKeyMismatch
| BadSignature.

(** [TryFrom<Bytes32> for Fr] and [From<Address> for Fr]. *)
Definition fr_try_from (value : Bytes32) : outcome CryptoError Fr :=
  let n := be_to_Z value in
  ensure (negb (fr_modulus <=? n)) (NotCanonical value);;
  Ok (fr_of_Z n).
Definition fr_of_address (value : Address) : Fr := fr_of_Z (be_to_Z value).

Definition fr_sub (a b : Fr) : Fr := fr_of_Z (fr_val a - fr_val b).

Lemma fr_try_to (a : Fr) : fr_try_from (fr_to_be_bytes a) = Ok a.
Proof.
  unfold fr_try_from. rewrite be_to_Z_fr_to_be_bytes. pose proof (fr_range a).
  rewrite ensure_bind by (apply negb_true_iff, Z.leb_gt; lia). by rewrite fr_of_val.
Qed.

Lemma fr_try_from_Ok b a :
  length b = 32%nat → fr_try_from b = Ok a ↔ b = fr_to_be_bytes a.
Proof.
  intros Hl. split; [|intros ->; apply fr_try_to]. unfold fr_try_from. intros H.
  apply bind_Ok in H as (u & Hu%ensure_Ok & H). apply (inj Ok) in H. subst a.
  rewrite fr_to_be_bytes_eq, fr_val_of_Z; [by rewrite be_of_to_Z|].
  reflect_bools. pose proof (be_to_Z_range b). lia.
Qed.

Lemma fr_sub_add a b : fr_sub (fr_add a b) b = a.
Proof.
  apply fr_eq. unfold fr_sub, fr_add, fr_of_Z. cbn [fr_val].
  pose proof (fr_range a). rewrite Zminus_mod_idemp_l.
  replace (fr_val a + fr_val b - fr_val b) with (fr_val a) by lia. by apply Z.mod_small.
Qed.

(** A sponge over [permute_t5]: the elements go to slots 1 to 4, with a
    permutation after every fourth and after a final partial block. *)
Section sponge.
Context `{C : Crypto}.

Definition absorb_step (si : list Fr * nat) (m : Fr) : list Fr * nat :=
  let '(state, i) := si in
  let state := alter (λ s, fr_add s m) (1 + i)%nat state in
  if (S i =? 4)%nat then (permute_t5 state, 0%nat) else (state, S i).
Definition sponge (msg : list Fr) : Fr :=
  let '(state, i) := foldl absorb_step (replicate 5 fr_zero, 0%nat) msg in
  let state := if (i =? 0)%nat then state else permute_t5 state in
  fr_at state 1.
End sponge.

(** ** Locks and notes *)
Definition LOCK_FREEZE : Z := 1.
Definition LOCK_HOLD : Z := 2.

Record LockOpening : Type := mk_lock {
  lo_reason : Z;
  lo_release_after : Z;
  lo_claim_party : Fr;
}.
#[export] Instance LockOpening_eq_dec : EqDecision LockOpening.
Proof. solve_decision. Defined.

Definition lock_none : LockOpening := mk_lock 0 0 fr_zero.
Definition lock_freeze : LockOpening := mk_lock LOCK_FREEZE u64_max fr_zero.
Definition lock_hold (epoch : Z) : LockOpening := mk_lock LOCK_HOLD epoch fr_zero.

Record Note : Type := mk_note {
  nt_token : Fr;
  nt_units : Z;
  nt_owner : Fr;
  nt_salt : Fr;
  nt_lock : Fr;
}.
#[export] Instance Note_eq_dec : EqDecision Note.
Proof. solve_decision. Defined.

Definition NOTE_FIELDS : nat := 5.
Definition NOTE_BYTES : nat := NOTE_FIELDS * 32.

(** The widths of the fields. *)
Definition note_typed (n : Note) : Prop := is_u64 (nt_units n).
Definition lock_typed (o : LockOpening) : Prop :=
  is_u64 (lo_reason o) ∧ is_u64 (lo_release_after o).

Definition small (f : Fr) : option Z :=
  let bytes := fr_to_be_bytes f in
  if existsb (λ b, negb (bool_decide (b = x00))) (take 24 bytes) then None
  else Some (be_to_Z (drop 24 bytes)).

Definition lock_fields (o : LockOpening) : list Fr :=
  [fr_of_Z (lo_reason o); fr_of_Z (lo_release_after o); lo_claim_party o].
Definition lock_from_fields (f : list Fr) : option LockOpening :=
  match f with
  | [f0; f1; f2] => r ← small f0; a ← small f1; Some (mk_lock r a f2)
  | _ => None
  end.

Definition note_fields (n : Note) : list Fr :=
  [nt_token n; fr_of_Z (nt_units n); nt_owner n; nt_salt n; nt_lock n].
Definition note_from_fields (f : list Fr) : option Note :=
  match f with
  | [f0; f1; f2; f3; f4] => u ← small f1; Some (mk_note f0 u f2 f3 f4)
  | _ => None
  end.

Definition encode (n : Note) : list byte := concat (map fr_to_be_bytes (note_fields n)).

(** The array holds what was read before an error, so the loop is a [map]. *)
Fixpoint read_fields (l : list (list byte)) : outcome CryptoError (list Fr) :=
  match l with
  | [] => Ok []
  | c :: l' => f ← fr_try_from c; fs ← read_fields l'; Ok (f :: fs)
  end.
Definition decode (bytes : list byte) : outcome CryptoError Note :=
  ensure (length bytes =? NOTE_BYTES)%nat MalformedCiphertext;;
  f ← read_fields (chunks 32 bytes);
  ok_or (note_from_fields f) MalformedCiphertext.

Section hashes.
Context `{C : Crypto}.

Definition lock_value (o : LockOpening) : Fr :=
  if lo_reason o =? 0 then fr_zero
  else poseidon4 LOCK_TAG (fr_of_Z (lo_reason o)) (fr_of_Z (lo_release_after o))
         (lo_claim_party o).

Definition commitment (n : Note) : Fr :=
  poseidon5 [nt_token n; fr_of_Z (nt_units n); nt_owner n; nt_salt n; nt_lock n].

Definition nullifier (cm nk : Fr) : Fr := poseidon2 cm nk.
End hashes.

(** ** The plan *)
Definition OP_DEPOSIT : Z := 1.
Definition OP_TRANSFER : Z := 2.
Definition OP_WITHDRAW : Z := 3.
Definition PATH_OWNER : Z := 0.
Definition PATH_CLAIM : Z := 1.

Record Plan : Type := mk_plan {
  pl_chain_id : Z;
  pl_pool : Address;
  pl_op : Z;
  pl_path : Z;
  pl_nullifiers : Fr * Fr;
  pl_outputs : Fr * Fr;
  pl_public_units : Z;
  pl_recipient : Fr;
  pl_expiry : Z;
}.

Section plan.
Context `{C : Crypto}.

Definition digest (p : Plan) : Fr :=
  sponge [PLAN_TAG; fr_of_Z (pl_chain_id p); fr_of_address (pl_pool p); fr_of_Z (pl_op p);
          fr_of_Z (pl_path p); (pl_nullifiers p).1; (pl_nullifiers p).2; (pl_outputs p).1;
          (pl_outputs p).2; fr_of_Z (pl_public_units p); pl_recipient p; fr_of_Z (pl_expiry p)].

Definition rebuild (p : Plan) (outputs : list Note) : outcome CryptoError Bytes32 :=
  ensure (negb (2 <? length outputs)%nat) PlanMismatch;;
  for_eachi (λ j _ committed,
    ensure (fr_eqb (from_option commitment fr_zero (outputs !! j)) committed) PlanMismatch)
    tt [(pl_outputs p).1; (pl_outputs p).2];;
  Ok (fr_to_be_bytes (digest p)).
End plan.

(** ** Grumpkin *)
Record Point : Type := mk_point {
  pt_x : Fr;
  pt_y : Fr;
  pt_infinity : bool;
}.
#[export] Instance Point_eq_dec : EqDecision Point.
Proof. solve_decision. Defined.

Definition GENERATOR : Point :=
  mk_point (fr_of_Z 1) (fr_of_Z 17631683881184975370165255887551781615748388533673675138860) false.
Definition INFINITY : Point := mk_point fr_zero fr_zero true.
Definition point_new (x y : Fr) : Point := mk_point x y false.

Definition fr_square (a : Fr) : Fr := fr_mul a a.
Definition fr_double (a : Fr) : Fr := fr_add a a.

(** [inverse] of a non-zero element, which exists. *)
Class FrInverse : Type := { fr_inverse : Fr → Fr }.
(** Documented behaviour of [ark_ff]. *)
Class FrInverseLaws {FI : FrInverse} : Prop := {
  fr_inverse_mul a : a ≠ fr_zero → fr_mul (fr_inverse a) a = fr_of_Z 1;
}.

Section grumpkin.
Context {FI : FrInverse}.

Definition is_on_curve (p : Point) : bool :=
  pt_infinity p ||
  fr_eqb (fr_square (pt_y p)) (fr_sub (fr_mul (fr_square (pt_x p)) (pt_x p)) (fr_of_Z 17)).

Definition point_double (p : Point) : Point :=
  if pt_infinity p || fr_eqb (pt_y p) fr_zero then INFINITY
  else
    let lambda := fr_mul (fr_mul (fr_square (pt_x p)) (fr_of_Z 3)) (fr_inverse (fr_double (pt_y p))) in
    let x3 := fr_sub (fr_square lambda) (fr_double (pt_x p)) in
    let y3 := fr_sub (fr_mul lambda (fr_sub (pt_x p) x3)) (pt_y p) in
    point_new x3 y3.

Definition point_add (p other : Point) : Point :=
  if pt_infinity p then other
  else if pt_infinity other then p
  else if fr_eqb (pt_x p) (pt_x other) then
    if fr_eqb (pt_y p) (pt_y other) then point_double p else INFINITY
  else
    let lambda := fr_mul (fr_sub (pt_y other) (pt_y p)) (fr_inverse (fr_sub (pt_x other) (pt_x p))) in
    let x3 := fr_sub (fr_sub (fr_square lambda) (pt_x p)) (pt_x other) in
    let y3 := fr_sub (fr_mul lambda (fr_sub (pt_x p) x3)) (pt_y p) in
    point_new x3 y3.

(** [BigUint::bits]. *)
Definition scalar_bits (scalar : Z) : nat :=
  if scalar =? 0 then 0%nat else Z.to_nat (Z.log2 scalar + 1).

Definition point_mul (p : Point) (scalar : Z) : Point :=
  foldl (λ acc i,
    let acc := point_double acc in
    if Z.testbit scalar (Z.of_nat i) then point_add acc p else acc)
    INFINITY (rev (seq 0 (scalar_bits scalar))).
End grumpkin.

(** ** The register feed *)
Definition FEED_FIELDS : nat := NOTE_FIELDS + 3.

Definition feed_fields (n : Note) (terms : LockOpening) : list Fr :=
  note_fields n ++ lock_fields terms.
Definition feed_open (f : list Fr) : option (Note * LockOpening) :=
  n ← note_from_fields (take NOTE_FIELDS f);
  terms ← lock_from_fields (drop NOTE_FIELDS f);
  Some (n, terms).

Record FeedSecret : Type := mk_feed_secret {
  fs_lo : Z;
  fs_hi : Z;
}.
#[export] Instance FeedSecret_eq_dec : EqDecision FeedSecret.
Proof. solve_decision. Defined.

Definition feed_scalar (s : FeedSecret) : Z := fs_lo s + Z.shiftl (fs_hi s) 128.

Section feed.
Context `{C : Crypto} {FI : FrInverse}.

Definition public_point (s : FeedSecret) : Point := point_mul GENERATOR (feed_scalar s).

Definition key_of (shared : Point) : Fr := poseidon3 FEED_TAG (pt_x shared) (pt_y shared).

Definition derive (r : FeedSecret) (register_key : Point) : Point * Fr :=
  (public_point r, key_of (point_mul register_key (feed_scalar r))).

(** The keystream of output [j]. *)
Definition keystream (k : Fr) (j i : nat) : Fr :=
  poseidon2 k (fr_of_Z (Z.of_nat (FEED_FIELDS * j + i))).

Definition feed_encrypt (k : Fr) (fields : list Fr) (j : nat) : list Fr :=
  imap (λ i f, fr_add f (keystream k j i)) fields.

Definition feed_decrypt (tk : FeedSecret) (feed_r : Point) (ct : list Fr) (j : nat) : list Fr :=
  let k := key_of (point_mul feed_r (feed_scalar tk)) in
  imap (λ i c, fr_sub c (keystream k j i)) ct.
End feed.

(** ** Keys *)
Record PublicSpendKey : Type := mk_spend_pk {
  pk_x : Bytes32;
  pk_y : Bytes32;
}.
#[export] Instance PublicSpendKey_eq_dec : EqDecision PublicSpendKey.
Proof. solve_decision. Defined.

(** [k256] keys and signatures, and the seal of [sealring] to a viewing key. *)
Class Custody (SK PK Sg VK VPK Env : Type) : Type := {
  k_public : SK → PK;
  k_coords : PK → Bytes32 * Bytes32;
  k_from_sec1 : list byte → option PK;
  k_sign_prehash : SK → Bytes32 → Sg;
  k_sig_bytes : Sg → list byte;
  k_sig_from : list byte → option Sg;
  k_verify_prehash : PK → Bytes32 → Sg → bool;
  v_public : VK → VPK;
  v_sec1 : VPK → list byte;
  v_seal : list byte → VPK → list byte → list byte → Env;
  v_bytes : Env → list byte;
  v_parse : list byte → option Env;
  v_open : VK → Env → list byte → option (option (list byte));
}.

(** Documented behaviour: a key verifies what it signed, and opens what was
    sealed to it; a seal adds a few bytes. *)
Class CustodyLaws (SK PK Sg VK VPK Env : Type) {KC : Custody SK PK Sg VK VPK Env} : Prop := {
  k_from_coords p : k_from_sec1 (x04 :: (k_coords p).1 ++ (k_coords p).2) = Some p;
  k_sig_from_bytes s : k_sig_from (k_sig_bytes s) = Some s;
  k_verify_signed sk d : k_verify_prehash (k_public sk) d (k_sign_prehash sk d) = true;
  v_parse_bytes e : v_parse (v_bytes e) = Some e;
  v_open_sealed draw vk m aad : v_open vk (v_seal draw (v_public vk) m aad) aad = Some (Some m);
  v_seal_short draw vpk m aad :
    Z.of_nat (length m) < 2 ^ 16 → Z.of_nat (length (v_bytes (v_seal draw vpk m aad))) < 2 ^ 32;
}.

Definition limb (bytes : list byte) : Fr := fr_of_Z (be_to_Z bytes).

Record Registration (VPK : Type) : Type := mk_registration {
  rg_chain_id : Z;
  rg_pool : Address;
  rg_investor_id : string;
  rg_pk : PublicSpendKey;
  rg_nk_hash : Fr;
  rg_vpk : VPK;
}.
Arguments mk_registration {VPK}.
Arguments rg_chain_id {VPK}.
Arguments rg_pool {VPK}.
Arguments rg_investor_id {VPK}.
Arguments rg_pk {VPK}.
Arguments rg_nk_hash {VPK}.
Arguments rg_vpk {VPK}.

Record OwnerKeys (SK VK : Type) : Type := mk_owner_keys {
  ok_spend : SK;
  ok_nk : Fr;
  ok_view : VK;
}.
Arguments mk_owner_keys {SK VK}.
Arguments ok_spend {SK VK}.
Arguments ok_nk {SK VK}.
Arguments ok_view {SK VK}.

Record WalletKeys (VK : Type) : Type := mk_wallet_keys {
  wk_pk : PublicSpendKey;
  wk_nk : Fr;
  wk_view : VK;
}.
Arguments mk_wallet_keys {VK}.
Arguments wk_pk {VK}.
Arguments wk_nk {VK}.
Arguments wk_view {VK}.

Section keys.
Context `{C : Crypto}.

Definition key_hash (pk : PublicSpendKey) : Fr :=
  poseidon4 (limb (take 16 (pk_x pk))) (limb (drop 16 (pk_x pk)))
    (limb (take 16 (pk_y pk))) (limb (drop 16 (pk_y pk))).
Definition nk_hash (nk : Fr) : Fr := poseidon2 NK_TAG nk.
Definition owner_value (pk : PublicSpendKey) (nk : Fr) : Fr :=
  poseidon3 OWNER_TAG (key_hash pk) (nk_hash nk).
Definition wallet_keys_owner {VK} (k : WalletKeys VK) : Fr := owner_value (wk_pk k) (wk_nk k).

Context {SK PK Sg VK VPK Env : Type} {KC : Custody SK PK Sg VK VPK Env}.

Definition public_key (sk : SK) : PublicSpendKey :=
  let c := k_coords (k_public sk) in mk_spend_pk c.1 c.2.
Definition sign_digest (sk : SK) (d : Bytes32) : list byte := k_sig_bytes (k_sign_prehash sk d).

Definition registration_digest (r : Registration VPK) : Bytes32 :=
  keccak256 (ascii_bytes "shielded-notes registration" ++ be_of_Z 8 (rg_chain_id r)
    ++ rg_pool r ++ keccak256 (ascii_bytes (rg_investor_id r)) ++ pk_x (rg_pk r) ++ pk_y (rg_pk r)
    ++ fr_to_be_bytes (rg_nk_hash r) ++ v_sec1 (rg_vpk r)).
Definition registration_verify (r : Registration VPK) (signature : list byte)
  : outcome CryptoError unit :=
  key ← ok_or (k_from_sec1 (x04 :: pk_x (rg_pk r) ++ pk_y (rg_pk r))) InvalidKey;
  sg ← ok_or (k_sig_from signature) BadSignature;
  ensure (k_verify_prehash key (registration_digest r) sg) BadSignature.

Definition sign_plan (sk : SK) (p : Plan) (outputs : list Note) : outcome CryptoError (list byte) :=
  d ← rebuild p outputs;
  Ok (sign_digest sk d).
Definition sign_registration (sk : SK) (r : Registration VPK) : outcome CryptoError (list byte) :=
  ensure (bool_decide (rg_pk r = public_key sk)) RegistrationKeyMismatch;;
  Ok (sign_digest sk (registration_digest r)).

Definition owner_keys_owner (k : OwnerKeys SK VK) : Fr :=
  owner_value (public_key (ok_spend k)) (ok_nk k).
Definition split (k : OwnerKeys SK VK) : SK * WalletKeys VK :=
  (ok_spend k, mk_wallet_keys (public_key (ok_spend k)) (ok_nk k) (ok_view k)).

(** [crypto/encryption.rs]. *)
Definition encrypt (draw plaintext : list byte) (recipient : VPK) (aad : list byte) : list byte :=
  v_bytes (v_seal draw recipient plaintext aad).
Definition decrypt (ciphertext : list byte) (recipient : VK) (aad : list byte)
  : outcome CryptoError (list byte) :=
  envelope ← ok_or (v_parse ciphertext) MalformedCiphertext;
  opened ← ok_or (v_open recipient envelope aad) DecryptionFailed;
  ok_or opened DecryptionFailed.
End keys.
