(* ===== verification/MmfCurve.v ===== *)
(** * Money-market-fund notes: the curve of the register feed

    That the points of [domain/grumpkin.rs] form a group under its addition,
    that its double-and-add multiplication is repeated addition, and so that
    both ends of the feed ([domain/feed.rs]) derive the same key. *)

From Stdlib Require Import ZArith Lia Bool Field.
From stdpp Require Import base tactics list numbers.
From S2P Require Import Prelude Field Types Poseidon MmfTypes Weierstrass.

(** ** The scalar field as a field *)
Definition fr_one : Fr := fr_of_Z 1.
Definition fr_opp (a : Fr) : Fr := fr_of_Z (- fr_val a).

Lemma fr_val_add a b : fr_val (fr_add a b) = (fr_val a + fr_val b) mod fr_modulus.
Proof. done. Qed.
Lemma fr_val_mul a b : fr_val (fr_mul a b) = (fr_val a * fr_val b) mod fr_modulus.
Proof. done. Qed.
Lemma fr_val_sub a b : fr_val (fr_sub a b) = (fr_val a - fr_val b) mod fr_modulus.
Proof. done. Qed.
Lemma fr_val_opp a : fr_val (fr_opp a) = (- fr_val a) mod fr_modulus.
Proof. done. Qed.
Lemma fr_val_mod a : fr_val a mod fr_modulus = fr_val a.
Proof. apply Z.mod_small, fr_range. Qed.

(** Equations of the ring, through the integers. *)
Ltac fr_ring :=
  apply fr_eq; rewrite ?fr_val_add, ?fr_val_mul, ?fr_val_sub, ?fr_val_opp, ?fr_val_add, ?fr_val_mul;
  rewrite ?Zplus_mod_idemp_l, ?Zplus_mod_idemp_r, ?Zmult_mod_idemp_l, ?Zmult_mod_idemp_r,
    ?Zminus_mod_idemp_l, ?Zminus_mod_idemp_r.

Lemma fr_ring_theory : ring_theory fr_zero fr_one fr_add fr_mul fr_sub fr_opp (@eq Fr).
Proof.
  constructor.
  - intros a. fr_ring. change (fr_val fr_zero) with 0. by rewrite Z.add_0_l, fr_val_mod.
  - intros a b. fr_ring. by rewrite Z.add_comm.
  - intros a b c. fr_ring. by rewrite Z.add_assoc.
  - intros a. fr_ring. change (fr_val fr_one) with 1. by rewrite Z.mul_1_l, fr_val_mod.
  - intros a b. fr_ring. by rewrite Z.mul_comm.
  - intros a b c. fr_ring. by rewrite Z.mul_assoc.
  - intros a b c. fr_ring. by rewrite Z.mul_add_distr_r.
  - intros a b. fr_ring. by rewrite Z.add_opp_r.
  - intros a. fr_ring. by rewrite Z.add_opp_diag_r.
Qed.

(** ** The points as a group *)
Section grumpkin_ok.
Context {FI : FrInverse} {FL : FrInverseLaws}.

Lemma fr_field_theory :
  field_theory fr_zero fr_one fr_add fr_mul fr_sub fr_opp (ec_div Fr fr_mul fr_inverse) fr_inverse
    (@eq Fr).
Proof.
  constructor; [apply fr_ring_theory| |done|intros a; apply fr_inverse_mul].
  intros E%(f_equal fr_val). discriminate E.
Qed.
Add Field fr_field : fr_field_theory.

Definition curve_b : Fr := fr_of_Z (- 17).
Definition fr_dec (x y : Fr) : {x = y} + {x ≠ y} := decide (x = y).

Abbreviation on_curve := (ec_on Fr fr_add fr_mul curve_b).
Abbreviation cadd := (ec_add Fr fr_zero fr_one fr_add fr_mul fr_sub fr_inverse fr_dec).
Abbreviation cdouble := (ec_double Fr fr_zero fr_one fr_add fr_mul fr_sub fr_inverse fr_dec).
Abbreviation cmul := (ec_mul Fr fr_zero fr_one fr_add fr_mul fr_sub fr_inverse fr_dec).

Lemma fr_two_nz : fr_add fr_one fr_one ≠ fr_zero.
Proof. intros E%(f_equal fr_val). discriminate E. Qed.
Lemma fr_three_nz : fr_add (fr_add fr_one fr_one) fr_one ≠ fr_zero.
Proof. intros E%(f_equal fr_val). discriminate E. Qed.
Lemma curve_b_nz : curve_b ≠ fr_zero.
Proof. intros E%(f_equal fr_val). discriminate E. Qed.

(** A point as the algebra has it, and the points with one neutral element. *)
Definition curve_point (p : Point) : option (Fr * Fr) :=
  if pt_infinity p then None else Some (pt_x p, pt_y p).
Definition well_formed (p : Point) : Prop := pt_infinity p = true → p = INFINITY.

Lemma curve_point_inj p q : well_formed p → well_formed q → curve_point p = curve_point q → p = q.
Proof.
  destruct p as [x y []], q as [x' y' []]; unfold curve_point; cbn; intros Hp Hq H; simplify_eq; auto.
  - by rewrite Hp, Hq.
Qed.

Lemma is_on_curve_point p : is_on_curve p = true ↔ on_curve (curve_point p).
Proof.
  destruct p as [x y []]; unfold is_on_curve, curve_point; cbn [pt_infinity pt_x pt_y orb ec_on];
    [done|]. rewrite fr_eqb_eq. unfold fr_square.
  assert (fr_sub (fr_mul (fr_mul x x) x) (fr_of_Z 17) = fr_add (fr_mul (fr_mul x x) x) curve_b) as ->
    by (apply fr_eq; rewrite fr_val_sub, fr_val_add; unfold curve_b; change (fr_val (fr_of_Z 17)) with 17;
        cbn [fr_val fr_of_Z]; rewrite Zplus_mod_idemp_r; done).
  done.
Qed.

Lemma fr_three : fr_of_Z 3 = fr_add (fr_add fr_one fr_one) fr_one.
Proof. by apply fr_eq. Qed.

Lemma double_point p : curve_point (point_double p) = cdouble (curve_point p).
Proof.
  destruct p as [x y []]; [done|]. unfold point_double. cbn [pt_infinity pt_x pt_y orb].
  unfold curve_point at 2. cbn [pt_infinity pt_x pt_y ec_double].
  destruct (fr_eqb y fr_zero) eqn:E.
  - apply fr_eqb_eq in E. by destruct (fr_dec y fr_zero).
  - apply fr_eqb_neq in E. destruct (fr_dec y fr_zero); [done|].
    unfold curve_point, point_new, ec_third. cbn [pt_infinity pt_x pt_y]. rewrite fr_three.
    unfold fr_square, fr_double, ec_tangent, ec_div.
    set (i := fr_inverse _).
    f_equal. f_equal; ring.
Qed.

Lemma add_point p q : curve_point (point_add p q) = cadd (curve_point p) (curve_point q).
Proof.
  destruct p as [x y []], q as [x' y' []]; try done. unfold point_add. cbn [pt_infinity pt_x pt_y].
  unfold curve_point at 2 3. cbn [pt_infinity pt_x pt_y ec_add].
  destruct (fr_eqb x x') eqn:E.
  - apply fr_eqb_eq in E. destruct (fr_dec x x'); [|done].
    destruct (fr_eqb y y') eqn:E'.
    + apply fr_eqb_eq in E'. destruct (fr_dec y y'); [|done]. apply double_point.
    + apply fr_eqb_neq in E'. by destruct (fr_dec y y').
  - apply fr_eqb_neq in E. destruct (fr_dec x x'); [done|].
    unfold curve_point, point_new, ec_third. cbn [pt_infinity pt_x pt_y].
    reflexivity.
Qed.

Lemma well_formed_double p : well_formed (point_double p).
Proof. unfold point_double. by destruct (pt_infinity p || _). Qed.
Lemma well_formed_add p q : well_formed p → well_formed q → well_formed (point_add p q).
Proof.
  intros Hp Hq. unfold point_add. destruct (pt_infinity p); [done|]. destruct (pt_infinity q); [done|].
  destruct (fr_eqb (pt_x p) _); [|done]. destruct (fr_eqb (pt_y p) _); [|done].
  apply well_formed_double.
Qed.

(** ** Multiplication *)

(** The accumulator after the bits from [i] on is the multiple of what they
    spell. *)
Lemma mul_loop p scalar n acc :
  0 ≤ scalar → on_curve (curve_point p) →
  curve_point acc = cmul (Z.to_nat (Z.shiftr scalar (Z.of_nat n))) (curve_point p) →
  curve_point (foldl (λ acc i,
    let acc := point_double acc in
    if Z.testbit scalar (Z.of_nat i) then point_add acc p else acc) acc (rev (seq 0 n)))
  = cmul (Z.to_nat scalar) (curve_point p).
Proof.
  intros Hs Hp. revert acc. induction n as [|n IH]; intros acc Ha.
  { cbn. by rewrite Ha, Z.shiftr_0_r. }
  rewrite seq_S, rev_app_distr. cbn [rev app foldl Nat.add]. apply IH. clear IH.
  set (z := Z.shiftr scalar (Z.of_nat n)).
  assert (0 ≤ z) as Hz by by apply Z.shiftr_nonneg.
  assert (Z.shiftr scalar (Z.of_nat (S n)) = z / 2) as E.
  { unfold z. rewrite Nat2Z.inj_succ, <-Z.add_1_r, <-Z.shiftr_shiftr by lia.
    by rewrite (Z.shiftr_div_pow2 _ 1) by lia. }
  assert (curve_point (point_double acc) = cmul (Z.to_nat (2 * (z / 2))) (curve_point p)) as Hd.
  { rewrite double_point, Ha, E. rewrite <-ec_double_self.
    pose proof (Z.div_pos z 2 Hz ltac:(lia)).
    replace (Z.to_nat (2 * (z / 2))) with (Z.to_nat (z / 2) + Z.to_nat (z / 2))%nat by lia.
    by rewrite (ec_mul_add Fr fr_zero fr_one fr_add fr_mul fr_sub fr_opp fr_inverse fr_field_theory
      curve_b fr_dec fr_two_nz fr_three_nz curve_b_nz). }
  assert (Z.testbit scalar (Z.of_nat n) = Z.odd z) as -> by (unfold z; by rewrite <-Z.bit0_odd, Z.shiftr_spec by lia).
  pose proof (Z.div_mod z 2 ltac:(lia)) as Hm. rewrite Zmod_odd in Hm. cbn zeta.
  destruct (Z.odd z).
  - rewrite add_point, Hd. replace (Z.to_nat z) with (S (Z.to_nat (2 * (z / 2)))) by lia. done.
  - rewrite Hd. do 2 f_equal. lia.
Qed.

(** Double-and-add is repeated addition. *)
Lemma mul_point p scalar :
  0 ≤ scalar → on_curve (curve_point p) →
  curve_point (point_mul p scalar) = cmul (Z.to_nat scalar) (curve_point p).
Proof.
  intros Hs Hp. apply mul_loop; [done|done|]. unfold scalar_bits.
  destruct (Z.eqb_spec scalar 0) as [->|Hn]; [done|].
  pose proof (Z.log2_nonneg scalar).
  rewrite Z2Nat.id, Z.shiftr_div_pow2 by lia. rewrite Z.div_small; [done|].
  split; [lia|]. rewrite Z.add_1_r. by apply Z.log2_spec; lia.
Qed.

Lemma well_formed_mul p scalar : well_formed p → well_formed (point_mul p scalar).
Proof.
  intros Hp. unfold point_mul. generalize (rev (seq 0 (scalar_bits scalar))).
  assert (well_formed INFINITY) as Hi by done. revert Hi. generalize INFINITY.
  intros acc Ha l. revert acc Ha. induction l as [|i l IH]; intros acc Ha; [done|].
  cbn [foldl]. apply IH. cbn zeta.
  destruct (Z.testbit _ _); auto using well_formed_double, well_formed_add.
Qed.

(** Multiplying by two scalars, in either order. *)
Lemma point_mul_comm p r t :
  0 ≤ r → 0 ≤ t → well_formed p → is_on_curve p = true →
  point_mul (point_mul p r) t = point_mul (point_mul p t) r.
Proof.
  intros Hr Ht Hw Hp%is_on_curve_point.
  apply curve_point_inj; [by repeat apply well_formed_mul..|].
  assert (∀ n, on_curve (cmul n (curve_point p))) as Hon.
  { intros n. by apply (ec_on_mul Fr fr_zero fr_one fr_add fr_mul fr_sub fr_opp fr_inverse
      fr_field_theory curve_b fr_dec fr_two_nz). }
  rewrite !mul_point; rewrite ?mul_point; try done.
  rewrite <-!(ec_mul_mul Fr fr_zero fr_one fr_add fr_mul fr_sub fr_opp fr_inverse fr_field_theory
      curve_b fr_dec fr_two_nz fr_three_nz curve_b_nz) by done.
  by rewrite Nat.mul_comm.
Qed.

Lemma generator_on_curve : is_on_curve GENERATOR = true.
Proof. vm_compute. reflexivity. Qed.
End grumpkin_ok.

(** ** The feed's shared point *)
Definition secret_typed (s : FeedSecret) : Prop :=
  0 ≤ fs_lo s < 2 ^ 128 ∧ 0 ≤ fs_hi s < 2 ^ 128.

(** Diffie-Hellman: the sender's point times the agent's secret is the agent's
    point times the sender's. *)
Lemma shared_point {FI : FrInverse} {FL : FrInverseLaws} r tk :
  secret_typed r → secret_typed tk →
  point_mul (public_point r) (feed_scalar tk) = point_mul (public_point tk) (feed_scalar r).
Proof.
  assert (∀ s, secret_typed s → 0 ≤ feed_scalar s) as Hs.
  { intros s [? ?]. unfold feed_scalar.
    pose proof (proj2 (Z.shiftl_nonneg (fs_hi s) 128) ltac:(lia)). lia. }
  intros Hr Ht. apply point_mul_comm; [by apply Hs..|done|apply generator_on_curve].
Qed.
