(* ===== verification/MmfChain.v ===== *)
(** * Money-market-fund notes: the view of the chain

    Model of [domain/tree.rs], [domain/witness.rs] and of what [chain.rs]
    reads: the pool's environment, the view rebuilt from events and the
    matching of withdrawals, and of the calldata it submits; of
    [ports/prover.rs] and [adapters/mock_prover.rs].  The decoded logs
    are arguments, since decoding is [alloy]'s; the tree of [rotortree] is the class [RotorTree]. *)

From Stdlib Require Import ZArith Lia Bool.
From stdpp Require Import base tactics list gmap strings numbers countable.
From S2P Require Import Prelude Field Types Poseidon MmfTypes.

#[export] Program Instance Fr_countable : Countable Fr :=
  inj_countable' fr_val fr_of_Z _.
Next Obligation. intros a. apply fr_of_val. Qed.

(** The errors of reading a log; the others are of the network calls. *)
Inductive ChainError : Type :=
| ChainNonCanonical (b : Bytes32)
| ChainDecode (m : string).

(** ** The tree *)
Record RotorLevel : Type := mk_rotor_level {
  rv_siblings : list Bytes32;
  rv_position : Z;
}.

Class RotorTree (T : Type) : Type := {
  rotor_new : T;
  rotor_insert_many : T → list Bytes32 → option T;
  rotor_root : T → option Bytes32;
  (** The levels of the proof, up to its level count. *)
  rotor_generate_proof : T → Z → option (list RotorLevel);
}.

Record Step : Type := mk_step {
  st_sibling : Fr;
  st_is_right : bool;
}.
Abbreviation MerkleProof := (list Step).

Record LeanTree (T : Type) : Type := mk_lean {
  lt_leaves : list Fr;
  lt_tree : T;
}.
Arguments mk_lean {T}.
Arguments lt_leaves {T}.
Arguments lt_tree {T}.

Definition fold_proof `{C : Crypto} (p : MerkleProof) (leaf : Fr) : Fr :=
  foldl (λ node step,
    if st_is_right step then poseidon2 (st_sibling step) node
    else poseidon2 node (st_sibling step)) leaf p.

Section tree.
Context `{C : Crypto} {T : Type} {RT : RotorTree T}.
Implicit Types (t : LeanTree T).

Definition tree_node (left right : Bytes32) : Bytes32 :=
  fr_to_be_bytes (poseidon2 (fr_from_be_bytes left) (fr_from_be_bytes right)).

Definition lean_tree_new : LeanTree T := mk_lean [] rotor_new.
Definition extend {E} (leaves : list Fr) t : outcome E (LeanTree T) :=
  if (length leaves =? 0)%nat then Ok t
  else
    tree ← expect (rotor_insert_many (lt_tree t) (map fr_to_be_bytes leaves));
    Ok (mk_lean (lt_leaves t ++ leaves) tree).
Definition from_leaves {E} (leaves : list Fr) : outcome E (LeanTree T) :=
  extend leaves lean_tree_new.

(** [LeanTree::insert], with the index of the new leaf. *)
Definition tree_insert {E} (l : Fr) t : outcome E (nat * LeanTree T) :=
  t ← extend [l] t;
  Ok ((length (lt_leaves t) - 1)%nat, t).
Definition tree_len t : nat := length (lt_leaves t).
Definition tree_is_empty t : bool := (length (lt_leaves t) =? 0)%nat.
Definition position t (l : Fr) : option nat := fst <$> list_find (λ x, x = l) (lt_leaves t).
Definition leaf {E} t (index : nat) : outcome E Fr := Prelude.index (lt_leaves t) index.
Definition root t : Fr := from_option fr_from_be_bytes fr_zero (rotor_root (lt_tree t)).

(** A level without a sibling, where the node was promoted, has no step. *)
Definition level_step (level : RotorLevel) : option Step :=
  match rv_siblings level with
  | s :: _ => Some (mk_step (fr_from_be_bytes s) (rv_position level =? 1))
  | [] => None
  end.
Definition proof t (index : nat) : option MerkleProof :=
  levels ← rotor_generate_proof (lt_tree t) (Z.of_nat index);
  Some (omap level_step levels : list Step).

(** What a proof's levels make of a node. *)
Definition level_fold (node : Bytes32) (level : RotorLevel) : Bytes32 :=
  match rv_siblings level with
  | s :: _ => if rv_position level =? 1 then tree_node s node else tree_node node s
  | [] => node
  end.
End tree.

(** Documented behaviour of the tree: it appends, proves its leaves, and a
    proof leads from the leaf to the root. *)
Class RotorLaws `{C : Crypto} (T : Type) {RT : RotorTree T} : Type := {
  rotor_content : T → list Bytes32;
  rotor_content_new : rotor_content rotor_new = [];
  rotor_content_insert t ls t' :
    rotor_insert_many t ls = Some t' → rotor_content t' = rotor_content t ++ ls;
  rotor_proof_Some t i :
    is_Some (rotor_generate_proof t (Z.of_nat i)) ↔ (i < length (rotor_content t))%nat;
  rotor_proof_root t i l levels :
    rotor_content t !! i = Some l → rotor_generate_proof t (Z.of_nat i) = Some levels →
    rotor_root t = Some (foldl level_fold l levels);
}.

(** ** The circuits' inputs *)
Record AttestationWitness : Type := mk_attestation_witness {
  aw_attester : Address;
  aw_generation : Z;
  aw_issued_at : Z;
  aw_expires_at : Z;
  aw_path : MerkleProof;
}.

Record InputWitness : Type := mk_input_witness {
  iw_units : Z;
  iw_salt : Fr;
  iw_lock : Fr;
  iw_lock_opening : LockOpening;
  iw_path : MerkleProof;
}.
Definition input_padding (salt : Fr) : InputWitness :=
  mk_input_witness 0 salt fr_zero lock_none [].

Record DepositWitness : Type := mk_deposit_witness {
  dw_commitment : Fr;
  dw_token : Address;
  dw_units : Z;
  dw_funding_address : Address;
  dw_attestation_root : Fr;
  dw_min_accepted_generation : Z;
  dw_epoch : Z;
  dw_chain_id : Z;
  dw_pool : Address;
  dw_register_key : Point;
  dw_feed_r : Point;
  dw_feed_ct : list Fr;
  dw_payload_commitment : Fr;
  dw_owner_key : PublicSpendKey;
  dw_nk : Fr;
  dw_signature : list byte;
  dw_expiry : Z;
  dw_salt : Fr;
  dw_attestation : AttestationWitness;
  dw_feed_secret : FeedSecret;
}.

Record TransferWitness : Type := mk_transfer_witness {
  tw_nullifiers : Fr * Fr;
  tw_commitments_out : Fr * Fr;
  tw_commitment_root : Fr;
  tw_attestation_root : Fr;
  tw_min_accepted_generation : Z;
  tw_epoch : Z;
  tw_chain_id : Z;
  tw_pool : Address;
  tw_claim_key_hash : Fr;
  tw_register_key : Point;
  tw_feed_r : Point;
  tw_feed_ct : list Fr;
  tw_payload_commitment : Fr;
  tw_claim : bool;
  tw_token : Address;
  tw_owner_key : PublicSpendKey;
  tw_nk : Fr;
  tw_claim_key : PublicSpendKey;
  tw_signature : list byte;
  tw_expiry : Z;
  tw_inputs : InputWitness * InputWitness;
  tw_outputs : Note * Note;
  tw_output_locks : LockOpening * LockOpening;
  tw_input_attestation : AttestationWitness;
  tw_output_attestations : AttestationWitness * AttestationWitness;
  tw_feed_secret : FeedSecret;
}.

Record WithdrawWitness : Type := mk_withdraw_witness {
  ww_nullifier : Fr;
  ww_token : Address;
  ww_units : Z;
  ww_recipient : Address;
  ww_commitment_root : Fr;
  ww_attestation_root : Fr;
  ww_min_accepted_generation : Z;
  ww_epoch : Z;
  ww_chain_id : Z;
  ww_pool : Address;
  ww_owner_key : PublicSpendKey;
  ww_nk : Fr;
  ww_signature : list byte;
  ww_expiry : Z;
  ww_input : InputWitness;
  ww_attestation : AttestationWitness;
}.

Definition word_u64 (v : Z) : Bytes32 := fr_to_be_bytes (fr_of_Z v).
Definition words_point (p : Point) : list Bytes32 :=
  [fr_to_be_bytes (pt_x p); fr_to_be_bytes (pt_y p)].
Definition word_address (a : Address) : Bytes32 := fr_to_be_bytes (fr_of_address a).

Definition deposit_public_inputs (w : DepositWitness) : list Bytes32 :=
  [fr_to_be_bytes (dw_commitment w); word_address (dw_token w); word_u64 (dw_units w);
   word_address (dw_funding_address w); fr_to_be_bytes (dw_attestation_root w);
   word_u64 (dw_min_accepted_generation w); word_u64 (dw_epoch w); word_u64 (dw_chain_id w);
   word_address (dw_pool w)]
  ++ words_point (dw_register_key w) ++ words_point (dw_feed_r w)
  ++ map fr_to_be_bytes (dw_feed_ct w) ++ [fr_to_be_bytes (dw_payload_commitment w)].

Definition transfer_public_inputs (w : TransferWitness) : list Bytes32 :=
  [fr_to_be_bytes (tw_nullifiers w).1; fr_to_be_bytes (tw_nullifiers w).2;
   fr_to_be_bytes (tw_commitments_out w).1; fr_to_be_bytes (tw_commitments_out w).2;
   fr_to_be_bytes (tw_commitment_root w); fr_to_be_bytes (tw_attestation_root w);
   word_u64 (tw_min_accepted_generation w); word_u64 (tw_epoch w); word_u64 (tw_chain_id w);
   word_address (tw_pool w); fr_to_be_bytes (tw_claim_key_hash w)]
  ++ words_point (tw_register_key w) ++ words_point (tw_feed_r w)
  ++ map fr_to_be_bytes (tw_feed_ct w) ++ [fr_to_be_bytes (tw_payload_commitment w)].

Definition withdraw_public_inputs (w : WithdrawWitness) : list Bytes32 :=
  [fr_to_be_bytes (ww_nullifier w); word_address (ww_token w); word_u64 (ww_units w);
   word_address (ww_recipient w); fr_to_be_bytes (ww_commitment_root w);
   fr_to_be_bytes (ww_attestation_root w); word_u64 (ww_min_accepted_generation w);
   word_u64 (ww_epoch w); word_u64 (ww_chain_id w); word_address (ww_pool w)].

(** ** What is read from the chain *)
Record PoolEnv : Type := mk_env {
  en_chain_id : Z;
  en_pool : Address;
  en_token : Address;
  en_register_key : Point;
  en_claim_key_hash : Fr;
  en_min_accepted_generation : Z;
  en_epoch : Z;
  en_timestamp : Z;
}.
(** The epoch is a timestamp over 86400, so the sums and products of epochs
    and seconds stay far below [2^64]. *)
Definition expiry (e : PoolEnv) : Z := (en_epoch e + 2) * EPOCH_SECONDS.

Record NoteRecord : Type := mk_note_record {
  nr_commitment : Fr;
  nr_leaf_index : nat;
  nr_output : nat;
  nr_feed_r : Point;
  nr_feed_ct : list Fr;
  nr_payload : list byte;
  nr_key_version : Z;
}.

Record Outflow : Type := mk_outflow {
  of_to : Address;
  of_shares : Z;
  of_tx : Bytes32;
  of_by_withdrawal : bool;
}.
Definition explained (o : Outflow) : Outflow :=
  mk_outflow (of_to o) (of_shares o) (of_tx o) true.

(** [Vec::swap_remove]. *)
Definition swap_remove {A} (l : list A) (i : nat) : list A :=
  match list.last l with
  | Some x => take (length l - 1) (<[i := x]> l)
  | None => l
  end.

Abbreviation Payment := (Bytes32 * Address * Z)%type.
Definition payment_of (o : Outflow) : Payment := (of_tx o, of_to o, of_shares o).

Fixpoint match_withdrawals (outflows : list Outflow) (unpaid : list Payment) : list Outflow :=
  match outflows with
  | [] => []
  | o :: rest =>
      match list_find (λ w, w = payment_of o) unpaid with
      | Some (i, _) => explained o :: match_withdrawals rest (swap_remove unpaid i)
      | None => o :: match_withdrawals rest unpaid
      end
  end.

Record AttestationRecord : Type := mk_attestation {
  ar_owner : Fr;
  ar_attester : Address;
  ar_generation : Z;
  ar_issued_at : Z;
  ar_expires_at : Z;
  ar_leaf_index : nat;
}.

Record SpendRecord : Type := mk_spend {
  sp_nullifiers : list Fr;
  sp_outputs : list Fr;
  sp_withdrawn_units : option Z;
}.

Record ChainView (T : Type) : Type := mk_view {
  cv_commitments : LeanTree T;
  cv_notes : list NoteRecord;
  cv_nullifiers : gset Fr;
  cv_spends : list SpendRecord;
  cv_attestations : LeanTree T;
  cv_attestation_records : list AttestationRecord;
  cv_unreadable_attestations : list Bytes32;
  cv_outflows : list Outflow;
}.
Arguments mk_view {T}.
Arguments cv_commitments {T}.
Arguments cv_notes {T}.
Arguments cv_nullifiers {T}.
Arguments cv_spends {T}.
Arguments cv_attestations {T}.
Arguments cv_attestation_records {T}.
Arguments cv_unreadable_attestations {T}.
Arguments cv_outflows {T}.

Definition attestation_of {T} (view : ChainView T) (owner : Fr) (epoch min_generation : Z)
  : option AttestationRecord :=
  List.find (λ r, fr_eqb (ar_owner r) owner
    && ((epoch + 1) * EPOCH_SECONDS <=? ar_expires_at r)
    && (min_generation <=? ar_generation r)) (rev (cv_attestation_records view)).

Record PoolTotals : Type := mk_totals {
  to_units : Z;
  to_balance : Z;
  to_multiplier : Z;
}.

(** ** Rebuilding the view *)

(** A decoded log of the pool, of the token and of the registry. *)
Inductive PoolEvent : Type :=
| EvDeposit (commitment : Bytes32) (feedR : Z * Z) (feedCt : list Z) (payload : list byte)
| EvTransfer (nullifier0 nullifier1 commitment0 commitment1 : Bytes32) (feedR : Z * Z)
    (feedCt : list Z) (payload : list byte)
| EvWithdraw (nullifier : Bytes32) (recipient : Address) (units shares : Z)
| EvRegisterKeyRotated (version : Z)
| EvOther.
Record PoolLog : Type := mk_pool_log {
  lg_event : outcome ChainError PoolEvent;
  lg_tx : option Bytes32;
}.
Record TokenLog : Type := mk_token_log {
  tl_event : outcome ChainError (Address * Z);
  tl_tx : option Bytes32;
}.
Record AttestationEvent : Type := mk_attestation_event {
  ae_leaf : Bytes32;
  ae_owner : Bytes32;
  ae_attester : Address;
  ae_generation : Z;
  ae_issued_at : Z;
  ae_expires_at : Z;
}.

Definition fr_of_b256 (b : Bytes32) : outcome ChainError Fr :=
  map_err (λ _, ChainNonCanonical b) (fr_try_from b).
Definition fr_of_u256 (u : Z) : outcome ChainError Fr := fr_of_b256 (be_of_Z 32 u).
Definition point_of (r : Z * Z) : outcome ChainError Point :=
  x ← fr_of_u256 r.1;
  y ← fr_of_u256 r.2;
  Ok (point_new x y).

Definition ct_slice (ct : list Z) (j : nat) : outcome ChainError (list Fr) :=
  for_each (λ out i,
    u ← Prelude.index ct (FEED_FIELDS * j + i);
    f ← fr_of_u256 u;
    Ok (out ++ [f])) [] (seq 0 FEED_FIELDS).

(** The accumulators of the loop over the pool's logs. *)
Record SyncState : Type := mk_sync {
  sy_commitments : list Fr;
  sy_notes : list NoteRecord;
  sy_nullifiers : gset Fr;
  sy_spends : list SpendRecord;
  sy_key_version : Z;
  sy_withdrawals : list Payment;
}.
Definition sync_start : SyncState := mk_sync [] [] ∅ [] 0 [].

(** One new note: its leaf and its record. *)
Definition push_note (s : SyncState) (output : nat) (cm : Fr) (feedR : Z * Z) (feedCt : list Z)
  (payload : list byte) : outcome ChainError SyncState :=
  let leaf_index := length (sy_commitments s) in
  feed_r ← point_of feedR;
  feed_ct ← ct_slice feedCt output;
  Ok (mk_sync (sy_commitments s ++ [cm])
        (sy_notes s ++ [mk_note_record cm leaf_index output feed_r feed_ct payload
                          (sy_key_version s)])
        (sy_nullifiers s) (sy_spends s) (sy_key_version s) (sy_withdrawals s)).

Definition add_spend (s : SyncState) (nullifiers outputs : list Fr) (units : option Z)
  (withdrawals : list Payment) : SyncState :=
  mk_sync (sy_commitments s) (sy_notes s) (sy_nullifiers s ∪ list_to_set nullifiers)
    (sy_spends s ++ [mk_spend nullifiers outputs units]) (sy_key_version s)
    (sy_withdrawals s ++ withdrawals).

Definition sync_step (s : SyncState) (log : PoolLog) : outcome ChainError SyncState :=
  e ← lg_event log;
  match e with
  | EvDeposit b feedR feedCt payload =>
      cm ← fr_of_b256 b;
      push_note s 0 cm feedR feedCt payload
  | EvTransfer b0 b1 c0 c1 feedR feedCt payload =>
      n0 ← fr_of_b256 b0;
      n1 ← fr_of_b256 b1;
      cm0 ← fr_of_b256 c0;
      cm1 ← fr_of_b256 c1;
      s ← push_note s 0 cm0 feedR feedCt payload;
      s ← push_note s 1 cm1 feedR feedCt payload;
      Ok (add_spend s [n0; n1] [cm0; cm1] None [])
  | EvWithdraw b recipient units shares =>
      n ← fr_of_b256 b;
      Ok (add_spend s [n] [] (Some units) [(default (zeros 32) (lg_tx log), recipient, shares)])
  | EvRegisterKeyRotated version =>
      Ok (mk_sync (sy_commitments s) (sy_notes s) (sy_nullifiers s) (sy_spends s) version
            (sy_withdrawals s))
  | EvOther => Ok s
  end.

Definition outflow_of (log : TokenLog) : outcome ChainError Outflow :=
  e ← tl_event log;
  Ok (mk_outflow e.1 e.2 (default (zeros 32) (tl_tx log)) false).

Definition attestation_step (s : list Fr * list AttestationRecord * list Bytes32)
  (log : outcome ChainError AttestationEvent)
  : outcome ChainError (list Fr * list AttestationRecord * list Bytes32) :=
  let '(attestations, records, unreadable) := s in
  e ← log;
  l ← fr_of_b256 (ae_leaf e);
  match fr_of_b256 (ae_owner e) with
  | Ok owner =>
      Ok (attestations ++ [l],
          records ++ [mk_attestation owner (ae_attester e) (ae_generation e) (ae_issued_at e)
                        (ae_expires_at e) (length attestations)], unreadable)
  | _ => Ok (attestations ++ [l], records, unreadable ++ [ae_leaf e])
  end.

(** [ChainView::sync] on the three lists of logs. *)
Definition sync `{C : Crypto} {T} {RT : RotorTree T} (pool_logs : list PoolLog)
  (outflow_logs : list TokenLog) (registry_logs : list (outcome ChainError AttestationEvent))
  : outcome ChainError (ChainView T) :=
  s ← for_each sync_step sync_start pool_logs;
  outflows ← for_each (λ acc log, o ← outflow_of log; Ok (acc ++ [o])) [] outflow_logs;
  let outflows := match_withdrawals outflows (sy_withdrawals s) in
  '(attestations, records, unreadable) ← for_each attestation_step ([], [], []) registry_logs;
  commitments ← from_leaves (sy_commitments s);
  attestations ← from_leaves attestations;
  Ok (mk_view commitments (sy_notes s) (sy_nullifiers s) (sy_spends s) attestations records
        unreadable outflows).

(** ** Submissions *)
Record CircuitProof : Type := mk_circuit_proof {
  cp_proof : list byte;
  cp_public_inputs : list Bytes32;
}.

Record DepositParams : Type := mk_deposit_params {
  dpm_proof : list byte;
  dpm_commitment : Bytes32;
  dpm_units : Z;
  dpm_attestationRoot : Bytes32;
  dpm_epoch : Z;
  dpm_feedR : Z * Z;
  dpm_feedCt : list Z;
  dpm_recipientPayload : list byte;
}.
Record TransferParams : Type := mk_transfer_params {
  tpm_proof : list byte;
  tpm_nullifier0 : Bytes32;
  tpm_nullifier1 : Bytes32;
  tpm_commitmentOut0 : Bytes32;
  tpm_commitmentOut1 : Bytes32;
  tpm_commitmentRoot : Bytes32;
  tpm_attestationRoot : Bytes32;
  tpm_epoch : Z;
  tpm_feedR : Z * Z;
  tpm_feedCt : list Z;
  tpm_recipientPayload : list byte;
}.
Record WithdrawParams : Type := mk_withdraw_params {
  wpm_proof : list byte;
  wpm_nullifier : Bytes32;
  wpm_units : Z;
  wpm_recipient : Address;
  wpm_commitmentRoot : Bytes32;
  wpm_attestationRoot : Bytes32;
  wpm_epoch : Z;
}.
Inductive Submission : Type :=
| SubmitDeposit (p : DepositParams)
| SubmitTransfer (p : TransferParams)
| SubmitWithdraw (p : WithdrawParams).

Definition checked_public_inputs {E} (proof : CircuitProof) (expected : list Bytes32)
  : outcome E unit :=
  assert_ ((length expected <=? length (cp_public_inputs proof))%nat
    && bool_decide (take (length expected) (cp_public_inputs proof) = expected)).

Definition fr_u256 (f : Fr) : Z := be_to_Z (fr_to_be_bytes f).
Definition feed_r_words (p : Point) : Z * Z := (fr_u256 (pt_x p), fr_u256 (pt_y p)).
Definition u256_array (fields : list Fr) : list Z := map fr_u256 fields.

Definition submission_deposit {E} (w : DepositWitness) (proof : CircuitProof) (payload : list byte)
  : outcome E Submission :=
  checked_public_inputs proof (deposit_public_inputs w);;
  Ok (SubmitDeposit (mk_deposit_params (cp_proof proof) (fr_to_be_bytes (dw_commitment w))
    (dw_units w) (fr_to_be_bytes (dw_attestation_root w)) (dw_epoch w) (feed_r_words (dw_feed_r w))
    (u256_array (dw_feed_ct w)) payload)).
Definition submission_transfer {E} (w : TransferWitness) (proof : CircuitProof)
  (payload : list byte) : outcome E Submission :=
  checked_public_inputs proof (transfer_public_inputs w);;
  Ok (SubmitTransfer (mk_transfer_params (cp_proof proof)
    (fr_to_be_bytes (tw_nullifiers w).1) (fr_to_be_bytes (tw_nullifiers w).2)
    (fr_to_be_bytes (tw_commitments_out w).1) (fr_to_be_bytes (tw_commitments_out w).2)
    (fr_to_be_bytes (tw_commitment_root w)) (fr_to_be_bytes (tw_attestation_root w)) (tw_epoch w)
    (feed_r_words (tw_feed_r w)) (u256_array (tw_feed_ct w)) payload)).
Definition submission_withdraw {E} (w : WithdrawWitness) (proof : CircuitProof)
  : outcome E Submission :=
  checked_public_inputs proof (withdraw_public_inputs w);;
  Ok (SubmitWithdraw (mk_withdraw_params (cp_proof proof) (fr_to_be_bytes (ww_nullifier w))
    (ww_units w) (ww_recipient w) (fr_to_be_bytes (ww_commitment_root w))
    (fr_to_be_bytes (ww_attestation_root w)) (ww_epoch w))).

(** The log the pool emits for an accepted transfer. *)
Definition transfer_log (p : TransferParams) : PoolEvent :=
  EvTransfer (tpm_nullifier0 p) (tpm_nullifier1 p) (tpm_commitmentOut0 p) (tpm_commitmentOut1 p)
    (tpm_feedR p) (tpm_feedCt p) (tpm_recipientPayload p).

(** ** The proving port and its mock *)
Inductive Circuit : Type := CDeposit | CTransfer | CWithdraw.
Inductive ProofRequest : Type :=
| RequestDeposit (w : DepositWitness)
| RequestTransfer (w : TransferWitness)
| RequestWithdraw (w : WithdrawWitness).
Inductive ProverError : Type :=
| MalformedProof (expected actual : nat)
| Unsatisfied (assertion detail : string)
| PathTooLong (steps depth : nat)
| Backend (e : string).

Definition request_circuit (r : ProofRequest) : Circuit :=
  match r with
  | RequestDeposit _ => CDeposit
  | RequestTransfer _ => CTransfer
  | RequestWithdraw _ => CWithdraw
  end.
Definition request_public_inputs (r : ProofRequest) : list Bytes32 :=
  match r with
  | RequestDeposit w => deposit_public_inputs w
  | RequestTransfer w => transfer_public_inputs w
  | RequestWithdraw w => withdraw_public_inputs w
  end.

Definition PROOF_LEN : nat := 32.
Definition circuit_tag (c : Circuit) : byte :=
  match c with CDeposit => x00 | CTransfer => x01 | CWithdraw => x02 end.
Definition mock_proof_bytes `{C : Crypto} (c : Circuit) (public_inputs : list Bytes32) : list byte :=
  keccak256 (ascii_bytes "shielded-notes mock proof" ++ [circuit_tag c] ++ concat public_inputs).
Definition mock_prove `{C : Crypto} (r : ProofRequest) : outcome ProverError CircuitProof :=
  Ok (mk_circuit_proof (mock_proof_bytes (request_circuit r) (request_public_inputs r))
        (request_public_inputs r)).
Definition mock_verify `{C : Crypto} (c : Circuit) (proof : CircuitProof) : outcome ProverError bool :=
  ensure (length (cp_proof proof) =? PROOF_LEN)%nat (MalformedProof PROOF_LEN (length (cp_proof proof)));;
  Ok (bool_decide (cp_proof proof = mock_proof_bytes c (cp_public_inputs proof))).
