(* ===== verification/MmfWallet.v ===== *)
(** * Money-market-fund notes: the wallet

    Model of [wallet.rs]: the recipient payload, the three steps of a spend
    (prepare, sign, finish) that wallet and transfer agent share, and the
    wallet.  Random draws are arguments. *)

From Stdlib Require Import ZArith Lia Bool.
From stdpp Require Import base tactics list gmap strings numbers.
From S2P Require Import Prelude Field Types Poseidon MmfTypes MmfChain.

Inductive ActorError : Type :=
| InsufficientUnits (have need : Z)
| NotAttested (owner : Bytes32)
| UnknownNote (cm : Bytes32)
| SeedNote (cm : Bytes32)
| LockedNote (cm : Bytes32)
| SeedExists
| NoSeed
| InvestorBeforeSeed (owner : Bytes32)
| PendingRedemption (cm : Bytes32)
| UnknownOwner (owner : Bytes32)
| InvalidInvestorId (id : string)
| UnknownPublicHolder (a : Address)
| AgentsOwnValue
| OwnerOfAnotherInvestor (owner : Bytes32)
| UnverifiedInvestor (id : string)
| BadRegistration
| JurisdictionCapReached (jurisdiction : string) (cap : nat)
| CapReached (cap : nat)
| PlanExpired (expiry epoch : Z)
| UnreadableNotes (n : nat)
| InputCount (n : nat)
| RegisterMismatch (register pool : Z)
| SharesShort
| StaleRotation (version : Z)
| UnpreparedRotation (version : Z)
| ActorCrypto (e : CryptoError)
| ActorProver (e : ProverError).

(** ** The recipient payload *)
Definition PAYLOAD_AAD : list byte := ascii_bytes "shielded-notes-payload".
Definition aad (j : nat) : list byte := PAYLOAD_AAD ++ [byte_of_Z (Z.of_nat j)].
Definition plaintext (n : Note) (opening : LockOpening) : list byte :=
  encode n ++ concat (map fr_to_be_bytes (lock_fields opening)).

(** One element, prefixed with its length. *)
Definition framed (ct : list byte) : list byte :=
  be_of_Z 4 (Z.of_nat (length ct) mod 2 ^ 32) ++ ct.

Fixpoint payload_element (rest : list byte) (j : nat) : option (list byte) :=
  if (length rest <? 4)%nat then None
  else
    let len := Z.to_nat (be_to_Z (take 4 rest)) in
    if (length rest <? 4 + len)%nat then None
    else
      match j with
      | O => Some (take len (drop 4 rest))
      | S j' => payload_element (drop (4 + len) rest) j'
      end.

(** [.ok()?]. *)
Definition ok {E A} (m : outcome E A) : option A := match m with Ok a => Some a | _ => None end.

Section payload.
Context `{C : Crypto} {SK PK Sg VK VPK Env : Type} {KC : Custody SK PK Sg VK VPK Env}.

(** The outputs with the draw of each seal. *)
Definition encrypt_payload (outputs : list (Note * LockOpening * VPK * list byte)) : list byte :=
  concat (imap (λ j o, let '(n, opening, vpk, draw) := o in
    framed (encrypt draw (plaintext n opening) vpk (aad j))) outputs).

Definition decrypt_payload (vk : VK) (payload : list byte) (j : nat)
  : option (Note * LockOpening) :=
  element ← payload_element payload j;
  bytes ← ok (decrypt element vk (aad j));
  if negb (length bytes =? NOTE_BYTES + 96)%nat then None
  else
    n ← ok (decode (take NOTE_BYTES bytes));
    let word i := ok (fr_try_from (take 32 (drop (NOTE_BYTES + 32 * i) bytes))) in
    w0 ← word 0%nat;
    w1 ← word 1%nat;
    w2 ← word 2%nat;
    opening ← lock_from_fields [w0; w1; w2];
    Some (n, opening).

Definition payload_commitment (payload : list byte) : Fr := fr_of_Z (be_to_Z (keccak256 payload)).
End payload.

(** ** Shared building blocks *)
Record OwnedNote : Type := mk_owned {
  on_note : Note;
  on_opening : LockOpening;
  on_commitment : Fr;
  on_leaf_index : nat;
  on_spent : bool;
}.

Record Output (VPK : Type) : Type := mk_output {
  out_owner : Fr;
  out_units : Z;
  out_opening : LockOpening;
  out_vpk : VPK;
}.
Arguments mk_output {VPK}.
Arguments out_owner {VPK}.
Arguments out_units {VPK}.
Arguments out_opening {VPK}.
Arguments out_vpk {VPK}.

Record TransferSpec (VPK : Type) : Type := mk_spec {
  ts_claim : bool;
  ts_owner_key : PublicSpendKey;
  ts_nk : Fr;
  ts_claim_key : PublicSpendKey;
  ts_inputs : list OwnedNote;
  ts_outputs : Output VPK * Output VPK;
}.
Arguments mk_spec {VPK}.
Arguments ts_claim {VPK}.
Arguments ts_owner_key {VPK}.
Arguments ts_nk {VPK}.
Arguments ts_claim_key {VPK}.
Arguments ts_inputs {VPK}.
Arguments ts_outputs {VPK}.

Record BuiltTransfer : Type := mk_built {
  bt_witness : TransferWitness;
  bt_payload : list byte;
  bt_outputs : Note * Note;
}.

(** The draws of a transfer: the salts of the padding input and of the two
    outputs, the two seals, and the secret of the feed. *)
Record TransferDraws : Type := mk_draws {
  td_padding : Fr;
  td_salts : Fr * Fr;
  td_seals : list byte * list byte;
  td_feed : FeedSecret;
}.

Record PendingTransfer : Type := mk_pending {
  pd_plan : Plan;
  pd_outputs : Note * Note;
  pd_output_locks : LockOpening * LockOpening;
  pd_claim : bool;
  pd_owner_key : PublicSpendKey;
  pd_nk : Fr;
  pd_claim_key : PublicSpendKey;
  pd_inputs : list OwnedNote;
  pd_padding : option InputWitness;
  pd_payload : list byte;
}.

Record PendingDeposit : Type := mk_pending_deposit {
  dp_plan : Plan;
  dp_note : Note;
  dp_owner_key : PublicSpendKey;
  dp_nk : Fr;
  dp_funder : Address;
  dp_payload : list byte;
}.

Record PendingWithdraw : Type := mk_pending_withdraw {
  wp_plan : Plan;
  wp_owned : OwnedNote;
  wp_owner_key : PublicSpendKey;
  wp_nk : Fr;
  wp_recipient : Address;
}.

(** The custody signer. *)
Class PlanSigner (G : Type) : Type := {
  signer_sign_plan : G → Plan → list Note → outcome CryptoError (list byte);
}.
#[export] Instance spend_key_signer `{C : Crypto} {SK PK Sg VK VPK Env}
  {KC : Custody SK PK Sg VK VPK Env} : PlanSigner SK := {| signer_sign_plan := sign_plan |}.

Section building.
Context `{C : Crypto} {FI : FrInverse} {T : Type} {RT : RotorTree T}.
Context {SK PK Sg VK VPK Env : Type} {KC : Custody SK PK Sg VK VPK Env}.
Implicit Types (view : ChainView T) (env : PoolEnv).

Definition attestation_witness view env (owner : Fr) : option AttestationWitness :=
  r ← attestation_of view owner (en_epoch env) (en_min_accepted_generation env);
  path ← proof (cv_attestations view) (ar_leaf_index r);
  Some (mk_attestation_witness (ar_attester r) (ar_generation r) (ar_issued_at r)
          (ar_expires_at r) path).

Definition unchecked_attestation : AttestationWitness :=
  mk_attestation_witness (zeros 20) 0 0 0 [].

Definition require_attestation view env (owner : Fr) : outcome ActorError AttestationWitness :=
  ok_or (attestation_witness view env owner) (NotAttested (fr_to_be_bytes owner)).

(** [OwnedNote::input]. *)
Definition input (n : OwnedNote) view : outcome ActorError InputWitness :=
  let unknown := UnknownNote (fr_to_be_bytes (on_commitment n)) in
  path ← ok_or (proof (cv_commitments view) (on_leaf_index n)) unknown;
  l ← leaf (cv_commitments view) (on_leaf_index n);
  ensure (fr_eqb l (on_commitment n)) unknown;;
  Ok (mk_input_witness (nt_units (on_note n)) (nt_salt (on_note n)) (nt_lock (on_note n))
        (on_opening n) path).

Definition require_unexpired (p : Plan) env : outcome ActorError unit :=
  ensure (negb (pl_expiry p <? (en_epoch env + 1) * EPOCH_SECONDS))
    (PlanExpired (pl_expiry p) (en_epoch env)).

(** The note of an output. *)
Definition output_note env (o : Output VPK) (salt : Fr) : Note :=
  mk_note (fr_of_address (en_token env)) (out_units o) (out_owner o) salt
    (lock_value (out_opening o)).

Definition prepare_transfer (draws : TransferDraws) (spec : TransferSpec VPK) env
  : outcome ActorError PendingTransfer :=
  let inputs := ts_inputs spec in
  ensure (negb ((length inputs =? 0)%nat || (2 <? length inputs)%nat)) (InputCount (length inputs));;
  let owner_in := owner_value (ts_owner_key spec) (ts_nk spec) in
  let token := fr_of_address (en_token env) in
  let padding := if (length inputs =? 1)%nat then Some (input_padding (td_padding draws)) else None in
  first ← index inputs 0;
  second ← match padding with
           | Some p => Ok (commitment (mk_note token (iw_units p) owner_in (iw_salt p) (iw_lock p)))
           | None => n ← index inputs 1; Ok (on_commitment n)
           end;
  let nullifiers := (nullifier (on_commitment first) (ts_nk spec), nullifier second (ts_nk spec)) in
  let '(o0, o1) := ts_outputs spec in
  let n0 := output_note env o0 (td_salts draws).1 in
  let n1 := output_note env o1 (td_salts draws).2 in
  let payload := encrypt_payload [(n0, out_opening o0, out_vpk o0, (td_seals draws).1);
                                  (n1, out_opening o1, out_vpk o1, (td_seals draws).2)] in
  let plan := mk_plan (en_chain_id env) (en_pool env) OP_TRANSFER
    (if ts_claim spec then PATH_CLAIM else PATH_OWNER) nullifiers (commitment n0, commitment n1)
    0 fr_zero (expiry env) in
  Ok (mk_pending plan (n0, n1) (out_opening o0, out_opening o1) (ts_claim spec)
        (ts_owner_key spec) (ts_nk spec) (ts_claim_key spec) inputs padding payload).

Definition output_attestation view env (claim : bool) (owner_in : Fr) (out : Note)
  : outcome ActorError AttestationWitness :=
  if negb claim || negb (fr_eqb (nt_owner out) owner_in)
  then require_attestation view env (nt_owner out)
  else Ok (default unchecked_attestation (attestation_witness view env (nt_owner out))).

Definition finish_transfer (feed_secret : FeedSecret) (p : PendingTransfer)
  (signature : list byte) view env : outcome ActorError BuiltTransfer :=
  require_unexpired (pd_plan p) env;;
  let owner_in := owner_value (pd_owner_key p) (pd_nk p) in
  ins ← for_each (λ acc n, i ← input n view; Ok (acc ++ [i])) [] (pd_inputs p);
  let ins := ins ++ option_list (pd_padding p) in
  input_attestation ← (if pd_claim p then Ok unchecked_attestation
                       else require_attestation view env owner_in);
  let '(n0, n1) := pd_outputs p in
  let '(l0, l1) := pd_output_locks p in
  a0 ← output_attestation view env (pd_claim p) owner_in n0;
  a1 ← output_attestation view env (pd_claim p) owner_in n1;
  let '(feed_r, k) := derive feed_secret (en_register_key env) in
  let feed_ct := feed_encrypt k (feed_fields n0 l0) 0 ++ feed_encrypt k (feed_fields n1 l1) 1 in
  i0 ← index ins 0;
  i1 ← index ins 1;
  Ok (mk_built
    (mk_transfer_witness (pl_nullifiers (pd_plan p)) (pl_outputs (pd_plan p))
       (root (cv_commitments view)) (root (cv_attestations view)) (en_min_accepted_generation env)
       (en_epoch env) (en_chain_id env) (en_pool env) (en_claim_key_hash env)
       (en_register_key env) feed_r feed_ct (payload_commitment (pd_payload p)) (pd_claim p)
       (en_token env) (pd_owner_key p) (pd_nk p) (pd_claim_key p) signature
       (pl_expiry (pd_plan p)) (i0, i1) (n0, n1) (l0, l1) input_attestation (a0, a1) feed_secret)
    (pd_payload p) (n0, n1)).

Definition build_transfer {G} {PS : PlanSigner G} (draws : TransferDraws) (spec : TransferSpec VPK)
  (signer : G) view env : outcome ActorError BuiltTransfer :=
  pending ← prepare_transfer draws spec env;
  signature ← map_err ActorCrypto (signer_sign_plan signer (pd_plan pending)
    [(pd_outputs pending).1; (pd_outputs pending).2]);
  finish_transfer (td_feed draws) pending signature view env.

Definition finish_deposit (feed_secret : FeedSecret) (p : PendingDeposit) (signature : list byte)
  view env : outcome ActorError (DepositWitness * list byte) :=
  require_unexpired (dp_plan p) env;;
  attestation ← require_attestation view env (owner_value (dp_owner_key p) (dp_nk p));
  let '(feed_r, k) := derive feed_secret (en_register_key env) in
  let feed_ct := feed_encrypt k (feed_fields (dp_note p) lock_none) 0 in
  Ok (mk_deposit_witness (commitment (dp_note p)) (en_token env) (nt_units (dp_note p))
        (dp_funder p) (root (cv_attestations view)) (en_min_accepted_generation env) (en_epoch env)
        (en_chain_id env) (en_pool env) (en_register_key env) feed_r feed_ct
        (payload_commitment (dp_payload p)) (dp_owner_key p) (dp_nk p) signature
        (pl_expiry (dp_plan p)) (nt_salt (dp_note p)) attestation feed_secret,
      dp_payload p).

Definition finish_withdraw (p : PendingWithdraw) (signature : list byte) view env
  : outcome ActorError WithdrawWitness :=
  require_unexpired (wp_plan p) env;;
  attestation ← require_attestation view env (owner_value (wp_owner_key p) (wp_nk p));
  i ← input (wp_owned p) view;
  Ok (mk_withdraw_witness (pl_nullifiers (wp_plan p)).1 (en_token env)
        (nt_units (on_note (wp_owned p))) (wp_recipient p) (root (cv_commitments view))
        (root (cv_attestations view)) (en_min_accepted_generation env) (en_epoch env)
        (en_chain_id env) (en_pool env) (wp_owner_key p) (wp_nk p) signature
        (pl_expiry (wp_plan p)) i attestation).
End building.

(** ** The wallet *)
Record Wallet (VK : Type) : Type := mk_wallet {
  wa_keys : WalletKeys VK;
  wa_notes : list OwnedNote;
}.
Arguments mk_wallet {VK}.
Arguments wa_keys {VK}.
Arguments wa_notes {VK}.

(** [Iterator::sum] of [u64]s, which panics past the width. *)
Definition sum_u64 {E} (l : list Z) : outcome E Z :=
  for_each (λ acc u, expect (checked_add 64 acc u)) 0 l.

(** The stable [sort_by_key] on units. *)
Fixpoint insert_by_units (n : OwnedNote) (l : list OwnedNote) : list OwnedNote :=
  match l with
  | [] => [n]
  | m :: l' =>
      if nt_units (on_note n) <=? nt_units (on_note m) then n :: l
      else m :: insert_by_units n l'
  end.
Definition sort_by_units (l : list OwnedNote) : list OwnedNote := foldr insert_by_units [] l.

Definition mark (n : OwnedNote) (spent : bool) : OwnedNote :=
  mk_owned (on_note n) (on_opening n) (on_commitment n) (on_leaf_index n) spent.

Section wallet.
Context `{C : Crypto} {FI : FrInverse} {T : Type} {RT : RotorTree T}.
Context {SK PK Sg VK VPK Env : Type} {KC : Custody SK PK Sg VK VPK Env}.
Context {G : Type} {PS : PlanSigner G}.
Implicit Types (view : ChainView T) (env : PoolEnv) (w : Wallet VK) (signer : G).

Definition wallet_new (keys : WalletKeys VK) : Wallet VK := mk_wallet keys [].
Definition wallet_owner w : Fr := wallet_keys_owner (wa_keys w).
Definition wallet_vpk w : VPK := v_public (wk_view (wa_keys w)).

Definition registration w env (investor_id : string) : Registration VPK :=
  mk_registration (en_chain_id env) (en_pool env) investor_id (wk_pk (wa_keys w))
    (nk_hash (wk_nk (wa_keys w))) (wallet_vpk w).

(** One record of the chain: the note it adds to those held, if any. *)
Definition scan_step (keys : WalletKeys VK) (notes : list OwnedNote) (record : NoteRecord)
  : list OwnedNote :=
  if existsb (λ n, fr_eqb (on_commitment n) (nr_commitment record)) notes then notes
  else
    match decrypt_payload (wk_view keys) (nr_payload record) (nr_output record) with
    | None => notes
    | Some (n, opening) =>
        if fr_eqb (nt_owner n) (wallet_keys_owner keys)
           && fr_eqb (commitment n) (nr_commitment record)
        then notes ++ [mk_owned n opening (nr_commitment record) (nr_leaf_index record) false]
        else notes
    end.
Definition scan w view : Wallet VK :=
  let keys := wa_keys w in
  mk_wallet keys
    (map (λ n, mark n (bool_decide (nullifier (on_commitment n) (wk_nk keys) ∈ cv_nullifiers view)))
       (foldl (scan_step keys) (wa_notes w) (cv_notes view))).

Definition can_spend (epoch : Z) (n : OwnedNote) : bool :=
  negb (on_spent n) && (0 <? nt_units (on_note n))
  && (fr_eqb (nt_lock (on_note n)) fr_zero || (lo_release_after (on_opening n) <=? epoch)).
Definition spendable w (epoch : Z) : list OwnedNote :=
  base.filter (λ n, can_spend epoch n = true) (wa_notes w).
Definition balance w (epoch : Z) : outcome ActorError Z :=
  sum_u64 (map (λ n, nt_units (on_note n)) (spendable w epoch)).

Definition prepare_deposit (salt : Fr) (seal : list byte) w env (units : Z) (funder : Address)
  : PendingDeposit :=
  let n := mk_note (fr_of_address (en_token env)) units (wallet_owner w) salt fr_zero in
  let payload := encrypt_payload [(n, lock_none, wallet_vpk w, seal)] in
  let plan := mk_plan (en_chain_id env) (en_pool env) OP_DEPOSIT PATH_OWNER (fr_zero, fr_zero)
    (commitment n, fr_zero) units (fr_of_address funder) (expiry env) in
  mk_pending_deposit plan n (wk_pk (wa_keys w)) (wk_nk (wa_keys w)) funder payload.

Definition deposit (salt : Fr) (seal : list byte) (feed_secret : FeedSecret) w signer view env
  (units : Z) (funder : Address) : outcome ActorError (DepositWitness * list byte) :=
  let pending := prepare_deposit salt seal w env units funder in
  signature ← map_err ActorCrypto (signer_sign_plan signer (dp_plan pending) [dp_note pending]);
  finish_deposit feed_secret pending signature view env.

(** The specification of an owner-path transfer. *)
Definition owner_spec w (inputs : list OwnedNote) (outputs : Output VPK * Output VPK)
  : TransferSpec VPK :=
  mk_spec false (wk_pk (wa_keys w)) (wk_nk (wa_keys w)) (wk_pk (wa_keys w)) inputs outputs.

Definition transfer (draws : TransferDraws) w signer view env (inputs : list OwnedNote)
  (outputs : Output VPK * Output VPK) : outcome ActorError BuiltTransfer :=
  build_transfer draws (owner_spec w inputs outputs) signer view env.
Definition wallet_prepare_transfer (draws : TransferDraws) w env (inputs : list OwnedNote)
  (outputs : Output VPK * Output VPK) : outcome ActorError PendingTransfer :=
  prepare_transfer draws (owner_spec w inputs outputs) env.

(** The inputs of a payment: the smallest note that covers it, else the two
    largest. *)
Definition pay_inputs (notes : list OwnedNote) (units : Z) : outcome ActorError (list OwnedNote) :=
  let notes := sort_by_units notes in
  match List.find (λ n, units <=? nt_units (on_note n)) notes with
  | Some n => Ok [n]
  | None =>
      let top := take 2 (rev notes) in
      have ← sum_u64 (map (λ n, nt_units (on_note n)) top);
      ensure (negb (have <? units)) (InsufficientUnits have units);;
      Ok top
  end.

Definition pay (draws : TransferDraws) w signer view env (to : Fr) (to_vpk : VPK) (units : Z)
  : outcome ActorError BuiltTransfer :=
  inputs ← pay_inputs (spendable w (en_epoch env)) units;
  total ← sum_u64 (map (λ n, nt_units (on_note n)) inputs);
  change ← expect (checked_sub total units);
  transfer draws w signer view env inputs
    (mk_output to units lock_none to_vpk,
     mk_output (wallet_owner w) change lock_none (wallet_vpk w)).

Definition prepare_withdraw w env (owned : OwnedNote) (recipient : Address) : PendingWithdraw :=
  let plan := mk_plan (en_chain_id env) (en_pool env) OP_WITHDRAW PATH_OWNER
    (nullifier (on_commitment owned) (wk_nk (wa_keys w)), fr_zero) (fr_zero, fr_zero)
    (nt_units (on_note owned)) (fr_of_address recipient) (expiry env) in
  mk_pending_withdraw plan owned (wk_pk (wa_keys w)) (wk_nk (wa_keys w)) recipient.

Definition withdraw w signer view env (owned : OwnedNote) (recipient : Address)
  : outcome ActorError WithdrawWitness :=
  let pending := prepare_withdraw w env owned recipient in
  signature ← map_err ActorCrypto (signer_sign_plan signer (wp_plan pending) []);
  finish_withdraw pending signature view env.
End wallet.
