(* ===== verification/MmfOk.v ===== *)
(** * Money-market-fund notes: codecs, feed, payload and plan

    The round trips of [domain/note.rs], [domain/feed.rs] and of the payload
    of [wallet.rs], and what a custody signer signs ([domain/plan.rs]). *)

From Stdlib Require Import ZArith Lia Bool.
From stdpp Require Import base tactics list gmap strings numbers.
From S2P Require Import Prelude Field Types Poseidon MmfTypes MmfCurve MmfChain MmfWallet.

(** ** Sums *)
Definition sumZ (l : list Z) : Z := foldr Z.add 0 l.

Lemma sumZ_app l k : sumZ (l ++ k) = sumZ l + sumZ k.
Proof. induction l as [|x l IH]; cbn; [done|]. fold sumZ in *. unfold sumZ in *. cbn. lia. Qed.

Lemma sumZ_nonneg l : Forall (λ x, 0 ≤ x) l → 0 ≤ sumZ l.
Proof. induction 1; unfold sumZ in *; cbn; lia. Qed.

#[export] Instance sumZ_proper : Proper ((≡ₚ) ==> (=)) sumZ.
Proof. intros l k H. induction H; unfold sumZ in *; cbn; lia. Qed.

(** A checked sum that fits its width. *)
Lemma sum_loop_Ok {E A} bits (f : A → Z) l acc :
  Forall (λ x, 0 ≤ f x) l → acc + sumZ (map f l) < 2 ^ bits →
  for_each (E:=E) (λ acc x, expect (checked_add bits acc (f x))) acc l = Ok (acc + sumZ (map f l)).
Proof.
  intros Hl. revert acc. induction Hl as [|x l Hx Hl IH]; intros acc Ha; cbn [for_each].
  { unfold sumZ; cbn. by rewrite Z.add_0_r. }
  change (sumZ (map f (x :: l))) with (f x + sumZ (map f l)) in *.
  assert (0 ≤ sumZ (map f l)) by (by apply sumZ_nonneg, list.Forall_fmap).
  assert (checked_add bits acc (f x) = Some (acc + f x)) as ->
    by (apply checked_add_Some; split; [done|lia]).
  cbn [expect]. rewrite Ok_bind, IH by lia. f_equal. lia.
Qed.

Lemma sum_u64_Ok {E} l :
  Forall (λ x, 0 ≤ x) l → sumZ l < 2 ^ 64 → sum_u64 (E:=E) l = Ok (sumZ l).
Proof. intros. unfold sum_u64. by rewrite (sum_loop_Ok 64 (λ u, u)), map_id by by rewrite ?map_id. Qed.

(** A checked sum past its width. *)
Lemma sum_loop_Panic {E A} bits (f : A → Z) l acc :
  Forall (λ x, 0 ≤ f x) l → acc < 2 ^ bits ≤ acc + sumZ (map f l) →
  for_each (E:=E) (λ acc x, expect (checked_add bits acc (f x))) acc l = Panic.
Proof.
  intros Hl. revert acc. induction Hl as [|x l Hx Hl IH]; intros acc Ha; cbn [for_each].
  { unfold sumZ in Ha; cbn in Ha. lia. }
  change (sumZ (map f (x :: l))) with (f x + sumZ (map f l)) in *.
  unfold checked_add. case_match; [|done]. reflect_bools.
  cbn [expect]. rewrite Ok_bind. apply IH. lia.
Qed.

Lemma sum_u64_Panic {E} l : Forall (λ x, 0 ≤ x) l → 2 ^ 64 ≤ sumZ l → sum_u64 (E:=E) l = Panic.
Proof. intros. unfold sum_u64. apply (sum_loop_Panic 64 (λ u, u)); [done|]. rewrite map_id. lia. Qed.

(** ** Small fields *)
Lemma existsb_nonzero l :
  existsb (λ b, negb (bool_decide (b = x00))) l = false ↔ l = zeros (length l).
Proof.
  unfold zeros. induction l as [|b l IH]; cbn; [done|].
  rewrite orb_false_iff, IH, negb_false_iff, bool_decide_eq_true. split.
  - intros [-> ->]. by rewrite length_replicate.
  - by intros [= -> ?].
Qed.

Lemma small_Some f u : small f = Some u ↔ fr_val f = u ∧ u < 2 ^ 64.
Proof.
  unfold small. set (b := fr_to_be_bytes f).
  assert (length b = 32%nat) as Hl by apply length_fr_to_be_bytes.
  assert (be_to_Z b = fr_val f) as Hv by apply be_to_Z_fr_to_be_bytes.
  clearbody b. rewrite <-(take_drop 24 b) in Hv. rewrite be_to_Z_app, length_drop, Hl in Hv.
  pose proof (be_to_Z_range (drop 24 b)) as Hd. rewrite length_drop, Hl in Hd.
  change (256 ^ Z.of_nat (32 - 24)) with (2 ^ 64) in *.
  pose proof (be_to_Z_range (take 24 b)) as Ht.
  destruct (existsb _ _) eqn:E; split.
  - done.
  - intros [? ?]. exfalso. apply not_false_iff_true in E. apply E, existsb_nonzero.
    apply be_to_Z_inj; [by rewrite length_zeros|]. rewrite be_to_Z_zeros. lia.
  - intros [= <-]. apply existsb_nonzero in E. rewrite E, be_to_Z_zeros in Hv. lia.
  - intros [<- ?]. apply existsb_nonzero in E. rewrite E, be_to_Z_zeros in Hv. f_equal. lia.
Qed.

Lemma u64_modulus : 2 ^ 64 < fr_modulus.
Proof. done. Qed.

Lemma fr_val_u64 u : is_u64 u → fr_val (fr_of_Z u) = u.
Proof. intros [? ?]. apply fr_val_of_Z. pose proof u64_modulus. lia. Qed.

Lemma small_of_Z u : is_u64 u → small (fr_of_Z u) = Some u.
Proof. intros Hu. apply small_Some. rewrite fr_val_u64 by done. by destruct Hu. Qed.

(** ** Fields of notes and locks *)
Lemma note_from_to_fields n : note_typed n → note_from_fields (note_fields n) = Some n.
Proof. intros Hn. cbn -[small]. rewrite small_of_Z by done. by destruct n. Qed.

Lemma lock_from_to_fields o : lock_typed o → lock_from_fields (lock_fields o) = Some o.
Proof. intros [Hr Ha]. cbn -[small]. rewrite !small_of_Z by done. by destruct o. Qed.

Lemma small_inv f u : small f = Some u → is_u64 u ∧ fr_of_Z u = f.
Proof.
  intros [<- ?]%small_Some. pose proof (fr_range f). rewrite fr_of_val. split; [split|]; [lia..|done].
Qed.

Lemma note_from_fields_Some f n :
  note_from_fields f = Some n → note_typed n ∧ f = note_fields n.
Proof.
  destruct f as [|f0 [|f1 [|f2 [|f3 [|f4 [|]]]]]]; try done.
  unfold note_from_fields. destruct (small f1) as [u|] eqn:Eu; [|done].
  cbn -[fr_of_Z]. intros [= <-]. apply small_inv in Eu as [Hu <-]. done.
Qed.

(** ** Encoding of notes *)
Lemma read_fields_Ok l fs :
  Forall (λ c : list byte, length c = 32%nat) l → read_fields l = Ok fs ↔ l = map fr_to_be_bytes fs.
Proof.
  intros Hl. revert fs. induction Hl as [|c l Hc Hl IH]; intros fs; cbn [read_fields].
  { split; [by intros [= <-]|]. by destruct fs. }
  split.
  - intros H. apply bind_Ok in H as (f & Hf & H). apply bind_Ok in H as (fs' & Hfs & H).
    apply (inj Ok) in H as <-. apply fr_try_from_Ok in Hf; [|done]. apply IH in Hfs. by subst.
  - destruct fs as [|f fs]; [done|]. intros [= -> E].
    rewrite fr_try_to, Ok_bind. apply IH in E. by rewrite E.
Qed.

Lemma chunks_32 (fs : list Fr) :
  chunks 32 (concat (map fr_to_be_bytes fs)) = map fr_to_be_bytes fs.
Proof.
  unfold chunks.
  assert (length fs ≤ length (concat (map fr_to_be_bytes fs)))%nat as Hf.
  { induction fs as [|f fs IH]; cbn [map concat length]; [lia|]. rewrite length_app, length_fr_to_be_bytes. lia. }
  revert Hf. generalize (length (concat (map fr_to_be_bytes fs))) as fuel.
  induction fs as [|f fs IH]; intros fuel Hf; [by destruct fuel|].
  destruct fuel as [|fuel]; [cbn [length] in Hf; lia|]. cbn [map concat chunks_fuel].
  pose proof (length_fr_to_be_bytes f) as Hl.
  destruct (fr_to_be_bytes f ++ _) as [|b rest] eqn:E.
  { apply (f_equal length) in E. rewrite length_app, Hl in E. cbn [length] in E. lia. }
  rewrite <-E, (take_app_length' _ _ 32), (drop_app_length' _ _ 32) by done.
  rewrite IH; [done|]. cbn [length] in Hf. lia.
Qed.

Lemma length_concat_fields (fs : list Fr) :
  length (concat (map fr_to_be_bytes fs)) = (32 * length fs)%nat.
Proof.
  induction fs as [|f fs IH]; cbn [map concat length]; [done|]. rewrite length_app, length_fr_to_be_bytes, IH. lia.
Qed.

Lemma length_encode n : length (encode n) = NOTE_BYTES.
Proof. unfold encode. by rewrite length_concat_fields. Qed.

Lemma decode_encode n : note_typed n → decode (encode n) = Ok n.
Proof.
  intros Hn. unfold decode. rewrite ensure_bind by (by rewrite length_encode).
  unfold encode. rewrite chunks_32. erewrite (proj2 (read_fields_Ok _ (note_fields n) _)) by done.
  rewrite Ok_bind, note_from_to_fields by done. done.
  Unshelve. apply list.Forall_fmap, Forall_true. intros f. apply length_fr_to_be_bytes.
Qed.

(** ** The feed *)
Section feed_ok.
Context `{C : Crypto} {FI : FrInverse} {FL : FrInverseLaws}.

Lemma feed_decrypt_encrypt k fields j tk R :
  key_of (point_mul R (feed_scalar tk)) = k →
  feed_decrypt tk R (feed_encrypt k fields j) j = fields.
Proof.
  intros Hk. unfold feed_decrypt, feed_encrypt. rewrite Hk. apply list_eq. intros i.
  rewrite !list_lookup_imap. destruct (fields !! i) as [f|]; cbn -[fr_sub fr_add keystream]; [|done].
  by rewrite fr_sub_add.
Qed.

Lemma feed_open_fields n terms :
  note_typed n → lock_typed terms → feed_open (feed_fields n terms) = Some (n, terms).
Proof.
  intros Hn Ht. unfold feed_open, feed_fields.
  rewrite (take_app_length' _ _ NOTE_FIELDS), (drop_app_length' _ _ NOTE_FIELDS) by done.
  rewrite note_from_to_fields by done. cbn -[lock_from_fields lock_fields].
  by rewrite lock_from_to_fields.
Qed.

Lemma feed_reads r tk n terms j :
  secret_typed r → secret_typed tk → note_typed n → lock_typed terms →
  let '(feed_r, k) := derive r (public_point tk) in
  feed_open (feed_decrypt tk feed_r (feed_encrypt k (feed_fields n terms) j) j) = Some (n, terms).
Proof.
  intros Hr Htk Hn Ht. unfold derive.
  rewrite feed_decrypt_encrypt by (by rewrite (shared_point r tk)). by apply feed_open_fields.
Qed.

Lemma length_feed_encrypt k fields j : length (feed_encrypt k fields j) = length fields.
Proof. apply length_imap. Qed.
End feed_ok.

(** ** The payload *)
Lemma payload_element_eq rest j :
  payload_element rest j =
  if (length rest <? 4)%nat then None
  else
    let len := Z.to_nat (be_to_Z (take 4 rest)) in
    if (length rest <? 4 + len)%nat then None
    else match j with
         | O => Some (take len (drop 4 rest))
         | S j' => payload_element (drop (4 + len) rest) j'
         end.
Proof. by destruct j. Qed.

Lemma payload_element_framed cts j ct :
  Forall (λ c : list byte, Z.of_nat (length c) < 2 ^ 32) cts → cts !! j = Some ct →
  payload_element (concat (map framed cts)) j = Some ct.
Proof.
  intros Hc. revert j. induction Hc as [|c cts Hc _ IH]; intros j Hj; [done|].
  cbn [map concat]. unfold framed at 1. rewrite <-app_assoc.
  set (len := be_of_Z 4 (Z.of_nat (length c) mod 2 ^ 32)). set (rest := concat (map framed cts)) in *.
  assert (length len = 4%nat) as Hlen by apply length_be_of_Z.
  assert (Z.to_nat (be_to_Z len) = length c) as Hv.
  { unfold len. rewrite Z.mod_small, be_to_of_Z_small by (change (256 ^ Z.of_nat 4) with (2 ^ 32); lia).
    lia. }
  clearbody len. rewrite payload_element_eq. cbv zeta.
  replace (length (len ++ c ++ rest) <? 4)%nat with false
    by (symmetry; apply Nat.ltb_ge; rewrite length_app; lia).
  rewrite (take_app_length' _ _ 4), (drop_app_length' _ _ 4) by done. rewrite Hv.
  replace (length (len ++ c ++ rest) <? 4 + length c)%nat with false
    by (symmetry; apply Nat.ltb_ge; rewrite !length_app; lia).
  destruct j as [|j]; cbn in Hj.
  - injection Hj as ->. by rewrite take_app_length.
  - rewrite app_assoc, drop_app_length' by (rewrite length_app; lia). by apply IH.
Qed.

Section payload_ok.
Context `{C : Crypto} {SK PK Sg VK VPK Env : Type} {KC : Custody SK PK Sg VK VPK Env}.
Context {KL : CustodyLaws SK PK Sg VK VPK Env}.

Lemma sealed_decrypts draw m vk ad : decrypt (encrypt draw m (v_public vk) ad) vk ad = Ok m.
Proof. unfold decrypt, encrypt. rewrite v_parse_bytes. cbn. by rewrite v_open_sealed. Qed.

Lemma encrypt_payload_framed (outs : list (Note * LockOpening * VPK * list byte)) :
  encrypt_payload outs = concat (map framed (imap (λ j o,
    let '(n, opening, vpk, draw) := o in encrypt draw (plaintext n opening) vpk (aad j)) outs)).
Proof.
  unfold encrypt_payload. f_equal. change (map framed) with (fmap (M:=list) framed).
  rewrite fmap_imap. apply imap_ext. by intros i [[[n o] v] d] _.
Qed.

Lemma plaintext_words n opening i :
  (i < 3)%nat →
  ok (fr_try_from (take 32 (drop (NOTE_BYTES + 32 * i) (plaintext n opening))))
  = lock_fields opening !! i.
Proof.
  intros Hi. unfold plaintext. rewrite drop_app_ge by (rewrite length_encode; lia).
  rewrite length_encode, Nat.add_comm, Nat.add_sub. destruct i as [|[|[|i]]]; [| | |lia].
  all: cbn [lock_fields map concat]; rewrite ?app_nil_r.
  - change (32 * 0)%nat with 0%nat. rewrite drop_0, (take_app_length' _ _ 32).
    + by rewrite fr_try_to.
    + by rewrite length_fr_to_be_bytes.
  - change (32 * 1)%nat with 32%nat.
    rewrite (drop_app_length' _ _ 32), (take_app_length' _ _ 32); rewrite ?length_fr_to_be_bytes; [|done..].
    by rewrite fr_try_to.
  - change (32 * 2)%nat with 64%nat. rewrite app_assoc, (drop_app_length' _ _ 64), take_ge, fr_try_to;
      rewrite ?length_app, ?length_fr_to_be_bytes; done.
Qed.

Lemma length_plaintext n opening : length (plaintext n opening) = (NOTE_BYTES + 96)%nat.
Proof. unfold plaintext. rewrite length_app, length_encode, length_concat_fields. done. Qed.

Lemma decrypt_payload_Some vk (outs : list (Note * LockOpening * VPK * list byte)) j n opening draw :
  outs !! j = Some (n, opening, v_public vk, draw) → note_typed n → lock_typed opening →
  decrypt_payload vk (encrypt_payload outs) j = Some (n, opening).
Proof.
  intros Hj Hn Ho. unfold decrypt_payload. rewrite encrypt_payload_framed.
  erewrite payload_element_framed; [|apply list.Forall_lookup|].
  2:{ intros i c. rewrite list_lookup_imap. intros (o & _ & Hc)%fmap_Some_1.
      destruct o as [[[n' o'] v'] d']. subst c. apply v_seal_short.
      by rewrite length_plaintext. }
  2:{ by rewrite list_lookup_imap, Hj. }
  cbn [mbind option_bind]. rewrite sealed_decrypts. cbn [ok mbind option_bind].
  rewrite length_plaintext, Nat.eqb_refl. cbn [negb].
  rewrite (plaintext_words n opening 0), (plaintext_words n opening 1),
    (plaintext_words n opening 2) by lia.
  unfold plaintext at 1. rewrite (take_app_length' _ _ NOTE_BYTES) by (by rewrite length_encode).
  rewrite decode_encode by done.
  change (lock_fields opening !! 0%nat) with (Some (fr_of_Z (lo_reason opening))).
  change (lock_fields opening !! 1%nat) with (Some (fr_of_Z (lo_release_after opening))).
  change (lock_fields opening !! 2%nat) with (Some (lo_claim_party opening)).
  cbn [ok mbind option_bind].
  pose proof (lock_from_to_fields opening Ho) as E. unfold lock_fields in E. by rewrite E.
Qed.
End payload_ok.
