(* ===== verification/MmfAgent.v ===== *)
(** * Money-market-fund notes: the transfer agent

    Model of [agent.rs].  A [BTreeMap] whose order is read is a list of
    bindings kept sorted by [bt_insert]; a map that is only looked up is a
    finite map.  A method that takes [&mut self] is a computation in the state
    monad [M], so that what it changed before an early return stays.  Random
    draws and the shuffle of a batch are arguments. *)

From Stdlib Require Import ZArith Lia Bool.
From Stdlib Require String.
From stdpp Require Import base tactics list gmap strings numbers countable.
From S2P Require Import Prelude Field Types Poseidon MmfTypes MmfChain MmfWallet.

(** ** Sorted maps *)
Section btree.
Context {K V : Type} `{EqDecision K} (ltb : K → K → bool).

Fixpoint bt_insert (k : K) (v : V) (m : list (K * V)) : list (K * V) :=
  match m with
  | [] => [(k, v)]
  | (k', v') :: m' =>
      if ltb k k' then (k, v) :: m
      else if ltb k' k then (k', v') :: bt_insert k v m'
      else (k, v) :: m'
  end.
Fixpoint bt_get (k : K) (m : list (K * V)) : option V :=
  match m with
  | [] => None
  | (k', v) :: m' => if decide (k = k') then Some v else bt_get k m'
  end.
End btree.

(** ** Data *)
Definition ATTESTATION_PART : nat := 16.

Record AttestationBatch : Type := mk_batch {
  ab_parts : list (list Fr);
  ab_expires_at : Z;
  ab_generation : Z;
}.
Definition batch_new {E} (parts : list (list Fr)) (expires_at generation : Z)
  : outcome E AttestationBatch :=
  assert_ (forallb (λ p, (length p =? ATTESTATION_PART)%nat) parts);;
  Ok (mk_batch parts expires_at generation).
Definition owners (b : AttestationBatch) : list Fr := concat (ab_parts b).

Record AttestationRound : Type := mk_round {
  rd_batch : AttestationBatch;
  rd_over_cap : list Fr;
}.

Record HandOutOrder (VPK : Type) : Type := mk_order {
  ho_owner : Fr;
  ho_vpk : VPK;
  ho_units : Z;
  ho_hold_until : option Z;
}.
Arguments mk_order {VPK}.
Arguments ho_owner {VPK}.
Arguments ho_vpk {VPK}.
Arguments ho_units {VPK}.
Arguments ho_hold_until {VPK}.

Inductive HandOutSource : Type :=
| Aggregate
| FromOutput (transfer index : nat).
#[export] Instance HandOutSource_eq_dec : EqDecision HandOutSource.
Proof. solve_decision. Defined.

Record PlannedHandOut (VPK : Type) : Type := mk_planned {
  ph_source : HandOutSource;
  ph_outputs : Output VPK * Output VPK;
}.
Arguments mk_planned {VPK}.
Arguments ph_source {VPK}.
Arguments ph_outputs {VPK}.

Definition AGENT_ID : string := "transfer-agent".
Definition PADDING_ID : string := "transfer-agent-padding".

Definition InvestorId : Type := string.
Definition investor_id_new (id : string) : outcome ActorError InvestorId :=
  ensure (negb (String.eqb id "" || String.eqb id AGENT_ID || String.eqb id PADDING_ID))
    (InvalidInvestorId id);;
  Ok id.

Inductive Holder : Type :=
| Agent
| Padding
| Investor (id : InvestorId).
#[export] Instance Holder_eq_dec : EqDecision Holder.
Proof. unfold InvestorId in *. solve_decision. Defined.

Definition holder_as_str (h : Holder) : string :=
  match h with Agent => AGENT_ID | Padding => PADDING_ID | Investor id => id end.
Definition investor (h : Holder) : option InvestorId :=
  match h with Investor id => Some id | Agent | Padding => None end.

Record InvestorRecord (VPK : Type) : Type := mk_investor {
  ir_holder : Holder;
  ir_pk : PublicSpendKey;
  ir_nk : Fr;
  ir_vpk : VPK;
}.
Arguments mk_investor {VPK}.
Arguments ir_holder {VPK}.
Arguments ir_pk {VPK}.
Arguments ir_nk {VPK}.
Arguments ir_vpk {VPK}.

Record RegisterEntry : Type := mk_entry {
  re_note : Note;
  re_opening : LockOpening;
  re_commitment : Fr;
  re_leaf_index : nat;
  re_holder : option Holder;
  re_spent : bool;
}.

Inductive ClaimAction (VPK : Type) : Type :=
| Freeze
| Hold (until : Z)
| Release
| Seize (to : Fr) (to_vpk : VPK).
Arguments Freeze {VPK}.
Arguments Hold {VPK}.
Arguments Release {VPK}.
Arguments Seize {VPK}.

Record Redemption : Type := mk_redemption {
  rm_investor_id : InvestorId;
  rm_units : Z;
  rm_commitment : Fr;
}.

Record ClaimRecord : Type := mk_claim {
  cl_target : Fr;
  cl_outputs : Fr * Fr;
}.

Record RegisterKeyRotation : Type := mk_rotation {
  rk_version : Z;
  rk_public_key : Point;
}.

Record UnreadableNote : Type := mk_unreadable {
  un_commitment : Fr;
  un_key_version : Z;
}.

Record Reconciliation : Type := mk_reconciliation {
  rc_remainder : Z;
  rc_outflows : list Outflow;
}.

Record TransferAgent (SK VK VPK : Type) : Type := mk_agent {
  ta_wallet : Wallet VK;
  ta_signer : SK;
  ta_claim_key : SK;
  ta_register_keys : list (Z * FeedSecret);
  ta_prepared_register_keys : list (Z * FeedSecret);
  ta_unreadable_notes : list UnreadableNote;
  ta_investors : list (Bytes32 * InvestorRecord VPK);
  ta_register : list RegisterEntry;
  ta_max_investors : option nat;
  ta_jurisdiction_caps : list (string * nat);
  ta_jurisdictions : gmap string string;
  ta_public_holders : gmap (list byte) InvestorId;
  ta_padding : list (OwnerKeys SK VK);
  ta_period_start : option Z;
  ta_not_renewed : gset (list byte);
  ta_pending_claims : list ClaimRecord;
  ta_claims : list ClaimRecord;
  ta_seed_deposit : option Fr;
  ta_register_salt_key : Bytes32;
}.
Arguments mk_agent {SK VK VPK}.
Arguments ta_wallet {SK VK VPK}.
Arguments ta_signer {SK VK VPK}.
Arguments ta_claim_key {SK VK VPK}.
Arguments ta_register_keys {SK VK VPK}.
Arguments ta_prepared_register_keys {SK VK VPK}.
Arguments ta_unreadable_notes {SK VK VPK}.
Arguments ta_investors {SK VK VPK}.
Arguments ta_register {SK VK VPK}.
Arguments ta_max_investors {SK VK VPK}.
Arguments ta_jurisdiction_caps {SK VK VPK}.
Arguments ta_jurisdictions {SK VK VPK}.
Arguments ta_public_holders {SK VK VPK}.
Arguments ta_padding {SK VK VPK}.
Arguments ta_period_start {SK VK VPK}.
Arguments ta_not_renewed {SK VK VPK}.
Arguments ta_pending_claims {SK VK VPK}.
Arguments ta_claims {SK VK VPK}.
Arguments ta_seed_deposit {SK VK VPK}.
Arguments ta_register_salt_key {SK VK VPK}.

(** Assignments to the fields. *)
Section setters.
Context {SK VK VPK : Type}.
Implicit Types (a : TransferAgent SK VK VPK).
Definition set_wallet a (v : Wallet VK) : TransferAgent SK VK VPK :=
  mk_agent v (ta_signer a) (ta_claim_key a) (ta_register_keys a) (ta_prepared_register_keys a)
    (ta_unreadable_notes a) (ta_investors a) (ta_register a) (ta_max_investors a)
    (ta_jurisdiction_caps a) (ta_jurisdictions a) (ta_public_holders a) (ta_padding a)
    (ta_period_start a) (ta_not_renewed a) (ta_pending_claims a) (ta_claims a)
    (ta_seed_deposit a) (ta_register_salt_key a).
Definition set_register_keys a (v : list (Z * FeedSecret)) : TransferAgent SK VK VPK :=
  mk_agent (ta_wallet a) (ta_signer a) (ta_claim_key a) v (ta_prepared_register_keys a)
    (ta_unreadable_notes a) (ta_investors a) (ta_register a) (ta_max_investors a)
    (ta_jurisdiction_caps a) (ta_jurisdictions a) (ta_public_holders a) (ta_padding a)
    (ta_period_start a) (ta_not_renewed a) (ta_pending_claims a) (ta_claims a)
    (ta_seed_deposit a) (ta_register_salt_key a).
Definition set_prepared_register_keys a (v : list (Z * FeedSecret)) : TransferAgent SK VK VPK :=
  mk_agent (ta_wallet a) (ta_signer a) (ta_claim_key a) (ta_register_keys a) v (ta_unreadable_notes
    a) (ta_investors a) (ta_register a) (ta_max_investors a) (ta_jurisdiction_caps a)
    (ta_jurisdictions a) (ta_public_holders a) (ta_padding a) (ta_period_start a)
    (ta_not_renewed a) (ta_pending_claims a) (ta_claims a) (ta_seed_deposit a)
    (ta_register_salt_key a).
Definition set_unreadable_notes a (v : list UnreadableNote) : TransferAgent SK VK VPK :=
  mk_agent (ta_wallet a) (ta_signer a) (ta_claim_key a) (ta_register_keys a)
    (ta_prepared_register_keys a) v (ta_investors a) (ta_register a) (ta_max_investors a)
    (ta_jurisdiction_caps a) (ta_jurisdictions a) (ta_public_holders a) (ta_padding a)
    (ta_period_start a) (ta_not_renewed a) (ta_pending_claims a) (ta_claims a)
    (ta_seed_deposit a) (ta_register_salt_key a).
Definition set_investors a (v : list (Bytes32 * InvestorRecord VPK)) : TransferAgent SK VK VPK :=
  mk_agent (ta_wallet a) (ta_signer a) (ta_claim_key a) (ta_register_keys a)
    (ta_prepared_register_keys a) (ta_unreadable_notes a) v (ta_register a) (ta_max_investors
    a) (ta_jurisdiction_caps a) (ta_jurisdictions a) (ta_public_holders a) (ta_padding a)
    (ta_period_start a) (ta_not_renewed a) (ta_pending_claims a) (ta_claims a)
    (ta_seed_deposit a) (ta_register_salt_key a).
Definition set_register a (v : list RegisterEntry) : TransferAgent SK VK VPK :=
  mk_agent (ta_wallet a) (ta_signer a) (ta_claim_key a) (ta_register_keys a)
    (ta_prepared_register_keys a) (ta_unreadable_notes a) (ta_investors a) v (ta_max_investors
    a) (ta_jurisdiction_caps a) (ta_jurisdictions a) (ta_public_holders a) (ta_padding a)
    (ta_period_start a) (ta_not_renewed a) (ta_pending_claims a) (ta_claims a)
    (ta_seed_deposit a) (ta_register_salt_key a).
Definition set_jurisdictions a (v : gmap string string) : TransferAgent SK VK VPK :=
  mk_agent (ta_wallet a) (ta_signer a) (ta_claim_key a) (ta_register_keys a)
    (ta_prepared_register_keys a) (ta_unreadable_notes a) (ta_investors a) (ta_register a)
    (ta_max_investors a) (ta_jurisdiction_caps a) v (ta_public_holders a) (ta_padding a)
    (ta_period_start a) (ta_not_renewed a) (ta_pending_claims a) (ta_claims a)
    (ta_seed_deposit a) (ta_register_salt_key a).
Definition set_public_holders a (v : gmap (list byte) InvestorId) : TransferAgent SK VK VPK :=
  mk_agent (ta_wallet a) (ta_signer a) (ta_claim_key a) (ta_register_keys a)
    (ta_prepared_register_keys a) (ta_unreadable_notes a) (ta_investors a) (ta_register a)
    (ta_max_investors a) (ta_jurisdiction_caps a) (ta_jurisdictions a) v (ta_padding a)
    (ta_period_start a) (ta_not_renewed a) (ta_pending_claims a) (ta_claims a)
    (ta_seed_deposit a) (ta_register_salt_key a).
Definition set_padding a (v : list (OwnerKeys SK VK)) : TransferAgent SK VK VPK :=
  mk_agent (ta_wallet a) (ta_signer a) (ta_claim_key a) (ta_register_keys a)
    (ta_prepared_register_keys a) (ta_unreadable_notes a) (ta_investors a) (ta_register a)
    (ta_max_investors a) (ta_jurisdiction_caps a) (ta_jurisdictions a) (ta_public_holders a) v
    (ta_period_start a) (ta_not_renewed a) (ta_pending_claims a) (ta_claims a)
    (ta_seed_deposit a) (ta_register_salt_key a).
Definition set_period_start a (v : option Z) : TransferAgent SK VK VPK :=
  mk_agent (ta_wallet a) (ta_signer a) (ta_claim_key a) (ta_register_keys a)
    (ta_prepared_register_keys a) (ta_unreadable_notes a) (ta_investors a) (ta_register a)
    (ta_max_investors a) (ta_jurisdiction_caps a) (ta_jurisdictions a) (ta_public_holders a)
    (ta_padding a) v (ta_not_renewed a) (ta_pending_claims a) (ta_claims a) (ta_seed_deposit
    a) (ta_register_salt_key a).
Definition set_not_renewed a (v : gset (list byte)) : TransferAgent SK VK VPK :=
  mk_agent (ta_wallet a) (ta_signer a) (ta_claim_key a) (ta_register_keys a)
    (ta_prepared_register_keys a) (ta_unreadable_notes a) (ta_investors a) (ta_register a)
    (ta_max_investors a) (ta_jurisdiction_caps a) (ta_jurisdictions a) (ta_public_holders a)
    (ta_padding a) (ta_period_start a) v (ta_pending_claims a) (ta_claims a) (ta_seed_deposit
    a) (ta_register_salt_key a).
Definition set_pending_claims a (v : list ClaimRecord) : TransferAgent SK VK VPK :=
  mk_agent (ta_wallet a) (ta_signer a) (ta_claim_key a) (ta_register_keys a)
    (ta_prepared_register_keys a) (ta_unreadable_notes a) (ta_investors a) (ta_register a)
    (ta_max_investors a) (ta_jurisdiction_caps a) (ta_jurisdictions a) (ta_public_holders a)
    (ta_padding a) (ta_period_start a) (ta_not_renewed a) v (ta_claims a) (ta_seed_deposit a)
    (ta_register_salt_key a).
Definition set_claims a (v : list ClaimRecord) : TransferAgent SK VK VPK :=
  mk_agent (ta_wallet a) (ta_signer a) (ta_claim_key a) (ta_register_keys a)
    (ta_prepared_register_keys a) (ta_unreadable_notes a) (ta_investors a) (ta_register a)
    (ta_max_investors a) (ta_jurisdiction_caps a) (ta_jurisdictions a) (ta_public_holders a)
    (ta_padding a) (ta_period_start a) (ta_not_renewed a) (ta_pending_claims a) v
    (ta_seed_deposit a) (ta_register_salt_key a).
Definition set_seed_deposit a (v : option Fr) : TransferAgent SK VK VPK :=
  mk_agent (ta_wallet a) (ta_signer a) (ta_claim_key a) (ta_register_keys a)
    (ta_prepared_register_keys a) (ta_unreadable_notes a) (ta_investors a) (ta_register a)
    (ta_max_investors a) (ta_jurisdiction_caps a) (ta_jurisdictions a) (ta_public_holders a)
    (ta_padding a) (ta_period_start a) (ta_not_renewed a) (ta_pending_claims a) (ta_claims a)
    v (ta_register_salt_key a).
End setters.

(** ** Arithmetic *)

(** [u64] operators, which panic past the width. *)
Definition u64_add {E} (x y : Z) : outcome E Z := expect (checked_add 64 x y).
Definition u64_sub {E} (x y : Z) : outcome E Z := expect (checked_sub x y).
Definition u64_mul {E} (x y : Z) : outcome E Z := expect (checked_mul 64 x y).

Definition period_expiry {E} (start epoch : Z) : outcome E Z :=
  e ← u64_add epoch ATTESTATION_OVERLAP;
  d ← u64_sub e start;
  let period := d / ATTESTATION_PERIOD in
  p ← u64_add period 1;
  n ← u64_mul p ATTESTATION_PERIOD;
  s ← u64_add start n;
  u64_mul s EPOCH_SECONDS.

(** The largest of a list, if it has elements. *)
Definition max_of (l : list Z) : option Z :=
  foldl (λ acc x, Some (from_option (Z.max x) x acc)) None l.

(** [usize::next_multiple_of]. *)
Definition next_multiple_of (n m : nat) : nat :=
  match (n mod m)%nat with O => n | r => (n + (m - r))%nat end.

(** The first [Some] of a function over a list: [Iterator::find_map]. *)
Fixpoint find_map {A B} (f : A → option B) (l : list A) : option B :=
  match l with
  | [] => None
  | a :: l' => match f a with Some b => Some b | None => find_map f l' end
  end.

Section agent.
Context `{C : Crypto} {FI : FrInverse} {T : Type} {RT : RotorTree T}.
Context {SK PK Sg VK VPK Env : Type} {KC : Custody SK PK Sg VK VPK Env}.
Abbreviation agent := (TransferAgent SK VK VPK).
Abbreviation AM A := (M agent ActorError A).
Implicit Types (view : ChainView T) (env : PoolEnv) (a : agent).

Definition agent_new (keys : OwnerKeys SK VK) (claim_key : SK) (tk : FeedSecret) (salt_key : Fr)
  : agent :=
  let '(signer, wk) := split keys in
  mk_agent (wallet_new wk) signer claim_key [(0, tk)] [] [] [] [] None [] ∅ ∅ [] None ∅ [] [] None
    (fr_to_be_bytes salt_key).

Definition agent_owner a : Fr := wallet_owner (ta_wallet a).
Definition claim_key_hash a : Fr := key_hash (public_key (ta_claim_key a)).

(** ** Register keys *)
Definition register_public_key a : outcome ActorError Point :=
  kv ← expect (list.last (ta_register_keys a));
  Ok (public_point kv.2).
Definition next_register_key_version a : outcome ActorError Z :=
  kv ← expect (list.last (ta_register_keys a));
  u64_add kv.1 1.

Definition new_register_key (secret : FeedSecret) : AM RegisterKeyRotation :=
  a ← mget;
  version ← mlift (next_register_key_version a);
  mput (set_prepared_register_keys a (ta_prepared_register_keys a ++ [(version, secret)]));;
  mret (mk_rotation version (public_point secret)).

Definition commit_register_key (rotation : RegisterKeyRotation) : AM unit :=
  a ← mget;
  next ← mlift (next_register_key_version a);
  mlift (ensure (rk_version rotation =? next) (StaleRotation (rk_version rotation)));;
  found ← mlift (ok_or (List.find (λ k : Z * FeedSecret, (k.1 =? rk_version rotation)
      && bool_decide (public_point k.2 = rk_public_key rotation)) (ta_prepared_register_keys a))
    (UnpreparedRotation (rk_version rotation)));
  let a := set_register_keys a
    (bt_insert Z.ltb (rk_version rotation) found.2 (ta_register_keys a)) in
  mput (set_prepared_register_keys a
    (List.filter (λ k : Z * FeedSecret, rk_version rotation <? k.1) (ta_prepared_register_keys a))).

(** ** Owner values *)
Definition record_owner (holder : Holder) (pk : PublicSpendKey) (nk : Fr) (vpk : VPK) a
  : Fr * agent :=
  let owner := owner_value pk nk in
  (owner, set_investors a (bt_insert bytes_ltb (fr_to_be_bytes owner)
                             (mk_investor holder pk nk vpk) (ta_investors a))).

Definition holder_of a (owner : Fr) : option Holder :=
  if fr_eqb owner (agent_owner a) then Some Agent
  else ir_holder <$> bt_get (fr_to_be_bytes owner) (ta_investors a).
Definition nk_of a (owner : Fr) : option Fr :=
  if fr_eqb owner (agent_owner a) then Some (wk_nk (wa_keys (ta_wallet a)))
  else ir_nk <$> bt_get (fr_to_be_bytes owner) (ta_investors a).

(** The keys drawn for the new padding values, one by one. *)
Fixpoint fresh_padding (drawn : list (OwnerKeys SK VK)) a : list Fr * agent :=
  match drawn with
  | [] => ([], a)
  | keys :: drawn' =>
      let '(owner, a) := record_owner Padding (public_key (ok_spend keys)) (ok_nk keys)
                           (v_public (ok_view keys)) a in
      let a := set_padding a (ta_padding a ++ [keys]) in
      let '(owners, a) := fresh_padding drawn' a in
      (owner :: owners, a)
  end.

Definition stop_renewing (owner : Fr) : AM unit :=
  a ← mget;
  mlift (ensure (negb (fr_eqb owner (agent_owner a))) AgentsOwnValue);;
  mlift (ensure (bool_decide (is_Some (holder_of a owner))) (UnknownOwner (fr_to_be_bytes owner)));;
  mput (set_not_renewed a ({[ fr_to_be_bytes owner ]} ∪ ta_not_renewed a)).

Definition verify_investor (investor_id jurisdiction : string) : AM unit :=
  a ← mget;
  id ← mlift (investor_id_new investor_id);
  mput (set_jurisdictions a (<[id := jurisdiction]> (ta_jurisdictions a))).

(** The checks of a registration before its signature. *)
Definition registration_matches env (investor_id : string) (r : Registration VPK) : bool :=
  negb (negb (rg_chain_id r =? en_chain_id env) || negb (bool_decide (rg_pool r = en_pool env))
        || negb (String.eqb (rg_investor_id r) investor_id)).

Definition onboard (investor_id : string) env (registration : Registration VPK)
  (signature : list byte) (nk : Fr) : AM Fr :=
  a ← mget;
  id ← mlift (investor_id_new investor_id);
  mlift (ensure (bool_decide (is_Some (ta_jurisdictions a !! (id : string))))
    (UnverifiedInvestor investor_id));;
  mlift (ensure (registration_matches env investor_id registration) BadRegistration);;
  mlift (ensure (negb (fr_eqb nk fr_zero || negb (fr_eqb (nk_hash nk) (rg_nk_hash registration))))
    BadRegistration);;
  mlift (map_err (λ _, BadRegistration) (registration_verify registration signature));;
  let owner := fr_to_be_bytes (owner_value (rg_pk registration) nk) in
  let holder := Investor id in
  mlift (ensure (from_option (λ r, bool_decide (ir_holder r = holder)) true
                   (bt_get owner (ta_investors a))) (OwnerOfAnotherInvestor owner));;
  let '(o, a) := record_owner holder (rg_pk registration) nk (rg_vpk registration) a in
  mput a;;
  mret o.

Definition register_public_holder (address : Address) (investor_id : string) : AM unit :=
  a ← mget;
  id ← mlift (investor_id_new investor_id);
  mlift (ensure (bool_decide (is_Some (ta_jurisdictions a !! (id : string))))
    (UnverifiedInvestor investor_id));;
  mput (set_public_holders a (<[address := id]> (ta_public_holders a))).

(** ** The register *)

(** The keys that may read a note: the one of its version, else those
    prepared for it. *)
Definition feed_keys a (key_version : Z) : list FeedSecret :=
  match bt_get key_version (ta_register_keys a) with
  | Some tk => [tk]
  | None => map snd (List.filter (λ k : Z * FeedSecret, k.1 =? key_version) (ta_prepared_register_keys a))
  end.

Definition open_record (record : NoteRecord) (tk : FeedSecret) : option (Note * LockOpening) :=
  opened ← feed_open (feed_decrypt tk (nr_feed_r record) (nr_feed_ct record) (nr_output record));
  if fr_eqb (commitment opened.1) (nr_commitment record) then Some opened else None.

(** The body of the loop over the view's notes. *)
Definition feed_step a (record : NoteRecord) : agent :=
  if existsb (λ e, fr_eqb (re_commitment e) (nr_commitment record)) (ta_register a) then a
  else
    match find_map (open_record record) (feed_keys a (nr_key_version record)) with
    | None =>
        set_unreadable_notes a (ta_unreadable_notes a
          ++ [mk_unreadable (nr_commitment record) (nr_key_version record)])
    | Some (n, opening) =>
        let a := set_register a (ta_register a
          ++ [mk_entry n opening (nr_commitment record) (nr_leaf_index record)
                (holder_of a (nt_owner n)) false]) in
        if fr_eqb (nt_owner n) (agent_owner a)
           && negb (existsb (λ m, fr_eqb (on_commitment m) (nr_commitment record))
                      (wa_notes (ta_wallet a)))
        then set_wallet a (mk_wallet (wa_keys (ta_wallet a)) (wa_notes (ta_wallet a)
               ++ [mk_owned n opening (nr_commitment record) (nr_leaf_index record) false]))
        else a
    end.

Definition entry_spent a view (e : RegisterEntry) : bool :=
  match nk_of a (nt_owner (re_note e)) with
  | Some nk => bool_decide (nullifier (re_commitment e) nk ∈ cv_nullifiers view)
  | None => false
  end.
Definition mark_entry (e : RegisterEntry) (spent : bool) : RegisterEntry :=
  mk_entry (re_note e) (re_opening e) (re_commitment e) (re_leaf_index e) (re_holder e) spent.
Definition mark_register a view : agent :=
  set_register a (map (λ e, mark_entry e (entry_spent a view e)) (ta_register a)).

Definition pair_list {A} (p : A * A) : list A := [p.1; p.2].
Definition claim_mined view (c : ClaimRecord) : bool :=
  existsb (λ s, bool_decide (sp_outputs s = pair_list (cl_outputs c))) (cv_spends view).
Definition target_spent a (c : ClaimRecord) : bool :=
  existsb (λ e, fr_eqb (re_commitment e) (cl_target c) && re_spent e) (ta_register a).
(** The pending claims sorted into the mined and those that stay. *)
Definition settle_claims a view : agent :=
  let '(claims, pending) := foldl (λ '(claims, pending) c,
      if claim_mined view c then (claims ++ [c], pending)
      else if negb (target_spent a c) then (claims, pending ++ [c])
      else (claims, pending))
    (ta_claims a, []) (ta_pending_claims a) in
  set_pending_claims (set_claims a claims) pending.

(** It always returns [Ok(())]. *)
Definition read_feed a view : agent :=
  let a := set_unreadable_notes a [] in
  let a := foldl feed_step a (cv_notes view) in
  let a := mark_register a view in
  let a := settle_claims a view in
  set_wallet a (scan (ta_wallet a) view).
Definition read_feed_m view : AM unit := λ a, (Ok tt, read_feed a view).

Definition held (e : RegisterEntry) : bool := negb (re_spent e) && (0 <? nt_units (re_note e)).

Definition positions a : outcome ActorError (list (string * Z)) :=
  for_each (λ out e,
    let holder := from_option holder_as_str "unknown" (re_holder e) in
    u ← u64_add (default 0 (bt_get holder out)) (nt_units (re_note e));
    Ok (bt_insert String.ltb holder u out))
    [] (List.filter held (ta_register a)).

Definition total_units a : outcome ActorError Z :=
  for_each (λ acc e, expect (checked_add 128 acc (nt_units (re_note e)))) 0
    (List.filter (λ e, negb (re_spent e)) (ta_register a)).

(** The operators of [U256] wrap. *)
Definition u256 (z : Z) : Z := z mod 2 ^ 256.
Definition remainder a (balance m : Z) : option Z :=
  let withdrawable := foldl (λ acc e, u256 (acc + u256 (nt_units (re_note e) * m) / S_)) 0
    (List.filter (λ e, negb (re_spent e)) (ta_register a)) in
  checked_sub balance withdrawable.

Definition checkpoint_salt a (epoch : Z) : Bytes32 :=
  keccak256 (ta_register_salt_key a ++ be_of_Z 8 epoch).
Definition register_hash a (epoch : Z) : outcome ActorError Bytes32 :=
  ps ← positions a;
  Ok (keccak256 (checkpoint_salt a epoch
    ++ concat (map (λ p : string * Z, keccak256 (ascii_bytes p.1) ++ be_of_Z 8 p.2) ps))).

(** ** The caps *)
Definition counted_investors a view env (holding_publicly : list Address)
  : outcome ActorError (gset string) :=
  ids ← for_each (λ ids '(k, r),
    match investor (ir_holder r) with
    | None => Ok ids
    | Some id =>
        owner ← expect (ok (fr_try_from k));
        match attestation_of view owner (en_epoch env) (en_min_accepted_generation env) with
        | Some _ => Ok ({[ id : string ]} ∪ ids)
        | None => Ok ids
        end
    end) ∅ (ta_investors a);
  let ids := foldl (λ ids e,
    match re_holder e ≫= investor with Some id => {[ id : string ]} ∪ ids | None => ids end)
    ids (List.filter held (ta_register a)) in
  for_each (λ ids address,
    id ← ok_or (ta_public_holders a !! address) (UnknownPublicHolder address);
    Ok ({[ id : string ]} ∪ ids)) ids holding_publicly.

(** The investors of a set in a jurisdiction. *)
Definition count_in a (jurisdiction : string) (ids : gset string) : nat :=
  size (base.filter (λ id, ta_jurisdictions a !! id = Some jurisdiction) ids).

Definition over (cap before counted : nat) : bool := (Nat.max before cap <? counted)%nat.
Definition cap_refusal a (before counted : gset string) : option ActorError :=
  let over_jurisdictions := find_map (λ '(jurisdiction, cap),
      if over cap (count_in a jurisdiction before) (count_in a jurisdiction counted)
      then Some (JurisdictionCapReached jurisdiction cap) else None) (ta_jurisdiction_caps a) in
  match ta_max_investors a with
  | Some cap =>
      if over cap (size before) (size counted) then Some (CapReached cap) else over_jurisdictions
  | None => over_jurisdictions
  end.

Definition check_cap view env (owners : list Fr) (holding_publicly : list Address) : AM unit :=
  read_feed_m view;;
  a ← mget;
  before ← mlift (counted_investors a view env holding_publicly);
  counted ← mlift (for_each (λ counted owner,
    holder ← ok_or (holder_of a owner) (UnknownOwner (fr_to_be_bytes owner));
    Ok (match investor holder with Some id => {[ id : string ]} ∪ counted | None => counted end))
    before owners);
  mlift (match cap_refusal a before counted with None => Ok tt | Some e => Err e end).

(** ** Attestation batches *)

(** When the accepted attestations of an owner value end. *)
Definition ends view env (owner : Fr) : option Z :=
  max_of (map ar_expires_at (List.filter (λ r, fr_eqb (ar_owner r) owner
    && (en_min_accepted_generation env <=? ar_generation r)) (cv_attestation_records view))).
Definition is_due a view env (expires_at : Z) (owner : Fr) : bool :=
  negb (bool_decide (fr_to_be_bytes owner ∈ ta_not_renewed a))
  && from_option (λ e, e <? expires_at) true (ends view env owner).
Definition due a view env (expires_at : Z) : outcome ActorError (list Fr) :=
  keys ← for_each (λ acc '(k, _), o ← expect (ok (fr_try_from k)); Ok (acc ++ [o])) []
           (ta_investors a);
  Ok (List.filter (is_due a view env expires_at) (agent_owner a :: keys)).

(** The loop that admits owner values while the caps allow: the investors
    counted, the owner values admitted and those left out. *)
Definition admit_step a (before : gset string) (s : gset string * list Fr * list Fr) (owner : Fr)
  : outcome ActorError (gset string * list Fr * list Fr) :=
  let '(counted, owners, over_cap) := s in
  holder ← ok_or (holder_of a owner) (UnknownOwner (fr_to_be_bytes owner));
  match investor holder with
  | None => Ok (counted, owners ++ [owner], over_cap)
  | Some id =>
      if bool_decide ((id : string) ∈ counted) then Ok (counted, owners ++ [owner], over_cap)
      else
        let with_ := {[ (id : string) ]} ∪ counted in
        match cap_refusal a before with_ with
        | Some _ => Ok (counted, owners, over_cap ++ [owner])
        | None => Ok (with_, owners ++ [owner], over_cap)
        end
  end.

(** [drawn i] is the [i]-th key pair drawn for padding. *)
Definition attestation_batch (drawn : nat → OwnerKeys SK VK) (shuffle : list Fr → list Fr)
  view env (holding_publicly : list Address) (generation : Z) : AM AttestationRound :=
  read_feed_m view;;
  a ← mget;
  let start := default (en_epoch env) (ta_period_start a) in
  mput (set_period_start a (Some start));;
  a ← mget;
  expires_at ← mlift (period_expiry start (en_epoch env));
  due ← mlift (due a view env expires_at);
  before ← mlift (counted_investors a view env holding_publicly);
  '(_, owners, over_cap) ← mlift (for_each (admit_step a before) (before, [], []) due);
  let n := if (length owners =? 0)%nat then 0%nat
           else (next_multiple_of (length owners) ATTESTATION_PART - length owners)%nat in
  let '(padding, a) := fresh_padding (map drawn (seq 0 n)) a in
  mput a;;
  let owners := shuffle (owners ++ padding) in
  batch ← mlift (batch_new (chunks ATTESTATION_PART owners) expires_at generation);
  mret (mk_round batch over_cap).

(** ** Redemptions and claims *)
Definition is_claim a (s : SpendRecord) : bool :=
  existsb (λ c, bool_decide (sp_outputs s = pair_list (cl_outputs c)))
    (ta_claims a ++ ta_pending_claims a).
Definition redeemer a (spend : SpendRecord) : option InvestorId :=
  find_map (λ e,
    id ← re_holder e ≫= investor;
    nk ← nk_of a (nt_owner (re_note e));
    if bool_decide (nullifier (re_commitment e) nk ∈ sp_nullifiers spend) then Some id else None)
    (ta_register a).
Definition redemption_of a view (investor_id : InvestorId) (c : Fr) : option Redemption :=
  if bool_decide (nullifier c (wk_nk (wa_keys (ta_wallet a))) ∈ cv_nullifiers view) then None
  else
    e ← List.find (λ e, fr_eqb (re_commitment e) c && fr_eqb (nt_owner (re_note e)) (agent_owner a)
                    && (0 <? nt_units (re_note e))) (ta_register a);
    Some (mk_redemption investor_id (nt_units (re_note e)) c).
Definition redemptions a view : list Redemption :=
  foldl (λ out spend,
    match redeemer a spend with
    | None => out
    | Some id => out ++ omap (redemption_of a view id) (sp_outputs spend)
    end) [] (List.filter (λ s, negb (is_claim a s)) (cv_spends view)).

Definition unexplained_outflows view : list Outflow :=
  List.filter (λ o, negb (of_by_withdrawal o)) (cv_outflows view).

Definition is_seed a (cm : Fr) : bool :=
  match ta_seed_deposit a with
  | None => false
  | Some deposit =>
      fr_eqb cm deposit
      || existsb (λ c, fr_eqb (cl_target c) deposit && fr_eqb (cl_outputs c).1 cm)
           (ta_pending_claims a ++ ta_claims a)
  end.

(** The two outputs of a claim on an entry. *)
Definition claim_outputs (e : RegisterEntry) (vpk : VPK) (action : ClaimAction VPK)
  : Output VPK * Output VPK :=
  let same_owner units opening := mk_output (nt_owner (re_note e)) units opening vpk in
  let units := nt_units (re_note e) in
  match action with
  | Freeze => (same_owner units lock_freeze, same_owner 0 lock_none)
  | Hold until => (same_owner units (lock_hold until), same_owner 0 lock_none)
  | Release => (same_owner units lock_none, same_owner 0 lock_none)
  | Seize to to_vpk => (mk_output to units lock_none to_vpk, same_owner 0 lock_none)
  end.

Definition build_claim (draws : TransferDraws) view env (target : Fr) (action : ClaimAction VPK)
  : AM BuiltTransfer :=
  a ← mget;
  entry ← mlift (ok_or (List.find (λ e, fr_eqb (re_commitment e) target && negb (re_spent e))
                          (ta_register a)) (UnknownNote (fr_to_be_bytes target)));
  let owner := nt_owner (re_note entry) in
  record ← mlift (if fr_eqb owner (agent_owner a)
    then Ok (mk_investor Agent (wk_pk (wa_keys (ta_wallet a))) (wk_nk (wa_keys (ta_wallet a)))
               (wallet_vpk (ta_wallet a)))
    else ok_or (bt_get (fr_to_be_bytes owner) (ta_investors a))
           (UnknownOwner (fr_to_be_bytes owner)));
  let input := mk_owned (re_note entry) (re_opening entry) (re_commitment entry)
                 (re_leaf_index entry) false in
  built ← mlift (build_transfer draws
    (mk_spec true (ir_pk record) (ir_nk record) (public_key (ta_claim_key a)) [input]
       (claim_outputs entry (ir_vpk record) action)) (ta_claim_key a) view env);
  mput (set_pending_claims a (ta_pending_claims a
    ++ [mk_claim target (tw_commitments_out (bt_witness built))]));;
  mret built.

Definition claim (draws : TransferDraws) view env (target : Fr) (action : ClaimAction VPK)
  : AM BuiltTransfer :=
  a ← mget;
  mlift (ensure (negb (is_seed a target)) (SeedNote (fr_to_be_bytes target)));;
  build_claim draws view env target action.

Definition seed_deposit (salt : Fr) (seal : list byte) (feed_secret : FeedSecret) view env
  (units : Z) (funder : Address) : AM (DepositWitness * list byte) :=
  a ← mget;
  mlift (ensure (negb (bool_decide (is_Some (ta_seed_deposit a)))) SeedExists);;
  mlift (match List.find (λ r, bool_decide (is_Some (holder_of a (ar_owner r) ≫= investor)))
                 (cv_attestation_records view) with
         | Some r => Err (InvestorBeforeSeed (fr_to_be_bytes (ar_owner r)))
         | None => Ok tt
         end);;
  built ← mlift (deposit salt seal feed_secret (ta_wallet a) (ta_signer a) view env units funder);
  mput (set_seed_deposit a (Some (dw_commitment built.1)));;
  mret built.

Definition freeze_seed (draws : TransferDraws) view env : AM BuiltTransfer :=
  a ← mget;
  deposit ← mlift (ok_or (ta_seed_deposit a) NoSeed);
  build_claim draws view env deposit Freeze.

(** ** Handing out *)
Definition order_output (o : HandOutOrder VPK) : Output VPK :=
  mk_output (ho_owner o) (ho_units o) (from_option lock_hold lock_none (ho_hold_until o)) (ho_vpk o).
Definition agents_output a (units : Z) : Output VPK :=
  mk_output (agent_owner a) units lock_none (wallet_vpk (ta_wallet a)).

Abbreviation queue := (list (HandOutSource * list (HandOutOrder VPK))).

(** One half of a group: an order's output, or an agent's output and the half
    queued. *)
Definition hand_out_part a (transfer index : nat) (part : list (HandOutOrder VPK))
  : outcome ActorError (Output VPK * queue) :=
  match part with
  | [single] => Ok (order_output single, [])
  | _ =>
      u ← sum_u64 (map ho_units part);
      Ok (agents_output a u, [(FromOutput transfer index, part)])
  end.

(** The outputs of one transfer and what it queues. *)
Definition hand_out_group a (transfer : nat) (group : list (HandOutOrder VPK))
  : outcome ActorError (Output VPK * Output VPK * queue) :=
  match group with
  | [single] => Ok (order_output single, agents_output a 0, [])
  | _ =>
      let half := (length group / 2)%nat in
      '(o0, q0) ← hand_out_part a transfer 0 (take half group);
      '(o1, q1) ← hand_out_part a transfer 1 (drop half group);
      Ok (o0, o1, q0 ++ q1)
  end.

(** The loop over the queue; [None] when the fuel runs out. *)
Fixpoint hand_out_loop a (fuel : nat) (plan : list (PlannedHandOut VPK)) (q : queue)
  : option (outcome ActorError (list (PlannedHandOut VPK))) :=
  match q with
  | [] => Some (Ok plan)
  | (source, group) :: q' =>
      match fuel with
      | O => None
      | S fuel' =>
          match hand_out_group a (length plan) group with
          | Ok (o0, o1, pushed) =>
              hand_out_loop a fuel' (plan ++ [mk_planned source (o0, o1)]) (q' ++ pushed)
          | Err e => Some (Err e)
          | Panic => Some Panic
          end
      end
  end.
Definition plan_hand_out a (orders : list (HandOutOrder VPK))
  : option (outcome ActorError (list (PlannedHandOut VPK))) :=
  hand_out_loop a (length orders) []
    (if (length orders =? 0)%nat then [] else [(Aggregate, orders)]).

Definition hand_out_transfer (draws : TransferDraws) a view env (source : OwnedNote)
  (outputs : Output VPK * Output VPK) : outcome ActorError BuiltTransfer :=
  let cm := fr_to_be_bytes (on_commitment source) in
  ensure (fr_eqb (nt_owner (on_note source)) (agent_owner a)) (UnknownNote cm);;
  ensure (negb (is_seed a (on_commitment source))) (SeedNote cm);;
  ensure (fr_eqb (nt_lock (on_note source)) fr_zero) (LockedNote cm);;
  ensure (negb (existsb (λ r, fr_eqb (rm_commitment r) (on_commitment source)) (redemptions a view)))
    (PendingRedemption cm);;
  let claim := existsb (λ o, negb (bool_decide (out_opening o = lock_none))) (pair_list outputs) in
  let signer := if claim then ta_claim_key a else ta_signer a in
  build_transfer draws
    (mk_spec claim (wk_pk (wa_keys (ta_wallet a))) (wk_nk (wa_keys (ta_wallet a)))
       (public_key (ta_claim_key a)) [source] outputs) signer view env.

(** ** Reconciliation *)
Definition reconcile view (pool : PoolTotals) : AM Reconciliation :=
  read_feed_m view;;
  a ← mget;
  mlift (ensure (length (ta_unreadable_notes a) =? 0)%nat
    (UnreadableNotes (length (ta_unreadable_notes a))));;
  register ← mlift (total_units a);
  mlift (ensure (register =? to_units pool) (RegisterMismatch register (to_units pool)));;
  remainder ← mlift (ok_or (remainder a (to_balance pool) (to_multiplier pool)) SharesShort);
  mret (mk_reconciliation remainder (unexplained_outflows view)).
End agent.
