(* ===== verification/MmfWalletOk.v ===== *)
(** * Money-market-fund notes: what the wallet guarantees

    The inputs a payment of [wallet.rs] takes, and that it pays exactly. *)

From Stdlib Require Import ZArith Lia Bool.
From stdpp Require Import base tactics list gmap strings numbers sorting.
From S2P Require Import Prelude Field Types Poseidon MmfTypes MmfChain MmfWallet MmfOk MmfAgent.

Abbreviation units n := (nt_units (on_note n)).
Definition le_units (n m : OwnedNote) : Prop := units n ≤ units m.

#[export] Instance le_units_trans : Transitive le_units.
Proof. unfold le_units. intros ???. lia. Qed.

(** ** Choosing the inputs of a payment *)
Lemma insert_by_units_perm n l : insert_by_units n l ≡ₚ n :: l.
Proof.
  induction l as [|m l IH]; cbn; [done|]. case_match; [done|]. rewrite IH. constructor.
Qed.
Lemma sort_by_units_perm l : sort_by_units l ≡ₚ l.
Proof. induction l as [|n l IH]; cbn; [done|]. by rewrite insert_by_units_perm, IH. Qed.

Lemma insert_by_units_sorted n l :
  StronglySorted le_units l → StronglySorted le_units (insert_by_units n l).
Proof.
  induction 1 as [|m l Hs IH Hm]; cbn; [by repeat constructor|].
  case_match; reflect_bools.
  - constructor; [by constructor|]. constructor; [done|].
    eapply list.Forall_impl; [done|]. intros x. unfold le_units. lia.
  - constructor; [done|]. rewrite insert_by_units_perm. constructor; [unfold le_units; lia|done].
Qed.
Lemma sort_by_units_sorted l : StronglySorted le_units (sort_by_units l).
Proof. induction l; cbn; [constructor|]. by apply insert_by_units_sorted. Qed.

Lemma find_sorted l u n :
  StronglySorted le_units l → List.find (λ n, u <=? units n) l = Some n →
  n ∈ l ∧ u ≤ units n ∧ ∀ m, m ∈ l → u ≤ units m → units n ≤ units m.
Proof.
  induction 1 as [|x l Hs IH Hx]; cbn; [done|]. case_match eqn:E; reflect_bools.
  - intros [= <-]. split_and!; [left|done|]. intros m [->|Hm]%elem_of_cons; [done|].
    rewrite list.Forall_forall in Hx. intros _. by apply Hx.
  - intros (Hn & Hu & Hmin)%IH. split_and!; [by right|done|].
    intros m [->|Hm]%elem_of_cons ?; [lia|by apply Hmin].
Qed.

(** The first [k] of a descending list: no [k] elements add up to more. *)
Lemma largest r k sub :
  StronglySorted (flip le_units) r → Forall (λ n, 0 ≤ units n) r → sub ⊆+ r → (length sub ≤ k)%nat →
  sumZ (map (λ n, units n) sub) ≤ sumZ (map (λ n, units n) (take k r)).
Proof.
  intros Hs. revert k sub. induction Hs as [|x r Hs IH Hx]; intros k sub Hp Hsub Hk.
  { apply submseteq_nil_r in Hsub as ->. by destruct k. }
  apply list.Forall_cons in Hp as [Hx0 Hp].
  destruct k as [|k].
  { destruct sub; [done|cbn in Hk; lia]. }
  change (take (S k) (x :: r)) with (x :: take k r). unfold sumZ at 2. cbn [map foldr].
  fold (sumZ (map (λ n, units n) (take k r))).
  apply submseteq_cons_r in Hsub as [Hsub|(sub' & E & Hsub)].
  - destruct sub as [|c sub].
    { assert (0 ≤ sumZ (map (λ n, units n) (take k r)))
        by (apply sumZ_nonneg, list.Forall_fmap; by apply Forall_take).
      unfold sumZ at 1. cbn. lia. }
    assert (units c ≤ units x).
    { rewrite list.Forall_forall in Hx. apply Hx. eapply elem_of_submseteq; [|done]. left. }
    assert (sumZ (map (λ n, units n) sub) ≤ sumZ (map (λ n, units n) (take k r))).
    { apply IH; [done| |cbn in Hk; lia]. etrans; [|done]. by apply submseteq_cons. }
    unfold sumZ at 1. cbn. fold (sumZ (map (λ n, units n) sub)). lia.
  - rewrite E in Hk |- *. pose proof (IH k sub' Hp Hsub ltac:(cbn in Hk; lia)).
    unfold sumZ at 1. cbn. fold (sumZ (map (λ n, units n) sub')). lia.
Qed.

Lemma rev_sorted l : StronglySorted le_units l → StronglySorted (flip le_units) (rev l).
Proof.
  induction 1 as [|x l Hs IH Hx]; cbn; [constructor|].
  apply StronglySorted_app_2; [|done|by repeat constructor].
  intros y z Hy Hz. apply list_elem_of_singleton in Hz as ->.
  rewrite list.Forall_forall in Hx. apply Hx. by rewrite <-(Permutation_rev l) in Hy.
Qed.

Definition sum_units (l : list OwnedNote) : Z := sumZ (map (λ n, units n) l).

Lemma take_rev_sub l : take 2 (rev (sort_by_units l)) ⊆+ l.
Proof.
  etrans; [apply submseteq_take|]. rewrite <-Permutation_rev, sort_by_units_perm. done.
Qed.

(** [covers]: one of the notes holds the amount.  [too_large]: two of them sum
    past 64 bits. *)
Definition covers (notes : list OwnedNote) (u : Z) : Prop := ∃ n, n ∈ notes ∧ u ≤ units n.
Definition too_large (notes : list OwnedNote) : Prop :=
  ∃ sub, sub ⊆+ notes ∧ (length sub ≤ 2)%nat ∧ 2 ^ 64 ≤ sum_units sub.

Lemma forall_sub (P : OwnedNote → Prop) sub notes : Forall P notes → sub ⊆+ notes → Forall P sub.
Proof.
  intros Hp Hs. apply list.Forall_forall. intros x Hx. rewrite list.Forall_forall in Hp.
  apply Hp. by eapply elem_of_submseteq.
Qed.

(** The choice of the inputs: the smallest sufficient note, else the two largest
    when they sum within 64 bits and suffice. *)
Lemma pay_inputs_spec notes u :
  Forall (λ n, 0 ≤ units n) notes →
  (∃ ins, pay_inputs notes u = Ok ins ∧ ins ⊆+ notes ∧ (length ins ≤ 2)%nat ∧ u ≤ sum_units ins
     ∧ ((∃ m, ins = [m] ∧ ∀ n, n ∈ notes → u ≤ units n → units m ≤ units n)
        ∨ ¬ covers notes u ∧ ¬ too_large notes
          ∧ ∀ sub, sub ⊆+ notes → (length sub ≤ 2)%nat → sum_units sub ≤ sum_units ins))
  ∨ (∃ have, pay_inputs notes u = Err (InsufficientUnits have u) ∧ have < u ∧ ¬ too_large notes
     ∧ ∀ sub, sub ⊆+ notes → (length sub ≤ 2)%nat → sum_units sub ≤ have)
  ∨ pay_inputs notes u = Panic ∧ ¬ covers notes u ∧ too_large notes.
Proof.
  intros Hp. unfold pay_inputs.
  pose proof (sort_by_units_sorted notes) as Hs. pose proof (sort_by_units_perm notes) as Hperm.
  destruct (List.find _ _) as [n|] eqn:Hf.
  { left. apply find_sorted in Hf as (Hn & Hu & Hmin); [|done]. rewrite Hperm in Hn.
    exists [n]. split_and!; [done|by apply singleton_submseteq_l|cbn; lia|unfold sum_units, sumZ; cbn; lia|].
    left. exists n. split; [done|]. intros m Hm Hum. apply Hmin; [by rewrite Hperm|done]. }
  assert (¬ covers notes u) as Hc.
  { intros (n & Hn & Hun). rewrite <-Hperm in Hn. apply list_elem_of_In in Hn.
    eapply List.find_none in Hf; [|done]. cbn in Hf. apply Z.leb_gt in Hf. lia. }
  set (top := take 2 (rev (sort_by_units notes))).
  assert (top ⊆+ notes) as Hsub by apply take_rev_sub.
  assert (length top ≤ 2)%nat as Hl by (unfold top; rewrite length_take; lia).
  assert (Forall (λ n, 0 ≤ n) (map (λ n, units n) top)) as Ht
    by (apply list.Forall_fmap; by eapply forall_sub).
  assert (∀ sub, sub ⊆+ notes → (length sub ≤ 2)%nat → sum_units sub ≤ sum_units top) as Hmax.
  { intros sub Hss Hls. apply largest; [by apply rev_sorted|by rewrite <-Permutation_rev, Hperm..|done]. }
  destruct (Z.lt_ge_cases (sum_units top) (2 ^ 64)) as [Hb|Hb].
  - assert (¬ too_large notes) as Hnt.
    { intros (sub & Hss & Hls & H). specialize (Hmax sub Hss Hls). lia. }
    rewrite sum_u64_Ok by done. rewrite Ok_bind. fold (sum_units top).
    destruct (sum_units top <? u) eqn:E; cbn [negb ensure]; reflect_bools.
    + right; left. by exists (sum_units top).
    + left. exists top. split_and!; [done..|]. right. done.
  - right; right. rewrite sum_u64_Panic by done. split_and!; [done..|]. by exists top.
Qed.

Section pay.
Context `{C : Crypto} {FI : FrInverse} {T : Type} {RT : RotorTree T}.
Context {SK PK Sg VK VPK Env : Type} {KC : Custody SK PK Sg VK VPK Env}.
Context {G : Type} {PS : PlanSigner G}.

(** C17: A payment of [u] units has one of three outcomes.  It is a transfer
    of one or two spendable notes, to the payee for exactly [u] and back to the
    wallet for exactly the rest: of a smallest note that covers [u] when there
    is one, else of two notes that hold the most.  It is refused for
    insufficient units when no two spendable notes cover [u], reporting the
    most that two of them hold.  And it panics, on the 64-bit sum of the
    candidates, exactly when no single note covers [u] and two notes sum to
    [2^64] or more, although those two cover [u].  The one condition on the
    notes is their type, unsigned 64-bit units. *)
Theorem pay_exact draws (w : Wallet VK) (signer : G) (view : ChainView T) env to (to_vpk : VPK) u :
  let notes := spendable w (en_epoch env) in
  Forall (λ n, 0 ≤ units n < 2 ^ 64) notes → 0 < u < 2 ^ 64 →
  (∃ ins change,
     pay draws w signer view env to to_vpk u
     = transfer draws w signer view env ins
         (mk_output to u lock_none to_vpk, mk_output (wallet_owner w) change lock_none (wallet_vpk w))
     ∧ ins ⊆+ notes ∧ (1 ≤ length ins ≤ 2)%nat ∧ 0 ≤ change ∧ sum_units ins = u + change
     ∧ ((∃ m, ins = [m] ∧ ∀ n, n ∈ notes → u ≤ units n → units m ≤ units n)
        ∨ ¬ covers notes u ∧ ¬ too_large notes
          ∧ ∀ sub, sub ⊆+ notes → (length sub ≤ 2)%nat → sum_units sub ≤ sum_units ins))
  ∨ (∃ have, pay draws w signer view env to to_vpk u = Err (InsufficientUnits have u) ∧ have < u
     ∧ ¬ too_large notes
     ∧ ∀ sub, sub ⊆+ notes → (length sub ≤ 2)%nat → sum_units sub ≤ have)
  ∨ (pay draws w signer view env to to_vpk u = Panic ∧ ¬ covers notes u ∧ too_large notes
     ∧ ∃ n1 n2, [n1; n2] ⊆+ notes ∧ u ≤ units n1 + units n2).
Proof.
  intros notes Ht Hu. unfold pay. fold notes.
  assert (Forall (λ n, 0 ≤ units n) notes) as Hp by (eapply list.Forall_impl; [exact Ht|cbn; lia]).
  destruct (pay_inputs_spec notes u Hp) as [(ins & E & Hsub & Hl & Hs & Hm)|[(have & E & H)|(E & Hc & Hlg)]].
  - left. exists ins, (sum_units ins - u). rewrite E, Ok_bind.
    rewrite sum_u64_Ok; [|apply list.Forall_fmap; by eapply forall_sub|].
    2:{ destruct Hm as [(m & -> & _)|(_ & Hn & _)].
        - pose proof (forall_sub _ _ _ Ht Hsub) as Hm. rewrite list.Forall_singleton in Hm.
          unfold sumZ. cbn. lia.
        - apply Z.nle_gt. intros Hge. apply Hn. by exists ins. }
    rewrite Ok_bind. fold (sum_units ins).
    assert (checked_sub (sum_units ins) u = Some (sum_units ins - u)) as -> by (by apply checked_sub_Some).
    cbn [expect]. rewrite Ok_bind. split_and!; [done|done| |done|lia|lia|done].
    destruct ins as [|n ins]; [|cbn in *; lia]. unfold sum_units, sumZ in Hs. cbn in Hs. lia.
  - right; left. exists have. by rewrite E.
  - right; right. rewrite E. split_and!; [done..|]. destruct Hlg as (sub & Hsub & Hl & Hge).
    pose proof (forall_sub _ _ _ Ht Hsub) as Hf. unfold sum_units, sumZ in Hge.
    destruct sub as [|n1 [|n2 [|]]]; cbn in Hge, Hl; [lia| | |lia].
    + rewrite list.Forall_singleton in Hf. lia.
    + exists n1, n2. split; [done|]. lia.
Qed.
End pay.
