(* ===== verification/MmfHandOut.v ===== *)
(** * Money-market-fund notes: the hand-out tree

    What [plan_hand_out] of [agent.rs] plans: the number of transfers, their
    order, that each spends an agent's note of its own total, and that the
    notes left at the end are the orders'. *)

From Stdlib Require Import ZArith Lia Bool.
From stdpp Require Import base tactics list gmap strings numbers.
From S2P Require Import Prelude Field Types Poseidon MmfTypes MmfChain MmfWallet MmfOk MmfAgent.

(** ** Reading a plan *)
Section plans.
Context {VPK : Type}.
Implicit Types (plan : list (PlannedHandOut VPK)).

Definition sources plan : list HandOutSource := map ph_source plan.

(** The outputs of the transfers, each under the name a later transfer spends
    it by. *)
Definition outputs_of plan : list (HandOutSource * Output VPK) :=
  concat (imap (λ i p, [(FromOutput i 0, (ph_outputs p).1); (FromOutput i 1, (ph_outputs p).2)])
            plan).

Lemma outputs_of_snoc plan p :
  outputs_of (plan ++ [p]) =
  outputs_of plan ++ [(FromOutput (length plan) 0, (ph_outputs p).1);
                      (FromOutput (length plan) 1, (ph_outputs p).2)].
Proof.
  unfold outputs_of. rewrite imap_app, concat_app. cbn. by rewrite Nat.add_0_r.
Qed.

Lemma outputs_of_index plan s o :
  (s, o) ∈ outputs_of plan → ∃ i j, s = FromOutput i j ∧ (i < length plan)%nat.
Proof.
  induction plan as [|p plan IH] using rev_ind; [by intros ?%not_elem_of_nil|].
  rewrite outputs_of_snoc, elem_of_app, length_app. cbn [length].
  intros [(i & j & -> & ?)%IH|H]; [naive_solver lia|].
  rewrite !elem_of_cons, elem_of_nil in H. destruct H as [?|[?|[]]]; simplify_eq; eauto with lia.
Qed.

(** What a transfer whose outputs total [u] may spend: the day's aggregate
    note of [total], or an agent's output of exactly [u] among those made. *)
Definition source_ok (agents : Z → Output VPK) plan (total : Z) (s : HandOutSource) (u : Z) : Prop :=
  (s = Aggregate ∧ u = total) ∨ (s, agents u) ∈ outputs_of plan.

Lemma source_ok_snoc agents plan p total s u :
  source_ok agents plan total s u → source_ok agents (plan ++ [p]) total s u.
Proof. intros [?|?]; [by left|right]. rewrite outputs_of_snoc. set_solver. Qed.

(** The outputs no transfer of [spent] spends. *)
Definition unspent_by (spent : list HandOutSource) (outs : list (HandOutSource * Output VPK))
  : list (Output VPK) := map snd (base.filter (λ so, so.1 ∉ spent) outs).
Definition unspent plan : list (Output VPK) := unspent_by (sources plan) (outputs_of plan).

Lemma unspent_by_app spent l k :
  unspent_by spent (l ++ k) = unspent_by spent l ++ unspent_by spent k.
Proof. unfold unspent_by. by rewrite list.filter_app, map_app. Qed.

Lemma unspent_by_ext spent spent' l :
  (∀ s o, (s, o) ∈ l → s ∈ spent ↔ s ∈ spent') → unspent_by spent l = unspent_by spent' l.
Proof.
  induction l as [|[s o] l IH]; intros H; [done|]. unfold unspent_by in *.
  rewrite !filter_cons. cbn [fst]. pose proof (H s o ltac:(left)).
  repeat case_decide; cbn; rewrite ?IH by (intros; eapply H; by right); naive_solver.
Qed.

Lemma unspent_by_one spent s o :
  unspent_by spent [(s, o)] = if decide (s ∈ spent) then [] else [o].
Proof. unfold unspent_by. rewrite filter_cons, filter_nil. cbn. repeat case_decide; naive_solver. Qed.
End plans.

(** ** The loop *)
Section loop.
Context `{C : Crypto} {SK PK Sg VK VPK Env : Type} {KC : Custody SK PK Sg VK VPK Env}.
Context (a : TransferAgent SK VK VPK).
Implicit Types (orders group part : list (HandOutOrder VPK)) (plan : list (PlannedHandOut VPK)).

Definition total_of orders : Z := sumZ (map ho_units orders).
Definition payable orders : Prop :=
  Forall (λ o, 0 ≤ ho_units o) orders ∧ total_of orders < 2 ^ 64.

Lemma total_of_app l k : total_of (l ++ k) = total_of l + total_of k.
Proof. unfold total_of. by rewrite map_app, sumZ_app. Qed.

Lemma total_of_nonneg l : Forall (λ o, 0 ≤ ho_units o) l → 0 ≤ total_of l.
Proof. intros H. apply sumZ_nonneg, list.Forall_fmap, H. Qed.

Lemma payable_app l k : payable (l ++ k) → payable l ∧ payable k.
Proof.
  unfold payable. rewrite list.Forall_app, total_of_app. intros [[Hl Hk] Ht].
  pose proof (total_of_nonneg l Hl). pose proof (total_of_nonneg k Hk).
  split; (split; [done|lia]).
Qed.

(** What becomes of one half. *)
Definition part_spec (t i : nat) part (o : Output VPK)
  (q : list (HandOutSource * list (HandOutOrder VPK))) : Prop :=
  out_units o = total_of part ∧
  ((∃ x, part = [x] ∧ o = order_output x ∧ q = []) ∨
   ((2 ≤ length part)%nat ∧ o = agents_output a (total_of part) ∧ q = [(FromOutput t i, part)])).

Lemma hand_out_part_Ok t i part :
  part ≠ [] → payable part →
  ∃ o q, hand_out_part a t i part = Ok (o, q) ∧ part_spec t i part o q.
Proof.
  intros Hne [Hp Ht]. destruct part as [|x [|y part]]; [done|..].
  - exists (order_output x), []. split; [done|]. unfold part_spec, total_of, sumZ. cbn.
    split; [lia|]. left. eauto.
  - unfold hand_out_part. rewrite sum_u64_Ok; [|by apply list.Forall_fmap|done].
    rewrite Ok_bind. eexists _, _. split; [done|]. split; [done|]. right. split; [cbn; lia|done].
Qed.

Lemma hand_out_group_Ok t group :
  (2 ≤ length group)%nat → payable group →
  ∃ l r o0 o1 q0 q1, group = l ++ r ∧ hand_out_group a t group = Ok (o0, o1, q0 ++ q1)
    ∧ part_spec t 0 l o0 q0 ∧ part_spec t 1 r o1 q1.
Proof.
  intros Hlen Hp. set (h := (length group / 2)%nat).
  assert (1 ≤ h < length group)%nat as Hh.
  { unfold h. split; [apply Nat.div_le_lower_bound|apply Nat.Div0.div_lt_upper_bound]; lia. }
  pose proof Hp as Hp2. rewrite <-(take_drop h group) in Hp2.
  apply payable_app in Hp2 as [Hl Hr].
  destruct (hand_out_part_Ok t 0 (take h group)) as (o0 & q0 & E0 & S0); [|done|].
  { intros H%(f_equal length). rewrite length_take in H. cbn [length] in H. lia. }
  destruct (hand_out_part_Ok t 1 (drop h group)) as (o1 & q1 & E1 & S1); [|done|].
  { intros H%(f_equal length). rewrite length_drop in H. cbn [length] in H. lia. }
  exists (take h group), (drop h group), o0, o1, q0, q1.
  split; [by rewrite take_drop|]. split; [|done].
  destruct group as [|x [|y group]]; [cbn in Hlen; lia..|].
  unfold hand_out_group. fold h. rewrite E0, Ok_bind. cbn beta iota. rewrite E1, Ok_bind. done.
Qed.

(** Names made before transfer [n]. *)
Definition below (n : nat) (s : HandOutSource) : Prop :=
  match s with Aggregate => True | FromOutput i _ => (i < n)%nat end.

Definition planned_units (p : PlannedHandOut VPK) : Z :=
  out_units (ph_outputs p).1 + out_units (ph_outputs p).2.

Record plan_inv orders plan (q : list (HandOutSource * list (HandOutOrder VPK))) : Prop := {
  pi_nodup : NoDup (sources plan ++ map fst q);
  pi_below : Forall (below (length plan)) (sources plan ++ map fst q);
  pi_made i p : plan !! i = Some p →
    source_ok (agents_output a) (take i plan) (total_of orders) (ph_source p) (planned_units p);
  pi_queue : Forall (λ sg, (2 ≤ length sg.2)%nat ∧ payable sg.2
    ∧ source_ok (agents_output a) plan (total_of orders) sg.1 (total_of sg.2)) q;
  pi_left : unspent_by (sources plan ++ map fst q) (outputs_of plan)
    ++ map order_output (concat (map snd q)) ≡ₚ map order_output orders;
  pi_count : (length plan + sum_list_with (λ sg, length sg.2 - 1) q = length orders - 1)%nat;
}.

(** The names pushed are those of the new transfer, and the queued halves are
    sourced by its outputs. *)
Lemma part_below t i part o q :
  part_spec t i part o q → map fst q = [] ∨ map fst q = [FromOutput t i].
Proof. intros [_ [(x & -> & -> & ->)|(_ & _ & ->)]]; auto. Qed.

Lemma part_queue t i part o q plan total :
  part_spec t i part o q → payable part → (FromOutput t i, o) ∈ outputs_of plan →
  Forall (λ sg, (2 ≤ length sg.2)%nat ∧ payable sg.2
    ∧ source_ok (agents_output a) plan total sg.1 (total_of sg.2)) q.
Proof.
  intros [_ [(x & -> & -> & ->)|(Hl & -> & ->)]] Hp Ho; [constructor|].
  apply list.Forall_singleton. cbn. split_and!; [done|apply Hp..|by right].
Qed.

Lemma part_left t i part o q spent :
  part_spec t i part o q → FromOutput t i ∈ spent ↔ FromOutput t i ∈ map fst q →
  unspent_by spent [(FromOutput t i, o)] ++ map order_output (concat (map snd q))
  = map order_output part.
Proof.
  intros [_ H] Hs. rewrite unspent_by_one.
  destruct H as [(x & -> & -> & ->)|(_ & -> & ->)]; cbn in Hs; case_decide as Hd; cbn.
  - apply Hs in Hd. by apply elem_of_nil in Hd.
  - done.
  - by rewrite app_nil_r.
  - destruct Hd. apply Hs. left.
Qed.

Lemma part_count t i part o q :
  part_spec t i part o q →
  (sum_list_with (λ sg : HandOutSource * list (HandOutOrder VPK), length sg.2 - 1) q
   = length part - 1)%nat.
Proof. intros [_ [(x & -> & -> & ->)|(_ & _ & ->)]]; cbn; lia. Qed.

Lemma part_nonempty t i part o q : part_spec t i part o q → (1 ≤ length part)%nat.
Proof. intros [_ [(x & -> & _)|(? & _)]]; cbn; lia. Qed.

(** The new transfer's own names are new. *)
Lemma fresh_names orders plan q i :
  plan_inv orders plan q → FromOutput (length plan) i ∉ sources plan ++ map fst q.
Proof.
  intros H Hin. pose proof (proj1 (list.Forall_forall _ _) (pi_below _ _ _ H) _ Hin) as Hb.
  cbn in Hb. lia.
Qed.

Lemma below_S n s : below n s → below (S n) s.
Proof. destruct s; cbn; lia. Qed.

Section step.
Context orders plan (s : HandOutSource) group (q q0 q1 : list (HandOutSource * list (HandOutOrder VPK))).
Context (l r : list (HandOutOrder VPK)) (o0 o1 : Output VPK).
Hypothesis Hinv : plan_inv orders plan ((s, group) :: q).
Hypothesis Hg : group = l ++ r.
Hypothesis H0 : part_spec (length plan) 0 l o0 q0.
Hypothesis H1 : part_spec (length plan) 1 r o1 q1.
Let p : PlannedHandOut VPK := mk_planned s (o0, o1).

(** The names in use after the step: those before, and those pushed. *)
Lemma step_names :
  sources (plan ++ [p]) ++ map fst (q ++ q0 ++ q1)
  ≡ₚ (sources plan ++ map fst ((s, group) :: q)) ++ map fst q0 ++ map fst q1.
Proof.
  unfold sources. rewrite !map_app. cbn. rewrite <-!app_assoc. cbn. by rewrite Permutation_middle.
Qed.

Lemma step_nodup : NoDup (sources (plan ++ [p]) ++ map fst (q ++ q0 ++ q1)).
Proof.
  rewrite step_names. apply list.NoDup_app. split; [apply Hinv|].
  pose proof (fresh_names _ _ _ 0 Hinv) as F0. pose proof (fresh_names _ _ _ 1 Hinv) as F1.
  destruct (part_below _ _ _ _ _ H0) as [-> | ->], (part_below _ _ _ _ _ H1) as [-> | ->];
    (split; [set_solver|]); cbn; repeat constructor; set_solver.
Qed.

Lemma step_below : Forall (below (length (plan ++ [p]))) (sources (plan ++ [p]) ++ map fst (q ++ q0 ++ q1)).
Proof.
  rewrite step_names, length_app, Nat.add_1_r. apply list.Forall_app. split.
  { eapply list.Forall_impl; [apply Hinv|]. intros; by apply below_S. }
  destruct (part_below _ _ _ _ _ H0) as [-> | ->], (part_below _ _ _ _ _ H1) as [-> | ->];
    cbn; repeat constructor; cbn; lia.
Qed.

Lemma step_units : planned_units p = total_of group.
Proof. subst group. rewrite total_of_app. unfold planned_units. cbn. by destruct H0 as [-> _], H1 as [-> _]. Qed.

Lemma step_made i p' : (plan ++ [p]) !! i = Some p' →
  source_ok (agents_output a) (take i (plan ++ [p])) (total_of orders) (ph_source p') (planned_units p').
Proof.
  intros Hi. apply lookup_app_Some in Hi as [Hi|[Hlen Hi]].
  - rewrite take_app_le by (apply lookup_lt_Some in Hi; lia). by apply Hinv.
  - destruct (i - length plan)%nat eqn:E; [|done]. cbn in Hi. injection Hi as <-.
    rewrite take_app_length' by lia. rewrite step_units.
    pose proof (pi_queue _ _ _ Hinv) as Hq. apply list.Forall_cons in Hq. apply Hq.
Qed.

Lemma step_left :
  unspent_by (sources (plan ++ [p]) ++ map fst (q ++ q0 ++ q1)) (outputs_of (plan ++ [p]))
  ++ map order_output (concat (map snd (q ++ q0 ++ q1))) ≡ₚ map order_output orders.
Proof.
  set (spent' := sources (plan ++ [p]) ++ map fst (q ++ q0 ++ q1)).
  assert (∀ x, x ∈ spent' ↔ x ∈ sources plan ++ map fst ((s, group) :: q)
             ∨ x ∈ map fst q0 ∨ x ∈ map fst q1) as Hs.
  { intros x. unfold spent'. rewrite step_names, !elem_of_app. tauto. }
  rewrite outputs_of_snoc. fold p. cbn [ph_outputs fst snd p].
  rewrite unspent_by_app, (unspent_by_ext spent' (sources plan ++ map fst ((s, group) :: q))).
  2:{ intros x o (i & j & -> & Hi)%outputs_of_index. rewrite Hs.
      destruct (part_below _ _ _ _ _ H0) as [-> | ->], (part_below _ _ _ _ _ H1) as [-> | ->];
        set_solver by lia. }
  rewrite <-(pi_left _ _ _ Hinv). rewrite <-app_assoc. apply Permutation_app_head.
  rewrite (unspent_by_app spent' [_] [_] : unspent_by spent' [_; _] = _).
  pose proof (fresh_names _ _ _ 0 Hinv) as F0. pose proof (fresh_names _ _ _ 1 Hinv) as F1.
  rewrite !map_app, !concat_app. cbn. rewrite !map_app. subst group.
  rewrite map_app.
  rewrite <-(part_left _ _ _ _ _ spent' H0), <-(part_left _ _ _ _ _ spent' H1).
  - solve_Permutation.
  - rewrite Hs. destruct (part_below _ _ _ _ _ H0) as [-> | ->]; set_solver.
  - rewrite Hs. destruct (part_below _ _ _ _ _ H1) as [-> | ->]; set_solver.
Qed.

Lemma step_queue :
  Forall (λ sg, (2 ≤ length sg.2)%nat ∧ payable sg.2
    ∧ source_ok (agents_output a) (plan ++ [p]) (total_of orders) sg.1 (total_of sg.2)) (q ++ q0 ++ q1).
Proof.
  pose proof (pi_queue _ _ _ Hinv) as Hq. apply list.Forall_cons in Hq as [(_ & Hp & _) Hq].
  cbn in Hp. rewrite Hg in Hp. apply payable_app in Hp as [Hl Hr].
  rewrite !list.Forall_app. split_and!.
  - eapply list.Forall_impl; [done|]. intros x (? & ? & ?). split_and!; [done..|].
    by apply source_ok_snoc.
  - eapply part_queue; [done..|]. rewrite outputs_of_snoc. set_solver.
  - eapply part_queue; [done..|]. rewrite outputs_of_snoc. set_solver.
Qed.

Lemma step_inv : plan_inv orders (plan ++ [p]) (q ++ q0 ++ q1).
Proof.
  constructor.
  - apply step_nodup.
  - apply step_below.
  - apply step_made.
  - apply step_queue.
  - apply step_left.
  - pose proof (pi_count _ _ _ Hinv) as Hc. cbn in Hc.
    rewrite !sum_list_with_app, (part_count _ _ _ _ _ H0), (part_count _ _ _ _ _ H1), length_app.
    apply part_nonempty in H0, H1. rewrite Hg, length_app in Hc. cbn. lia.
Qed.
End step.

(** With fuel for the transfers left to make, the loop ends, with an empty
    queue. *)
Lemma hand_out_loop_Ok orders fuel plan q :
  plan_inv orders plan q → (sum_list_with (λ sg, length sg.2 - 1) q ≤ fuel)%nat →
  ∃ plan', hand_out_loop a fuel plan q = Some (Ok plan') ∧ plan_inv orders plan' [].
Proof.
  revert plan q. induction fuel as [|fuel IH]; intros plan q Hinv Hf;
    (destruct q as [|[s group] q]; [by exists plan|]).
  all: pose proof (pi_queue _ _ _ Hinv) as Hq; apply list.Forall_cons in Hq as [(Hl & Hp & _) _];
    cbn in Hl, Hp, Hf.
  { lia. }
  destruct (hand_out_group_Ok (length plan) group Hl Hp)
    as (l & r & o0 & o1 & q0 & q1 & Hg & E & H0 & H1).
  cbn [hand_out_loop]. rewrite E. apply IH; [by eapply step_inv|].
  rewrite !sum_list_with_app, (part_count _ _ _ _ _ H0), (part_count _ _ _ _ _ H1).
  apply part_nonempty in H0, H1. rewrite Hg, length_app in Hf. lia.
Qed.

Lemma plan_inv_start orders :
  (2 ≤ length orders)%nat → payable orders → plan_inv orders [] [(Aggregate, orders)].
Proof.
  intros Hl Hp. constructor; cbn.
  - by apply NoDup_singleton.
  - by repeat constructor.
  - done.
  - apply list.Forall_singleton. split_and!; [done|apply Hp..|by left].
  - by rewrite app_nil_r.
  - lia.
Qed.

(** C15: For a non-empty day's list of orders, of units that add up within 64
    bits, the planning loop terminates without an overflow within as many
    rounds as there are orders; it plans one transfer fewer than there are
    orders, and one for a single order; every transfer spends the aggregate
    note, or an agent's output of an earlier transfer, of exactly the units of
    its two outputs; no source is spent twice; and the outputs that no transfer
    spends are exactly the orders' notes, each once, with for a single order
    the agent's empty change. *)
Theorem plan_hand_out_exact orders :
  orders ≠ [] → payable orders →
  ∃ plan, plan_hand_out a orders = Some (Ok plan)
    ∧ length plan = Nat.max 1 (length orders - 1)
    ∧ NoDup (sources plan)
    ∧ (∀ i p, plan !! i = Some p →
         source_ok (agents_output a) (take i plan) (total_of orders) (ph_source p) (planned_units p))
    ∧ unspent plan ≡ₚ map order_output orders
        ++ (if (length orders =? 1)%nat then [agents_output a 0] else []).
Proof.
  intros Hne Hp. destruct orders as [|o1 [|o2 orders]]; [done|..].
  - exists [mk_planned Aggregate (order_output o1, agents_output a 0)].
    split_and!; [done|done|by apply NoDup_singleton| |done].
    intros [|i] p Hi; [|done]. cbn in Hi. injection Hi as <-. left.
    unfold planned_units, total_of, sumZ. cbn. split; [done|lia].
  - set (os := o1 :: o2 :: orders) in *. assert (2 ≤ length os)%nat as Hl by (cbn; lia).
    destruct (hand_out_loop_Ok os (length os) [] [(Aggregate, os)]) as (plan & E & Hinv).
    { by apply plan_inv_start. }
    { cbn. lia. }
    exists plan. split_and!; [done| | |apply Hinv|].
    + pose proof (pi_count _ _ _ Hinv) as Hc. cbn [sum_list_with] in Hc. lia.
    + pose proof (pi_nodup _ _ _ Hinv) as Hn. cbn in Hn. by rewrite app_nil_r in Hn.
    + pose proof (pi_left _ _ _ Hinv) as Hu. cbn in Hu. rewrite !app_nil_r in Hu.
      replace (length os =? 1)%nat with false by (symmetry; apply Nat.eqb_neq; lia).
      by rewrite app_nil_r.
Qed.
End loop.
