(* ===== verification/MmfAgentOk.v ===== *)
(** * Money-market-fund notes: the register

    What [read_feed] of [agent.rs] does to the register, and what it leaves
    alone. *)

From Stdlib Require Import ZArith Lia Bool.
From stdpp Require Import base tactics list gmap strings numbers.
From S2P Require Import Prelude Field Types Poseidon MmfTypes MmfChain MmfWallet MmfOk MmfAgent.

Lemma existsb_fr {A} (f : A → Fr) x l :
  existsb (λ e, fr_eqb (f e) x) l = true ↔ x ∈ map f l.
Proof.
  rewrite existsb_exists, list_elem_of_In, in_map_iff. setoid_rewrite fr_eqb_eq. naive_solver.
Qed.

Lemma existsb_fr_false {A} (f : A → Fr) x l :
  existsb (λ e, fr_eqb (f e) x) l = false ↔ x ∉ map f l.
Proof. by rewrite <-existsb_fr, not_true_iff_false. Qed.

Section register.
Context `{C : Crypto} {FI : FrInverse} {T : Type} {RT : RotorTree T}.
Context {SK PK Sg VK VPK Env : Type} {KC : Custody SK PK Sg VK VPK Env}.
Implicit Types (view : ChainView T) (a : TransferAgent SK VK VPK) (r : NoteRecord).

(** What the agent's keys make of a record. *)
Definition feed_opened a r : option (Note * LockOpening) :=
  find_map (open_record r) (feed_keys a (nr_key_version r)).

(** Reading changes the register, the unreadable notes and the wallet's notes
    alone. *)
Definition feed_frame a a' : Prop :=
  ∃ notes reg unread, a' = set_unreadable_notes (set_register
    (set_wallet a (mk_wallet (wa_keys (ta_wallet a)) notes)) reg) unread.

#[export] Instance feed_frame_po : PreOrder feed_frame.
Proof.
  split.
  - intros a. exists (wa_notes (ta_wallet a)), (ta_register a), (ta_unreadable_notes a).
    by destruct a as [[]].
  - intros a b c (n1 & r1 & u1 & ->) (n2 & r2 & u2 & ->). by exists n2, r2, u2.
Qed.

Lemma feed_step_frame a r : feed_frame a (feed_step a r).
Proof.
  unfold feed_step. case_match; [done|]. destruct (find_map _ _) as [[n o]|].
  - case_match; [by eexists _, _, _|].
    exists (wa_notes (ta_wallet a)), (ta_register a ++ [mk_entry n o (nr_commitment r)
      (nr_leaf_index r) (holder_of a (nt_owner n)) false]), (ta_unreadable_notes a).
    by destruct a as [[]].
  - exists (wa_notes (ta_wallet a)), (ta_register a). eexists. by destruct a as [[]].
Qed.

Lemma feed_loop_frame l a : feed_frame a (foldl feed_step a l).
Proof.
  revert a. induction l as [|r l IH]; intros a; cbn; [done|]. etrans; [apply feed_step_frame|done].
Qed.

Lemma feed_opened_frame a a' r : feed_frame a a' → feed_opened a' r = feed_opened a r.
Proof. by intros (n & g & u & ->). Qed.
Lemma holder_of_frame a a' o : feed_frame a a' → holder_of a' o = holder_of a o.
Proof. by intros (n & g & u & ->). Qed.
Lemma nk_of_frame a a' o : feed_frame a a' → nk_of a' o = nk_of a o.
Proof. by intros (n & g & u & ->). Qed.

(** The entry a record gives. *)
Definition entry_of a r (e : RegisterEntry) : Prop :=
  feed_opened a r = Some (re_note e, re_opening e) ∧ re_commitment e = nr_commitment r
  ∧ re_leaf_index e = nr_leaf_index r ∧ re_holder e = holder_of a (nt_owner (re_note e)).

Definition commitments_of (l : list RegisterEntry) : list Fr := map re_commitment l.

Lemma in_commitments c l :
  c ∈ commitments_of l ↔ ∃ e, e ∈ l ∧ re_commitment e = c.
Proof.
  unfold commitments_of. rewrite list_elem_of_In, in_map_iff. setoid_rewrite list_elem_of_In.
  naive_solver.
Qed.

Record loop_inv a0 (read : list NoteRecord) a : Prop := {
  li_frame : feed_frame a0 a;
  li_nodup : NoDup (commitments_of (ta_register a));
  li_old : ta_register a0 `prefix_of` ta_register a;
  li_new e : e ∈ ta_register a → e ∈ ta_register a0 ∨ ∃ r, r ∈ read ∧ entry_of a0 r e;
  li_read r : r ∈ read → nr_commitment r ∈ commitments_of (ta_register a)
    ∨ (feed_opened a0 r = None
       ∧ mk_unreadable (nr_commitment r) (nr_key_version r) ∈ ta_unreadable_notes a);
  li_unread u : u ∈ ta_unreadable_notes a → ∃ r, r ∈ read ∧ feed_opened a0 r = None
    ∧ u = mk_unreadable (nr_commitment r) (nr_key_version r);
}.

(** What one step does, on its three branches. *)
Lemma feed_step_cases a0 a r :
  feed_frame a0 a →
  let a' := feed_step a r in
  (nr_commitment r ∈ commitments_of (ta_register a) ∧ a' = a)
  ∨ ((nr_commitment r ∉ commitments_of (ta_register a)) ∧ feed_opened a0 r = None
     ∧ ta_register a' = ta_register a
     ∧ ta_unreadable_notes a'
       = ta_unreadable_notes a ++ [mk_unreadable (nr_commitment r) (nr_key_version r)])
  ∨ ((nr_commitment r ∉ commitments_of (ta_register a)) ∧ ta_unreadable_notes a' = ta_unreadable_notes a
     ∧ ∃ e, entry_of a0 r e ∧ ta_register a' = ta_register a ++ [e]).
Proof.
  intros Hf a'. unfold a', feed_step.
  destruct (existsb _ _) eqn:E; [apply existsb_fr in E; by left|]. right.
  apply existsb_fr_false in E. fold (feed_opened a r). rewrite (feed_opened_frame _ _ _ Hf).
  destruct (feed_opened a0 r) as [[n o]|] eqn:Eo; [right|by left].
  split; [done|]. set (e := mk_entry n o (nr_commitment r) (nr_leaf_index r)
    (holder_of a (nt_owner n)) false).
  split; [by case_match|]. exists e. split; [|by case_match].
  unfold entry_of. cbn. by rewrite Eo, <-(holder_of_frame _ _ _ Hf).
Qed.

Lemma in_snoc {A} (x y : A) l : x ∈ l ++ [y] ↔ x ∈ l ∨ x = y.
Proof. by rewrite elem_of_app, list_elem_of_singleton. Qed.

Lemma loop_inv_step a0 read a r : loop_inv a0 read a → loop_inv a0 (read ++ [r]) (feed_step a r).
Proof.
  intros [Hf Hn Ho Hnew Hr Hu].
  assert (∀ e, e ∈ ta_register a → e ∈ ta_register a0 ∨ ∃ r', r' ∈ read ++ [r] ∧ entry_of a0 r' e)
    as Hnew'.
  { intros e [?|(r' & ? & ?)]%Hnew; [by left|right]. exists r'. rewrite in_snoc. auto. }
  assert (∀ u, u ∈ ta_unreadable_notes a → ∃ r', r' ∈ read ++ [r] ∧ feed_opened a0 r' = None
    ∧ u = mk_unreadable (nr_commitment r') (nr_key_version r')) as Hu'.
  { intros u (r' & ? & ?)%Hu. exists r'. rewrite in_snoc. auto. }
  assert (feed_frame a0 (feed_step a r)) as Hf' by (etrans; [done|apply feed_step_frame]).
  destruct (feed_step_cases a0 a r Hf) as [[Hin E]|[(Hin & Eo & Er & Eu)|(Hin & Eu & e & He & Er)]].
  - rewrite E in *. constructor; try done. intros r' [?| ->]%in_snoc; auto.
  - constructor; rewrite ?Er, ?Eu; try done.
    + intros r' [[?|[? ?]]%Hr| ->]%in_snoc; rewrite in_snoc; auto.
    + intros u [?| ->]%in_snoc; [auto|]. exists r. rewrite in_snoc. auto.
  - assert (commitments_of (ta_register a ++ [e]) = commitments_of (ta_register a) ++ [nr_commitment r])
      as Ec by (unfold commitments_of; rewrite map_app; cbn; by destruct He as (_ & -> & _)).
    constructor; rewrite ?Er, ?Eu, ?Ec; try done.
    + apply list.NoDup_app. split_and!; [done| |by apply NoDup_singleton].
      by intros x Hx ->%list_elem_of_singleton.
    + by apply prefix_app_r.
    + intros x [?| ->]%in_snoc; [auto|right]. exists r. rewrite in_snoc. auto.
    + intros r' [[?|[? ?]]%Hr| ->]%in_snoc; rewrite in_snoc; auto.
Qed.

Lemma loop_inv_loop a0 l a read : loop_inv a0 read a → loop_inv a0 (read ++ l) (foldl feed_step a l).
Proof.
  revert a read. induction l as [|r l IH]; intros a read H; cbn; [by rewrite app_nil_r|].
  replace (read ++ r :: l) with ((read ++ [r]) ++ l) by (by rewrite <-app_assoc).
  by apply IH, loop_inv_step.
Qed.

Lemma loop_inv_start a :
  NoDup (commitments_of (ta_register a)) →
  loop_inv (set_unreadable_notes a []) [] (set_unreadable_notes a []).
Proof.
  intros. constructor; [reflexivity|done|reflexivity|by left|..];
    intros x Hx; by apply elem_of_nil in Hx.
Qed.

(** The agent after the loop, before entries are marked. *)
Definition after_loop a view : TransferAgent SK VK VPK :=
  foldl feed_step (set_unreadable_notes a []) (cv_notes view).

Lemma after_loop_inv a view :
  NoDup (commitments_of (ta_register a)) →
  loop_inv (set_unreadable_notes a []) (cv_notes view) (after_loop a view).
Proof. intros H. by apply (loop_inv_loop _ _ _ []), loop_inv_start. Qed.

Lemma after_loop_frame a view : feed_frame a (after_loop a view).
Proof.
  etrans; [|apply feed_loop_frame]. exists (wa_notes (ta_wallet a)), (ta_register a), []. by destruct a as [[]].
Qed.

(** The fields the later parts of [read_feed] leave alone. *)
Lemma settle_claims_fields a view :
  let a' := settle_claims a view in
  ta_register a' = ta_register a ∧ ta_unreadable_notes a' = ta_unreadable_notes a
  ∧ ta_investors a' = ta_investors a ∧ ta_wallet a' = ta_wallet a.
Proof. unfold settle_claims. by destruct (foldl _ _ _). Qed.

(** Reading leaves every other field alone. *)
Definition read_frame a a' : Prop := ∃ notes reg unread claims pending,
  a' = set_pending_claims (set_claims (set_unreadable_notes (set_register
    (set_wallet a (mk_wallet (wa_keys (ta_wallet a)) notes)) reg) unread) claims) pending.

Lemma read_frame_feed a a' : feed_frame a a' → read_frame a a'.
Proof.
  intros (n & g & u & ->). exists n, g, u, (ta_claims a), (ta_pending_claims a). by destruct a as [[]].
Qed.
Lemma read_frame_register a a' g : read_frame a a' → read_frame a (set_register a' g).
Proof. intros (n & r & u & c & p & ->). by exists n, g, u, c, p. Qed.
Lemma read_frame_claims a a' c p :
  read_frame a a' → read_frame a (set_pending_claims (set_claims a' c) p).
Proof. intros (n & r & u & c' & p' & ->). by exists n, r, u, c, p. Qed.
Lemma read_frame_scan a a' view :
  read_frame a a' → read_frame a (set_wallet a' (scan (ta_wallet a') view)).
Proof.
  intros (n & r & u & c & p & ->).
  by exists (wa_notes (scan (mk_wallet (wa_keys (ta_wallet a)) n) view)), r, u, c, p.
Qed.

Lemma read_feed_frame a view : read_frame a (read_feed a view).
Proof.
  unfold read_feed. fold (after_loop a view). apply read_frame_scan. unfold settle_claims.
  destruct (foldl _ _ _) as [cl pc]. apply read_frame_claims, read_frame_register.
  apply read_frame_feed, after_loop_frame.
Qed.

Lemma read_feed_register_eq a view :
  ta_register (read_feed a view)
  = map (λ e, mark_entry e (entry_spent a view e)) (ta_register (after_loop a view)).
Proof.
  unfold read_feed. cbn. fold (after_loop a view).
  rewrite (proj1 (settle_claims_fields _ _)). cbn. apply map_ext. intros e. unfold entry_spent.
  by rewrite (nk_of_frame _ _ _ (after_loop_frame a view)).
Qed.

Lemma read_feed_unreadable_eq a view :
  ta_unreadable_notes (read_feed a view) = ta_unreadable_notes (after_loop a view).
Proof.
  unfold read_feed. cbn. fold (after_loop a view).
  by rewrite (proj1 (proj2 (settle_claims_fields _ _))).
Qed.

Lemma read_feed_commitments a view :
  commitments_of (ta_register (read_feed a view)) = commitments_of (ta_register (after_loop a view)).
Proof. rewrite read_feed_register_eq. unfold commitments_of. rewrite map_map. done. Qed.

(** A record only the agent's key of its version opens. *)
Lemma feed_opened_key a r tk :
  bt_get (nr_key_version r) (ta_register_keys a) = Some tk → feed_opened a r = open_record r tk.
Proof. intros E. unfold feed_opened, feed_keys. rewrite E. cbn. by destruct (open_record r tk). Qed.

(** A record the keys open, alone with its commitment, gives its entry. *)
Lemma read_feed_entry a view r n opening :
  NoDup (commitments_of (ta_register a)) → r ∈ cv_notes view →
  (∀ r', r' ∈ cv_notes view → nr_commitment r' = nr_commitment r → r' = r) →
  (nr_commitment r ∉ commitments_of (ta_register a)) → feed_opened a r = Some (n, opening) →
  let e := mk_entry n opening (nr_commitment r) (nr_leaf_index r) (holder_of a (nt_owner n)) false in
  mark_entry e (entry_spent a view e) ∈ ta_register (read_feed a view).
Proof.
  intros Hn Hr Hone Hfresh Ho e. pose proof (after_loop_inv a view Hn) as Hi.
  destruct (li_read _ _ _ Hi r Hr) as [Hin|[Hnone _]].
  2:{ change (feed_opened a r = None) in Hnone. congruence. }
  apply in_commitments in Hin as (e' & Hin & He').
  assert (e' = mk_entry (re_note e') (re_opening e') (re_commitment e') (re_leaf_index e')
            (re_holder e') (re_spent e')) as Hd by (by destruct e').
  destruct (li_new _ _ _ Hi e' Hin) as [Hold|(r' & Hr' & Heo & Hec & Hel & Heh)].
  { destruct Hfresh. apply in_commitments. by exists e'. }
  assert (r' = r) as -> by (apply Hone; congruence).
  change (feed_opened a r = Some (re_note e', re_opening e')) in Heo.
  rewrite Ho in Heo. injection Heo as -> ->.
  rewrite read_feed_register_eq. apply list_elem_of_In, in_map_iff. exists e'. split.
  - unfold mark_entry, e, entry_spent. cbn. by rewrite Hec, Hel, Heh.
  - by apply list_elem_of_In.
Qed.

(** Reading the feed keeps the register free of duplicates and accounts
    for every note of the chain: each record is in the register under its
    commitment, or no key of its version opens it and it is listed as
    unreadable; every new entry is what the keys open its record to, under
    the holder on file for its owner value; the old entries stay; and each
    entry is marked spent exactly when the pool has recorded its nullifier
    under the owner's key.  So the list of unreadable notes is empty only when
    the register holds every note of the chain. *)
Lemma read_feed_accounts a view :
  NoDup (commitments_of (ta_register a)) →
  let a' := read_feed a view in
  NoDup (commitments_of (ta_register a'))
  ∧ (∀ r, r ∈ cv_notes view → nr_commitment r ∈ commitments_of (ta_register a')
       ∨ (feed_opened a r = None
          ∧ mk_unreadable (nr_commitment r) (nr_key_version r) ∈ ta_unreadable_notes a'))
  ∧ (∀ e, e ∈ ta_register a' → re_spent e = entry_spent a view e
       ∧ (re_commitment e ∈ commitments_of (ta_register a)
          ∨ ∃ r, r ∈ cv_notes view ∧ entry_of a r e))
  ∧ commitments_of (ta_register a) `prefix_of` commitments_of (ta_register a')
  ∧ (ta_unreadable_notes a' = [] →
       ∀ r, r ∈ cv_notes view → nr_commitment r ∈ commitments_of (ta_register a')).
Proof.
  intros Hn a'. pose proof (after_loop_inv a view Hn) as Hi. unfold a'.
  rewrite read_feed_commitments, read_feed_unreadable_eq. split_and!.
  - apply Hi.
  - apply Hi.
  - intros e He. rewrite read_feed_register_eq in He.
    apply list_elem_of_In, in_map_iff in He as (e0 & <- & He0%list_elem_of_In).
    split; [reflexivity|].
    apply (li_new _ _ _ Hi) in He0 as [Hold|(r & Hr & Hre)].
    + left. apply in_commitments. by exists e0.
    + right. by exists r.
  - destruct (li_old _ _ _ Hi) as [k ->]. unfold commitments_of. rewrite map_app. by eexists.
  - intros E r Hr. destruct (li_read _ _ _ Hi r Hr) as [?|[_ Hu]]; [done|].
    rewrite E in Hu. by apply elem_of_nil in Hu.
Qed.
End register.
