(* ===== verification/MmfCaps.v ===== *)
(** * Money-market-fund notes: attestation batches

    What [attestation_batch] of [agent.rs] attests: batches of whole parts,
    within the caps, under the period's expiry. *)

From Stdlib Require Import ZArith Lia Bool.
From stdpp Require Import base tactics list gmap strings numbers.
From S2P Require Import Prelude Field Types Poseidon MmfTypes MmfChain MmfWallet MmfOk MmfAgent.
From S2P Require Import MmfAgentOk.

(** ** Sorted maps *)
Section btree_ok.
Context {K V : Type} {EK : EqDecision K}.
Implicit Types (m : list (K * V)).

Lemma bt_get_Some k m v : bt_get k m = Some v → (k, v) ∈ m.
Proof.
  induction m as [|[k' v'] m IH]; cbn; [done|]. case_decide; [intros [= ->]; subst; left|].
  intros Hg%IH. by right.
Qed.
Lemma bt_get_is_Some k v m : (k, v) ∈ m → is_Some (bt_get k m).
Proof.
  induction m as [|[k' v'] m IH]; [by intros ?%elem_of_nil|].
  intros [E|Hg]%elem_of_cons; cbn; case_decide; eauto; naive_solver.
Qed.
Variable ltb : K → K → bool.

Lemma bt_insert_elem k v m x : x ∈ bt_insert ltb k v m → x = (k, v) ∨ x ∈ m.
Proof.
  induction m as [|[k' v'] m IH]; cbn.
  { intros ?%list_elem_of_singleton. by left. }
  repeat case_match; rewrite ?elem_of_cons; naive_solver.
Qed.

Hypothesis Hirr : ∀ k, ltb k k = false.
Hypothesis Htot : ∀ k k', ltb k k' = false → ltb k' k = false → k = k'.

Lemma bt_get_insert k v m k' :
  bt_get k' (bt_insert ltb k v m) = if decide (k' = k) then Some v else bt_get k' m.
Proof using Hirr Htot.
  induction m as [|[k0 v0] m IH]; cbn; [by case_decide|].
  destruct (ltb k k0) eqn:E1; [cbn; by case_decide|].
  destruct (ltb k0 k) eqn:E2; cbn.
  - rewrite IH. repeat case_decide; subst; try done. rewrite Hirr in E2. done.
  - assert (k = k0) as -> by auto. by case_decide.
Qed.
End btree_ok.

Lemma bytes_ltb_irr l : bytes_ltb l l = false.
Proof. rewrite bytes_ltb_be by done. apply Z.ltb_irrefl. Qed.

Lemma bytes_ltb_total l k : bytes_ltb l k = false → bytes_ltb k l = false → l = k.
Proof.
  revert k. induction l as [|x l IH]; intros [|y k]; cbn; try done.
  intros [E1 E2]%orb_false_iff [E3 E4]%orb_false_iff. reflect_bools.
  assert (byte_Z x = byte_Z y) as Exy by lia. rewrite Exy, Z.eqb_refl in *. cbn in *.
  f_equal; [by apply byte_Z_inj|by apply IH].
Qed.

(** ** The expiry of a batch *)

(** The documented bounds: past the overlap, and no later than a period and an
    overlap from now, at the end of a period. *)
Lemma period_expiry_Ok {E} start epoch :
  0 ≤ start → start ≤ epoch + ATTESTATION_OVERLAP → epoch < 2 ^ 40 →
  ∃ n, period_expiry (E:=E) start epoch = Ok (n * EPOCH_SECONDS)
    ∧ (n - start) mod ATTESTATION_PERIOD = 0
    ∧ epoch + ATTESTATION_OVERLAP < n ≤ epoch + ATTESTATION_OVERLAP + ATTESTATION_PERIOD.
Proof.
  unfold period_expiry, ATTESTATION_OVERLAP, ATTESTATION_PERIOD, EPOCH_SECONDS. intros Hs Hse He.
  set (d := epoch + 3 - start). pose proof (Z.div_mod d 30 ltac:(done)) as Hdm.
  pose proof (Z.mod_pos_bound d 30 ltac:(done)) as Hmod. set (p := d / 30) in *.
  unfold u64_add, u64_sub, u64_mul.
  assert (checked_add 64 epoch 3 = Some (epoch + 3)) as -> by (apply checked_add_Some; lia).
  cbn [expect]. rewrite Ok_bind.
  assert (checked_sub (epoch + 3) start = Some d) as -> by (apply checked_sub_Some; lia).
  cbn [expect]. rewrite Ok_bind. fold p.
  assert (checked_add 64 p 1 = Some (p + 1)) as -> by (apply checked_add_Some; lia).
  cbn [expect]. rewrite Ok_bind.
  assert (checked_mul 64 (p + 1) 30 = Some ((p + 1) * 30)) as -> by (apply checked_mul_Some; lia).
  cbn [expect]. rewrite Ok_bind.
  assert (checked_add 64 start ((p + 1) * 30) = Some (start + (p + 1) * 30)) as ->
    by (apply checked_add_Some; lia).
  cbn [expect]. rewrite Ok_bind.
  assert (checked_mul 64 (start + (p + 1) * 30) 86400 = Some ((start + (p + 1) * 30) * 86400)) as ->
    by (apply checked_mul_Some; lia).
  exists (start + (p + 1) * 30). split_and!; [done| |lia|lia].
  replace (start + (p + 1) * 30 - start) with ((p + 1) * 30) by lia. by rewrite Z.mod_mul.
Qed.

(** ** Whole parts *)
Lemma chunks_whole {A} (l : list A) n k :
  (0 < n)%nat → length l = (n * k)%nat →
  Forall (λ p, length p = n) (chunks n l) ∧ concat (chunks n l) = l.
Proof.
  intros Hn. unfold chunks.
  assert (∀ fuel (l : list A) k, (length l ≤ fuel)%nat → length l = (n * k)%nat →
    Forall (λ p, length p = n) (chunks_fuel fuel n l) ∧ concat (chunks_fuel fuel n l) = l) as H.
  { clear l k. intros fuel. induction fuel as [|fuel IH]; intros l k Hf Hl.
    { destruct l; [by split; constructor|cbn in Hf; lia]. }
    destruct l as [|x l]; [by split; constructor|].
    destruct k as [|k]; [cbn in Hl; lia|].
    assert (n ≤ length (x :: l))%nat as Hge by lia.
    destruct (IH (drop n (x :: l)) k) as [IH1 IH2].
    { rewrite length_drop. cbn in *. lia. }
    { rewrite length_drop. lia. }
    change (chunks_fuel (S fuel) n (x :: l)) with (take n (x :: l) :: chunks_fuel fuel n (drop n (x :: l))).
    split; [constructor; [rewrite length_take; lia|done]|].
    cbn [concat]. by rewrite IH2, take_drop. }
  intros Hl. by apply (H _ _ k).
Qed.

Lemma next_multiple_of_spec n m :
  (0 < m)%nat → ∃ k, next_multiple_of n m = (m * k)%nat ∧ (n ≤ m * k < n + m)%nat.
Proof.
  intros Hm. unfold next_multiple_of. pose proof (Nat.div_mod n m ltac:(lia)) as Hd.
  pose proof (Nat.mod_upper_bound n m ltac:(lia)) as Hr.
  destruct (n mod m)%nat as [|r] eqn:E.
  - exists (n / m)%nat. lia.
  - exists (S (n / m)). lia.
Qed.

(** ** The caps *)
Lemma find_map_None {A B} (f : A → option B) l : find_map f l = None ↔ ∀ x, x ∈ l → f x = None.
Proof.
  induction l as [|x l IH]; cbn; [split; [by intros _ x ?%elem_of_nil|done]|].
  setoid_rewrite elem_of_cons. destruct (f x) eqn:E; naive_solver.
Qed.

Section caps.
Context `{C : Crypto} {FI : FrInverse} {T : Type} {RT : RotorTree T}.
Context {SK PK Sg VK VPK Env : Type} {KC : Custody SK PK Sg VK VPK Env}.
Implicit Types (view : ChainView T) (env : PoolEnv) (a : TransferAgent SK VK VPK).

(** The investors counted stay within every cap that those before did. *)
Definition within_caps a (before counted : gset string) : Prop :=
  (∀ cap, ta_max_investors a = Some cap → (size counted ≤ Nat.max (size before) cap)%nat)
  ∧ ∀ j cap, (j, cap) ∈ ta_jurisdiction_caps a →
      (count_in a j counted ≤ Nat.max (count_in a j before) cap)%nat.

Lemma cap_refusal_None a before counted : cap_refusal a before counted = None ↔ within_caps a before counted.
Proof.
  unfold cap_refusal, within_caps, over.
  set (js := find_map _ _).
  assert (js = None ↔ ∀ j cap, (j, cap) ∈ ta_jurisdiction_caps a →
    (count_in a j counted ≤ Nat.max (count_in a j before) cap)%nat) as Hj.
  { unfold js. rewrite find_map_None. split.
    - intros H j cap Hin%H. cbn in Hin. case_match eqn:E; [done|]. apply Nat.ltb_ge in E. lia.
    - intros H [j cap] Hin%H. case_match eqn:E; [|done]. apply Nat.ltb_lt in E. lia. }
  destruct (ta_max_investors a) as [cap|].
  - case_match eqn:E.
    + split; [done|]. intros [H _]. specialize (H cap eq_refl). apply Nat.ltb_lt in E. lia.
    + apply Nat.ltb_ge in E. rewrite Hj. split; [intros H; split; [intros ? [= <-]; lia|done]|by intros []].
  - rewrite Hj. split; [by intros H|by intros []].
Qed.

Lemma within_caps_refl a before : within_caps a before before.
Proof. split; intros; lia. Qed.

Lemma within_caps_mono a before c1 c2 : c1 ⊆ c2 → within_caps a before c2 → within_caps a before c1.
Proof.
  intros Hs [H1 H2]. split.
  - intros cap Hc%H1. pose proof (subseteq_size c1 c2 Hs). lia.
  - intros j cap Hc%H2. unfold count_in in *.
    pose proof (subseteq_size (base.filter (λ id, ta_jurisdictions a !! id = Some j) c1)
      (base.filter (λ id, ta_jurisdictions a !! id = Some j) c2) ltac:(set_solver)). lia.
Qed.

(** ** Admission *)
Definition investor_of a (owner : Fr) : option string := holder_of a owner ≫= investor.
Definition investors_of a (l : list Fr) : gset string := list_to_set (omap (investor_of a) l).

Lemma investors_of_snoc a l o :
  investors_of a (l ++ [o]) = investors_of a l ∪ from_option singleton ∅ (investor_of a o).
Proof.
  unfold investors_of. rewrite omap_app, list_to_set_app_L. f_equal. cbn.
  destruct (investor_of a o); cbn; set_solver.
Qed.

Definition admit_inv a before (seen : list Fr) (s : gset string * list Fr * list Fr) : Prop :=
  let '(counted, owners, over_cap) := s in
  counted = before ∪ investors_of a owners ∧ owners ++ over_cap ≡ₚ seen
  ∧ within_caps a before counted
  ∧ Forall (λ o, ∃ id, investor_of a o = Some id ∧ ¬ within_caps a before ({[ id ]} ∪ counted)) over_cap.

Lemma admit_step_inv a before seen s o :
  is_Some (holder_of a o) → admit_inv a before seen s →
  ∃ s', admit_step a before s o = Ok s' ∧ admit_inv a before (seen ++ [o]) s'.
Proof.
  destruct s as [[counted owners] over_cap]. intros [h Hh] (Hc & Hperm & Hcap & Hover).
  unfold admit_step. rewrite Hh. cbn [ok_or]. rewrite Ok_bind.
  assert (investor_of a o = investor h) as Hi by (unfold investor_of; by rewrite Hh).
  assert ((owners ++ [o]) ++ over_cap ≡ₚ seen ++ [o]) as Hperm'
    by (rewrite <-Hperm; solve_Permutation).
  destruct (investor h) as [id|] eqn:Ei.
  - case_bool_decide as Hin.
    + eexists. split; [done|]. split_and!; [|done..].
      rewrite investors_of_snoc, Hi. cbn. set_solver.
    + destruct (cap_refusal _ _ _) as [e|] eqn:Er.
      * eexists. split; [done|]. split_and!; [done|by rewrite <-Hperm, app_assoc|done|].
        apply list.Forall_app. split; [done|]. apply list.Forall_singleton. exists id.
        split; [done|]. rewrite <-cap_refusal_None. congruence.
      * apply cap_refusal_None in Er. eexists. split; [done|]. split_and!; [|done|done|].
        -- rewrite investors_of_snoc, Hi. cbn. set_solver.
        -- eapply list.Forall_impl; [done|]. intros o' (id' & Ho' & Hn). exists id'. split; [done|].
           intros Hw. apply Hn. eapply within_caps_mono; [|done]. set_solver.
  - eexists. split; [done|]. split_and!; [|done..]. rewrite investors_of_snoc, Hi. cbn. set_solver.
Qed.

Lemma admit_loop_inv a before l seen s :
  Forall (λ o, is_Some (holder_of a o)) l → admit_inv a before seen s →
  ∃ s', for_each (admit_step a before) s l = Ok s' ∧ admit_inv a before (seen ++ l) s'.
Proof.
  intros Hl. revert seen s. induction Hl as [|o l Ho Hl IH]; intros seen s Hs; cbn [for_each].
  { exists s. by rewrite app_nil_r. }
  destruct (admit_step_inv a before seen s o Ho Hs) as (s1 & E1 & H1). rewrite E1, Ok_bind.
  destruct (IH _ _ H1) as (s2 & E2 & H2). exists s2. split; [done|]. by rewrite <-app_assoc in H2.
Qed.

(** ** Owner values on file *)

(** Every key is the owner value of the keys on file. *)
Definition investors_ok a : Prop :=
  ∀ k r, (k, r) ∈ ta_investors a → k = fr_to_be_bytes (owner_value (ir_pk r) (ir_nk r)).
Definition owners_on_file a : list Fr :=
  map (λ kr : Bytes32 * InvestorRecord VPK, owner_value (ir_pk kr.2) (ir_nk kr.2)) (ta_investors a).

Lemma due_Ok a view env expires :
  investors_ok a →
  due a view env expires = Ok (List.filter (is_due a view env expires) (agent_owner a :: owners_on_file a)).
Proof.
  intros Hok. unfold due.
  assert (∀ l acc, (∀ k r, (k, r) ∈ l → k = fr_to_be_bytes (owner_value (ir_pk r) (ir_nk r))) →
    for_each (E:=ActorError) (λ acc '(k, _), o ← expect (ok (fr_try_from k)); Ok (acc ++ [o])) acc l
    = Ok (acc ++ map (λ kr : Bytes32 * InvestorRecord VPK, owner_value (ir_pk kr.2) (ir_nk kr.2)) l)) as H.
  { induction l as [|[k r] l IH]; intros acc Hl; cbn [for_each map]; [by rewrite app_nil_r|].
    rewrite (Hl k r) by left. rewrite fr_try_to. cbn [ok expect]. rewrite !Ok_bind.
    rewrite IH by (intros; apply Hl; by right). by rewrite <-app_assoc. }
  rewrite H by done. done.
Qed.

Lemma on_file_holder a o : investors_ok a → o ∈ agent_owner a :: owners_on_file a → is_Some (holder_of a o).
Proof.
  intros Hok Ho. unfold holder_of. case_match eqn:E; [by eexists|].
  apply fr_eqb_neq in E. apply elem_of_cons in Ho as [?|Ho]; [done|].
  apply list_elem_of_In, in_map_iff in Ho as ([k r] & <- & Hin%list_elem_of_In).
  pose proof (Hok _ _ Hin) as Hk. subst k. apply fmap_is_Some. eapply bt_get_is_Some, Hin.
Qed.

Lemma counted_investors_Ok a view env holding :
  investors_ok a → Forall (λ x, is_Some (ta_public_holders a !! x)) holding →
  ∃ before, counted_investors a view env holding = Ok before.
Proof.
  intros Hok Hh. unfold counted_investors.
  match goal with |- context [for_each ?f ∅ (ta_investors a)] => set (step := f) end.
  assert (∀ ids k r, k = fr_to_be_bytes (owner_value (ir_pk r) (ir_nk r)) →
    ∃ ids', step ids (k, r) = Ok ids') as H0.
  { intros ids k r ->. unfold step. destruct (investor (ir_holder r)); [|by eexists].
    rewrite fr_try_to. cbn [ok expect]. rewrite Ok_bind. case_match; by eexists. }
  assert (∀ l ids, (∀ k r, (k, r) ∈ l → k = fr_to_be_bytes (owner_value (ir_pk r) (ir_nk r))) →
    ∃ ids', for_each step ids l = Ok ids') as H1.
  { induction l as [|[k r] l IH]; intros ids Hl; cbn [for_each]; [by eexists|].
    destruct (H0 ids k r) as [ids' ->]; [apply Hl; left|]. rewrite Ok_bind.
    apply IH. intros; apply Hl; by right. }
  destruct (H1 (ta_investors a) ∅ Hok) as [ids ->]. rewrite Ok_bind.
  generalize (foldl (λ ids e, match re_holder e ≫= investor with
    Some id => {[ id : string ]} ∪ ids | None => ids end) ids (List.filter held (ta_register a))) as ids0.
  induction Hh as [|x l [id Hx] Hl IH]; intros ids0; cbn [for_each]; [by eexists|].
  rewrite (ok_or_bind _ _ id) by exact Hx. rewrite Ok_bind. apply IH.
Qed.

(** ** Padding *)
Lemma fresh_padding_spec drawn a :
  let '(pads, a') := fresh_padding drawn a in
  length pads = length drawn
  ∧ (∀ o, o ∈ pads → ∃ r, bt_get (fr_to_be_bytes o) (ta_investors a') = Some r ∧ ir_holder r = Padding)
  ∧ (∀ k r, bt_get k (ta_investors a) = Some r → ir_holder r = Padding →
       ∃ r', bt_get k (ta_investors a') = Some r' ∧ ir_holder r' = Padding)
  ∧ (investors_ok a → investors_ok a').
Proof.
  revert a. induction drawn as [|keys drawn IH]; intros a.
  { cbn. split_and!; [done|by intros o ?%elem_of_nil|by eauto|done]. }
  cbn [fresh_padding record_owner].
  set (o1 := owner_value _ _). set (r1 := mk_investor _ _ _ _).
  match goal with |- context [fresh_padding drawn ?x] => set (a1 := x) end.
  assert (∀ k, bt_get k (ta_investors a1)
    = if decide (k = fr_to_be_bytes o1) then Some r1 else bt_get k (ta_investors a)) as Hget.
  { intros k. unfold a1. cbn [set_padding set_investors ta_investors].
    apply bt_get_insert; [apply bytes_ltb_irr|apply bytes_ltb_total]. }
  specialize (IH a1). destruct (fresh_padding drawn a1) as [pads a'].
  destruct IH as (Hlen & Hin & Hkeep & Hok). split_and!.
  - cbn. by rewrite Hlen.
  - intros o [->|Ho]%elem_of_cons; [|by apply Hin]. apply (Hkeep _ r1); [|done].
    rewrite Hget. by case_decide.
  - intros k r Hk Hp. destruct (decide (k = fr_to_be_bytes o1)) as [->|Hne].
    + apply (Hkeep _ r1); [|done]. rewrite Hget. by case_decide.
    + apply (Hkeep _ r); [|done]. rewrite Hget. by case_decide.
  - intros Ha. apply Hok. intros k r [E|H]%bt_insert_elem; [|by apply Ha].
    injection E as -> ->. done.
Qed.

(** The agent as the batch sees it: the feed read, the period started. *)
Definition at_batch a view env : TransferAgent SK VK VPK :=
  let a1 := read_feed a view in
  set_period_start a1 (Some (default (en_epoch env) (ta_period_start a))).

Lemma at_batch_fields a view env :
  let a1 := at_batch a view env in
  ta_investors a1 = ta_investors a ∧ ta_public_holders a1 = ta_public_holders a
  ∧ agent_owner a1 = agent_owner a ∧ ta_not_renewed a1 = ta_not_renewed a
  ∧ ta_max_investors a1 = ta_max_investors a ∧ ta_jurisdiction_caps a1 = ta_jurisdiction_caps a
  ∧ ta_jurisdictions a1 = ta_jurisdictions a.
Proof. unfold at_batch. by destruct (read_feed_frame a view) as (? & ? & ? & ? & ? & ->). Qed.

Lemma read_feed_period a view : ta_period_start (read_feed a view) = ta_period_start a.
Proof. by destruct (read_feed_frame a view) as (? & ? & ? & ? & ? & ->). Qed.

(** What the batch is made of, given the owner values admitted. *)
Lemma padded_parts (admitted pads l : list Fr) :
  length pads = (if (length admitted =? 0)%nat then 0%nat
    else (next_multiple_of (length admitted) ATTESTATION_PART - length admitted)%nat) →
  l ≡ₚ admitted ++ pads →
  (length pads < ATTESTATION_PART)%nat
  ∧ Forall (λ p, length p = ATTESTATION_PART) (chunks ATTESTATION_PART l)
  ∧ concat (chunks ATTESTATION_PART l) = l.
Proof.
  intros Hp Hperm. apply Permutation_length in Hperm. rewrite length_app, Hp in Hperm. rewrite Hp.
  revert Hperm. destruct (Nat.eqb_spec (length admitted) 0) as [E|E]; intros Hperm.
  - split; [unfold ATTESTATION_PART; lia|]. apply (chunks_whole _ _ 0); unfold ATTESTATION_PART; lia.
  - destruct (next_multiple_of_spec (length admitted) ATTESTATION_PART) as (k & Ek & ?);
      [unfold ATTESTATION_PART; lia|]. rewrite Ek in *.
    split; [unfold ATTESTATION_PART in *; lia|].
    apply (chunks_whole _ _ k); unfold ATTESTATION_PART in *; lia.
Qed.

(** C14: An attestation batch is always built when the public holders are
    known: no owner value on file is missed, none is of an unknown holder and
    no sum overflows.  Every part has exactly [ATTESTATION_PART] owner values;
    the batch is a shuffle of the owner values admitted and of fewer than a
    part's padding, all on file as padding; the values admitted and those
    reported over the cap are exactly those due, the agent's own and those on
    file that are still renewed and whose attestations end before the
    batch's expiry; the investors counted with those admitted pass no cap that
    they did not pass before; each value left out would pass one; and the
    expiry ends a period, after the overlap and within a period of it. *)
Theorem attestation_batch_within_caps drawn shuffle view env holding generation a :
  investors_ok a → Forall (λ x, is_Some (ta_public_holders a !! x)) holding →
  (∀ l : list Fr, shuffle l ≡ₚ l) →
  0 ≤ en_epoch env < 2 ^ 40 →
  (∀ s, ta_period_start a = Some s → 0 ≤ s ≤ en_epoch env + ATTESTATION_OVERLAP) →
  let a1 := at_batch a view env in
  let epoch := en_epoch env in
  ∃ batch over_cap a' before admitted pads n,
    attestation_batch drawn shuffle view env holding generation a
      = (Ok (mk_round batch over_cap), a')
    ∧ Forall (λ p, length p = ATTESTATION_PART) (ab_parts batch)
    ∧ owners batch ≡ₚ admitted ++ pads ∧ (length pads < ATTESTATION_PART)%nat
    ∧ (∀ o, o ∈ pads → ∃ r, bt_get (fr_to_be_bytes o) (ta_investors a') = Some r
         ∧ ir_holder r = Padding)
    ∧ admitted ++ over_cap
      ≡ₚ List.filter (is_due a1 view env (ab_expires_at batch)) (agent_owner a :: owners_on_file a)
    ∧ counted_investors a1 view env holding = Ok before
    ∧ within_caps a1 before (before ∪ investors_of a1 admitted)
    ∧ Forall (λ o, ∃ id, investor_of a1 o = Some id
        ∧ ¬ within_caps a1 before ({[ id ]} ∪ (before ∪ investors_of a1 admitted))) over_cap
    ∧ ab_expires_at batch = n * EPOCH_SECONDS
    ∧ (n - default epoch (ta_period_start a)) mod ATTESTATION_PERIOD = 0
    ∧ epoch + ATTESTATION_OVERLAP < n ≤ epoch + ATTESTATION_OVERLAP + ATTESTATION_PERIOD.
Proof.
  intros Hok Hh Hsh He Hps a1 epoch.
  destruct (at_batch_fields a view env) as (Ei & Ep & Eo & _). fold a1 in Ei, Ep, Eo.
  assert (investors_ok a1) as Hok1 by (unfold investors_ok; by rewrite Ei).
  destruct (period_expiry_Ok (E:=ActorError) (default epoch (ta_period_start a)) epoch)
    as (n & En & Hn & Hb).
  1-3: unfold ATTESTATION_OVERLAP in *; destruct (ta_period_start a) as [s|] eqn:Es; cbn;
    try specialize (Hps s eq_refl); lia.
  destruct (counted_investors_Ok a1 view env holding Hok1) as [before Eb]; [by rewrite Ep|].
  set (l := List.filter (is_due a1 view env (n * EPOCH_SECONDS)) (agent_owner a1 :: owners_on_file a1)).
  destruct (admit_loop_inv a1 before l [] (before, [], [])) as ([[counted admitted] over_cap] & Ea & Hi).
  { apply list.Forall_forall. intros o Ho. apply on_file_holder; [done|].
    apply list_elem_of_In in Ho. apply filter_In in Ho as [Ho _]. by apply list_elem_of_In. }
  { split_and!; [set_solver|done|apply within_caps_refl|constructor]. }
  destruct Hi as (-> & Hperm & Hcap & Hover).
  set (np := if (length admitted =? 0)%nat then 0%nat
             else (next_multiple_of (length admitted) ATTESTATION_PART - length admitted)%nat).
  pose proof (fresh_padding_spec (map drawn (seq 0 np)) a1) as Hpad.
  destruct (fresh_padding (map drawn (seq 0 np)) a1) as [pads a'] eqn:Epad.
  destruct Hpad as (Hlen & Hpads & _). rewrite length_map, length_seq in Hlen.
  destruct (padded_parts admitted pads (shuffle (admitted ++ pads)) Hlen (Hsh _)) as (Hsmall & Hparts & Hcat).
  exists (mk_batch (chunks ATTESTATION_PART (shuffle (admitted ++ pads))) (n * EPOCH_SECONDS) generation),
    over_cap, a', before, admitted, pads, n.
  split.
  { unfold attestation_batch, read_feed_m. unfold mbind at 1, M_bind at 1. cbv beta iota.
    rewrite M_bind_get, read_feed_period, M_bind_put, M_bind_get. fold epoch.
    change (set_period_start (read_feed a view) (Some (default epoch (ta_period_start a)))) with a1.
    rewrite M_bind_lift, En, M_bind_lift, due_Ok by done. fold l.
    rewrite M_bind_lift, Eb, M_bind_lift, Ea. cbv beta iota. fold np. rewrite Epad, M_bind_put.
    rewrite M_bind_lift. unfold batch_new. rewrite assert_bind; [done|].
    apply forallb_forall. intros p Hp. apply Nat.eqb_eq. rewrite list.Forall_forall in Hparts.
    by apply Hparts, list_elem_of_In. }
  unfold owners. cbn [ab_parts ab_expires_at]. rewrite Hcat. split_and!; try done; [|lia..].
  unfold l, owners_on_file in Hperm. by rewrite Eo, Ei in Hperm.
Qed.
End caps.
