(* ===== verification/MmfDelivery.v ===== *)
(** * Money-market-fund notes: from one wallet to the others

    The composition of [wallet.rs], [chain.rs] and [agent.rs]: a transfer
    built, submitted and mined is rebuilt into the view, read by the transfer
    agent through the feed and found by the recipient's scan; and a wallet's
    registration is accepted by the agent. *)

From Stdlib Require Import ZArith Lia Bool.
From stdpp Require Import base tactics list gmap strings numbers.
From S2P Require Import Prelude Field Types Poseidon MmfTypes MmfCurve MmfChain MmfWallet MmfOk MmfAgent.
From S2P Require Import MmfAgentOk MmfCaps.

(** The first or the second of a pair. *)
Definition side {A} (j : bool) (p : A * A) : A := if j then p.2 else p.1.

(** ** Rebuilding the view *)
Lemma fr_of_u256_to f : fr_of_u256 (fr_u256 f) = Ok f.
Proof.
  unfold fr_of_u256, fr_u256, fr_of_b256.
  rewrite be_of_to_Z by apply length_fr_to_be_bytes. by rewrite fr_try_to.
Qed.
Lemma fr_of_b256_to f : fr_of_b256 (fr_to_be_bytes f) = Ok f.
Proof. unfold fr_of_b256. by rewrite fr_try_to. Qed.

Lemma ct_slice_array fs j :
  (FEED_FIELDS * j + FEED_FIELDS ≤ length fs)%nat →
  ct_slice (u256_array fs) j = Ok (take FEED_FIELDS (drop (FEED_FIELDS * j) fs)).
Proof.
  intros Hl. unfold ct_slice.
  assert (∀ n acc, (n ≤ FEED_FIELDS)%nat →
    for_each (λ out i, u ← Prelude.index (u256_array fs) (FEED_FIELDS * j + i);
                       f ← fr_of_u256 u; Ok (out ++ [f])) acc (seq (FEED_FIELDS - n) n)
    = Ok (acc ++ take n (drop (FEED_FIELDS * j + (FEED_FIELDS - n)) fs))) as H.
  { induction n as [|n IH]; intros acc Hn; [cbn; by rewrite app_nil_r|].
    set (i := (FEED_FIELDS - S n)%nat).
    change (seq i (S n)) with (i :: seq (S i) n).
    replace (S i) with (FEED_FIELDS - n)%nat by (unfold i; lia).
    cbn [for_each]. destruct (lookup_lt_is_Some_2 fs (FEED_FIELDS * j + i)) as [f Hf]; [unfold i; lia|].
    unfold Prelude.index. rewrite (expect_bind _ (fr_u256 f)).
    2:{ unfold u256_array. change (map fr_u256) with (fmap (M:=list) fr_u256).
        by rewrite list_lookup_fmap, Hf. }
    rewrite fr_of_u256_to. cbn [mbind outcome_bind]. rewrite IH by lia.
    rewrite <-app_assoc. do 2 f_equal. rewrite (drop_S _ f _ Hf). cbn [take app].
    do 3 f_equal. unfold i. lia. }
  specialize (H FEED_FIELDS [] (le_n _)). rewrite Nat.sub_diag, Nat.add_0_r in H. exact H.
Qed.

(** The record of the [j]-th output of a transfer. *)
Definition transfer_record (w : TransferWitness) (payload : list byte) (version : Z) (leaf : nat)
  (j : bool) : NoteRecord :=
  mk_note_record (side j (tw_commitments_out w)) leaf (Nat.b2n j)
    (point_new (pt_x (tw_feed_r w)) (pt_y (tw_feed_r w)))
    (take FEED_FIELDS (drop (FEED_FIELDS * Nat.b2n j) (tw_feed_ct w))) payload version.

Lemma push_note_words s j cm (p : Point) fs payload :
  (FEED_FIELDS * j + FEED_FIELDS ≤ length fs)%nat →
  push_note s j cm (feed_r_words p) (u256_array fs) payload
  = Ok (mk_sync (sy_commitments s ++ [cm])
          (sy_notes s ++ [mk_note_record cm (length (sy_commitments s)) j
             (point_new (pt_x p) (pt_y p)) (take FEED_FIELDS (drop (FEED_FIELDS * j) fs)) payload
             (sy_key_version s)])
          (sy_nullifiers s) (sy_spends s) (sy_key_version s) (sy_withdrawals s)).
Proof.
  intros Hl. unfold push_note, point_of, feed_r_words. cbn [fst snd].
  rewrite !fr_of_u256_to. cbn [mbind outcome_bind]. by rewrite ct_slice_array.
Qed.

Lemma sync_step_transfer s w proof payload p tx :
  length (tw_feed_ct w) = (2 * FEED_FIELDS)%nat →
  submission_transfer (E:=unit) w proof payload = Ok (SubmitTransfer p) →
  ∃ s', sync_step s (mk_pool_log (Ok (transfer_log p)) tx) = Ok s'
    ∧ sy_notes s' = sy_notes s
        ++ [transfer_record w payload (sy_key_version s) (length (sy_commitments s)) false;
            transfer_record w payload (sy_key_version s) (S (length (sy_commitments s))) true].
Proof.
  intros Hl H. unfold submission_transfer in H. apply bind_Ok in H as (u & _ & H).
  apply (inj Ok) in H. injection H as <-. unfold sync_step, transfer_log. cbn [lg_event tpm_nullifier0
    tpm_nullifier1 tpm_commitmentOut0 tpm_commitmentOut1 tpm_feedR tpm_feedCt tpm_recipientPayload].
  rewrite Ok_bind, !fr_of_b256_to, !Ok_bind.
  rewrite push_note_words by (rewrite Hl; unfold FEED_FIELDS, NOTE_FIELDS; lia). rewrite Ok_bind.
  rewrite push_note_words by (rewrite Hl; unfold FEED_FIELDS, NOTE_FIELDS; lia). rewrite Ok_bind.
  eexists. split; [done|]. cbn [add_spend sy_notes sy_commitments sy_key_version].
  rewrite <-app_assoc, length_app, Nat.add_1_r. done.
Qed.

Lemma push_note_prefix s j cm R ct payload s' :
  push_note s j cm R ct payload = Ok s' → sy_notes s `prefix_of` sy_notes s'.
Proof.
  unfold push_note. intros H. apply bind_Ok in H as (r & _ & H). apply bind_Ok in H as (c & _ & H).
  apply (inj Ok) in H. subst s'. by eexists.
Qed.

Lemma sync_step_prefix s log s' : sync_step s log = Ok s' → sy_notes s `prefix_of` sy_notes s'.
Proof.
  unfold sync_step. intros H. apply bind_Ok in H as (e & _ & H). destruct e.
  - apply bind_Ok in H as (cm & _ & H). by eapply push_note_prefix.
  - do 4 (apply bind_Ok in H as (? & _ & H)).
    apply bind_Ok in H as (s1 & H1 & H). apply bind_Ok in H as (s2 & H2 & H).
    apply (inj Ok) in H. subst s'. cbn [add_spend sy_notes].
    etrans; by eapply push_note_prefix.
  - apply bind_Ok in H as (n & _ & H). apply (inj Ok) in H. by subst s'.
  - apply (inj Ok) in H. by subst s'.
  - apply (inj Ok) in H. by subst s'.
Qed.

Lemma sync_loop_prefix logs s s' :
  for_each sync_step s logs = Ok s' → sy_notes s `prefix_of` sy_notes s'.
Proof.
  revert s. induction logs as [|log logs IH]; intros s H; cbn [for_each] in H.
  { apply (inj Ok) in H. by subst. }
  apply bind_Ok in H as (s1 & H1 & H). etrans; [by eapply sync_step_prefix|by apply IH].
Qed.

Lemma sync_notes `{C : Crypto} {T} {RT : RotorTree T} logs outs atts (view : ChainView T) :
  sync logs outs atts = Ok view → ∃ s, for_each sync_step sync_start logs = Ok s ∧ cv_notes view = sy_notes s.
Proof.
  unfold sync. intros H. apply bind_Ok in H as (s & Hs & H). exists s. split; [done|].
  apply bind_Ok in H as (o & _ & H). apply bind_Ok in H as ([[at_ rec] un] & _ & H).
  apply bind_Ok in H as (c & _ & H). apply bind_Ok in H as (t & _ & H).
  apply (inj Ok) in H. by subst view.
Qed.

(** ** Scanning *)
#[export] Instance NoteRecord_eq_dec : EqDecision NoteRecord.
Proof. solve_decision. Defined.

(** With distinct commitments, a commitment names one record. *)
Lemma distinct_records (l : list NoteRecord) r r' :
  NoDup (map nr_commitment l) → r ∈ l → r' ∈ l → nr_commitment r' = nr_commitment r → r' = r.
Proof.
  intros Hnd [i Hi]%list_elem_of_lookup [i' Hi']%list_elem_of_lookup E.
  assert (i' = i) as ->; [|congruence].
  eapply (NoDup_lookup _ i' i (nr_commitment r) Hnd);
    change (map nr_commitment) with (fmap (M:=list) nr_commitment);
    rewrite list_lookup_fmap, ?Hi, ?Hi'; cbn [fmap option_fmap option_map]; congruence.
Qed.
Section scan.
Context `{C : Crypto} {FI : FrInverse} {T : Type} {RT : RotorTree T}.
Context {SK PK Sg VK VPK Env : Type} {KC : Custody SK PK Sg VK VPK Env}.

Lemma scan_step_cases (keys : WalletKeys VK) notes r :
  scan_step keys notes r = notes
  ∨ ∃ n, on_commitment n = nr_commitment r ∧ scan_step keys notes r = notes ++ [n].
Proof.
  unfold scan_step. case_match; [by left|]. case_match; [|by left]. destruct p as [n o].
  case_match; [right; eexists; split; [|reflexivity]; done|by left].
Qed.

Lemma scan_loop_held (keys : WalletKeys VK) l notes :
  notes `prefix_of` foldl (scan_step keys) notes l
  ∧ ∀ c, c ∈ map on_commitment (foldl (scan_step keys) notes l) →
      c ∈ map on_commitment notes ∨ c ∈ map nr_commitment l.
Proof.
  revert notes. induction l as [|r l IH]; intros notes; cbn [foldl].
  { split; [done|by left]. }
  destruct (IH (scan_step keys notes r)) as [Hp Hc].
  destruct (scan_step_cases keys notes r) as [E|(n & En & E)]; rewrite E in *.
  - split; [done|]. intros c [?|?]%Hc; [by left|right]. by right.
  - split; [etrans; [|done]; by eexists|]. intros c [Hn|?]%Hc; [|by right; right].
    rewrite map_app, elem_of_app in Hn. destruct Hn as [?|Hn]; [by left|right].
    cbn in Hn. apply list_elem_of_singleton in Hn as ->. rewrite En. left.
Qed.

Lemma scan_finds (w : Wallet VK) (view : ChainView T) r n opening :
  (∀ r', r' ∈ cv_notes view → nr_commitment r' = nr_commitment r → r' = r) → r ∈ cv_notes view →
  (nr_commitment r ∉ map on_commitment (wa_notes w)) →
  decrypt_payload (wk_view (wa_keys w)) (nr_payload r) (nr_output r) = Some (n, opening) →
  nt_owner n = wallet_owner w → commitment n = nr_commitment r →
  mk_owned n opening (nr_commitment r) (nr_leaf_index r)
    (bool_decide (nullifier (nr_commitment r) (wk_nk (wa_keys w)) ∈ cv_nullifiers view))
  ∈ wa_notes (scan w view).
Proof.
  intros Hone Hr Hfresh Hd Ho Hc.
  apply list_elem_of_split_l in Hr as (l1 & l2 & El & Hfirst). unfold scan. cbn [wa_notes]. rewrite El in *.
  rewrite foldl_app. cbn [foldl]. set (held := foldl (scan_step (wa_keys w)) (wa_notes w) l1).
  assert (nr_commitment r ∉ map on_commitment held) as Hn.
  { intros H. apply (proj2 (scan_loop_held _ _ _)) in H as [?|Hl]; [done|].
    apply list_elem_of_In, in_map_iff in Hl as (r' & E & Hl%list_elem_of_In).
    apply Hfirst. rewrite <-(Hone r'); [done|by apply elem_of_app; left|done]. }
  apply existsb_fr_false in Hn. unfold scan_step at 2. rewrite Hn, Hd.
  replace (fr_eqb (nt_owner n) (wallet_keys_owner (wa_keys w))) with true
    by (symmetry; by apply fr_eqb_eq).
  replace (fr_eqb (commitment n) (nr_commitment r)) with true by (symmetry; by apply fr_eqb_eq).
  cbn [andb]. set (new := mk_owned n opening (nr_commitment r) (nr_leaf_index r) false).
  destruct (scan_loop_held (wa_keys w) l2 (held ++ [new])) as [[k ->] _].
  apply list_elem_of_In, in_map_iff. exists new. split; [done|]. apply list_elem_of_In.
  rewrite !elem_of_app, list_elem_of_singleton. auto.
Qed.
End scan.

(** ** What a built transfer carries *)
Section delivery.
Context `{C : Crypto} {FI : FrInverse} {FL : FrInverseLaws} {T : Type} {RT : RotorTree T}.
Context {SK PK Sg VK VPK Env : Type} {KC : Custody SK PK Sg VK VPK Env}.
Context {KL : CustodyLaws SK PK Sg VK VPK Env}.
Context {G : Type} {PS : PlanSigner G}.

Lemma prepare_transfer_Ok draws (spec : TransferSpec VPK) env p :
  prepare_transfer draws spec env = Ok p →
  let o := ts_outputs spec in
  let n0 := output_note env o.1 (td_salts draws).1 in
  let n1 := output_note env o.2 (td_salts draws).2 in
  pd_outputs p = (n0, n1) ∧ pd_output_locks p = (out_opening o.1, out_opening o.2)
  ∧ pl_outputs (pd_plan p) = (commitment n0, commitment n1)
  ∧ pd_payload p = encrypt_payload [(n0, out_opening o.1, out_vpk o.1, (td_seals draws).1);
                                    (n1, out_opening o.2, out_vpk o.2, (td_seals draws).2)].
Proof.
  unfold prepare_transfer. intros H. apply bind_Ok in H as (u & _ & H).
  apply bind_Ok in H as (f & _ & H). apply bind_Ok in H as (s & _ & H).
  destruct (ts_outputs spec) as [o0 o1]. apply (inj Ok) in H. by subst p.
Qed.

Lemma finish_transfer_Ok r p signature (view : ChainView T) env b :
  finish_transfer r p signature view env = Ok b →
  let n := pd_outputs p in
  let l := pd_output_locks p in
  let dk := derive r (en_register_key env) in
  bt_outputs b = n ∧ bt_payload b = pd_payload p
  ∧ tw_commitments_out (bt_witness b) = pl_outputs (pd_plan p)
  ∧ tw_feed_r (bt_witness b) = dk.1
  ∧ tw_feed_ct (bt_witness b) = feed_encrypt dk.2 (feed_fields n.1 l.1) 0
                                ++ feed_encrypt dk.2 (feed_fields n.2 l.2) 1.
Proof.
  unfold finish_transfer. intros H. apply bind_Ok in H as (u & _ & H).
  apply bind_Ok in H as (ins & _ & H). apply bind_Ok in H as (ia & _ & H).
  destruct (pd_outputs p) as [n0 n1], (pd_output_locks p) as [l0 l1].
  apply bind_Ok in H as (a0 & _ & H). apply bind_Ok in H as (a1 & _ & H).
  destruct (derive r (en_register_key env)) as [R k].
  apply bind_Ok in H as (i0 & _ & H). apply bind_Ok in H as (i1 & _ & H).
  apply (inj Ok) in H. by subst b.
Qed.

(** What the [j]-th output of a specification becomes. *)
Definition spec_note (draws : TransferDraws) (spec : TransferSpec VPK) env (j : bool) : Note :=
  output_note env (side j (ts_outputs spec)) (side j (td_salts draws)).

Lemma build_transfer_Ok draws spec (signer : G) (view : ChainView T) env b :
  build_transfer draws spec signer view env = Ok b →
  let n0 := spec_note draws spec env false in
  let n1 := spec_note draws spec env true in
  let o := ts_outputs spec in
  let dk := derive (td_feed draws) (en_register_key env) in
  tw_commitments_out (bt_witness b) = (commitment n0, commitment n1)
  ∧ bt_payload b = encrypt_payload [(n0, out_opening o.1, out_vpk o.1, (td_seals draws).1);
                                    (n1, out_opening o.2, out_vpk o.2, (td_seals draws).2)]
  ∧ tw_feed_r (bt_witness b) = dk.1
  ∧ tw_feed_ct (bt_witness b) = feed_encrypt dk.2 (feed_fields n0 (out_opening o.1)) 0
                                ++ feed_encrypt dk.2 (feed_fields n1 (out_opening o.2)) 1.
Proof.
  unfold build_transfer. intros H. apply bind_Ok in H as (p & Hp & H).
  apply bind_Ok in H as (sg & _ & H).
  apply prepare_transfer_Ok in Hp as (En & El & Eo & Ep).
  apply finish_transfer_Ok in H as (_ & Epl & Ec & Er & Ect).
  cbv zeta. rewrite Ec, Epl, Er, Ect, En, El, Eo, Ep. done.
Qed.

Definition output_typed (o : Output VPK) : Prop := is_u64 (out_units o) ∧ lock_typed (out_opening o).

(** The feed of either output opens to its note under the register key. *)
Lemma built_opens draws spec (signer : G) (view : ChainView T) env b tk version leaf j :
  build_transfer draws spec signer view env = Ok b →
  en_register_key env = public_point tk → secret_typed (td_feed draws) → secret_typed tk →
  pt_infinity (public_point (td_feed draws)) = false →
  output_typed (ts_outputs spec).1 → output_typed (ts_outputs spec).2 →
  open_record (transfer_record (bt_witness b) (bt_payload b) version leaf j) tk
  = Some (spec_note draws spec env j, out_opening (side j (ts_outputs spec))).
Proof.
  intros Hb Hk Hr Htk Hinf H0 H1. apply build_transfer_Ok in Hb as (Ec & _ & Er & Ect).
  unfold open_record, transfer_record. cbn [nr_feed_r nr_feed_ct nr_output nr_commitment].
  rewrite Ec, Er, Ect, Hk.
  assert (∀ p, pt_infinity p = false → point_new (pt_x p) (pt_y p) = p) as Hp.
  { intros [x y i]; cbn. by intros ->. }
  unfold derive. cbn [fst snd]. rewrite Hp by done.
  set (k := key_of _). set (R := public_point (td_feed draws)).
  assert (∀ n terms i, note_typed n → lock_typed terms →
    feed_open (feed_decrypt tk R (feed_encrypt k (feed_fields n terms) i) i) = Some (n, terms)) as Hopen.
  { intros n terms i Hn Ht. rewrite feed_decrypt_encrypt by (unfold R, k; by rewrite shared_point).
    by apply feed_open_fields. }
  destruct H0 as [Hu0 Hl0], H1 as [Hu1 Hl1].
  destruct j; cbn [side Nat.b2n fst snd].
  - rewrite (drop_app_length' _ _ (FEED_FIELDS * 1)), take_ge
      by (rewrite length_feed_encrypt; done).
    rewrite Hopen by done. cbn [mbind option_bind]. cbn [fst].
    by rewrite (proj2 (fr_eqb_eq _ _) eq_refl).
  - rewrite drop_0, (take_app_length' _ _ FEED_FIELDS) by (rewrite length_feed_encrypt; done).
    rewrite Hopen by done. cbn [mbind option_bind]. cbn [fst].
    by rewrite (proj2 (fr_eqb_eq _ _) eq_refl).
Qed.

(** The payload of either output opens to its note under the recipient's key. *)
Lemma built_decrypts draws spec (signer : G) (view : ChainView T) env b vk j :
  build_transfer draws spec signer view env = Ok b →
  output_typed (ts_outputs spec).1 → output_typed (ts_outputs spec).2 →
  out_vpk (side j (ts_outputs spec)) = v_public vk →
  decrypt_payload vk (bt_payload b) (Nat.b2n j)
  = Some (spec_note draws spec env j, out_opening (side j (ts_outputs spec))).
Proof.
  intros Hb [Hu0 Hl0] [Hu1 Hl1] Hv. apply build_transfer_Ok in Hb as (_ & -> & _).
  destruct j; cbn [side fst snd Nat.b2n] in *.
  - eapply decrypt_payload_Some; [cbn; by rewrite Hv|done..].
  - eapply decrypt_payload_Some; [cbn; by rewrite Hv|done..].
Qed.

(** The transfer's records are in the view. *)
Lemma mined_records b proof p logs1 logs2 outs atts tx s1 (view' : ChainView T) j :
  length (tw_feed_ct (bt_witness b)) = (2 * FEED_FIELDS)%nat →
  submission_transfer (E:=unit) (bt_witness b) proof (bt_payload b) = Ok (SubmitTransfer p) →
  for_each sync_step sync_start logs1 = Ok s1 →
  sync (logs1 ++ mk_pool_log (Ok (transfer_log p)) tx :: logs2) outs atts = Ok view' →
  ∃ leaf, transfer_record (bt_witness b) (bt_payload b) (sy_key_version s1) leaf j ∈ cv_notes view'.
Proof.
  intros Hl Hp H1 Hsync. apply sync_notes in Hsync as (s & Hs & ->).
  rewrite for_each_app, H1, Ok_bind in Hs. cbn [for_each] in Hs.
  destruct (sync_step_transfer s1 _ _ _ _ tx Hl Hp) as (s2 & E2 & En). rewrite E2, Ok_bind in Hs.
  apply sync_loop_prefix in Hs as [k ->]. rewrite En.
  destruct j; eexists; rewrite !elem_of_app; left; right; [right; left|left].
Qed.

Lemma built_feed_length draws spec (signer : G) (view : ChainView T) env b :
  build_transfer draws spec signer view env = Ok b →
  length (tw_feed_ct (bt_witness b)) = (2 * FEED_FIELDS)%nat.
Proof.
  intros (_ & _ & _ & ->)%build_transfer_Ok. rewrite length_app, !length_feed_encrypt. done.
Qed.

(** C12: A transfer a wallet or the agent built, once submitted and mined,
    reaches both readers.  After the view is rebuilt from the pool's logs, the
    agent that holds the register key in force reads from the feed, into its
    register, exactly the note each output specifies, with its lock terms and
    under the holder on file for its owner; and a recipient whose viewing key
    and owner value an output names finds the same note, at the same leaf, by
    scanning the payload.  The two sides' shared feed point agrees by the group
    law of the curve ([shared_point]), from the inverse law of the field alone.
    Conditions: the transfer was built for the register key in force when it is
    mined; the feed secrets are pairs of 128-bit halves and the drawn one does
    not multiply the generator to the neutral element, which has no coordinates
    to publish; units and lock terms fit their 64-bit fields; the note's
    commitment is new to the register and to the recipient's wallet and no
    other note of the chain has it (salts are drawn at random, and scan and
    feed both skip a commitment they already hold); and the register's own
    commitments are distinct, which the agent's invariant gives. *)
Theorem transfer_delivered draws spec (signer : G) (view : ChainView T) env b proof p logs1 logs2
  outs atts tx s1 (view' : ChainView T) (a : TransferAgent SK VK VPK) tk j :
  build_transfer draws spec signer view env = Ok b →
  submission_transfer (E:=unit) (bt_witness b) proof (bt_payload b) = Ok (SubmitTransfer p) →
  for_each sync_step sync_start logs1 = Ok s1 →
  sync (logs1 ++ mk_pool_log (Ok (transfer_log p)) tx :: logs2) outs atts = Ok view' →
  bt_get (sy_key_version s1) (ta_register_keys a) = Some tk →
  en_register_key env = public_point tk →
  secret_typed (td_feed draws) → secret_typed tk → pt_infinity (public_point (td_feed draws)) = false →
  output_typed (ts_outputs spec).1 → output_typed (ts_outputs spec).2 →
  let n := spec_note draws spec env j in
  let o := side j (ts_outputs spec) in
  (∀ r r', r ∈ cv_notes view' → r' ∈ cv_notes view' →
     nr_commitment r = commitment n → nr_commitment r' = commitment n → r' = r) →
  NoDup (commitments_of (ta_register a)) → (commitment n ∉ commitments_of (ta_register a)) →
  nt_units n = out_units o ∧ nt_owner n = out_owner o
  ∧ ∃ e, e ∈ ta_register (read_feed a view') ∧ re_note e = n ∧ re_opening e = out_opening o
      ∧ re_commitment e = commitment n ∧ re_holder e = holder_of a (out_owner o)
      ∧ ∀ w : Wallet VK, out_vpk o = wallet_vpk w → out_owner o = wallet_owner w →
          (commitment n ∉ map on_commitment (wa_notes w)) →
          ∃ m, m ∈ wa_notes (scan w view') ∧ on_note m = n ∧ on_opening m = out_opening o
            ∧ on_leaf_index m = re_leaf_index e.
Proof.
  intros Hb Hp H1 Hsync Hkv Hk Hds Hts Hinf T0 T1 n o Hnd Hreg Hfresh.
  split; [done|]. split; [done|].
  destruct (mined_records b proof p logs1 logs2 outs atts tx s1 view' j) as [leaf Hr];
    [by eapply built_feed_length|done..|].
  set (r := transfer_record _ _ _ _ _) in Hr.
  assert (nr_commitment r = commitment n) as Hcm.
  { apply build_transfer_Ok in Hb as (Ec & _). unfold r, n. cbn. rewrite Ec. by destruct j. }
  assert (feed_opened a r = Some (n, out_opening o)) as Hopen.
  { rewrite (feed_opened_key a r tk) by done. by eapply built_opens. }
  assert (∀ r', r' ∈ cv_notes view' → nr_commitment r' = nr_commitment r → r' = r) as Hone.
  { intros r' Hr' E. apply Hnd; congruence. }
  eexists. split; [apply read_feed_entry; try done; by rewrite Hcm|].
  cbn [mark_entry re_note re_opening re_commitment re_holder re_leaf_index]. split_and!; [done..|].
  intros w Hv Ho Hw. eexists. split.
  { apply (scan_finds w view' r n (out_opening o)); try done; [by rewrite Hcm|].
    unfold r. cbn [transfer_record nr_payload nr_output]. by eapply built_decrypts. }
  done.
Qed.
End delivery.

(** ** Onboarding *)
Section onboarding.
Context `{C : Crypto} {FI : FrInverse} {T : Type} {RT : RotorTree T}.
Context {SK PK Sg VK VPK Env : Type} {KC : Custody SK PK Sg VK VPK Env}.
Context {KL : CustodyLaws SK PK Sg VK VPK Env}.
Implicit Types (a : TransferAgent SK VK VPK).

Lemma registration_verified (sk : SK) (r : Registration VPK) sg :
  sign_registration sk r = Ok sg → registration_verify r sg = Ok tt.
Proof.
  unfold sign_registration, registration_verify. intros H. apply bind_Ok in H as (u & Hu & H).
  apply ensure_Ok, bool_decide_eq_true in Hu. apply (inj Ok) in H as <-. rewrite Hu.
  unfold public_key. cbn [pk_x pk_y]. rewrite k_from_coords. cbn [ok_or]. rewrite Ok_bind.
  unfold sign_digest. rewrite k_sig_from_bytes. cbn [ok_or]. rewrite Ok_bind.
  by rewrite k_verify_signed.
Qed.

(** A registration on file. *)
Lemma onboard_Ok id env (r : Registration VPK) sg nk a :
  investor_id_new id = Ok id → is_Some (ta_jurisdictions a !! id) →
  rg_chain_id r = en_chain_id env → rg_pool r = en_pool env → rg_investor_id r = id →
  nk ≠ fr_zero → nk_hash nk = rg_nk_hash r → registration_verify r sg = Ok tt →
  (∀ rec, bt_get (fr_to_be_bytes (owner_value (rg_pk r) nk)) (ta_investors a) = Some rec →
     ir_holder rec = Investor id) →
  onboard id env r sg nk a
  = (Ok (owner_value (rg_pk r) nk), (record_owner (Investor id) (rg_pk r) nk (rg_vpk r) a).2).
Proof.
  intros Hid Hj Hc Hp Hi Hz Hh Hv Hr. unfold onboard.
  rewrite M_bind_get, M_bind_lift, Hid, M_bind_lift, bool_decide_eq_true_2 by done. cbn [ensure].
  assert (registration_matches env id r = true) as ->.
  { unfold registration_matches. rewrite Hc, Hp, Hi, Z.eqb_refl, String.eqb_refl.
    by rewrite bool_decide_eq_true_2. }
  rewrite M_bind_lift. cbn [ensure]. rewrite M_bind_lift.
  rewrite (proj2 (fr_eqb_neq _ _) Hz), (proj2 (fr_eqb_eq _ _) Hh). cbn [negb orb ensure].
  rewrite M_bind_lift, Hv. cbn [map_err]. rewrite M_bind_lift.
  assert (from_option (λ rec, bool_decide (ir_holder rec = Investor id)) true
    (bt_get (fr_to_be_bytes (owner_value (rg_pk r) nk)) (ta_investors a)) = true) as ->.
  { destruct (bt_get _ _) as [rec|]; [|done]. cbn. apply bool_decide_eq_true_2. by apply Hr. }
  done.
Qed.

(** C22: Onboarding goes through: a wallet's registration for the investor ID
    the agent verified, signed by the custody signer of the wallet's own keys,
    is accepted with the wallet's nullifier key, unless the owner value is
    already another investor's; the agent then has the owner value, which the
    wallet computes too, on file under that investor, with the keys that
    recognise and claim its notes and the viewing key they are delivered to. *)
Theorem onboarding_accepted (k : OwnerKeys SK VK) env id jurisdiction sg a :
  investor_id_new id = Ok id → ok_nk k ≠ fr_zero →
  let '(signer, keys) := split k in
  let w := wallet_new keys in
  let a1 := (verify_investor id jurisdiction a).2 in
  sign_registration signer (registration w env id) = Ok sg →
  (∀ rec, bt_get (fr_to_be_bytes (wallet_owner w)) (ta_investors a) = Some rec →
     ir_holder rec = Investor id) →
  wallet_owner w ≠ agent_owner a →
  ∃ a2, onboard id env (registration w env id) sg (ok_nk k) a1 = (Ok (wallet_owner w), a2)
    ∧ wallet_owner w = owner_keys_owner k
    ∧ holder_of a2 (wallet_owner w) = Some (Investor id)
    ∧ nk_of a2 (wallet_owner w) = Some (wk_nk keys)
    ∧ bt_get (fr_to_be_bytes (wallet_owner w)) (ta_investors a2)
      = Some (mk_investor (Investor id) (public_key signer) (wk_nk keys) (wallet_vpk w)).
Proof.
  intros Hid Hz. unfold split. intros Hs Hr Ho.
  set (w := wallet_new _) in *. set (a1 := (verify_investor id jurisdiction a).2) in *.
  assert (a1 = set_jurisdictions a (<[id := jurisdiction]> (ta_jurisdictions a))) as Ea1.
  { unfold a1, verify_investor. by rewrite M_bind_get, M_bind_lift, Hid. }
  assert (ta_investors a1 = ta_investors a) as Ei by by rewrite Ea1.
  assert (agent_owner a1 = agent_owner a) as Eo by by rewrite Ea1.
  exists (record_owner (Investor id) (public_key (ok_spend k)) (ok_nk k) (wallet_vpk w) a1).2.
  assert (∀ x, bt_get x (ta_investors
    (record_owner (Investor id) (public_key (ok_spend k)) (ok_nk k) (wallet_vpk w) a1).2)
    = if decide (x = fr_to_be_bytes (wallet_owner w))
      then Some (mk_investor (Investor id) (public_key (ok_spend k)) (ok_nk k) (wallet_vpk w))
      else bt_get x (ta_investors a1)) as Hg.
  { intros x. apply bt_get_insert; [apply bytes_ltb_irr|apply bytes_ltb_total]. }
  specialize (Hg (fr_to_be_bytes (wallet_owner w))). rewrite decide_True in Hg by done.
  assert (fr_eqb (wallet_owner w) (agent_owner
    (record_owner (Investor id) (public_key (ok_spend k)) (ok_nk k) (wallet_vpk w) a1).2) = false) as Hne.
  { apply fr_eqb_neq. change (wallet_owner w ≠ agent_owner a1). by rewrite Eo. }
  split_and!; [|done| | |exact Hg].
  - apply registration_verified in Hs.
    apply (onboard_Ok id env (registration w env id) sg (ok_nk k) a1); try done.
    + rewrite Ea1. cbn. rewrite lookup_insert_eq. by eexists.
    + rewrite Ei. exact Hr.
  - unfold holder_of. by rewrite Hne, Hg.
  - unfold nk_of. by rewrite Hne, Hg.
Qed.
End onboarding.
