(* ===== verification/MmfChainOk.v ===== *)
(** * Money-market-fund notes: the rebuilt view

    That [ChainView::sync] of [chain.rs] numbers the notes as the tree does,
    that every note of the view has a proof that leads to the root
    ([domain/tree.rs]), and that the matching of withdrawals is exact. *)

From Stdlib Require Import ZArith Lia Bool.
From stdpp Require Import base tactics list gmap strings numbers.
From S2P Require Import Prelude Field Types Poseidon MmfTypes MmfChain MmfWallet MmfOk.

(** ** Proofs *)
Section tree_ok.
Context `{C : Crypto} {T : Type} {RT : RotorTree T} {RL : RotorLaws T}.

Lemma fold_proof_levels levels node :
  fr_from_be_bytes (foldl level_fold node levels)
  = fold_proof (omap level_step levels : list Step) (fr_from_be_bytes node).
Proof.
  revert node. induction levels as [|[sibs pos] levels IH]; intros node; cbn [foldl]; [done|].
  rewrite IH. unfold level_fold. cbn [rv_siblings rv_position].
  destruct sibs as [|s sibs]; [done|].
  change (omap level_step (mk_rotor_level (s :: sibs) pos :: levels))
    with (mk_step (fr_from_be_bytes s) (pos =? 1) :: (omap level_step levels : list Step)).
  unfold fold_proof at 2. cbn [foldl st_is_right st_sibling]. fold (fold_proof (omap level_step levels)).
  unfold fold_proof. f_equal. destruct (pos =? 1); unfold tree_node; by rewrite fr_from_to_be_bytes.
Qed.

(** A tree that holds its leaves. *)
Definition tree_ok (t : LeanTree T) : Prop :=
  rotor_content (lt_tree t) = map fr_to_be_bytes (lt_leaves t).

Lemma from_leaves_ok {E} leaves t :
  from_leaves (E:=E) leaves = Ok t → tree_ok t ∧ lt_leaves t = leaves.
Proof.
  unfold from_leaves, extend, tree_ok. case_match eqn:El.
  - intros H. apply (inj Ok) in H as <-. destruct leaves; [|done].
    split; [apply rotor_content_new|done].
  - intros H. apply bind_Ok in H as (t' & Ht & H). apply expect_Ok in Ht. apply (inj Ok) in H as <-.
    split; [|done]. cbn [lt_tree lt_leaves lean_tree_new app] in *.
    rewrite (rotor_content_insert _ _ _ Ht), rotor_content_new. done.
Qed.

Lemma proof_root t i l :
  tree_ok t → lt_leaves t !! i = Some l →
  ∃ p, proof t i = Some p ∧ fold_proof p l = root t.
Proof.
  intros Ht Hl. pose proof (lookup_lt_Some _ _ _ Hl) as Hi.
  assert (rotor_content (lt_tree t) !! i = Some (fr_to_be_bytes l)) as Hc.
  { rewrite Ht. change (map fr_to_be_bytes) with (fmap (M:=list) fr_to_be_bytes).
    by rewrite list_lookup_fmap, Hl. }
  assert (is_Some (rotor_generate_proof (lt_tree t) (Z.of_nat i))) as [levels Hg].
  { apply rotor_proof_Some. by apply lookup_lt_Some in Hc. }
  exists (omap level_step levels). unfold proof, root. rewrite Hg. split; [done|].
  rewrite (rotor_proof_root _ _ _ _ Hc Hg). cbn [from_option].
  by rewrite fold_proof_levels, fr_from_to_be_bytes.
Qed.
End tree_ok.

(** ** The accumulators of the loop *)
Record sync_inv (s : SyncState) : Prop := {
  si_leaves : sy_commitments s = map nr_commitment (sy_notes s);
  si_index i r : sy_notes s !! i = Some r → nr_leaf_index r = i;
  si_nullifiers : sy_nullifiers s = list_to_set (concat (map sp_nullifiers (sy_spends s)));
}.

Lemma push_note_Ok s j cm R ct payload s' :
  push_note s j cm R ct payload = Ok s' →
  ∃ r, nr_commitment r = cm ∧ nr_leaf_index r = length (sy_commitments s)
    ∧ sy_commitments s' = sy_commitments s ++ [cm] ∧ sy_notes s' = sy_notes s ++ [r]
    ∧ sy_nullifiers s' = sy_nullifiers s ∧ sy_spends s' = sy_spends s.
Proof.
  unfold push_note. intros H. apply bind_Ok in H as (r & _ & H). apply bind_Ok in H as (c & _ & H).
  apply (inj Ok) in H. subst s'.
  exists (mk_note_record cm (length (sy_commitments s)) j r c payload (sy_key_version s)).
  split_and!; reflexivity.
Qed.

Lemma push_note_inv s j cm R ct payload s' :
  sync_inv s → push_note s j cm R ct payload = Ok s' → sync_inv s'.
Proof.
  intros [Hl Hi Hn] (r & Ec & Ei & E1 & E2 & E3 & E4)%push_note_Ok.
  constructor; rewrite ?E1, ?E2, ?E3, ?E4; [|clear Hn|exact Hn].
  - by rewrite map_app, Hl, <-Ec.
  - intros i x Hx. apply lookup_app_Some in Hx as [Hx|[Hge Hx]]; [by apply Hi|].
    apply list_lookup_singleton_Some in Hx as [Hz <-]. rewrite Ei, Hl, length_map. lia.
Qed.

Lemma add_spend_inv s ns os u ws : sync_inv s → sync_inv (add_spend s ns os u ws).
Proof.
  intros [Hl Hi Hn]. constructor; cbn [sy_commitments sy_notes sy_nullifiers sy_spends sy_key_version sy_withdrawals add_spend sync_start]; [done|done|].
  rewrite map_app, concat_app, list_to_set_app_L, Hn. cbn [map concat sp_nullifiers]. by rewrite app_nil_r.
Qed.

Lemma sync_step_inv s log s' : sync_inv s → sync_step s log = Ok s' → sync_inv s'.
Proof.
  intros Hs H. unfold sync_step in H. apply bind_Ok in H as (e & _ & H). destruct e.
  - apply bind_Ok in H as (cm & _ & H). by eapply push_note_inv.
  - do 4 (apply bind_Ok in H as (? & _ & H)).
    apply bind_Ok in H as (s1 & H1 & H). apply bind_Ok in H as (s2 & H2 & H).
    apply (inj Ok) in H. subst s'. apply add_spend_inv. eauto using push_note_inv.
  - apply bind_Ok in H as (n & _ & H). apply (inj Ok) in H. subst s'. by apply add_spend_inv.
  - apply (inj Ok) in H. subst s'. by destruct Hs.
  - apply (inj Ok) in H. by subst s'.
Qed.

Lemma sync_loop_inv logs s s' : sync_inv s → for_each sync_step s logs = Ok s' → sync_inv s'.
Proof.
  revert s. induction logs as [|log logs IH]; intros s Hs H; cbn [for_each] in H.
  { apply (inj Ok) in H. by subst. }
  apply bind_Ok in H as (s1 & H1 & H). eauto using sync_step_inv.
Qed.

Section view.
Context `{C : Crypto} {T : Type} {RT : RotorTree T} {RL : RotorLaws T}.

Record view_inv (view : ChainView T) : Prop := {
  vi_tree : tree_ok (cv_commitments view);
  vi_leaves : lt_leaves (cv_commitments view) = map nr_commitment (cv_notes view);
  vi_index i r : cv_notes view !! i = Some r → nr_leaf_index r = i;
  vi_nullifiers : cv_nullifiers view = list_to_set (concat (map sp_nullifiers (cv_spends view)));
}.

Lemma sync_view_inv logs outs atts (view : ChainView T) :
  sync logs outs atts = Ok view → view_inv view.
Proof.
  unfold sync. intros H. apply bind_Ok in H as (s & Hs & H).
  apply bind_Ok in H as (o & _ & H). apply bind_Ok in H as ([[at_ rec] un] & _ & H).
  apply bind_Ok in H as (c & Hc & H). apply bind_Ok in H as (t & _ & H).
  apply (inj Ok) in H. subst view. apply sync_loop_inv in Hs as [Hl Hi Hn]; [|by constructor].
  apply from_leaves_ok in Hc as [Hc Hcl].
  constructor; cbn [cv_commitments cv_notes cv_nullifiers cv_spends]; [exact Hc|by rewrite Hcl|exact Hi|exact Hn].
Qed.

Lemma view_proof (view : ChainView T) r :
  view_inv view → r ∈ cv_notes view →
  ∃ p, proof (cv_commitments view) (nr_leaf_index r) = Some p
    ∧ fold_proof p (nr_commitment r) = root (cv_commitments view)
    ∧ lt_leaves (cv_commitments view) !! nr_leaf_index r = Some (nr_commitment r).
Proof.
  intros [Ht Hl Hi _] [i Hr]%list_elem_of_lookup. rewrite (Hi i r Hr).
  assert (lt_leaves (cv_commitments view) !! i = Some (nr_commitment r)) as Hli.
  { rewrite Hl. change (map nr_commitment) with (fmap (M:=list) nr_commitment).
    by rewrite list_lookup_fmap, Hr. }
  destruct (proof_root _ i (nr_commitment r) Ht Hli) as (p & ? & ?). eauto.
Qed.
End view.

(** ** Notes found can be spent *)
Section scanned.
Context `{C : Crypto} {FI : FrInverse} {T : Type} {RT : RotorTree T} {RL : RotorLaws T}.
Context {SK PK Sg VK VPK Env : Type} {KC : Custody SK PK Sg VK VPK Env}.

(** A note held comes from a record of the view. *)
Definition noted (view : ChainView T) (n : OwnedNote) : Prop :=
  ∃ r, r ∈ cv_notes view ∧ nr_commitment r = on_commitment n ∧ nr_leaf_index r = on_leaf_index n.

Lemma scan_loop_noted (keys : WalletKeys VK) view l notes :
  (∀ r, r ∈ l → r ∈ cv_notes view) → (∀ n, n ∈ notes → noted view n) →
  ∀ n, n ∈ foldl (scan_step keys) notes l → noted view n.
Proof.
  revert notes. induction l as [|r l IH]; intros notes Hl Hn; cbn [foldl]; [done|].
  apply IH; [intros; apply Hl; by right|]. unfold scan_step. case_match; [done|].
  case_match; [|done]. destruct p as [m o]. case_match; [|done].
  intros n [?| ->%list_elem_of_singleton]%elem_of_app; [by apply Hn|].
  exists r. split; [apply Hl; left|done].
Qed.

Lemma input_Ok (view : ChainView T) n :
  view_inv view → noted view n →
  ∃ iw, input n view = Ok iw ∧ iw_units iw = nt_units (on_note n)
    ∧ fold_proof (iw_path iw) (on_commitment n) = root (cv_commitments view).
Proof.
  intros Hv (r & Hr & Ec & El). destruct (view_proof view r Hv Hr) as (p & Hp & Hf & Hleaf).
  rewrite El, Ec in *. unfold input, leaf, Prelude.index. rewrite Hp, Hleaf.
  cbn [ok_or expect]. rewrite !Ok_bind. rewrite ensure_bind by (by apply fr_eqb_eq). by eexists.
Qed.

(** C18: In a view rebuilt from the pool's logs, every note a wallet holds after
    scanning has an input witness: no lookup fails or panics, the witness
    carries the note's units, and its Merkle path leads from the note's
    commitment to the root the proof is checked against; and the note is
    marked spent exactly when a spend of the pool's logs carries its
    nullifier. *)
Theorem scanned_notes_provable logs outs atts (view : ChainView T) (w : Wallet VK) :
  sync logs outs atts = Ok view → (∀ n, n ∈ wa_notes w → noted view n) →
  ∀ n, n ∈ wa_notes (scan w view) →
    (∃ iw, input n view = Ok iw ∧ iw_units iw = nt_units (on_note n)
       ∧ fold_proof (iw_path iw) (on_commitment n) = root (cv_commitments view))
    ∧ (on_spent n = true ↔
         ∃ s, s ∈ cv_spends view ∧ nullifier (on_commitment n) (wk_nk (wa_keys w)) ∈ sp_nullifiers s).
Proof.
  intros Hv%sync_view_inv Hw n Hn. unfold scan in Hn. cbn [wa_notes] in Hn.
  apply list_elem_of_In, in_map_iff in Hn as (m & <- & Hm%list_elem_of_In). split.
  - destruct (input_Ok view m Hv) as (iw & Hi & ? & ?).
    { by eapply scan_loop_noted. }
    by exists iw.
  - cbn [mark on_spent on_commitment]. rewrite bool_decide_eq_true, (vi_nullifiers _ Hv).
    rewrite elem_of_list_to_set, list_elem_of_In. setoid_rewrite list_elem_of_In.
    rewrite in_concat. setoid_rewrite in_map_iff. naive_solver.
Qed.
End scanned.

(** ** Matching withdrawals *)
Lemma swap_remove_perm {A} (l : list A) i x : l !! i = Some x → x :: swap_remove l i ≡ₚ l.
Proof.
  intros Hi. destruct l as [|y l _] using rev_ind; [done|]. unfold swap_remove. rewrite last_snoc.
  rewrite length_app. cbn [length]. replace (length l + 1 - 1)%nat with (length l) by lia.
  destruct (decide (i = length l)) as [->|Hne].
  - rewrite lookup_app_r, Nat.sub_diag in Hi by done. injection Hi as ->.
    rewrite insert_app_r_alt, Nat.sub_diag by done. cbn. rewrite take_app_length.
    by rewrite Permutation_app_comm.
  - assert (i < length l)%nat as Hlt.
    { apply lookup_lt_Some in Hi. rewrite length_app in Hi. cbn in Hi. lia. }
    rewrite lookup_app_l in Hi by done. rewrite insert_app_l by done.
    rewrite take_app_length' by (by rewrite length_insert).
    rewrite insert_take_drop by done. rewrite <-(take_drop_middle l i x Hi) at 3.
    solve_Permutation.
Qed.

(** How often a payment occurs, and how often it is explained. *)
Definition count (p : Payment) (l : list Payment) : nat := length (base.filter (λ q, q = p) l).
Definition count_explained (p : Payment) (l : list Outflow) : nat :=
  length (base.filter (λ o, payment_of o = p ∧ of_by_withdrawal o = true) l).

Lemma count_cons p q l : count p (q :: l) = ((if decide (q = p) then 1 else 0) + count p l)%nat.
Proof. unfold count. rewrite filter_cons. by case_decide. Qed.

#[export] Instance count_proper p : Proper ((≡ₚ) ==> (=)) (count p).
Proof. intros l k H. unfold count. by rewrite H. Qed.

Lemma count_explained_cons p o l :
  count_explained p (o :: l)
  = ((if decide (payment_of o = p ∧ of_by_withdrawal o = true) then 1 else 0) + count_explained p l)%nat.
Proof. unfold count_explained. rewrite filter_cons. by case_decide. Qed.

Lemma count_zero p l : (p ∉ l) → count p l = 0%nat.
Proof.
  intros H. unfold count.
  destruct (base.filter _ l) as [|q k] eqn:E; [done|].
  assert (q ∈ base.filter (λ q, q = p) l) as Hq by (rewrite E; left).
  apply list_elem_of_filter in Hq as [-> ?]. done.
Qed.

(** C20: The matching of the token's transfers out of the pool with the pool's
    withdrawals is exact, one to one: for every transaction, recipient and
    amount, as many transfers are explained as there are such transfers and
    such withdrawals both, so every transfer beyond those withdrawals stays
    unexplained, and no withdrawal explains a transfer of another recipient,
    amount or transaction; nothing else of the transfers changes. *)
Theorem match_withdrawals_exact outflows unpaid :
  Forall (λ o, of_by_withdrawal o = false) outflows →
  let matched := match_withdrawals outflows unpaid in
  map payment_of matched = map payment_of outflows
  ∧ ∀ p, count_explained p matched = Nat.min (count p (map payment_of outflows)) (count p unpaid).
Proof.
  intros H. revert unpaid. induction H as [|o outflows Ho _ IH]; intros unpaid; [done|].
  cbn [match_withdrawals map]. destruct (list_find _ unpaid) as [[i q]|] eqn:Ef.
  - apply list_find_Some in Ef as (Hi & Hq & _). cbn in Hq. subst q.
    destruct (IH (swap_remove unpaid i)) as [IH1 IH2]. split; [cbn; by rewrite IH1|].
    intros p. rewrite count_explained_cons, count_cons, IH2.
    rewrite <-(swap_remove_perm unpaid i _ Hi) at 2. rewrite count_cons.
    change (payment_of (explained o)) with (payment_of o).
    change (of_by_withdrawal (explained o)) with true.
    destruct (decide (payment_of o = p)); repeat case_decide; naive_solver lia.
  - destruct (IH unpaid) as [IH1 IH2]. split; [cbn; by rewrite IH1|].
    apply list_find_None in Ef. rewrite list.Forall_forall in Ef.
    intros p. rewrite count_explained_cons, count_cons, IH2, Ho.
    rewrite decide_False by (by intros []). case_decide as Hp; [|done].
    rewrite (count_zero p unpaid); [lia|]. intros Hin. by apply (Ef _ Hin).
Qed.

(** ** The mock prover *)

(** What it proves it verifies, and a submission is built from it without a
    panic. *)
Lemma mock_prove_verifies `{C : Crypto} {CL : CryptoLaws C} r p :
  mock_prove r = Ok p → mock_verify (request_circuit r) p = Ok true.
Proof.
  intros H. apply (inj Ok) in H as <-. unfold mock_verify. cbn [cp_proof cp_public_inputs].
  rewrite ensure_bind by (apply Nat.eqb_eq; unfold mock_proof_bytes; by rewrite length_keccak256).
  by rewrite bool_decide_eq_true_2.
Qed.

Lemma mock_proof_submits `{C : Crypto} w p payload :
  mock_prove (RequestTransfer w) = Ok p →
  is_ok (submission_transfer (E:=unit) w p payload) = true.
Proof.
  intros H. apply (inj Ok) in H as <-. unfold submission_transfer, checked_public_inputs.
  cbn [cp_public_inputs request_public_inputs].
  rewrite Nat.leb_refl, take_ge, bool_decide_eq_true_2 by done. done.
Qed.
