(* ===== verification/MmfAgentRun.v ===== *)
(** * Money-market-fund notes: the transfer agent over time

    The agent of [agent.rs] as a transition system over calls of its methods,
    in any order, with any arguments and whether they succeed or fail: its
    invariant, and what never changes. *)

From Stdlib Require Import ZArith Lia Bool.
From stdpp Require Import base tactics list gmap strings numbers sorting.
From S2P Require Import Prelude Field Types Poseidon MmfTypes MmfChain MmfWallet MmfOk MmfAgent.
From S2P Require Import MmfAgentOk MmfCaps.

(** ** Sorted maps *)
Lemma bt_insert_last {V} k (v : V) m :
  Forall (λ kv, kv.1 < k) m → bt_insert Z.ltb k v m = m ++ [(k, v)].
Proof.
  induction 1 as [|[k' v'] m Hk _ IH]; cbn in *; [done|].
  destruct (Z.ltb_spec k k'); [lia|]. destruct (Z.ltb_spec k' k); [|lia]. by rewrite IH.
Qed.

Lemma filter_false {A} (f : A → bool) l : Forall (λ x, f x = false) l → List.filter f l = [].
Proof. induction 1 as [|x l Hx _ IH]; cbn; [done|]. by rewrite Hx. Qed.

Section sorted.
Context {V : Type}.
Definition key_lt (x y : list byte * V) : Prop := bytes_ltb x.1 y.1 = true.

Lemma bytes_ltb_trans l1 l2 l3 :
  bytes_ltb l1 l2 = true → bytes_ltb l2 l3 = true → bytes_ltb l1 l3 = true.
Proof.
  revert l2 l3. induction l1 as [|x l1 IH]; intros [|y l2] [|z l3]; cbn; try done.
  rewrite !orb_true_iff, !andb_true_iff, !Z.ltb_lt, !Z.eqb_eq.
  intros [?|[? ?]] [?|[? ?]]; [left; lia|left; lia|left; lia|right; split; [lia|by eapply IH]].
Qed.

Lemma bt_insert_sorted k (v : V) m :
  StronglySorted key_lt m → StronglySorted key_lt (bt_insert bytes_ltb k v m).
Proof.
  induction 1 as [|[k' v'] m Hs IH Hm]; cbn; [by repeat constructor|].
  destruct (bytes_ltb k k') eqn:E1; [|destruct (bytes_ltb k' k) eqn:E2].
  - constructor; [by constructor|]. constructor; [done|].
    eapply list.Forall_impl; [done|]. intros [k0 v0] H. by eapply bytes_ltb_trans.
  - constructor; [done|]. apply list.Forall_forall. intros x [->|Hx]%bt_insert_elem; [done|].
    rewrite list.Forall_forall in Hm. by apply Hm.
  - assert (k = k') as -> by by apply bytes_ltb_total. constructor; [done|].
    eapply list.Forall_impl; [done|]. by intros [].
Qed.
End sorted.

Section run.
Context `{C : Crypto} {FI : FrInverse} {T : Type} {RT : RotorTree T}.
Context {SK PK Sg VK VPK Env : Type} {KC : Custody SK PK Sg VK VPK Env}.
Abbreviation agent := (TransferAgent SK VK VPK).
Implicit Types (view : ChainView T) (env : PoolEnv) (a : agent).

(** ** The invariant *)

(** An investor the agent verified, under a name that is not one of its own. *)
Definition verified a (id : string) : Prop :=
  id ≠ "" ∧ id ≠ AGENT_ID ∧ id ≠ PADDING_ID ∧ is_Some (ta_jurisdictions a !! id).

Definition entry_ok a (e : RegisterEntry) : Prop :=
  re_commitment e = commitment (re_note e) ∧ note_typed (re_note e)
  ∧ ∀ id, re_holder e = Some (Investor id) → verified a id.
Definition note_ok a (n : OwnedNote) : Prop :=
  on_commitment n = commitment (on_note n) ∧ nt_owner (on_note n) = agent_owner a.

Record agent_inv a : Prop := {
  ai_keys : ∃ ks, ks ≠ [] ∧ ta_register_keys a = imap (λ i k, (Z.of_nat i, k)) ks;
  ai_prepared : Forall (λ k : Z * FeedSecret, k.1 = Z.of_nat (length (ta_register_keys a)))
    (ta_prepared_register_keys a);
  ai_investors : investors_ok a;
  ai_sorted : StronglySorted key_lt (ta_investors a);
  ai_holders k r id : (k, r) ∈ ta_investors a → ir_holder r = Investor id → verified a id;
  ai_public x id : ta_public_holders a !! x = Some id → verified a id;
  ai_register : NoDup (commitments_of (ta_register a));
  ai_entries : Forall (entry_ok a) (ta_register a);
  ai_wallet : NoDup (map on_commitment (wa_notes (ta_wallet a)));
  ai_notes : Forall (note_ok a) (wa_notes (ta_wallet a));
}.

(** ** Assignments that keep it *)
Lemma inv_register a g :
  agent_inv a → NoDup (commitments_of g) → Forall (entry_ok a) g → agent_inv (set_register a g).
Proof. intros []; by constructor. Qed.

Lemma inv_wallet a notes :
  agent_inv a → NoDup (map on_commitment notes) → Forall (note_ok a) notes →
  agent_inv (set_wallet a (mk_wallet (wa_keys (ta_wallet a)) notes)).
Proof. intros []; by constructor. Qed.

Lemma inv_unreadable a u : agent_inv a → agent_inv (set_unreadable_notes a u).
Proof. intros []; by constructor. Qed.
Lemma inv_claims a c p : agent_inv a → agent_inv (set_pending_claims (set_claims a c) p).
Proof. intros []; by constructor. Qed.
Lemma inv_pending a p : agent_inv a → agent_inv (set_pending_claims a p).
Proof. intros []; by constructor. Qed.
Lemma inv_period a s : agent_inv a → agent_inv (set_period_start a s).
Proof. intros []; by constructor. Qed.
Lemma inv_not_renewed a s : agent_inv a → agent_inv (set_not_renewed a s).
Proof. intros []; by constructor. Qed.
Lemma inv_seed a s : agent_inv a → agent_inv (set_seed_deposit a s).
Proof. intros []; by constructor. Qed.
Lemma inv_padding a s : agent_inv a → agent_inv (set_padding a s).
Proof. intros []; by constructor. Qed.
Hint Resolve inv_unreadable inv_claims inv_pending inv_period inv_not_renewed inv_seed inv_padding : core.

Lemma inv_jurisdictions a id j :
  agent_inv a → agent_inv (set_jurisdictions a (<[id := j]> (ta_jurisdictions a))).
Proof.
  assert (∀ x, verified a x → verified (set_jurisdictions a (<[id := j]> (ta_jurisdictions a))) x) as Hv.
  { intros x (? & ? & ? & ?). split_and!; [done..|]. cbn.
    destruct (decide (x = id)) as [->|?]; [rewrite lookup_insert_eq; by eexists|].
    by rewrite lookup_insert_ne. }
  intros []. constructor; try done; cbn; eauto.
  eapply list.Forall_impl; [done|]. intros e (? & ? & He). split_and!; eauto.
Qed.

Lemma inv_record a holder pk nk vpk :
  agent_inv a → (∀ id, holder = Investor id → verified a id) →
  agent_inv (record_owner holder pk nk vpk a).2.
Proof.
  intros [] Hh. constructor; try done; cbn.
  - intros k r [E|?]%bt_insert_elem; [by injection E as -> ->|by auto].
  - by apply bt_insert_sorted.
  - intros k r id [E|?]%bt_insert_elem Hr; [|by eauto]. injection E as -> ->. by apply Hh.
Qed.

Lemma inv_public a x id :
  agent_inv a → verified a id → agent_inv (set_public_holders a (<[x := id]> (ta_public_holders a))).
Proof.
  intros [] Hv. constructor; try done. cbn. intros y id' [[-> ->]|[_ ?]]%lookup_insert_Some; eauto.
Qed.

(** ** Register keys *)
Definition versions {V} (ks : list V) : list (Z * V) := imap (λ i k, (Z.of_nat i, k)) ks.

Lemma versions_below {V} (ks : list V) : Forall (λ kv, kv.1 < Z.of_nat (length ks)) (versions ks).
Proof.
  apply list.Forall_lookup. intros i x Hx. unfold versions in Hx. rewrite list_lookup_imap in Hx.
  apply fmap_Some_1 in Hx as (k & Hk%lookup_lt_Some & ->). cbn. lia.
Qed.

Lemma versions_snoc {V} (ks : list V) k :
  versions (ks ++ [k]) = versions ks ++ [(Z.of_nat (length ks), k)].
Proof. unfold versions. rewrite imap_app. cbn. by rewrite Nat.add_0_r. Qed.

Lemma length_versions {V} (ks : list V) : length (versions ks) = length ks.
Proof. apply length_imap. Qed.

Lemma last_versions {V} (ks : list V) :
  ks ≠ [] → ∃ k, list.last (versions ks) = Some (Z.of_nat (length ks) - 1, k).
Proof.
  destruct ks as [|k ks _] using rev_ind; [done|]. intros _. exists k.
  rewrite versions_snoc, last_snoc, length_app. cbn. do 2 f_equal. lia.
Qed.

Lemma next_version a v :
  agent_inv a → next_register_key_version a = Ok v → v = Z.of_nat (length (ta_register_keys a)).
Proof.
  intros [(ks & Hne & E) _ _ _ _ _ _ _ _ _]. unfold next_register_key_version. fold (versions ks) in E.
  destruct (last_versions ks Hne) as [k Hk]. rewrite E, Hk. cbn [expect]. rewrite Ok_bind. cbn [fst].
  unfold u64_add. intros H%expect_Ok. apply checked_add_Some in H as [-> _].
  rewrite length_versions. lia.
Qed.

(** ** Reading the feed *)
Lemma find_map_Some {A B} (f : A → option B) l b :
  find_map f l = Some b → ∃ x, x ∈ l ∧ f x = Some b.
Proof.
  induction l as [|x l IH]; cbn; [done|]. destruct (f x) eqn:E.
  - intros [= ->]. exists x. split; [left|done].
  - intros (y & Hy & ?)%IH. exists y. split; [by right|done].
Qed.

Lemma feed_open_typed f n o : feed_open f = Some (n, o) → note_typed n.
Proof.
  unfold feed_open. destruct (note_from_fields _) as [n'|] eqn:E; [|done]. cbn [mbind option_bind].
  destruct (lock_from_fields _); [|done]. cbn [mbind option_bind]. intros [= -> _].
  by apply note_from_fields_Some in E as [? _].
Qed.

Lemma feed_opened_commitment a r n o :
  feed_opened a r = Some (n, o) → commitment n = nr_commitment r ∧ note_typed n.
Proof.
  intros (tk & _ & H)%find_map_Some. unfold open_record in H.
  destruct (feed_open _) as [[n' o']|] eqn:Eo; [|done]. cbn [mbind option_bind fst] in H.
  case_match eqn:E; [|done]. injection H as -> ->. apply feed_open_typed in Eo.
  by apply fr_eqb_eq in E.
Qed.

Lemma holder_verified a o id : agent_inv a → holder_of a o = Some (Investor id) → verified a id.
Proof.
  intros Ha. unfold holder_of. case_match; [done|]. intros (r & Hr & Hid)%fmap_Some_1.
  symmetry in Hid. eapply (ai_holders a Ha); [by eapply bt_get_Some|done].
Qed.

Lemma NoDup_snoc {A} (l : list A) x : NoDup l → (x ∉ l) → NoDup (l ++ [x]).
Proof.
  intros Hl Hx. apply list.NoDup_app. split_and!; [done| |apply NoDup_singleton].
  by intros y Hy ->%list_elem_of_singleton.
Qed.

Lemma inv_feed_step a r : agent_inv a → agent_inv (feed_step a r).
Proof.
  intros Ha. unfold feed_step. destruct (existsb _ _) eqn:E; [done|]. apply existsb_fr_false in E.
  destruct (find_map _ _) as [[n o]|] eqn:Eo; [|by auto]. fold (feed_opened a r) in Eo.
  apply feed_opened_commitment in Eo as [Eo Ety].
  set (e := mk_entry _ _ _ _ _ _). set (a1 := set_register a _).
  assert (agent_inv a1) as Ha1.
  { apply inv_register; [done| |].
    - unfold commitments_of. rewrite map_app. apply NoDup_snoc; [apply Ha|done].
    - apply list.Forall_app. split; [apply Ha|]. apply list.Forall_singleton. split_and!; [done..|].
      intros id Hid. apply (holder_verified a (nt_owner n)); [done|exact Hid]. }
  case_match eqn:Ew; [|done]. apply andb_true_iff in Ew as [Ew1%fr_eqb_eq Ew2].
  apply negb_true_iff, existsb_fr_false in Ew2. apply inv_wallet; [done| |].
  - rewrite map_app. apply NoDup_snoc; [apply Ha1|done].
  - apply list.Forall_app. split; [apply Ha1|]. by apply list.Forall_singleton.
Qed.

Lemma inv_feed_loop l a : agent_inv a → agent_inv (foldl feed_step a l).
Proof. revert a. induction l as [|r l IH]; intros a Ha; cbn; [done|]. by apply IH, inv_feed_step. Qed.

Lemma inv_mark a view : agent_inv a → agent_inv (mark_register a view).
Proof.
  intros Ha. apply inv_register; [done| |].
  - unfold commitments_of. rewrite map_map. apply Ha.
  - apply list.Forall_fmap. eapply list.Forall_impl; [apply Ha|]. intros e He. apply He.
Qed.

Lemma inv_settle a view : agent_inv a → agent_inv (settle_claims a view).
Proof. intros Ha. unfold settle_claims. destruct (foldl _ _ _). by auto. Qed.

(** Scanning keeps the wallet's notes distinct and its own. *)
Lemma scan_step_ok (keys : WalletKeys VK) notes r :
  let P n := on_commitment n = commitment (on_note n) ∧ nt_owner (on_note n) = wallet_keys_owner keys in
  NoDup (map on_commitment notes) ∧ Forall P notes →
  NoDup (map on_commitment (scan_step keys notes r)) ∧ Forall P (scan_step keys notes r).
Proof.
  intros P [Hn HP]. unfold scan_step. case_match eqn:E; [done|]. apply existsb_fr_false in E.
  case_match; [|done]. destruct p as [n o]. case_match eqn:Ew; [|done].
  apply andb_true_iff in Ew as [?%fr_eqb_eq ?%fr_eqb_eq]. split.
  - rewrite map_app. by apply NoDup_snoc.
  - apply list.Forall_app. split; [done|]. by apply list.Forall_singleton.
Qed.

Lemma inv_scan a view : agent_inv a → agent_inv (set_wallet a (scan (ta_wallet a) view)).
Proof.
  intros Ha. unfold scan. set (keys := wa_keys (ta_wallet a)).
  assert (∀ l notes, NoDup (map on_commitment notes) ∧ Forall (note_ok a) notes →
    NoDup (map on_commitment (foldl (scan_step keys) notes l))
    ∧ Forall (note_ok a) (foldl (scan_step keys) notes l)) as H.
  { induction l as [|r l IH]; intros notes Hnotes; cbn [foldl]; [done|]. apply IH.
    by apply (scan_step_ok keys notes r). }
  destruct (H (cv_notes view) (wa_notes (ta_wallet a))) as [Hn Hf]; [split; apply Ha|].
  apply inv_wallet; [done| |].
  - rewrite map_map. exact Hn.
  - apply list.Forall_fmap. eapply list.Forall_impl; [done|]. intros n Hno. apply Hno.
Qed.

Lemma inv_read_feed a view : agent_inv a → agent_inv (read_feed a view).
Proof.
  intros Ha. unfold read_feed. apply inv_scan, inv_settle, inv_mark, inv_feed_loop. by auto.
Qed.

(** ** Calls *)
Inductive agent_call : Type :=
| CallNewRegisterKey (secret : FeedSecret)
| CallCommitRegisterKey (rotation : RegisterKeyRotation)
| CallAttestationBatch (drawn : nat → OwnerKeys SK VK) (shuffle : list Fr → list Fr)
    (view : ChainView T) (env : PoolEnv) (holding : list Address) (generation : Z)
| CallStopRenewing (owner : Fr)
| CallVerifyInvestor (investor_id jurisdiction : string)
| CallOnboard (investor_id : string) (env : PoolEnv) (r : Registration VPK) (signature : list byte)
    (nk : Fr)
| CallReadFeed (view : ChainView T)
| CallRegisterPublicHolder (address : Address) (investor_id : string)
| CallCheckCap (view : ChainView T) (env : PoolEnv) (owners : list Fr) (holding : list Address)
| CallClaim (draws : TransferDraws) (view : ChainView T) (env : PoolEnv) (target : Fr)
    (action : ClaimAction VPK)
| CallSeedDeposit (salt : Fr) (seal : list byte) (r : FeedSecret) (view : ChainView T)
    (env : PoolEnv) (units : Z) (funder : Address)
| CallFreezeSeed (draws : TransferDraws) (view : ChainView T) (env : PoolEnv)
| CallReconcile (view : ChainView T) (pool : PoolTotals).

(** The agent after a call, whatever it returns. *)
Definition run_call (c : agent_call) a : agent :=
  match c with
  | CallNewRegisterKey secret => (new_register_key secret a).2
  | CallCommitRegisterKey rotation => (commit_register_key rotation a).2
  | CallAttestationBatch drawn shuffle view env holding generation =>
      (attestation_batch drawn shuffle view env holding generation a).2
  | CallStopRenewing owner => (stop_renewing owner a).2
  | CallVerifyInvestor id j => (verify_investor id j a).2
  | CallOnboard id env r signature nk => (onboard id env r signature nk a).2
  | CallReadFeed view => read_feed a view
  | CallRegisterPublicHolder x id => (register_public_holder x id a).2
  | CallCheckCap view env owners holding => (check_cap view env owners holding a).2
  | CallClaim draws view env target action => (claim draws view env target action a).2
  | CallSeedDeposit salt seal r view env units funder =>
      (seed_deposit salt seal r view env units funder a).2
  | CallFreezeSeed draws view env => (freeze_seed draws view env a).2
  | CallReconcile view pool => (reconcile view pool a).2
  end.

(** The changes calls are made of. *)
Inductive effect a : agent → Prop :=
| eff_feed view : effect a (read_feed a view)
| eff_prepare v secret : next_register_key_version a = Ok v →
    effect a (set_prepared_register_keys a (ta_prepared_register_keys a ++ [(v, secret)]))
| eff_commit rotation k : next_register_key_version a = Ok (rk_version rotation) →
    k ∈ ta_prepared_register_keys a →
    effect a (set_prepared_register_keys
      (set_register_keys a (bt_insert Z.ltb (rk_version rotation) k.2 (ta_register_keys a)))
      (List.filter (λ k : Z * FeedSecret, rk_version rotation <? k.1) (ta_prepared_register_keys a)))
| eff_period s : (∀ s', ta_period_start a = Some s' → s = s') → effect a (set_period_start a (Some s))
| eff_stop owners : effect a (set_not_renewed a owners)
| eff_verify id j : effect a (set_jurisdictions a (<[id := j]> (ta_jurisdictions a)))
| eff_onboard id pk nk vpk : verified a id →
    (∀ r, bt_get (fr_to_be_bytes (owner_value pk nk)) (ta_investors a) = Some r →
       ir_holder r = Investor id) →
    effect a (record_owner (Investor id) pk nk vpk a).2
| eff_pad pk nk vpk keys : effect a (set_padding (record_owner Padding pk nk vpk a).2 keys)
| eff_public x id : verified a id →
    effect a (set_public_holders a (<[x := id]> (ta_public_holders a)))
| eff_claim c : effect a (set_pending_claims a (ta_pending_claims a ++ [c]))
| eff_seed cm : ta_seed_deposit a = None → effect a (set_seed_deposit a (Some cm)).
Hint Constructors effect : core.

Lemma valid_id_verified a id x :
  investor_id_new id = Ok x → is_Some (ta_jurisdictions a !! x) → verified a x.
Proof.
  unfold investor_id_new. intros H Hj. apply bind_Ok in H as (u & Hu & H). apply (inj Ok) in H as <-.
  apply ensure_Ok in Hu. reflect_bools. by rewrite String.eqb_neq in *.
Qed.

Lemma effects_padding drawn a : rtc effect a (fresh_padding drawn a).2.
Proof.
  revert a. induction drawn as [|keys drawn IH]; intros a; cbn [fresh_padding]; [done|].
  destruct (record_owner _ _ _ _ a) as [o a1] eqn:E.
  match goal with |- context [fresh_padding drawn ?x] => specialize (IH x) end.
  destruct (fresh_padding drawn _) as [os a2]. cbn [snd] in *. eapply rtc_l; [|done].
  apply (f_equal snd) in E. cbn [snd] in E. subst a1. apply eff_pad.
Qed.

Lemma effects_onboard id env r signature nk a : rtc effect a (onboard id env r signature nk a).2.
Proof.
  unfold onboard. rewrite M_bind_get, M_bind_lift. destruct (investor_id_new id) as [x| |] eqn:Ex; [|done..].
  rewrite M_bind_lift. destruct (ensure _ _) eqn:Ej; [|done..]. apply ensure_Ok, bool_decide_eq_true in Ej.
  do 2 (rewrite M_bind_lift; destruct (ensure _ _); [|done..]).
  rewrite M_bind_lift. destruct (map_err _ _); [|done..].
  rewrite M_bind_lift. destruct (ensure _ _) eqn:Eh; [|done..]. apply ensure_Ok in Eh.
  destruct (record_owner _ _ _ _ a) as [o a9] eqn:E. rewrite M_bind_put. cbn [mret M_ret snd].
  apply (f_equal snd) in E. cbn [snd] in E. subst a9. apply rtc_once, eff_onboard.
  - by eapply valid_id_verified.
  - intros rec Hr. rewrite Hr in Eh. by apply bool_decide_eq_true in Eh.
Qed.

Lemma effects_claim draws view env target action a :
  rtc effect a (build_claim draws view env target action a).2.
Proof.
  unfold build_claim. rewrite M_bind_get, M_bind_lift. destruct (ok_or _ _); [|done..].
  rewrite M_bind_lift. destruct (if fr_eqb _ _ then _ else _); [|done..].
  rewrite M_bind_lift. destruct (build_transfer _ _ _ _ _); [|done..].
  rewrite M_bind_put. apply rtc_once, eff_claim.
Qed.

Lemma effects_batch drawn shuffle view env holding generation a :
  rtc effect a (attestation_batch drawn shuffle view env holding generation a).2.
Proof.
  unfold attestation_batch, read_feed_m. unfold mbind at 1, M_bind at 1. cbv beta iota.
  eapply rtc_l; [apply (eff_feed a view)|]. set (a1 := read_feed a view).
  rewrite M_bind_get, M_bind_put, M_bind_get.
  eapply rtc_l; [apply (eff_period a1 (default (en_epoch env) (ta_period_start a1))); by intros s' ->|].
  rewrite M_bind_lift. destruct (period_expiry _ _); [|done..].
  rewrite M_bind_lift. destruct (due _ _ _ _); [|done..].
  rewrite M_bind_lift. destruct (counted_investors _ _ _ _); [|done..].
  rewrite M_bind_lift. destruct (for_each _ _ _) as [[[? ?] ?]| |]; [|done..].
  match goal with |- context [fresh_padding ?d ?x] => pose proof (effects_padding d x) as Hp;
    destruct (fresh_padding d x) as [os a6] end.
  rewrite M_bind_put, M_bind_lift. case_match; done.
Qed.

Lemma effects_commit rotation a : rtc effect a (commit_register_key rotation a).2.
Proof.
  unfold commit_register_key. rewrite M_bind_get, M_bind_lift.
  destruct (next_register_key_version a) as [v| |] eqn:E; [|done..].
  rewrite M_bind_lift. destruct (ensure _ _) eqn:Ev; [|done..]. apply ensure_Ok, Z.eqb_eq in Ev. subst v.
  rewrite M_bind_lift. destruct (ok_or _ _) as [k| |] eqn:Ek; [|done..]. apply ok_or_Ok in Ek.
  apply List.find_some in Ek as [Ek%list_elem_of_In _].
  apply rtc_once. exact (eff_commit a rotation k E Ek).
Qed.

Lemma effects_seed salt seal r view env units funder a :
  rtc effect a (seed_deposit salt seal r view env units funder a).2.
Proof.
  unfold seed_deposit. rewrite M_bind_get, M_bind_lift. destruct (ensure _ _) eqn:E; [|done..].
  apply ensure_Ok, negb_true_iff, bool_decide_eq_false, eq_None_not_Some in E.
  rewrite M_bind_lift. destruct (List.find _ _); [done|].
  rewrite M_bind_lift. destruct (deposit _ _ _ _ _ _ _ _ _); [|done..].
  rewrite M_bind_put. by apply rtc_once, eff_seed.
Qed.

(** Every call is a sequence of effects. *)
Lemma run_call_effects c a : rtc effect a (run_call c a).
Proof.
  destruct c; cbn [run_call].
  - unfold new_register_key. rewrite M_bind_get, M_bind_lift.
    destruct (next_register_key_version a) as [v| |] eqn:E; [|done..]. by apply rtc_once, eff_prepare.
  - apply effects_commit.
  - apply effects_batch.
  - unfold stop_renewing. rewrite M_bind_get. do 2 (rewrite M_bind_lift; destruct (ensure _ _); [|done..]).
    apply rtc_once, eff_stop.
  - unfold verify_investor. rewrite M_bind_get, M_bind_lift.
    destruct (investor_id_new _); [|done..]. apply rtc_once, eff_verify.
  - apply effects_onboard.
  - apply rtc_once, eff_feed.
  - unfold register_public_holder. rewrite M_bind_get, M_bind_lift.
    destruct (investor_id_new _) eqn:Ex; [|done..]. rewrite M_bind_lift.
    destruct (ensure _ _) eqn:Ej; [|done..]. apply ensure_Ok, bool_decide_eq_true in Ej.
    apply rtc_once, eff_public. by eapply valid_id_verified.
  - unfold check_cap, read_feed_m. unfold mbind at 1, M_bind at 1. cbv beta iota.
    eapply rtc_l; [apply (eff_feed a view)|]. rewrite M_bind_get, M_bind_lift.
    destruct (counted_investors _ _ _ _); [|done..]. rewrite M_bind_lift.
    destruct (for_each _ _ _); done.
  - unfold claim. rewrite M_bind_get, M_bind_lift. destruct (ensure _ _); [|done..]. apply effects_claim.
  - apply effects_seed.
  - unfold freeze_seed. rewrite M_bind_get, M_bind_lift. destruct (ok_or _ _); [|done..].
    apply effects_claim.
  - unfold reconcile, read_feed_m. unfold mbind at 1, M_bind at 1. cbv beta iota.
    eapply rtc_l; [apply (eff_feed a view)|]. rewrite M_bind_get, M_bind_lift.
    destruct (ensure _ _); [|done..]. rewrite M_bind_lift. destruct (total_units _); [|done..].
    rewrite M_bind_lift. destruct (ensure _ _); [|done..]. rewrite M_bind_lift.
    destruct (ok_or _ _); done.
Qed.

(** ** The invariant of the runs *)
Lemma inv_effect a a' : agent_inv a → effect a a' → agent_inv a'.
Proof.
  intros Ha [view|v secret Hv|rotation k Hv Hk|s Hs|owners|id j|id pk nk vpk Hid Hr|pk nk vpk keys|
    x id Hid|c|cm Hc]; auto.
  - by apply inv_read_feed.
  - pose proof (next_version a v Ha Hv) as ->. destruct Ha. constructor; try done. cbn.
    apply list.Forall_app. split; [done|]. by apply list.Forall_singleton.
  - pose proof (next_version a _ Ha Hv) as Ev. destruct (ai_keys a Ha) as (ks & Hne & Eks).
    fold (versions ks) in Eks.
    assert (bt_insert Z.ltb (rk_version rotation) k.2 (ta_register_keys a) = versions (ks ++ [k.2])) as Ei.
    { rewrite Ev, Eks, length_versions, versions_snoc. apply bt_insert_last, versions_below. }
    pose proof (ai_prepared a Ha) as Hp. destruct Ha. constructor; try done; cbn.
    + exists (ks ++ [k.2]). split; [by destruct ks|done].
    + rewrite filter_false; [constructor|]. eapply list.Forall_impl; [done|].
      intros x Hx. cbn in Hx. apply Z.ltb_ge. by rewrite Hx, Ev.
  - by apply inv_jurisdictions.
  - apply inv_record; [done|]. by intros id' [= <-].
  - apply inv_padding, inv_record; done.
  - by apply inv_public.
Qed.

(** An agent at deployment, with the caps the operator sets. *)
Definition deployed (keys : OwnerKeys SK VK) (claim_key : SK) (tk : FeedSecret) (salt_key : Fr)
  (max_investors : option nat) (caps : list (string * nat)) : agent :=
  let a := agent_new keys claim_key tk salt_key in
  mk_agent (ta_wallet a) (ta_signer a) (ta_claim_key a) (ta_register_keys a)
    (ta_prepared_register_keys a) (ta_unreadable_notes a) (ta_investors a) (ta_register a)
    max_investors caps (ta_jurisdictions a) (ta_public_holders a) (ta_padding a)
    (ta_period_start a) (ta_not_renewed a) (ta_pending_claims a) (ta_claims a) (ta_seed_deposit a)
    (ta_register_salt_key a).

Inductive reachable : agent → Prop :=
| reach_deployed keys claim_key tk salt_key max_investors caps :
    reachable (deployed keys claim_key tk salt_key max_investors caps)
| reach_call a c : reachable a → reachable (run_call c a).

Lemma deployed_inv keys claim_key tk salt_key max_investors caps :
  agent_inv (deployed keys claim_key tk salt_key max_investors caps).
Proof.
  constructor; cbn.
  - by exists [tk].
  - constructor.
  - intros k r H. by apply elem_of_nil in H.
  - constructor.
  - intros k r id H. by apply elem_of_nil in H.
  - intros x id H. by rewrite lookup_empty in H.
  - constructor.
  - constructor.
  - constructor.
  - constructor.
Qed.

Lemma inv_effects a a' : agent_inv a → rtc effect a a' → agent_inv a'.
Proof. intros Ha. induction 1; [done|]. eauto using inv_effect. Qed.

Lemma reachable_inv a : reachable a → agent_inv a.
Proof. induction 1; [apply deployed_inv|]. eapply inv_effects; [done|apply run_call_effects]. Qed.

(** ** What only grows *)
Record grows a a' : Prop := {
  gr_keys v k : bt_get v (ta_register_keys a) = Some k → bt_get v (ta_register_keys a') = Some k;
  gr_file k r : bt_get k (ta_investors a) = Some r → is_Some (bt_get k (ta_investors a'));
  gr_holder k r r' id : bt_get k (ta_investors a) = Some r → bt_get k (ta_investors a') = Some r' →
    ir_holder r' = Investor id → ir_holder r = Investor id;
  gr_register : commitments_of (ta_register a) `prefix_of` commitments_of (ta_register a');
  gr_claims : ta_claims a `prefix_of` ta_claims a';
  gr_seed cm : ta_seed_deposit a = Some cm → ta_seed_deposit a' = Some cm;
  gr_period s : ta_period_start a = Some s → ta_period_start a' = Some s;
  gr_owner : agent_owner a' = agent_owner a;
}.

#[export] Instance grows_po : PreOrder grows.
Proof.
  split.
  - intros a. constructor; try done; naive_solver.
  - intros a b c [K1 F1 H1 R1 C1 S1 P1 O1] [K2 F2 H2 R2 C2 S2 P2 O2].
    constructor; [by eauto| | |by etrans|by etrans|by eauto|by eauto|congruence].
    + intros k r Hr. destruct (F1 _ _ Hr) as [r1 Hr1]. eauto.
    + intros k r r' id Hr Hr' Hid. destruct (F1 _ _ Hr) as [r1 Hr1]. eauto.
Qed.

(** Changes of the fields it does not mention. *)
Lemma grows_same a a' :
  ta_register_keys a' = ta_register_keys a → ta_investors a' = ta_investors a →
  ta_register a' = ta_register a → ta_claims a' = ta_claims a →
  (∀ cm, ta_seed_deposit a = Some cm → ta_seed_deposit a' = Some cm) →
  (∀ s, ta_period_start a = Some s → ta_period_start a' = Some s) →
  ta_wallet a' = ta_wallet a → grows a a'.
Proof.
  intros Ek Ei Er Ec Hs Hp Ew. constructor; rewrite ?Ek, ?Ei, ?Er, ?Ec; try done; [naive_solver..|].
  unfold agent_owner. by rewrite Ew.
Qed.

Lemma grows_record holder pk nk vpk a :
  (∀ r id, bt_get (fr_to_be_bytes (owner_value pk nk)) (ta_investors a) = Some r →
     holder = Investor id → ir_holder r = Investor id) →
  grows a (record_owner holder pk nk vpk a).2.
Proof.
  intros H. set (k0 := fr_to_be_bytes (owner_value pk nk)) in *.
  assert (∀ k, bt_get k (ta_investors (record_owner holder pk nk vpk a).2)
    = if decide (k = k0) then Some (mk_investor holder pk nk vpk) else bt_get k (ta_investors a)) as Hg.
  { intros k. apply bt_get_insert; [apply bytes_ltb_irr|apply bytes_ltb_total]. }
  constructor; try done.
  - intros k r Hr. rewrite Hg. case_decide; by eexists.
  - intros k r r' id Hr Hr' Hid. rewrite Hg in Hr'. case_decide; [|congruence].
    subst k. injection Hr' as <-. by eapply H.
Qed.

Lemma grows_commit a v k rest :
  agent_inv a → next_register_key_version a = Ok v →
  grows a (set_prepared_register_keys (set_register_keys a (bt_insert Z.ltb v k (ta_register_keys a))) rest).
Proof.
  intros Ha Hv. pose proof (next_version a v Ha Hv) as Ev.
  destruct (ai_keys a Ha) as (ks & _ & Eks). fold (versions ks) in Eks.
  constructor; try done; [|naive_solver..]. intros v' k' Hg. cbn.
  rewrite bt_get_insert; [|apply Z.ltb_irrefl|intros; apply Z.ltb_ge in H, H0; lia].
  case_decide; [|done]. subst v'. apply bt_get_Some in Hg. rewrite Eks in Hg.
  pose proof (versions_below ks) as Hb. rewrite list.Forall_forall in Hb. apply Hb in Hg. cbn in Hg.
  rewrite Ev, Eks, length_versions in Hg. lia.
Qed.

Lemma settle_claims_grow a view : ta_claims a `prefix_of` ta_claims (settle_claims a view).
Proof.
  unfold settle_claims.
  assert (∀ l cl pc, cl `prefix_of` (foldl (λ '(claims, pending) c,
      if claim_mined view c then (claims ++ [c], pending)
      else if negb (target_spent a c) then (claims, pending ++ [c])
      else (claims, pending)) (cl, pc) l).1) as H.
  { induction l as [|c l IH]; intros cl pc; cbn [foldl]; [done|]. repeat case_match; [|apply IH..].
    etrans; [|apply IH]. by eexists. }
  specialize (H (ta_pending_claims a) (ta_claims a) []). by destruct (foldl _ _ _).
Qed.

Lemma grows_feed a view : agent_inv a → grows a (read_feed a view).
Proof.
  intros Ha.
  assert (ta_claims a `prefix_of` ta_claims (read_feed a view)) as Hc.
  { unfold read_feed. fold (after_loop a view). cbn [set_wallet ta_claims].
    etrans; [|apply settle_claims_grow]. cbn.
    destruct (after_loop_frame a view) as (? & ? & ? & ->). done. }
  assert (commitments_of (ta_register a) `prefix_of` commitments_of (ta_register (read_feed a view))) as Hr.
  { rewrite read_feed_commitments.
    destruct (li_old _ _ _ (after_loop_inv a view (ai_register a Ha))) as [k ->].
    unfold commitments_of. rewrite map_app. by eexists. }
  destruct (read_feed_frame a view) as (n & g & u & c & p & E). rewrite E in *.
  constructor; try done; naive_solver.
Qed.

Lemma grows_effect a a' : agent_inv a → effect a a' → grows a a'.
Proof.
  intros Ha [view|v secret Hv|rotation k Hv Hk|s Hs|owners|id j|id pk nk vpk Hid Hr|pk nk vpk keys|
    x id Hid|c|cm Hc]; try by apply grows_same.
  - by apply grows_feed.
  - by apply grows_commit.
  - apply grows_same; try done. cbn. intros s' Hs'. by rewrite (Hs s' Hs').
  - apply grows_record. intros r id' Hr' [= <-]. by apply Hr.
  - trans (record_owner Padding pk nk vpk a).2; [|by apply grows_same].
    apply grows_record. by intros.
  - apply grows_same; try done. cbn. congruence.
Qed.

Lemma grows_effects a a' : agent_inv a → rtc effect a a' → grows a a'.
Proof.
  intros Ha H. induction H as [a|a b c Hab Hbc IH]; [done|].
  etrans; [by apply grows_effect|]. apply IH. by eapply inv_effect.
Qed.

(** C13: In every state the agent reaches, by any calls in any order, failed
    ones too: the register keys are those of the versions from 0 without a
    gap, with those prepared all for the next one, so a current key always
    exists; each owner value on file is that of the keys on file, in the order
    of the map; every investor on file, in the register or among the public
    holders was verified, under a name that is not the agent's own, so none
    escapes the caps; the register has each commitment once, of a note that
    opens to it; and so has the agent's wallet, of the agent's own notes. *)
Theorem agent_invariant a :
  reachable a → agent_inv a ∧ is_ok (register_public_key a) = true.
Proof.
  intros Ha%reachable_inv. split; [done|]. unfold register_public_key.
  destruct (ai_keys a Ha) as (ks & Hne & E). fold (versions ks) in E.
  destruct (last_versions ks Hne) as [k Hk]. by rewrite E, Hk.
Qed.

(** C21: Whatever calls follow, the agent never forgets or rewrites what it must
    keep: every register key stays under its version; every owner value on
    file stays on file and never passes to another investor; the register and
    the record of mined claims only grow at the end; and the seed's deposit,
    the start of the periods and the agent's own owner value are fixed once
    set. *)
Theorem agent_history a calls :
  reachable a → grows a (foldl (λ a c, run_call c a) a calls).
Proof.
  intros Ha. revert a Ha. induction calls as [|c calls IH]; intros a Ha; cbn [foldl]; [done|].
  etrans; [|by apply IH, reach_call].
  apply grows_effects; [by apply reachable_inv|apply run_call_effects].
Qed.
End run.
