(* ===== verification/MmfLedger.v ===== *)
(** * Money-market-fund notes: positions, redemptions and reconciliation

    What [positions], [redemptions] and [reconcile] of [agent.rs] compute from
    the register. *)

From Stdlib Require Import ZArith Lia Bool.
From Stdlib Require String.
From stdpp Require Import base tactics list gmap strings numbers.
From S2P Require Import Prelude Field Types Poseidon MmfTypes MmfChain MmfWallet MmfOk MmfAgent.
From S2P Require Import MmfAgentOk MmfCaps MmfAgentRun.

Lemma string_ltb_irr s : String.ltb s s = false.
Proof.
  unfold String.ltb. pose proof (String.compare_antisym s s) as H.
  by destruct (String.compare s s).
Qed.

Lemma string_ltb_total s t : String.ltb s t = false → String.ltb t s = false → s = t.
Proof.
  unfold String.ltb. rewrite (String.compare_antisym t s).
  destruct (String.compare s t) eqn:E; cbn; try done. by apply String.compare_eq_iff in E.
Qed.

Section ledger.
Context `{C : Crypto} {FI : FrInverse} {T : Type} {RT : RotorTree T}.
Context {SK PK Sg VK VPK Env : Type} {KC : Custody SK PK Sg VK VPK Env}.
Implicit Types (view : ChainView T) (a : TransferAgent SK VK VPK).

Definition entry_units (e : RegisterEntry) : Z := nt_units (re_note e).
Definition holder_name (e : RegisterEntry) : string := from_option holder_as_str "unknown" (re_holder e).
Definition unspent_entries a : list RegisterEntry := List.filter (λ e, negb (re_spent e)) (ta_register a).

(** ** Positions *)

(** The units a list of entries holds under a name. *)
Definition held_by (h : string) (l : list RegisterEntry) : Z :=
  sumZ (map (λ e, if String.eqb (holder_name e) h then entry_units e else 0) l).

Lemma held_by_cons h e l :
  held_by h (e :: l) = (if String.eqb (holder_name e) h then entry_units e else 0) + held_by h l.
Proof. done. Qed.

Lemma held_by_nonneg h l : Forall (λ e, 0 ≤ entry_units e) l → 0 ≤ held_by h l.
Proof.
  intros H. apply sumZ_nonneg, list.Forall_fmap. eapply list.Forall_impl; [done|].
  intros e He. unfold compose. cbn beta in *. case_match; [exact He|done].
Qed.

Lemma held_by_le h l : Forall (λ e, 0 ≤ entry_units e) l → held_by h l ≤ sumZ (map entry_units l).
Proof.
  induction 1 as [|e l He _ IH]; [done|]. rewrite held_by_cons.
  change (sumZ (map entry_units (e :: l))) with (entry_units e + sumZ (map entry_units l)).
  case_match; lia.
Qed.

Definition position_step (out : list (string * Z)) (e : RegisterEntry)
  : outcome ActorError (list (string * Z)) :=
  u ← u64_add (default 0 (bt_get (holder_name e) out)) (entry_units e);
  Ok (bt_insert String.ltb (holder_name e) u out).

Lemma position_loop l out :
  Forall (λ e, 0 ≤ entry_units e) l →
  (∀ h, default 0 (bt_get h out) + held_by h l < 2 ^ 64) →
  ∃ ps, for_each position_step out l = Ok ps
    ∧ ∀ h, default 0 (bt_get h ps) = default 0 (bt_get h out) + held_by h l.
Proof.
  intros Hl. revert out. induction Hl as [|e l He Hl IH]; intros out Hb; cbn [for_each].
  { exists out. split; [done|]. intros h. unfold held_by, sumZ. cbn. lia. }
  pose proof (held_by_nonneg (holder_name e) l Hl) as Hnn.
  pose proof (Hb (holder_name e)) as Hbe. rewrite held_by_cons, String.eqb_refl in Hbe.
  set (u := default 0 (bt_get (holder_name e) out) + entry_units e) in *.
  assert (position_step out e = Ok (bt_insert String.ltb (holder_name e) u out)) as ->.
  { unfold position_step, u64_add.
    assert (checked_add 64 (default 0 (bt_get (holder_name e) out)) (entry_units e) = Some u) as ->
      by (apply checked_add_Some; unfold u in *; lia).
    done. }
  rewrite Ok_bind.
  assert (∀ h, default 0 (bt_get h (bt_insert String.ltb (holder_name e) u out)) + held_by h l
    = default 0 (bt_get h out) + held_by h (e :: l)) as Hstep.
  { intros h. rewrite bt_get_insert; [|apply string_ltb_irr|apply string_ltb_total].
    rewrite held_by_cons. destruct (String.eqb_spec (holder_name e) h) as [<-|Hne].
    - rewrite decide_True by done. cbn. unfold u. lia.
    - rewrite decide_False by done. lia. }
  destruct (IH (bt_insert String.ltb (holder_name e) u out)) as (ps & E & Hps).
  { intros h. rewrite Hstep. apply Hb. }
  exists ps. split; [done|]. intros h. by rewrite Hps, Hstep.
Qed.

(** The positions are the sums of the register's held units by holder. *)
Lemma positions_Ok a :
  Forall (λ e, 0 ≤ entry_units e) (ta_register a) →
  sumZ (map entry_units (List.filter held (ta_register a))) < 2 ^ 64 →
  ∃ ps, positions a = Ok ps
    ∧ ∀ h, default 0 (bt_get h ps) = held_by h (List.filter held (ta_register a)).
Proof.
  intros Hn Hs.
  assert (Forall (λ e, 0 ≤ entry_units e) (List.filter held (ta_register a))) as Hf.
  { apply list.Forall_forall. intros e He. apply list_elem_of_In, filter_In in He as [He _].
    rewrite list.Forall_forall in Hn. by apply Hn, list_elem_of_In. }
  destruct (position_loop (List.filter held (ta_register a)) [] Hf) as (ps & E & Hps).
  { intros h. cbn. pose proof (held_by_le h _ Hf). lia. }
  exists ps. split; [exact E|]. intros h. by rewrite Hps.
Qed.

(** ** Reconciliation *)
Definition total a : Z := sumZ (map entry_units (unspent_entries a)).
(** What the unspent notes can withdraw at multiplier [m]. *)
Definition withdrawable a (m : Z) : Z := sumZ (map (λ e, entry_units e * m / S_) (unspent_entries a)).

Definition register_typed a : Prop := Forall (λ e, is_u64 (entry_units e)) (ta_register a).

Lemma unspent_typed a : register_typed a → Forall (λ e, is_u64 (entry_units e)) (unspent_entries a).
Proof.
  intros H. apply list.Forall_forall. intros e He. apply list_elem_of_In, filter_In in He as [He _].
  unfold register_typed in H. rewrite list.Forall_forall in H. by apply H, list_elem_of_In.
Qed.

Lemma total_units_Ok a : register_typed a → total a < 2 ^ 128 → total_units a = Ok (total a).
Proof.
  intros Ht%unspent_typed Hs. unfold total_units. fold (unspent_entries a).
  rewrite (sum_loop_Ok 128 entry_units); [done| |done].
  eapply list.Forall_impl; [done|]. intros e He. apply He.
Qed.

Lemma remainder_loop m l acc :
  0 ≤ m < 2 ^ 192 → 0 ≤ acc → Forall (λ e, is_u64 (entry_units e)) l →
  acc + sumZ (map (λ e, entry_units e * m / S_) l) < 2 ^ 256 →
  foldl (λ acc e, u256 (acc + u256 (nt_units (re_note e) * m) / S_)) acc l
  = acc + sumZ (map (λ e, entry_units e * m / S_) l).
Proof.
  intros Hm Hacc Hl. revert acc Hacc. induction Hl as [|e l He Hl IH]; intros acc Hacc Hb; cbn [foldl].
  { unfold sumZ. cbn. lia. }
  change (sumZ (map (λ e, entry_units e * m / S_) (e :: l)))
    with (entry_units e * m / S_ + sumZ (map (λ e, entry_units e * m / S_) l)) in *.
  assert (0 ≤ sumZ (map (λ e, entry_units e * m / S_) l)) as Hs.
  { apply sumZ_nonneg, list.Forall_fmap. eapply list.Forall_impl; [done|].
    intros x [? ?]. apply Z.div_pos; [|done]. apply Z.mul_nonneg_nonneg; lia. }
  destruct He as [He0 He1]. fold (entry_units e).
  assert (u256 (entry_units e * m) = entry_units e * m) as ->.
  { apply Z.mod_small. change (2 ^ 256) with (2 ^ 64 * 2 ^ 192). nia. }
  assert (0 ≤ entry_units e * m / S_) by (apply Z.div_pos; [nia|done]).
  assert (u256 (acc + entry_units e * m / S_) = acc + entry_units e * m / S_) as ->
    by (apply Z.mod_small; lia).
  rewrite IH; lia.
Qed.

Lemma remainder_eq a balance m :
  register_typed a → 0 ≤ m < 2 ^ 192 → withdrawable a m < 2 ^ 256 →
  remainder a balance m = checked_sub balance (withdrawable a m).
Proof.
  intros Ht%unspent_typed Hm Hw. unfold remainder. fold (unspent_entries a).
  by rewrite remainder_loop.
Qed.

Lemma inv_register_typed a : agent_inv a → register_typed a.
Proof.
  intros Ha. unfold register_typed. eapply list.Forall_impl; [apply Ha|]. intros e (_ & Ht & _). exact Ht.
Qed.

(** C16: A reconciliation, on every branch: the agent reads the feed, refuses
    while a note of the chain is unreadable, refuses when the units of its
    unspent notes are not the pool's total, refuses when those notes could
    withdraw more shares than the pool has, and otherwise reports exactly the
    shares that no note can withdraw and the transfers out that no withdrawal
    explains; and when it succeeds its register holds every note of the
    chain.  No sum overflows while the totals fit their widths. *)
Theorem reconcile_exact view pool a :
  reachable a →
  let a' := read_feed a view in
  let m := to_multiplier pool in
  total a' < 2 ^ 128 → 0 ≤ m < 2 ^ 192 → withdrawable a' m < 2 ^ 256 →
  reconcile view pool a
  = (if negb (length (ta_unreadable_notes a') =? 0)%nat
     then Err (UnreadableNotes (length (ta_unreadable_notes a')))
     else if negb (total a' =? to_units pool) then Err (RegisterMismatch (total a') (to_units pool))
     else if to_balance pool <? withdrawable a' m then Err SharesShort
     else Ok (mk_reconciliation (to_balance pool - withdrawable a' m)
                (List.filter (λ o, negb (of_by_withdrawal o)) (cv_outflows view))), a')
  ∧ (is_ok (reconcile view pool a).1 = true →
     ∀ r, r ∈ cv_notes view → nr_commitment r ∈ commitments_of (ta_register a')).
Proof.
  intros Ha%reachable_inv a' m Ht Hm Hw.
  assert (agent_inv a') as Ha' by by apply inv_read_feed.
  pose proof (inv_register_typed a' Ha') as Hty.
  assert (reconcile view pool a
  = (if negb (length (ta_unreadable_notes a') =? 0)%nat
     then Err (UnreadableNotes (length (ta_unreadable_notes a')))
     else if negb (total a' =? to_units pool) then Err (RegisterMismatch (total a') (to_units pool))
     else if to_balance pool <? withdrawable a' m then Err SharesShort
     else Ok (mk_reconciliation (to_balance pool - withdrawable a' m)
                (List.filter (λ o, negb (of_by_withdrawal o)) (cv_outflows view))), a')) as E.
  { unfold reconcile, read_feed_m. unfold mbind at 1, M_bind at 1. cbv beta iota. fold a'.
    rewrite M_bind_get, M_bind_lift. destruct (length (ta_unreadable_notes a') =? 0)%nat; [|done].
    cbn [ensure negb]. rewrite M_bind_lift, total_units_Ok by done. rewrite M_bind_lift.
    destruct (total a' =? to_units pool); [|done]. cbn [ensure negb].
    rewrite M_bind_lift, remainder_eq by done. unfold checked_sub. fold m.
    destruct (Z.leb_spec (withdrawable a' m) (to_balance pool)) as [Hle|Hgt]; cbn [ok_or].
    - by rewrite (proj2 (Z.ltb_ge _ _) Hle).
    - by rewrite (proj2 (Z.ltb_lt _ _) Hgt). }
  split; [done|]. rewrite E. cbn [fst]. intros Hok r Hr.
  destruct (Nat.eqb_spec (length (ta_unreadable_notes a')) 0) as [Hz|]; [|done].
  apply nil_length_inv in Hz. unfold a' in Hz. rewrite read_feed_unreadable_eq in Hz.
  pose proof (after_loop_inv a view (ai_register a Ha)) as Hi.
  unfold a'. rewrite read_feed_commitments.
  destruct (li_read _ _ _ Hi r Hr) as [?|[_ Hu]]; [done|]. rewrite Hz in Hu. by apply elem_of_nil in Hu.
Qed.

(** ** Redemptions *)

(** An entry of an investor that a spend consumed. *)
Definition spent_by a (spend : SpendRecord) (id : InvestorId) (e : RegisterEntry) : Prop :=
  e ∈ ta_register a ∧ re_holder e = Some (Investor id)
  ∧ ∃ nk, nk_of a (nt_owner (re_note e)) = Some nk ∧ nullifier (re_commitment e) nk ∈ sp_nullifiers spend.

Lemma investor_Some h id : investor h = Some id ↔ h = Investor id.
Proof. destruct h; cbn; naive_solver. Qed.

Lemma redeemer_Some a spend id : redeemer a spend = Some id → ∃ e, spent_by a spend id e.
Proof.
  intros (e & He & H)%find_map_Some. exists e.
  destruct (re_holder e) as [h|] eqn:Eh; [|done]. cbn [mbind option_bind] in H.
  destruct (investor h) as [x|] eqn:Ex; [|done]. apply investor_Some in Ex as ->.
  cbn [mbind option_bind] in H. destruct (nk_of _ _) as [nk|] eqn:En; [|done].
  cbn [mbind option_bind] in H. case_bool_decide; [|done]. injection H as ->.
  split_and!; [done..|]. by exists nk.
Qed.

Lemma redeemer_is_Some a spend id e : spent_by a spend id e → is_Some (redeemer a spend).
Proof.
  intros (He & Eh & nk & En & Hin). destruct (redeemer a spend) eqn:E; [by eexists|exfalso].
  unfold redeemer in E. rewrite find_map_None in E. specialize (E e He). rewrite Eh, En in E.
  cbn [mbind option_bind investor] in E. by rewrite bool_decide_eq_true_2 in E.
Qed.

(** A note that pays the agent and is not yet processed. *)
Definition pays_agent a view (c : Fr) (units : Z) : Prop :=
  (nullifier c (wk_nk (wa_keys (ta_wallet a))) ∉ cv_nullifiers view)
  ∧ ∃ e, e ∈ ta_register a ∧ re_commitment e = c ∧ nt_owner (re_note e) = agent_owner a
      ∧ entry_units e = units ∧ 0 < units.

Lemma entry_unique a e e' :
  NoDup (commitments_of (ta_register a)) → e ∈ ta_register a → e' ∈ ta_register a →
  re_commitment e = re_commitment e' → e = e'.
Proof.
  intros Hn [i Hi]%list_elem_of_lookup [j Hj]%list_elem_of_lookup E.
  assert (i = j) as ->; [|congruence].
  eapply (NoDup_lookup _ i j (re_commitment e) Hn); unfold commitments_of;
    change (map re_commitment) with (fmap (M:=list) re_commitment);
    rewrite list_lookup_fmap, ?Hi, ?Hj; cbn [fmap option_fmap option_map]; congruence.
Qed.

Lemma redemption_of_Some a view id c r :
  NoDup (commitments_of (ta_register a)) →
  redemption_of a view id c = Some r ↔
  rm_investor_id r = id ∧ rm_commitment r = c ∧ pays_agent a view c (rm_units r).
Proof.
  intros Hn. unfold redemption_of, pays_agent. case_bool_decide as Hp.
  { split; [done|]. by intros (_ & _ & ? & _). }
  split.
  - destruct (List.find _ _) as [e|] eqn:Ef; [|done]. cbn [mbind option_bind]. intros [= <-].
    apply List.find_some in Ef as [He Hc]. apply list_elem_of_In in He.
    apply andb_true_iff in Hc as [[Hc%fr_eqb_eq Ho%fr_eqb_eq]%andb_true_iff Hu%Z.ltb_lt].
    split_and!; [done..|]. by exists e.
  - intros (Ei & Ec & _ & e & He & Hc & Ho & Hu & Hpos).
    destruct (List.find _ _) as [e'|] eqn:Ef.
    + apply List.find_some in Ef as [He' Hc']. apply list_elem_of_In in He'.
      apply andb_true_iff in Hc' as [[Hc'%fr_eqb_eq _]%andb_true_iff _].
      rewrite (entry_unique a e' e Hn He' He) by congruence. cbn [mbind option_bind].
      fold (entry_units e). rewrite Hu. by destruct r; cbn in *; subst.
    + exfalso. eapply List.find_none in Ef; [|by apply list_elem_of_In]. cbn beta in Ef.
      apply not_true_iff_false in Ef. apply Ef. rewrite !andb_true_iff, Z.ltb_lt, !fr_eqb_eq.
      unfold entry_units in Hu. split_and!; [done..|]. by rewrite Hu.
Qed.

Lemma redemptions_elem a view r :
  r ∈ redemptions a view ↔
  ∃ spend id c, spend ∈ cv_spends view ∧ is_claim a spend = false ∧ redeemer a spend = Some id
    ∧ c ∈ sp_outputs spend ∧ redemption_of a view id c = Some r.
Proof.
  unfold redemptions.
  assert (∀ l out, r ∈ foldl (λ out spend, match redeemer a spend with
      | None => out | Some id => out ++ omap (redemption_of a view id) (sp_outputs spend) end) out l
    ↔ r ∈ out ∨ ∃ spend id c, spend ∈ l ∧ redeemer a spend = Some id
        ∧ c ∈ sp_outputs spend ∧ redemption_of a view id c = Some r) as H.
  { induction l as [|s l IH]; intros out; cbn [foldl].
    { split; [by left|]. intros [?|(? & ? & ? & ?%elem_of_nil & _)]; done. }
    rewrite IH. setoid_rewrite elem_of_cons. destruct (redeemer a s) as [id|] eqn:E; [|naive_solver].
    rewrite elem_of_app, list_elem_of_omap. naive_solver. }
  rewrite H. clear H. split.
  - intros [?%elem_of_nil|(s & id & c & Hs & ? & ? & ?)]; [done|].
    apply list_elem_of_In, filter_In in Hs as [Hs%list_elem_of_In Hc%negb_true_iff]. eauto 10.
  - intros (s & id & c & Hs & Hc & ? & ? & ?). right. exists s, id, c. split_and!; [|done..].
    apply list_elem_of_In, filter_In. split; [by apply list_elem_of_In|]. by rewrite Hc.
Qed.

(** C19: The redemptions the agent lists are exactly the pending ones: each
    is an unprocessed note of positive units that pays the agent's owner
    value, created by a spend that consumed a note of the investor it names and
    that is none of the agent's own claims; and every such note is listed.  So
    a seizure is never paid out as a redemption, and a redemption stops being
    listed as soon as the agent spends its note. *)
Theorem redemptions_exact a view :
  reachable a →
  (∀ r, r ∈ redemptions a view → ∃ spend e, spend ∈ cv_spends view ∧ is_claim a spend = false
     ∧ spent_by a spend (rm_investor_id r) e ∧ rm_commitment r ∈ sp_outputs spend
     ∧ pays_agent a view (rm_commitment r) (rm_units r))
  ∧ (∀ spend id e c units, spend ∈ cv_spends view → is_claim a spend = false → spent_by a spend id e →
     c ∈ sp_outputs spend → pays_agent a view c units →
     ∃ r, r ∈ redemptions a view ∧ rm_commitment r = c ∧ rm_units r = units).
Proof.
  intros Ha%reachable_inv. pose proof (ai_register a Ha) as Hn. split.
  - intros r (spend & id & c & Hs & Hc & Hid & Hin & Hr)%redemptions_elem.
    apply redemption_of_Some in Hr as (-> & -> & Hp); [|done].
    apply redeemer_Some in Hid as [e He]. by exists spend, e.
  - intros spend id e c units Hs Hc He Hin Hp. destruct (redeemer_is_Some _ _ _ _ He) as [x Hx].
    exists (mk_redemption x units c). split; [|done]. apply redemptions_elem.
    exists spend, x, c. split_and!; [done..|]. by apply redemption_of_Some.
Qed.
End ledger.
