(* ===== verification/MmfSample.v ===== *)
(** * A fund, step by step

    A concrete fund on the toy hash functions, with toy keys and a toy tree: an
    investor is onboarded, the agent deposits and pays it, and the theorems on
    the money-market-fund notes are applied to it. *)

From Stdlib Require Import ZArith Zcong Zdivisibility Lia Bool.
From stdpp Require Import base tactics list gmap strings numbers.
From S2P Require Import Prelude Field Types Poseidon Primality MmfTypes MmfCurve MmfChain MmfWallet MmfOk MmfAgent.
From S2P Require Import MmfWalletOk MmfHandOut MmfAgentOk MmfCaps MmfDelivery MmfChainOk.
From S2P Require Import MmfAgentRun MmfLedger.

Import Toy.

(** ** Toy keys *)
(** The field's inverse, by Euclid's algorithm; the modulus is prime. *)
#[export] Instance euclid_inverse : FrInverse := {| fr_inverse := λ a, fr_of_Z (Z.invmod (fr_val a) fr_modulus) |}.
#[export] Instance euclid_inverse_law : FrInverseLaws.
Proof.
  constructor. intros a Ha. apply fr_eq. cbn [fr_mul fr_inverse euclid_inverse fr_val fr_of_Z].
  rewrite Zmult_mod_idemp_l. apply Z.invmod_coprime'.
  symmetry. apply Z.coprime_prime_l; [exact fr_modulus_prime|]. intros Hd.
  pose proof (fr_range a). apply Ha, fr_eq. cbn [fr_zero fr_of_Z fr_val].
  apply Z.mod_divide in Hd; [|done]. rewrite Z.mod_small in Hd by lia. by rewrite Hd.
Qed.

(** A key is a field element, its own public half; a signature names its key
    and its digest; a seal names its key and a checksum of the data it is bound
    to. *)
Definition checksum (aad : list byte) : Fr := fr_from_be_bytes (toy_digest 3 aad).

#[export] Instance toy_custody : Custody Fr Fr (Fr * list byte) Fr Fr (Fr * Fr * list byte) := {|
  k_public sk := sk;
  k_coords p := (fr_to_be_bytes p, zeros 32);
  k_from_sec1 l := Some (fr_from_be_bytes (take 32 (drop 1 l)));
  k_sign_prehash sk d := (sk, d);
  k_sig_bytes s := fr_to_be_bytes s.1 ++ s.2;
  k_sig_from l := Some (fr_from_be_bytes (take 32 l), drop 32 l);
  k_verify_prehash p d s := fr_eqb p s.1 && bytes_eqb d s.2;
  v_public vk := vk;
  v_sec1 := fr_to_be_bytes;
  v_seal draw vpk m aad := (vpk, checksum aad, m);
  v_bytes e := fr_to_be_bytes e.1.1 ++ fr_to_be_bytes e.1.2 ++ e.2;
  v_parse l := Some (fr_from_be_bytes (take 32 l), fr_from_be_bytes (take 32 (drop 32 l)), drop 64 l);
  v_open vk e aad :=
    if fr_eqb e.1.1 vk && fr_eqb e.1.2 (checksum aad) then Some (Some e.2) else None;
|}.

Lemma fr_eqb_refl a : fr_eqb a a = true.
Proof. by apply fr_eqb_eq. Qed.

#[export] Instance toy_custody_laws : CustodyLaws Fr Fr (Fr * list byte) Fr Fr (Fr * Fr * list byte).
Proof.
  constructor.
  - intros p. cbn [k_from_sec1 k_coords toy_custody fst snd].
    rewrite skipn_cons, drop_0.
    rewrite take_app_length' by (by rewrite length_fr_to_be_bytes). by rewrite fr_from_to_be_bytes.
  - intros [p d]. cbn [k_sig_from k_sig_bytes toy_custody fst snd].
    rewrite take_app_length', drop_app_length' by (by rewrite length_fr_to_be_bytes).
    by rewrite fr_from_to_be_bytes.
  - intros sk d. cbn [k_verify_prehash k_sign_prehash k_public toy_custody fst snd].
    rewrite fr_eqb_refl. by apply bytes_eqb_eq.
  - intros [[v c] m]. cbn [v_parse v_bytes toy_custody fst snd].
    rewrite (take_app_length' (fr_to_be_bytes v)), (drop_app_length' (fr_to_be_bytes v) _ 32)
      by (by rewrite length_fr_to_be_bytes).
    rewrite (take_app_length' (fr_to_be_bytes c)) by (by rewrite length_fr_to_be_bytes).
    rewrite app_assoc, drop_app_length' by (by rewrite length_app, !length_fr_to_be_bytes).
    by rewrite !fr_from_to_be_bytes.
  - intros draw vk m aad. cbn [v_open v_seal v_public toy_custody fst snd]. by rewrite !fr_eqb_refl.
  - intros draw vpk m aad Hm. cbn [v_bytes v_seal toy_custody fst snd].
    rewrite !length_app, !length_fr_to_be_bytes. lia.
Qed.

(** ** A toy tree: a chain of hashes, [x0] with ([x1] with ([x2] with ...)). *)
Fixpoint chain_root (l : list Bytes32) : Bytes32 :=
  match l with
  | [] => []
  | [x] => x
  | x :: l' => tree_node x (chain_root l')
  end.
Fixpoint chain_proof (l : list Bytes32) (i : nat) : option (list RotorLevel) :=
  match l, i with
  | [], _ => None
  | [x], O => Some []
  | x :: l', O => Some [mk_rotor_level [chain_root l'] 0]
  | x :: l', S i' => p ← chain_proof l' i'; Some (p ++ [mk_rotor_level [x] 1])
  end.

#[export] Instance toy_rotor : RotorTree (list Bytes32) := {|
  rotor_new := [];
  rotor_insert_many t ls := Some (t ++ ls);
  rotor_root t := match t with [] => None | _ => Some (chain_root t) end;
  rotor_generate_proof t i := chain_proof t (Z.to_nat i);
|}.

Lemma chain_proof_Some l i : is_Some (chain_proof l i) ↔ (i < length l)%nat.
Proof.
  revert i. induction l as [|x l IH]; intros i; [split; [by intros []|cbn; lia]|].
  destruct i as [|i]; [cbn; case_match; split; try lia; by eexists|].
  cbn [length]. destruct l as [|y l]; [cbn; split; [by intros []|lia]|].
  change (chain_proof (x :: y :: l) (S i))
    with (p ← chain_proof (y :: l) i; Some (p ++ [mk_rotor_level [x] 1])).
  rewrite <-Nat.succ_lt_mono, <-IH. destruct (chain_proof (y :: l) i) as [q|].
  - split; intros _; by eexists.
  - done.
Qed.

Lemma chain_proof_root l i x p :
  l !! i = Some x → chain_proof l i = Some p → foldl level_fold x p = chain_root l.
Proof.
  revert i p. induction l as [|y l IH]; intros i p Hi Hp; [done|].
  destruct i as [|i]; cbn [lookup list_lookup] in Hi.
  - injection Hi as ->. destruct l as [|z l]; cbn [chain_proof] in Hp; by injection Hp as <-.
  - destruct l as [|z l]; [done|].
    change (chain_proof (y :: z :: l) (S i))
      with (p ← chain_proof (z :: l) i; Some (p ++ [mk_rotor_level [y] 1])) in Hp.
    apply bind_Some in Hp as (q & Hq & [= <-]). rewrite foldl_app, (IH i q Hi Hq). done.
Qed.

#[export] Instance toy_rotor_laws : RotorLaws (list Bytes32).
Proof.
  refine (Build_RotorLaws toy_crypto (list Bytes32) toy_rotor (λ t, t) _ _ _ _).
  - done.
  - intros t ls t' [= <-]. done.
  - intros t i. cbn [rotor_generate_proof toy_rotor]. rewrite Nat2Z.id. apply chain_proof_Some.
  - intros t i l levels Hl. cbn [rotor_generate_proof rotor_root toy_rotor]. rewrite Nat2Z.id.
    intros Hp. destruct t as [|x t]; [done|]. f_equal. symmetry. by eapply chain_proof_root.
Defined.

(** ** The fund *)

(** The value of a call that succeeds. *)
Definition force {E A} (m : outcome E A) : is_ok m = true → A :=
  match m with
  | Ok a => λ _, a
  | _ => λ H, False_rect A (Bool.diff_false_true H)
  end.
Lemma force_eq {E A} (m : outcome E A) H : m = Ok (force m H).
Proof. by destruct m. Qed.

Abbreviation Agent := (TransferAgent Fr Fr Fr).
Abbreviation Call := (agent_call (T:=list Bytes32) (SK:=Fr) (VK:=Fr) (VPK:=Fr)).
Abbreviation View := (ChainView (list Bytes32)).

Definition num (z : Z) : Fr := fr_of_Z z.
Definition addr (z : Z) : list byte := be_of_Z 20 z.
Definition agent_keys : OwnerKeys Fr Fr := mk_owner_keys (num 201) (num 202) (num 203).
Definition alice_keys : OwnerKeys Fr Fr := mk_owner_keys (num 101) (num 102) (num 103).
Definition tk0 : FeedSecret := mk_feed_secret 2 0.
Definition feed1 : FeedSecret := mk_feed_secret 1 0.
Definition alice_wallet : Wallet Fr := wallet_new (split alice_keys).2.

Definition fund0 : Agent := deployed agent_keys (num 301) tk0 (num 7) (Some 2%nat) [("US", 1%nat)].
Definition fund_env : PoolEnv :=
  mk_env 1 (addr 11) (addr 12) (public_point tk0) (claim_key_hash fund0) 0 100 8640000.
Definition alice_registration : Registration Fr := registration alice_wallet fund_env "alice".
Lemma investor_signs : is_ok (sign_registration (num 101) alice_registration) = true.
Proof. vm_compute. reflexivity. Qed.
Definition alice_signature : list byte := force _ investor_signs.

Definition onboarding : list Call :=
  [CallVerifyInvestor "alice" "US";
   CallOnboard "alice" fund_env alice_registration alice_signature (num 102)].
Definition run_calls (a : Agent) (l : list Call) : Agent :=
  foldl (λ a c, run_call c a) a l.
Definition fund1 : Agent := run_calls fund0 onboarding.

(** Both owner values attested, by what the registry logged. *)
Definition att_log (owner : Fr) : outcome ChainError AttestationEvent :=
  Ok (mk_attestation_event (fr_to_be_bytes owner) (fr_to_be_bytes owner) (addr 5) 0 8640000
        (200 * EPOCH_SECONDS)).
Definition att_logs : list (outcome ChainError AttestationEvent) :=
  [att_log (agent_owner fund0); att_log (wallet_owner alice_wallet)].
Lemma view0_ok : is_ok (sync (T:=list Bytes32) [] [] att_logs) = true.
Proof. vm_compute. reflexivity. Qed.
Definition view0 : View := force _ view0_ok.

(** The agent deposits 1000 units. *)
Lemma deposit_ok :
  is_ok (deposit (num 51) [] feed1 (ta_wallet fund1) (num 201) view0 fund_env 1000 (addr 9)) = true.
Proof. vm_compute. reflexivity. Qed.
Definition deposited : DepositWitness * list byte := force _ deposit_ok.
Definition deposit_event : PoolEvent :=
  EvDeposit (fr_to_be_bytes (dw_commitment deposited.1)) (feed_r_words (dw_feed_r deposited.1))
    (u256_array (dw_feed_ct deposited.1)) deposited.2.
Definition logs1 : list PoolLog := [mk_pool_log (Ok deposit_event) (Some (zeros 32))].
Lemma view1_ok : is_ok (sync (T:=list Bytes32) logs1 [] att_logs) = true.
Proof. vm_compute. reflexivity. Qed.
Definition view1 : View := force _ view1_ok.
Definition fund2 : Agent := run_call (CallReadFeed view1) fund1.

(** It pays 300 of them to the investor. *)
Definition pay_draws : TransferDraws := mk_draws (num 60) (num 61, num 62) ([], []) feed1.
Definition pay_spec : TransferSpec Fr :=
  owner_spec (ta_wallet fund2) (wa_notes (ta_wallet fund2))
    (mk_output (wallet_owner alice_wallet) 300 lock_none (wallet_vpk alice_wallet),
     mk_output (agent_owner fund2) 700 lock_none (wallet_vpk (ta_wallet fund2))).
Lemma built_ok : is_ok (build_transfer pay_draws pay_spec (num 201) view1 fund_env) = true.
Proof. vm_compute. reflexivity. Qed.
Definition built : BuiltTransfer := force _ built_ok.
Definition sample_proof : CircuitProof :=
  mk_circuit_proof [] (transfer_public_inputs (bt_witness built)).
Lemma submitted_ok :
  is_ok (submission_transfer (E:=unit) (bt_witness built) sample_proof (bt_payload built)) = true.
Proof. vm_compute. reflexivity. Qed.
Definition pay_params : TransferParams :=
  mk_transfer_params (cp_proof sample_proof) (fr_to_be_bytes (tw_nullifiers (bt_witness built)).1)
    (fr_to_be_bytes (tw_nullifiers (bt_witness built)).2)
    (fr_to_be_bytes (tw_commitments_out (bt_witness built)).1)
    (fr_to_be_bytes (tw_commitments_out (bt_witness built)).2)
    (fr_to_be_bytes (tw_commitment_root (bt_witness built)))
    (fr_to_be_bytes (tw_attestation_root (bt_witness built))) (tw_epoch (bt_witness built))
    (feed_r_words (tw_feed_r (bt_witness built))) (u256_array (tw_feed_ct (bt_witness built)))
    (bt_payload built).
Lemma view2_ok : is_ok (sync (T:=list Bytes32)
  (logs1 ++ mk_pool_log (Ok (transfer_log pay_params)) None :: []) [] att_logs) = true.
Proof. vm_compute. reflexivity. Qed.
Definition view2 : View := force _ view2_ok.
Definition fund3 : Agent := run_call (CallReadFeed view2) fund2.

(** The investor redeems 100 of them. *)
Definition alice_held : Wallet Fr := scan alice_wallet view2.
Definition redeem_draws : TransferDraws := mk_draws (num 70) (num 71, num 72) ([], []) feed1.
Lemma redeemed_ok :
  is_ok (pay redeem_draws alice_held (num 101) view2 fund_env (agent_owner fund0)
           (wallet_vpk (ta_wallet fund0)) 100) = true.
Proof. vm_compute. reflexivity. Qed.
Definition redeemed : BuiltTransfer := force _ redeemed_ok.
Definition redeem_event : PoolEvent :=
  let w := bt_witness redeemed in
  EvTransfer (fr_to_be_bytes (tw_nullifiers w).1) (fr_to_be_bytes (tw_nullifiers w).2)
    (fr_to_be_bytes (tw_commitments_out w).1) (fr_to_be_bytes (tw_commitments_out w).2)
    (feed_r_words (tw_feed_r w)) (u256_array (tw_feed_ct w)) (bt_payload redeemed).
Lemma view3_ok : is_ok (sync (T:=list Bytes32)
  (logs1 ++ [mk_pool_log (Ok (transfer_log pay_params)) None; mk_pool_log (Ok redeem_event) None])
  [] att_logs) = true.
Proof. vm_compute. reflexivity. Qed.
Definition view3 : View := force _ view3_ok.
Definition fund4 : Agent := run_call (CallReadFeed view3) fund3.

Lemma fund_reachable : reachable (T:=list Bytes32) fund0.
Proof. apply reach_deployed. Qed.
Lemma fund1_reachable : reachable (T:=list Bytes32) fund1.
Proof. unfold fund1, run_calls, onboarding. cbn [foldl]. do 2 apply reach_call. apply fund_reachable. Qed.
Lemma fund2_reachable : reachable (T:=list Bytes32) fund2.
Proof. apply reach_call, fund1_reachable. Qed.
Lemma fund4_reachable : reachable (T:=list Bytes32) fund4.
Proof. do 2 apply reach_call. apply fund2_reachable. Qed.

(** ** The theorems at work *)
Definition sample_orders : list (HandOutOrder Fr) :=
  [mk_order (num 1) (num 103) 300 None; mk_order (num 2) (num 103) 200 (Some 400);
   mk_order (num 3) (num 103) 500 None].

Lemma sample_payable : payable sample_orders.
Proof.
  split; [|vm_compute; reflexivity]. apply list.Forall_forall. intros o Ho.
  unfold sample_orders in Ho. rewrite !elem_of_cons, elem_of_nil in Ho. destruct Ho as [-> |[-> |[-> |[]]]]; vm_compute; discriminate.
Qed.

Lemma plan_hand_out_exact_witness :
  ∃ plan, plan_hand_out fund1 sample_orders = Some (Ok plan) ∧ length plan = 2%nat
    ∧ NoDup (sources plan)
    ∧ unspent plan ≡ₚ map order_output sample_orders.
Proof.
  destruct (plan_hand_out_exact fund1 sample_orders) as (plan & E & Hl & Hn & _ & Hu).
  - discriminate.
  - exact sample_payable.
  - exists plan. split; [exact E|]. split; [exact Hl|]. split; [exact Hn|].
    rewrite Hu. rewrite app_nil_r. reflexivity.
Defined.

Definition late_env : PoolEnv :=
  mk_env 1 (addr 11) (addr 12) (public_point tk0) (claim_key_hash fund0) 0 190 16416000.
Definition padding_keys (i : nat) : OwnerKeys Fr Fr :=
  mk_owner_keys (num (1000 + Z.of_nat i)) (num 5) (num 6).

Lemma attestation_batch_within_caps_witness :
  ∃ batch over_cap a',
    attestation_batch padding_keys (λ l, l) view0 late_env [] 0 fund1
      = (Ok (mk_round batch over_cap), a')
    ∧ Forall (λ p, length p = 16%nat) (ab_parts batch).
Proof.
  destruct (attestation_batch_within_caps padding_keys (λ l, l) view0 late_env [] 0 fund1)
    as (batch & over_cap & a' & before & admitted & pads & n & E & Hp & _).
  - exact (ai_investors _ (reachable_inv _ fund1_reachable)).
  - constructor.
  - intros l. reflexivity.
  - split; [discriminate|reflexivity].
  - intros s Hs. exfalso. vm_compute in Hs. discriminate Hs.
  - exists batch, over_cap, a'. split; [exact E|exact Hp].
Defined.

Lemma logs1_ok : is_ok (for_each sync_step sync_start logs1) = true.
Proof. vm_compute. reflexivity. Qed.

Lemma transfer_delivered_witness :
  ∃ e m, e ∈ ta_register (read_feed fund2 view2) ∧ re_holder e = Some (Investor "alice")
    ∧ nt_units (re_note e) = 300 ∧ m ∈ wa_notes (scan alice_wallet view2) ∧ on_note m = re_note e.
Proof.
  destruct (transfer_delivered pay_draws pay_spec (num 201) view1 fund_env built sample_proof pay_params
    logs1 [] [] att_logs None (force _ logs1_ok) view2 fund2 tk0 false)
    as (Hu & Ho & e & He & En & _ & _ & Hh & Hw).
  - exact (force_eq _ built_ok).
  - vm_compute. reflexivity.
  - exact (force_eq _ logs1_ok).
  - exact (force_eq _ view2_ok).
  - vm_compute. reflexivity.
  - reflexivity.
  - repeat split; vm_compute; try discriminate; reflexivity.
  - repeat split; vm_compute; try discriminate; reflexivity.
  - vm_compute. reflexivity.
  - repeat split; vm_compute; try discriminate; reflexivity.
  - repeat split; vm_compute; try discriminate; reflexivity.
  - intros r r' Hr Hr' E E'. apply (distinct_records (cv_notes view2)); [|done|done|congruence].
    eapply bool_decide_eq_true_1. vm_compute. reflexivity.
  - eapply bool_decide_eq_true_1. vm_compute. reflexivity.
  - eapply bool_decide_eq_true_1. vm_compute. reflexivity.
  - destruct (Hw alice_wallet) as (m & Hm & Hn & _).
    + vm_compute. reflexivity.
    + reflexivity.
    + eapply bool_decide_eq_true_1. vm_compute. reflexivity.
    + exists e, m. split; [exact He|]. split; [rewrite Hh; vm_compute; reflexivity|].
      split; [rewrite En, Hu; reflexivity|]. split; [exact Hm|].
      rewrite Hn. symmetry. exact En.
Defined.

Lemma agent_invariant_witness : agent_inv fund4 ∧ is_ok (register_public_key fund4) = true.
Proof. apply (agent_invariant fund4). exact fund4_reachable. Defined.

Lemma agent_history_witness : grows fund1 (run_calls fund1 [CallReadFeed view1; CallReadFeed view2]).
Proof. apply (agent_history fund1 [CallReadFeed view1; CallReadFeed view2]). exact fund1_reachable. Defined.

Lemma fund2_units : Forall (λ n, 0 ≤ nt_units (on_note n) < 2 ^ 64) (spendable (ta_wallet fund2) 100).
Proof. eapply bool_decide_eq_true_1. vm_compute. reflexivity. Qed.
Lemma fund2_sum : sum_units (spendable (ta_wallet fund2) 100) = 1000.
Proof. vm_compute. reflexivity. Qed.

Lemma pay_exact_witness :
  ∃ ins change, ins ⊆+ spendable (ta_wallet fund2) 100
    ∧ sum_units ins = 300 + change ∧ 0 ≤ change
    ∧ pay pay_draws (ta_wallet fund2) (num 201) view1 fund_env (wallet_owner alice_wallet) (num 103) 300
      = transfer pay_draws (ta_wallet fund2) (num 201) view1 fund_env ins
          (mk_output (wallet_owner alice_wallet) 300 lock_none (num 103),
           mk_output (wallet_owner (ta_wallet fund2)) change lock_none (wallet_vpk (ta_wallet fund2))).
Proof.
  destruct (pay_exact pay_draws (ta_wallet fund2) (num 201) view1 fund_env
    (wallet_owner alice_wallet) (num 103) 300)
    as [(ins & change & E & Hs & _ & H0 & Hc & _)|[(have & _ & Hlt & _ & H)|(_ & Hnc & _)]].
  - exact fund2_units.
  - split; reflexivity.
  - exists ins, change. split; [exact Hs|]. split; [exact Hc|]. split; [exact H0|exact E].
  - exfalso. specialize (H (spendable (ta_wallet fund2) 100)).
    assert (1000 ≤ have) as Hge; [|lia]. rewrite <-fund2_sum. apply H; [reflexivity|].
    apply Nat.leb_le. vm_compute. reflexivity.
  - exfalso. apply Hnc, list.Exists_exists. eapply bool_decide_eq_true_1. vm_compute. reflexivity.
Defined.

Lemma alice_scans : is_Some (wa_notes (scan alice_wallet view2) !! 0%nat).
Proof. eapply bool_decide_eq_true_1. vm_compute. reflexivity. Qed.
Lemma scanned_notes_provable_witness :
  ∃ n iw, n ∈ wa_notes (scan alice_wallet view2) ∧ input n view2 = Ok iw
    ∧ iw_units iw = nt_units (on_note n)
    ∧ fold_proof (iw_path iw) (on_commitment n) = root (cv_commitments view2).
Proof.
  destruct alice_scans as [n Hn]. apply list_elem_of_lookup_2 in Hn.
  destruct (scanned_notes_provable
    (logs1 ++ mk_pool_log (Ok (transfer_log pay_params)) None :: []) [] att_logs view2 alice_wallet)
    with (n := n) as [(iw & E & Hu & Hf) _].
  - exact (force_eq _ view2_ok).
  - intros m Hm. exfalso. by apply elem_of_nil in Hm.
  - exact Hn.
  - exists n, iw. split; [exact Hn|]. split; [exact E|]. split; [exact Hu|exact Hf].
Defined.

Definition paid (to shares : Z) : Outflow := mk_outflow (addr to) shares (zeros 32) false.
Lemma match_withdrawals_exact_witness :
  count_explained (zeros 32, addr 1, 100)
    (match_withdrawals [paid 1 100; paid 2 5; paid 1 100] [(zeros 32, addr 1, 100)]) = 1%nat
  ∧ count_explained (zeros 32, addr 2, 5)
      (match_withdrawals [paid 1 100; paid 2 5; paid 1 100] [(zeros 32, addr 1, 100)]) = 0%nat.
Proof.
  destruct (match_withdrawals_exact [paid 1 100; paid 2 5; paid 1 100] [(zeros 32, addr 1, 100)])
    as [_ H].
  - eapply bool_decide_eq_true_1. vm_compute. reflexivity.
  - split; (rewrite H; vm_compute; reflexivity).
Defined.

Lemma reconcile_exact_witness :
  (reconcile view2 (mk_totals 1000 1007 S_) fund2).1 = Ok (mk_reconciliation 7 []).
Proof.
  destruct (reconcile_exact view2 (mk_totals 1000 1007 S_) fund2) as [E _].
  - exact fund2_reachable.
  - vm_compute. reflexivity.
  - split; [vm_compute; discriminate|vm_compute; reflexivity].
  - vm_compute. reflexivity.
  - rewrite E. vm_compute. reflexivity.
Defined.

Lemma redemptions_exact_witness :
  length (redemptions fund4 view3) = 1%nat
  ∧ ∀ r, r ∈ redemptions fund4 view3 → pays_agent fund4 view3 (rm_commitment r) (rm_units r).
Proof.
  split; [vm_compute; reflexivity|]. intros r Hr.
  destruct (redemptions_exact fund4 view3 fund4_reachable) as [H _].
  destruct (H r Hr) as (spend & e & _ & _ & _ & _ & Hp). exact Hp.
Defined.

Lemma onboarding_accepted_witness :
  ∃ a2, onboard "alice" fund_env alice_registration alice_signature (num 102)
          (verify_investor "alice" "US" fund0).2 = (Ok (wallet_owner alice_wallet), a2)
    ∧ holder_of a2 (wallet_owner alice_wallet) = Some (Investor "alice").
Proof.
  destruct (onboarding_accepted alice_keys fund_env "alice" "US" alice_signature fund0)
    as (a2 & E & _ & Hh & _).
  - reflexivity.
  - apply fr_eqb_neq. vm_compute. reflexivity.
  - exact (force_eq _ investor_signs).
  - intros rec Hrec. exfalso. vm_compute in Hrec. discriminate Hrec.
  - apply fr_eqb_neq. vm_compute. reflexivity.
  - exists a2. split; [exact E|exact Hh].
Defined.
