(* ===== verification/Sample.v ===== *)
(** * A petition, start to end

    One concrete run of all the roles, on the toy hash functions, the mock
    proof system and the in-memory adapters: two signers enroll and sign, a
    relayer batches, the registry publishes, a disputant disputes, a resolver
    resolves.  The hypotheses of the theorems of the development are evaluated
    on it. *)

From Stdlib Require Import ZArith Lia Bool.
From stdpp Require Import base tactics list gmap strings numbers.
From S2P Require Import Prelude Field Types Predicate Poseidon Imt Records Fsrt Blob Ports Organizer Disputant Registry RegistryInv RegistryRun RegistryTrace Disputes Relayer RelayerOk Resolver ResolverOk Signer.

Import Toy.

(** ** A lean tree: the leaves, and a running checksum as the root *)
Record ToyLean : Type := mk_toy_lean { tl_leaves : list (list byte) }.

#[export] Instance toy_lean : LeanIMT ToyLean := {|
  lean_new _ := mk_toy_lean [];
  lean_insert t v := mk_toy_lean (tl_leaves t ++ [v]);
  lean_root t := match tl_leaves t with
                 | [] => None
                 | ls => Some (fr_to_be_bytes (toy_poseidon (map fr_from_be_bytes ls)))
                 end;
  lean_size t := length (tl_leaves t);
  lean_generate_proof t i :=
    if (i <? length (tl_leaves t))%nat then Some (mk_lean_proof [] (Z.of_nat i)) else None;
|}.

#[export] Instance toy_lean_laws : LeanLaws ToyLean.
Proof. constructor; [done|]. intros t v. cbn. rewrite length_app. cbn. lia. Qed.

Definition word (z : Z) : list byte := be_of_Z 32 z.
Definition addr (z : Z) : list byte := be_of_Z 20 z.

(** ** Enrollment *)
Abbreviation SRi := (InMemoryRi ToyLean).
Abbreviation SSigner := (Signer MockProofBackend SRi).

Definition attrs_of (class : Z) : list Fr := map fr_of_Z [1; class; 0; 0].

Definition enrolled (ri : SRi) (class seed secret : Z)
  : outcome unit (SSigner * EnrollmentArtifact) :=
  signer_enroll mock_backend ri (attrs_of class) 4 0 100 (Some (word seed)) None
    (Some (word secret)).

Definition get {E A} (d : A) (m : outcome E A) : A := match m with Ok a => a | _ => d end.

Definition dummy_chain : SignerChainState :=
  mk_chain_state fr_zero 0 caterpillar_empty fr_zero 0 [] [].
Definition dummy_signer : SSigner :=
  mk_signer (mk_credentials [] [] 0) dummy_chain mock_backend mr_new.

Definition alice : SSigner :=
  (get (dummy_signer, mk_artifact [] [] 0) (enrolled mr_new 7 11 101)).1.
Definition bob : SSigner :=
  (get (dummy_signer, mk_artifact [] [] 0) (enrolled (sg_ri alice) 9 22 202)).1.
Definition world_ri : SRi := sg_ri bob.

(** ** Registration *)
Definition sample_global : GlobalState := mk_global 0 1 0 10 (word 5) 1 x04.
Abbreviation SReg := (PetitionRegistry MockProofBackend SRi InMemoryBlobCarrier).

Definition reg0 : SReg :=
  registry_new (addr 1) sample_global mock_backend world_ri mem_new.

Definition registration_block : Z := 300000.
Definition closing_block : Z := 301000.

Definition sample_predicate : PredicateDef := mk_def [eq_tuple x01 7] [push x00].
Definition sample_draft : PetitionDraft :=
  mk_draft (addr 2) (ri_root world_ri) sample_predicate (word 77) [7; 9] [1; 1] x01
    closing_block (word 5000).

Definition call_register : Call := CallRegister registration_block sample_draft.
Definition registered_id (res : outcome RegistryError Event) : list byte :=
  match res with Ok (EvRegistered id) => id | _ => [] end.
Definition reg1 : SReg := (run_call call_register reg0).2.
Definition event1 : outcome RegistryError Event := (run_call call_register reg0).1.
Definition pid : list byte := registered_id event1.

Definition dummy_record : PetitionRecord :=
  mk_petition [] 0 [] [] [] [] [] [] x00 0 [] 0 [] [] [] 0 [] false [] Registered 0.
Definition entry_in (s : SReg) : PetitionEntry :=
  default (mk_entry dummy_record [] imt_new imt_new) (reg_petitions s !! pid).
Definition record_at (now : Z) (s : SReg) : PetitionRecord :=
  get dummy_record (step_record now (pe_record (entry_in s))).

(** ** Signing *)
Definition meta_for (class : Z) : PetitionMeta :=
  mk_meta pid (ri_root world_ri) (pr_predicate_hash (pe_record (entry_in reg1))) 0 x01 class
    sample_predicate (word 77) 0.
Definition dummy_submission : SignerSubmission := mk_submission [] [] [] x00 0 [] [] 0 [].
Definition sub_alice : SignerSubmission := get dummy_submission (sign (meta_for 7) alice).1.
Definition sub_bob : SignerSubmission := get dummy_submission (sign (meta_for 9) bob).1.

(** ** Relaying *)
Definition signing_block : Z := 300500.
Abbreviation SRelayer := (Relayer MockProofBackend InMemoryBlobCarrier).
Definition relayer0 : SRelayer := mk_relayer (addr 3) mock_backend mem_new.
Definition view1 : PetitionView := view_of (record_at signing_block reg1) (word 9).
Definition replica1 : RelayerPetitionState :=
  replica_of (with_record (entry_in reg1) (record_at signing_block reg1)).
Definition batching := build_batch view1 [sub_alice; sub_bob] (relayer0, replica1).
Definition dummy_public : BatchPublicInputs :=
  mk_batch_public fr_zero fr_zero fr_zero fr_zero fr_zero fr_zero fr_zero fr_zero fr_zero
    fr_zero fr_zero fr_zero fr_zero [] fr_zero.
Definition batch1 : BatchSubmission :=
  (get (mk_batch_submission dummy_public [] [], []) batching.1).1.
Definition relayer1 : SRelayer := batching.2.1.

(** ** Publication *)
Definition call_publish : Call := CallPublish signing_block pid (addr 3) batch1.
Definition reg2 : SReg := (run_call call_publish reg1).2.
Definition event2 : outcome RegistryError Event := (run_call call_publish reg1).1.
Definition reg3 : SReg := set_services reg2 mock_backend world_ri (rel_blob_carrier relayer1).

(** ** Dispute *)
Definition dispute_block : Z := 302000.
Definition dummy_batch : BatchRecord := mk_batch [] 0 [] [] [] [] [] 0 0 [] 0 Repudiated.
Definition the_batch : BatchRecord := default dummy_batch (pe_batches (entry_in reg3) !! 0%nat).
Definition padding_dispute : Dispute :=
  get (mk_dispute [] 0 ClassTagOutOfSet 0 None [])
    (build_intra_batch_duplicate_identity_tag (reg_blob_carrier reg3)
       (dispute_context pid (entry_in reg3) 0 the_batch) 998 999).
Definition call_dispute : Call := CallDispute dispute_block padding_dispute.
Definition event3 : outcome RegistryError Event := (run_call call_dispute reg3).1.

(** ** Resolution *)
Definition resolution_block : Z := 402000.
Abbreviation SResolver := (Resolver MockProofBackend InMemoryBlobCarrier).
Definition resolver0 : SResolver := mk_resolver mock_backend (rel_blob_carrier relayer1).
Definition resolver_view : ResolverView :=
  resolver_view_of (with_record (entry_in reg3) (record_at resolution_block reg3)).
Definition resolution : outcome ResolverError ResolutionSubmission :=
  resolver_resolve resolver0 resolver_view.

(** ** The calls succeed *)
Lemma register_runs : is_ok event1 = true.
Proof. vm_compute. reflexivity. Qed.
Lemma batch_built_ok : is_ok batching.1 = true.
Proof. vm_compute. reflexivity. Qed.
Lemma publish_runs : is_ok event2 = true.
Proof. vm_compute. reflexivity. Qed.
Lemma dispute_runs : is_ok event3 = true.
Proof. vm_compute. reflexivity. Qed.
Lemma resolution_runs : is_ok resolution = true.
Proof. vm_compute. reflexivity. Qed.

(** ** The run, as a trace of the registry *)
Definition ghost1 : Ghost := ghost_call call_register event1 ∅.
Definition trace1 : list Event := [] ++ emitted event1.
Definition ghost2 : Ghost := ghost_call call_publish event2 ghost1.
Definition trace2 : list Event := trace1 ++ emitted event2.

Definition record_okb (r : RecordEntry) : bool :=
  ((length (re_nullifier r) =? 32) && (length (re_identity_tag r) =? 32))%nat
  && (0 <=? re_class_tag r) && (re_class_tag r <? 65536).

Lemma records_checked rs : forallb record_okb rs = true → Forall record_ok rs.
Proof.
  intros H. apply list.Forall_forall. intros r Hr%list_elem_of_In.
  rewrite forallb_forall in H. specialize (H r Hr).
  apply andb_true_iff in H as [[[H1 H2]%andb_true_iff H3]%andb_true_iff H4].
  apply Nat.eqb_eq in H1, H2. unfold record_ok. lia.
Qed.

Lemma batch_records_ok : Forall record_ok (bs_records batch1).
Proof. apply records_checked. vm_compute. reflexivity. Qed.

Lemma reach1 : reachable registration_block trace1 ghost1 reg1.
Proof.
  refine (reach_call 0 [] ∅ reg0 call_register event1 reg1 _ _ _ _ _); [|done..|].
  - by apply reach_new.
  - apply surjective_pairing.
Qed.

Lemma reach2 : reachable signing_block trace2 ghost2 reg2.
Proof.
  refine (reach_call _ trace1 ghost1 reg1 call_publish event2 reg2 reach1 _ _ _ _); [done| |done|].
  - apply batch_records_ok.
  - apply surjective_pairing.
Qed.

Lemma reach3 : reachable signing_block trace2 ghost2 reg3.
Proof. apply reach_services, reach2. Qed.

Definition has_entry (s : SReg) : bool :=
  match reg_petitions s !! pid with Some _ => true | None => false end.
Lemma entry_found (s : SReg) : has_entry s = true → reg_petitions s !! pid = Some (entry_in s).
Proof. unfold has_entry, entry_in. by destruct (reg_petitions s !! pid). Qed.
Lemma entry1 : reg_petitions reg1 !! pid = Some (entry_in reg1).
Proof. apply entry_found. vm_compute. reflexivity. Qed.
Lemma entry3 : reg_petitions reg3 !! pid = Some (entry_in reg3).
Proof. apply entry_found. vm_compute. reflexivity. Qed.

Lemma get_Ok {E A} (d : A) (m : outcome E A) : is_ok m = true → m = Ok (get d m).
Proof. by destruct m. Qed.

Lemma advanced_found now (s : SReg) :
  has_entry s = true → is_ok (step_record now (pe_record (entry_in s))) = true →
  advanced now s pid (entry_in s) (record_at now s).
Proof. intros H1 H2. split; [by apply entry_found|by apply get_Ok]. Qed.

Lemma advanced1 : advanced signing_block reg1 pid (entry_in reg1) (record_at signing_block reg1).
Proof. apply advanced_found; vm_compute; reflexivity. Qed.
Lemma advanced3 now :
  is_ok (step_record now (pe_record (entry_in reg3))) = true →
  advanced now reg3 pid (entry_in reg3) (record_at now reg3).
Proof. apply advanced_found. vm_compute. reflexivity. Qed.

Lemma ghost_publish (now : Z) (id r : list byte) (sub : BatchSubmission) (res : outcome RegistryError Event) (G : Ghost) :
  is_ok res = true →
  ghost_call (CallPublish now id r sub) res G !! id
  = Some (default [] (G !! id) ++ [bs_records sub]).
Proof. destruct res; [intros _; apply lookup_insert_eq|done..]. Qed.

Definition is_registered (res : outcome RegistryError Event) : bool :=
  match res with Ok (EvRegistered _) => true | _ => false end.
Lemma ghost_register (now : Z) (draft : PetitionDraft) (res : outcome RegistryError Event) (G : Ghost) :
  is_registered res = true →
  ghost_call (CallRegister now draft) res G !! registered_id res = Some [].
Proof. destruct res as [[]| |]; [intros _; apply lookup_insert_eq|done..]. Qed.

Lemma ghost2_pid : ghost2 !! pid = Some [bs_records batch1].
Proof.
  unfold ghost2. refine (eq_trans (ghost_publish _ _ _ _ _ _ publish_runs) _).
  refine (f_equal (λ o, Some (default [] o ++ [bs_records batch1])) (y := Some []) _).
  apply ghost_register. vm_compute. reflexivity.
Qed.

#[export] Instance BlobEntry_eq_dec : EqDecision BlobEntry.
Proof. solve_decision. Defined.

Lemma singleton_of {A} (d : A) (l : list A) :
  (length l =? 1)%nat = true → l = [default d (l !! 0%nat)].
Proof. by destruct l as [|a [|]]. Qed.

(** One batch, which the carrier serves. *)
Lemma batches3 : pe_batches (entry_in reg3) = [the_batch] ∧ is_active the_batch = true.
Proof.
  assert ((length (pe_batches (entry_in reg3)) =? 1)%nat && is_active the_batch = true)
    as [H1 H2]%andb_true_iff by (vm_compute; reflexivity).
  split; [exact (singleton_of dummy_batch _ H1)|exact H2].
Qed.

Lemma batch_carried :
  mem_carries (rel_blob_carrier relayer1) (br_batch_versioned_hash the_batch) (bs_records batch1).
Proof. unfold mem_carries. apply (bool_decide_unpack _). vm_compute. exact I. Qed.
