(* ===== verification/Witnesses.v ===== *)
(** * The theorems at work

    Each theorem of the roles with hypotheses, applied to the concrete run of
    [Sample]. *)

From Stdlib Require Import ZArith Lia Bool.
From stdpp Require Import base tactics list gmap strings numbers.
From S2P Require Import Prelude Field Types Predicate Poseidon Imt Records Fsrt Blob Ports Organizer Disputant Registry RegistryInv RegistryRun RegistryTrace RegistryTotal OrganizerOk Disputes Relayer RelayerOk Resolver ResolverOk Signer Sample.

Import Toy.

#[local] Opaque reg0 reg1 reg2 reg3 batch1 event1 event2 event3.

(** ** Blobs *)
Definition two_records : list RecordEntry :=
  [mk_record (word 5) (word 6) 7; mk_record (word 0) (word 0) 0; mk_record (word 1) (word 2) 3].

Lemma blob_roundtrip_witness :
  ∃ fes, encode_blob two_records = Ok fes ∧ decode_blob fes = Ok (until_zero two_records).
Proof.
  apply (blob_roundtrip two_records).
  - apply records_checked. vm_compute. reflexivity.
  - apply Nat.leb_le. vm_compute. reflexivity.
Defined.

(** ** Traces *)
Lemma no_double_counting_witness :
  ∃ recs, ghost2 !! pid = Some recs ∧
    NoDup (tags_of (active_records (pe_batches (entry_in reg3)) recs)).
Proof.
  destruct (no_double_counting signing_block trace2 ghost2 reg3 pid (entry_in reg3) reach3 entry3)
    as (recs & HG & _ & _ & Hn & _).
  exists recs. split; [exact HG|exact Hn].
Defined.

Lemma escrow_conserved_witness :
  payouts pid trace2 = settled (reg_petitions reg3 !! pid).
Proof. exact (escrow_conserved signing_block trace2 ghost2 reg3 pid reach3). Defined.

Lemma lifecycle_forward_witness :
  ∃ e', reg_petitions (run_call call_publish reg1).2 !! pid = Some e' ∧
    terms (pe_record e') = terms (pe_record (entry_in reg1)).
Proof.
  destruct (lifecycle_forward registration_block trace1 ghost1 reg1 call_publish
              (run_call call_publish reg1).1 (run_call call_publish reg1).2 pid (entry_in reg1))
    as (e' & H1 & H2 & _);
    [exact reach1|exact batch_records_ok|apply surjective_pairing|exact entry1|].
  exists e'. split; [exact H1|exact H2].
Defined.

Lemma registered_terms_sound_witness : sound_terms (pe_record (entry_in reg3)).
Proof.
  exact (proj1 (registered_terms_sound signing_block trace2 ghost2 reg3 pid (entry_in reg3)
           reach3 entry3)).
Defined.

Lemma publish_Ok : ∃ ev s', publish_batch signing_block pid (addr 3) batch1 reg1 = (Ok ev, s').
Proof.
  pose proof publish_runs as H. 
  destruct (run_bind_inv (publish_batch signing_block pid (addr 3) batch1) EvPublished reg1
              event2 reg2 (surjective_pairing _)) as [(ev & He & _)|[Hf _]].
  - by exists ev, reg2.
  - rewrite H in Hf. discriminate.
Qed.

Lemma dispute_Ok : ∃ ev s', dispute dispute_block padding_dispute reg3 = (Ok ev, s').
Proof.
  pose proof dispute_runs as H.
  destruct (run_bind_inv (dispute dispute_block padding_dispute) EvRepudiated reg3
              event3 (run_call call_dispute reg3).2 (surjective_pairing _)) as [(ev & He & _)|[Hf _]].
  - by eexists ev, _.
  - rewrite H in Hf. discriminate.
Qed.

(** ** Disputes *)
Lemma serves_single (c : InMemoryBlobCarrier) (b : BatchRecord) (rs : list RecordEntry) :
  mem_carries c (br_batch_versioned_hash b) rs → serves c [b] [rs].
Proof.
  intros Hc [|i] b' rs' Hb Hr _; [|done]. apply (inj Some) in Hb, Hr. by subst b' rs'.
Qed.

Lemma faithful_served (s : SReg) (G : Ghost) (now : Z) (d : Dispute) (e : PetitionEntry)
  (recs : list (list RecordEntry)) :
  reg_petitions s !! di_petition_id d = Some e → G !! di_petition_id d = Some recs →
  carried s e recs → faithful_call (CallDispute now d) s G.
Proof.
  intros He HG Hc e' recs'. rewrite He, HG. intros [= <-] [= <-] i b rs rs' Hb Hr Ha Hf.
  specialize (Hc i b rs Hb Hr Ha). apply blob_fetch_carried in Hc.
  rewrite Hc in Hf. by apply (inj Ok) in Hf.
Qed.

Lemma batch_served : serves (rel_blob_carrier relayer1) (pe_batches (entry_in reg3)) [bs_records batch1].
Proof. rewrite (proj1 batches3). apply serves_single, batch_carried. Qed.

Lemma batch_carried3 : carried reg3 (entry_in reg3) [bs_records batch1].
Proof. exact batch_served. Qed.

Lemma the_batch_first : pe_batches (entry_in reg3) !! 0%nat = Some the_batch.
Proof. rewrite (proj1 batches3). reflexivity. Qed.

Lemma dispute_pid : di_petition_id padding_dispute = pid.
Proof. apply bytes_eqb_eq. vm_compute. reflexivity. Qed.
Lemma dispute_first : Z.to_nat (di_batch_index padding_dispute) = 0%nat.
Proof. vm_compute. reflexivity. Qed.

Lemma dispute_faithful : faithful_call call_dispute reg3 ghost2.
Proof.
  refine (faithful_served reg3 ghost2 _ padding_dispute (entry_in reg3) [bs_records batch1] _ _ _).
  - rewrite dispute_pid. exact entry3.
  - rewrite dispute_pid. exact ghost2_pid.
  - exact batch_carried3.
Qed.

Lemma same_entry {A} (o : option A) (a b : A) : o = Some a → o = Some b → a = b.
Proof. congruence. Qed.

Lemma dispute_restores_prior_witness :
  ∃ e' b, pe_batches (entry_in reg3) !! 0%nat = Some b ∧
    pr_running_root (pe_record e') = br_prior_running_root b.
Proof.
  destruct dispute_Ok as (ev & s' & H).
  destruct (dispute_restores_prior signing_block trace2 ghost2 reg3 dispute_block padding_dispute
              ev s' reach3 dispute_faithful H) as (e & e' & b & He & _ & Hb & _ & Hr & _).
  cbn zeta in He, Hb. rewrite dispute_pid in He. rewrite dispute_first in Hb.
  rewrite (same_entry _ _ _ He entry3) in Hb. exists e', b.
  split; [exact Hb|exact Hr].
Defined.

(** The record at the dispute block and at the resolution block. *)
Definition in_window (now : Z) : bool :=
  bool_decide (pr_state (record_at now reg3) = DisputeWindow)
  && is_ok (step_record now (pe_record (entry_in reg3)))
  && (pr_close_at_block (record_at now reg3) =? closing_block).

Lemma window_facts now :
  in_window now = true →
  advanced now reg3 pid (entry_in reg3) (record_at now reg3) ∧
  pr_state (record_at now reg3) = DisputeWindow ∧
  pr_close_at_block (record_at now reg3) = closing_block.
Proof.
  unfold in_window. intros [[H1 H2]%andb_true_iff H3]%andb_true_iff.
  apply bool_decide_eq_true in H1. apply Z.eqb_eq in H3.
  split; [by apply advanced3|by split].
Qed.

Lemma resolution_window : in_window resolution_block = true.
Proof. vm_compute. reflexivity. Qed.


Lemma accepted_batch_undisputable_witness :
  (length (bs_records batch1) ≤ Z.to_nat (di_position_i padding_dispute))%nat ∨
  ∃ j, di_position_j padding_dispute = Some j ∧ (length (bs_records batch1) ≤ Z.to_nat j)%nat.
Proof.
  destruct dispute_Ok as (ev & s' & H).
  apply (accepted_batch_undisputable signing_block trace2 ghost2 reg3 dispute_block padding_dispute
    ev s' (entry_in reg3) [bs_records batch1] the_batch (bs_records batch1) reach3 H).
  - vm_compute. discriminate.
  - assert (di_position_j padding_dispute = Some 999) as -> by (vm_compute; reflexivity).
    intros j Hj. apply (inj Some) in Hj. lia.
  - rewrite dispute_pid. exact entry3.
  - rewrite dispute_pid. exact ghost2_pid.
  - rewrite dispute_first. exact the_batch_first.
  - rewrite dispute_first. reflexivity.
  - exact batch_carried.
Defined.

(** ** Totality *)
Lemma sample_calm (s : SReg) : calm s.
Proof.
  constructor.
  - intros proof pub. apply ensure_no_panic.
  - intros proof pub. apply ensure_no_panic.
  - intros vh o. cbn [blob_verify mem_carrier]. unfold mem_verify.
    no_panic; by apply ok_or_no_panic in H.
  - intros vh. cbn [blob_fetch_records mem_carrier]. unfold mem_fetch_records.
    no_panic; by apply ok_or_no_panic in H.
Qed.

Lemma registry_never_panics_witness : (run_call call_publish reg1).1 ≠ Panic.
Proof.
  apply (registry_never_panics registration_block trace1 ghost1 reg1 call_publish
    (run_call call_publish reg1).1 (run_call call_publish reg1).2).
  - exact reach1.
  - exact (sample_calm reg1).
  - exact batch_records_ok.
  - vm_compute. discriminate.
  - vm_compute. reflexivity.
  - apply surjective_pairing.
Defined.

Lemma bounty_floor_exact_witness : bounty_floor 1 sample_draft = Ok 20.
Proof.
  apply (bounty_floor_exact 1 sample_draft).
  - split; repeat constructor; cbn; lia.
  - lia.
  - vm_compute. reflexivity.
  - reflexivity.
  - reflexivity.
Defined.

(** ** Giving up *)
Definition giving_up_block : Z := 600000.
Definition open_until_then : bool :=
  negb (is_final (pr_state (pe_record (entry_in reg3))))
  && (pr_close_at_block (pe_record (entry_in reg3)) =? closing_block).

Lemma unresolved_always_possible_witness :
  ∃ refund rebate, refund + rebate = bounty_of (pe_record (entry_in reg3)) ∧
    100 * rebate ≤ bounty_of (pe_record (entry_in reg3)).
Proof.
  assert (open_until_then = true) as Ho by (vm_compute; reflexivity).
  apply andb_true_iff in Ho as [Hf Hc]. apply negb_true_iff in Hf. apply Z.eqb_eq in Hc.
  destruct (unresolved_always_possible signing_block trace2 ghost2 reg3 giving_up_block pid
              (entry_in reg3) (addr 4) 1) as (refund & rebate & s' & e' & _ & H1 & _ & H2 & _);
    [exact reach3|exact entry3|exact Hf|lia|rewrite Hc; vm_compute; discriminate
    |rewrite Hc; vm_compute; reflexivity|].
  exists refund, rebate. split; [exact H1|exact H2].
Defined.

(** ** Relaying *)
Lemma pair_Ok {E A1 A2 S1 S2} (d : A1 * A2) (m : outcome E (A1 * A2) * (S1 * S2)) :
  is_ok m.1 = true → m = (Ok ((get d m.1).1, (get d m.1).2), (m.2.1, m.2.2)).
Proof. by destruct m as [[[]| |] []]. Qed.

Lemma batching_Ok :
  build_batch view1 [sub_alice; sub_bob] (relayer0, replica1)
  = (Ok (batch1, (get (mk_batch_submission dummy_public [] [], []) batching.1).2),
     (relayer1, batching.2.2)).
Proof.
  exact (pair_Ok (mk_batch_submission dummy_public [] [], []) batching batch_built_ok).
Qed.

Lemma signing_open : pr_state (record_at signing_block reg1) = SigningOpen.
Proof. vm_compute. reflexivity. Qed.

Lemma relayer_batch_accepted_witness :
  ∃ ev s', publish_batch signing_block pid (addr 3) batch1 reg1 = (Ok ev, s').
Proof.
  destruct (relayer_batch_accepted registration_block trace1 ghost1 reg1 signing_block pid
    (entry_in reg1) (record_at signing_block reg1) relayer0 relayer1 batching.2.2
    [sub_alice; sub_bob] batch1 (get (mk_batch_submission dummy_public [] [], []) batching.1).2
    (word 9) (addr 3)) as [(vh & Hpub & Hvh) H].
  - exact reach1.
  - exact advanced1.
  - exact signing_open.
  - vm_compute. reflexivity.
  - exact batching_Ok.
  - apply mem_publish_address in Hpub.
    assert (published_hash batch1 = registry_hash batch1) as E.
    { rewrite Hvh, Hpub. apply fr_to_from_be_bytes; apply versioned_hash_canonical. }
    apply bytes_eqb_eq in E. rewrite E in H. destruct H as (ev & s' & e' & H & _).
    exists ev, s'. exact H.
Defined.

(** ** Resolution *)
Definition tally_view : ResolverView :=
  mk_resolver_view (word 1) (word 2) (word 3) (word 4) 3 [7; 9] [2; 1] x01 [].
Definition tally_entries : list LeafEntry :=
  map entry_of [mk_record (word 5) (word 6) 7; mk_record (word 7) (word 8) 9;
                mk_record (word 9) (word 10) 7].

Definition dummy_resolution : ResolutionSubmission :=
  mk_resolution_submission (mk_resolution_public fr_zero fr_zero fr_zero fr_zero [] [] fr_zero []
    fr_zero) [].

Lemma resolution_accepted_witness :
  ∃ ev s' e', resolve resolution_block pid (addr 5)
      (get dummy_resolution resolution) reg3 = (Ok ev, s') ∧
    reg_petitions s' !! pid = Some e' ∧ pr_state (pe_record e') = Resolved.
Proof.
  destruct (window_facts resolution_block resolution_window) as (Hadv & Hst & Hcl).
  destruct (resolution_accepted signing_block trace2 ghost2 reg3 resolution_block pid
    (entry_in reg3) (record_at resolution_block reg3) [bs_records batch1] resolver0 (addr 5))
    as (_ & H).
  - exact reach3.
  - exact Hadv.
  - exact Hst.
  - rewrite Hcl. vm_compute. discriminate.
  - rewrite Hcl. vm_compute. reflexivity.
  - apply bytes_eqb_eq. vm_compute. reflexivity.
  - exact ghost2_pid.
  - exact batch_served.
  - rewrite (proj1 batches3). cbn [List.filter]. rewrite (proj2 batches3). discriminate.
  - vm_compute. reflexivity.
  - edestruct H as (ev & s' & e' & H1 & H2 & H3 & _); [apply get_Ok; exact resolution_runs|].
    exists ev, s', e'. split; [exact H1|]. split; [exact H2|exact H3].
Defined.

(** ** Signing *)
Definition quiet_disk : list byte → outcome unit unit := λ _, Ok tt.

Lemma enrolled_lifetime (ri : SRi) class seed secret sg art :
  enrolled ri class seed secret = Ok (sg, art) →
  lifetime quiet_disk (fr_from_be_bytes (word seed)) 4 0 (sg_chain sg).
Proof.
  unfold enrolled, signer_enroll. intros H.
  apply bind_Ok in H as (b & Hb & H). apply (inj Ok) in Hb. subst b.
  apply bind_Ok in H as (b & _ & H). apply bind_Ok in H as (chain & Hc & H).
  apply bind_Ok in H as (h & _ & H). destruct (ri_append_leaf _ _ _) as [i ri'].
  apply (inj Ok) in H. injection H as <- _. cbn [sg_chain].
  by apply (lifetime_enroll quiet_disk _ 4 0).
Qed.

Lemma alice_enrolled : is_ok (enrolled mr_new 7 11 101) = true.
Proof. vm_compute. reflexivity. Qed.

Lemma alice_lifetime :
  lifetime quiet_disk (fr_from_be_bytes (word 11)) 4 0 (sg_chain alice).
Proof.
  apply (enrolled_lifetime mr_new 7 11 101 alice
           (get (dummy_signer, mk_artifact [] [] 0) (enrolled mr_new 7 11 101)).2).
  unfold alice. rewrite <-surjective_pairing. apply get_Ok, alice_enrolled.
Qed.

Lemma run_Ok {E A S} (d : A) (m : outcome E A * S) : is_ok m.1 = true → m = (Ok (get d m.1), m.2).
Proof. by destruct m as [[]]. Qed.

Definition alice1 : SSigner := (sign (meta_for 7) alice).2.
Definition sub_again : SignerSubmission := get dummy_submission (sign (meta_for 7) alice1).1.

Lemma alice_signs : sign (meta_for 7) alice = (Ok sub_alice, alice1).
Proof. apply run_Ok. vm_compute. reflexivity. Qed.
Lemma alice_signs_again : sign (meta_for 7) alice1 = (Ok sub_again, (sign (meta_for 7) alice1).2).
Proof. apply run_Ok. vm_compute. reflexivity. Qed.

Lemma alice1_lifetime :
  lifetime quiet_disk (fr_from_be_bytes (word 11)) 4 0 (sg_chain alice1).
Proof.
  assert (sg_chain alice1 = sg_chain alice) as H by (vm_compute; reflexivity).
  rewrite H. exact alice_lifetime.
Qed.

Lemma slot_start : 0 ≤ pm_slot (meta_for 7).
Proof. vm_compute. discriminate. Qed.

Lemma ri_path_no_panic (ri : SRi) i : mr_merkle_path ri i ≠ Panic.
Proof.
  unfold mr_merkle_path. intros H.
  repeat (apply bind_Panic in H as [H|(? & _ & H)];
    [by (apply ensure_no_panic in H || (unfold ok_or in H; case_match))|]). done.
Qed.

Lemma mock_signer_no_panic pub priv :
  mock_signer_proof mock_backend pub priv ≠ Panic.
Proof.
  unfold mock_signer_proof. intros H.
  repeat (apply bind_Panic in H as [H|(? & _ & H)];
    [by apply ensure_no_panic in H|]). done.
Qed.

Lemma double_signature_rejected_witness :
  is_ok (build_batch view1 [sub_alice; sub_bob; sub_again] (relayer0, replica1)).1 = false.
Proof.
  apply (double_signature_rejected quiet_disk (fr_from_be_bytes (word 11)) 4 0 0 alice alice1
    (meta_for 7) (meta_for 7) sub_alice sub_again alice1 (sign (meta_for 7) alice1).2 view1
    [sub_alice; sub_bob; sub_again] 0 2 (relayer0, replica1)).
  - lia.
  - exact alice_lifetime.
  - exact alice1_lifetime.
  - reflexivity.
  - reflexivity.
  - exact slot_start.
  - exact alice_signs.
  - exact alice_signs_again.
  - reflexivity.
  - reflexivity.
  - discriminate.
Defined.
